(* ===== verification/_CoqProject ===== *)
-Q . S2P
Prelude.v
BTree.v
Traits.v
Net.v
BoolSet.v
NetworkInfo.v
Merkle.v
Broadcast.v
Instances.v
Payload.v
SbvBroadcast.v
BroadcastNet.v
SbvBroadcastNet.v
ThresholdSign.v
ThresholdDecrypt.v
BinaryAgreement.v
BaInvariant.v
BaNode.v
BaEvidence.v
BaAgreement.v
Targets.v
Subset.v
SubsetMoves.v
SubsetNet.v
SubsetDemo.v
HoneyBadger.v
HbEpoch.v
HbNet.v
SelfFree.v
HbDemo.v
HbStall.v
SyncKeyGen.v
SyncKeyGenDemo.v
DhbTypes.v
Votes.v
DynamicHoneyBadger.v
DhbAgreement.v
DhbRun.v
DhbNet.v
DhbDemo.v
DhbNetDemo.v
QueueingHoneyBadger.v
QhbFacts.v
QhbLone.v
QhbNet.v
QhbNetDemo.v
SenderQueue.v
SenderQueueAlgos.v
SenderQueueNet.v
SenderQueueNetDemo.v
VirtualNet.v
Adversaries.v
VirtualNetFacts.v
HbVirtual.v
Dimensions.v
DimensionsDemo.v
