(* ===== verification/Prelude.v ===== *)
(** * Verification of hbbft

    hbbft ([src/src/]) is a library of asynchronous Byzantine fault tolerant protocols.  A
    protocol is a state with methods, for local input and for a message of another node, which
    return a [Step]: messages to send, outputs, and a log of faults.  The protocols are layers:
    Honey Badger runs a [Subset] and a [ThresholdDecrypt] per proposer in every epoch; [Subset]
    runs a [Broadcast] and a [BinaryAgreement] per proposer; [BinaryAgreement] runs an
    [SbvBroadcast] and a [ThresholdSign], its coin, per epoch.  Dynamic Honey Badger puts votes
    and a key generation on the chain of a Honey Badger, Queueing Honey Badger adds a queue of
    transactions, and the sender queue wraps any of the three.  [src/hbbft_testing/] is a virtual
    network, with adversaries, in which the tests run them.

    ** How the code is modelled

    A type of the code is a [Record] or an [Inductive] with the same fields and constructors; a
    method is a definition of the same name in a state and error monad ([M], below), whose outcome
    is [Ok], [Err] (the method's [Result]; the state is what the failed call leaves), [Panic] (an
    [unwrap], [expect], [assert!] or index that fails) or [NoFuel].  A call of a method of a field
    is [zoom], [?] is the monad's bind, [map_err] is itself.  A [BTreeMap] is a [gmap] whose
    iterations go through its entries in key order ([BTree]).  A [u64] is a [Z] and its addition
    wraps ([u64_add]); a [usize] that indexes or counts elements is a [nat].  What two values share
    by [Arc] is not changed after it is made, and is copied.

    The crates that the code calls are interfaces, classes whose laws are classes of their own:
    [Crypto] ([threshold_crypto] and [rand]), [Sha3], [ReedSolomonLib], [ByteOrder], [Bincode],
    [PolyLib].  [Instances] and [SyncKeyGenDemo] have instances that satisfy the laws, on which the
    witnesses evaluate whole executions.

    ** Files

    - [Prelude], [BTree], [Traits] ([messaging.rs], [fault_log.rs], [traits.rs]), [NetworkInfo]
      ([network_info.rs], [util.rs]), [Instances]: what the components share.  [wp] and [after]
      are the assertions on calls by which the handlers are verified.
    - [Net]: the asynchronous network, a step relation that delivers any message in any order
      and any number of times, and lets faulty nodes send anything in their own name.
    - [Merkle], [Broadcast], [Payload], [BroadcastNet] ([broadcast/]).
    - [BoolSet], [SbvBroadcast], [SbvBroadcastNet], [ThresholdSign], [BinaryAgreement],
      [BaInvariant], [BaNode], [BaEvidence], [BaAgreement] ([binary_agreement/],
      [threshold_sign.rs]).
    - [Targets], [SelfFree]: no node addresses a message to itself.
    - [Subset], [SubsetMoves], [SubsetNet], [SubsetDemo] ([subset/]).
    - [ThresholdDecrypt], [HoneyBadger], [HbEpoch], [HbNet], [HbDemo], [HbStall]
      ([threshold_decrypt.rs], [honey_badger/]).
    - [SyncKeyGen], [SyncKeyGenDemo] ([sync_key_gen.rs]).
    - [DhbTypes], [Votes], [DynamicHoneyBadger], [DhbAgreement], [DhbRun], [DhbNet], [DhbDemo],
      [DhbNetDemo] ([dynamic_honey_badger/]).
    - [QueueingHoneyBadger], [QhbFacts], [QhbLone], [QhbNet], [QhbNetDemo]
      ([queueing_honey_badger/], [transaction_queue.rs]).
    - [SenderQueue], [SenderQueueAlgos], [SenderQueueNet], [SenderQueueNetDemo]
      ([sender_queue/]).
    - [VirtualNet], [Adversaries], [VirtualNetFacts], [HbVirtual], [Dimensions],
      [DimensionsDemo] ([hbbft_testing/src/]).

    A file whose name ends in [Net] has what holds in a network of nodes that run the component,
    one that ends in [Demo] an execution on which the witnesses evaluate.

    ** What is proved

    - Honey Badger: correct nodes output the same batches, in order and whole, with contributions
      of correct proposers as proposed; the state is bounded; and an epoch that a
      proposer without a valid ciphertext stops for good ([HbNet], [HbStall]).  These hold for
      every encryption schedule.  Calls return if the schedule can be evaluated; under one that
      divides by zero ([EveryNthEpoch] of 0, [TickTock] of a period of 0) every proposal panics
      and no correct node ever outputs anything ([HbNet.hb_net.hb_returns]).
    - The layers below: agreement and validity of broadcast, binary agreement and subset, each
      network a refinement of networks of the layer below; what threshold signing and decryption
      output; termination of calls; round trip of payloads; binding of Merkle proofs.
    - Dynamic Honey Badger: correct nodes output the same batches, numbered without gaps,
      through all changes of the era until the validators change; each era is a network of Honey
      Badger nodes; votes are counted alike; the generated keys fit together; and two ways in
      which a faulty node breaks this ([DhbNet], [DhbAgreement], [SyncKeyGenDemo]).  The network
      theorems are about nodes that run on after errors and after the change; what they say is
      about the outputs up to and including the batch that completes a change ([in_charge]), in
      worlds in which no correct node has failed to process a batch ([sound]):
      [departing_validator_loses_batch] of [DhbAgreement] shows that such a failure loses batches.
    - Queueing Honey Badger: a call is calls of Dynamic Honey Badger, and a network of it is one of
      Dynamic Honey Badger nodes, with the same guarantees as long as no correct node has failed
      to process a batch or to propose ([q_sound] of [QhbNet]); transactions stay queued until
      they are output; a lone validator's loop has no end.
    - Sender queue: from the time it is built and through all its calls, messages for a peer wait
      only until their own epoch, and an announcement of the peer releases what is due
      ([SenderQueue]); a network of sender queues, around any algorithm, keeps the algorithms in
      states of a network without the queues, so that [HbNet] applies ([SenderQueueNet]).
    - The test framework: what correct nodes do in a virtual network with any adversary that keeps
      to its handle is what they do in [Net], so that [HbNet] applies there: that no node writes to
      itself, which this needs, holds of Honey Badger in every state ([SelfFree]).  The numbering of the
      network dimensions is a bijection; shrinking finds the least failing dimension, but
      leaves the range of the strategy ([Dimensions]).

    At most [f] validators of [N] are faulty, [3 f < N].  Theorems about networks exclude hash
    collisions and epoch numbers that wrap around, and say so in their statements.

    ** Bounds

    Recursion between handlers of one instance has constant fuel, as each handler recurs only
    after it has set a flag that stops it: 2 in [Broadcast], [ThresholdSign] and
    [ThresholdDecrypt], 3 in [SbvBroadcast].  [Merkle] recurs on the number of leaves.
    [BinaryAgreement] moves through at most [epoch_fuel] epochs in one call, the queued ones and
    those that a fixed coin ends; [HoneyBadger.try_output_batches] outputs at most a batch for each
    epoch that it stores.  The theorems on these calls exclude [NoFuel].  The loop of
    [QueueingHoneyBadger.propose] and that of the random adversary have no bound, so theirs is
    an argument: more of it changes no result ([QhbFacts.qhb_facts.propose_loop_fuel]).

    The search of a test strategy takes at most 32 steps ([Dimensions.dimensions.shrink]), since it
    halves an interval of numbers below 2^30.

    ** Not modelled

    [Debug], [Display], [serde] and [Distribution] implementations, which the protocols do not
    call; the strategies of [hbbft_testing/src/proptest.rs] that only pass on a generator of
    the [proptest] crate; the integration tests and the examples, which are no part of the
    library (a simulation of latencies and bandwidths, and a program that sends the messages of
    [Broadcast] over sockets); the trace file and the clock, which are output and input.

    What the theorems on the networks of Dynamic and Queueing Honey Badger say ends with the
    batch that completes a change of the validators, though the nodes run on: the next network has other validators, with keys of
    which [SyncKeyGen.sync_key_gen.generated_shares_fit] says that they fit.  Liveness of whole
    networks is not stated, as nothing in the code or in [Net] makes the delivery of messages fair;
    what is proved of it is that calls return ([HbNet], [BaNode]) and which messages suffice for
    a decryption ([ThresholdDecrypt]).  Failing calls do not advance the random number generator
    of the model, and a random choice is one of an abstract generator, without probabilities. *)
From stdpp Require Export functions.
From stdpp Require Export base tactics option list numbers gmap sets sorting vector.
From stdpp Require Export strings.
From Stdlib Require Export Init.Byte.

(** ** Record update

    [x <| f := v |>] is the record [x] with the field [f] replaced.  A record type
    opts in with one [Settable] instance, its eta expansion; the setter of each
    field is computed from it. *)
Class Settable (R : Type) := eta_expand : R → R.
#[global] Hint Mode Settable ! : typeclass_instances.

Class Setter {R T : Type} (proj : R → T) := set_field : (T → T) → R → R.
#[global] Hint Mode Setter - - ! : typeclass_instances.

Ltac derive_setter :=
  match goal with
  | |- @Setter ?R ?T ?proj =>
      let inst := constr:(_ : Settable R) in
      let e := eval cbv in inst in
      let e := eval hnf in inst in
      let p := eval pattern proj in e in
      match p with
      | ?F _ => exact (fun f : T → T => F (fun r : R => f (proj r)))
      end
  end.
#[export] Hint Extern 1 (Setter _) => derive_setter : typeclass_instances.

Declare Scope record_scope.
Notation "x <| proj := v |>" := (set_field (proj := proj) (λ _, v) x)
  (at level 1, left associativity, format "x <| proj  :=  v |>") : record_scope.
Notation "x <| proj ::= f |>" := (set_field (proj := proj) f x)
  (at level 1, left associativity, format "x <| proj  ::=  f |>") : record_scope.
#[global] Open Scope record_scope.

(** ** Machine words

    [u64] and [u32] values are [Z]s in range; the operators wrap around, as in a
    release build of the crate. *)
Abbreviation u64 := Z (only parsing).
Abbreviation u32 := Z (only parsing).
Definition u64_max : Z := (2 ^ 64 - 1)%Z.
Definition wrap64 (z : Z) : u64 := (z mod 2 ^ 64)%Z.
Definition wrap32 (z : Z) : u32 := (z mod 2 ^ 32)%Z.
Definition u64_add (a b : u64) : u64 := wrap64 (a + b).
Definition u64_sub (a b : u64) : u64 := wrap64 (a - b).
Definition u32_add (a b : u32) : u32 := wrap32 (a + b).
Definition in_u64 (z : Z) : Prop := (0 ≤ z < 2 ^ 64)%Z.
Definition in_u32 (z : Z) : Prop := (0 ≤ z < 2 ^ 32)%Z.

Lemma wrap64_small z : in_u64 z → wrap64 z = z.
Proof. apply Z.mod_small. Qed.
Lemma wrap32_small z : in_u32 z → wrap32 z = z.
Proof. apply Z.mod_small. Qed.
Lemma wrap64_range z : in_u64 (wrap64 z).
Proof. apply Z.mod_pos_bound. lia. Qed.
Lemma wrap32_range z : in_u32 (wrap32 z).
Proof. apply Z.mod_pos_bound. lia. Qed.
Lemma u64_add_small a b : in_u64 (a + b) → u64_add a b = (a + b)%Z.
Proof. apply wrap64_small. Qed.

(** ** Lists *)
Lemma elem_of_concat {A} (x : A) (ls : list (list A)) : x ∈ concat ls ↔ ∃ l, x ∈ l ∧ l ∈ ls.
Proof.
  rewrite list_elem_of_In, in_concat. split; intros (l & H1 & H2); exists l;
    (split; by apply list_elem_of_In).
Qed.

(** What a list is, seen through a function *)
Lemma fmap_lookup {A B} (g : A → B) (l : list A) (l' : list B) n : g <$> l = l' → n < length l' →
  ∃ x, l !! n = Some x ∧ l' !! n = Some (g x).
Proof.
  intros <- Hn. rewrite length_fmap in Hn. destruct (lookup_lt_is_Some_2 l n Hn) as [x Hx].
  exists x. by rewrite list_lookup_fmap, Hx.
Qed.

(** ** Methods with [&mut self]

    A Rust method that takes [&mut self] and returns [Result<A, E>] is a function
    from the state to an [outcome].  The state that an early return leaves behind
    is part of the outcome, on [Err] as on [Ok]: what was assigned before a [?] or
    a [return] stays assigned.  [Panic] is a failed [assert!], an [expect] on an
    error, an index out of bounds or a division by zero.  [NoFuel] is not a
    behaviour of the program: it marks a run whose recursion bound was too small,
    and every component proves that its bound is not. *)
Inductive outcome (S E A : Type) : Type :=
  | Ok (s : S) (a : A)
  | Err (s : S) (e : E)
  | Panic
  | NoFuel.
Arguments Ok {S E A} s a.
Arguments Err {S E A} s e.
Arguments Panic {S E A}.
Arguments NoFuel {S E A}.

Definition M (S E A : Type) : Type := S → outcome S E A.

#[export] Instance M_ret {S E} : MRet (M S E) := λ A a s, Ok s a.
#[export] Instance M_bind {S E} : MBind (M S E) := λ A B k m s,
  match m s with
  | Ok s' a => k a s'
  | Err s' e => Err s' e
  | Panic => Panic
  | NoFuel => NoFuel
  end.

(** The primitive effects. *)
Definition get {S E} : M S E S := λ s, Ok s s.
Definition gets {S E A} (f : S → A) : M S E A := λ s, Ok s (f s).
Definition modify {S E} (f : S → S) : M S E () := λ s, Ok (f s) ().
Definition throw {S E A} (e : E) : M S E A := λ s, Err s e.
Definition panic {S E A} : M S E A := λ _, Panic.
Definition no_fuel {S E A} : M S E A := λ _, NoFuel.

(** [assert!(b)] *)
Definition assert_ {S E} (b : bool) : M S E () := if b then mret () else panic.
(** [o.ok_or(e)?] *)
Definition ok_or {S E A} (o : option A) (e : E) : M S E A :=
  match o with Some a => mret a | None => throw e end.
(** [o.expect(..)] or an indexing expression *)
Definition expect {S E A} (o : option A) : M S E A :=
  match o with Some a => mret a | None => panic end.
(** a [Result] computed by code outside of the crate, with [?] *)
Definition of_sum {S E A} (r : E + A) : M S E A :=
  match r with inl e => throw e | inr a => mret a end.
(** [r.map_err(f)?] *)
Definition map_err {S E E' A} (f : E → E') (m : M S E A) : M S E' A := λ s,
  match m s with
  | Ok s' a => Ok s' a
  | Err s' e => Err s' (f e)
  | Panic => Panic
  | NoFuel => NoFuel
  end.
(** a [match] on the [Result] of a method *)
Definition try_ {S E E' A} (m : M S E A) : M S E' (E + A) := λ s,
  match m s with
  | Ok s' a => Ok s' (inr a)
  | Err s' e => Ok s' (inl e)
  | Panic => Panic
  | NoFuel => NoFuel
  end.
(** [self.field.method()]: runs the method of a component on a part of the state. *)
Definition zoom {S T E A} (get : S → T) (put : T → S → S) (m : M T E A) : M S E A := λ s,
  match m (get s) with
  | Ok t a => Ok (put t s) a
  | Err t e => Err (put t s) e
  | Panic => Panic
  | NoFuel => NoFuel
  end.
(** [for x in l { body(x)? }] threading an accumulator, in list order *)
Fixpoint for_acc {S E A B} (body : B → A → M S E B) (acc : B) (l : list A) : M S E B :=
  match l with
  | [] => mret acc
  | x :: l' => acc' ← body acc x; for_acc body acc' l'
  end.

(** ** Total correctness

    [wp m s Q R]: from [s], [m] returns, with [Ok] only in a state and value of
    [Q], with [Err] only in a state and error of [R]; it does not panic and does
    not run out of fuel. *)
Definition wp {S E A} (m : M S E A) (s : S) (Q : S → A → Prop) (R : S → E → Prop) : Prop :=
  match m s with
  | Ok s' a => Q s' a
  | Err s' e => R s' e
  | Panic | NoFuel => False
  end.

Section wp_rules.
Context {S E A B : Type}.
Implicit Types (s : S) (a : A) (e : E).

Lemma wp_ret a s (Q : S → A → Prop) (R : S → E → Prop) : Q s a → wp (mret a) s Q R.
Proof. done. Qed.

Lemma wp_bind (m : M S E A) (k : A → M S E B) s Q R :
  wp m s (λ s' a, wp (k a) s' Q R) R → wp (m ≫= k) s Q R.
Proof. unfold wp, mbind, M_bind. destruct (m s); done. Qed.

Lemma wp_bind_inv (m : M S E A) (k : A → M S E B) s Q R :
  wp (m ≫= k) s Q R → wp m s (λ s' a, wp (k a) s' Q R) R.
Proof. unfold wp, mbind, M_bind. destruct (m s); done. Qed.

Lemma wp_gets (f : S → A) s (Q : S → A → Prop) (R : S → E → Prop) :
  Q s (f s) → wp (gets f) s Q R.
Proof. done. Qed.

Lemma wp_get s (Q : S → S → Prop) (R : S → E → Prop) : Q s s → wp get s Q R.
Proof. done. Qed.

Lemma wp_modify (f : S → S) s (Q : S → () → Prop) (R : S → E → Prop) :
  Q (f s) () → wp (modify f) s Q R.
Proof. done. Qed.

Lemma wp_throw e s (Q : S → A → Prop) (R : S → E → Prop) : R s e → wp (throw e) s Q R.
Proof. done. Qed.

Lemma wp_mono (m : M S E A) s (Q Q' : S → A → Prop) (R R' : S → E → Prop) :
  wp m s Q R → (∀ s' a, Q s' a → Q' s' a) → (∀ s' e, R s' e → R' s' e) → wp m s Q' R'.
Proof. unfold wp. destruct (m s); naive_solver. Qed.

Lemma wp_mono_ok (m : M S E A) s (Q Q' : S → A → Prop) (R : S → E → Prop) :
  wp m s Q R → (∀ s' a, Q s' a → Q' s' a) → wp m s Q' R.
Proof. intros Hm HQ. by eapply wp_mono. Qed.

Lemma wp_ok_or o e s (Q : S → A → Prop) (R : S → E → Prop) :
  (∀ a, o = Some a → Q s a) → (o = None → R s e) → wp (ok_or o e) s Q R.
Proof. destruct o; simpl; intros HS HN; [by apply HS | by apply HN]. Qed.

Lemma wp_expect o s (Q : S → A → Prop) (R : S → E → Prop) :
  (∃ a, o = Some a ∧ Q s a) → wp (expect o) s Q R.
Proof. intros (a & -> & HQ). exact HQ. Qed.

Lemma wp_assert b s (Q : S → () → Prop) (R : S → E → Prop) :
  b = true → Q s () → wp (assert_ b) s Q R.
Proof. intros -> HQ. exact HQ. Qed.

Lemma wp_ok (m : M S E A) s Q R s' a : wp m s Q R → m s = Ok s' a → Q s' a.
Proof. unfold wp. intros H Hm. by rewrite Hm in H. Qed.

Lemma wp_err (m : M S E A) s Q R s' e : wp m s Q R → m s = Err s' e → R s' e.
Proof. unfold wp. intros H Hm. by rewrite Hm in H. Qed.

(** The result of a bind that returned [Ok] comes from two [Ok]s. *)
Lemma bind_ok_inv (m : M S E A) (k : A → M S E B) s s' b :
  (m ≫= k) s = Ok s' b → ∃ s1 a, m s = Ok s1 a ∧ k a s1 = Ok s' b.
Proof. unfold mbind, M_bind. destruct (m s); naive_solver. Qed.
End wp_rules.

Lemma wp_map_err {S E E' A} (f : E → E') (m : M S E A) s Q R :
  wp m s Q (λ s' e, R s' (f e)) → wp (map_err f m) s Q R.
Proof. unfold wp, map_err. by destruct (m s). Qed.

Lemma wp_zoom {S T E A} (get : S → T) (put : T → S → S) (m : M T E A) s Q R :
  wp m (get s) (λ t a, Q (put t s) a) (λ t e, R (put t s) e) → wp (zoom get put m) s Q R.
Proof. unfold wp, zoom. by destruct (m (get s)). Qed.

Lemma wp_try {S E E' A} (m : M S E A) s (Q : S → E + A → Prop) (R : S → E' → Prop) :
  wp m s (λ s' a, Q s' (inr a)) (λ s' e, Q s' (inl e)) → wp (try_ m) s Q R.
Proof. unfold wp, try_. by destruct (m s). Qed.

(** Loop rule: an invariant on the remaining list, the state and the accumulator. *)
Lemma wp_for_acc {S E A B} (body : B → A → M S E B) (I : list A → S → B → Prop)
    (R : S → E → Prop) l acc s :
  I l s acc →
  (∀ x l' s' acc', I (x :: l') s' acc' → wp (body acc' x) s' (λ s'' acc'', I l' s'' acc'') R) →
  wp (for_acc body acc l) s (λ s' acc', I [] s' acc') R.
Proof.
  intros HI Hstep. revert acc s HI.
  induction l as [|x l IH]; intros acc s HI; simpl; [done|].
  apply wp_bind. eapply wp_mono; [by apply Hstep | simpl; eauto | done].
Qed.

(** ** Partial correctness

    [after m s Q R]: if [m] returns, it is in a state and value of [Q], or with an error in
    a state of [R]. *)
Definition after {S E A} (m : M S E A) (s : S) (Q : S → A → Prop) (R : S → Prop) : Prop :=
  match m s with Ok s' a => Q s' a | Err s' _ => R s' | _ => True end.

Section after.
Context {S E A : Type}.
Lemma after_bind {B} (m : M S E A) (k : A → M S E B) s Q R :
  after m s (λ s' a, after (k a) s' Q R) R → after (m ≫= k) s Q R.
Proof. unfold after, mbind, M_bind. by destruct (m s). Qed.
Lemma after_mono (m : M S E A) s (Q Q' : S → A → Prop) (R R' : S → Prop) :
  after m s Q R → (∀ s' a, Q s' a → Q' s' a) → (∀ s', R s' → R' s') → after m s Q' R'.
Proof. unfold after. destruct (m s); auto. Qed.
End after.
Lemma after_zoom {S T E A} (get : S → T) (put : T → S → S) (m : M T E A) s Q R :
  after m (get s) (λ t a, Q (put t s) a) (λ t, R (put t s)) → after (zoom get put m) s Q R.
Proof. unfold after, zoom. by destruct (m (get s)). Qed.

Lemma after_for_acc {S E A B} (body : B → A → M S E B) (I : B → Prop) l :
  (∀ x acc s, I acc → after (body acc x) s (λ _ acc', I acc') (λ _, True)) →
  ∀ acc s, I acc → after (for_acc body acc l) s (λ _ acc', I acc') (λ _, True).
Proof.
  intros Hb. induction l as [|x l IH]; intros acc s Hacc; simpl; [done|].
  apply after_bind. eapply after_mono; [by apply Hb| |done]. intros s' acc' ?. by apply IH.
Qed.

Lemma after_map_err {S E E' A} (f : E → E') (m : M S E A) s (Q : S → A → Prop) R :
  after m s Q R → after (map_err f m) s Q R.
Proof. unfold after, map_err. by destruct (m s). Qed.
Lemma after_try {S E E' A} (m : M S E A) s (Q : S → E + A → Prop) R :
  after m s (λ s' a, Q s' (inr a)) (λ s', ∀ e, Q s' (inl e)) → after (try_ (E' := E') m) s Q R.
Proof. unfold after, try_. destruct (m s); auto. Qed.

Section after_rules.
Context {S E A : Type}.
Lemma after_ret (a : A) s (Q : S → A → Prop) R : Q s a → after (E := E) (mret a) s Q R.
Proof. done. Qed.
Lemma after_get s (Q : S → S → Prop) R : Q s s → after (E := E) get s Q R.
Proof. done. Qed.
Lemma after_modify f s (Q : S → () → Prop) R : Q (f s) () → after (E := E) (modify f) s Q R.
Proof. done. Qed.
Lemma after_throw e s (Q : S → A → Prop) (R : S → Prop) : R s → after (E := E) (throw e) s Q R.
Proof. done. Qed.
Lemma after_expect o s (Q : S → A → Prop) R : (∀ a, o = Some a → Q s a) → after (E := E) (expect o) s Q R.
Proof. intros HQ. destruct o; [by apply HQ|done]. Qed.
Lemma after_assert b s (Q : S → () → Prop) R : (b = true → Q s ()) → after (E := E) (assert_ b) s Q R.
Proof. intros HQ. destruct b; [by apply HQ|done]. Qed.
End after_rules.

(** One symbolic step of a monadic program that may panic. *)
Ltac after_step :=
  match goal with
  | |- after (_ ≫= _) _ _ _ => apply after_bind
  | |- after (map_err _ _) _ _ _ => apply after_map_err
  | |- after (zoom _ _ _) _ _ _ => apply after_zoom
  | |- after (try_ _) _ _ _ => apply after_try
  | |- after (mret _) _ _ _ => apply after_ret
  | |- after get _ _ _ => apply after_get
  | |- after (modify _) _ _ _ => apply after_modify
  | |- after (throw _) _ _ _ => apply after_throw
  | |- after panic _ _ _ => exact I
  | |- after no_fuel _ _ _ => exact I
  | |- after (expect _) _ _ _ => let x := fresh "x" in let E := fresh "E" in apply after_expect; intros x E
  | |- after (assert_ _) _ _ _ => let E := fresh "E" in apply after_assert; intros E
  | |- after (if ?b then _ else _) _ _ _ => let E := fresh "E" in destruct b eqn:E
  | |- after (match ?b with _ => _ end) _ _ _ => let E := fresh "E" in destruct b eqn:E
  end; cbn beta match.

Create HintDb wp.
#[export] Hint Resolve wp_ret wp_get wp_gets wp_modify wp_throw : wp.

(** One symbolic step of a monadic program. *)
Ltac wp_step :=
  match goal with
  | |- wp (_ ≫= _) _ _ _ => apply wp_bind
  | |- wp (mret _) _ _ _ => apply wp_ret
  | |- wp get _ _ _ => apply wp_get
  | |- wp (gets _) _ _ _ => apply wp_gets
  | |- wp (modify _) _ _ _ => apply wp_modify
  | |- wp (throw _) _ _ _ => apply wp_throw
  | |- wp (map_err _ _) _ _ _ => apply wp_map_err
  | |- wp (zoom _ _ _) _ _ _ => apply wp_zoom
  | |- wp (try_ _) _ _ _ => apply wp_try
  | |- wp (if ?b then _ else _) _ _ _ => let E := fresh "E" in destruct b eqn:E
  | |- wp (match ?b with _ => _ end) _ _ _ => let E := fresh "E" in destruct b eqn:E
  end; cbn beta.
Ltac wp_steps := repeat wp_step.
