(* ===== verification/BTree.v ===== *)
(** * Ordered maps and sets

    The crate keeps its state in [BTreeMap]s and [BTreeSet]s.  They are modelled by
    stdpp's [gmap] and [gset], which give lookup, insertion and removal; what an
    iteration sees is the list of entries in ascending key order, [entries],
    computed by sorting.  [OrdKey] is the interface of a key type (Rust's [Ord] and
    [Eq]), and [NodeIdT] that of a node identifier ([src/traits.rs]). *)
From S2P Require Import Prelude.

Class OrdKey (K : Type) := {
  ord_eq_dec :: EqDecision K;
  ord_countable :: Countable K;
  ord_le : relation K;
  ord_le_dec :: RelDecision ord_le;
  ord_le_total :: TotalOrder ord_le;
}.
#[global] Hint Mode OrdKey ! : typeclass_instances.

(** [a < b] of Rust's [Ord] *)
Definition ord_lt {K} `{OrdKey K} : relation K := strict ord_le.
#[export] Instance ord_lt_dec {K} `{OrdKey K} : RelDecision (@ord_lt K _).
Proof. intros x y. unfold ord_lt, strict. apply _. Defined.

Section order.
Context {K : Type} `{OrdKey K}.

Lemma ord_le_refl (x : K) : ord_le x x.
Proof. reflexivity. Qed.

Lemma ord_le_trans (x y z : K) : ord_le x y → ord_le y z → ord_le x z.
Proof. apply transitivity. Qed.

Lemma ord_le_antisym (x y : K) : ord_le x y → ord_le y x → x = y.
Proof. apply (anti_symm ord_le). Qed.

Lemma ord_le_or (x y : K) : ord_le x y ∨ ord_le y x.
Proof.
  destruct (trichotomy (strict ord_le) x y) as [[]|[->|[]]]; auto using ord_le_refl.
Qed.

Lemma ord_lt_nle (x y : K) : ord_lt x y ↔ ¬ ord_le y x.
Proof.
  split; [intros [_ ?]; done|]. intros Hn. destruct (ord_le_or x y); [|done].
  by split.
Qed.

Lemma ord_lt_irrefl (x : K) : ¬ ord_lt x x.
Proof. intros [? []]. apply ord_le_refl. Qed.

Lemma ord_lt_le (x y : K) : ord_lt x y → ord_le x y.
Proof. by intros []. Qed.

Lemma ord_lt_le_trans (x y z : K) : ord_lt x y → ord_le y z → ord_lt x z.
Proof.
  rewrite !ord_lt_nle. intros Hn Hyz Hzx. apply Hn. by eapply ord_le_trans.
Qed.
End order.

(** The key types of the program: indices, epochs, and pairs of an era and an epoch,
    ordered lexicographically. *)
Lemma total_order_of {A} (R : relation A) `{!EqDecision A, !PartialOrder R} :
  (∀ x y, R x y ∨ R y x) → TotalOrder R.
Proof.
  intros Htot. split; [apply _|]. intros x y. unfold strict.
  destruct (decide (x = y)) as [->|Hne]; [auto|].
  destruct (Htot x y); [left|do 2 right]; split; auto; intros ?; by destruct Hne; apply (anti_symm R).
Qed.

Lemma nat_le_total_order : TotalOrder le.
Proof. refine (total_order_of le _). lia. Qed.
Lemma Z_le_total_order : TotalOrder Z.le.
Proof. refine (total_order_of Z.le _). lia. Qed.

#[export] Instance nat_ord_key : OrdKey nat :=
  {| ord_le := le; ord_le_total := nat_le_total_order |}.
#[export] Instance Z_ord_key : OrdKey Z :=
  {| ord_le := Z.le; ord_le_total := Z_le_total_order |}.

Section pair.
Context {K1 K2 : Type} `{OrdKey K1} `{OrdKey K2}.

Definition pair_le : relation (K1 * K2) := λ p q,
  ord_lt p.1 q.1 ∨ (p.1 = q.1 ∧ ord_le p.2 q.2).

#[export] Instance pair_le_dec : RelDecision pair_le.
Proof. intros p q. unfold pair_le. apply _. Defined.

Lemma pair_le_total : TotalOrder pair_le.
Proof.
  unfold pair_le. repeat split.
  - right. auto using ord_le_refl.
  - intros [a1 b1] [a2 b2] [a3 b3]; simpl.
    intros [Hl|[-> ?]] [Hl'|[-> ?]]; auto; [left..|right].
    + eauto using ord_lt_le_trans, ord_lt_le.
    + eauto using ord_le_trans.
  - intros [a1 b1] [a2 b2]; simpl. intros [Hl|[-> ?]] [Hl'|[? ?]]; subst.
    + destruct (ord_lt_irrefl a1). eauto using ord_lt_le_trans, ord_lt_le.
    + by destruct (ord_lt_irrefl a1).
    + by destruct (ord_lt_irrefl a2).
    + f_equal. by apply ord_le_antisym.
  - intros [a1 b1] [a2 b2]. unfold strict; simpl.
    destruct (decide (a1 = a2)) as [->|Hne].
    + destruct (decide (b1 = b2)) as [->|Hneb]; [by auto|].
      assert (Hirr : ¬ ord_lt a2 a2) by apply ord_lt_irrefl.
      destruct (ord_le_or b1 b2) as [Hb|Hb]; [left|do 2 right]; split; auto;
        intros [?|[_ Hb']]; auto; apply Hneb; by apply ord_le_antisym.
    + destruct (ord_le_or a1 a2) as [Ha|Ha]; [left|do 2 right]; split.
      * left. split; [done|]. intros ?. apply Hne. by apply ord_le_antisym.
      * intros [[? Hn]|[? _]]; [done|congruence].
      * left. split; [done|]. intros ?. apply Hne. by apply ord_le_antisym.
      * intros [[? Hn]|[? _]]; [done|congruence].
Qed.

#[export] Instance pair_ord_key : OrdKey (K1 * K2) :=
  {| ord_le := pair_le; ord_le_total := pair_le_total |}.
End pair.

(** ** Iteration *)
Section entries.
Context {K : Type} `{OrdKey K}.

Definition entry_le {V} : relation (K * V) := λ p q, ord_le p.1 q.1.
#[export] Instance entry_le_dec {V} : RelDecision (@entry_le V) := λ p q, ord_le_dec p.1 q.1.

(** [map.iter()] *)
Definition entries {V} (m : gmap K V) : list (K * V) := merge_sort entry_le (map_to_list m).
(** [map.keys()] *)
Definition keys {V} (m : gmap K V) : list K := (entries m).*1.
(** [map.values()] *)
Definition values {V} (m : gmap K V) : list V := (entries m).*2.
(** [set.iter()] *)
Definition set_items (s : gset K) : list K := merge_sort ord_le (elements s).
(** [keys().enumerate()] looked up by key: the index of a key *)
Definition index_of (k : K) (l : list K) : option nat := fst <$> list_find (k =.) l.
(** [iter().map(|(k, v)| (k, f(k, v))).collect()] *)
Definition keys_map (l : list K) : gmap K nat :=
  list_to_map (imap (λ i k, (k, i)) l).

#[local] Instance entry_le_trans {V} : Transitive (@entry_le V).
Proof. intros p q r. apply ord_le_trans. Qed.
#[local] Instance entry_le_total {V} : Total (@entry_le V).
Proof. intros p q. apply ord_le_or. Qed.

Lemma entries_perm {V} (m : gmap K V) : entries m ≡ₚ map_to_list m.
Proof. apply merge_sort_Permutation. Qed.

Lemma elem_of_entries {V} (m : gmap K V) k v : (k, v) ∈ entries m ↔ m !! k = Some v.
Proof. by rewrite entries_perm, elem_of_map_to_list. Qed.

Lemma elem_of_keys {V} (m : gmap K V) k : k ∈ keys m ↔ is_Some (m !! k).
Proof.
  unfold keys. rewrite list_elem_of_fmap. split.
  - intros ([k' v] & -> & Hin%elem_of_entries). by eexists.
  - intros [v Hv]. exists (k, v). by rewrite elem_of_entries.
Qed.

Lemma elem_of_values {V} (m : gmap K V) v : v ∈ values m ↔ ∃ k, m !! k = Some v.
Proof.
  unfold values. rewrite list_elem_of_fmap. split.
  - intros ([k v'] & -> & Hin%elem_of_entries). by eexists.
  - intros [k Hk]. exists (k, v). by rewrite elem_of_entries.
Qed.

Lemma NoDup_keys {V} (m : gmap K V) : NoDup (keys m).
Proof. unfold keys. rewrite entries_perm. apply NoDup_fst_map_to_list. Qed.

Lemma length_entries {V} (m : gmap K V) : length (entries m) = size m.
Proof. rewrite entries_perm. apply length_map_to_list. Qed.

Lemma length_keys {V} (m : gmap K V) : length (keys m) = size m.
Proof. unfold keys. by rewrite length_fmap, length_entries. Qed.

Lemma length_values {V} (m : gmap K V) : length (values m) = size m.
Proof. unfold values. by rewrite length_fmap, length_entries. Qed.

Lemma keys_sorted {V} (m : gmap K V) : StronglySorted ord_le (keys m).
Proof.
  unfold keys, entries.
  pose proof (StronglySorted_merge_sort (@entry_le V) (map_to_list m)) as Hs.
  induction Hs as [|p l _ IH Hall]; simpl; constructor; [done|].
  rewrite Forall_fmap. by eapply Forall_impl; [exact Hall|].
Qed.

Lemma elem_of_set_items (s : gset K) k : k ∈ set_items s ↔ k ∈ s.
Proof. unfold set_items. by rewrite merge_sort_Permutation, elem_of_elements. Qed.

Lemma NoDup_set_items (s : gset K) : NoDup (set_items s).
Proof. unfold set_items. rewrite merge_sort_Permutation. apply NoDup_elements. Qed.

Lemma length_set_items (s : gset K) : length (set_items s) = size s.
Proof. unfold set_items. by rewrite merge_sort_Permutation. Qed.

Lemma set_items_sorted (s : gset K) : StronglySorted ord_le (set_items s).
Proof.
  assert (Total (@ord_le K _)) by exact ord_le_or.
  apply (StronglySorted_merge_sort ord_le).
Qed.

(** Two sorted enumerations of the same keys are the same list. *)
Lemma sorted_unique (l1 l2 : list K) :
  StronglySorted ord_le l1 → StronglySorted ord_le l2 → l1 ≡ₚ l2 → l1 = l2.
Proof.
  apply (StronglySorted_unique ord_le).
Qed.

Lemma keys_dom {V} (m : gmap K V) : keys m = set_items (dom m).
Proof.
  apply sorted_unique; [apply keys_sorted|apply set_items_sorted|].
  apply NoDup_Permutation; [apply NoDup_keys|apply NoDup_set_items|].
  intros k. by rewrite elem_of_keys, elem_of_set_items, elem_of_dom.
Qed.

Lemma keys_dom_eq {V W} (m : gmap K V) (m' : gmap K W) : dom m = dom m' → keys m = keys m'.
Proof. intros Hd. by rewrite !keys_dom, Hd. Qed.

Lemma keys_empty {V} : keys (∅ : gmap K V) = [].
Proof. by rewrite keys_dom, dom_empty_L. Qed.

Lemma values_keys {V} (m : gmap K V) : values m = omap (m !!.) (keys m).
Proof.
  unfold values, keys.
  assert (Hin : ∀ p, p ∈ entries m → m !! p.1 = Some p.2)
    by (intros [k v]; apply elem_of_entries).
  induction (entries m) as [|[k v] l IH]; simpl; [done|].
  pose proof (Hin (k, v) ltac:(left)) as Hk. simpl in Hk. rewrite Hk. f_equal. apply IH. intros p Hp. apply Hin. by right.
Qed.

Lemma values_fmap {V W} (f : V → W) (m : gmap K V) : values (f <$> m) = f <$> values m.
Proof.
  rewrite !values_keys, (keys_dom_eq (f <$> m) m) by apply dom_fmap_L.
  induction (keys m) as [|k l IH]; [done|]. csimpl. rewrite lookup_fmap.
  destruct (m !! k); simpl; by rewrite IH.
Qed.

Lemma values_insert {V} (m : gmap K V) k v :
  m !! k = None → values (<[k := v]> m) ≡ₚ v :: values m.
Proof.
  intros Hk. unfold values. by rewrite !entries_perm, map_to_list_insert by done.
Qed.

(** The keys whose value has a property: the peers that sent a certain message. *)
Definition keys_with {V} (P : V → Prop) `{!∀ x, Decision (P x)} (m : gmap K V) : gset K :=
  dom (filter (λ kv, P kv.2) m).

Lemma elem_of_keys_with {V} (P : V → Prop) `{!∀ x, Decision (P x)} (m : gmap K V) k :
  k ∈ keys_with P m ↔ ∃ v, m !! k = Some v ∧ P v.
Proof.
  unfold keys_with. rewrite elem_of_dom. split.
  - intros [v Hv]. apply map_lookup_filter_Some in Hv. by exists v.
  - intros (v & Hv & HP). exists v. by apply map_lookup_filter_Some.
Qed.

(** Counting the values with a property is counting those keys. *)
Lemma length_filter_values {V} (P : V → Prop) `{!∀ x, Decision (P x)} (m : gmap K V) :
  length (filter P (values m)) = size (keys_with P m).
Proof.
  unfold keys_with. rewrite size_dom. induction m as [|k v m Hk IH] using map_ind.
  - rewrite map_filter_empty, map_size_empty. unfold values.
    by rewrite (nil_length_inv (entries ∅)) by by rewrite length_entries, map_size_empty.
  - rewrite values_insert, filter_cons by done. case_decide as HP.
    + rewrite map_filter_insert_True by done. simpl. rewrite IH, map_size_insert_None; [done|].
      apply map_lookup_filter_None. left. done.
    + rewrite map_filter_insert_False by done. by rewrite delete_id.
Qed.

Lemma length_filter_values_mono {V} (P : V → Prop) `{!∀ x, Decision (P x)} (m m' : gmap K V) :
  m ⊆ m' → length (filter P (values m)) ≤ length (filter P (values m')).
Proof.
  intros Hsub. rewrite !length_filter_values. apply subseteq_size. intros k.
  rewrite !elem_of_keys_with. intros (v & Hv & HP). exists v. split; [|done].
  by eapply lookup_weaken.
Qed.

Lemma index_of_Some (l : list K) k i : NoDup l → index_of k l = Some i ↔ l !! i = Some k.
Proof.
  intros Hnd. unfold index_of. split.
  - intros ([j y] & Hf & [= ->])%fmap_Some. apply list_find_Some in Hf as (? & -> & _). done.
  - intros Hi. destruct (list_find (k =.) l) as [[j y]|] eqn:Hf; simpl.
    + apply list_find_Some in Hf as (Hj & <- & _). f_equal. by eapply NoDup_lookup.
    + apply list_find_None in Hf. rewrite Forall_lookup in Hf. by destruct (Hf i k Hi).
Qed.

Lemma lookup_keys_map (l : list K) k i : NoDup l → keys_map l !! k = Some i ↔ l !! i = Some k.
Proof.
  intros Hnd. unfold keys_map. rewrite <- elem_of_list_to_map.
  - rewrite elem_of_lookup_imap. naive_solver.
  - assert (Hk : (imap (λ (i0 : nat) (k0 : K), (k0, i0)) l).*1 = l); [|by rewrite Hk].
    clear. revert l. apply rev_ind; [done|]. intros x l IH.
    by rewrite imap_app, fmap_app, IH.
Qed.

Lemma dom_keys_map (l : list K) : dom (keys_map l) = list_to_set l.
Proof.
  unfold keys_map. rewrite dom_list_to_map_L. f_equal.
  revert l. apply rev_ind; [done|]. intros x l IH. by rewrite imap_app, fmap_app, IH.
Qed.
End entries.

(** ** Quorums

    Among [n] nodes with at most [f] faulty ones, [3 f < n]. *)
Section quorum.
Context {K : Type} `{OrdKey K} (V correct : gset K) (f : nat).
Context (Hbyz : size (V ∖ correct) ≤ f).

(** More than [f] validators include a correct one. *)
Lemma quorum_correct (A : gset K) :
  A ⊆ V → f < size A → ∃ k, k ∈ A ∧ k ∈ correct.
Proof.
  intros HA Hf. destruct (decide (A ∩ correct = ∅)) as [He|Hne].
  - assert (Hsub : A ⊆ V ∖ correct) by set_solver.
    apply subseteq_size in Hsub. lia.
  - apply set_choose_L in Hne as [k Hk]. exists k. set_solver.
Qed.

(** Two sets of [n - f] validators share a correct one. *)
Lemma quorum_intersect (A B : gset K) :
  A ⊆ V → B ⊆ V → 3 * f < size V → size V - f ≤ size A → size V - f ≤ size B →
  ∃ k, k ∈ A ∧ k ∈ B ∧ k ∈ correct.
Proof.
  intros HA HB Hn HsA HsB.
  destruct (quorum_correct (A ∩ B)) as (k & Hk & Hc); [set_solver| |exists k; set_solver].
  assert (Hu : size (A ∪ B) ≤ size V) by (apply subseteq_size; set_solver).
  rewrite size_union_alt, size_difference_alt in Hu.
  assert (Hc : B ∩ A = A ∩ B) by set_solver. rewrite Hc in Hu.
  assert (Hle : size (A ∩ B) ≤ size B) by (apply subseteq_size; set_solver). lia.
Qed.
End quorum.

Create HintDb btree.
#[export] Hint Resolve NoDup_keys NoDup_set_items keys_sorted : btree.
Create Rewrite HintDb btree.
#[export] Hint Rewrite @elem_of_keys @elem_of_entries @elem_of_values @elem_of_set_items
  @length_keys @length_values @length_entries using typeclasses eauto : btree.

(** The identifier of a peer, [NodeIdT]. *)
Abbreviation NodeIdT := OrdKey (only parsing).
