(* ===== verification/Traits.v ===== *)
(** * Steps, messages and fault logs

    Models [src/messaging.rs] ([Target], [TargetedMessage]), [src/fault_log.rs]
    ([Fault], [FaultLog]) and [src/traits.rs] ([Step] with its combinators, the
    interface [ConsensusProtocol], and [defer_messages], which the sender queue uses
    to hold back messages that a peer cannot handle yet).  The interface
    [SenderQueueableMessage] is the trait of [src/sender_queue/mod.rs]. *)
From S2P Require Import Prelude.
From S2P Require Import BTree.

(** ** Messages *)

(** The intended recipient(s) of a message. *)
Inductive Target (N : Type) : Type :=
  | All
  | Node (id : N).
Arguments All {N}.
Arguments Node {N} id.

Record TargetedMessage (Msg N : Type) : Type := TM {
  target : Target N;
  message : Msg;
}.
Arguments TM {Msg N} target message.
Arguments target {Msg N} _.
Arguments message {Msg N} _.

(** [Target::message] *)
Definition target_message {Msg N} (t : Target N) (m : Msg) : TargetedMessage Msg N := TM t m.

Definition tm_map {Msg Msg' N} (f : Msg → Msg') (tm : TargetedMessage Msg N) :
    TargetedMessage Msg' N :=
  TM (target tm) (f (message tm)).

Record SourcedMessage (Msg N : Type) : Type := SM {
  source : N;
  sourced_message : Msg;
}.
Arguments SM {Msg N} source sourced_message.

(** ** Fault logs *)
Record Fault (N F : Type) : Type := mkFault {
  node_id : N;
  kind : F;
}.
Arguments mkFault {N F} node_id kind.
Arguments node_id {N F} _.
Arguments kind {N F} _.

Definition fault_map {N F F'} (f : F → F') (x : Fault N F) : Fault N F' :=
  mkFault (node_id x) (f (kind x)).

(** [FaultLog] wraps a vector of faults; [Step]s and their users see the vector. *)
Abbreviation FaultLog N F := (list (Fault N F)) (only parsing).

Definition faultlog_new {N F} : FaultLog N F := [].
Definition fault_into_log {N F} (x : Fault N F) : FaultLog N F := [x].
Definition faultlog_init {N F} (n : N) (k : F) : FaultLog N F := fault_into_log (mkFault n k).
Definition faultlog_append_fault {N F} (x : Fault N F) (l : FaultLog N F) : FaultLog N F :=
  l ++ [x].
Definition faultlog_append {N F} (n : N) (k : F) (l : FaultLog N F) : FaultLog N F :=
  faultlog_append_fault (mkFault n k) l.
Definition faultlog_extend {N F} (l new_logs : FaultLog N F) : FaultLog N F := l ++ new_logs.
Definition faultlog_merge_into {N F} (l logs : FaultLog N F) : FaultLog N F :=
  faultlog_extend logs l.
Definition faultlog_is_empty {N F} (l : FaultLog N F) : bool :=
  match l with [] => true | _ => false end.
Definition faultlog_map {N F F'} (f : F → F') (l : FaultLog N F) : FaultLog N F' :=
  fault_map f <$> l.
Definition faultlog_from_iter {N F} (l : list (Fault N F)) : FaultLog N F :=
  foldl (λ log x, faultlog_append_fault x log) faultlog_new l.

(** ** Steps *)
Record Step (Msg O N F : Type) : Type := mkStep {
  output : list O;
  fault_log : FaultLog N F;
  messages : list (TargetedMessage Msg N);
}.
Arguments mkStep {Msg O N F} output fault_log messages.
Arguments output {Msg O N F} _.
Arguments fault_log {Msg O N F} _.
Arguments messages {Msg O N F} _.
#[export] Instance Step_settable {Msg O N F} : Settable (Step Msg O N F) :=
  λ s, mkStep (output s) (fault_log s) (messages s).

Definition step_default {Msg O N F} : Step Msg O N F := mkStep [] [] [].
Definition step_new {Msg O N F} (o : list O) (fl : FaultLog N F)
    (ms : list (TargetedMessage Msg N)) : Step Msg O N F := mkStep o fl ms.

(** [with_output] takes anything that converts to an [Option]. *)
Definition with_output {Msg O N F} (s : Step Msg O N F) (o : option O) : Step Msg O N F :=
  s <| output := output s ++ option_list o |>.

Definition step_map {Msg Msg' O O' N F F'} (f_out : O → O') (f_fail : F → F')
    (f_msg : Msg → Msg') (s : Step Msg O N F) : Step Msg' O' N F' :=
  mkStep (f_out <$> output s) (faultlog_map f_fail (fault_log s)) (tm_map f_msg <$> messages s).

(** [extend_with]: the extended step, and the outputs of the other one. *)
Definition extend_with {Msg Msg' O O' N F F'} (s : Step Msg O N F) (other : Step Msg' O' N F')
    (f_fail : F' → F) (f_msg : Msg' → Msg) : Step Msg O N F * list O' :=
  (mkStep (output s)
     (faultlog_extend (fault_log s) (faultlog_map f_fail (fault_log other)))
     (messages s ++ (tm_map f_msg <$> messages other)),
   output other).

Definition step_extend {Msg O N F} (s other : Step Msg O N F) : Step Msg O N F :=
  mkStep (output s ++ output other) (faultlog_extend (fault_log s) (fault_log other))
    (messages s ++ messages other).
Definition step_join {Msg O N F} (s other : Step Msg O N F) : Step Msg O N F :=
  step_extend s other.
Definition step_is_empty {Msg O N F} (s : Step Msg O N F) : bool :=
  match output s with [] => true | _ => false end &&
  faultlog_is_empty (fault_log s) &&
  match messages s with [] => true | _ => false end.

(** The [From] conversions *)
Definition step_from_faults {Msg O N F} (fl : FaultLog N F) : Step Msg O N F :=
  mkStep [] fl [].
Definition step_from_fault {Msg O N F} (x : Fault N F) : Step Msg O N F :=
  mkStep [] (fault_into_log x) [].
Definition step_from_msg {Msg O N F} (tm : TargetedMessage Msg N) : Step Msg O N F :=
  mkStep [] [] [tm].
Definition step_from_msgs {Msg O N F} (tms : list (TargetedMessage Msg N)) : Step Msg O N F :=
  mkStep [] [] tms.
(** [Fault::new(id, kind).into()] *)
Definition step_fault {Msg O N F} (n : N) (k : F) : Step Msg O N F :=
  step_from_fault (mkFault n k).

(** ** Interfaces *)

(** Epochs: ordered, with a default. *)
Class EpochT (E : Type) := {
  epoch_ord :: OrdKey E;
  epoch_default : E;
}.
#[global] Hint Mode EpochT ! : typeclass_instances.
#[export] Instance epoch_u64 : EpochT Z := {| epoch_default := 0%Z |}.
#[export] Instance epoch_pair : EpochT (Z * Z) := {| epoch_default := (0, 0)%Z |}.

(** [SenderQueueableMessage]; [is_accepted] is a provided method of the trait. *)
Class SenderQueueableMessage (Msg E : Type) := {
  is_premature : Msg → E → u64 → bool;
  is_obsolete : Msg → E → bool;
  first_epoch : Msg → E;
}.
#[global] Hint Mode SenderQueueableMessage ! - : typeclass_instances.
Definition is_accepted {Msg E} `{SenderQueueableMessage Msg E} (m : Msg) (them : E)
    (max_future_epochs : u64) : bool :=
  negb (is_premature m them max_future_epochs) && negb (is_obsolete m them).

(** [ConsensusProtocol]: [D] is the algorithm and [R] the random number generator,
    which every call may advance. *)
Class ConsensusProtocol (D R N I O Msg Er F : Type) := {
  cp_handle_input : I → M (D * R) Er (Step Msg O N F);
  cp_handle_message : N → Msg → M (D * R) Er (Step Msg O N F);
  cp_terminated : D → bool;
  cp_our_id : D → N;
}.
(** A method that takes and returns the random number generator, or that ignores it, as a
    method of the pair of the algorithm and the generator.  A failing call reports no
    generator: its use of it is not modelled. *)
Definition with_rng {D R Er A} (f : R → M D Er (A * R)) : M (D * R) Er A := λ '(d, r),
  match f r d with
  | Ok d' (a, r') => Ok (d', r') a
  | Err d' e => Err (d', r) e
  | Panic => Panic
  | NoFuel => NoFuel
  end.
Definition without_rng {D R Er A} (m : M D Er A) : M (D * R) Er A :=
  zoom fst (λ d '(_, r), (d, r)) m.

(** [Epoched] *)
Class Epoched (D E : Type) := { cp_epoch : D → E }.

(** ** Deferring messages *)
Section defer.
Context {Msg E N O F : Type} `{NodeIdT N, EpochT E, SenderQueueableMessage Msg E}.

(** The body of the loop of [defer_messages], for one message: what is deferred, and
    what is passed on. *)
Definition defer_message (peer_epochs : gmap N E) (max_future_epochs : u64)
    (msg : TargetedMessage Msg N) : list (N * Msg) * list (TargetedMessage Msg N) :=
  match target msg with
  | Node id =>
      match peer_epochs !! id with
      | Some them =>
          if is_premature (message msg) them max_future_epochs then ([(id, message msg)], [])
          else if negb (is_obsolete (message msg) them) then ([], [msg])
          else ([], [])
      | None => ([], [])
      end
  | All =>
      if forallb (λ them, is_accepted (message msg) them max_future_epochs) (values peer_epochs)
      then ([], [msg])
      else
        foldl (λ '(deferred, passed) '(id, them),
          if is_premature (message msg) them max_future_epochs
          then (deferred ++ [(id, message msg)], passed)
          else if negb (is_obsolete (message msg) them)
          then (deferred, passed ++ [target_message (Node id) (message msg)])
          else (deferred, passed))
        ([], []) (entries peer_epochs)
  end.

Definition defer_messages (s : Step Msg O N F) (peer_epochs : gmap N E)
    (max_future_epochs : u64) : Step Msg O N F * list (N * Msg) :=
  let '(deferred_msgs, passed_msgs) :=
    foldl (λ '(deferred, passed) msg,
      let '(d, p) := defer_message peer_epochs max_future_epochs msg in
      (deferred ++ d, passed ++ p)) ([], []) (messages s) in
  (s <| messages := passed_msgs |>, deferred_msgs).
End defer.

(** ** Algebra of steps *)
Section step_algebra.
Context {Msg O N F : Type}.
Implicit Types s t u : Step Msg O N F.

Lemma step_ext s t :
  output s = output t → fault_log s = fault_log t → messages s = messages t → s = t.
Proof. destruct s, t; simpl. by intros -> -> ->. Qed.

Lemma step_join_default_l s : step_join step_default s = s.
Proof. by destruct s. Qed.
Lemma step_join_default_r s : step_join s step_default = s.
Proof. apply step_ext; apply app_nil_r. Qed.
Lemma step_join_assoc s t u : step_join s (step_join t u) = step_join (step_join s t) u.
Proof. apply step_ext; apply app_assoc. Qed.
Lemma step_is_empty_spec s : step_is_empty s = true ↔ s = step_default.
Proof.
  destruct s as [[] [] []]; split; cbn; naive_solver.
Qed.
End step_algebra.

#[export] Hint Rewrite @step_join_default_l @step_join_default_r : btree.

Section fault_log_facts.
Context {N F : Type}.
Implicit Types l : FaultLog N F.

Lemma faultlog_from_iter_id l : faultlog_from_iter l = l.
Proof.
  unfold faultlog_from_iter, faultlog_new.
  assert (Hg : ∀ acc, foldl (λ log x, faultlog_append_fault x log) acc l = acc ++ l).
  - induction l as [|x l IH]; intros acc; simpl; [by rewrite app_nil_r|].
    rewrite IH. unfold faultlog_append_fault. by rewrite <- (assoc_L (++)).
  - apply (Hg []).
Qed.
End fault_log_facts.

(** ** What [defer_messages] does to each peer *)

(** The messages of a list that reach the peer [id], in order. *)
Definition sends_to {Msg N} `{EqDecision N} (id : N) (tms : list (TargetedMessage Msg N)) :
    list Msg :=
  omap (λ tm, match target tm with
              | All => Some (message tm)
              | Node j => if decide (j = id) then Some (message tm) else None
              end) tms.
Definition deferred_to {Msg N} `{EqDecision N} (id : N) (l : list (N * Msg)) : list Msg :=
  omap (λ p, if decide (p.1 = id) then Some p.2 else None) l.

(** A loop that appends to two vectors. *)
Lemma foldl_app2 {X A B} (f : X → list A) (g : X → list B) l a b :
  foldl (λ '(a, b) x, (a ++ f x, b ++ g x)) (a, b) l = (a ++ concat (f <$> l), b ++ concat (g <$> l)).
Proof.
  revert a b. induction l as [|x l IH]; intros a b; simpl; [by rewrite !app_nil_r|].
  by rewrite IH, <- !(assoc_L (++)).
Qed.

Lemma foldl_ext_fun {X A} (f g : A → X → A) l a :
  (∀ a x, f a x = g a x) → foldl f a l = foldl g a l.
Proof. intros Hfg. revert a. induction l; intros; simpl; [done|]. by rewrite Hfg. Qed.

(** An [omap] over the concatenation of per-entry lists that only react to one key. *)
Lemma omap_concat_one {K V A B} `{OrdKey K} (m : gmap K V) (k : K) (f : K * V → list A)
    (g : A → option B) :
  (∀ k' v, k' ≠ k → omap g (f (k', v)) = []) →
  omap g (concat (f <$> entries m)) =
    match m !! k with Some v => omap g (f (k, v)) | None => [] end.
Proof.
  intros Hne.
  assert (Hnd : NoDup (entries m).*1) by apply NoDup_keys.
  assert (Hin : ∀ v, (k, v) ∈ entries m ↔ m !! k = Some v) by (intros; apply elem_of_entries).
  revert Hin. generalize (m !! k). induction (entries m) as [|[k' v'] l IH]; csimpl in *.
  - intros [v|] Hin; [|done]. exfalso. eapply not_elem_of_nil, Hin. done.
  - intros o Hin. apply NoDup_cons in Hnd as [Hk' Hnd]. rewrite omap_app.
    destruct (decide (k' = k)) as [->|Hk].
    + assert (o = Some v') as -> by (apply Hin; by left).
      rewrite (IH Hnd None), app_nil_r; [done|]. intros v. split; [|done].
      intros Hl. destruct Hk'. rewrite list_elem_of_fmap. by exists (k, v).
    + rewrite Hne by done. simpl. apply IH; [done|]. intros v. rewrite <- Hin, elem_of_cons.
      naive_solver.
Qed.

Section defer_facts.
Context {Msg E N O F : Type} `{NodeIdT N, EpochT E, SenderQueueableMessage Msg E}.
Implicit Types (tm : TargetedMessage Msg N) (pe : gmap N E) (s : Step Msg O N F).

Definition split_deferred (msg : Msg) (mfe : u64) (p : N * E) : list (N * Msg) :=
  if is_premature msg p.2 mfe then [(p.1, msg)] else [].
Definition split_passed (msg : Msg) (mfe : u64) (p : N * E) : list (TargetedMessage Msg N) :=
  if is_accepted msg p.2 mfe then [target_message (Node p.1) msg] else [].

Lemma defer_message_all pe mfe msg :
  defer_message pe mfe (TM All msg) =
    if forallb (λ them, is_accepted msg them mfe) (values pe) then ([], [TM All msg])
    else (concat (split_deferred msg mfe <$> entries pe),
          concat (split_passed msg mfe <$> entries pe)).
Proof.
  unfold defer_message; simpl. destruct (forallb _ _); [done|].
  rewrite <- (app_nil_l (concat (split_deferred _ _ <$> _))),
    <- (app_nil_l (concat (split_passed _ _ <$> _))), <- foldl_app2.
  apply foldl_ext_fun. intros [d p] [id them].
  unfold split_deferred, split_passed, is_accepted; simpl.
  destruct (is_premature _ _ _), (is_obsolete _ _); simpl; by rewrite ?app_nil_r.
Qed.

(** One message, seen from the peer [id]. *)
Lemma defer_message_peer pe mfe tm id them :
  pe !! id = Some them →
  let '(d, p) := defer_message pe mfe tm in
  sends_to id p = filter (λ m, is_accepted m them mfe = true) (sends_to id [tm]) ∧
  deferred_to id d = filter (λ m, is_premature m them mfe = true) (sends_to id [tm]).
Proof.
  intros Hid. destruct tm as [[|j] m].
  - rewrite defer_message_all. destruct (forallb _ _) eqn:Hall.
    + assert (Hacc : is_accepted m them mfe = true).
      { rewrite forallb_forall in Hall. apply Hall, list_elem_of_In, elem_of_values. eauto. }
      simpl. rewrite !filter_cons, !filter_nil.
      rewrite decide_True by done. split; [done|].
      unfold is_accepted in Hacc. by destruct (is_premature m them mfe).
    + unfold sends_to at 1, deferred_to.
      rewrite (omap_concat_one pe id (split_passed m mfe)), (omap_concat_one pe id (split_deferred m mfe)), Hid;
        unfold split_passed, split_deferred; simpl.
      * rewrite !filter_cons, !filter_nil.
        destruct (is_accepted _ _ _), (is_premature _ _ _); simpl; by rewrite ?decide_True by done.
      * intros k v Hk. simpl. destruct (is_premature _ _ _); simpl; by rewrite ?decide_False by done.
      * intros k v Hk. simpl. destruct (is_accepted _ _ _); simpl; by rewrite ?decide_False by done.
  - unfold defer_message; simpl. destruct (decide (j = id)) as [->|Hj].
    + rewrite Hid, !filter_cons, !filter_nil. unfold is_accepted.
      destruct (is_premature _ _ _), (is_obsolete _ _); simpl; by rewrite ?decide_True by done.
    + destruct (pe !! j); [|done]. destruct (is_premature _ _ _); simpl; [by rewrite decide_False|].
      destruct (is_obsolete _ _); simpl; [done|]. by rewrite decide_False.
Qed.

Lemma defer_messages_unfold s pe mfe :
  defer_messages s pe mfe =
    (s <| messages := concat ((λ tm, (defer_message pe mfe tm).2) <$> messages s) |>,
     concat ((λ tm, (defer_message pe mfe tm).1) <$> messages s)).
Proof.
  unfold defer_messages.
  rewrite (foldl_ext_fun _ (λ '(a, b) tm,
    (a ++ (defer_message pe mfe tm).1, b ++ (defer_message pe mfe tm).2))).
  - by rewrite foldl_app2.
  - intros [a b] tm. by destruct (defer_message _ _ _).
Qed.

Lemma sends_to_app id (l1 l2 : list (TargetedMessage Msg N)) :
  sends_to id (l1 ++ l2) = sends_to id l1 ++ sends_to id l2.
Proof. apply omap_app. Qed.
Lemma sends_to_cons id tm (l : list (TargetedMessage Msg N)) :
  sends_to id (tm :: l) = sends_to id [tm] ++ sends_to id l.
Proof. apply (sends_to_app id [tm]). Qed.
Lemma deferred_to_app id (l1 l2 : list (N * Msg)) :
  deferred_to id (l1 ++ l2) = deferred_to id l1 ++ deferred_to id l2.
Proof. apply omap_app. Qed.

Lemma defer_messages_peer s pe mfe id them :
  pe !! id = Some them →
  let '(s', d) := defer_messages s pe mfe in
  output s' = output s ∧ fault_log s' = fault_log s ∧
  sends_to id (messages s') =
    filter (λ m, is_accepted m them mfe = true) (sends_to id (messages s)) ∧
  deferred_to id d = filter (λ m, is_premature m them mfe = true) (sends_to id (messages s)).
Proof.
  intros Hid. rewrite defer_messages_unfold. do 2 (split; [done|]). unfold set_field; cbn [messages].
  induction (messages s) as [|tm l IH]; [done|].
  rewrite !fmap_cons, sends_to_cons. simpl concat. rewrite sends_to_app, deferred_to_app, !filter_app.
  destruct IH as [-> ->]. pose proof (defer_message_peer pe mfe tm id them Hid) as Ht.
  destruct (defer_message pe mfe tm) as [d p]; simpl in *. by destruct Ht as [-> ->].
Qed.

(** A node whose epoch is unknown is not addressed. *)
Lemma defer_message_stranger pe mfe tm id :
  pe !! id = None →
  let '(d, p) := defer_message pe mfe tm in
  deferred_to id d = [] ∧ ∀ m, target_message (Node id) m ∉ p.
Proof.
  intros Hid. destruct tm as [[|j] m].
  - rewrite defer_message_all. destruct (forallb _ _); [split; [done|set_solver]|].
    split.
    + unfold deferred_to. rewrite (omap_concat_one pe id (split_deferred m mfe)), Hid; [done|].
      intros k v Hk. unfold split_deferred; simpl.
      destruct (is_premature _ _ _); simpl; by rewrite ?decide_False by done.
    + intros m' Hl. apply list_elem_of_In, in_concat in Hl as (x & Hx & Hl).
      apply list_elem_of_In, list_elem_of_fmap in Hx as ([k v] & -> & Hk%elem_of_entries).
      apply list_elem_of_In in Hl. unfold split_passed in Hl; simpl in Hl.
      destruct (is_accepted _ _ _); [|by apply not_elem_of_nil in Hl].
      apply list_elem_of_singleton in Hl. injection Hl as -> ->. congruence.
  - unfold defer_message; simpl. destruct (pe !! j) as [v|] eqn:Hj; [|split; [done|set_solver]].
    assert (Hne : j ≠ id) by congruence.
    destruct (is_premature _ _ _); simpl.
    + rewrite decide_False by done. split; [done|set_solver].
    + destruct (is_obsolete _ _); simpl; (split; [done|]); [set_solver|].
      intros m' Hl%list_elem_of_singleton. injection Hl as -> ->. done.
Qed.

(** What [Step::defer_messages] does with the messages of a step, for every peer: the peer is
    sent, in order, exactly the messages to it that its epoch accepts; exactly those that
    are premature are returned for later; the obsolete ones are dropped.  Nothing is
    sent to or kept for a node of unknown epoch, except by a broadcast that all known
    peers accept.  Outputs and faults are untouched. *)
Theorem defer_messages_exact s pe mfe id :
  let '(s', d) := defer_messages s pe mfe in
  output s' = output s ∧ fault_log s' = fault_log s ∧
  match pe !! id with
  | Some them =>
      sends_to id (messages s') =
        filter (λ m, is_accepted m them mfe = true) (sends_to id (messages s)) ∧
      deferred_to id d =
        filter (λ m, is_premature m them mfe = true) (sends_to id (messages s))
  | None => deferred_to id d = [] ∧ ∀ m, target_message (Node id) m ∉ messages s'
  end.
Proof.
  destruct (pe !! id) as [them|] eqn:Hid; [by apply defer_messages_peer|].
  rewrite defer_messages_unfold. do 2 (split; [done|]). unfold set_field; cbn [messages].
  induction (messages s) as [|tm l [IHd IHp]]; [split; [done|set_solver]|].
  rewrite !fmap_cons. simpl concat. rewrite deferred_to_app.
  pose proof (defer_message_stranger pe mfe tm id Hid) as Ht.
  destruct (defer_message pe mfe tm) as [d p]; simpl in *. destruct Ht as [-> Hp].
  split; [done|]. intros m [?|?]%elem_of_app; [by eapply Hp|by eapply IHp].
Qed.
End defer_facts.
