(* ===== verification/Net.v ===== *)
(** * A network of nodes that run one algorithm

    Shared by the files that state network-level guarantees.  The algorithm is a pair of
    methods, for local input and for messages.  The network is asynchronous: an event
    delivers any message that was sent, any number of times and in any order, or a
    local input.  Faulty nodes send what they like, but not in the name of a correct
    node. *)
From S2P Require Import Prelude.
From S2P Require Import BTree.
From S2P Require Import Traits.

(** An output is recorded with the state of the node after the step that made it. *)
Record world (N State I Msg O : Type) : Type := World {
  w_node : N → State;
  w_sent : list (N * TargetedMessage Msg N);
  w_input : N → list I;
  w_out : N → list (O * State);
}.
Arguments World {N State I Msg O} w_node w_sent w_input w_out.
Arguments w_node {N State I Msg O} _.
Arguments w_sent {N State I Msg O} _.
Arguments w_input {N State I Msg O} _.
Arguments w_out {N State I Msg O} _.

Inductive event (N I Msg : Type) : Type :=
  | Input (i : N) (v : I)
  | Deliver (i j : N) (msg : Msg).
Arguments Input {N I Msg} i v.
Arguments Deliver {N I Msg} i j msg.

Section net.
Context {N State I Msg O Er F : Type} `{ord : NodeIdT N} `{msg_eq : EqDecision Msg}.
Context (handle_input : I → M State Er (Step Msg O N F)).
Context (handle_message : N → Msg → M State Er (Step Msg O N F)).
Context (peer : N → bool) (correct : gset N) (initial : world N State I Msg O → Prop).
Abbreviation World_ := (world N State I Msg O).
Abbreviation Event_ := (event N I Msg).
Implicit Types (w : World_) (ev : Event_).

Definition addressed (i : N) (t : Target N) : bool :=
  match t with All => true | Node j => bool_decide (i = j) end.

(** What may happen: local input at a correct node, or the delivery to a correct node
    [i] of a message from another node [j]; if [j] is correct, it has sent it.  [peer]
    says whose messages the caller of the algorithm passes on at all. *)
Definition allowed w ev : bool :=
  match ev with
  | Input i _ => bool_decide (i ∈ correct)
  | Deliver i j msg =>
      bool_decide (i ∈ correct) && bool_decide (j ≠ i) && peer j &&
      (bool_decide (j ∉ correct) ||
       existsb (λ '(k, tm), bool_decide (k = j) && bool_decide (message tm = msg)
         && addressed i (target tm)) (w_sent w))
  end.

(** The effect of a call that returned; [None] is a panic.  What a failed call has changed
    stays changed. *)
Definition commit w (i : N) (ins : list I) (o : outcome State Er (Step Msg O N F)) : option World_ :=
  match o with
  | Ok s' out => Some (World (<[i := s']> (w_node w)) (w_sent w ++ (pair i <$> messages out))
      (<[i := w_input w i ++ ins]> (w_input w))
      (<[i := w_out w i ++ ((λ v, (v, s')) <$> output out)]> (w_out w)))
  | Err s' _ => Some (World (<[i := s']> (w_node w)) (w_sent w) (w_input w) (w_out w))
  | _ => None
  end.

Definition exec w ev : option World_ :=
  match ev with
  | Input i v => commit w i [v] (handle_input v (w_node w i))
  | Deliver i j msg => commit w i [] (handle_message j msg (w_node w i))
  end.

Inductive reachable : World_ → Prop :=
  | reach_init w : initial w → reachable w
  | reach_step w ev w' :
      reachable w → allowed w ev = true → exec w ev = Some w' → reachable w'.

(** A schedule, run from a world; [None] if an event is not allowed. *)
Fixpoint run w (evs : list Event_) : option World_ :=
  match evs with
  | [] => Some w
  | ev :: evs => if allowed w ev then w' ← exec w ev; run w' evs else None
  end.

Lemma run_reachable w evs w' : reachable w → run w evs = Some w' → reachable w'.
Proof.
  revert w. induction evs as [|ev evs IH]; intros w Hw; simpl; [by intros [= <-]|].
  destruct (allowed w ev) eqn:Ha; [|done]. destruct (exec w ev) as [w1|] eqn:He; [|done].
  apply IH. by eapply reach_step.
Qed.

(** Rounds: everything that was sent so far is delivered to every correct addressee. *)
Definition deliveries w : list Event_ :=
  '(j, tm) ← w_sent w;
  i ← filter (λ i, i ≠ j ∧ addressed i (target tm) = true) (elements correct);
  [Deliver i j (message tm)].

Fixpoint rounds (k : nat) w : option World_ :=
  match k with
  | 0 => Some w
  | S k => w' ← run w (deliveries w); rounds k w'
  end.

Lemma rounds_reachable k w w' : reachable w → rounds k w = Some w' → reachable w'.
Proof.
  revert w. induction k as [|k IH]; intros w Hw; simpl; [by intros [= <-]|].
  destruct (run w (deliveries w)) as [w1|] eqn:Hr; [|done]. apply IH. by eapply run_reachable.
Qed.

Lemma allowed_input w i v : allowed w (Input i v) = true ↔ i ∈ correct.
Proof. apply bool_decide_eq_true. Qed.

Lemma allowed_deliver_iff w i j msg : allowed w (Deliver i j msg) = true ↔
  i ∈ correct ∧ j ≠ i ∧ peer j = true ∧
  (j ∈ correct → ∃ tm, (j, tm) ∈ w_sent w ∧ message tm = msg ∧ addressed i (target tm) = true).
Proof.
  simpl. rewrite !andb_true_iff, orb_true_iff, !bool_decide_eq_true, existsb_exists. split.
  - intros [[[Hi Hj] Hp] Hs]. split_and!; [done..|]. intros Hc. destruct Hs as [?|Hs]; [done|].
    destruct Hs as ([k tm] & Hin%list_elem_of_In & Hb).
    rewrite !andb_true_iff, !bool_decide_eq_true in Hb. destruct Hb as [[-> <-] ?]. by exists tm.
  - intros (Hi & Hj & Hp & Hs). split_and!; [done..|].
    destruct (decide (j ∈ correct)) as [Hc|]; [right|by left].
    destruct (Hs Hc) as (tm & Hin%list_elem_of_In & Hm & Ha). exists (j, tm). split; [done|].
    by rewrite !andb_true_iff, !bool_decide_eq_true.
Qed.

Lemma allowed_deliver w i j msg : allowed w (Deliver i j msg) = true →
  i ∈ correct ∧ j ≠ i ∧ peer j = true ∧ (j ∈ correct → ∃ tm, (j, tm) ∈ w_sent w ∧ message tm = msg).
Proof.
  intros (? & ? & ? & Hs)%allowed_deliver_iff. split_and!; [done..|].
  intros Hc. destruct (Hs Hc) as (tm & ? & ? & _). by exists tm.
Qed.

(** What an event does to the world: the node [i] is left in the state [s'] after the
    inputs [ins] and the step [o], and the rest stays. *)
Record acts w w' (i : N) (ins : list I) (s' : State) (o : Step Msg O N F) : Prop := {
  a_node : w_node w' i = s';
  a_node_ne k : k ≠ i → w_node w' k = w_node w k;
  a_sent : w_sent w' = w_sent w ++ (pair i <$> messages o);
  a_out : (w_out w' i).*1 = (w_out w i).*1 ++ output o;
  a_out_ne k : k ≠ i → w_out w' k = w_out w k;
  a_input k v : v ∈ w_input w' k ↔ v ∈ w_input w k ∨ (k = i ∧ v ∈ ins);
}.

Lemma commit_acts w i ins r w' :
  commit w i ins r = Some w' →
  match r with
  | Ok s' o => acts w w' i ins s' o
  | Err s' _ => acts w w' i [] s' step_default
  | _ => False
  end.
Proof.
  destruct r as [s' o|s' e| |]; intros [= <-]; (split; cbn; try done;
    [by rewrite fn_lookup_insert|intros; by rewrite fn_lookup_insert_ne|..]).
  - rewrite fn_lookup_insert, fmap_app, <- list_fmap_compose. f_equal. apply list_fmap_id.
  - intros. by rewrite fn_lookup_insert_ne.
  - intros k v. destruct (decide (k = i)) as [->|Hne]; [|rewrite fn_lookup_insert_ne by done; split; [by left|by intros [?|[? _]]]].
    rewrite fn_lookup_insert, elem_of_app. split; [intros [?|?]; [by left|by right]|intros [?|[_ ?]]; [by left|by right]].
  - by rewrite app_nil_r.
  - by rewrite app_nil_r.
  - intros k v. split; [by left|by intros [?|[_ ?%elem_of_nil]]].
Qed.

(** A node that does nothing, and what it does in two events *)
Lemma acts_refl w i : acts w w i [] (w_node w i) step_default.
Proof. split; cbn; try done; [by rewrite app_nil_r..|]. intros k v. split; [by left|by intros [?|[_ ?%elem_of_nil]]]. Qed.
Lemma acts_trans w1 w2 w3 i a b s s' o o' : acts w1 w2 i a s o → acts w2 w3 i b s' o' →
  acts w1 w3 i (a ++ b) s' (step_extend o o').
Proof.
  intros [A1 A2 A3 A4 A5 A6] [B1 B2 B3 B4 B5 B6]. split; cbn.
  - done.
  - intros k Hk. by rewrite B2, A2.
  - by rewrite B3, A3, fmap_app, (assoc_L (++)).
  - by rewrite B4, A4, (assoc_L (++)).
  - intros k Hk. by rewrite B5, A5.
  - intros k v. rewrite B6, A6, elem_of_app. split; [intros [[?|[]]|[]]; auto|intros [?|[? []]]; auto].
Qed.
End net.

Lemma singleton_fst {A B} (l : list (A * B)) x : l.*1 = [x] → ∃ y, l = [(x, y)].
Proof. destruct l as [|[? y] []]; intros [= ->]. by exists y. Qed.
