(* ===== verification/BoolSet.v ===== *)
(** * Sets of booleans

    Models [src/binary_agreement/bool_set.rs], a set in the bits of a [u8], and
    [bool_multimap.rs], two sets of nodes indexed by a boolean.  A [BoolSet] that a peer
    sent may have other bits set; the lemmas say what each operation does on every
    byte. *)
From S2P Require Import Prelude.
From S2P Require Import BTree.

Abbreviation u8 := Z (only parsing).
Abbreviation BoolSet := Z (only parsing).

Module bool_set.
Open Scope Z_scope.

Definition NONE : BoolSet := 0.
Definition FALSE : BoolSet := 1.
Definition TRUE : BoolSet := 2.
Definition BOTH : BoolSet := 3.

Definition from_bool (b : bool) : BoolSet := if b then TRUE else FALSE.

(** [insert] returns the new set, and whether it changed. *)
Definition insert (b : bool) (s : BoolSet) : BoolSet * bool :=
  let s' := Z.lor s (from_bool b) in (s', bool_decide (s ≠ s')).
Definition remove (b : bool) (s : BoolSet) : BoolSet := Z.land s (from_bool (negb b)).
Definition contains (s : BoolSet) (b : bool) : bool := bool_decide (Z.land s (from_bool b) ≠ 0).
Definition is_subset (s other : BoolSet) : bool := bool_decide (Z.land s other = s).
Definition definite (s : BoolSet) : option bool :=
  if decide (s = FALSE) then Some false else if decide (s = TRUE) then Some true else None.

(** The iterator yields [true] before [false]. *)
Definition next (s : BoolSet) : option (bool * BoolSet) :=
  if contains s true then Some (true, remove true s)
  else if contains s false then Some (false, remove false s)
  else None.
Fixpoint iter_fuel (fuel : nat) (s : BoolSet) : list bool :=
  match fuel with
  | O => []
  | S fuel => match next s with Some (b, s) => b :: iter_fuel fuel s | None => [] end
  end.
Definition iter (s : BoolSet) : list bool := iter_fuel 3 s.

(** ** Which booleans a byte holds *)
Definition mem (s : BoolSet) (b : bool) : bool := Z.testbit s (if b then 1 else 0).

Lemma testbit_TRUE k : Z.testbit TRUE k = bool_decide (k = 1).
Proof.
  unfold TRUE. change 2 with (2 ^ 1). case_bool_decide as Hk; [by subst|].
  apply Z.pow2_bits_false. lia.
Qed.
Lemma testbit_FALSE k : Z.testbit FALSE k = bool_decide (k = 0).
Proof.
  unfold FALSE. change 1 with (2 ^ 0). case_bool_decide as Hk; [by subst|].
  apply Z.pow2_bits_false. lia.
Qed.
Lemma testbit_from_bool b k :
  Z.testbit (from_bool b) k = bool_decide (k = if b then 1 else 0).
Proof. destruct b; [apply testbit_TRUE|apply testbit_FALSE]. Qed.

Lemma mem_NONE b : mem NONE b = false.
Proof. by destruct b. Qed.
Lemma mem_BOTH b : mem BOTH b = true.
Proof. by destruct b. Qed.
Lemma mem_from_bool b b' : mem (from_bool b) b' = bool_decide (b = b').
Proof. by destruct b, b'. Qed.

Lemma mem_insert b b' s : mem (insert b s).1 b' = mem s b' || bool_decide (b = b').
Proof.
  unfold mem, insert; cbn [fst]. rewrite Z.lor_spec, testbit_from_bool. by destruct b, b'.
Qed.

Lemma contains_mem s b : contains s b = mem s b.
Proof.
  unfold contains, mem. apply eq_bool_prop_intro. rewrite bool_decide_spec. split.
  - intros Hne. destruct (Z.testbit s _) eqn:Ht; [done|]. destruct Hne.
    apply Z.bits_inj'. intros k _. rewrite Z.land_spec, testbit_from_bool, Z.bits_0.
    case_bool_decide; [subst; by rewrite Ht|apply andb_false_r].
  - intros Ht He. assert (Hb : Z.testbit (Z.land s (from_bool b)) (if b then 1 else 0) = false)
      by by rewrite He, Z.bits_0.
    rewrite Z.land_spec, testbit_from_bool, bool_decide_true, andb_true_r in Hb by done.
    by rewrite Hb in Ht.
Qed.

Lemma mem_remove b b' s : mem (remove b s) b' = mem s b' && bool_decide (b ≠ b').
Proof.
  unfold mem, remove. rewrite Z.land_spec, testbit_from_bool. by destruct b, b'.
Qed.

Lemma insert_changed b s : (insert b s).2 = negb (mem s b).
Proof.
  unfold insert; cbn [snd]. destruct (mem s b) eqn:Hm; simpl.
  - apply bool_decide_eq_false. intros Hne. apply Hne. symmetry.
    apply Z.bits_inj'. intros k _. rewrite Z.lor_spec, testbit_from_bool.
    case_bool_decide; [|apply orb_false_r]. subst. unfold mem in Hm. by rewrite Hm.
  - apply bool_decide_eq_true. intros He.
    assert (Hb : mem (insert b s).1 b = mem s b) by (unfold insert; cbn [fst]; by rewrite <- He).
    rewrite mem_insert, Hm, bool_decide_true in Hb by done. done.
Qed.

(** A set that the program built itself has no other bits. *)
Definition wf (s : BoolSet) : Prop := 0 ≤ s < 4.

Lemma wf_cases s : wf s → s = NONE ∨ s = FALSE ∨ s = TRUE ∨ s = BOTH.
Proof. unfold wf, NONE, FALSE, TRUE, BOTH. lia. Qed.

Lemma insert_wf b s : wf s → wf (insert b s).1.
Proof. intros [->|[->|[->| ->]]]%wf_cases; destruct b; by vm_compute. Qed.

Lemma wf_ext s s' : wf s → wf s' → (∀ b, mem s b = mem s' b) → s = s'.
Proof.
  intros [->|[->|[->| ->]]]%wf_cases [->|[->|[->| ->]]]%wf_cases Hm; try done;
    first [by specialize (Hm true)|by specialize (Hm false)].
Qed.

Lemma mem_subset s s' b : is_subset s s' = true → mem s b = true → mem s' b = true.
Proof.
  unfold is_subset, mem. rewrite bool_decide_eq_true. intros <-.
  rewrite Z.land_spec, andb_true_iff. naive_solver.
Qed.

Lemma definite_Some s b : definite s = Some b ↔ s = from_bool b.
Proof.
  unfold definite. repeat case_decide; subst; destruct b; split; try done;
    unfold from_bool, TRUE, FALSE in *; congruence.
Qed.

Lemma iter_fuel_mem k s :
  iter_fuel (S k) s =
    if mem s true then true :: iter_fuel k (remove true s)
    else if mem s false then false :: iter_fuel k (remove false s) else [].
Proof.
  cbn [iter_fuel]. unfold next. rewrite !contains_mem.
  destruct (mem s true); [done|]. by destruct (mem s false).
Qed.

Lemma iter_mem s :
  iter s = (if mem s true then [true] else []) ++ (if mem s false then [false] else []).
Proof.
  unfold iter. rewrite !iter_fuel_mem, !mem_remove.
  destruct (mem s true), (mem s false); done.
Qed.

Lemma elem_of_iter s b : b ∈ iter s ↔ mem s b = true.
Proof.
  rewrite iter_mem. destruct (mem s true) eqn:Ht, (mem s false) eqn:Hf, b;
    rewrite ?Ht, ?Hf; set_solver.
Qed.

(** C40: The bit operations of [BoolSet] are those of a finite set of booleans, on every byte: what is
    a member after [insert] and [remove], that [insert] reports a change exactly if the
    element is new, that [contains] is membership, and that the iterator yields each
    member once, [true] first, and then ends. *)
Theorem bool_set_operations (s : BoolSet) (b b' : bool) :
  contains (insert b s).1 b' = contains s b' || bool_decide (b = b') ∧
  (insert b s).2 = negb (contains s b) ∧
  contains (remove b s) b' = contains s b' && bool_decide (b ≠ b') ∧
  contains s b = bool_decide (b ∈ iter s) ∧
  iter s = filter (λ b, contains s b = true) [true; false].
Proof.
  rewrite !contains_mem, mem_insert, mem_remove, insert_changed. split_and!; [done..| |].
  - symmetry. destruct (mem s b) eqn:Hm.
    + by apply bool_decide_eq_true, elem_of_iter.
    + apply bool_decide_eq_false. rewrite elem_of_iter. congruence.
  - rewrite iter_mem, !filter_cons, filter_nil, !contains_mem.
    by destruct (mem s true), (mem s false).
Qed.
End bool_set.

(** ** [BoolMultimap] *)
Record BoolMultimap {N : Type} `{OrdKey N} : Type := mkMultimap {
  bm_false : gset N;
  bm_true : gset N;
}.
Arguments BoolMultimap N {_}.

Section multimap.
Context {N : Type} `{ord : OrdKey N}.
Implicit Types (m : BoolMultimap N) (b : bool) (id : N).

Definition bm_default : BoolMultimap N := mkMultimap _ _ ∅ ∅.
(** [map[b]] *)
Definition bm_index m b : gset N := if b then bm_true m else bm_false m.
(** [map[b].insert(id)] *)
Definition bm_insert b id m : BoolMultimap N :=
  if b then mkMultimap _ _ (bm_false m) ({[id]} ∪ bm_true m)
  else mkMultimap _ _ ({[id]} ∪ bm_false m) (bm_true m).
(** The iterator: the pairs of [false], then those of [true]. *)
Definition bm_iter m : list (bool * N) :=
  (pair false <$> set_items (bm_false m)) ++ (pair true <$> set_items (bm_true m)).

Lemma bm_index_insert b b' id m :
  bm_index (bm_insert b id m) b' = if bool_decide (b = b') then {[id]} ∪ bm_index m b' else bm_index m b'.
Proof. by destruct b, b'. Qed.

Lemma elem_of_bm_insert b b' id id' m :
  id' ∈ bm_index (bm_insert b id m) b' ↔ (b = b' ∧ id' = id) ∨ id' ∈ bm_index m b'.
Proof. rewrite bm_index_insert. case_bool_decide; set_solver. Qed.

Lemma bm_insert_subseteq b id m b' : bm_index m b' ⊆ bm_index (bm_insert b id m) b'.
Proof. intros id'. rewrite elem_of_bm_insert. by right. Qed.

Lemma elem_of_bm_iter b id m : (b, id) ∈ bm_iter m ↔ id ∈ bm_index m b.
Proof.
  unfold bm_iter. rewrite elem_of_app, !list_elem_of_fmap. split.
  - intros [(x & [= -> ->] & Hx)|(x & [= -> ->] & Hx)]; by apply elem_of_set_items in Hx.
  - intros Hx. destruct b; [right|left]; exists id; (split; [done|]); by apply elem_of_set_items.
Qed.
End multimap.
