(* ===== verification/NetworkInfo.v ===== *)
(** * Network information

    Models [src/util.rs] ([max_faulty]) and [src/network_info.rs] ([NetworkInfo], its
    constructor, its accessors and [generate_map]).  The cryptographic crate
    [threshold_crypto] is not part of the repository: its types and functions are
    the interface [Crypto], a parameter of everything that uses keys.  The serialization
    crate [bincode] is the interface [Bincode], per type. *)
From S2P Require Import Prelude.
From S2P Require Import BTree.

Abbreviation bytes := (list byte) (only parsing).

(** ** The interface of [threshold_crypto] *)
Class Crypto := {
  SecretKey : Type;
  PublicKey : Type;
  SecretKeyShare : Type;
  PublicKeyShare : Type;
  SecretKeySet : Type;
  PublicKeySet : Type;
  Signature : Type;
  SignatureShare : Type;
  Ciphertext : Type;
  DecryptionShare : Type;
  G2 : Type;
  CryptoError : Type;
  Rng : Type;
  PublicKey_eq_dec :: EqDecision PublicKey;
  PublicKey_countable :: Countable PublicKey;
  PublicKeySet_eq_dec :: EqDecision PublicKeySet;
  Signature_eq_dec :: EqDecision Signature;
  Ciphertext_eq_dec :: EqDecision Ciphertext;
  (** key sets *)
  sk_set_random : nat → Rng → SecretKeySet * Rng;
  sk_set_public_keys : SecretKeySet → PublicKeySet;
  sk_set_secret_key_share : SecretKeySet → nat → SecretKeyShare;
  pk_set_public_key_share : PublicKeySet → nat → PublicKeyShare;
  pk_set_public_key : PublicKeySet → PublicKey;
  (** individual keys *)
  sk_gen : Rng → SecretKey * Rng;
  sk_public_key : SecretKey → PublicKey;
  sk_sign : SecretKey → bytes → Signature;
  pk_verify : PublicKey → Signature → bytes → bool;
  sk_decrypt : SecretKey → Ciphertext → option bytes;
  pk_encrypt_with_rng : PublicKey → Rng → bytes → Ciphertext * Rng;
  (** threshold signatures *)
  hash_g2 : bytes → G2;
  sk_share_sign_g2 : SecretKeyShare → G2 → SignatureShare;
  pk_share_verify_g2 : PublicKeyShare → SignatureShare → G2 → bool;
  pk_verify_g2 : PublicKey → Signature → G2 → bool;
  pk_set_combine_signatures :
    PublicKeySet → list (nat * SignatureShare) → CryptoError + Signature;
  sig_parity : Signature → bool;
  (** threshold decryption *)
  ct_verify : Ciphertext → bool;
  sk_share_decrypt_share_no_verify : SecretKeyShare → Ciphertext → DecryptionShare;
  pk_share_verify_decryption_share : PublicKeyShare → DecryptionShare → Ciphertext → bool;
  pk_set_decrypt :
    PublicKeySet → list (nat * DecryptionShare) → Ciphertext → CryptoError + bytes;
}.

(** [bincode::serialize] and [deserialize] of a type; [None] is an error. *)
Class Bincode (A : Type) := {
  bin_serialize : A → option bytes;
  bin_deserialize : bytes → option A;
}.
#[global] Hint Mode Bincode ! : typeclass_instances.

(** What the crate documents of the signatures of individual keys *)
Class SignatureLaws `{Crypto} : Prop := {
  sign_verify sk msg : pk_verify (sk_public_key sk) (sk_sign sk msg) msg = true;
}.

(** ** [util::max_faulty]

    [None] is the failed assertion on an empty network. *)
Definition max_faulty (n : nat) : option nat :=
  if decide (0 < n) then Some ((n - 1) / 3) else None.

(** ** [NetworkInfo] *)
Record NetworkInfo {N : Type} `{NodeIdT N} `{Crypto} : Type := mkNetworkInfo {
  our_id : N;
  num_nodes : nat;
  num_faulty : nat;
  is_validator : bool;
  secret_key_share : option SecretKeyShare;
  secret_key : SecretKey;
  public_key_set : PublicKeySet;
  public_key_shares : gmap N PublicKeyShare;
  public_keys : gmap N PublicKey;
  node_indices : gmap N nat;
}.
Arguments NetworkInfo N {_ _}.

Section netinfo.
Context {N : Type} `{NodeIdT N} `{Crypto}.
Implicit Types (ni : NetworkInfo N) (id : N).

(** [NetworkInfo::new]; [None] is a panic. *)
Definition netinfo_new (our_id : N) (secret_key_share : option SecretKeyShare)
    (public_key_set : PublicKeySet) (secret_key : SecretKey)
    (public_keys : gmap N PublicKey) : option (NetworkInfo N) :=
  let num_nodes := length (keys public_keys) in
  num_faulty ← max_faulty num_nodes;
  if decide (3 * num_faulty < num_nodes) then
    let is_validator := bool_decide (is_Some (public_keys !! our_id)) in
    let node_indices := keys_map (keys public_keys) in
    let public_key_shares := pk_set_public_key_share public_key_set <$> node_indices in
    Some {|
      our_id := our_id;
      num_nodes := num_nodes;
      num_faulty := num_faulty;
      is_validator := is_validator;
      secret_key_share := secret_key_share;
      secret_key := secret_key;
      public_key_set := public_key_set;
      public_key_shares := public_key_shares;
      node_indices := node_indices;
      public_keys := public_keys;
    |}
  else None.

(** Accessors that compute something *)
Definition all_ids ni : list N := keys (public_keys ni).
Definition num_correct ni : nat := num_nodes ni - num_faulty ni.
Definition public_key_share ni id : option PublicKeyShare := public_key_shares ni !! id.
Definition public_key ni id : option PublicKey := public_keys ni !! id.
Definition node_index ni id : option nat := node_indices ni !! id.
Definition is_node_validator ni id : bool := bool_decide (is_Some (public_keys ni !! id)).

(** [NetworkInfo::generate_map]: matching key material for every node; [None] is a
    panic, on an empty set of IDs. *)
Fixpoint gen_keys (ids : list N) (rng : Rng) : list (N * SecretKey) * Rng :=
  match ids with
  | [] => ([], rng)
  | id :: ids' =>
      let '(sk, rng) := sk_gen rng in
      let '(l, rng) := gen_keys ids' rng in
      ((id, sk) :: l, rng)
  end.

Definition generate_map (ids : list N) (rng : Rng) :
    option (gmap N (NetworkInfo N) * Rng) :=
  let all_ids := set_items (list_to_set ids : gset N) in
  num_faulty ← max_faulty (length all_ids);
  let '(sk_set, rng) := sk_set_random num_faulty rng in
  let pk_set := sk_set_public_keys sk_set in
  let '(sec_keys, rng) := gen_keys all_ids rng in
  let pub_keys : gmap N PublicKey := list_to_map (prod_map id sk_public_key <$> sec_keys) in
  nis ← mapM (λ '(i, (id, sk)),
    ni ← netinfo_new id (Some (sk_set_secret_key_share sk_set i)) pk_set sk pub_keys;
    Some (id, ni)) (imap pair sec_keys);
  Some (list_to_map nis, rng).

(** ** Well-formed network information

    What [new] establishes and every component relies on. *)
Record netinfo_wf ni : Prop := {
  wf_num_nodes : num_nodes ni = size (public_keys ni);
  wf_num_faulty : num_faulty ni = (num_nodes ni - 1) / 3;
  wf_nonempty : 0 < num_nodes ni;
  wf_is_validator : is_validator ni = is_node_validator ni (our_id ni);
  wf_index : ∀ id i, node_index ni id = Some i ↔ all_ids ni !! i = Some id;
  wf_share : ∀ id, public_key_share ni id =
    pk_set_public_key_share (public_key_set ni) <$> node_index ni id;
}.

Lemma max_faulty_spec n : max_faulty n = Some ((n - 1) / 3) ∨ (n = 0 ∧ max_faulty n = None).
Proof. unfold max_faulty. case_decide; [by left | right]. split; [lia | done]. Qed.

Lemma div3_bound n : 0 < n → 3 * ((n - 1) / 3) < n.
Proof. intros Hn. pose proof (Nat.Div0.mul_div_le (n - 1) 3). lia. Qed.

Lemma netinfo_new_wf id sks pks sk pub ni :
  netinfo_new id sks pks sk pub = Some ni →
  netinfo_wf ni ∧ our_id ni = id ∧ public_keys ni = pub ∧ public_key_set ni = pks ∧
  secret_key ni = sk ∧ secret_key_share ni = sks.
Proof.
  unfold netinfo_new. destruct (max_faulty _) as [f|] eqn:Hf; simpl; [|done].
  case_decide as Hlt; [|done]. intros [= <-]. split; [|done].
  unfold max_faulty in Hf. case_decide as Hn; [|done]. injection Hf as <-.
  constructor; simpl; auto.
  - apply length_keys.
  - intros id' i. unfold node_index, all_ids; simpl. apply lookup_keys_map, NoDup_keys.
  - intros id'. unfold public_key_share, node_index; simpl. apply lookup_fmap.
Qed.

Lemma netinfo_new_total id sks pks sk pub :
  is_Some (netinfo_new id sks pks sk pub) ↔ pub ≠ ∅.
Proof.
  unfold netinfo_new. rewrite length_keys. unfold max_faulty. case_decide as Hn; simpl.
  - rewrite decide_True by (apply div3_bound; lia). split; [|eauto].
    intros _ ->. rewrite map_size_empty in Hn. lia.
  - split; [by intros []|]. intros []. apply map_size_empty_inv. lia.
Qed.

Section wf.
Context (ni : NetworkInfo N) (Hwf : netinfo_wf ni).

Lemma wf_3f_lt_n : 3 * num_faulty ni < num_nodes ni.
Proof.
  rewrite (wf_num_faulty _ Hwf). apply div3_bound, Hwf.
Qed.

Lemma wf_length_all_ids : length (all_ids ni) = num_nodes ni.
Proof. unfold all_ids. by rewrite length_keys, (wf_num_nodes _ Hwf). Qed.

Lemma wf_num_correct : num_correct ni > 2 * num_faulty ni ∧ num_correct ni ≤ num_nodes ni.
Proof. unfold num_correct. pose proof wf_3f_lt_n. lia. Qed.

Lemma wf_node_index_validator id : is_Some (node_index ni id) ↔ is_node_validator ni id = true.
Proof.
  unfold is_node_validator. rewrite bool_decide_eq_true, <- elem_of_keys. fold (all_ids ni).
  rewrite list_elem_of_lookup. split; intros [i Hi]; exists i; by apply (wf_index _ Hwf).
Qed.

Lemma wf_node_index_lt id i : node_index ni id = Some i → i < num_nodes ni.
Proof.
  intros Hi%(wf_index _ Hwf)%lookup_lt_Some. by rewrite wf_length_all_ids in Hi.
Qed.

Lemma wf_node_index_inj id id' i :
  node_index ni id = Some i → node_index ni id' = Some i → id = id'.
Proof. rewrite !(wf_index _ Hwf). congruence. Qed.
End wf.

(** ** Generated networks *)
Lemma gen_keys_fst (ids : list N) rng : (gen_keys ids rng).1.*1 = ids.
Proof.
  revert rng. induction ids as [|id ids IH]; intros rng; [done|]. simpl.
  destruct (sk_gen rng) as [sk rng']. specialize (IH rng').
  destruct (gen_keys ids rng') as [l r]. simpl in *. f_equal. exact IH.
Qed.

(** What one node of a generated network knows. *)
Record generated (all : gset N) (sk_set : SecretKeySet) (id : N) ni : Prop := {
  gen_wf : netinfo_wf ni;
  gen_our_id : our_id ni = id;
  gen_all_ids : all_ids ni = set_items all;
  gen_validator : is_validator ni = true;
  gen_pk_set : public_key_set ni = sk_set_public_keys sk_set;
  gen_share : ∃ i, node_index ni id = Some i ∧
    secret_key_share ni = Some (sk_set_secret_key_share sk_set i);
  gen_key : public_key ni id = Some (sk_public_key (secret_key ni));
}.

Lemma generated_node (sec_keys : list (N * SecretKey)) sk_set all i id sk :
  let pub_keys : gmap N PublicKey := list_to_map (prod_map Datatypes.id sk_public_key <$> sec_keys) in
  sec_keys.*1 = set_items all → sec_keys !! i = Some (id, sk) →
  ∃ ni, netinfo_new id (Some (sk_set_secret_key_share sk_set i)) (sk_set_public_keys sk_set) sk pub_keys
    = Some ni ∧ generated all sk_set id ni ∧ public_keys ni = pub_keys.
Proof.
  intros pub_keys Hfst Hi.
  assert (Hnd : NoDup (prod_map Datatypes.id sk_public_key <$> sec_keys).*1).
  { rewrite <- list_fmap_compose. rewrite (list_fmap_ext _ fst) by (by intros ? []).
    rewrite Hfst. apply NoDup_set_items. }
  assert (Hpk : pub_keys !! id = Some (sk_public_key sk)).
  { unfold pub_keys. apply elem_of_list_to_map; [done|]. apply list_elem_of_fmap.
    exists (id, sk). split; [done|]. by eapply list_elem_of_lookup_2. }
  assert (Hkeys : keys pub_keys = set_items all).
  { rewrite keys_dom. f_equal. unfold pub_keys. rewrite dom_list_to_map_L, <- list_fmap_compose.
    rewrite (list_fmap_ext _ fst) by (by intros ? []). rewrite Hfst.
    apply set_eq. intros x. by rewrite elem_of_list_to_set, elem_of_set_items. }
  destruct (netinfo_new id (Some (sk_set_secret_key_share sk_set i)) (sk_set_public_keys sk_set) sk pub_keys)
    as [ni|] eqn:Hni.
  - destruct (netinfo_new_wf _ _ _ _ _ _ Hni) as (Hwf & Hid & Hpub & Hset & Hsk & Hshare).
    exists ni. split; [done|]. split; [|done]. constructor; auto.
    + unfold all_ids. by rewrite Hpub.
    + rewrite (wf_is_validator _ Hwf), Hid. unfold is_node_validator.
      apply bool_decide_eq_true. rewrite Hpub, Hpk. eauto.
    + exists i. split; [|done]. apply (wf_index _ Hwf). unfold all_ids. rewrite Hpub, Hkeys, <- Hfst.
      by rewrite list_lookup_fmap, Hi.
    + unfold public_key. by rewrite Hpub, Hsk.
  - exfalso. assert (Hs : is_Some (netinfo_new id (Some (sk_set_secret_key_share sk_set i))
      (sk_set_public_keys sk_set) sk pub_keys)).
    { apply netinfo_new_total. intros He. by rewrite He in Hpk. }
    rewrite Hni in Hs. by destruct Hs.
Qed.

(** C36: [NetworkInfo::generate_map] sets up a consistent network: it panics only on an empty list of
    IDs; otherwise every ID, and nothing else, gets information that is well formed (so
    [3 f < N]), that names the same validators and the same public key set, and whose
    secret keys and secret key share belong to the public keys and the share index of the
    node. *)
Theorem generate_map_consistent (ids : list N) rng :
  match generate_map ids rng with
  | None => ids = []
  | Some (m, _) => ids ≠ [] ∧ dom m = list_to_set ids ∧
      ∃ sk_set, map_Forall (generated (list_to_set ids) sk_set) m
  end.
Proof.
  unfold generate_map. set (all := list_to_set ids : gset N).
  destruct (max_faulty_spec (length (set_items all))) as [Hmf|[Hl Hmf]]; rewrite Hmf; simpl; cycle 1.
  { rewrite length_set_items in Hl. apply size_empty_inv in Hl.
    destruct ids as [|id ids]; [done|]. set_solver. }
  destruct (sk_set_random _ rng) as [sk_set rng1].
  destruct (gen_keys (set_items all) rng1) as [sec_keys rng2] eqn:Hg.
  assert (Hfst : sec_keys.*1 = set_items all).
  { pose proof (gen_keys_fst (set_items all) rng1) as Hf. by rewrite Hg in Hf. }
  set (pub := list_to_map _).
  match goal with |- context [mapM ?f _] => set (mk := f) end.
  assert (Hmk : Forall (λ p, ∃ ni, mk p = Some (p.2.1, ni) ∧ generated all sk_set p.2.1 ni)
    (imap pair sec_keys)).
  { apply Forall_lookup. intros i [j [id sk]] Hi.
    apply list_lookup_imap_Some in Hi as (p & Hi & Hpe). injection Hpe as -> <-.
    destruct (generated_node sec_keys sk_set all i id sk Hfst Hi) as (ni & Hni & Hgen & _).
    exists ni. split; [|done]. unfold mk, pub. simpl. by rewrite Hni. }
  assert (Hnis : ∃ nis, mapM mk (imap pair sec_keys) = Some nis ∧ nis.*1 = set_items all ∧
    Forall (λ p, generated all sk_set p.1 p.2) nis).
  { rewrite <- Hfst. clearbody mk. revert Hmk. clear.
    assert (Hsnd : sec_keys.*1 = (imap pair sec_keys).*2.*1).
    { f_equal. rewrite fmap_imap. apply list_eq. intros i. rewrite list_lookup_imap.
      by destruct (_ !! i). }
    rewrite Hsnd. generalize (imap pair sec_keys) as l.
    induction l as [|p l IH]; intros Hmk; [by exists []|].
    apply Forall_cons in Hmk as [(ni & Hp & Hgen) Hl]. destruct (IH Hl) as (nis & Hm & Hf & Hall).
    exists ((p.2.1, ni) :: nis). cbn [mapM]. rewrite Hp. simpl. rewrite Hm. simpl.
    split; [done|]. split; [cbn; f_equal; exact Hf|]. by constructor. }
  destruct Hnis as (nis & Hm & Hf & Hall).
  match goal with |- context [mapM ?g ?l ≫= _] => change (mapM g l) with (mapM mk (imap pair sec_keys)) end.
  rewrite Hm. simpl. split; [|split].
  - intros ->. unfold all in Hmf. simpl in Hmf. done.
  - rewrite dom_list_to_map_L, Hf. apply set_eq. intros x.
    by rewrite elem_of_list_to_set, elem_of_set_items.
  - exists sk_set. intros id ni Hid%elem_of_list_to_map_2.
    rewrite Forall_forall in Hall. by apply (Hall (id, ni)).
Qed.
End netinfo.
