(* ===== verification/Merkle.v ===== *)
(** * Merkle trees

    Models [src/broadcast/merkle.rs]: the tree of a vector of shards, the proof of a
    shard and its validation.  [sha3_256] (crate [tiny-keccak]) is a parameter; a
    digest is an array of 32 bytes.  Proved: [from_vec] does not panic on a nonempty
    vector, the proof of every leaf validates, and validation is binding, a proof
    that validates against the root of a tree carries the leaf of that tree, unless
    it exhibits a hash collision. *)
From S2P Require Import Prelude.
From S2P Require Import BTree.
From S2P Require Import NetworkInfo.

Abbreviation Digest := (vec byte 32) (only parsing).
#[export] Instance byte_eq_dec : EqDecision byte := Byte.byte_eq_dec.

Class Sha3 := { sha3_256 : bytes → Digest }.

(** ** Chunks of a vector, [slice::chunks] (for a positive chunk size) *)
Fixpoint chunks_fuel {A} (fuel k : nat) (l : list A) : list (list A) :=
  match fuel, l with
  | S fuel', _ :: _ => take k l :: chunks_fuel fuel' k (drop k l)
  | _, _ => []
  end.
Definition chunks {A} (k : nat) (l : list A) : list (list A) := chunks_fuel (length l) k l.

Record MerkleTree : Type := mkMerkleTree {
  mt_levels : list (list Digest);
  mt_values : list bytes;
  mt_root_hash : Digest;
}.

(** A proof that a value is at a particular index in the tree with the root hash. *)
Record MerkleProof : Type := mkProof {
  pf_value : bytes;
  pf_index : nat;
  pf_digests : list Digest;
  pf_root_hash : Digest;
}.
#[export] Instance MerkleProof_eq_dec : EqDecision MerkleProof.
Proof. solve_decision. Defined.

Section merkle.
Context `{Sha3}.

Definition hash (value : bytes) : Digest := sha3_256 value.
Definition hash_pair (v0 v1 : Digest) : Digest := hash (vec_to_list v0 ++ vec_to_list v1).

(** [None] is an index out of bounds. *)
Definition hash_chunk (chunk : list Digest) : option Digest :=
  if decide (length chunk = 1) then chunk !! 0
  else d0 ← chunk !! 0; d1 ← chunk !! 1; Some (hash_pair d0 d1).

(** The loop of [from_vec]: hashes pairs until one digest is left. *)
Fixpoint build_levels (fuel : nat) (levels : list (list Digest)) (cur_lvl : list Digest) :
    option (list (list Digest) * list Digest) :=
  if decide (1 < length cur_lvl) then
    match fuel with
    | 0 => None
    | S fuel' =>
        next_lvl ← mapM hash_chunk (chunks 2 cur_lvl);
        build_levels fuel' (levels ++ [cur_lvl]) next_lvl
    end
  else Some (levels, cur_lvl).

(** [MerkleTree::from_vec]; [None] is a panic ([cur_lvl[0]] of an empty vector). *)
Definition from_vec (values : list bytes) : option MerkleTree :=
  '(levels, cur_lvl) ← build_levels (length values) [] (hash <$> values);
  root_hash ← cur_lvl !! 0;
  Some (mkMerkleTree levels values root_hash).

(** The digests of a branch: the sibling on each level, if there is one. *)
Fixpoint branch (levels : list (list Digest)) (lvl_i : nat) : list Digest :=
  match levels with
  | [] => []
  | level :: levels' => option_list (level !! Nat.lxor lvl_i 1) ++ branch levels' (lvl_i `div` 2)
  end.

Definition proof (t : MerkleTree) (index : nat) : option MerkleProof :=
  value ← mt_values t !! index;
  Some (mkProof value index (branch (mt_levels t) index) (mt_root_hash t)).

(** The loop of [validate]: [None] is the early [return false]. *)
Fixpoint validate_loop (fuel : nat) (digest : Digest) (lvl_i lvl_n : nat)
    (digests : list Digest) : option (Digest * list Digest) :=
  if decide (1 < lvl_n) then
    match fuel with
    | 0 => None
    | S fuel' =>
        '(digest, digests) ←
          if decide (Nat.lxor lvl_i 1 < lvl_n) then
            match digests with
            | [] => None
            | sibling :: digests' =>
                if Nat.odd lvl_i then Some (hash_pair sibling digest, digests')
                else Some (hash_pair digest sibling, digests')
            end
          else Some (digest, digests);
        validate_loop fuel' digest (lvl_i `div` 2) ((lvl_n + 1) `div` 2) digests
    end
  else Some (digest, digests).

Definition validate (p : MerkleProof) (n : nat) : bool :=
  match validate_loop n (hash (pf_value p)) (pf_index p) n (pf_digests p) with
  | None => false
  | Some (_, _ :: _) => false
  | Some (digest, []) => bool_decide (digest = pf_root_hash p)
  end.

(** ** What binding rests on

    Some two inputs of a hash function always collide, so the binding theorems name
    the inputs: [pf_inputs] are those that the validation of a proof hashes, and
    [tree_inputs] those of the proofs of a tree.  A theorem that says "or [collides]"
    exhibits two different strings among these with one digest. *)
Fixpoint loop_inputs (fuel : nat) (digest : Digest) (lvl_i lvl_n : nat)
    (digests : list Digest) : list bytes :=
  if decide (1 < lvl_n) then
    match fuel with
    | 0 => []
    | S fuel' =>
        if decide (Nat.lxor lvl_i 1 < lvl_n) then
          match digests with
          | [] => []
          | sibling :: digests' =>
              let input := if Nat.odd lvl_i then vec_to_list sibling ++ vec_to_list digest
                else vec_to_list digest ++ vec_to_list sibling in
              input :: loop_inputs fuel' (hash input) (lvl_i `div` 2) ((lvl_n + 1) `div` 2) digests'
          end
        else loop_inputs fuel' digest (lvl_i `div` 2) ((lvl_n + 1) `div` 2) digests
    end
  else [].

Definition pf_inputs (p : MerkleProof) (n : nat) : list bytes :=
  pf_value p :: loop_inputs n (hash (pf_value p)) (pf_index p) n (pf_digests p).

Definition tree_inputs (t : MerkleTree) : list bytes :=
  seq 0 (length (mt_values t)) ≫= λ i,
    from_option (λ p, pf_inputs p (length (mt_values t))) [] (proof t i).

Definition collides (l l' : list bytes) : Prop :=
  ∃ x y, x ∈ l ∧ y ∈ l' ∧ x ≠ y ∧ sha3_256 x = sha3_256 y.
End merkle.

(** ** Lemmas on chunks *)
Section chunks.
Context {A : Type} (k : nat) (Hk : 0 < k).
Implicit Types l : list A.

Lemma chunks_fuel_enough fuel fuel' l :
  length l ≤ fuel → length l ≤ fuel' → chunks_fuel fuel k l = chunks_fuel fuel' k l.
Proof.
  revert fuel' l. induction fuel as [|fuel IH]; intros [|fuel'] [|x l] ? ?; simpl in *;
    try lia; try done.
  f_equal. apply IH; rewrite length_drop; simpl; lia.
Qed.

Lemma chunks_cons l : l ≠ [] → chunks k l = take k l :: chunks k (drop k l).
Proof.
  destruct l as [|x l]; [done|]. intros _. unfold chunks. simpl. f_equal.
  apply chunks_fuel_enough; rewrite length_drop; simpl; lia.
Qed.

Lemma chunks_nil : chunks k ([] : list A) = [].
Proof. done. Qed.

Lemma chunks_ind (P : list A → Prop) :
  P [] → (∀ l, l ≠ [] → P (drop k l) → P l) → ∀ l, P l.
Proof.
  intros Hnil Hstep l. induction (Nat.lt_wf_0_projected (@length A) l) as [l _ IH].
  destruct (decide (l = [])) as [->|Hl]; [done|]. apply Hstep; [done|]. apply IH.
  rewrite length_drop. destruct l; [done|simpl; lia].
Qed.

Lemma concat_chunks l : concat (chunks k l) = l.
Proof.
  induction l as [|l Hl IH] using chunks_ind; [done|].
  rewrite chunks_cons by done. simpl. by rewrite IH, take_drop.
Qed.

(** Chunks of a vector of [n * k] elements: [n] of them, each of size [k]. *)
Lemma chunks_exact l n :
  length l = n * k → length (chunks k l) = n ∧ Forall (λ c, length c = k) (chunks k l).
Proof.
  revert l. induction n as [|n IH]; intros l Hlen.
  - apply nil_length_inv in Hlen as ->. done.
  - rewrite chunks_cons by (destruct l; simpl in *; [lia|done]).
    destruct (IH (drop k l)) as [Hl Hf]; [rewrite length_drop; lia|].
    split; [simpl; lia|]. constructor; [|done]. rewrite length_take. lia.
Qed.
Lemma concat_take_chunks n l : concat (take n (chunks k l)) = take (n * k) l.
Proof.
  revert l. induction n as [|n IH]; intros l; [done|].
  destruct (decide (l = [])) as [->|Hl]; [by rewrite chunks_nil, !take_nil|].
  rewrite chunks_cons by done. simpl. rewrite IH.
  by rewrite take_take_drop.
Qed.
End chunks.

Lemma testbit_1_succ b : Nat.testbit 1 (S b) = false.
Proof. apply Nat.bits_above_log2. change (Nat.log2 1) with 0. lia. Qed.

Lemma xor1_double j : Nat.lxor (2 * j) 1 = 2 * j + 1 ∧ Nat.lxor (2 * j + 1) 1 = 2 * j.
Proof.
  split; apply Nat.bits_inj; intros [|b]; rewrite Nat.lxor_spec.
  all: rewrite ?testbit_1_succ, ?Nat.testbit_even_0, ?Nat.testbit_odd_0; try done.
  all: by rewrite Nat.testbit_odd_succ, Nat.testbit_even_succ, xorb_false_r by lia.
Qed.

Lemma even_or_odd i : ∃ j, (i = 2 * j ∧ Nat.odd i = false) ∨ (i = 2 * j + 1 ∧ Nat.odd i = true).
Proof.
  destruct (Nat.odd i) eqn:Hi.
  - apply Nat.odd_spec in Hi as [j ->]. exists j. by right.
  - rewrite <- Nat.negb_even in Hi. apply negb_false_iff, Nat.even_spec in Hi as [j ->].
    exists j. by left.
Qed.

Lemma list_ind2 {A} (P : list A → Prop) :
  P [] → (∀ x, P [x]) → (∀ x y l, P l → P (x :: y :: l)) → ∀ l, P l.
Proof.
  intros Hnil Hone Hstep l. enough (P l ∧ ∀ x, P (x :: l)) by tauto.
  induction l as [|y l [IH1 IH2]]; auto.
Qed.

(** Two different lists of the same length differ at an index. *)
Lemma list_eq_dec_lookup_ne {A} `{EqDecision A} (l l' : list A) :
  l ≠ l' → length l = length l' → ∃ i x y, l !! i = Some x ∧ l' !! i = Some y ∧ x ≠ y.
Proof.
  revert l'. induction l as [|x l IH]; intros [|y l'] Hne Hlen; simpl in *; try done.
  destruct (decide (x = y)) as [->|Hxy]; [|by exists 0, x, y].
  destruct (IH l') as (i & a & b & ?); [congruence|lia|]. by exists (S i), a, b.
Qed.

Section merkle_facts.
Context `{Sha3}.
Implicit Types (l cur : list Digest) (i j fuel : nat).

(** ** One level of the tree *)
Fixpoint pair_up l : list Digest :=
  match l with
  | d0 :: d1 :: l' => hash_pair d0 d1 :: pair_up l'
  | _ => l
  end.

Lemma mapM_hash_chunk l : mapM hash_chunk (chunks 2 l) = Some (pair_up l).
Proof.
  induction l as [|x|x y l IH] using list_ind2; [done..|].
  rewrite chunks_cons by (done || lia). simpl. by rewrite drop_0, IH.
Qed.

Lemma length_pair_up l : length (pair_up l) = (length l + 1) `div` 2.
Proof.
  induction l as [|x|x y l IH] using list_ind2; [done..|]. simpl length. rewrite IH.
  replace (S (S (length l)) + 1) with (length l + 1 + 1 * 2) by lia.
  rewrite Nat.div_add by lia. lia.
Qed.

Lemma lookup_pair_up l j :
  pair_up l !! j =
    match l !! (2 * j), l !! (2 * j + 1) with
    | Some a, Some b => Some (hash_pair a b)
    | o, _ => o
    end.
Proof.
  revert l. induction j as [|j IH]; intros [|x [|y l]]; try done.
  replace (2 * S j) with (S (S (2 * j))) by lia. simpl. rewrite IH.
  by replace (S (j + S (j + 0) + 1)) with (S (S (2 * j + 1))) by lia.
Qed.

Lemma build_levels_S fuel lv cur :
  1 < length cur →
  build_levels (S fuel) lv cur = build_levels fuel (lv ++ [cur]) (pair_up cur).
Proof. intros Hl. simpl. rewrite decide_True by done. by rewrite mapM_hash_chunk. Qed.

Lemma build_levels_done fuel lv cur :
  length cur ≤ 1 → build_levels fuel lv cur = Some (lv, cur).
Proof. intros Hl. destruct fuel; simpl; by rewrite decide_False by lia. Qed.

Lemma build_levels_acc fuel lv cur :
  build_levels fuel lv cur = prod_map (lv ++.) id <$> build_levels fuel [] cur.
Proof.
  revert lv cur. induction fuel as [|fuel IH]; intros lv cur.
  - simpl. case_decide; simpl; [done|]. by rewrite app_nil_r.
  - destruct (decide (1 < length cur)) as [Hl|Hl].
    + rewrite !build_levels_S, IH, (IH ([] ++ [cur])) by done.
      destruct (build_levels fuel [] (pair_up cur)) as [[lv' top]|]; simpl; [|done].
      by rewrite <- (assoc_L (++)).
    + rewrite !build_levels_done by lia. simpl. by rewrite app_nil_r.
Qed.

(** Enough fuel: as many rounds as there are leaves. *)
Lemma build_levels_total fuel cur :
  cur ≠ [] → length cur ≤ S fuel → ∃ lv r, build_levels fuel [] cur = Some (lv, [r]).
Proof.
  revert cur. induction fuel as [|fuel IH]; intros cur Hne Hlen.
  - rewrite build_levels_done by lia. destruct cur as [|r []]; simpl in *; [done| |lia]. eauto.
  - destruct (decide (1 < length cur)) as [Hl|Hl].
    + rewrite build_levels_S, build_levels_acc by done. simpl app.
      pose proof (length_pair_up cur) as Hp.
      assert (Hd : (length cur + 1) `div` 2 < length cur ∧ 0 < (length cur + 1) `div` 2).
      { split; [apply Nat.Div0.div_lt_upper_bound; lia|]. apply Nat.div_str_pos. lia. }
      destruct (IH (pair_up cur)) as (lv & r & ->); [|lia|by eexists _, r].
      intros He. rewrite He in Hp. change (length []) with 0 in Hp. lia.
    + rewrite build_levels_done by lia. destruct cur as [|r []]; simpl in *; [done| |lia]. eauto.
Qed.

(** ** Branches and their validation *)
Lemma validate_loop_S fuel d i n ds :
  1 < n →
  validate_loop (S fuel) d i n ds =
    ('(d, ds) ←
       if decide (Nat.lxor i 1 < n) then
         match ds with
         | [] => None
         | s :: ds' => if Nat.odd i then Some (hash_pair s d, ds') else Some (hash_pair d s, ds')
         end
       else Some (d, ds);
     validate_loop fuel d (i `div` 2) ((n + 1) `div` 2) ds).
Proof. intros Hn. simpl. by rewrite decide_True by done. Qed.

Lemma validate_loop_done fuel d i n ds : n ≤ 1 → validate_loop fuel d i n ds = Some (d, ds).
Proof. intros Hn. destruct fuel; simpl; by rewrite decide_False by lia. Qed.

Lemma div2_double j : (2 * j) `div` 2 = j ∧ (2 * j + 1) `div` 2 = j.
Proof.
  rewrite (Nat.mul_comm 2 j), Nat.div_mul, Nat.div_add_l, Nat.add_0_r by lia. done.
Qed.

Lemma branch_cons level lv i :
  branch (level :: lv) i = option_list (level !! Nat.lxor i 1) ++ branch lv (i `div` 2).
Proof. done. Qed.

(** The branch of the digest at index [i] of a level validates to the root. *)
Lemma branch_validates fuel cur lv r i d rest :
  build_levels fuel [] cur = Some (lv, [r]) → cur !! i = Some d →
  validate_loop fuel d i (length cur) (branch lv i ++ rest) = Some (r, rest).
Proof.
  revert cur lv i d. induction fuel as [|fuel IH]; intros cur lv i d Hb Hi.
  - destruct (decide (1 < length cur)) as [Hl|Hl].
    { simpl in Hb. by rewrite decide_True in Hb. }
    rewrite build_levels_done in Hb by lia. injection Hb as <- ->.
    apply list_lookup_singleton_Some in Hi as [-> ->]. done.
  - destruct (decide (1 < length cur)) as [Hl|Hl].
    2: { rewrite build_levels_done in Hb by lia. injection Hb as <- ->.
         apply list_lookup_singleton_Some in Hi as [-> ->]. done. }
    rewrite build_levels_S, build_levels_acc in Hb by done.
    destruct (build_levels fuel [] (pair_up cur)) as [[lv' top]|] eqn:Hn; [|done].
    injection Hb as <- ->. rewrite validate_loop_S by done. rewrite branch_cons.
    rewrite <- (assoc_L (++)), <- length_pair_up.
    destruct (even_or_odd i) as [j [[-> Ho]|[-> Ho]]]; rewrite Ho.
    + destruct (xor1_double j) as [-> _]. destruct (div2_double j) as [-> _].
      pose proof (lookup_pair_up cur j) as Hp. rewrite Hi in Hp.
      destruct (cur !! (2 * j + 1)) as [s|] eqn:Hs; simpl.
      * rewrite decide_True by by eapply lookup_lt_Some. by apply IH.
      * rewrite decide_False by by apply Nat.nlt_ge, lookup_ge_None. by apply IH.
    + destruct (xor1_double j) as [_ ->]. destruct (div2_double j) as [_ ->].
      destruct (cur !! (2 * j)) as [s|] eqn:Hs.
      2: { apply lookup_ge_None in Hs. apply lookup_lt_Some in Hi. lia. }
      pose proof (lookup_pair_up cur j) as Hp. rewrite Hi, Hs in Hp. simpl.
      rewrite decide_True by by eapply lookup_lt_Some. by apply IH.
Qed.

Lemma hash_inputs_inj (l l' : list bytes) x y :
  hash x = hash y → x ∈ l → y ∈ l' → x = y ∨ collides l l'.
Proof.
  intros Hh Hx Hy. destruct (decide (x = y)) as [->|Hne]; [by left|right]. by exists x, y.
Qed.

Lemma collides_mono (l1 l1' l2 l2' : list bytes) :
  collides l1 l2 → l1 ⊆ l1' → l2 ⊆ l2' → collides l1' l2'.
Proof. intros (x & y & ? & ? & ? & ?) ? ?. exists x, y. set_solver. Qed.

Lemma vec_app_inj (a b c d : Digest) :
  vec_to_list a ++ vec_to_list b = vec_to_list c ++ vec_to_list d → a = c ∧ b = d.
Proof.
  intros [Ha Hb]%app_inj_1; [|by rewrite !length_vec_to_list].
  split; by apply vec_to_list_inj2.
Qed.

(** Two branches for the same index that validate to the same root are the same branch. *)
Lemma validate_loop_binding fuel d1 d2 i n ds1 ds2 r :
  validate_loop fuel d1 i n ds1 = Some (r, []) →
  validate_loop fuel d2 i n ds2 = Some (r, []) →
  (d1 = d2 ∧ ds1 = ds2) ∨
  collides (loop_inputs fuel d1 i n ds1) (loop_inputs fuel d2 i n ds2).
Proof.
  revert d1 d2 i n ds1 ds2. induction fuel as [|fuel IH]; intros d1 d2 i n ds1 ds2 H1 H2.
  - simpl in *. case_decide; [done|]. left. split; congruence.
  - destruct (decide (1 < n)) as [Hn|Hn].
    2: { rewrite validate_loop_done in H1, H2 by lia. left. split; congruence. }
    rewrite validate_loop_S in H1, H2 by done. cbn [loop_inputs]. rewrite !(decide_True _ _ Hn).
    destruct (decide (Nat.lxor i 1 < n)); simpl in *; [|by apply IH].
    destruct ds1 as [|s1 ds1], ds2 as [|s2 ds2]; try done.
    destruct (Nat.odd i); simpl in *;
      (destruct (IH _ _ _ _ _ _ H1 H2) as [[Hp ->]|Hc];
        [|right; eapply collides_mono; [exact Hc|set_solver..]]);
      (match goal with |- _ ∨ collides ?l ?l' =>
         destruct (hash_inputs_inj l l' _ _ Hp) as [[-> ->]%vec_app_inj|];
           [by left|by left|by left|by right] end).
Qed.

(** ** The tree of a vector *)
Lemma from_vec_spec vs :
  vs ≠ [] → ∃ t, from_vec vs = Some t ∧ mt_values t = vs ∧
    build_levels (length vs) [] (hash <$> vs) = Some (mt_levels t, [mt_root_hash t]).
Proof.
  intros Hne.
  destruct (build_levels_total (length vs) (hash <$> vs)) as (lv & r & Hb).
  - by destruct vs.
  - rewrite length_fmap. lia.
  - exists (mkMerkleTree lv vs r). unfold from_vec. by rewrite Hb.
Qed.

Lemma from_vec_Some vs t :
  from_vec vs = Some t → vs ≠ [] ∧ mt_values t = vs ∧
    build_levels (length vs) [] (hash <$> vs) = Some (mt_levels t, [mt_root_hash t]).
Proof.
  intros Ht. assert (Hne : vs ≠ []) by (intros ->; done). split; [done|].
  destruct (from_vec_spec vs Hne) as (t' & Ht' & ? & ?). by assert (t = t') as -> by congruence.
Qed.

Lemma proof_valid vs t i p :
  from_vec vs = Some t → proof t i = Some p →
  validate p (length vs) = true ∧ pf_index p = i ∧ pf_root_hash p = mt_root_hash t ∧
  vs !! i = Some (pf_value p).
Proof.
  intros (Hne & Hv & Hb)%from_vec_Some. unfold proof. rewrite Hv.
  destruct (vs !! i) as [v|] eqn:Hi; simpl; [|done]. intros [= <-]. simpl.
  split; [|done]. unfold validate. simpl.
  assert (Hd : (hash <$> vs) !! i = Some (hash v)) by (by rewrite list_lookup_fmap, Hi).
  pose proof (branch_validates _ _ _ _ _ _ [] Hb Hd) as Hval.
  rewrite length_fmap, app_nil_r in Hval. rewrite Hval. by apply bool_decide_eq_true.
Qed.

Lemma validate_binding p q n :
  validate p n = true → validate q n = true → pf_index p = pf_index q →
  pf_root_hash p = pf_root_hash q → p = q ∨ collides (pf_inputs p n) (pf_inputs q n).
Proof.
  destruct p as [v1 i1 ds1 r1], q as [v2 i2 ds2 r2]. unfold validate, pf_inputs; simpl.
  intros H1 H2 -> ->.
  destruct (validate_loop n (hash v1) _ _ _) as [[r [|]]|] eqn:E1; try done.
  destruct (validate_loop n (hash v2) _ _ _) as [[r' [|]]|] eqn:E2; try done.
  apply bool_decide_eq_true in H1 as ->, H2 as ->.
  destruct (validate_loop_binding _ _ _ _ _ _ _ _ E1 E2) as [[Hh ->]|Hc].
  - destruct (hash_inputs_inj (v1 :: loop_inputs n (hash v1) i2 n ds2)
      (v2 :: loop_inputs n (hash v2) i2 n ds2) v1 v2 Hh) as [->|];
      [by left|by left|by left|by right].
  - right. eapply collides_mono; [exact Hc|set_solver..].
Qed.

Lemma pf_inputs_tree t i p :
  proof t i = Some p → pf_inputs p (length (mt_values t)) ⊆ tree_inputs t.
Proof.
  intros Hp x Hx. unfold tree_inputs. rewrite list_elem_of_bind.
  exists i. rewrite Hp. split; [done|]. rewrite elem_of_seq. unfold proof in Hp.
  apply bind_Some in Hp as (v & Hv%lookup_lt_Some & _). lia.
Qed.

(** Trees of vectors of the same length with the same root have the same leaves. *)
Lemma root_binding vs vs' t t' :
  from_vec vs = Some t → from_vec vs' = Some t' → length vs = length vs' →
  mt_root_hash t = mt_root_hash t' → vs = vs' ∨ collides (tree_inputs t) (tree_inputs t').
Proof.
  intros Ht Ht' Hlen Hroot.
  destruct (decide (vs = vs')) as [->|Hne]; [by left|]. right.
  destruct (list_eq_dec_lookup_ne _ _ Hne Hlen) as (i & v & v' & Hi & Hi' & Hvv).
  pose proof (from_vec_Some _ _ Ht) as (_ & Hv & _).
  pose proof (from_vec_Some _ _ Ht') as (_ & Hv' & _).
  destruct (proof t i) as [p|] eqn:Hp; [|unfold proof in Hp; by rewrite Hv, Hi in Hp].
  destruct (proof t' i) as [p'|] eqn:Hp'; [|unfold proof in Hp'; by rewrite Hv', Hi' in Hp'].
  destruct (proof_valid _ _ _ _ Ht Hp) as (V & I & R & L).
  destruct (proof_valid _ _ _ _ Ht' Hp') as (V' & I' & R' & L'). rewrite <- Hlen in V'.
  destruct (validate_binding p p' (length vs)) as [->|Hc]; [congruence..| |].
  - congruence.
  - eapply collides_mono; [exact Hc| |].
    + rewrite <- Hv. by eapply pf_inputs_tree.
    + rewrite Hlen, <- Hv'. by eapply pf_inputs_tree.
Qed.

End merkle_facts.
