(* ===== verification/Broadcast.v ===== *)
(** * Reliable broadcast

    Models [src/broadcast/broadcast.rs], [message.rs] and [error.rs]: the state of one
    instance, [broadcast] (the proposer's input), [handle_message] with the handlers
    of [Value], [Echo] and [Ready], and the coding and decoding of the payload.  The
    Reed-Solomon code and the byte order crate are parameters.  The network-level
    guarantees are in [BroadcastNet]. *)
From S2P Require Import Prelude.
From S2P Require Import BTree.
From S2P Require Import Traits.
From S2P Require Import NetworkInfo.
From S2P Require Import Merkle.

(** The crate [reed-solomon-erasure].  Its errors are never inspected, so a failed call
    is [None]. *)
Class ReedSolomonLib := {
  RS : Type;
  rs_new : nat → nat → option RS;
  rs_data_shard_count : RS → nat;
  rs_parity_shard_count : RS → nat;
  rs_encode : RS → list bytes → option (list bytes);
  rs_reconstruct_shards : RS → list (option bytes) → option (list (option bytes));
}.

(** Documented behaviour of the crate: [new d p] makes a code with [d] data and [p] parity
    shards; [encode] fills in the parity shards of equally long, nonempty shards and
    leaves the data shards alone; [reconstruct_shards] fills in what is missing and
    leaves what is present alone, and if at least [d] shards of an encoded vector are
    present, it restores that vector. *)
Class ReedSolomonLaws `{ReedSolomonLib} : Prop := {
  rs_new_counts d p rs : rs_new d p = Some rs →
    rs_data_shard_count rs = d ∧ rs_parity_shard_count rs = p;
  rs_encode_ok d p rs len shards : rs_new d p = Some rs →
    length shards = d + p → 0 < len → Forall (λ s, length s = len) shards →
    ∃ cw, rs_encode rs shards = Some cw ∧ length cw = d + p ∧ take d cw = take d shards;
  rs_reconstruct_fills rs shards full : rs_reconstruct_shards rs shards = Some full →
    length full = length shards ∧ Forall is_Some full ∧
    ∀ i x, shards !! i = Some (Some x) → full !! i = Some (Some x);
  rs_reconstruct_codeword d p rs shards cw part : rs_new d p = Some rs →
    rs_encode rs shards = Some cw → length cw = d + p → length part = d + p →
    (∀ i x, part !! i = Some (Some x) → cw !! i = Some x) →
    d ≤ length (omap id part) →
    rs_reconstruct_shards rs part = Some (Some <$> cw);
}.

(** [BigEndian] of the crate [byteorder]: the four bytes of a [u32]. *)
Class ByteOrder := {
  write_u32 : u32 → bytes;
  read_u32 : bytes → u32;
}.

(** Documented behaviour: four bytes, from which the number can be read again. *)
Class ByteOrderLaws `{ByteOrder} : Prop := {
  write_u32_length n : length (write_u32 n) = 4;
  read_write_u32 n : in_u32 n → read_u32 (write_u32 n) = n;
}.

Module broadcast.

(** ** Errors and faults, [error.rs] *)
Inductive Error : Type :=
  | InvalidNodeCount
  | InstanceCannotPropose
  | MultipleInputs
  | ProofConstructionFailed
  | UnknownSender.

Inductive FaultKind : Type :=
  | ReceivedValueFromNonProposer
  | MultipleValues
  | MultipleEchos
  | MultipleReadys
  | InvalidProof
  | BroadcastDecoding.

(** ** Messages, [message.rs] *)
Inductive Message : Type :=
  | Value (p : MerkleProof)
  | Echo (p : MerkleProof)
  | Ready (hash : Digest).
#[global] Instance Message_eq_dec : EqDecision Message.
Proof. solve_decision. Defined.

(** ** The wrapper around [ReedSolomon] *)
Inductive Coding `{ReedSolomonLib} : Type :=
  | ReedSolomon (rs : RS)
  | Trivial (data_shards : nat).

Definition coding_new `{ReedSolomonLib} (data_shard_num parity_shard_num : nat) :
    option Coding :=
  if decide (0 < parity_shard_num) then ReedSolomon <$> rs_new data_shard_num parity_shard_num
  else Some (Trivial data_shard_num).
Definition data_shard_count `{ReedSolomonLib} (c : Coding) : nat :=
  match c with ReedSolomon rs => rs_data_shard_count rs | Trivial dsc => dsc end.
Definition parity_shard_count `{ReedSolomonLib} (c : Coding) : nat :=
  match c with ReedSolomon rs => rs_parity_shard_count rs | Trivial _ => 0 end.
Definition encode `{ReedSolomonLib} (c : Coding) (slices : list bytes) : option (list bytes) :=
  match c with ReedSolomon rs => rs_encode rs slices | Trivial _ => Some slices end.
Definition reconstruct_shards `{ReedSolomonLib} (c : Coding) (shards : list (option bytes)) :
    option (list (option bytes)) :=
  match c with
  | ReedSolomon rs => rs_reconstruct_shards rs shards
  | Trivial _ => if decide (Forall is_Some shards) then Some shards else None
  end.

(** ** The state of an instance *)
Record Broadcast {N : Type} `{NodeIdT N, Crypto, ReedSolomonLib} : Type := mkBroadcast {
  netinfo : NetworkInfo N;
  proposer_id : N;
  coding : Coding;
  value_sent : bool;
  echo_sent : bool;
  ready_sent : bool;
  decided : bool;
  echos : gmap N MerkleProof;
  readys : gmap N bytes;
}.
Arguments Broadcast N {_ _ _}.
#[global] Instance Broadcast_settable {N} `{NodeIdT N, Crypto, ReedSolomonLib} :
    Settable (Broadcast N) := λ s,
  mkBroadcast _ _ _ _ (netinfo s) (proposer_id s) (coding s) (value_sent s) (echo_sent s)
    (ready_sent s) (decided s) (echos s) (readys s).

Section broadcast.
Context {N : Type} `{NodeIdT N} `{Crypto} `{Sha3} `{ReedSolomonLib} `{ByteOrder}.
Abbreviation State := (Broadcast N).
Abbreviation BStep := (Step Message bytes N FaultKind).
Abbreviation BM := (M State Error).

Definition me (s : State) : N := our_id (netinfo s).
Definition terminated (s : State) : bool := decided s.

(** [Broadcast::new] *)
Definition new (ni : NetworkInfo N) (proposer : N) : Error + State :=
  let parity_shard_num := 2 * num_faulty ni in
  let data_shard_num := num_nodes ni - parity_shard_num in
  match coding_new data_shard_num parity_shard_num with
  | None => inl InvalidNodeCount
  | Some c => inr (mkBroadcast _ _ _ _ ni proposer c false false false false ∅ ∅)
  end.

(** *** Queries *)
Definition validate_proof (s : State) (p : MerkleProof) (id : N) : bool :=
  bool_decide (node_index (netinfo s) id = Some (pf_index p)) &&
  validate p (num_nodes (netinfo s)).
Definition count_echos (s : State) (hash : Digest) : nat :=
  length (filter (λ p, pf_root_hash p = hash) (values (echos s))).
Definition count_readys (s : State) (hash : Digest) : nat :=
  length (filter (λ h, h = vec_to_list hash) (values (readys s))).

(** *** Coding the payload *)

(** [Vec::resize] *)
Definition resize {A} (n : nat) (x : A) (l : list A) : list A :=
  take n l ++ replicate (n - length l) x.

(** The shards of a value: its length and content, padded, cut into slices and completed
    with parity shards.  [None] is the panic of [expect("wrong shard size")]. *)
Definition make_shards (c : Coding) (value : bytes) : option (list bytes) :=
  let data_shard_num := data_shard_count c in
  let parity_shard_num := parity_shard_count c in
  let payload_len := wrap32 (Z.of_nat (length value)) in
  let value := write_u32 payload_len ++ value in
  let value_len := length value in
  let shard_len := (value_len + data_shard_num - 1) `div` data_shard_num in
  let value := resize (shard_len * (data_shard_num + parity_shard_num)) "000"%byte value in
  encode c (chunks shard_len value).

(** The value of the data shards of a tree; [None] if there is no payload size. *)
Definition glue_shards (count : nat) (leaves : list bytes) : option bytes :=
  match concat (take count leaves) with
  | b0 :: b1 :: b2 :: b3 :: rest =>
      Some (take (Z.to_nat (read_u32 [b0; b1; b2; b3])) rest)
  | _ => None
  end.

Definition decode_from_shards (leaf_values : list (option bytes)) (root_hash : Digest) :
    BM (option bytes) :=
  c ← gets coding;
  match reconstruct_shards c leaf_values with
  | None => mret None
  | Some leaf_values =>
      let shards := omap id leaf_values in
      mtree ← expect (from_vec shards);
      if decide (mt_root_hash mtree ≠ root_hash) then mret None
      else mret (glue_shards (data_shard_count c) (mt_values mtree))
  end.

(** *** Output *)
Definition leaf_values (s : State) (hash : Digest) : list (option bytes) :=
  (λ id, p ← echos s !! id;
         if decide (pf_root_hash p = hash) then Some (pf_value p) else None)
  <$> all_ids (netinfo s).

Definition compute_output (hash : Digest) : BM BStep :=
  s ← get;
  if decided s
     || bool_decide (count_readys s hash ≤ 2 * num_faulty (netinfo s))
     || bool_decide (count_echos s hash < data_shard_count (coding s))
  then mret step_default
  else
    value ← decode_from_shards (leaf_values s hash) hash;
    match value with
    | Some value =>
        modify (λ s, s <| decided := true |>);;
        mret (with_output step_default (Some value))
    | None => mret (step_fault (proposer_id s) BroadcastDecoding)
    end.

(** *** [Ready] *)

(** [send_ready], given the handler for our own message *)
Definition send_ready_with (handle_ready : N → Digest → BM BStep) (hash : Digest) : BM BStep :=
  modify (λ s, s <| ready_sent := true |>);;
  s ← get;
  if negb (is_validator (netinfo s)) then mret step_default
  else
    let step := step_from_msg (target_message All (Ready hash)) in
    step' ← handle_ready (me s) hash;
    mret (step_join step step').

Fixpoint handle_ready_fuel (fuel : nat) (sender_id : N) (hash : Digest) : BM BStep :=
  match fuel with
  | 0 => no_fuel
  | S fuel =>
      s ← get;
      match readys s !! sender_id with
      | Some old_hash =>
          if decide (old_hash = vec_to_list hash) then mret step_default
          else mret (step_fault sender_id MultipleReadys)
      | None =>
          modify (λ s, s <| readys ::= <[sender_id := vec_to_list hash]> |>);;
          s ← get;
          step ←
            (if bool_decide (count_readys s hash = num_faulty (netinfo s) + 1)
                && negb (ready_sent s)
             then send_ready_with (handle_ready_fuel fuel) hash
             else mret step_default);
          step' ← compute_output hash;
          mret (step_join step step')
      end
  end.

(** Handling a message may send our own [Ready], which is handled in turn and sends
    nothing more: two levels. *)
Definition handle_ready : N → Digest → BM BStep := handle_ready_fuel 2.
Definition send_ready : Digest → BM BStep := send_ready_with (handle_ready_fuel 1).

(** *** [Echo] and [Value] *)
Definition handle_echo (sender_id : N) (p : MerkleProof) : BM BStep :=
  s ← get;
  match echos s !! sender_id with
  | Some old_p =>
      if decide (old_p = p) then mret step_default
      else mret (step_fault sender_id MultipleEchos)
  | None =>
      if negb (validate_proof s p sender_id) then mret (step_fault sender_id InvalidProof)
      else
        let hash := pf_root_hash p in
        modify (λ s, s <| echos ::= <[sender_id := p]> |>);;
        s ← get;
        if ready_sent s || bool_decide (count_echos s hash < num_correct (netinfo s))
        then compute_output hash
        else send_ready hash
  end.

Definition send_echo (p : MerkleProof) : BM BStep :=
  modify (λ s, s <| echo_sent := true |>);;
  s ← get;
  if negb (is_validator (netinfo s)) then mret step_default
  else
    let step := step_from_msg (target_message All (Echo p)) in
    step' ← handle_echo (me s) p;
    mret (step_join step step').

Definition handle_value (sender_id : N) (p : MerkleProof) : BM BStep :=
  s ← get;
  if decide (sender_id ≠ proposer_id s) then
    mret (step_fault sender_id ReceivedValueFromNonProposer)
  else if echo_sent s then
    if decide (echos s !! me s = Some p) then mret step_default
    else mret (step_fault sender_id MultipleValues)
  else if negb (validate_proof s p (me s)) then mret (step_fault sender_id InvalidProof)
  else send_echo p.

(** *** Input and messages *)
Definition send_shards (value : bytes) : BM (MerkleProof * BStep) :=
  s ← get;
  shards ← expect (make_shards (coding s) value);
  mtree ← expect (from_vec shards);
  assert_ (bool_decide (num_nodes (netinfo s) = length (mt_values mtree)));;
  '(result, step) ←
    for_acc (λ '(result, step) '(index, id),
      proof ← ok_or (proof mtree index) ProofConstructionFailed;
      if decide (id = me s) then mret (inr proof, step)
      else mret (result,
        step <| messages ::= (.++ [target_message (Node id) (Value proof)]) |>))
    (inl ProofConstructionFailed, step_default) (imap pair (all_ids (netinfo s)));
  proof ← of_sum result;
  mret (proof, step).

Definition broadcast (input : bytes) : BM BStep :=
  s ← get;
  if decide (me s ≠ proposer_id s) then throw InstanceCannotPropose
  else if value_sent s then throw MultipleInputs
  else
    modify (λ s, s <| value_sent := true |>);;
    '(proof, step) ← send_shards input;
    step' ← handle_value (me s) proof;
    mret (step_join step step').

Definition handle_message (sender_id : N) (msg : Message) : BM BStep :=
  s ← get;
  if negb (is_node_validator (netinfo s) sender_id) then throw UnknownSender
  else
    match msg with
    | Value p => handle_value sender_id p
    | Echo p => handle_echo sender_id p
    | Ready hash => handle_ready sender_id hash
    end.
End broadcast.

(** ** What one call does to the state

    [step_ok from s s' out] is the effect of handling [from] (a message of a peer, or
    nothing but local input): nothing received is forgotten; what is new was sent by
    the peer or by ourselves; our own [Ready] is justified by [N - f] [Echo]s or
    [f + 1] [Ready]s of other nodes; an output is decoded from a tree with a root hash
    that [2 f + 1] [Ready]s name. *)
Section facts.
Context {N : Type} `{ord : NodeIdT N} `{crypto : Crypto} `{sha : Sha3}
  `{rse : ReedSolomonLib} `{bo : ByteOrder} `{rse_laws : !ReedSolomonLaws}.
Abbreviation State := (Broadcast N).
Abbreviation BStep := (Step Message bytes N FaultKind).
Implicit Types (s : State) (out : BStep) (h : Digest) (p : MerkleProof).

(** The nodes whose [Echo] or [Ready] with this hash was received. *)
Definition echo_senders s h : gset N := keys_with (λ p, pf_root_hash p = h) (echos s).
Definition ready_senders s h : gset N := keys_with (λ b, b = vec_to_list h) (readys s).

(** The shards that [compute_output] glues: the received ones, completed. *)
Definition decoded_shards s h : list bytes :=
  from_option (omap id) [] (reconstruct_shards (coding s) (leaf_values s h)).

(** The tree with root [h] over [n] shards carries the value [v]. *)
Definition decodes (n d : nat) h (t : MerkleTree) (v : bytes) : Prop :=
  length (mt_values t) = n ∧ from_vec (mt_values t) = Some t ∧ mt_root_hash t = h ∧
  glue_shards d (mt_values t) = Some v.

Definition justified s h : Prop :=
  num_correct (netinfo s) ≤ size (echo_senders s h) ∨
  num_faulty (netinfo s) < size (ready_senders s h ∖ {[me s]}).

Record step_ok (from : option (N * Message)) s s' out : Prop := {
  so_netinfo : netinfo s' = netinfo s;
  so_proposer : proposer_id s' = proposer_id s;
  so_coding : coding s' = coding s;
  so_echos : echos s ⊆ echos s';
  so_readys : readys s ⊆ readys s';
  so_value_sent : value_sent s = true → value_sent s' = true;
  so_echo_sent : echo_sent s = true → echo_sent s' = true;
  so_ready_sent : ready_sent s = true → ready_sent s' = true;
  so_decided : decided s = true → decided s' = true;
  so_own : is_Some (readys s !! me s) ∨ ready_sent s' = true ∨ readys s' !! me s = None;
  so_own_echo : is_Some (echos s !! me s) ∨ echo_sent s' = true ∨ echos s' !! me s = None;
  so_new_echo j p : echos s' !! j = Some p →
    echos s !! j = Some p ∨
    (validate_proof s p j = true ∧ (from = Some (j, Echo p) ∨ j = me s));
  so_own_value p : echos s' !! me s = Some p →
    echos s !! me s = Some p ∨ from = Some (proposer_id s, Value p);
  so_new_ready j b : readys s' !! j = Some b →
    readys s !! j = Some b ∨ (∃ h, b = vec_to_list h ∧ from = Some (j, Ready h)) ∨
    (j = me s ∧ is_validator (netinfo s) = true);
  so_own_ready h : readys s' !! me s = Some (vec_to_list h) →
    readys s !! me s = Some (vec_to_list h) ∨ justified s' h;
  so_messages tm : tm ∈ messages out →
    match message tm with
    | Value _ => False
    | Echo p => echos s' !! me s = Some p
    | Ready h => readys s' !! me s = Some (vec_to_list h)
    end;
  so_output : output out = [] ∨
    ∃ v h, output out = [v] ∧ decided s = false ∧ decided s' = true ∧
      2 * num_faulty (netinfo s) < size (ready_senders s' h) ∧
      ∃ t, from_vec (decoded_shards s' h) = Some t ∧
        decodes (num_nodes (netinfo s)) (data_shard_count (coding s)) h t v;
}.

(** What every reachable state satisfies on its own. *)
Record state_ok s : Prop := {
  st_wf : netinfo_wf (netinfo s);
  st_coding : coding_new (num_nodes (netinfo s) - 2 * num_faulty (netinfo s))
    (2 * num_faulty (netinfo s)) = Some (coding s);
  st_own_echo : is_Some (echos s !! me s) → echo_sent s = true;
  st_own_ready : is_Some (readys s !! me s) → ready_sent s = true;
}.

Lemma count_echos_senders s h : count_echos s h = size (echo_senders s h).
Proof. apply length_filter_values. Qed.
Lemma count_readys_senders s h : count_readys s h = size (ready_senders s h).
Proof. apply length_filter_values. Qed.

Lemma echo_senders_mono s s' h : echos s ⊆ echos s' → echo_senders s h ⊆ echo_senders s' h.
Proof.
  intros Hsub j. unfold echo_senders. rewrite !elem_of_keys_with. intros (p & Hp & ?).
  exists p. split; [|done]. by eapply lookup_weaken.
Qed.
Lemma ready_senders_mono s s' h : readys s ⊆ readys s' → ready_senders s h ⊆ ready_senders s' h.
Proof.
  intros Hsub j. unfold ready_senders. rewrite !elem_of_keys_with. intros (p & Hp & ?).
  exists p. split; [|done]. by eapply lookup_weaken.
Qed.

Lemma justified_mono s s' h :
  netinfo s' = netinfo s → echos s ⊆ echos s' → readys s ⊆ readys s' →
  justified s h → justified s' h.
Proof.
  intros Hni He Hr [Hj|Hj]; unfold justified, me in *; rewrite Hni; [left|right].
  - etrans; [exact Hj|]. by apply subseteq_size, echo_senders_mono.
  - eapply Nat.lt_le_trans; [exact Hj|]. apply subseteq_size.
    pose proof (ready_senders_mono s s' h Hr). set_solver.
Qed.

Lemma bc_step_ok_refl from s out :
  messages out = [] → output out = [] → step_ok from s s out.
Proof.
  intros Hm Ho. split; auto.
  - destruct (readys s !! me s); eauto.
  - destruct (echos s !! me s); eauto.
  - by rewrite Hm; intros tm ?%elem_of_nil.
Qed.

Lemma bc_me_eq s s' : netinfo s' = netinfo s → me s' = me s.
Proof. unfold me. by intros ->. Qed.

Lemma state_ok_step from s s' out : state_ok s → step_ok from s s' out → state_ok s'.
Proof.
  intros [Hwf Hc Hecho Hown] Hs. split.
  - by rewrite (so_netinfo _ _ _ _ Hs).
  - by rewrite (so_coding _ _ _ _ Hs), (so_netinfo _ _ _ _ Hs).
  - rewrite (bc_me_eq _ _ (so_netinfo _ _ _ _ Hs)). intros [b Hb].
    destruct (so_own_echo _ _ _ _ Hs) as [Ho|[Ho|Ho]]; [|done|congruence].
    apply (so_echo_sent _ _ _ _ Hs), Hecho, Ho.
  - rewrite (bc_me_eq _ _ (so_netinfo _ _ _ _ Hs)). intros [b Hb].
    destruct (so_own _ _ _ _ Hs) as [Ho|[Ho|Ho]]; [|done|congruence].
    apply (so_ready_sent _ _ _ _ Hs), Hown, Ho.
Qed.

Lemma decodes_unique n d h t t' v v' :
  decodes n d h t v → decodes n d h t' v' → v = v' ∨ collides (tree_inputs t) (tree_inputs t').
Proof.
  intros (Hl & Ht & Hr & Hg) (Hl' & Ht' & Hr' & Hg').
  destruct (root_binding _ _ t t' Ht Ht') as [Heq|]; [congruence..| |by right].
  left. congruence.
Qed.

Lemma decoded_shards_eq s s' h :
  netinfo s' = netinfo s → coding s' = coding s → echos s' = echos s →
  decoded_shards s' h = decoded_shards s h.
Proof. unfold decoded_shards, leaf_values. by intros -> -> ->. Qed.

Lemma bc_step_ok_trans from s1 s2 s3 o1 o2 :
  step_ok from s1 s2 o1 → step_ok from s2 s3 o2 → output o1 = [] ∨ echos s3 = echos s2 →
  step_ok from s1 s3 (step_join o1 o2).
Proof.
  intros S1 S2 Hecho. pose proof (so_netinfo _ _ _ _ S1) as Hni.
  pose proof (bc_me_eq _ _ Hni) as Hme. split.
  - by rewrite (so_netinfo _ _ _ _ S2).
  - by rewrite (so_proposer _ _ _ _ S2), (so_proposer _ _ _ _ S1).
  - by rewrite (so_coding _ _ _ _ S2), (so_coding _ _ _ _ S1).
  - etrans; [apply S1|apply S2].
  - etrans; [apply S1|apply S2].
  - intros. by apply (so_value_sent _ _ _ _ S2), (so_value_sent _ _ _ _ S1).
  - intros. by apply (so_echo_sent _ _ _ _ S2), (so_echo_sent _ _ _ _ S1).
  - intros. by apply (so_ready_sent _ _ _ _ S2), (so_ready_sent _ _ _ _ S1).
  - intros. by apply (so_decided _ _ _ _ S2), (so_decided _ _ _ _ S1).
  - pose proof (so_own _ _ _ _ S2) as Ho2. rewrite Hme in Ho2.
    destruct (so_own _ _ _ _ S1) as [?|[Hr|Hn]]; [by left| |].
    + right; left. by apply (so_ready_sent _ _ _ _ S2).
    + destruct Ho2 as [[b Hb]|]; [congruence|by right].
  - pose proof (so_own_echo _ _ _ _ S2) as Ho2. rewrite Hme in Ho2.
    destruct (so_own_echo _ _ _ _ S1) as [?|[Hr|Hn]]; [by left| |].
    + right; left. by apply (so_echo_sent _ _ _ _ S2).
    + destruct Ho2 as [[b Hb]|]; [congruence|by right].
  - intros j p Hp. destruct (so_new_echo _ _ _ _ S2 j p Hp) as [Hp'|[Hv Hf]].
    + by apply (so_new_echo _ _ _ _ S1).
    + right. unfold validate_proof in *. rewrite Hni, Hme in *. auto.
  - intros p Hp. rewrite <- Hme in Hp.
    destruct (so_own_value _ _ _ _ S2 p Hp) as [Hp'|Hf].
    + rewrite Hme in Hp'. by apply (so_own_value _ _ _ _ S1).
    + right. by rewrite (so_proposer _ _ _ _ S1) in Hf.
  - intros j b Hb. destruct (so_new_ready _ _ _ _ S2 j b Hb) as [Hb'|Hf].
    + by apply (so_new_ready _ _ _ _ S1).
    + right. by rewrite Hme, Hni in Hf.
  - intros h Hh. rewrite <- Hme in Hh.
    destruct (so_own_ready _ _ _ _ S2 h Hh) as [Hh'|]; [|by right].
    rewrite Hme in Hh'. destruct (so_own_ready _ _ _ _ S1 h Hh') as [?|Hj]; [by left|right].
    by eapply justified_mono; [apply S2..|].
  - intros tm [Hin|Hin]%elem_of_app.
    + pose proof (so_messages _ _ _ _ S1 tm Hin) as Hm. destruct (message tm); [done| |];
        (eapply lookup_weaken; [exact Hm|apply S2]).
    + pose proof (so_messages _ _ _ _ S2 tm Hin) as Hm. by rewrite Hme in Hm.
  - simpl. destruct (so_output _ _ _ _ S1) as [E1|(v & h & E1 & D & D' & HR & HD)].
    + rewrite E1. simpl. destruct (so_output _ _ _ _ S2) as [E2|(v & h & E2 & D & D' & HR & HD)].
      * left. done.
      * right. exists v, h. rewrite Hni, (so_coding _ _ _ _ S1) in *. split_and!; try done.
        destruct (decided s1) eqn:Hd; [|done]. by rewrite (so_decided _ _ _ _ S1) in D.
    + right. destruct (so_output _ _ _ _ S2) as [Ho|(v' & h' & _ & Hd & _)]; [|by rewrite D' in Hd].
      destruct Hecho as [Hecho|Hecho]; [congruence|].
      exists v, h. rewrite E1, Ho. split_and!; try done.
      * by apply (so_decided _ _ _ _ S2).
      * eapply Nat.lt_le_trans; [exact HR|]. apply subseteq_size, ready_senders_mono, S2.
      * rewrite (decoded_shards_eq s2 s3); [done|apply S2|apply S2|done].
Qed.

(** ** The handlers satisfy it *)
Lemma reconstruct_shards_fills c shards full :
  reconstruct_shards c shards = Some full →
  length full = length shards ∧ Forall is_Some full ∧
  ∀ i x, shards !! i = Some (Some x) → full !! i = Some (Some x).
Proof.
  destruct c; simpl; [apply rs_reconstruct_fills|]. case_decide; [|done]. by intros [= ->].
Qed.

Lemma length_omap_id {A} (l : list (option A)) : Forall is_Some l → length (omap id l) = length l.
Proof. induction 1 as [|x l [y ->] _ IH]; csimpl; auto. Qed.

Lemma decode_from_shards_spec s lv h :
  0 < length lv →
  wp (decode_from_shards lv h) s (λ s' o, s' = s ∧
    ∀ v, o = Some v → ∃ t, decodes (length lv) (data_shard_count (coding s)) h t v ∧
      from_vec (from_option (omap id) [] (reconstruct_shards (coding s) lv)) = Some t)
    (λ _ _, False).
Proof.
  intros Hlv. unfold decode_from_shards. do 2 wp_step.
  destruct (reconstruct_shards _ _) as [full|] eqn:Hf; [|done].
  apply reconstruct_shards_fills in Hf as (Hlen & Hall & _).
  pose proof (length_omap_id full Hall) as Hl.
  destruct (from_vec_spec (omap id full)) as (t & Ht & Hv & _).
  { intros He. rewrite He in Hl. simpl in Hl. lia. }
  wp_step. apply wp_expect. exists t. split; [done|].
  case_decide as Hr; [done|]. apply wp_ret. split; [done|]. intros v Hg.
  exists t. split; [|done]. split_and!; [congruence..|done|done].
Qed.

Lemma length_leaf_values s h : state_ok s → length (leaf_values s h) = num_nodes (netinfo s).
Proof. intros Hs. unfold leaf_values. rewrite length_fmap. by apply wf_length_all_ids, st_wf. Qed.

Lemma compute_output_spec from h s :
  state_ok s →
  wp (compute_output h) s (λ s' out, step_ok from s s' out ∧ echos s' = echos s) (λ _ _, False).
Proof.
  intros Hs. unfold compute_output. do 2 wp_step.
  destruct (_ || _) eqn:Hc; [by split; [apply bc_step_ok_refl|]|].
  rewrite !orb_false_iff, !bool_decide_eq_false in Hc. destruct Hc as [[Hd Hr] He].
  rewrite count_readys_senders in Hr. simpl in *.
  pose proof (length_leaf_values s h Hs) as Hlen. pose proof (wf_nonempty _ (st_wf _ Hs)).
  wp_step. eapply wp_mono; [apply decode_from_shards_spec; lia| |done].
  intros s' o [-> Hv]. destruct o as [v|]; [|by split; [apply bc_step_ok_refl|]].
  split; [|done]. split; auto; cbn.
  - destruct (readys s !! me s); eauto.
  - destruct (echos s !! me s); eauto.
  - by intros tm ?%elem_of_nil.
  - right. destruct (Hv v eq_refl) as (t & Ht & Hfv). exists v, h. rewrite <- Hlen.
    split_and!; try done; [unfold ready_senders in *; cbn; lia|]. by exists t.
Qed.

(** Recording a [Ready]. *)
Lemma insert_ready_ok from s j h :
  readys s !! j = None →
  (from = Some (j, Ready h) ∧ j ≠ me s) ∨
    (j = me s ∧ is_validator (netinfo s) = true ∧ ready_sent s = true ∧ justified s h) →
  step_ok from s (s <| readys ::= <[j := vec_to_list h]> |>) step_default.
Proof.
  intros Hj Hcase. assert (Hsub : readys s ⊆ <[j := vec_to_list h]> (readys s))
    by by apply insert_subseteq.
  split; cbn; auto.
  - destruct Hcase as [[_ Hne]|(-> & _ & Hr & _)]; [|by auto].
    rewrite lookup_insert_ne by done. destruct (readys s !! me s); eauto.
  - destruct (echos s !! me s); eauto.
  - intros j' b. rewrite lookup_insert. case_decide as Heq; [subst j'|by auto].
    intros [= <-]. right. destruct Hcase as [[-> _]|(-> & Hv & _)]; eauto.
  - intros h'. rewrite lookup_insert. case_decide as Heq; [|by auto]. subst j.
    intros Hh. destruct Hcase as [[_ []]|(_ & _ & _ & Hju)]; [done|]. right.
    assert (h' = h) as -> by (apply vec_to_list_inj2; congruence).
    eapply justified_mono; [..|exact Hju]; done.
  - by intros tm ?%elem_of_nil.
Qed.

Lemma set_ready_sent_ok from s : step_ok from s (s <| ready_sent := true |>) step_default.
Proof.
  split; cbn; auto; [destruct (echos s !! me s); eauto|by intros tm ?%elem_of_nil].
Qed.

Lemma set_echo_sent_ok from s : step_ok from s (s <| echo_sent := true |>) step_default.
Proof.
  split; cbn; auto; [destruct (readys s !! me s); eauto|by intros tm ?%elem_of_nil].
Qed.

Lemma bc_step_ok_after from s1 s2 s3 o o' :
  step_ok from s1 s2 step_default → step_ok from s2 s3 o → o' = step_join step_default o →
  step_ok from s1 s3 o'.
Proof. intros S1 S2 ->. by eapply bc_step_ok_trans; [..|left]. Qed.

(** [Ready] messages: a first level that sends nothing, and the full handler. *)
Lemma handle_ready_inner fuel from h s :
  state_ok s → is_validator (netinfo s) = true → ready_sent s = true → justified s h →
  (∀ b, readys s !! me s = Some b → b = vec_to_list h) →
  wp (handle_ready_fuel (S fuel) (me s) h) s
    (λ s' out, step_ok from s s' out ∧ readys s' !! me s = Some (vec_to_list h)) (λ _ _, False).
Proof.
  intros Hs Hv Hr Hj Hown. cbn [handle_ready_fuel]. do 2 wp_step.
  destruct (readys s !! me s) as [b|] eqn:Hb.
  { rewrite (Hown b) by done. rewrite decide_True by done. apply wp_ret.
    split; [by apply bc_step_ok_refl|]. by rewrite Hb, (Hown b). }
  do 4 wp_step. set (s1 := s <| readys ::= _ |>).
  assert (Hok1 : step_ok from s s1 step_default) by (apply insert_ready_ok; auto).
  assert (Hr1 : ready_sent s1 = true) by done. rewrite Hr1, andb_false_r. do 3 wp_step.
  eapply wp_mono; [apply (compute_output_spec from); by eapply state_ok_step| |done].
  intros s' out [Hout _]. apply wp_ret. split.
  - by eapply bc_step_ok_after; [exact Hok1|exact Hout|by rewrite ?step_join_default_l].
  - eapply lookup_weaken; [|apply Hout]. cbn. by rewrite lookup_insert_eq.
Qed.

Lemma send_ready_spec fuel from h s :
  state_ok s → ready_sent s = false → justified s h →
  wp (send_ready_with (handle_ready_fuel (S fuel)) h) s
    (λ s' out, step_ok from s s' out) (λ _ _, False).
Proof.
  intros Hs Hr Hj. unfold send_ready_with. do 4 wp_step. set (s1 := s <| ready_sent := true |>).
  assert (Hok1 : step_ok from s s1 step_default) by apply set_ready_sent_ok.
  destruct (negb (is_validator (netinfo s1))) eqn:Hv; [exact Hok1|].
  apply negb_false_iff in Hv. wp_step.
  eapply wp_mono; [apply (handle_ready_inner fuel from)| |done].
  - by eapply state_ok_step.
  - done.
  - done.
  - by eapply justified_mono; [..|exact Hj].
  - intros b Hb. exfalso. pose proof (st_own_ready _ Hs) as Ho. rewrite Hr in Ho.
    by specialize (Ho ltac:(by exists b)).
  - intros s' out [Hout Hown]. apply wp_ret.
    eapply bc_step_ok_after; [exact Hok1| |by rewrite ?step_join_default_l].
    destruct Hout as [? ? ? ? ? ? ? ? ? ? ? ? ? ? ? Hm ?]. split; auto; cbn.
    intros tm [->|Hin]%elem_of_cons; [done|by apply Hm].
Qed.

Lemma own_ready_none s : state_ok s → ready_sent s = false → readys s !! me s = None.
Proof.
  intros Hs Hr. apply eq_None_not_Some. intros Hsome%(st_own_ready _ Hs). congruence.
Qed.

Lemma own_echo_none s : state_ok s → echo_sent s = false → echos s !! me s = None.
Proof.
  intros Hs Hr. apply eq_None_not_Some. intros Hsome%(st_own_echo _ Hs). congruence.
Qed.

Lemma handle_ready_fuel_spec fuel sender h s :
  0 < fuel → state_ok s → sender ≠ me s →
  wp (handle_ready_fuel (S fuel) sender h) s
    (λ s' out, step_ok (Some (sender, Ready h)) s s' out) (λ _ _, False).
Proof.
  intros Hfuel Hs Hne. cbn [handle_ready_fuel].
  do 2 wp_step. destruct (readys s !! sender) as [b|] eqn:Hb.
  { case_decide; apply bc_step_ok_refl; done. }
  do 4 wp_step. set (s1 := s <| readys ::= _ |>).
  assert (Hok1 : step_ok (Some (sender, Ready h)) s s1 step_default)
    by (apply insert_ready_ok; auto).
  assert (Hs1 : state_ok s1) by by eapply state_ok_step.
  wp_step. apply (wp_mono_ok _ _ (λ s2 o, step_ok (Some (sender, Ready h)) s1 s2 o)).
  - destruct (_ && _) eqn:Hc; [|by apply bc_step_ok_refl].
    apply andb_true_iff in Hc as [Hc%bool_decide_eq_true Hr%negb_true_iff].
    destruct fuel as [|fuel]; [lia|].
    apply (send_ready_spec fuel); [done..|]. right. rewrite count_readys_senders in Hc.
    assert (Hnin : me s1 ∉ ready_senders s1 h).
    { unfold ready_senders. rewrite elem_of_keys_with. rewrite own_ready_none by done.
      naive_solver. }
    replace (ready_senders s1 h ∖ {[me s1]}) with (ready_senders s1 h) by set_solver. lia.
  - intros s2 o2 H2. wp_step.
    eapply wp_mono; [apply compute_output_spec; by eapply state_ok_step| |done].
    intros s3 o3 [H3 Hecho]. apply wp_ret.
    eapply bc_step_ok_after; [exact Hok1| |by rewrite ?step_join_default_l].
    by eapply bc_step_ok_trans; [..|right].
Qed.

Lemma insert_echo_ok from s j p :
  echos s !! j = None → validate_proof s p j = true →
  (from = Some (j, Echo p) ∧ j ≠ me s) ∨
    (j = me s ∧ echo_sent s = true ∧ from = Some (proposer_id s, Value p)) →
  step_ok from s (s <| echos ::= <[j := p]> |>) step_default.
Proof.
  intros Hj Hv Hcase. assert (Hsub : echos s ⊆ <[j := p]> (echos s)) by by apply insert_subseteq.
  split; cbn; auto.
  - destruct (readys s !! me s); eauto.
  - destruct Hcase as [[_ Hne]|(-> & Hr & _)]; [|by auto].
    rewrite lookup_insert_ne by done. destruct (echos s !! me s); eauto.
  - intros j' p'. rewrite lookup_insert. case_decide as Heq; [subst j'|by auto].
    intros [= <-]. right. destruct Hcase as [[-> _]|(-> & _)]; auto.
  - intros p'. rewrite lookup_insert. case_decide as Heq; [|by auto].
    intros [= <-]. destruct Hcase as [[_ []]|(_ & _ & ->)]; auto.
  - by intros tm ?%elem_of_nil.
Qed.

Lemma handle_echo_spec from sender p s :
  state_ok s →
  (from = Some (sender, Echo p) ∧ sender ≠ me s) ∨
    (sender = me s ∧ echo_sent s = true ∧ from = Some (proposer_id s, Value p)) →
  wp (handle_echo sender p) s
    (λ s' out, step_ok from s s' out ∧
      (echos s !! sender = None → validate_proof s p sender = true →
       echos s' !! sender = Some p)) (λ _ _, False).
Proof.
  intros Hs Hcase. unfold handle_echo. do 2 wp_step.
  destruct (echos s !! sender) as [p'|] eqn:Hp.
  { case_decide; (split; [by apply bc_step_ok_refl|done]). }
  destruct (negb _) eqn:Hv.
  { split; [by apply bc_step_ok_refl|]. apply negb_true_iff in Hv. congruence. }
  apply negb_false_iff in Hv. do 4 wp_step. set (s1 := s <| echos ::= _ |>).
  assert (Hok1 : step_ok from s s1 step_default) by by apply insert_echo_ok.
  assert (Hs1 : state_ok s1) by by eapply state_ok_step.
  apply (wp_mono_ok _ _ (λ s2 o, step_ok from s1 s2 o)).
  - destruct (_ || _) eqn:Hc; [by eapply wp_mono; [by apply (compute_output_spec from)|by intros ?? []|]|].
    apply orb_false_iff in Hc as [Hr Hc%bool_decide_eq_false].
    apply (send_ready_spec 0); [done..|]. left. rewrite count_echos_senders in Hc. lia.
  - intros s2 o2 H2'. split.
    + eapply bc_step_ok_after; [exact Hok1|exact H2'|by rewrite ?step_join_default_l].
    + intros _ _. eapply lookup_weaken; [|apply H2']. cbn. by rewrite lookup_insert_eq.
Qed.

Lemma send_echo_spec from p s :
  state_ok s → echo_sent s = false → validate_proof s p (me s) = true →
  from = Some (proposer_id s, Value p) →
  wp (send_echo p) s (λ s' out, step_ok from s s' out) (λ _ _, False).
Proof.
  intros Hs He Hv Hfrom. unfold send_echo. do 4 wp_step. set (s1 := s <| echo_sent := true |>).
  assert (Hok1 : step_ok from s s1 step_default) by apply set_echo_sent_ok.
  destruct (negb _); [exact Hok1|]. wp_step.
  eapply wp_mono; [apply (handle_echo_spec from); [by eapply state_ok_step|by right]| |done].
  intros s' out [Hout Hown]. apply wp_ret.
  eapply bc_step_ok_after; [exact Hok1| |by rewrite ?step_join_default_l].
  destruct Hout as [? ? ? ? ? ? ? ? ? ? ? ? ? ? ? Hm ?]. split; auto; cbn.
  intros tm [->|Hin]%elem_of_cons; [|by apply Hm].
  apply Hown; [exact (own_echo_none s Hs He)|exact Hv].
Qed.

Lemma handle_value_spec sender p s :
  state_ok s →
  wp (handle_value sender p) s
    (λ s' out, step_ok (Some (sender, Value p)) s s' out) (λ _ _, False).
Proof.
  intros Hs. unfold handle_value. do 2 wp_step. case_decide as Hsend; [by apply bc_step_ok_refl|].
  destruct (echo_sent s) eqn:He; [case_decide; by apply bc_step_ok_refl|].
  destruct (negb _) eqn:Hv; [by apply bc_step_ok_refl|].
  apply send_echo_spec; [done..| |by rewrite Hsend]. by apply negb_false_iff.
Qed.

Lemma bc_handle_message_spec sender msg s :
  state_ok s → sender ≠ me s →
  wp (handle_message sender msg) s
    (λ s' out, is_node_validator (netinfo s) sender = true ∧
       step_ok (Some (sender, msg)) s s' out)
    (λ s' e, s' = s ∧ e = UnknownSender ∧ is_node_validator (netinfo s) sender = false).
Proof.
  intros Hs Hne. unfold handle_message. do 2 wp_step.
  destruct (is_node_validator _ _) eqn:Hval; simpl negb; cbn iota; [|by apply wp_throw].
  apply (wp_mono _ _ (λ s' out, step_ok (Some (sender, msg)) s s' out) _ (λ _ _, False));
    [|by auto|done].
  destruct msg as [p|p|h].
  - by apply handle_value_spec.
  - eapply wp_mono; [apply (handle_echo_spec (Some (sender, Echo p))); auto| |done].
    by intros ? ? [? _].
  - apply handle_ready_fuel_spec; [lia|done..].
Qed.

(** ** Coding the payload *)
Lemma length_resize {A} n (x : A) l : length (resize n x l) = n.
Proof. unfold resize. rewrite length_app, length_take, length_replicate. lia. Qed.

Lemma resize_extend {A} n (x : A) l : length l ≤ n → resize n x l = l ++ replicate (n - length l) x.
Proof. intros Hl. unfold resize. by rewrite take_ge. Qed.

Lemma coding_new_counts d np c :
  coding_new d np = Some c → data_shard_count c = d ∧ parity_shard_count c = np.
Proof.
  unfold coding_new. case_decide.
  - intros (rs & Hrs & ->)%fmap_Some. by apply (rs_new_counts _ _ _ Hrs).
  - intros [= <-]. simpl. lia.
Qed.

Lemma encode_spec d np c len shards :
  coding_new d np = Some c → length shards = d + np → 0 < len →
  Forall (λ sl, length sl = len) shards →
  ∃ cw, encode c shards = Some cw ∧ length cw = d + np ∧ take d cw = take d shards.
Proof.
  unfold coding_new. case_decide.
  - intros (rs & Hrs & ->)%fmap_Some. by eapply rs_encode_ok.
  - intros [= <-] ? _ _. simpl. by exists shards.
Qed.

(** The length-prefixed payload that the data shards carry. *)
Definition framed (v : bytes) : bytes := write_u32 (wrap32 (Z.of_nat (length v))) ++ v.

Lemma make_shards_spec `{!ByteOrderLaws} d np c v :
  coding_new d np = Some c → 0 < d →
  ∃ shards pad, make_shards c v = Some shards ∧ length shards = d + np ∧
    concat (take d shards) = framed v ++ pad.
Proof.
  intros Hc Hd. destruct (coding_new_counts _ _ _ Hc) as [Hdc Hpc].
  unfold make_shards. rewrite Hdc, Hpc. fold (framed v).
  set (L := length (framed v)). set (k := (L + d - 1) `div` d).
  assert (HL : 4 ≤ L) by (unfold L, framed; rewrite length_app, write_u32_length; lia).
  assert (Hk : 0 < k) by (apply Nat.div_str_pos; lia).
  assert (HkL : L ≤ k * d).
  { unfold k. pose proof (Nat.mul_succ_div_gt (L + d - 1) d ltac:(lia)). lia. }
  set (l := resize _ _ _). assert (Hl : length l = (d + np) * k)
    by (unfold l; rewrite length_resize; lia).
  destruct (chunks_exact k Hk l (d + np) Hl) as [Hcl Hcf].
  destruct (encode_spec d np c k (chunks k l) Hc Hcl Hk Hcf) as (cw & -> & Hcw & Htake).
  exists cw, (drop L (take (d * k) l)). split_and!; [done|done|].
  rewrite Htake, concat_take_chunks by done.
  assert (Hfr : take L (take (d * k) l) = framed v).
  { rewrite take_take, Nat.min_l by lia. unfold l.
    rewrite resize_extend by (fold L; nia). apply take_app_length. }
  by rewrite <- Hfr at 1; rewrite take_drop.
Qed.

Lemma framed_split `{!ByteOrderLaws} v pad :
  (Z.of_nat (length v) < 2 ^ 32)%Z → ∃ b0 b1 b2 b3,
    framed v ++ pad = b0 :: b1 :: b2 :: b3 :: v ++ pad ∧
    Z.to_nat (read_u32 [b0; b1; b2; b3]) = length v.
Proof.
  intros Hlen. assert (Hin : in_u32 (Z.of_nat (length v))) by (unfold in_u32; lia).
  unfold framed. rewrite wrap32_small by done.
  pose proof (write_u32_length (Z.of_nat (length v))) as Hw.
  pose proof (read_write_u32 _ Hin) as Hr.
  destruct (write_u32 _) as [|b0 [|b1 [|b2 [|b3 []]]]]; try done.
  exists b0, b1, b2, b3. split; [done|]. rewrite Hr. lia.
Qed.

(** What the data shards carry is read back. *)
Lemma glue_make_shards `{!ByteOrderLaws} d np c v shards :
  coding_new d np = Some c → 0 < d → (Z.of_nat (length v) < 2 ^ 32)%Z →
  make_shards c v = Some shards → glue_shards d shards = Some v.
Proof.
  intros Hc Hd Hlen Hm. destruct (make_shards_spec d np c v Hc Hd) as (sh & pad & Hm' & _ & Hcat).
  assert (sh = shards) as -> by congruence. unfold glue_shards. rewrite Hcat.
  destruct (framed_split v pad Hlen) as (b0 & b1 & b2 & b3 & -> & Hr).
  by rewrite Hr, take_app_length.
Qed.

Lemma length_omap_all {A} (l : list (option A)) :
  length l ≤ length (omap id l) → Forall is_Some l.
Proof.
  assert (Hle : ∀ l' : list (option A), length (omap id l') ≤ length l').
  { induction l' as [|[y|] l' IH]; csimpl; lia. }
  induction l as [|[y|] l IH]; csimpl; intros Hl; [done| |].
  - constructor; [eauto|]. apply IH. lia.
  - pose proof (Hle l). lia.
Qed.

(** Any [d] shards of a codeword restore it. *)
Lemma reconstruct_codeword d np c slices cw part :
  coding_new d np = Some c → encode c slices = Some cw → length cw = d + np →
  length part = d + np → (∀ i x, part !! i = Some (Some x) → cw !! i = Some x) →
  d ≤ length (omap id part) → reconstruct_shards c part = Some (Some <$> cw).
Proof.
  unfold coding_new. case_decide.
  - intros (rs & Hrs & ->)%fmap_Some. simpl. by apply (rs_reconstruct_codeword _ np).
  - intros [= <-] [= ->] Hcw Hpart Hin Hd. simpl.
    assert (Hall : Forall is_Some part) by (apply length_omap_all; lia).
    rewrite decide_True by done. f_equal. apply list_eq. intros i. rewrite list_lookup_fmap.
    destruct (part !! i) as [o|] eqn:Hi.
    + rewrite Forall_lookup in Hall. destruct (Hall i o Hi) as [z ->]. by rewrite (Hin i z Hi).
    + apply lookup_ge_None in Hi. rewrite (proj2 (lookup_ge_None cw i)); [done|lia].
Qed.

Lemma decode_make_shards `{!ByteOrderLaws} d np s v shards t part :
  coding_new d np = Some (coding s) → 0 < d → (Z.of_nat (length v) < 2 ^ 32)%Z →
  make_shards (coding s) v = Some shards → from_vec shards = Some t →
  length part = d + np → (∀ i x, part !! i = Some (Some x) → shards !! i = Some x) →
  d ≤ length (omap id part) →
  decode_from_shards part (mt_root_hash t) s = Ok s (Some v).
Proof.
  intros Hc Hd Hlen Hm Ht Hpart Hin Hn.
  destruct (make_shards_spec d np _ v Hc Hd) as (sh & pad & Hm' & Hshl & _).
  assert (sh = shards) as -> by congruence. pose proof Hm as Henc. unfold make_shards in Henc.
  pose proof (reconstruct_codeword _ _ _ _ _ part Hc Henc Hshl Hpart Hin Hn) as Hrec.
  unfold decode_from_shards, gets, expect, mbind, M_bind. rewrite Hrec.
  assert (Ho : omap id (Some <$> shards) = shards).
  { clear. induction shards; csimpl; congruence. }
  rewrite Ho, Ht. simpl. rewrite decide_False by auto.
  destruct (from_vec_Some _ _ Ht) as (_ & -> & _).
  destruct (coding_new_counts _ _ _ Hc) as [-> _].
  by rewrite (glue_make_shards d np (coding s) v shards).
Qed.

(** ** Proposing *)

(** The messages of the proposer: the proof of each shard, to its node. *)
Definition value_message s (t : MerkleTree) (tm : TargetedMessage Message N) : Prop :=
  ∃ id i p, tm = TM (Node id) (Value p) ∧ all_ids (netinfo s) !! i = Some id ∧ id ≠ me s ∧
    proof t i = Some p.

(** The invariant of the sending loop. *)
Definition send_inv s t (l : list (nat * N)) (res : Error + MerkleProof) (st : BStep) : Prop :=
  (∀ i j, (i, j) ∈ l → all_ids (netinfo s) !! i = Some j) ∧
  ((∃ i p, res = inr p ∧ all_ids (netinfo s) !! i = Some (me s) ∧ proof t i = Some p) ∨
   (res = inl ProofConstructionFailed ∧
    ∀ i, all_ids (netinfo s) !! i = Some (me s) → (i, me s) ∈ l)) ∧
  output st = [] ∧ fault_log st = [] ∧ Forall (value_message s t) (messages st).

Lemma send_inv_init s t :
  send_inv s t (imap pair (all_ids (netinfo s))) (inl ProofConstructionFailed) step_default.
Proof.
  assert (Hin : ∀ i j, (i, j) ∈ imap pair (all_ids (netinfo s)) ↔ all_ids (netinfo s) !! i = Some j).
  { intros i j. rewrite elem_of_lookup_imap. naive_solver. }
  split_and!; [by intros; apply Hin| |done..]. right. split; [done|]. intros. by apply Hin.
Qed.

Lemma send_inv_proof s t i j l res st :
  send_inv s t ((i, j) :: l) res st → length (mt_values t) = num_nodes (netinfo s) →
  state_ok s → is_Some (proof t i).
Proof.
  intros (Hids & _) Hlen Hs. specialize (Hids i j ltac:(left)).
  apply lookup_lt_Some in Hids. rewrite wf_length_all_ids in Hids by apply Hs.
  unfold proof. rewrite <- Hlen in Hids. apply lookup_lt_is_Some in Hids as [x ->]. by eexists.
Qed.

Lemma send_inv_own s t i l res st p :
  send_inv s t ((i, me s) :: l) res st → proof t i = Some p → send_inv s t l (inr p) st.
Proof.
  intros (Hids & _ & Ho & Hf & Hm) Hp. split_and!; try done.
  - intros i' j' ?. apply Hids. by right.
  - left. exists i, p. split_and!; try done. apply Hids. by left.
Qed.

Lemma send_inv_other s t i j l res st p :
  send_inv s t ((i, j) :: l) res st → proof t i = Some p → j ≠ me s →
  send_inv s t l res (st <| messages ::= (.++ [target_message (Node j) (Value p)]) |>).
Proof.
  intros (Hids & Hres & Ho & Hf & Hm) Hp Hj. split_and!; try done.
  - intros i' j' ?. apply Hids. by right.
  - destruct Hres as [?|[-> Hn]]; [by left|right]. split; [done|].
    intros i' [[= -> ?]|]%Hn%elem_of_cons; [congruence|done].
  - apply Forall_app. split; [done|]. apply Forall_singleton. exists j, i, p.
    split_and!; try done. apply Hids. by left.
Qed.

Lemma state_ok_data_shards s :
  state_ok s → 0 < num_nodes (netinfo s) - 2 * num_faulty (netinfo s) ∧
  num_nodes (netinfo s) - 2 * num_faulty (netinfo s) + 2 * num_faulty (netinfo s) =
    num_nodes (netinfo s).
Proof. intros Hs. pose proof (wf_3f_lt_n _ (st_wf _ Hs)). lia. Qed.

Lemma send_shards_spec `{!ByteOrderLaws} v s :
  state_ok s →
  wp (send_shards v) s
    (λ s' '(p, out), s' = s ∧ ∃ shards t i, make_shards (coding s) v = Some shards ∧
      from_vec shards = Some t ∧ length shards = num_nodes (netinfo s) ∧
      node_index (netinfo s) (me s) = Some i ∧ proof t i = Some p ∧
      output out = [] ∧ fault_log out = [] ∧ Forall (value_message s t) (messages out))
    (λ s' e, s' = s ∧ e = ProofConstructionFailed ∧ is_validator (netinfo s) = false).
Proof.
  intros Hs. pose proof (state_ok_data_shards s Hs) as [Hd Hn].
  destruct (make_shards_spec _ _ _ v (st_coding _ Hs) Hd) as (shards & pad & Hm & Hl & _).
  rewrite Hn in Hl. destruct (from_vec_spec shards) as (t & Ht & Hv & _).
  { intros ->. simpl in Hl. lia. }
  pose proof (wf_length_all_ids _ (st_wf _ Hs)) as Hids.
  unfold send_shards. do 3 wp_step. apply wp_expect. exists shards. split; [done|].
  wp_step. apply wp_expect. exists t. split; [done|].
  wp_step. apply wp_assert; [apply bool_decide_eq_true; congruence|]. wp_step.
  apply (wp_mono _ _ (λ s' '(res, st), s' = s ∧ send_inv s t [] res st) _ (λ _ _, False)); [|..|done].
  - apply (wp_for_acc _ (λ l s' '(res, st), s' = s ∧ send_inv s t l res st)).
    + split; [done|]. by apply send_inv_init.
    + intros [i j] l s' [res st] [-> Hinv].
      destruct (send_inv_proof _ _ _ _ _ _ _ Hinv) as [p Hp]; [congruence|done|]. wp_step.
      apply wp_ok_or; [|congruence]. intros p' Hp'. assert (p' = p) as -> by congruence.
      case_decide as Hj; apply wp_ret; (split; [done|]).
      * subst j. by eapply send_inv_own.
      * by eapply send_inv_other.
  - intros s' [res st] [-> (Hids' & Hres & Hout & Hfl & Hmsgs)]. wp_step.
    destruct Hres as [(i & p & -> & Hi & Hp)|[-> Hnone]].
    + cbn [of_sum]. do 2 wp_step. split; [done|]. exists shards, t, i. split_and!; try done.
      by apply (wf_index _ (st_wf _ Hs)).
    + apply wp_throw. split_and!; [done..|]. rewrite (wf_is_validator _ (st_wf _ Hs)).
      apply not_true_iff_false. intros [i Hi]%(wf_node_index_validator _ (st_wf _ Hs)).
      apply (wf_index _ (st_wf _ Hs)) in Hi. by destruct (not_elem_of_nil _ (Hnone i Hi)).
Qed.

Lemma set_value_sent_ok from s : step_ok from s (s <| value_sent := true |>) step_default.
Proof.
  split; cbn; auto.
  - destruct (readys s !! me s); eauto.
  - destruct (echos s !! me s); eauto.
  - by intros tm ?%elem_of_nil.
Qed.

(** [broadcast]: what the proposer sends, and the three ways to fail. *)
Lemma broadcast_spec `{!ByteOrderLaws} v s :
  state_ok s →
  wp (broadcast v) s
    (λ s' out, me s = proposer_id s ∧ value_sent s = false ∧ value_sent s' = true ∧
      ∃ shards t i p, make_shards (coding s) v = Some shards ∧ from_vec shards = Some t ∧
        length shards = num_nodes (netinfo s) ∧ node_index (netinfo s) (me s) = Some i ∧
        proof t i = Some p ∧
        ∃ vals rest, out = step_join vals rest ∧ output vals = [] ∧ fault_log vals = [] ∧
          Forall (value_message s t) (messages vals) ∧
          step_ok (Some (me s, Value p)) s s' rest)
    (λ s' e,
      (e = InstanceCannotPropose ∧ s' = s ∧ me s ≠ proposer_id s) ∨
      (e = MultipleInputs ∧ s' = s ∧ me s = proposer_id s ∧ value_sent s = true) ∨
      (e = ProofConstructionFailed ∧ s' = s <| value_sent := true |> ∧
       me s = proposer_id s ∧ value_sent s = false ∧ is_validator (netinfo s) = false)).
Proof.
  intros Hs. unfold broadcast. do 2 wp_step. case_decide as Hme; [by apply wp_throw; left|].
  destruct (value_sent s) eqn:Hvs; [by apply wp_throw; right; left|].
  do 3 wp_step. set (s1 := s <| value_sent := true |>).
  assert (Hok1 : ∀ from, step_ok from s s1 step_default) by (intros; apply set_value_sent_ok).
  assert (Hs1 : state_ok s1) by (by apply (state_ok_step None s s1 step_default)).
  eapply wp_mono; [by apply send_shards_spec| |].
  - intros s' [p out] (-> & shards & t & i & Hm & Ht & Hl & Hi & Hp & Ho & Hf & Hvals).
    wp_step. eapply wp_mono; [by apply handle_value_spec| |done].
    intros s2 o2 Hok2. apply wp_ret. split_and!; [done..|by apply (so_value_sent _ _ _ _ Hok2)|].
    exists shards, t, i, p. split_and!; try done. exists out, o2. split_and!; try done.
    eapply bc_step_ok_after; [apply Hok1|exact Hok2|by rewrite ?step_join_default_l].
  - intros s' e (-> & -> & Hv). right; right. done.
Qed.
End facts.

End broadcast.
