(* ===== verification/Instances.v ===== *)
(** * Concrete instances of the parameters

    The crates that the repository only calls are parameters of the model.  This file
    instantiates them, so that executions can be computed and theorems applied to them:
    keys that are numbers, signatures that carry what they sign, a polynomial hash, an
    erasure code whose parity shards repeat the data, and big-endian numbers.  They
    satisfy the laws that the components assume. *)
From S2P Require Import Prelude.
From S2P Require Import BTree.
From S2P Require Import NetworkInfo.
From S2P Require Import Merkle.
From S2P Require Import Broadcast.

(** ** Bytes and numbers *)
Definition byte_to_Z (b : byte) : Z := Z.of_N (Byte.to_N b).
Definition byte_of_Z (z : Z) : byte := default "000"%byte (Byte.of_N (Z.to_N (z mod 256))).

Fixpoint Z_digits (k : nat) (z : Z) : vec byte k :=
  match k with
  | 0 => [#]
  | S k => byte_of_Z z ::: Z_digits k (z / 256)
  end.

Lemma byte_to_Z_of_Z z : byte_to_Z (byte_of_Z z) = (z mod 256)%Z.
Proof.
  unfold byte_to_Z, byte_of_Z. pose proof (Z.mod_pos_bound z 256 ltac:(lia)) as Hz.
  destruct (Byte.of_N (Z.to_N (z mod 256))) as [b|] eqn:Hb; simpl.
  - apply Byte.to_of_N in Hb. rewrite Hb. lia.
  - apply Byte.of_N_None_iff in Hb. lia.
Qed.

(** ** Hash: a polynomial in the bytes, modulo 2^256 *)
#[export] Instance poly_sha3 : Sha3 := {|
  sha3_256 l := Z_digits 32
    (foldl (λ acc b, (acc * 1000003 + byte_to_Z b + 1) mod 2 ^ 256)%Z 7%Z l)
|}.

(** ** Big-endian numbers *)
#[export] Instance big_endian : ByteOrder := {|
  write_u32 z := [byte_of_Z (z / 2 ^ 24); byte_of_Z (z / 2 ^ 16); byte_of_Z (z / 2 ^ 8); byte_of_Z z];
  read_u32 l := foldl (λ acc b, acc * 256 + byte_to_Z b)%Z 0%Z l
|}.

#[export] Instance big_endian_laws : ByteOrderLaws.
Proof.
  split; [done|]. intros z Hz. unfold in_u32 in Hz.
  cbn [read_u32 write_u32 big_endian foldl]. rewrite !byte_to_Z_of_Z.
  change (2 ^ 24)%Z with (256 * 256 * 256)%Z. change (2 ^ 16)%Z with (256 * 256)%Z.
  change (2 ^ 8)%Z with 256%Z. rewrite <- !Z.div_div by lia.
  pose proof (Z.div_mod z 256 ltac:(lia)) as H0.
  pose proof (Z.div_mod (z / 256) 256 ltac:(lia)) as H1.
  pose proof (Z.div_mod (z / 256 / 256) 256 ltac:(lia)) as H2.
  rewrite (Z.mod_small (z / 256 / 256 / 256) 256); [lia|].
  rewrite !Z.div_div by lia. split; [apply Z.div_pos; lia|apply Z.div_lt_upper_bound; lia].
Qed.

(** ** Erasure code: every parity shard holds all of the data *)
Definition same_length (l : list bytes) : bool :=
  match l with
  | [] => true
  | x :: _ => bool_decide (0 < length x) && forallb (λ y, bool_decide (length y = length x)) l
  end.
Definition fill (part : list (option bytes)) (full : list bytes) : list (option bytes) :=
  zip_with (λ o x, Some (default x o)) part full.
Definition complete (d p : nat) (data : list bytes) : list bytes :=
  data ++ replicate p (concat data).

#[export] Instance repeat_code : ReedSolomonLib := {|
  RS := nat * nat;
  rs_new d p := if decide (0 < d) then Some (d, p) else None;
  rs_data_shard_count := fst;
  rs_parity_shard_count := snd;
  rs_encode '(d, p) shards :=
    if decide (length shards = d + p) then
      if same_length shards then Some (complete d p (take d shards)) else None
    else None;
  rs_reconstruct_shards '(d, p) part :=
    let data :=
      match omap id (drop d part) with
      | z :: _ => chunks (length z `div` d) z
      | [] => omap id (take d part)
      end in
    if decide (length data = d ∧ length part = d + p) then Some (fill part (complete d p data))
    else None
|}.

Lemma fill_spec part full :
  length full = length part →
  length (fill part full) = length part ∧ Forall is_Some (fill part full) ∧
  ∀ i x, part !! i = Some (Some x) → fill part full !! i = Some (Some x).
Proof.
  unfold fill. intros Hl. split_and!.
  - rewrite length_zip_with. lia.
  - apply Forall_lookup. intros i o (x & y & -> & _)%lookup_zip_with_Some. eauto.
  - intros i x Hi. apply lookup_zip_with_Some.
    destruct (full !! i) as [y|] eqn:Hy; [by exists (Some x), y|].
    apply lookup_ge_None in Hy. apply lookup_lt_Some in Hi. lia.
Qed.

Lemma fill_codeword part cw :
  length part = length cw → (∀ i x, part !! i = Some (Some x) → cw !! i = Some x) →
  fill part cw = Some <$> cw.
Proof.
  revert cw. induction part as [|o part IH]; intros [|x cw] Hl Hin; simplify_eq/=; [done|].
  f_equal.
  - destruct o as [y|]; [|done]. specialize (Hin 0 y eq_refl). simplify_eq/=. done.
  - apply IH; [done|]. intros i y Hi. by apply (Hin (S i)).
Qed.

Lemma length_complete d p data : length data = d → length (complete d p data) = d + p.
Proof. intros. unfold complete. rewrite length_app, length_replicate. lia. Qed.

Lemma chunks_concat k (l : list bytes) :
  0 < k → Forall (λ x, length x = k) l → chunks k (concat l) = l.
Proof.
  intros Hk. induction 1 as [|x l Hx Hl IH]; [done|]. simpl.
  rewrite chunks_cons by (done || (destruct x; simpl in *; [lia|done])).
  by rewrite <- Hx, take_app_length, drop_app_length, Hx, IH.
Qed.

Lemma same_length_spec l : same_length l = true → l ≠ [] →
  ∃ k, 0 < k ∧ Forall (λ x, length x = k) l.
Proof.
  destruct l as [|x l]; [done|]. unfold same_length.
  rewrite andb_true_iff, bool_decide_eq_true, forallb_forall. intros [Hx Hl] _.
  exists (length x). split; [done|]. apply Forall_forall. intros y Hy.
  apply list_elem_of_In, Hl in Hy. by apply bool_decide_eq_true in Hy.
Qed.

Lemma length_concat_same k (l : list bytes) :
  Forall (λ x, length x = k) l → length (concat l) = k * length l.
Proof. induction 1; simpl; rewrite ?length_app; lia. Qed.

Lemma omap_id_some (part : list (option bytes)) (l : list bytes) :
  length part = length l → (∀ i x, part !! i = Some (Some x) → l !! i = Some x) →
  length l ≤ length (omap id part) → omap id part = l.
Proof.
  assert (Hle : ∀ l' : list (option bytes), length (omap id l') ≤ length l').
  { induction l' as [|[y|] l' IH]; csimpl; lia. }
  revert l. induction part as [|[y|] part IH]; intros [|x l] Hl Hin Hn; csimpl in *; simplify_eq; try done.
  - specialize (Hin 0 y eq_refl) as Hx. simplify_eq/=. f_equal.
    apply IH; [done| |lia]. intros i z Hi. by apply (Hin (S i)).
  - pose proof (Hle part). lia.
Qed.

Lemma take_complete d p data : length data = d → take d (complete d p data) = data.
Proof. intros <-. apply take_app_length. Qed.
Lemma drop_complete d p data : length data = d → drop d (complete d p data) = replicate p (concat data).
Proof. intros <-. apply drop_app_length. Qed.

Lemma omap_lookup {A} (l : list (option A)) x : x ∈ omap id l → ∃ i, l !! i = Some (Some x).
Proof.
  intros ([y|] & Hy & [= ->])%list_elem_of_omap. by apply list_elem_of_lookup in Hy.
Qed.

Lemma rs_encode_inv d p shards cw :
  0 < d → rs_encode (d, p) shards = Some cw →
  ∃ data k, cw = complete d p data ∧ length data = d ∧ 0 < k ∧ Forall (λ x, length x = k) data.
Proof.
  intros Hd. simpl. case_decide as Hl; [|done]. destruct (same_length shards) eqn:Hs; [|done].
  intros [= <-]. destruct (same_length_spec _ Hs) as (k & Hk & Hall).
  { intros ->. simpl in Hl. lia. }
  exists (take d shards), k. split_and!; [done| |done|by apply Forall_take].
  rewrite length_take. lia.
Qed.

Lemma repeat_code_reconstruct d p shards cw part :
  0 < d → rs_encode (d, p) shards = Some cw → length cw = d + p → length part = d + p →
  (∀ i x, part !! i = Some (Some x) → cw !! i = Some x) → d ≤ length (omap id part) →
  rs_reconstruct_shards (d, p) part = Some (Some <$> cw).
Proof.
  intros Hd Henc Hcw Hpart Hin Hn.
  destruct (rs_encode_inv _ _ _ _ Hd Henc) as (data & k & -> & Hl & Hk & Hall).
  cbn [rs_reconstruct_shards repeat_code]. 
  match goal with |- context [decide (length ?x = d ∧ _)] => set (data' := x) end.
  assert (Hdata : data' = data).
  { unfold data'. destruct (omap id (drop d part)) as [|z l] eqn:Ho.
    - apply omap_id_some; [rewrite length_take; lia| |].
      + intros i x [Hi ?]%lookup_take_Some. specialize (Hin i x Hi).
        rewrite <- (take_complete d p data Hl). apply lookup_take_Some. done.
      + rewrite <- (take_drop d part), omap_app, Ho, app_nil_r in Hn. lia.
    - destruct (omap_lookup (drop d part) z) as [i Hi]; [rewrite Ho; by left|].
      rewrite lookup_drop in Hi. apply Hin in Hi. rewrite <- lookup_drop, drop_complete in Hi by done.
      apply lookup_replicate in Hi as [-> _].
      rewrite (length_concat_same k data Hall), Hl, Nat.div_mul by lia. by apply chunks_concat. }
  rewrite Hdata, decide_True by done. f_equal. apply fill_codeword; [|done]. lia.
Qed.

#[export] Instance repeat_code_laws : ReedSolomonLaws.
Proof.
  split.
  - intros d p rs. simpl. case_decide; [|done]. by intros [= <-].
  - intros d p rs len shards. simpl. case_decide; [|done]. intros [= <-] Hl Hlen Hall.
    rewrite decide_True by done. assert (same_length shards = true) as ->.
    { destruct shards as [|x shards]; [done|]. unfold same_length.
      rewrite Forall_cons in Hall. destruct Hall as [Hx Hall].
      rewrite andb_true_iff, bool_decide_eq_true, forallb_forall. split; [lia|].
      intros y [->|Hy]; apply bool_decide_eq_true; [done|]. rewrite Hx.
      rewrite Forall_forall in Hall. by apply Hall, list_elem_of_In. }
    assert (Ht : length (take d shards) = d) by (rewrite length_take; lia).
    exists (complete d p (take d shards)). by rewrite length_complete, take_complete.
  - intros [d p] shards full. simpl. case_decide as Hc; [|done]. intros [= <-].
    apply fill_spec. destruct Hc. by rewrite length_complete.
  - intros d p rs shards cw part. simpl. case_decide; [|done]. intros [= <-].
    by apply repeat_code_reconstruct.
Qed.

(** ** Keys

    A key set is a number with a threshold; the share of an index is the set with the
    index.  A signature carries the signer and the message, and verifying it compares
    both; shares combine if there are more of them than the threshold. *)
#[export] Instance number_crypto : Crypto := {|
  SecretKey := nat;
  PublicKey := nat;
  SecretKeyShare := nat * nat;
  PublicKeyShare := nat * nat;
  SecretKeySet := nat * nat;
  PublicKeySet := nat * nat;
  Signature := nat * bytes;
  SignatureShare := nat * nat * bytes;
  Ciphertext := nat * bytes;
  DecryptionShare := nat * nat * bytes;
  G2 := bytes;
  CryptoError := unit;
  Rng := nat;
  sk_set_random t rng := ((rng, t), S rng);
  sk_set_public_keys s := s;
  sk_set_secret_key_share s i := (s.1, i);
  pk_set_public_key_share s i := (s.1, i);
  pk_set_public_key s := s.1;
  sk_gen rng := (rng, S rng);
  sk_public_key sk := sk;
  sk_sign sk msg := (sk, msg);
  pk_verify pk sig msg := bool_decide (sig = (pk, msg));
  sk_decrypt sk ct := if decide (ct.1 = sk) then Some ct.2 else None;
  pk_encrypt_with_rng pk rng msg := ((pk, msg), S rng);
  hash_g2 msg := msg;
  sk_share_sign_g2 sk g := (sk, g);
  pk_share_verify_g2 pk share g := bool_decide (share = (pk, g));
  pk_verify_g2 pk sig g := bool_decide (sig = (pk, g));
  pk_set_combine_signatures s shares :=
    match shares with
    | (_, (_, g)) :: _ => if decide (s.2 < length shares) then inr (s.1, g) else inl ()
    | [] => inl ()
    end;
  sig_parity sig := Nat.odd (length sig.2);
  ct_verify ct := true;
  sk_share_decrypt_share_no_verify sk ct := (sk, ct.2);
  pk_share_verify_decryption_share pk share ct := bool_decide (share = (pk, ct.2));
  pk_set_decrypt s shares ct :=
    if decide (s.2 < length shares) then inr ct.2 else inl ()
|}.

#[export] Instance number_signature_laws : @SignatureLaws number_crypto.
Proof. constructor. intros sk msg. by apply bool_decide_eq_true. Qed.

(** Four validators with one key set. *)
Definition four_keys : gmap nat nat := list_to_map [(0, 10); (1, 11); (2, 12); (3, 13)].
Definition four_netinfo (i : nat) : NetworkInfo nat :=
  default (@mkNetworkInfo nat nat_ord_key number_crypto i 0 0 false None i (0, 0) ∅ ∅ ∅)
    (@netinfo_new nat nat_ord_key number_crypto i (Some (7, i)) (7, 1) (10 + i) four_keys).

Lemma four_netinfo_ok i :
  netinfo_wf (four_netinfo i) ∧ our_id (four_netinfo i) = i ∧ public_keys (four_netinfo i) = four_keys.
Proof.
  destruct (proj2 (@netinfo_new_total nat nat_ord_key number_crypto i (Some (7, i)) (7, 1) (10 + i) four_keys))
    as [ni Hni]; [done|]. unfold four_netinfo. rewrite Hni. simpl.
  by destruct (netinfo_new_wf _ _ _ _ _ _ Hni) as (? & ? & ? & _).
Qed.
