(* ===== verification/Payload.v ===== *)
(** * Trees and payloads of a broadcast

    What [src/broadcast/merkle.rs] and the coding of [src/broadcast/broadcast.rs] promise
    to the protocol: a tree proves each of its values and no other, and a payload is read
    back from any [N - 2 f] of its shards. *)
From S2P Require Import Prelude.
From S2P Require Import BTree.
From S2P Require Import Traits.
From S2P Require Import NetworkInfo.
From S2P Require Import Merkle.
From S2P Require Import Broadcast.
From S2P Require Import Instances.

Module payload.
Import broadcast.

Section trees.
Context `{sha : Sha3}.
Implicit Types (vs : list bytes) (t : MerkleTree) (p : MerkleProof).

(** Completeness of the Merkle trees: every nonempty vector has a tree, the tree has a proof
    for each index of the vector and no other, and the proof carries the value at the
    index and the root and passes [validate]. *)
Theorem tree_proofs vs :
  vs ≠ [] → ∃ t, from_vec vs = Some t ∧ ∀ i,
  match proof t i with
  | Some p => vs !! i = Some (pf_value p) ∧ pf_index p = i ∧ pf_root_hash p = mt_root_hash t ∧
      validate p (length vs) = true
  | None => length vs ≤ i
  end.
Proof.
  intros Hne. destruct (from_vec_spec vs Hne) as (t & Ht & Hv & _). exists t. split; [done|].
  intros i. destruct (proof t i) as [p|] eqn:Hp.
  - by destruct (proof_valid vs t i p Ht Hp) as (? & ? & ? & ?).
  - unfold proof in Hp. rewrite Hv in Hp. destruct (vs !! i) eqn:Hi; [done|].
    by apply lookup_ge_None in Hi.
Qed.

(** C35: Binding of the Merkle trees: a proof that passes [validate] against the root of a tree, for
    an index of the tree, carries the tree's value at that index, unless the strings
    hashed by the proof and by the tree exhibit a collision. *)
Theorem proof_binding vs t p :
  from_vec vs = Some t → validate p (length vs) = true → pf_index p < length vs →
  pf_root_hash p = mt_root_hash t →
  vs !! pf_index p = Some (pf_value p) ∨ collides (pf_inputs p (length vs)) (tree_inputs t).
Proof.
  intros Ht Hval Hi Hroot. destruct (from_vec_Some _ _ Ht) as (_ & Hv & _).
  destruct (proof t (pf_index p)) as [q|] eqn:Hq.
  - destruct (proof_valid vs t _ q Ht Hq) as (Hqv & Hqi & Hqr & Hqx).
    destruct (validate_binding p q (length vs)) as [->|Hc]; [done|done|congruence|congruence|by left|].
    right. eapply collides_mono; [exact Hc|done|]. rewrite <- Hv. by eapply pf_inputs_tree.
  - unfold proof in Hq. rewrite Hv in Hq. destruct (vs !! pf_index p) eqn:Hx; [done|].
    apply lookup_ge_None in Hx. lia.
Qed.
End trees.

Section coding.
Context {N : Type} `{ord : NodeIdT N} `{crypto : Crypto} `{sha : Sha3}
  `{rsl : !ReedSolomonLib, rslaws : !ReedSolomonLaws} `{bo : ByteOrder, bol : !ByteOrderLaws}.

(** C34: Round trip of a payload: the shards that the proposer makes of a value shorter than 2^32
    bytes have a tree, and whichever of them arrive, any [d] of them, the number of data
    shards, decode to the value under the root of that tree. *)
Theorem payload_round_trip (s : Broadcast N) d np v :
  coding_new d np = Some (coding s) → 0 < d → (Z.of_nat (length v) < 2 ^ 32)%Z →
  ∃ shards t, make_shards (coding s) v = Some shards ∧ length shards = d + np ∧
    from_vec shards = Some t ∧
    ∀ received, length received = length shards →
      (∀ i x, received !! i = Some (Some x) → shards !! i = Some x) →
      d ≤ length (omap id received) →
      decode_from_shards received (mt_root_hash t) s = Ok s (Some v).
Proof.
  intros Hc Hd Hlen.
  destruct (make_shards_spec d np _ v Hc Hd) as (shards & pad & Hm & Hshl & _).
  destruct (from_vec_spec shards) as (t & Ht & _); [by intros ->; simpl in *; lia|].
  exists shards, t. split_and!; [done..|]. intros part Hpl Hin Hn.
  rewrite Hshl in Hpl. by eapply decode_make_shards.
Qed.
End coding.

(** ** Instances *)
Definition demo_vs : list bytes := [["a"]; ["b"; "c"]; []]%byte.
Definition demo_state : option (Broadcast nat) :=
  match @new nat nat_ord_key number_crypto repeat_code (four_netinfo 0) 0 with
  | inr s => Some s
  | inl _ => None
  end.

Lemma tree_proofs_witness :
  ∃ t, from_vec demo_vs = Some t ∧ ∀ i,
  match proof t i with
  | Some p => demo_vs !! i = Some (pf_value p) ∧ pf_index p = i ∧
      pf_root_hash p = mt_root_hash t ∧ validate p 3 = true
  | None => 3 ≤ i
  end.
Proof. apply (tree_proofs demo_vs). done. Defined.

Lemma proof_binding_witness :
  ∃ t p, from_vec demo_vs = Some t ∧ proof t 1 = Some p ∧
    (demo_vs !! 1 = Some (pf_value p) ∨ collides (pf_inputs p 3) (tree_inputs t)).
Proof.
  destruct (from_vec_spec demo_vs) as (t & Ht & Hv & _); [done|].
  destruct (proof t 1) as [p|] eqn:Hp; [|unfold proof in Hp; by rewrite Hv in Hp].
  destruct (proof_valid demo_vs t 1 p Ht Hp) as (Hval & Hi & Hr & _).
  exists t, p. split; [done|]. split; [done|].
  destruct (proof_binding demo_vs t p Ht Hval) as [Hx|Hc]; [rewrite Hi; simpl; lia|done| |by right].
  left. by rewrite Hi in Hx.
Defined.
Lemma demo_coding s : demo_state = Some s → coding_new 2 2 = Some (coding s).
Proof.
  intros Hs. assert (Hc : coding <$> demo_state = coding_new 2 2) by (vm_compute; reflexivity).
  rewrite Hs in Hc. symmetry. exact Hc.
Qed.

Lemma payload_round_trip_witness :
  ∃ s x0 x1 x2 x3 t, demo_state = Some s ∧ from_vec [x0; x1; x2; x3] = Some t ∧
    make_shards (coding s) ["b"; "y"; "z"]%byte = Some [x0; x1; x2; x3] ∧
    decode_from_shards [None; Some x1; Some x2; None] (mt_root_hash t) s =
      Ok s (Some ["b"; "y"; "z"]%byte).
Proof.
  assert (Hsome : is_Some demo_state) by (eexists; vm_compute; reflexivity).
  destruct Hsome as [s Hs]. pose proof (demo_coding s Hs) as Hc.
  destruct (payload_round_trip s 2 2 ["b"; "y"; "z"]%byte Hc) as (shards & t & Hm & Hl & Ht & Hd);
    [lia|vm_compute; reflexivity|].
  destruct shards as [|x0 [|x1 [|x2 [|x3 []]]]]; try discriminate Hl.
  exists s, x0, x1, x2, x3, t. split; [exact Hs|]. split; [exact Ht|]. split; [exact Hm|].
  apply Hd; [reflexivity| |simpl; lia].
  intros [|[|[|[|i]]]] x; simpl; intros Hx; first [discriminate Hx | exact Hx | (injection Hx as <-; reflexivity)].
Defined.
End payload.
