(* ===== verification/SbvBroadcast.v ===== *)
(** * Synchronized binary value broadcast

    Models [src/binary_agreement/sbv_broadcast.rs]: the [BVal] and [Aux] messages of one
    epoch of binary agreement.  The guarantees across the network are in
    [SbvBroadcastNet]. *)
From S2P Require Import Prelude.
From S2P Require Import BTree.
From S2P Require Import Traits.
From S2P Require Import NetworkInfo.
From S2P Require Import BoolSet.

Module sbv_broadcast.

Inductive Message : Type :=
  | BVal (b : bool)
  | Aux (b : bool).
#[global] Instance Message_eq_dec : EqDecision Message.
Proof. solve_decision. Defined.

(** The fault kinds of [binary_agreement/mod.rs] that this component reports. *)
Inductive FaultKind : Type :=
  | DuplicateBVal
  | DuplicateAux.

(** The methods return [Result], but no path produces an error. *)
Inductive Error : Type := .

Record SbvBroadcast {N : Type} `{NodeIdT N, Crypto} : Type := mkSbv {
  netinfo : NetworkInfo N;
  bin_values : BoolSet;
  received_bval : BoolMultimap N;
  sent_bval : BoolSet;
  received_aux : BoolMultimap N;
  terminated : bool;
}.
Arguments SbvBroadcast N {_ _}.
#[global] Instance SbvBroadcast_settable {N} `{NodeIdT N, Crypto} : Settable (SbvBroadcast N) :=
  λ s, mkSbv _ _ _ (netinfo s) (bin_values s) (received_bval s) (sent_bval s)
    (received_aux s) (terminated s).

Section sbv.
Context {N : Type} `{ord : NodeIdT N} `{crypto : Crypto}.
Abbreviation State := (SbvBroadcast N).
Abbreviation SStep := (Step Message BoolSet N FaultKind).
Abbreviation SM := (M State Error).

Definition new (ni : NetworkInfo N) : State :=
  mkSbv _ _ _ ni bool_set.NONE bm_default bool_set.NONE bm_default false.

Definition clear (init : BoolMultimap N) (s : State) : State :=
  s <| bin_values := bool_set.NONE |> <| received_bval := init |>
    <| sent_bval := bool_set.NONE |> <| received_aux := init |> <| terminated := false |>.

(** The loop over [bin_values]. *)
Definition count_aux (s : State) : nat * BoolSet :=
  foldl (λ '(count, values) b,
    let aux := bm_index (received_aux s) b in
    if decide (aux = ∅) then (count, values)
    else (count + size aux, (bool_set.insert b values).1))
  (0, bool_set.NONE) (bool_set.iter (bin_values s)).

Definition try_output : SM SStep :=
  s ← get;
  if terminated s || bool_decide (bin_values s = bool_set.NONE) then mret step_default
  else
    let '(aux_count, aux_vals) := count_aux s in
    if decide (aux_count < num_correct (netinfo s)) then mret step_default
    else
      modify (λ s, s <| terminated := true |>);;
      mret (with_output step_default (Some aux_vals)).

Definition handle_aux (sender_id : N) (b : bool) : SM SStep :=
  s ← get;
  if decide (sender_id ∈ bm_index (received_aux s) b) then
    mret (step_fault sender_id DuplicateAux)
  else
    modify (λ s, s <| received_aux ::= bm_insert b sender_id |>);;
    try_output.

(** [send], given the handler for our own message *)
Definition send_with (handle_message : N → Message → SM SStep) (msg : Message) : SM SStep :=
  s ← get;
  if negb (is_validator (netinfo s)) then try_output
  else
    let step := step_from_msg (target_message All msg) in
    step' ← handle_message (our_id (netinfo s)) msg;
    mret (step_join step step').

Definition send_bval_with (handle_message : N → Message → SM SStep) (b : bool) : SM SStep :=
  s ← get;
  let '(sent, new) := bool_set.insert b (sent_bval s) in
  modify (λ s, s <| sent_bval := sent |>);;
  if negb new then mret step_default else send_with handle_message (BVal b).

Definition handle_bval_with (handle_message : N → Message → SM SStep) (sender_id : N) (b : bool) :
    SM SStep :=
  s ← get;
  if decide (sender_id ∈ bm_index (received_bval s) b) then
    mret (step_fault sender_id DuplicateBVal)
  else
    modify (λ s, s <| received_bval ::= bm_insert b sender_id |>);;
    s ← get;
    let count_bval := size (bm_index (received_bval s) b) in
    step ←
      (if decide (count_bval = 2 * num_faulty (netinfo s) + 1) then
         modify (λ s, s <| bin_values ::= λ v, (bool_set.insert b v).1 |>);;
         s ← get;
         if decide (bin_values s ≠ bool_set.BOTH) then
           step' ← send_with handle_message (Aux b);
           mret (step_extend step_default step')
         else
           step' ← try_output;
           mret (step_extend step_default step')
       else mret step_default);
    if decide (count_bval = num_faulty (netinfo s) + 1) then
      step' ← send_bval_with handle_message b;
      mret (step_extend step step')
    else mret step.

Fixpoint handle_message_fuel (fuel : nat) (sender_id : N) (msg : Message) : SM SStep :=
  match fuel with
  | 0 => no_fuel
  | S fuel =>
      match msg with
      | BVal b => handle_bval_with (handle_message_fuel fuel) sender_id b
      | Aux b => handle_aux sender_id b
      end
  end.

(** A [BVal] makes us send our own [BVal] and [Aux], our own [BVal] may make us send an
    [Aux], and that sends nothing: three levels. *)
Definition handle_message : N → Message → SM SStep := handle_message_fuel 3.
Definition handle_bval (sender_id : N) (b : bool) : SM SStep := handle_message sender_id (BVal b).
Definition send_bval : bool → SM SStep := send_bval_with (handle_message_fuel 2).
End sbv.

(** ** What one call does to the state

    [step_ok inp from s s' out] is the effect of a call: local input [inp], or a message
    [from] another node.  Nothing received is forgotten; a value is only sent that is our
    input or that more than [f] other nodes sent; an output consists of values in
    [bin_values], in [Aux] messages of [N - f] senders. *)
Section facts.
Context {N : Type} `{ord : NodeIdT N} `{crypto : Crypto}.
Abbreviation State := (SbvBroadcast N).
Abbreviation SStep := (Step Message BoolSet N FaultKind).
Implicit Types (s : State) (out : SStep) (b : bool) (inp : option bool).

Definition me s : N := our_id (netinfo s).
Abbreviation bvals s b := (bm_index (received_bval s) b).
Abbreviation auxs s b := (bm_index (received_aux s) b).

Record state_ok s : Prop := {
  st_wf : netinfo_wf (netinfo s);
  st_bin_wf : bool_set.wf (bin_values s);
  st_bin b : bool_set.mem (bin_values s) b =
    bool_decide (2 * num_faulty (netinfo s) + 1 ≤ size (bvals s b));
  st_own_bval b : me s ∈ bvals s b → bool_set.mem (sent_bval s) b = true;
  st_own_aux b : me s ∈ auxs s b →
    bool_set.mem (bin_values s) b = true ∧ me s ∉ auxs s (negb b);
}.

Record step_ok inp (from : option (N * Message)) s s' out : Prop := {
  so_netinfo : netinfo s' = netinfo s;
  so_bval b : bvals s b ⊆ bvals s' b;
  so_aux b : auxs s b ⊆ auxs s' b;
  so_terminated : terminated s = true → terminated s' = true;
  so_sent b : bool_set.mem (sent_bval s) b = true → bool_set.mem (sent_bval s') b = true;
  so_new_sent b : bool_set.mem (sent_bval s') b = true →
    bool_set.mem (sent_bval s) b = true ∨ inp = Some b ∨
    num_faulty (netinfo s) < size (bvals s' b ∖ {[me s]});
  so_new_bval j b : j ∈ bvals s' b →
    j ∈ bvals s b ∨ from = Some (j, BVal b) ∨
    (j = me s ∧ is_validator (netinfo s) = true ∧ ∃ tm, tm ∈ messages out ∧ message tm = BVal b);
  so_new_aux j b : j ∈ auxs s' b →
    j ∈ auxs s b ∨ from = Some (j, Aux b) ∨
    (j = me s ∧ is_validator (netinfo s) = true ∧ ∃ tm, tm ∈ messages out ∧ message tm = Aux b);
  so_messages tm : tm ∈ messages out → target tm = All ∧
    match message tm with BVal b => me s ∈ bvals s' b | Aux b => me s ∈ auxs s' b end;
  so_output : output out = [] ∨ ∃ v, output out = [v] ∧ terminated s = false ∧
    terminated s' = true ∧ bool_set.wf v ∧ v ≠ bool_set.NONE ∧
    (∀ b, bool_set.mem v b = true → 2 * num_faulty (netinfo s) < size (bvals s' b)) ∧
    (∀ b, v = bool_set.from_bool b → num_correct (netinfo s) ≤ size (auxs s' b)) ∧
    num_correct (netinfo s) ≤ size (auxs s' false) + size (auxs s' true);
}.

Lemma sbv_step_ok_refl inp from s out :
  messages out = [] → output out = [] → step_ok inp from s s out.
Proof. intros Hm Ho. split; auto. rewrite Hm. by intros tm ?%elem_of_nil. Qed.

Lemma sbv_me_eq s s' : netinfo s' = netinfo s → me s' = me s.
Proof. unfold me. by intros ->. Qed.

Lemma sbv_step_ok_trans inp from s1 s2 s3 o1 o2 o :
  step_ok inp from s1 s2 o1 → step_ok inp from s2 s3 o2 → o = step_join o1 o2 →
  step_ok inp from s1 s3 o.
Proof.
  intros S1 S2 ->. pose proof (so_netinfo _ _ _ _ _ S1) as Hni. pose proof (sbv_me_eq _ _ Hni) as Hme.
  split.
  - by rewrite (so_netinfo _ _ _ _ _ S2).
  - intros b. etrans; [apply S1|apply S2].
  - intros b. etrans; [apply S1|apply S2].
  - intros. by apply (so_terminated _ _ _ _ _ S2), (so_terminated _ _ _ _ _ S1).
  - intros. by apply (so_sent _ _ _ _ _ S2), (so_sent _ _ _ _ _ S1).
  - intros b [Hs|[Hs|Hs]]%(so_new_sent _ _ _ _ _ S2).
    + apply (so_new_sent _ _ _ _ _ S1) in Hs as [?|[?|Hs]]; [by left|by right; left|right; right].
      eapply Nat.lt_le_trans; [exact Hs|]. apply subseteq_size.
      pose proof (so_bval _ _ _ _ _ S2 b). set_solver.
    + by right; left.
    + right; right. by rewrite Hni, Hme in Hs.
  - intros j b [Hj|Hj]%(so_new_bval _ _ _ _ _ S2).
    + apply (so_new_bval _ _ _ _ _ S1) in Hj as [?|[?|(? & ? & tm & ? & ?)]]; auto.
      right; right. split_and!; [done..|]. exists tm. split; [|done]. apply elem_of_app. by left.
    + right. rewrite Hni, Hme in Hj. destruct Hj as [?|(? & ? & tm & ? & ?)]; [by left|right].
      split_and!; [done..|]. exists tm. split; [|done]. apply elem_of_app. by right.
  - intros j b [Hj|Hj]%(so_new_aux _ _ _ _ _ S2).
    + apply (so_new_aux _ _ _ _ _ S1) in Hj as [?|[?|(? & ? & tm & ? & ?)]]; auto.
      right; right. split_and!; [done..|]. exists tm. split; [|done]. apply elem_of_app. by left.
    + right. rewrite Hni, Hme in Hj. destruct Hj as [?|(? & ? & tm & ? & ?)]; [by left|right].
      split_and!; [done..|]. exists tm. split; [|done]. apply elem_of_app. by right.
  - intros tm [Hin|Hin]%elem_of_app.
    + destruct (so_messages _ _ _ _ _ S1 tm Hin) as [Ht Hm]. split; [done|].
      destruct (message tm); by apply S2.
    + destruct (so_messages _ _ _ _ _ S2 tm Hin) as [Ht Hm]. by rewrite Hme in Hm.
  - simpl. destruct (so_output _ _ _ _ _ S1) as [->|(v & E1 & D & D' & Hw & Hz & Hb & Hc & Hn)]; simpl.
    + destruct (so_output _ _ _ _ _ S2) as [->|(v & E2 & D & D' & Hw & Hz & Hb & Hc & Hn)]; [by left|right].
      rewrite Hni in *. exists v. split_and!; try done.
      destruct (terminated s1) eqn:Ht; [|done]. by rewrite (so_terminated _ _ _ _ _ S1) in D.
    + right. destruct (so_output _ _ _ _ _ S2) as [Ho|(v' & _ & Hd & _)]; [|congruence].
      exists v. rewrite E1, Ho. split_and!; try done.
      * by apply (so_terminated _ _ _ _ _ S2).
      * intros b Hb'. eapply Nat.lt_le_trans; [by apply Hb|]. apply subseteq_size, S2.
      * intros b Hb'. etrans; [by apply Hc|]. apply subseteq_size, S2.
      * etrans; [exact Hn|]. apply Nat.add_le_mono; apply subseteq_size, S2.
Qed.

Lemma sbv_step_ok_after inp from s1 s2 s3 o :
  step_ok inp from s1 s2 step_default → step_ok inp from s2 s3 o → step_ok inp from s1 s3 o.
Proof. intros ? ?. by eapply sbv_step_ok_trans; [..|symmetry; apply step_join_default_l]. Qed.

(** *** The operations *)
Lemma count_aux_spec s :
  let '(count, vals) := count_aux s in
  bool_set.wf vals ∧ (0 < count → vals ≠ bool_set.NONE) ∧
  (∀ b, bool_set.mem vals b = true → bool_set.mem (bin_values s) b = true) ∧
  (∀ b, vals = bool_set.from_bool b → count ≤ size (auxs s b)) ∧
  count ≤ size (auxs s false) + size (auxs s true).
Proof.
  unfold count_aux. rewrite bool_set.iter_mem.
  destruct (bool_set.mem (bin_values s) true) eqn:Ht, (bool_set.mem (bin_values s) false) eqn:Hf;
    simpl; repeat case_decide; (split_and!; [by vm_compute|done || lia|intros []; simpl; done|
      intros []; simpl; try done; lia|unfold bm_index; lia]).
Qed.

Lemma sbv_try_output_spec inp from s :
  state_ok s → wp (try_output (N := N)) s
    (λ s' out, step_ok inp from s s' out ∧ state_ok s') (λ _ _, False).
Proof.
  intros Hs. unfold try_output. do 2 wp_step.
  destruct (_ || _) eqn:Hc; [by split; [apply sbv_step_ok_refl|]|].
  apply orb_false_iff in Hc as [Ht _]. pose proof (count_aux_spec s) as Hcount.
  destruct (count_aux s) as [count vals]. destruct Hcount as (Hw & Hz & Hb & Hc & Hn).
  pose proof (wf_num_correct _ (st_wf _ Hs)) as [Hnc _].
  case_decide as Hlt; [by split; [apply sbv_step_ok_refl|]|]. do 3 wp_step.
  split; [|by destruct Hs]. split; auto; [by intros tm ?%elem_of_nil|].
  right. exists vals. split_and!; try done.
  - apply Hz. lia.
  - intros b Hb'. apply Hb in Hb'. rewrite (st_bin _ Hs), bool_decide_eq_true in Hb'. cbn. lia.
  - intros b Hv. by etrans; [apply Nat.nlt_ge, Hlt|apply Hc].
  - by etrans; [apply Nat.nlt_ge, Hlt|].
Qed.

(** A handler's specification: [step_ok], the invariant, and a fact about the new state. *)
Abbreviation handles inp from s0 m s P :=
  (wp (m : M State Error SStep) s
    (λ s' out, step_ok inp from s0 s' out ∧ state_ok s' ∧ P s') (λ _ _, False)).

Lemma handles_after inp from (m : M State Error SStep) s s1 P :
  step_ok inp from s s1 step_default → handles inp from s1 m s1 P → handles inp from s m s1 P.
Proof.
  intros Hok Hm. eapply wp_mono_ok; [exact Hm|]. intros s' out (H1 & H2 & H3). split_and!; [|done..].
  by eapply sbv_step_ok_after.
Qed.

Lemma insert_aux_ok inp from sender b s :
  state_ok s →
  from = Some (sender, Aux b) →
  sender ≠ me s ∨ (bool_set.mem (bin_values s) b = true ∧ me s ∉ auxs s (negb b)) →
  let s1 := s <| received_aux ::= bm_insert b sender |> in
  step_ok inp from s s1 step_default ∧ state_ok s1.
Proof.
  intros Hs Hfrom Hcase s1.
  assert (Haux : ∀ b' j, j ∈ auxs s1 b' ↔ (b = b' ∧ j = sender) ∨ j ∈ auxs s b')
    by (intros; apply elem_of_bm_insert).
  split; [split; auto; cbn|].
  - intros b'. apply bm_insert_subseteq.
  - intros j b'. rewrite elem_of_bm_insert. intros [[-> ->]|?]; auto.
  - by intros tm ?%elem_of_nil.
  - destruct Hs as [? ? ? ? Hown]. split; try done. intros b'. change (me s1) with (me s).
    rewrite !Haux. change (bin_values s1) with (bin_values s).
    intros [[<- <-]|Hin].
    + destruct Hcase as [[]|[Hb Hn]]; [done|]. split; [done|].
      intros [[Heq _]|?]; [by destruct b|done].
    + destruct (Hown b' Hin) as [Hb Hn]. split; [done|]. intros [[-> Heq]|?]; [|done].
      destruct Hcase as [[]|[_ Hn']]; [done|]. by rewrite negb_involutive in Hn'.
Qed.

Lemma handle_aux_spec inp from sender b s :
  state_ok s →
  from = Some (sender, Aux b) →
  sender ≠ me s ∨ (bool_set.mem (bin_values s) b = true ∧ me s ∉ auxs s (negb b)) →
  handles inp from s (handle_aux sender b) s (λ s', sender ∈ auxs s' b).
Proof.
  intros Hs Hfrom Hcase. unfold handle_aux. do 2 wp_step. case_decide as Hin.
  { split_and!; [by apply sbv_step_ok_refl|done..]. }
  destruct (insert_aux_ok inp from sender b s Hs Hfrom Hcase) as [Hok Hs1]. do 2 wp_step.
  eapply handles_after; [exact Hok|]. eapply wp_mono_ok; [by apply sbv_try_output_spec|].
  intros s' out [Hok' Hs']. split_and!; [done..|]. apply (so_aux _ _ _ _ _ Hok').
  apply elem_of_bm_insert. by left.
Qed.

(** Our own message: sent to all and handled at once. *)
Lemma join_msg inp from s s' out msg :
  step_ok inp (Some (me s, msg)) s s' out → is_validator (netinfo s) = true →
  match msg with BVal b => me s ∈ bvals s' b | Aux b => me s ∈ auxs s' b end →
  step_ok inp from s s' (step_join (step_from_msg (target_message All msg)) out).
Proof.
  intros [? ? ? ? ? ? Hnb Hna Hm ?] Hv Hown.
  assert (Hsent : target_message All msg ∈
      messages (step_join (step_from_msg (target_message All msg)) out)) by left.
  split; auto.
  - intros j b [?|[[= -> ->]|(? & ? & tm & ? & ?)]]%Hnb; [by left|right; right..].
    + split_and!; [done..|]. by exists (target_message All (BVal b)).
    + split_and!; [done..|]. exists tm. split; [by right|done].
  - intros j b [?|[[= -> ->]|(? & ? & tm & ? & ?)]]%Hna; [by left|right; right..].
    + split_and!; [done..|]. by exists (target_message All (Aux b)).
    + split_and!; [done..|]. exists tm. split; [by right|done].
  - intros tm [->|Hin]%elem_of_cons; [done|by apply Hm].
Qed.

Lemma send_aux_spec k inp from b s :
  state_ok s → bool_set.mem (bin_values s) b = true → me s ∉ auxs s (negb b) →
  handles inp from s (send_with (handle_message_fuel (S k)) (Aux b)) s (λ _, True).
Proof.
  intros Hs Hb Hn. unfold send_with. do 2 wp_step.
  destruct (is_validator (netinfo s)) eqn:Hv; cbn [negb].
  2: { eapply wp_mono_ok; [by apply sbv_try_output_spec|]. by intros ? ? []. }
  wp_step. cbn [handle_message_fuel].
  eapply wp_mono_ok; [apply (handle_aux_spec inp (Some (me s, Aux b))); auto|].
  intros s' out (Hok & Hs' & Hin). apply wp_ret. split_and!; [by apply join_msg|done..].
Qed.

Lemma set_sent_ok inp from b s :
  state_ok s →
  bool_set.mem (sent_bval s) b = true ∨ inp = Some b ∨
    num_faulty (netinfo s) < size (bvals s b ∖ {[me s]}) →
  let s1 := s <| sent_bval := (bool_set.insert b (sent_bval s)).1 |> in
  step_ok inp from s s1 step_default ∧ state_ok s1.
Proof.
  intros Hs Hcase s1.
  assert (Hsent : ∀ b', bool_set.mem (sent_bval s1) b' = bool_set.mem (sent_bval s) b' || bool_decide (b = b'))
    by (intros; apply bool_set.mem_insert).
  split; [split; auto|].
  - intros b' Hb'. by rewrite Hsent, Hb'.
  - intros b'. rewrite Hsent. intros [?|Hb%bool_decide_eq_true]%orb_true_iff; [by left|]. by subst b'.
  - by intros tm ?%elem_of_nil.
  - destruct Hs as [? ? ? Hown ?]. split; try done. intros b' Hb'. rewrite Hsent.
    by rewrite (Hown b' Hb').
Qed.

(** Recording a [BVal]: [s1] is the state before, [s2] after [bin_values] was updated. *)
Lemma insert_bval_ok inp from sender b s :
  state_ok s → sender ∉ bvals s b →
  from = Some (sender, BVal b) →
  sender ≠ me s ∨ bool_set.mem (sent_bval s) b = true →
  let s1 := s <| received_bval ::= bm_insert b sender |> in
  let s2 := s1 <| bin_values ::= λ v, (bool_set.insert b v).1 |> in
  let n := size (bvals s1 b) in
  step_ok inp from s s1 step_default ∧ step_ok inp from s s2 step_default ∧
  (n = 2 * num_faulty (netinfo s) + 1 → state_ok s2 ∧
    (bin_values s2 ≠ bool_set.BOTH → me s ∉ auxs s (negb b))) ∧
  (n ≠ 2 * num_faulty (netinfo s) + 1 → state_ok s1).
Proof.
  intros Hs Hin Hfrom Hcase s1 s2 n.
  assert (Hbv : ∀ b' j, j ∈ bvals s1 b' ↔ (b = b' ∧ j = sender) ∨ j ∈ bvals s b')
    by (intros; apply elem_of_bm_insert).
  assert (Hn : n = S (size (bvals s b))).
  { unfold n, s1. cbn. rewrite bm_index_insert, bool_decide_true by done.
    rewrite size_union, size_singleton; set_solver. }
  assert (Hne : ∀ b', b ≠ b' → bvals s1 b' = bvals s b').
  { intros b' ?. unfold s1; cbn. by rewrite bm_index_insert, bool_decide_false. }
  assert (Hown : ∀ b', me s ∈ bvals s1 b' → bool_set.mem (sent_bval s) b' = true).
  { intros b'. rewrite Hbv. intros [[<- Heq]|?]; [|by apply (st_own_bval _ Hs)].
    destruct Hcase as [[]|?]; done. }
  assert (Hstep : step_ok inp from s s1 step_default).
  { split; auto.
    - intros b' j. rewrite Hbv. by right.
    - intros j b'. rewrite Hbv. intros [[<- ->]|?]; auto.
    - by intros tm ?%elem_of_nil. }
  split_and!; [done|by destruct Hstep as [????????? ?]; split|..].
  - intros Hcount.
    assert (Hnew : bool_set.mem (bin_values s) b = false).
    { rewrite (st_bin _ Hs). apply bool_decide_eq_false. lia. }
    assert (Hmem : ∀ b', bool_set.mem (bin_values s2) b' = bool_set.mem (bin_values s) b' || bool_decide (b = b'))
      by (intros; apply bool_set.mem_insert).
    split; [split|].
    + apply Hs.
    + by apply bool_set.insert_wf, (st_bin_wf _ Hs).
    + intros b'. rewrite Hmem. destruct (decide (b = b')) as [<-|Hb'].
      * rewrite (bool_decide_true (b = b)), orb_true_r by done. symmetry. apply bool_decide_eq_true.
        change (bvals s2 b) with (bvals s1 b). fold n. cbn. lia.
      * rewrite (bool_decide_false (b = b')), orb_false_r, (st_bin _ Hs) by done.
        change (bvals s2 b') with (bvals s1 b'). by rewrite Hne.
    + apply Hown.
    + intros b' Hb'. destruct (st_own_aux _ Hs b' Hb') as [Hm ?]. split; [|done].
      by rewrite Hmem, Hm.
    + intros Hboth Haux. apply Hboth. destruct (st_own_aux _ Hs _ Haux) as [Hm _].
      apply bool_set.wf_ext; [by apply bool_set.insert_wf, (st_bin_wf _ Hs)|by vm_compute|].
      intros b'. rewrite Hmem, bool_set.mem_BOTH. destruct (decide (b = b')) as [<-|Hb'].
      * by rewrite bool_decide_true, orb_true_r.
      * assert (b' = negb b) as -> by (by destruct b, b'). by rewrite Hm.
  - intros Hcount. destruct Hs as [Hwf Hbw Hbin Hob Hoa]. split; auto. intros b'.
    change (bin_values s1) with (bin_values s). destruct (decide (b = b')) as [<-|Hb'].
    + fold n. rewrite Hbin, Hn. apply bool_decide_ext. cbn in *. lia.
    + by rewrite Hne, Hbin.
Qed.

(** Sending our [BVal], given that our own handler works. *)
Lemma send_bval_spec hm inp from b s :
  state_ok s →
  bool_set.mem (sent_bval s) b = true ∨ inp = Some b ∨
    num_faulty (netinfo s) < size (bvals s b ∖ {[me s]}) →
  (bool_set.mem (sent_bval s) b = false → is_validator (netinfo s) = true →
   ∀ s1, state_ok s1 → netinfo s1 = netinfo s → bool_set.mem (sent_bval s1) b = true →
   handles inp (Some (me s, BVal b)) s1 (hm (me s) (BVal b)) s1 (λ s', me s ∈ bvals s' b)) →
  handles inp from s (send_bval_with hm b) s (λ _, True).
Proof.
  intros Hs Hcase Hhm. unfold send_bval_with. do 2 wp_step.
  pose proof (bool_set.insert_changed b (sent_bval s)) as Hch.
  destruct (set_sent_ok inp from b s Hs Hcase) as [Hok Hs1].
  pose proof (bool_set.mem_insert b b (sent_bval s)) as Hmem.
  destruct (bool_set.insert b (sent_bval s)) as [sent new]. cbn [fst snd] in *. subst new.
  rewrite bool_decide_true, orb_true_r in Hmem by done. set (s1 := s <| sent_bval := sent |>) in *.
  do 2 wp_step. rewrite negb_involutive.
  destruct (bool_set.mem (sent_bval s) b) eqn:Hsent; [by split_and!|].
  cbn iota. unfold send_with. do 2 wp_step. fold s1. change (netinfo s1) with (netinfo s).
  destruct (is_validator (netinfo s)) eqn:Hv; cbn [negb].
  - wp_step. eapply wp_mono_ok; [by apply (Hhm eq_refl eq_refl s1)|].
    intros s' out (Hok' & Hs' & Hin). apply wp_ret. split_and!; [|done..].
    eapply sbv_step_ok_after; [exact Hok|]. by apply (join_msg inp from s1 s' out (BVal b)).
  - eapply wp_mono_ok; [by apply sbv_try_output_spec|]. intros s' out [Hok' Hs']. split_and!; [|done..].
    by eapply sbv_step_ok_after.
Qed.

(** The part of [handle_bval] that reacts to [2 f + 1] messages. *)
Lemma bin_values_spec k inp from b s0 s (P : Prop) `{!Decision P} :
  let s2 := s <| bin_values ::= λ v, (bool_set.insert b v).1 |> in
  step_ok inp from s0 s step_default → step_ok inp from s0 s2 step_default →
  (P → state_ok s2 ∧ (bin_values s2 ≠ bool_set.BOTH → me s ∉ auxs s (negb b))) →
  (¬ P → state_ok s) →
  handles inp from s0
    (if decide P then
        modify (λ s, s <| bin_values ::= λ v, (bool_set.insert b v).1 |>);;
        s ← get;
        if decide (bin_values s ≠ bool_set.BOTH) then
          step' ← send_with (handle_message_fuel (S k)) (Aux b);
          mret (step_extend step_default step')
        else
          step' ← try_output;
          mret (step_extend step_default step')
      else mret step_default) s (λ s', bvals s b ⊆ bvals s' b).
Proof.
  intros s2 Hok1 Hok2 Htrue Hfalse.
  case_decide as HP; [|by apply wp_ret; split_and!; auto].
  destruct (Htrue HP) as [Hs2 Haux]. do 4 wp_step. fold s2.
  assert (Hmem : bool_set.mem (bin_values s2) b = true).
  { pose proof (bool_set.mem_insert b b (bin_values s)) as Hm.
    rewrite bool_decide_true, orb_true_r in Hm by done. exact Hm. }
  assert (Hdone : ∀ s' out, step_ok inp from s2 s' out → state_ok s' →
    step_ok inp from s0 s' (step_extend step_default out) ∧ state_ok s' ∧ bvals s b ⊆ bvals s' b).
  { intros s' out Hok Hs'. split_and!; [|done|apply (so_bval _ _ _ _ _ Hok b)].
    by eapply sbv_step_ok_trans; [exact Hok2|exact Hok|]. }
  case_decide as Hboth; wp_step.
  - eapply wp_mono_ok; [apply (send_aux_spec k inp from); [done..|by apply Haux]|].
    intros s' out (Hok & Hs' & _). by apply wp_ret, Hdone.
  - eapply wp_mono_ok; [by apply (sbv_try_output_spec inp from)|].
    intros s' out (Hok & Hs'). by apply wp_ret, Hdone.
Qed.

(** Enough others have sent [b], or we have sent it already. *)
Lemma enough_bvals b s s1 s' sender :
  state_ok s → me s1 = me s →
  sender ≠ me s ∨ bool_set.mem (sent_bval s) b = true →
  (∀ j, j ∈ bvals s1 b ↔ j = sender ∨ j ∈ bvals s b) → bvals s1 b ⊆ bvals s' b →
  size (bvals s1 b) = num_faulty (netinfo s) + 1 →
  bool_set.mem (sent_bval s) b = true ∨ num_faulty (netinfo s) < size (bvals s' b ∖ {[me s]}).
Proof.
  intros Hs Hme Hcase Hin Hsub Hn. destruct (bool_set.mem (sent_bval s) b) eqn:Hsent; [by left|right].
  destruct Hcase as [Hne|]; [|done].
  assert (Hown : me s ∉ bvals s b).
  { intros Ho. pose proof (st_own_bval _ Hs b Ho). congruence. }
  assert (Hs1 : bvals s1 b ⊆ bvals s' b ∖ {[me s]}).
  { intros j Hj. apply elem_of_difference. split; [by apply Hsub|].
    apply Hin in Hj as [->|Hj]; set_solver. }
  apply subseteq_size in Hs1. lia.
Qed.

Lemma handle_bval_spec k inp from sender b s :
  state_ok s →
  from = Some (sender, BVal b) →
  sender ≠ me s ∨ bool_set.mem (sent_bval s) b = true →
  bool_set.mem (sent_bval s) b = true ∨ 0 < k →
  handles inp from s (handle_bval_with (handle_message_fuel (S k)) sender b) s
    (λ s', sender ∈ bvals s' b).
Proof.
  revert from sender s. induction k as [k IH] using lt_wf_ind. intros from sender s Hs Hfrom Hcase Hk.
  unfold handle_bval_with; do 2 wp_step. case_decide as Hin;
    [split_and!; [by apply sbv_step_ok_refl|done..]|].
  destruct (insert_bval_ok inp from sender b s Hs Hin Hfrom Hcase) as (Hok1 & Hok2 & Heq & Hne).
  do 4 wp_step. set (s1 := s <| received_bval ::= _ |>) in *. set (n := size (bvals s1 b)) in *.
  change (num_faulty (netinfo s1)) with (num_faulty (netinfo s)).
  wp_step. eapply wp_mono_ok; [apply (bin_values_spec k inp from b s s1); [done..|by apply Heq|by apply Hne]|].
  intros s2 out (Hok & Hs2 & Hsub).
  assert (Hb : ∀ j, j ∈ bvals s1 b ↔ j = sender ∨ j ∈ bvals s b)
    by (intros j; unfold s1; cbn; rewrite elem_of_bm_insert; naive_solver).
  assert (Hsender : sender ∈ bvals s2 b) by (apply Hsub, Hb; by left).
  pose proof (sbv_me_eq _ _ (so_netinfo _ _ _ _ _ Hok)) as Hme.
  case_decide as Hf; [|by apply wp_ret].
  assert (Henough : bool_set.mem (sent_bval s) b = true ∨
    num_faulty (netinfo s) < size (bvals s2 b ∖ {[me s]})).
  { by eapply (enough_bvals b s s1). }
  wp_step. eapply wp_mono_ok; [apply (send_bval_spec _ inp from); [done|..]|].
  - rewrite Hme, (so_netinfo _ _ _ _ _ Hok). destruct Henough as [Hsent|?]; [left|by right; right].
    by apply (so_sent _ _ _ _ _ Hok).
  - intros Hsent Hv s3 Hs3 Hni Hsent3.
    assert (Hk' : 0 < k).
    { destruct Hk as [Hk|]; [|done]. apply (so_sent _ _ _ _ _ Hok) in Hk. congruence. }
    destruct k as [|k]; [lia|]. change (handle_message_fuel (S (S k)) (me s2) (BVal b)) with
      (handle_bval_with (handle_message_fuel (S k)) (me s2) b).
    rewrite <- (sbv_me_eq _ _ Hni). apply IH; [lia|done|done|by right|by left].
  - intros s3 o3 (Hok3 & Hs3 & _). apply wp_ret. split_and!; [|done|by apply (so_bval _ _ _ _ _ Hok3)].
    by eapply sbv_step_ok_trans.
Qed.

(** *** The public methods *)
Lemma sbv_handle_message_spec sender msg s :
  state_ok s → sender ≠ me s →
  wp (handle_message sender msg) s
    (λ s' out, step_ok None (Some (sender, msg)) s s' out ∧ state_ok s') (λ _ _, False).
Proof.
  intros Hs Hne. unfold handle_message. cbn [handle_message_fuel]. destruct msg as [b|b].
  - eapply wp_mono_ok; [apply (handle_bval_spec 1 None (Some (sender, BVal b))); auto|].
    by intros s' out (? & ? & _).
  - eapply wp_mono_ok; [apply (handle_aux_spec None (Some (sender, Aux b))); auto|].
    by intros s' out (? & ? & _).
Qed.

Lemma send_bval_input_spec b s :
  state_ok s →
  wp (send_bval b) s (λ s' out, step_ok (Some b) None s s' out ∧ state_ok s') (λ _ _, False).
Proof.
  intros Hs. eapply wp_mono_ok; [apply (send_bval_spec _ (Some b) None); auto|].
  - intros Hsent Hv s1 Hs1 Hni Hsent1. cbn [handle_message_fuel]. rewrite <- (sbv_me_eq _ _ Hni).
    apply (handle_bval_spec 0); [done|done|by right|by left].
  - by intros s' out (? & ? & _).
Qed.

(** A value that was not sent before is sent. *)
Lemma send_bval_sends b s :
  state_ok s →
  wp (send_bval b) s (λ s' out, step_ok (Some b) None s s' out ∧ state_ok s' ∧
    (bool_set.mem (sent_bval s) b = false → is_validator (netinfo s) = true → messages out ≠ []))
    (λ _ _, False).
Proof.
  intros Hs. pose proof (send_bval_input_spec b s Hs) as Hspec. unfold wp in *.
  destruct (send_bval b s) as [s' out| | |] eqn:Hb; [|done..]. destruct Hspec. split_and!; [done..|].
  intros Hm Hv. revert Hb. unfold send_bval, send_bval_with.
  pose proof (bool_set.insert_changed b (sent_bval s)) as Hch.
  destruct (bool_set.insert b (sent_bval s)) as [sent new] eqn:Hins. cbn [snd] in Hch. subst new.
  unfold mbind, M_bind, get, modify. rewrite Hins, Hm. cbn [negb].
  unfold send_with, mbind, M_bind, get.
  match goal with |- context [is_validator ?x] => change x with (netinfo s) end. rewrite Hv. cbn [negb].
  destruct (handle_message_fuel _ _ _ _); [|done..]. intros [= <- <-]. done.
Qed.
End facts.
End sbv_broadcast.
