(* ===== verification/BroadcastNet.v ===== *)
(** * Reliable broadcast in a network

    The guarantees that [src/broadcast/mod.rs] states, for a network ([Net]) of nodes that
    run [Broadcast] with one proposer.  At most [f] of the validators are faulty,
    [3 f < N]. *)
From S2P Require Import Prelude.
From S2P Require Import BTree.
From S2P Require Import Traits.
From S2P Require Import Net.
From S2P Require Import NetworkInfo.
From S2P Require Import Merkle.
From S2P Require Import Broadcast.
From S2P Require Import Instances.
Import broadcast.

Section net.
Context {N : Type} `{ord : NodeIdT N} `{crypto : Crypto} `{sha : Sha3}
  `{rse : ReedSolomonLib} `{bo : ByteOrder}.
Abbreviation State := (Broadcast N).
Abbreviation BStep := (Step Message bytes N FaultKind).

Abbreviation world := (Net.world N State bytes Message bytes).
Abbreviation exec := (Net.exec broadcast.broadcast handle_message).

Context (correct : gset N).
Abbreviation allowed := (Net.allowed (State := State) (I := bytes) (Msg := Message) (O := bytes)
  (λ _, true) correct).

Context (pubs : gmap N PublicKey) (pr : N).
Abbreviation n := (size pubs).
Abbreviation f := ((size pubs - 1) / 3).

(** A correct node starts with [Broadcast::new], under its own name and with the keys
    that all share. *)
Definition initial (w : world) : Prop :=
  w_sent w = [] ∧ (∀ i, w_input w i = []) ∧ (∀ i, w_out w i = []) ∧
  ∀ i, i ∈ correct → ∃ ni, netinfo_wf ni ∧ our_id ni = i ∧ public_keys ni = pubs ∧
    new ni pr = inr (w_node w i).

Abbreviation reachable := (Net.reachable broadcast.broadcast handle_message (λ _, true)
  correct initial).

(** ** The invariant *)
Section inv.
Context `{rse_laws : !ReedSolomonLaws} `{bo_laws : !ByteOrderLaws}.
Implicit Types (w : world) (s : State) (h : Digest) (p : MerkleProof).

(** The proposer has committed to the root hash [h] with its input. *)
Definition proposed w h : Prop := ∃ v c shards t,
  w_input w pr = [v] ∧ coding_new (n - 2 * f) (2 * f) = Some c ∧
  make_shards c v = Some shards ∧ from_vec shards = Some t ∧ mt_root_hash t = h ∧
  length shards = n.

Definition sent_ok w (j : N) (msg : Message) : Prop :=
  match msg with
  | Value p => j = pr ∧ proposed w (pf_root_hash p)
  | Echo p => echos (w_node w j) !! j = Some p
  | Ready h => readys (w_node w j) !! j = Some (vec_to_list h)
  end.

(** An output [v] of the node [i], with the state [s] that made it. *)
Definition evidence w (i : N) (v : bytes) s : Prop := ∃ h t,
  readys s ⊆ readys (w_node w i) ∧ 2 * f < size (ready_senders s h) ∧
  from_vec (decoded_shards s h) = Some t ∧ decodes n (n - 2 * f) h t v.

Record inv w : Prop := {
  i_ok i : i ∈ correct → state_ok (w_node w i);
  i_me i : i ∈ correct → me (w_node w i) = i;
  i_pubs i : i ∈ correct → public_keys (netinfo (w_node w i)) = pubs;
  i_pr i : i ∈ correct → proposer_id (w_node w i) = pr;
  i_echo_val i j p : i ∈ correct → echos (w_node w i) !! j = Some p → j ∈ dom pubs;
  i_ready_val i j b : i ∈ correct → readys (w_node w i) !! j = Some b → j ∈ dom pubs;
  i_echo_auth i j p : i ∈ correct → j ∈ correct →
    echos (w_node w i) !! j = Some p → echos (w_node w j) !! j = Some p;
  i_ready_auth i j b : i ∈ correct → j ∈ correct →
    readys (w_node w i) !! j = Some b → readys (w_node w j) !! j = Some b;
  i_sent j tm : (j, tm) ∈ w_sent w → sent_ok w j (message tm);
  i_just i h : i ∈ correct → readys (w_node w i) !! i = Some (vec_to_list h) →
    ∃ k, k ∈ correct ∧ n - f ≤ size (echo_senders (w_node w k) h);
  i_echo_prop i p : pr ∈ correct → i ∈ correct → echos (w_node w i) !! i = Some p →
    proposed w (pf_root_hash p);
  i_input : pr ∈ correct → w_input w pr = [] ∨
    value_sent (w_node w pr) = true ∧ length (w_input w pr) = 1;
  i_out i : i ∈ correct → w_out w i = [] ∨
    ∃ v s, w_out w i = [(v, s)] ∧ decided (w_node w i) = true ∧ evidence w i v s;
}.

(** *** Facts of one node *)
Section node.
Context w (Hinv : inv w) (i : N) (Hi : i ∈ correct).
Abbreviation s := (w_node w i).

Lemma inv_sizes : num_nodes (netinfo s) = n ∧ num_faulty (netinfo s) = f ∧
  num_correct (netinfo s) = n - f.
Proof.
  pose proof (st_wf _ (i_ok _ Hinv i Hi)) as Hwf.
  assert (Hn : num_nodes (netinfo s) = n) by (by rewrite (wf_num_nodes _ Hwf), (i_pubs _ Hinv)).
  assert (Hf : num_faulty (netinfo s) = f) by (by rewrite (wf_num_faulty _ Hwf), Hn).
  unfold num_correct. by rewrite Hn, Hf.
Qed.

Lemma inv_coding : coding_new (n - 2 * f) (2 * f) = Some (coding s).
Proof.
  destruct inv_sizes as (<- & <- & _). apply (st_coding _ (i_ok _ Hinv i Hi)).
Qed.

Lemma inv_data_shards : data_shard_count (coding s) = n - 2 * f.
Proof. by apply (coding_new_counts _ _ _ inv_coding). Qed.

Lemma inv_validator j : is_node_validator (netinfo s) j = true ↔ j ∈ dom pubs.
Proof. unfold is_node_validator. by rewrite bool_decide_eq_true, (i_pubs _ Hinv), elem_of_dom. Qed.

Lemma inv_echo_senders h : echo_senders s h ⊆ dom pubs.
Proof.
  intros j (p & Hp & _)%elem_of_keys_with. by eapply (i_echo_val _ Hinv).
Qed.

Lemma inv_ready_senders h : ready_senders s h ⊆ dom pubs.
Proof.
  intros j (p & Hp & _)%elem_of_keys_with. by eapply (i_ready_val _ Hinv).
Qed.
End node.

(** *** One step

    [local w w' i]: the node [i] handled something and nothing else changed. *)
Record local w w' (i : N) (s' : State) (from : option (N * Message)) (vals : list (TargetedMessage Message N))
    (out : BStep) : Prop := {
  lc_ok : step_ok from (w_node w i) s' out;
  lc_node : w_node w' = <[i := s']> (w_node w);
  lc_sent : w_sent w' = w_sent w ++ (pair i <$> (vals ++ messages out));
  lc_out : w_out w' i = w_out w i ++ ((λ v, (v, s')) <$> output out);
  lc_out_ne k : k ≠ i → w_out w' k = w_out w k;
  lc_vals tm : tm ∈ vals → ∃ p, message tm = Value p ∧ i = pr ∧ proposed w' (pf_root_hash p);
  lc_peer j msg : from = Some (j, msg) → j ≠ i →
    j ∈ dom pubs ∧ (j ∈ correct → ∃ tm, (j, tm) ∈ w_sent w ∧ message tm = msg);
  lc_self msg : from = Some (i, msg) → i = pr ∧ ∃ p, msg = Value p ∧ proposed w' (pf_root_hash p);
  lc_proposed h : proposed w h → proposed w' h;
  lc_input : pr ∈ correct → w_input w' pr = [] ∨
    value_sent (w_node w' pr) = true ∧ length (w_input w' pr) = 1;
}.

Section step.
Context w w' i s' from vals out (Hinv : inv w) (Hi : i ∈ correct)
  (Hl : local w w' i s' from vals out).
Abbreviation s := (w_node w i).

Lemma bc_local_node : w_node w' i = s'.
Proof. by rewrite (lc_node _ _ _ _ _ _ _ Hl), fn_lookup_insert. Qed.
Lemma bc_local_node_ne k : k ≠ i → w_node w' k = w_node w k.
Proof. intros Hk. by rewrite (lc_node _ _ _ _ _ _ _ Hl), fn_lookup_insert_ne. Qed.

Lemma bc_local_mono k :
  netinfo (w_node w' k) = netinfo (w_node w k) ∧ proposer_id (w_node w' k) = proposer_id (w_node w k) ∧
  echos (w_node w k) ⊆ echos (w_node w' k) ∧ readys (w_node w k) ⊆ readys (w_node w' k) ∧
  (decided (w_node w k) = true → decided (w_node w' k) = true).
Proof.
  destruct (decide (k = i)) as [->|Hk]; [|by rewrite bc_local_node_ne].
  rewrite bc_local_node. pose proof (lc_ok _ _ _ _ _ _ _ Hl) as Hok. split_and!; apply Hok.
Qed.

Lemma local_new_echo j p :
  echos s' !! j = Some p → echos s !! j = Some p ∨
    (j ∈ dom pubs ∧ (j ∈ correct → j ≠ i → echos (w_node w' j) !! j = Some p)).
Proof.
  intros Hp. destruct (so_new_echo _ _ _ _ (lc_ok _ _ _ _ _ _ _ Hl) j p Hp) as [?|[Hv Hf]]; [by left|right].
  split.
  - apply (inv_validator w Hinv i Hi). apply (wf_node_index_validator _ (st_wf _ (i_ok _ Hinv i Hi))).
    unfold validate_proof in Hv. apply andb_true_iff in Hv as [Hv%bool_decide_eq_true _]. eauto.
  - intros Hj Hne. destruct Hf as [Hf|Hf]; [|by rewrite (i_me _ Hinv) in Hf].
    destruct (lc_peer _ _ _ _ _ _ _ Hl _ _ Hf Hne) as [_ (tm & Htm & Hm)]; [done|].
    pose proof (i_sent _ Hinv _ _ Htm) as Hs. rewrite Hm in Hs. by rewrite bc_local_node_ne.
Qed.

Lemma local_new_ready j b :
  readys s' !! j = Some b → readys s !! j = Some b ∨
    (j ∈ dom pubs ∧ (j ∈ correct → j ≠ i → readys (w_node w' j) !! j = Some b)).
Proof.
  intros Hb. destruct (so_new_ready _ _ _ _ (lc_ok _ _ _ _ _ _ _ Hl) j b Hb)
    as [?|[(h & -> & Hf)|[Hj Hv]]]; [by left|right..].
  - destruct (decide (j = i)) as [->|Hne].
    { by destruct (lc_self _ _ _ _ _ _ _ Hl _ Hf) as (_ & p & ? & _). }
    destruct (lc_peer _ _ _ _ _ _ _ Hl _ _ Hf Hne) as [Hj Hs]. split; [done|].
    intros Hc _. destruct (Hs Hc) as (tm & Htm & Hm).
    pose proof (i_sent _ Hinv _ _ Htm) as Hsent. rewrite Hm in Hsent. by rewrite bc_local_node_ne.
  - rewrite (i_me _ Hinv) in Hj by done. subst j. split; [|done].
    rewrite (wf_is_validator _ (st_wf _ (i_ok _ Hinv i Hi))) in Hv.
    apply (inv_validator w Hinv i Hi) in Hv.
    by change (our_id (netinfo s)) with (me s) in Hv; rewrite (i_me _ Hinv) in Hv.
Qed.

(** What a correct node received from another correct node, the latter has recorded. *)
Lemma bc_local_auth :
  (∀ k j p, k ∈ correct → j ∈ correct → echos (w_node w' k) !! j = Some p →
    echos (w_node w' j) !! j = Some p) ∧
  (∀ k j b, k ∈ correct → j ∈ correct → readys (w_node w' k) !! j = Some b →
    readys (w_node w' j) !! j = Some b).
Proof.
  split; intros k j x Hk Hj Hx; (destruct (decide (k = i)) as [->|Hki];
    [rewrite bc_local_node in Hx|rewrite bc_local_node_ne in Hx by done]).
  - destruct (decide (j = i)) as [->|Hji]; [by rewrite bc_local_node|].
    destruct (local_new_echo j x Hx) as [Hx'|[_ ?]]; [|by auto].
    rewrite bc_local_node_ne by done. by apply (i_echo_auth _ Hinv i).
  - eapply lookup_weaken; [by apply (i_echo_auth _ Hinv k)|apply bc_local_mono].
  - destruct (decide (j = i)) as [->|Hji]; [by rewrite bc_local_node|].
    destruct (local_new_ready j x Hx) as [Hx'|[_ ?]]; [|by auto].
    rewrite bc_local_node_ne by done. by apply (i_ready_auth _ Hinv i).
  - eapply lookup_weaken; [by apply (i_ready_auth _ Hinv k)|apply bc_local_mono].
Qed.

Lemma local_sent j tm : (j, tm) ∈ w_sent w' → sent_ok w' j (message tm).
Proof.
  rewrite (lc_sent _ _ _ _ _ _ _ Hl). intros [Hin|Hin]%elem_of_app.
  - pose proof (i_sent _ Hinv _ _ Hin) as Hs. pose proof (bc_local_mono j) as (_ & _ & He & Hr & _).
    destruct (message tm); simpl in *.
    + destruct Hs as [? ?]. split; [done|]. by apply (lc_proposed _ _ _ _ _ _ _ Hl).
    + by eapply lookup_weaken.
    + by eapply lookup_weaken.
  - apply list_elem_of_fmap in Hin as (tm' & [= -> ->] & [Hin|Hin]%elem_of_app).
    + destruct (lc_vals _ _ _ _ _ _ _ Hl tm' Hin) as (p & -> & -> & Hp). done.
    + pose proof (so_messages _ _ _ _ (lc_ok _ _ _ _ _ _ _ Hl) tm' Hin) as Hm.
      rewrite (i_me _ Hinv i Hi) in Hm. unfold sent_ok. rewrite bc_local_node.
      by destruct (message tm').
Qed.

Lemma local_netinfo : netinfo s' = netinfo s.
Proof. apply (lc_ok _ _ _ _ _ _ _ Hl). Qed.

Lemma local_just_mono h :
  (∃ k, k ∈ correct ∧ n - f ≤ size (echo_senders (w_node w k) h)) →
  ∃ k, k ∈ correct ∧ n - f ≤ size (echo_senders (w_node w' k) h).
Proof.
  intros (k & Hk & Hs). exists k. split; [done|]. etrans; [exact Hs|].
  apply subseteq_size, echo_senders_mono, bc_local_mono.
Qed.

(** More than [f] validators include a correct one. *)
Context (Hbyz : size (dom pubs ∖ correct) ≤ f).

(** A correct node's own [Ready] goes back to [N - f] [Echo]s at some correct node. *)
Lemma bc_local_just k h : k ∈ correct → readys (w_node w' k) !! k = Some (vec_to_list h) →
  ∃ k, k ∈ correct ∧ n - f ≤ size (echo_senders (w_node w' k) h).
Proof.
  intros Hk. destruct (decide (k = i)) as [->|Hki].
  2: { rewrite bc_local_node_ne by done. intros. apply local_just_mono. by apply (i_just _ Hinv k). }
  rewrite bc_local_node. intros Hr. rewrite <- (i_me _ Hinv i Hi) in Hr.
  destruct (so_own_ready _ _ _ _ (lc_ok _ _ _ _ _ _ _ Hl) h Hr) as [Hr'|[Hj|Hj]].
  - rewrite (i_me _ Hinv) in Hr' by done. apply local_just_mono. by apply (i_just _ Hinv i).
  - exists i. split; [done|]. rewrite bc_local_node.
    destruct (inv_sizes w Hinv i Hi) as (_ & _ & Hc). by rewrite local_netinfo, Hc in Hj.
  - destruct (inv_sizes w Hinv i Hi) as (_ & Hf & _). rewrite local_netinfo, Hf in Hj.
    destruct (quorum_correct (dom pubs) correct f Hbyz (ready_senders s' h ∖ {[me s']}))
      as (k & Hk1 & Hk2); [|done|].
    + intros j Hj'. apply elem_of_difference in Hj' as [Hj' _].
      apply elem_of_keys_with in Hj' as (b & Hb & _).
      destruct (local_new_ready j b Hb) as [?|[? _]]; [by eapply (i_ready_val _ Hinv)|done].
    + apply elem_of_difference in Hk1 as [(b & Hb & ->)%elem_of_keys_with Hne].
      rewrite (bc_me_eq _ _ local_netinfo), (i_me _ Hinv) in Hne by done.
      apply local_just_mono, (i_just _ Hinv k); [done|]. rewrite <- (bc_local_node_ne k) by set_solver.
      apply (proj2 bc_local_auth i); [done..|]. by rewrite bc_local_node.
Qed.

Lemma local_echo_prop k p : pr ∈ correct → k ∈ correct → echos (w_node w' k) !! k = Some p →
  proposed w' (pf_root_hash p).
Proof.
  intros Hpr Hk. destruct (decide (k = i)) as [->|Hki].
  2: { rewrite bc_local_node_ne by done. intros. apply (lc_proposed _ _ _ _ _ _ _ Hl).
       by apply (i_echo_prop _ Hinv k). }
  rewrite bc_local_node. intros Hp. rewrite <- (i_me _ Hinv i Hi) in Hp.
  destruct (so_own_value _ _ _ _ (lc_ok _ _ _ _ _ _ _ Hl) p Hp) as [Hp'|Hf].
  - rewrite (i_me _ Hinv) in Hp' by done. apply (lc_proposed _ _ _ _ _ _ _ Hl).
    by apply (i_echo_prop _ Hinv i).
  - rewrite (i_pr _ Hinv i Hi) in Hf. destruct (decide (pr = i)) as [Heq|Hne].
    + rewrite Heq in Hf. by destruct (lc_self _ _ _ _ _ _ _ Hl _ Hf) as (_ & p' & [= <-] & ?).
    + destruct (lc_peer _ _ _ _ _ _ _ Hl _ _ Hf Hne) as [_ (tm & Htm & Hm)]; [done|].
      pose proof (i_sent _ Hinv _ _ Htm) as Hs. rewrite Hm in Hs. destruct Hs as [_ Hs].
      by apply (lc_proposed _ _ _ _ _ _ _ Hl).
Qed.

Lemma evidence_mono k v st : evidence w k v st → evidence w' k v st.
Proof.
  intros (h & t & Hr & ?). exists h, t. split; [|done]. etrans; [exact Hr|apply bc_local_mono].
Qed.

Lemma bc_local_out k : k ∈ correct → w_out w' k = [] ∨
  ∃ v st, w_out w' k = [(v, st)] ∧ decided (w_node w' k) = true ∧ evidence w' k v st.
Proof.
  intros Hk. destruct (decide (k = i)) as [->|Hki].
  - rewrite (lc_out _ _ _ _ _ _ _ Hl). destruct (inv_sizes w Hinv i Hi) as (Hn & Hf & _).
    destruct (so_output _ _ _ _ (lc_ok _ _ _ _ _ _ _ Hl)) as [Ho|(v & h & Ho & Hd & Hd' & Hq & t & Ht & Hdec)];
      rewrite Ho; simpl.
    + rewrite app_nil_r. destruct (i_out _ Hinv i Hi) as [?|(v & st & ? & Hd & He)]; [by left|right].
      exists v, st. split_and!; [done|by apply bc_local_mono|by apply evidence_mono].
    + destruct (i_out _ Hinv i Hi) as [->|(? & ? & _ & Hdd & _)]; [|congruence].
      right. exists v, s'. rewrite bc_local_node. split_and!; [done..|]. exists h, t.
      rewrite bc_local_node, Hn, (inv_data_shards w Hinv i Hi) in *. by rewrite Hf in Hq.
  - rewrite (lc_out_ne _ _ _ _ _ _ _ Hl) by done.
    destruct (i_out _ Hinv k Hk) as [?|(v & st & ? & Hd & He)]; [by left|right].
    exists v, st. split_and!; [done|by apply bc_local_mono|by apply evidence_mono].
Qed.

Lemma bc_inv_local : inv w'.
Proof.
  assert (Hc : ∀ k, k ∈ correct → k = i ∨ (k ≠ i ∧ w_node w' k = w_node w k)).
  { intros k _. destruct (decide (k = i)); [by left|right]. split; [done|]. by apply bc_local_node_ne. }
  split.
  - intros k Hk. destruct (Hc k Hk) as [->|[_ ->]]; [|by apply Hinv]. rewrite bc_local_node.
    eapply state_ok_step; [by apply (i_ok _ Hinv)|apply Hl].
  - intros k Hk. rewrite (bc_me_eq _ _ (proj1 (bc_local_mono k))). by apply Hinv.
  - intros k Hk. rewrite (proj1 (bc_local_mono k)). by apply Hinv.
  - intros k Hk. rewrite (proj1 (proj2 (bc_local_mono k))). by apply Hinv.
  - intros k j p Hk. destruct (Hc k Hk) as [->|[_ ->]]; [|by apply (i_echo_val _ Hinv)].
    rewrite bc_local_node. intros [?|[? _]]%local_new_echo; [by eapply (i_echo_val _ Hinv)|done].
  - intros k j b Hk. destruct (Hc k Hk) as [->|[_ ->]]; [|by apply (i_ready_val _ Hinv)].
    rewrite bc_local_node. intros [?|[? _]]%local_new_ready; [by eapply (i_ready_val _ Hinv)|done].
  - apply bc_local_auth.
  - apply bc_local_auth.
  - apply local_sent.
  - apply bc_local_just.
  - apply local_echo_prop.
  - apply Hl.
  - apply bc_local_out.
Qed.
End step.

(** A correct node that handles an allowed event returns, and only changes itself. *)
Lemma commit_same w i : inv w → i ∈ correct →
  local w (World (<[i := w_node w i]> (w_node w)) (w_sent w) (w_input w) (w_out w))
    i (w_node w i) None [] step_default.
Proof.
  intros Hinv Hi. split; cbn; try done.
  - by apply bc_step_ok_refl.
  - by rewrite app_nil_r.
  - by rewrite app_nil_r.
  - by intros tm ?%elem_of_nil.
  - intros Hpr. destruct (i_input _ Hinv Hpr) as [?|[]]; [by left|right]. split; [|done].
    destruct (decide (pr = i)) as [->|Hne]; [by rewrite fn_lookup_insert|by rewrite fn_lookup_insert_ne].
Qed.

Lemma exec_deliver w i j msg :
  inv w → allowed w (Deliver i j msg) = true →
  ∃ w' s' from out, exec w (Deliver i j msg) = Some w' ∧ local w w' i s' from [] out.
Proof.
  intros Hinv (Hi & Hj & _ & Hs)%allowed_deliver.
  pose proof (bc_handle_message_spec j msg (w_node w i) (i_ok _ Hinv i Hi)) as Hspec.
  rewrite (i_me _ Hinv i Hi) in Hspec. specialize (Hspec Hj). unfold wp in Hspec. simpl.
  destruct (handle_message j msg (w_node w i)) as [s' out|s' e| |]; try done; simpl.
  - destruct Hspec as [Hval Hok]. eexists _, s', _, out. split; [done|].
    split; cbn; try done.
    + by rewrite fn_lookup_insert.
    + intros k Hk. by rewrite fn_lookup_insert_ne.
    + by intros tm ?%elem_of_nil.
    + intros j' msg' [= <- <-] _. split; [|done]. by apply (inv_validator w Hinv i Hi).
    + by intros msg' [= ->].
    + intros h (v & Hv). exists v. cbn. destruct (decide (pr = i)) as [Heq|Hne].
      * rewrite <- Heq. by rewrite fn_lookup_insert, app_nil_r.
      * by rewrite fn_lookup_insert_ne.
    + intros Hpr. destruct (decide (pr = i)) as [Heq|Hne].
      * rewrite <- Heq in *. rewrite !fn_lookup_insert, app_nil_r.
        destruct (i_input _ Hinv Hpr) as [?|[]]; [by left|right]. split; [by apply Hok|done].
      * rewrite !fn_lookup_insert_ne by done. by apply (i_input _ Hinv).
  - destruct Hspec as (-> & _). eexists _, _, None, step_default. split; [done|].
    by apply commit_same.
Qed.
Lemma exec_input w i v :
  inv w → i ∈ correct →
  ∃ w' s' from vals out, exec w (Input i v) = Some w' ∧ local w w' i s' from vals out.
Proof.
  intros Hinv Hi. pose proof (broadcast_spec v (w_node w i) (i_ok _ Hinv i Hi)) as Hspec.
  rewrite (i_me _ Hinv i Hi), (i_pr _ Hinv i Hi) in Hspec. unfold wp in Hspec. simpl.
  destruct (broadcast v (w_node w i)) as [s' out|s' e| |]; try done; simpl.
  - destruct Hspec as (-> & Hvs & Hvs' & shards & t & k & p & Hm & Ht & Hl & Hk & Hp &
      vals & rest & -> & Ho & Hfl & Hvals & Hok).
    eexists _, s', _, (messages vals), rest. split; [done|].
    destruct (inv_sizes w Hinv pr Hi) as (Hn & _ & _).
    assert (Hin : w_input w pr = []).
    { destruct (i_input _ Hinv Hi) as [?|[? _]]; [done|congruence]. }
    assert (Hprop : ∀ w' q j, w_input w' pr = [v] → proof t j = Some q → proposed w' (pf_root_hash q)).
    { intros w' q j Hw' Hq. exists v, (coding (w_node w pr)), shards, t.
      destruct (proof_valid _ _ _ _ Ht Hq) as (_ & _ & -> & _).
      split_and!; [done|by apply inv_coding|done..|congruence]. }
    split; cbn; try done.
    + by rewrite fn_lookup_insert, Ho.
    + intros j Hj. by rewrite fn_lookup_insert_ne.
    + rewrite Forall_forall in Hvals. intros tm Htm.
      destruct (Hvals tm Htm) as (id & j & q & -> & _ & _ & Hq). exists q. split_and!; [done..|].
      eapply Hprop; [|done]. cbn. by rewrite fn_lookup_insert, Hin.
    + by intros j msg [= <- <-].
    + intros msg [= <-]. split; [done|]. exists p. split; [done|]. eapply Hprop; [|done].
      cbn. by rewrite fn_lookup_insert, Hin.
    + intros h (? & ? & ? & ? & Hi' & _). congruence.
    + intros _. right. by rewrite !fn_lookup_insert, Hin.
  - assert (Hsame : s' = w_node w i → ∃ w' s2 from vals out,
      Some (World (<[i := s']> (w_node w)) (w_sent w) (w_input w) (w_out w)) = Some w' ∧
      local w w' i s2 from vals out).
    { intros ->. eexists _, _, None, [], step_default. split; [done|]. by apply commit_same. }
    destruct Hspec as [(_ & Hs & _)|[(_ & Hs & _)|(_ & -> & _)]]; [by apply Hsame..|].
    eexists _, _, None, [], step_default. split; [done|].
    split; cbn; try done.
    + apply set_value_sent_ok.
    + by rewrite app_nil_r.
    + by rewrite app_nil_r.
    + by intros tm ?%elem_of_nil.
    + intros Hpr. destruct (i_input _ Hinv Hpr) as [?|[]]; [by left|right]. split; [|done].
      destruct (decide (pr = i)) as [->|Hne]; [by rewrite fn_lookup_insert|by rewrite fn_lookup_insert_ne].
Qed.

Lemma bc_exec_local w ev :
  inv w → allowed w ev = true →
  ∃ w' i s' from vals out, i ∈ correct ∧ exec w ev = Some w' ∧ local w w' i s' from vals out.
Proof.
  intros Hinv Ha. destruct ev as [i v|i j msg].
  - apply allowed_input in Ha. destruct (exec_input w i v Hinv Ha) as (w' & ? & ? & ? & ? & ?).
    by eexists w', i, _, _, _, _.
  - pose proof (allowed_deliver _ _ _ _ _ _ Ha) as (Hi & _).
    destruct (exec_deliver w i j msg Hinv Ha) as (w' & ? & ? & ? & ?). by eexists w', i, _, _, _, _.
Qed.

Lemma bc_initial_inv w : initial w → inv w.
Proof.
  intros (Hs & Hin & Hout & Hnew).
  assert (Hnode : ∀ i, i ∈ correct → ∃ c, netinfo_wf (netinfo (w_node w i)) ∧
    public_keys (netinfo (w_node w i)) = pubs ∧ our_id (netinfo (w_node w i)) = i ∧
    coding_new (num_nodes (netinfo (w_node w i)) - 2 * num_faulty (netinfo (w_node w i)))
      (2 * num_faulty (netinfo (w_node w i))) = Some c ∧
    w_node w i = mkBroadcast _ _ _ _ (netinfo (w_node w i)) pr c false false false false ∅ ∅).
  { intros i Hi. destruct (Hnew i Hi) as (ni & Hwf & Hid & Hp & Hn). unfold new in Hn.
    destruct (coding_new _ _) as [c|] eqn:Hc; [|done]. injection Hn as <-. by exists c. }
  split; intros i; intros; try (destruct (Hnode i) as (c & Hwf & Hp & Hid & Hc & Heq); [done|]).
  - split; rewrite Heq; cbn; try done; by intros [? ?].
  - done.
  - done.
  - by rewrite Heq.
  - by rewrite Heq in *.
  - by rewrite Heq in *.
  - by rewrite Heq in *.
  - by rewrite Heq in *.
  - rewrite Hs in *. match goal with Hn : _ ∈ [] |- _ => by apply not_elem_of_nil in Hn end.
  - by rewrite Heq in *.
  - by rewrite Heq in *.
  - by left.
  - by left.
Qed.

Context (Hbyz : size (dom pubs ∖ correct) ≤ f).

Lemma bc_reachable_inv w : reachable w → inv w.
Proof.
  induction 1 as [|w ev w' _ IH Ha He]; [by apply bc_initial_inv|].
  destruct (bc_exec_local w ev IH Ha) as (w2 & i & s' & from & vals & out & Hi & He' & Hl).
  assert (w2 = w') as -> by congruence. by eapply bc_inv_local.
Qed.

(** *** Consequences of the invariant *)

(** Two root hashes with a quorum of [Ready]s are the same, and some correct node
    received [N - f] [Echo]s for it. *)
Lemma ready_quorum w i s h :
  inv w → i ∈ correct → readys s ⊆ readys (w_node w i) → 2 * f < size (ready_senders s h) →
  ∃ k, k ∈ correct ∧ n - f ≤ size (echo_senders (w_node w k) h).
Proof.
  intros Hinv Hi Hsub Hq. pose proof (ready_senders_mono s (w_node w i) h Hsub) as Hm.
  destruct (quorum_correct (dom pubs) correct f Hbyz (ready_senders (w_node w i) h)) as (k & Hk & Hkc).
  - by apply inv_ready_senders.
  - apply subseteq_size in Hm. lia.
  - apply elem_of_keys_with in Hk as (b & Hb & ->).
    apply (i_just _ Hinv k h Hkc). by apply (i_ready_auth _ Hinv i).
Qed.

Lemma inv_3f_lt_n w i : inv w → i ∈ correct → 3 * f < n.
Proof.
  intros Hinv Hi. destruct (inv_sizes w Hinv i Hi) as (<- & <- & _).
  apply wf_3f_lt_n, (i_ok _ Hinv i Hi).
Qed.

Lemma echo_quorum_unique w k k' h h' :
  inv w → k ∈ correct → k' ∈ correct →
  n - f ≤ size (echo_senders (w_node w k) h) → n - f ≤ size (echo_senders (w_node w k') h') →
  h = h'.
Proof.
  intros Hinv Hk Hk' Hq Hq'.
  destruct (quorum_intersect (dom pubs) correct f Hbyz
    (echo_senders (w_node w k) h) (echo_senders (w_node w k') h')) as (j & Hj & Hj' & Hc).
  - by apply inv_echo_senders.
  - by apply inv_echo_senders.
  - rewrite size_dom. by eapply inv_3f_lt_n.
  - by rewrite size_dom.
  - by rewrite size_dom.
  - apply elem_of_keys_with in Hj as (p & Hp & <-), Hj' as (p' & Hp' & <-).
    apply (i_echo_auth _ Hinv) in Hp; [|done..]. apply (i_echo_auth _ Hinv) in Hp'; [|done..].
    congruence.
Qed.

Lemma evidence_of w i v s :
  inv w → i ∈ correct → w_out w i = [(v, s)] → evidence w i v s.
Proof.
  intros Hinv Hi Ho. destruct (i_out _ Hinv i Hi) as [He|(v' & s' & He & _ & Hev)]; congruence.
Qed.
(** *** The guarantees *)
Implicit Types (v : bytes).

Lemma outputs_agree w i j v v' s s' :
  inv w → i ∈ correct → j ∈ correct →
  w_out w i = [(v, s)] → w_out w j = [(v', s')] →
  v = v' ∨ ∃ h t t', from_vec (decoded_shards s h) = Some t ∧
    from_vec (decoded_shards s' h) = Some t' ∧ collides (tree_inputs t) (tree_inputs t').
Proof.
  intros Hinv Hi Hj Ho Ho'.
  destruct (evidence_of _ _ _ _ Hinv Hi Ho) as (h & t & Hs & Hq & Ht & Hd).
  destruct (evidence_of _ _ _ _ Hinv Hj Ho') as (h' & t' & Hs' & Hq' & Ht' & Hd').
  destruct (ready_quorum _ _ _ _ Hinv Hi Hs Hq) as (k & Hk & He).
  destruct (ready_quorum _ _ _ _ Hinv Hj Hs' Hq') as (k' & Hk' & He').
  assert (h' = h) as -> by (by apply (echo_quorum_unique w k' k)).
  destruct (decodes_unique _ _ _ _ _ _ _ Hd Hd') as [->|]; [by left|right]. by exists h, t, t'.
Qed.

(** C8: Agreement.  Two correct nodes that output a value output the same value, whatever the
    proposer and the other faulty nodes do and in whatever order messages arrive, unless
    the trees of shards that the two nodes decoded exhibit a hash collision. *)
Theorem agreement w i j v v' s s' :
  reachable w → i ∈ correct → j ∈ correct →
  w_out w i = [(v, s)] → w_out w j = [(v', s')] →
  v = v' ∨ ∃ h t t', from_vec (decoded_shards s h) = Some t ∧
    from_vec (decoded_shards s' h) = Some t' ∧ collides (tree_inputs t) (tree_inputs t').
Proof. intros Hinv%bc_reachable_inv. by apply outputs_agree. Qed.

Lemma output_valid w i v s :
  inv w → pr ∈ correct → i ∈ correct → w_out w i = [(v, s)] →
  ∃ v0 c shards t0, w_input w pr = [v0] ∧ coding_new (n - 2 * f) (2 * f) = Some c ∧
    make_shards c v0 = Some shards ∧ from_vec shards = Some t0 ∧
    ((Z.of_nat (length v0) < 2 ^ 32)%Z → v = v0 ∨
      ∃ h t, from_vec (decoded_shards s h) = Some t ∧ collides (tree_inputs t) (tree_inputs t0)).
Proof.
  intros Hinv Hpr Hi Ho.
  destruct (evidence_of _ _ _ _ Hinv Hi Ho) as (h & t & Hs & Hq & Ht & Hd).
  destruct (ready_quorum _ _ _ _ Hinv Hi Hs Hq) as (k & Hk & He).
  pose proof (inv_3f_lt_n w i Hinv Hi) as H3f.
  destruct (quorum_correct (dom pubs) correct f Hbyz (echo_senders (w_node w k) h)) as (j & Hj & Hjc).
  { by apply inv_echo_senders. }
  { lia. }
  apply elem_of_keys_with in Hj as (p & Hp & <-). apply (i_echo_auth _ Hinv) in Hp; [|done..].
  destruct (i_echo_prop _ Hinv j p Hpr Hjc Hp) as (v0 & c & shards & t0 & Hin & Hc & Hm & Ht0 & Hr & Hl).
  exists v0, c, shards, t0. split_and!; [done..|]. intros Hlen.
  pose proof (from_vec_Some _ _ Ht0) as (_ & Hv0 & _).
  destruct (decodes_unique n (n - 2 * f) (pf_root_hash p) t t0 v v0) as [->|]; [done| |by left|].
  - split_and!; [congruence..|]. rewrite Hv0. eapply glue_make_shards; [exact Hc|lia|done|done].
  - right. by exists (pf_root_hash p), t.
Qed.

(** C9: Validity.  If the proposer is correct and any correct node outputs a value, the proposer
    has had exactly one input, and if that is shorter than 2^32 bytes it is the output,
    unless the decoded tree and the proposer's tree exhibit a hash collision. *)
Theorem validity w i v s :
  reachable w → pr ∈ correct → i ∈ correct → w_out w i = [(v, s)] →
  ∃ v0 c shards t0, w_input w pr = [v0] ∧ coding_new (n - 2 * f) (2 * f) = Some c ∧
    make_shards c v0 = Some shards ∧ from_vec shards = Some t0 ∧
    ((Z.of_nat (length v0) < 2 ^ 32)%Z → v = v0 ∨
      ∃ h t, from_vec (decoded_shards s h) = Some t ∧ collides (tree_inputs t) (tree_inputs t0)).
Proof. intros Hinv%bc_reachable_inv. by apply output_valid. Qed.

(** A correct node outputs at most one value, and it has terminated when it has. *)
Theorem output_once w i :
  reachable w → i ∈ correct →
  length (w_out w i) ≤ 1 ∧ (w_out w i ≠ [] → terminated (w_node w i) = true).
Proof.
  intros Hinv%bc_reachable_inv Hi.
  destruct (i_out _ Hinv i Hi) as [->|(v & s & -> & Hd & _)]; simpl; by split; [lia|].
Qed.

(** No input and no message of a faulty node makes a correct node panic or loop: every
    allowed event is handled, and the node is left with the keys and the proposer it had. *)
Theorem no_panic w ev :
  reachable w → allowed w ev = true →
  ∃ w', exec w ev = Some w' ∧
    ∀ i, i ∈ correct → netinfo (w_node w' i) = netinfo (w_node w i) ∧
      proposer_id (w_node w' i) = pr.
Proof.
  intros Hinv%bc_reachable_inv Ha.
  destruct (bc_exec_local w ev Hinv Ha) as (w' & i & s' & from & vals & out & Hi & He & Hl).
  exists w'. split; [done|]. intros k Hk.
  destruct (bc_local_mono _ _ _ _ _ _ _ Hl k) as (? & -> & _). split; [done|].
  by apply (i_pr _ Hinv).
Qed.
End inv.
End net.

(** ** An execution

    Four validators, the last one faulty and silent; node 0 proposes. *)
Definition demo_correct : gset nat := {[0; 1; 2]}.
Definition demo_value : bytes := ["b"; "y"; "z"]%byte.
Abbreviation demo_world :=
  (Net.world nat (@Broadcast nat nat_ord_key number_crypto repeat_code) bytes Message bytes).
Definition demo_init : demo_world := World
  (λ i, match new (four_netinfo i) 0 with
        | inr s => s
        | inl _ => mkBroadcast _ _ _ _ (four_netinfo i) 0 (Trivial 0) false false false false ∅ ∅
        end) [] (λ _, []) (λ _, []).
Definition demo_final : option demo_world :=
  w ← run (ord := nat_ord_key) broadcast.broadcast handle_message (λ _, true) demo_correct demo_init
    [Input 0 demo_value];
  rounds (ord := nat_ord_key) broadcast.broadcast handle_message (λ _, true) demo_correct 3 w.

Lemma new_four i : ∃ s, new (four_netinfo i) 0 = inr s.
Proof.
  unfold new. assert (num_nodes (four_netinfo i) = 4) as -> by (vm_compute; reflexivity).
  assert (num_faulty (four_netinfo i) = 1) as -> by (vm_compute; reflexivity). by eexists.
Qed.

Lemma demo_initial : initial (ord := nat_ord_key) demo_correct four_keys 0 demo_init.
Proof.
  split_and!; [done..|]. intros i Hi. exists (four_netinfo i).
  destruct (four_netinfo_ok i) as (? & ? & ?), (new_four i) as [s Hs].
  split_and!; [done..|]. unfold demo_init; cbn [w_node]. by rewrite Hs.
Qed.

Lemma demo_byz : size (dom four_keys ∖ demo_correct) ≤ (size four_keys - 1) / 3.
Proof. vm_compute. lia. Qed.

Lemma demo_reachable w :
  demo_final = Some w → Net.reachable (ord := nat_ord_key) broadcast.broadcast handle_message
    (λ _, true) demo_correct (initial (ord := nat_ord_key) demo_correct four_keys 0) w.
Proof.
  unfold demo_final. destruct (run _ _ _ _ demo_init _) as [w1|] eqn:Hw1; [|done].
  intros Hw. eapply rounds_reachable; [|exact Hw]. eapply run_reachable; [|exact Hw1].
  apply reach_init, demo_initial.
Qed.

Lemma outputs_of (o : option demo_world) v0 v1 vi :
  (λ w, ((w_out w 0).*1, (w_out w 1).*1, w_input w 0)) <$> o = Some ([v0], [v1], vi) →
  ∃ w s s', o = Some w ∧ w_out w 0 = [(v0, s)] ∧ w_out w 1 = [(v1, s')] ∧ w_input w 0 = vi.
Proof.
  destruct o as [w|]; [|done]. cbn. intros Ho.
  assert (Ho' : (w_out w 0).*1 = [v0] ∧ (w_out w 1).*1 = [v1] ∧ w_input w 0 = vi)
    by (by injection Ho).
  destruct Ho' as ((s & Hs)%singleton_fst & (s' & Hs')%singleton_fst & Hi). by exists w, s, s'.
Qed.

Lemma demo_outputs : ∃ w s s', demo_final = Some w ∧
  w_out w 0 = [(demo_value, s)] ∧ w_out w 1 = [(demo_value, s')] ∧ w_input w 0 = [demo_value].
Proof. apply outputs_of. vm_compute. reflexivity. Qed.

Lemma agreement_witness : ∃ (w : demo_world) s s',
  w_out w 0 = [(demo_value, s)] ∧ w_out w 1 = [(demo_value, s')] ∧
  (demo_value = demo_value ∨ ∃ h t t', from_vec (decoded_shards s h) = Some t ∧
    from_vec (decoded_shards s' h) = Some t' ∧ collides (tree_inputs t) (tree_inputs t')).
Proof.
  destruct demo_outputs as (w & s & s' & Hw & H0 & H1 & _). exists w, s, s'.
  split; [exact H0|]. split; [exact H1|].
  apply (agreement (ord := nat_ord_key) (crypto := number_crypto) demo_correct four_keys 0 demo_byz w 0 1); [exact (demo_reachable w Hw)|..];
    [by vm_compute..|exact H0|exact H1].
Defined.

Lemma validity_witness : ∃ (w : demo_world) s v0 c shards t0,
  w_out w 1 = [(demo_value, s)] ∧ w_input w 0 = [v0] ∧ coding_new 2 2 = Some c ∧
  make_shards c v0 = Some shards ∧ from_vec shards = Some t0 ∧
  ((Z.of_nat (length v0) < 2 ^ 32)%Z → demo_value = v0 ∨
    ∃ h t, from_vec (decoded_shards s h) = Some t ∧ collides (tree_inputs t) (tree_inputs t0)).
Proof.
  destruct demo_outputs as (w & _ & s & Hw & _ & H1 & _). exists w, s.
  destruct (validity (ord := nat_ord_key) (crypto := number_crypto) demo_correct four_keys 0 demo_byz w 1 demo_value s)
    as (v0 & c & shards & t0 & Hv); [exact (demo_reachable w Hw)|by vm_compute..|exact H1|].
  exists v0, c, shards, t0. split; [exact H1|exact Hv].
Defined.

Lemma output_once_witness : ∃ w : demo_world,
  length (w_out w 1) ≤ 1 ∧ (w_out w 1 ≠ [] → terminated (w_node w 1) = true).
Proof.
  destruct demo_outputs as (w & _ & s & Hw & _). exists w.
  apply (output_once (ord := nat_ord_key) (crypto := number_crypto) demo_correct four_keys 0 demo_byz w 1); [exact (demo_reachable w Hw)|by vm_compute].
Defined.

Lemma no_panic_witness : ∃ w',
  Net.exec (ord := nat_ord_key) broadcast.broadcast handle_message demo_init (Input 0 demo_value) = Some w' ∧
  ∀ i, i ∈ demo_correct → netinfo (w_node w' i) = netinfo (w_node demo_init i) ∧
    proposer_id (w_node w' i) = 0.
Proof.
  apply (no_panic (ord := nat_ord_key) (crypto := number_crypto) demo_correct four_keys 0 demo_byz demo_init (Input 0 demo_value));
    [apply reach_init, demo_initial|by vm_compute].
Defined.
