(* ===== verification/SbvBroadcastNet.v ===== *)
(** * Synchronized binary value broadcast in a network

    What [sbv_broadcast.rs] promises across nodes, for a network ([Net]) of nodes that run
    [SbvBroadcast] and validators of which at most [f] are faulty, [3 f < N]: two nodes
    that output a single value output the same one, and a value in any output was the
    input of a correct node. *)
From S2P Require Import Prelude.
From S2P Require Import BTree.
From S2P Require Import Traits.
From S2P Require Import Net.
From S2P Require Import NetworkInfo.
From S2P Require Import BoolSet.
From S2P Require Import SbvBroadcast.
From S2P Require Import Instances.
Import sbv_broadcast.

Section net.
Context {N : Type} `{ord : NodeIdT N} `{crypto : Crypto}.
Context (pubs : gmap N PublicKey) (correct : gset N).
Abbreviation n := (size pubs).
Abbreviation f := ((size pubs - 1) / 3).
Abbreviation State := (SbvBroadcast N).
Abbreviation SStep := (Step Message BoolSet N FaultKind).
Abbreviation world := (Net.world N State bool Message BoolSet).
Abbreviation exec := (Net.exec (send_bval (N := N)) handle_message).
(** Messages of validators only: [HoneyBadger] rejects those of others. *)
Definition peer (j : N) : bool := bool_decide (j ∈ dom pubs).
Abbreviation allowed := (Net.allowed (State := State) (I := bool) (Msg := Message)
  (O := BoolSet) peer correct).
Implicit Types (w : world) (s : State) (b : bool).

Definition initial w : Prop :=
  w_sent w = [] ∧ (∀ i, w_input w i = []) ∧ (∀ i, w_out w i = []) ∧
  ∀ i, i ∈ correct → ∃ ni, netinfo_wf ni ∧ our_id ni = i ∧ public_keys ni = pubs ∧
    w_node w i = new ni.

Abbreviation reachable := (Net.reachable (send_bval (N := N)) handle_message peer correct initial).

(** Some correct node has had the input [b]. *)
Definition was_input w b : Prop := ∃ k, k ∈ correct ∧ b ∈ w_input w k.

Definition out_ok w (i : N) (v : BoolSet) : Prop :=
  bool_set.wf v ∧ v ≠ bool_set.NONE ∧
  (∀ b, bool_set.mem v b = true → 2 * f < size (bm_index (received_bval (w_node w i)) b)) ∧
  (∀ b, v = bool_set.from_bool b → n - f ≤ size (bm_index (received_aux (w_node w i)) b)).

Record inv w : Prop := {
  i_ok i : i ∈ correct → state_ok (w_node w i);
  i_me i : i ∈ correct → me (w_node w i) = i;
  i_pubs i : i ∈ correct → public_keys (netinfo (w_node w i)) = pubs;
  i_bval_val i b : i ∈ correct → bm_index (received_bval (w_node w i)) b ⊆ dom pubs;
  i_aux_val i b : i ∈ correct → bm_index (received_aux (w_node w i)) b ⊆ dom pubs;
  i_bval_auth i j b : i ∈ correct → j ∈ correct →
    j ∈ bm_index (received_bval (w_node w i)) b → j ∈ bm_index (received_bval (w_node w j)) b;
  i_aux_auth i j b : i ∈ correct → j ∈ correct →
    j ∈ bm_index (received_aux (w_node w i)) b → j ∈ bm_index (received_aux (w_node w j)) b;
  i_sent j tm : (j, tm) ∈ w_sent w →
    match message tm with
    | BVal b => j ∈ bm_index (received_bval (w_node w j)) b
    | Aux b => j ∈ bm_index (received_aux (w_node w j)) b
    end;
  i_just i b : i ∈ correct → bool_set.mem (sent_bval (w_node w i)) b = true → was_input w b;
  i_out i : i ∈ correct → w_out w i = [] ∨
    ∃ v s, w_out w i = [(v, s)] ∧ terminated (w_node w i) = true ∧ out_ok w i v;
}.

(** *** One step *)
Record local w w' (i : N) (s' : State) (inp : option bool) (from : option (N * Message))
    (out : SStep) : Prop := {
  lc_ok : step_ok inp from (w_node w i) s' out;
  lc_state : state_ok s';
  lc_node : w_node w' = <[i := s']> (w_node w);
  lc_sent : w_sent w' = w_sent w ++ (pair i <$> messages out);
  lc_out : w_out w' i = w_out w i ++ ((λ v, (v, s')) <$> output out);
  lc_out_ne k : k ≠ i → w_out w' k = w_out w k;
  lc_input b : inp = Some b → b ∈ w_input w' i;
  lc_input_mono k b : b ∈ w_input w k → b ∈ w_input w' k;
  lc_peer j msg : from = Some (j, msg) → j ≠ i ∧ j ∈ dom pubs ∧
    (j ∈ correct → ∃ tm, (j, tm) ∈ w_sent w ∧ message tm = msg);
}.

Section step.
Context w w' i s' inp from out (Hinv : inv w) (Hi : i ∈ correct)
  (Hl : local w w' i s' inp from out).

Lemma sbv_local_node : w_node w' i = s'.
Proof. by rewrite (lc_node _ _ _ _ _ _ _ Hl), fn_lookup_insert. Qed.
Lemma sbv_local_node_ne k : k ≠ i → w_node w' k = w_node w k.
Proof. intros Hk. by rewrite (lc_node _ _ _ _ _ _ _ Hl), fn_lookup_insert_ne. Qed.

Lemma node_sizes : num_faulty (netinfo (w_node w i)) = f ∧ num_correct (netinfo (w_node w i)) = n - f.
Proof.
  pose proof (st_wf _ (i_ok _ Hinv i Hi)) as Hwf. unfold num_correct.
  by rewrite (wf_num_faulty _ Hwf), (wf_num_nodes _ Hwf), (i_pubs _ Hinv).
Qed.

Lemma sbv_local_mono k b :
  netinfo (w_node w' k) = netinfo (w_node w k) ∧
  bm_index (received_bval (w_node w k)) b ⊆ bm_index (received_bval (w_node w' k)) b ∧
  bm_index (received_aux (w_node w k)) b ⊆ bm_index (received_aux (w_node w' k)) b ∧
  (terminated (w_node w k) = true → terminated (w_node w' k) = true).
Proof.
  destruct (decide (k = i)) as [->|Hk]; [|by rewrite sbv_local_node_ne].
  rewrite sbv_local_node. pose proof (lc_ok _ _ _ _ _ _ _ Hl) as Hok. split_and!; apply Hok.
Qed.

Lemma local_own_validator :
  is_validator (netinfo (w_node w i)) = true → i ∈ dom pubs.
Proof.
  rewrite (wf_is_validator _ (st_wf _ (i_ok _ Hinv i Hi))). unfold is_node_validator.
  change (our_id (netinfo (w_node w i))) with (me (w_node w i)).
  by rewrite (i_me _ Hinv i Hi), (i_pubs _ Hinv i Hi), bool_decide_eq_true, elem_of_dom.
Qed.

(** What is new in the sets of received messages. *)
Lemma local_new_bval j b :
  j ∈ bm_index (received_bval s') b → j ∈ bm_index (received_bval (w_node w i)) b ∨
    (j ∈ dom pubs ∧ (j ∈ correct → j ∈ bm_index (received_bval (w_node w' j)) b)).
Proof.
  intros Hj. pose proof Hj as Hj'.
  apply (so_new_bval _ _ _ _ _ (lc_ok _ _ _ _ _ _ _ Hl)) in Hj as [?|[Hf|(Heq & Hv & _)]]; [by left|right..].
  - destruct (lc_peer _ _ _ _ _ _ _ Hl _ _ Hf) as (Hne & Hd & Hs). split; [done|].
    intros (tm & Htm & Hm)%Hs. pose proof (i_sent _ Hinv _ _ Htm) as Hsent. rewrite Hm in Hsent.
    by apply sbv_local_mono.
  - rewrite (i_me _ Hinv i Hi) in Heq. subst j. split; [by apply local_own_validator|].
    by rewrite sbv_local_node.
Qed.

Lemma local_new_aux j b :
  j ∈ bm_index (received_aux s') b → j ∈ bm_index (received_aux (w_node w i)) b ∨
    (j ∈ dom pubs ∧ (j ∈ correct → j ∈ bm_index (received_aux (w_node w' j)) b)).
Proof.
  intros Hj. pose proof Hj as Hj'.
  apply (so_new_aux _ _ _ _ _ (lc_ok _ _ _ _ _ _ _ Hl)) in Hj as [?|[Hf|(Heq & Hv & _)]]; [by left|right..].
  - destruct (lc_peer _ _ _ _ _ _ _ Hl _ _ Hf) as (Hne & Hd & Hs). split; [done|].
    intros (tm & Htm & Hm)%Hs. pose proof (i_sent _ Hinv _ _ Htm) as Hsent. rewrite Hm in Hsent.
    by apply sbv_local_mono.
  - rewrite (i_me _ Hinv i Hi) in Heq. subst j. split; [by apply local_own_validator|].
    by rewrite sbv_local_node.
Qed.

Lemma sbv_local_auth :
  (∀ k j b, k ∈ correct → j ∈ correct → j ∈ bm_index (received_bval (w_node w' k)) b →
    j ∈ bm_index (received_bval (w_node w' j)) b) ∧
  (∀ k j b, k ∈ correct → j ∈ correct → j ∈ bm_index (received_aux (w_node w' k)) b →
    j ∈ bm_index (received_aux (w_node w' j)) b).
Proof.
  split; intros k j b Hk Hj; (destruct (decide (k = i)) as [->|Hki];
    [rewrite sbv_local_node|rewrite sbv_local_node_ne by done]).
  - intros [Hin|[_ ?]]%local_new_bval; [|by auto]. apply (i_bval_auth _ Hinv i) in Hin; [|done..].
    by apply sbv_local_mono.
  - intros Hin%(i_bval_auth _ Hinv k); [|done..]. by apply sbv_local_mono.
  - intros [Hin|[_ ?]]%local_new_aux; [|by auto]. apply (i_aux_auth _ Hinv i) in Hin; [|done..].
    by apply sbv_local_mono.
  - intros Hin%(i_aux_auth _ Hinv k); [|done..]. by apply sbv_local_mono.
Qed.

Lemma was_input_mono b : was_input w b → was_input w' b.
Proof. intros (k & Hk & Hb). exists k. split; [done|]. by apply (lc_input_mono _ _ _ _ _ _ _ Hl). Qed.

Context (Hbyz : size (dom pubs ∖ correct) ≤ f).

(** A correct node only sends values that a correct node had as input. *)
Lemma sbv_local_just k b :
  k ∈ correct → bool_set.mem (sent_bval (w_node w' k)) b = true → was_input w' b.
Proof.
  intros Hk. destruct (decide (k = i)) as [->|Hki].
  2: { rewrite sbv_local_node_ne by done. intros Hb. apply was_input_mono. by apply (i_just _ Hinv k). }
  rewrite sbv_local_node. intros Hb. destruct node_sizes as [Hf _].
  apply (so_new_sent _ _ _ _ _ (lc_ok _ _ _ _ _ _ _ Hl)) in Hb as [Hb|[Hb|Hb]].
  - apply was_input_mono. by apply (i_just _ Hinv i).
  - exists i. split; [done|]. by apply (lc_input _ _ _ _ _ _ _ Hl).
  - rewrite Hf, (i_me _ Hinv i Hi) in Hb.
    destruct (quorum_correct (dom pubs) correct f Hbyz (bm_index (received_bval s') b ∖ {[i]}))
      as (j & Hj & Hjc); [|done|].
    + intros j Hj. apply elem_of_difference in Hj as [[Hj|[? _]]%local_new_bval _]; [|done].
      by eapply (i_bval_val _ Hinv i).
    + apply elem_of_difference in Hj as [Hj Hne]. apply not_elem_of_singleton in Hne.
      apply was_input_mono. apply (i_just _ Hinv j); [done|].
      apply (st_own_bval _ (i_ok _ Hinv j Hjc)). rewrite (i_me _ Hinv j Hjc).
      rewrite <- (sbv_local_node_ne j) by done. apply (proj1 sbv_local_auth i); [done..|]. by rewrite sbv_local_node.
Qed.

Lemma out_ok_mono k v : out_ok w k v → out_ok w' k v.
Proof.
  intros (Hw & Hz & Hb & Ha). split_and!; [done..| |]; intros b Hv.
  - eapply Nat.lt_le_trans; [by apply Hb|]. by apply subseteq_size, sbv_local_mono.
  - etrans; [by apply Ha|]. by apply subseteq_size, sbv_local_mono.
Qed.

Lemma sbv_local_out k : k ∈ correct → w_out w' k = [] ∨
  ∃ v s, w_out w' k = [(v, s)] ∧ terminated (w_node w' k) = true ∧ out_ok w' k v.
Proof.
  intros Hk.
  assert (Hold : w_out w k = [] ∨ ∃ v s, w_out w k = [(v, s)] ∧
    terminated (w_node w' k) = true ∧ out_ok w' k v).
  { destruct (i_out _ Hinv k Hk) as [?|(v & s & ? & Ht & Ho)]; [by left|right].
    exists v, s. split_and!; [done|by apply (sbv_local_mono k true)|by apply out_ok_mono]. }
  destruct (decide (k = i)) as [->|Hki]; [|by rewrite (lc_out_ne _ _ _ _ _ _ _ Hl)].
  rewrite (lc_out _ _ _ _ _ _ _ Hl). destruct node_sizes as [Hf Hn].
  destruct (so_output _ _ _ _ _ (lc_ok _ _ _ _ _ _ _ Hl)) as [->|(v & -> & Ht & Ht' & Hw & Hz & Hb & Ha & _)].
  - by rewrite app_nil_r.
  - destruct (i_out _ Hinv i Hi) as [->|(? & ? & _ & Ht2 & _)]; [|congruence].
    right. exists v, s'. rewrite Hf in Hb. rewrite Hn in Ha. unfold out_ok. by rewrite sbv_local_node.
Qed.

Lemma sbv_inv_local : inv w'.
Proof.
  assert (Hc : ∀ k, k = i ∨ w_node w' k = w_node w k).
  { intros k. destruct (decide (k = i)); [by left|right]. by apply sbv_local_node_ne. }
  split.
  - intros k Hk. destruct (Hc k) as [->| ->]; [|by apply Hinv]. rewrite sbv_local_node. apply Hl.
  - intros k Hk. rewrite (sbv_me_eq _ _ (proj1 (sbv_local_mono k true))). by apply Hinv.
  - intros k Hk. rewrite (proj1 (sbv_local_mono k true)). by apply Hinv.
  - intros k b Hk j. destruct (Hc k) as [->| ->]; [|by apply (i_bval_val _ Hinv)].
    rewrite sbv_local_node. intros [?|[? _]]%local_new_bval; [by eapply (i_bval_val _ Hinv i)|done].
  - intros k b Hk j. destruct (Hc k) as [->| ->]; [|by apply (i_aux_val _ Hinv)].
    rewrite sbv_local_node. intros [?|[? _]]%local_new_aux; [by eapply (i_aux_val _ Hinv i)|done].
  - apply sbv_local_auth.
  - apply sbv_local_auth.
  - intros j tm. rewrite (lc_sent _ _ _ _ _ _ _ Hl). intros [Hin|Hin]%elem_of_app.
    + pose proof (i_sent _ Hinv _ _ Hin) as Hs. destruct (message tm); by apply sbv_local_mono.
    + apply list_elem_of_fmap in Hin as (tm' & [= -> ->] & Hin).
      pose proof (so_messages _ _ _ _ _ (lc_ok _ _ _ _ _ _ _ Hl) tm' Hin) as [_ Hm].
      rewrite (i_me _ Hinv i Hi) in Hm. by rewrite sbv_local_node.
  - apply sbv_local_just.
  - apply sbv_local_out.
Qed.
End step.

Lemma sbv_exec_local w ev :
  inv w → allowed w ev = true →
  ∃ w' i s' inp from out, i ∈ correct ∧ exec w ev = Some w' ∧ local w w' i s' inp from out.
Proof.
  intros Hinv Ha. destruct ev as [i b|i j msg].
  - apply allowed_input in Ha as Hi. pose proof (send_bval_input_spec b _ (i_ok _ Hinv i Hi)) as Hspec.
    unfold wp in Hspec. simpl. destruct (send_bval b (w_node w i)) as [s' out|s' e| |]; try done.
    destruct Hspec as [Hok Hs']. eexists _, i, s', (Some b), None, out. split_and!; [done..|].
    split; cbn; try done.
    + by rewrite fn_lookup_insert.
    + intros k Hk. by rewrite fn_lookup_insert_ne.
    + intros b' [= <-]. rewrite fn_lookup_insert. set_solver.
    + intros k b' Hb. destruct (decide (k = i)) as [->|Hk].
      * rewrite fn_lookup_insert. set_solver.
      * by rewrite fn_lookup_insert_ne.
  - apply allowed_deliver in Ha as (Hi & Hj & Hp & Hs). apply bool_decide_eq_true in Hp.
    pose proof (sbv_handle_message_spec j msg _ (i_ok _ Hinv i Hi)) as Hspec.
    rewrite (i_me _ Hinv i Hi) in Hspec. specialize (Hspec Hj). unfold wp in Hspec. simpl.
    destruct (handle_message j msg (w_node w i)) as [s' out|s' e| |]; try done.
    destruct Hspec as [Hok Hs']. eexists _, i, s', None, _, out. split_and!; [done..|].
    split; cbn; try done.
    + by rewrite fn_lookup_insert.
    + intros k Hk. by rewrite fn_lookup_insert_ne.
    + intros k b' Hb. destruct (decide (k = i)) as [->|Hk].
      * rewrite fn_lookup_insert. set_solver.
      * by rewrite fn_lookup_insert_ne.
    + by intros j' msg' [= <- <-].
Qed.

Lemma sbv_initial_inv w : initial w → inv w.
Proof.
  intros (Hs & Hin & Hout & Hnew).
  assert (Hnode : ∀ i, i ∈ correct → ∃ ni, netinfo_wf ni ∧ our_id ni = i ∧ public_keys ni = pubs ∧
    w_node w i = new ni) by done.
  split; intros i; intros; try (destruct (Hnode i) as (ni & Hwf & Hid & Hp & Heq); [done|]; rewrite Heq in *).
  - split; cbn; try done.
    + intros b. rewrite bool_set.mem_NONE. symmetry. apply bool_decide_eq_false.
      destruct b; cbn; rewrite size_empty; lia.
    + by intros [].
    + by intros [].
  - done.
  - done.
  - destruct b; cbn; set_solver.
  - destruct b; cbn; set_solver.
  - destruct b; cbn in *; set_solver.
  - destruct b; cbn in *; set_solver.
  - rewrite Hs in *. match goal with Hn : _ ∈ [] |- _ => by apply not_elem_of_nil in Hn end.
  - cbn in *. rewrite bool_set.mem_NONE in *. done.
  - by left.
Qed.

Context (Hbyz : size (dom pubs ∖ correct) ≤ f).

Lemma sbv_reachable_inv w : reachable w → inv w.
Proof.
  induction 1 as [|w ev w' _ IH Ha He]; [by apply sbv_initial_inv|].
  destruct (sbv_exec_local w ev IH Ha) as (w2 & i & s' & inp & from & out & Hi & He' & Hl).
  assert (w2 = w') as -> by congruence. by eapply sbv_inv_local.
Qed.

Lemma out_of w i v s : inv w → i ∈ correct → w_out w i = [(v, s)] → out_ok w i v.
Proof. intros Hinv Hi Ho. destruct (i_out _ Hinv i Hi) as [?|(? & ? & ? & _ & ?)]; congruence. Qed.

(** Two correct nodes that output a single value output the same one: whatever faulty nodes
    send and in whatever order, if one node outputs [{b}] and another [{b'}] then
    [b = b']. *)
Theorem singleton_agreement w i j b b' s s' :
  reachable w → i ∈ correct → j ∈ correct →
  w_out w i = [(bool_set.from_bool b, s)] → w_out w j = [(bool_set.from_bool b', s')] → b = b'.
Proof.
  intros Hinv%sbv_reachable_inv Hi Hj Ho Ho'.
  pose proof (out_of _ _ _ _ Hinv Hi Ho) as (_ & _ & _ & Hq).
  pose proof (out_of _ _ _ _ Hinv Hj Ho') as (_ & _ & _ & Hq').
  destruct (quorum_intersect (dom pubs) correct f Hbyz (bm_index (received_aux (w_node w i)) b)
    (bm_index (received_aux (w_node w j)) b')) as (k & Hk & Hk' & Hc).
  - by apply (i_aux_val _ Hinv).
  - by apply (i_aux_val _ Hinv).
  - rewrite size_dom. pose proof (wf_3f_lt_n _ (st_wf _ (i_ok _ Hinv i Hi))) as H3.
    destruct (node_sizes w i Hinv Hi) as [Hf _].
    rewrite Hf, (wf_num_nodes _ (st_wf _ (i_ok _ Hinv i Hi))), (i_pubs _ Hinv i Hi) in H3. done.
  - rewrite size_dom. by apply Hq.
  - rewrite size_dom. by apply Hq'.
  - apply (i_aux_auth _ Hinv) in Hk; [|done..]. apply (i_aux_auth _ Hinv) in Hk'; [|done..].
    destruct (decide (b = b')) as [|Hne]; [done|]. exfalso.
    rewrite <- (i_me _ Hinv k Hc) in Hk, Hk' at 1. rewrite (i_me _ Hinv k Hc) in Hk, Hk'.
    rewrite <- (i_me _ Hinv k Hc) in Hk at 1. destruct (st_own_aux _ (i_ok _ Hinv k Hc) b Hk) as [_ Hn].
    apply Hn. rewrite (i_me _ Hinv k Hc). assert (b' = negb b) as <- by (by destruct b, b'). done.
Qed.

(** An output is a set of one or two values, and each of them was the input of a correct node:
    faulty nodes cannot bring in a value. *)
Theorem output_validity w i v s :
  reachable w → i ∈ correct → w_out w i = [(v, s)] →
  (v = bool_set.FALSE ∨ v = bool_set.TRUE ∨ v = bool_set.BOTH) ∧
  ∀ b, bool_set.contains v b = true → was_input w b.
Proof.
  intros Hinv%sbv_reachable_inv Hi Ho. pose proof (out_of _ _ _ _ Hinv Hi Ho) as (Hw & Hz & Hb & _).
  split; [destruct (bool_set.wf_cases v Hw) as [?|[?|[?|?]]]; auto; done|].
  intros b. rewrite bool_set.contains_mem. intros Hm%Hb.
  destruct (quorum_correct (dom pubs) correct f Hbyz (bm_index (received_bval (w_node w i)) b))
    as (k & Hk & Hc); [by apply (i_bval_val _ Hinv)|lia|].
  apply (i_just _ Hinv k); [done|]. apply (st_own_bval _ (i_ok _ Hinv k Hc)).
  rewrite (i_me _ Hinv k Hc). by apply (i_bval_auth _ Hinv i).
Qed.
End net.

(** ** An execution

    Four validators, the last one faulty and silent; two nodes have the input [true] and
    one has [false]. *)
Definition sbv_correct : gset nat := {[0; 1; 2]}.
Abbreviation sbv_world := (Net.world nat (@SbvBroadcast nat nat_ord_key number_crypto) bool Message BoolSet).
Definition sbv_init : sbv_world := World (λ i, new (four_netinfo i)) [] (λ _, []) (λ _, []).
Definition sbv_peer : nat → bool := peer (ord := nat_ord_key) (crypto := number_crypto) four_keys.
Definition sbv_final : option sbv_world :=
  w ← run (ord := nat_ord_key) send_bval handle_message sbv_peer sbv_correct sbv_init
    [Input 0 true; Input 1 true; Input 2 false];
  rounds (ord := nat_ord_key) send_bval handle_message sbv_peer sbv_correct 3 w.

Lemma sbv_initial : initial (ord := nat_ord_key) (crypto := number_crypto) four_keys sbv_correct sbv_init.
Proof.
  split_and!; [done..|]. intros i _. exists (four_netinfo i).
  by destruct (four_netinfo_ok i) as (? & ? & ?).
Qed.

Lemma sbv_byz : size (dom four_keys ∖ sbv_correct) ≤ (size four_keys - 1) / 3.
Proof. vm_compute. lia. Qed.

Lemma sbv_reachable w :
  sbv_final = Some w → Net.reachable (ord := nat_ord_key) send_bval handle_message sbv_peer
    sbv_correct (initial (ord := nat_ord_key) (crypto := number_crypto) four_keys sbv_correct) w.
Proof.
  unfold sbv_final. destruct (run _ _ _ _ sbv_init _) as [w1|] eqn:Hw1; [|done].
  intros Hw. eapply rounds_reachable; [|exact Hw]. eapply run_reachable; [|exact Hw1].
  apply reach_init, sbv_initial.
Qed.

Lemma sbv_outputs_of (o : option sbv_world) v0 v1 :
  (λ w, ((w_out w 0).*1, (w_out w 1).*1)) <$> o = Some ([v0], [v1]) →
  ∃ w s s', o = Some w ∧ w_out w 0 = [(v0, s)] ∧ w_out w 1 = [(v1, s')].
Proof.
  destruct o as [w|]; [|done]. cbn. intros Ho.
  assert (Ho' : (w_out w 0).*1 = [v0] ∧ (w_out w 1).*1 = [v1]) by (by injection Ho).
  destruct Ho' as ((s & Hs)%singleton_fst & (s' & Hs')%singleton_fst). by exists w, s, s'.
Qed.

Lemma sbv_outputs : ∃ w s s', sbv_final = Some w ∧
  w_out w 0 = [(bool_set.from_bool true, s)] ∧ w_out w 1 = [(bool_set.from_bool true, s')].
Proof. apply sbv_outputs_of. vm_compute. reflexivity. Qed.

Lemma singleton_agreement_witness : ∃ (w : sbv_world) s s',
  w_out w 0 = [(bool_set.from_bool true, s)] ∧ w_out w 1 = [(bool_set.from_bool true, s')] ∧
  true = true.
Proof.
  destruct sbv_outputs as (w & s & s' & Hw & H0 & H1). exists w, s, s'.
  split; [exact H0|]. split; [exact H1|].
  apply (singleton_agreement (ord := nat_ord_key) (crypto := number_crypto) four_keys sbv_correct
    sbv_byz w 0 1 true true s s'); [exact (sbv_reachable w Hw)|by vm_compute..|exact H0|exact H1].
Defined.

Lemma output_validity_witness : ∃ (w : sbv_world) v s, w_out w 1 = [(v, s)] ∧
  (v = bool_set.FALSE ∨ v = bool_set.TRUE ∨ v = bool_set.BOTH) ∧
  ∀ b, bool_set.contains v b = true → was_input (ord := nat_ord_key) (crypto := number_crypto) sbv_correct w b.
Proof.
  destruct sbv_outputs as (w & _ & s & Hw & _ & H1). exists w, (bool_set.from_bool true), s.
  split; [exact H1|].
  apply (output_validity (ord := nat_ord_key) (crypto := number_crypto) four_keys sbv_correct
    sbv_byz w 1 _ s); [exact (sbv_reachable w Hw)|by vm_compute|exact H1].
Defined.
