(* ===== verification/ThresholdSign.v ===== *)
(** * Collaborative threshold signing

    Models [src/threshold_sign.rs]: a document is set, shares are collected and checked,
    and more than [f] of them are combined into a signature.  This is also the common coin
    of binary agreement.  What the combination of shares guarantees is a law of the
    cryptographic crate, [ThresholdSigLaws]. *)
From S2P Require Import Prelude.
From S2P Require Import BTree.
From S2P Require Import Traits.
From S2P Require Import NetworkInfo.
From S2P Require Import Instances.

(** Documented behaviour of threshold signatures: a public key set has a threshold;
    combining valid shares with distinct indices, more than the threshold, gives a
    signature that verifies; and only one signature of a document verifies. *)
Class ThresholdSigLaws `{Crypto} := {
  sig_threshold : PublicKeySet → nat;
  combine_valid pks shares g :
    NoDup shares.*1 → sig_threshold pks < length shares →
    (∀ i share, (i, share) ∈ shares → pk_share_verify_g2 (pk_set_public_key_share pks i) share g = true) →
    ∃ sig, pk_set_combine_signatures pks shares = inr sig ∧
      pk_verify_g2 (pk_set_public_key pks) sig g = true;
  sig_unique pk sig sig' g :
    pk_verify_g2 pk sig g = true → pk_verify_g2 pk sig' g = true → sig = sig';
}.

Module threshold_sign.

Inductive Error `{Crypto} : Type :=
  | MultipleMessagesToSign
  | CombineAndVerifySigCrypto (e : CryptoError)
  | UnknownSender
  | VerificationFailed
  | DocumentHashIsNone.

Inductive FaultKind : Type :=
  | UnverifiedSignatureShareSender
  | UnexpectedSignatureShare.

Inductive Message `{Crypto} : Type := Msg (share : SignatureShare).

Record ThresholdSign {N : Type} `{NodeIdT N, Crypto} : Type := mkTS {
  netinfo : NetworkInfo N;
  doc_hash : option G2;
  received_shares : gmap N (nat * SignatureShare);
  had_input : bool;
  terminated : bool;
}.
Arguments ThresholdSign N {_ _}.
#[global] Instance ThresholdSign_settable {N} `{NodeIdT N, Crypto} : Settable (ThresholdSign N) :=
  λ s, mkTS _ _ _ (netinfo s) (doc_hash s) (received_shares s) (had_input s) (terminated s).

Section ts.
Context {N : Type} `{ord : NodeIdT N} `{crypto : Crypto}.
Abbreviation State := (ThresholdSign N).
Abbreviation TStep := (Step Message Signature N FaultKind).
Abbreviation TM := (M State Error).

Definition new (ni : NetworkInfo N) : State := mkTS _ _ _ ni None ∅ false false.

Definition set_document (doc : bytes) : TM () :=
  s ← get;
  if decide (is_Some (doc_hash s)) then throw MultipleMessagesToSign
  else modify (λ s, s <| doc_hash := Some (hash_g2 doc) |>).

Definition is_share_valid (s : State) (id : N) (share : SignatureShare) : bool :=
  match doc_hash s with
  | None => true
  | Some doc_hash =>
      match public_key_share (netinfo s) id with
      | None => false
      | Some pk_i => pk_share_verify_g2 pk_i share doc_hash
      end
  end.

Definition remove_invalid_shares : TM (FaultLog N FaultKind) :=
  s ← get;
  let faulty_senders :=
    (filter (λ '(id, (_, share)), is_share_valid s id share = false)
      (entries (received_shares s))).*1 in
  for_acc (λ fault_log id,
    modify (λ s, s <| received_shares ::= delete id |>);;
    mret (faultlog_append id UnverifiedSignatureShareSender fault_log)) faultlog_new faulty_senders.

Definition combine_and_verify_sig (hash : G2) : TM Signature :=
  s ← get;
  sig ← map_err CombineAndVerifySigCrypto
    (of_sum (pk_set_combine_signatures (public_key_set (netinfo s)) (values (received_shares s))));
  if negb (pk_verify_g2 (pk_set_public_key (public_key_set (netinfo s))) sig hash)
  then throw VerificationFailed
  else mret sig.

(** The methods call each other; [sign] is what [try_output] calls. *)
Definition try_output_with (sign : TM TStep) : TM TStep :=
  s ← get;
  match doc_hash s with
  | None => mret step_default
  | Some hash =>
      if negb (terminated s) && bool_decide (num_faulty (netinfo s) < size (received_shares s))
      then
        sig ← combine_and_verify_sig hash;
        modify (λ s, s <| terminated := true |>);;
        step ← sign;
        mret (with_output step (Some sig))
      else mret step_default
  end.

Definition handle_message_with (sign : TM TStep) (sender_id : N) (msg : Message) : TM TStep :=
  s ← get;
  if terminated s then mret step_default
  else
    let '(Msg share) := msg in
    idx ← ok_or (node_index (netinfo s) sender_id) UnknownSender;
    if negb (is_share_valid s sender_id share) then
      mret (step_fault sender_id UnverifiedSignatureShareSender)
    else
      modify (λ s, s <| received_shares ::= <[sender_id := (idx, share)]> |>);;
      try_output_with sign.

Fixpoint sign_fuel (fuel : nat) : TM TStep :=
  match fuel with
  | 0 => no_fuel
  | S fuel =>
      s ← get;
      if had_input s then mret step_default
      else
        hash ← ok_or (doc_hash s) DocumentHashIsNone;
        modify (λ s, s <| had_input := true |>);;
        faults ← remove_invalid_shares;
        let step := step_default <| fault_log ::= λ l, faultlog_extend l faults |> in
        match secret_key_share (netinfo s) with
        | None =>
            step' ← try_output_with (sign_fuel fuel);
            mret (step_join step step')
        | Some sks =>
            let msg := Msg (sk_share_sign_g2 sks hash) in
            let step := step <| messages ::= (.++ [target_message All msg]) |> in
            step' ← handle_message_with (sign_fuel fuel) (our_id (netinfo s)) msg;
            mret (step_extend step step')
        end
  end.

(** [sign] may output and is then called again, and returns at once: two levels. *)
Definition sign : TM TStep := sign_fuel 2.
Definition try_output : TM TStep := try_output_with sign.
Definition handle_message : N → Message → TM TStep := handle_message_with sign.

(** [ConsensusProtocol] *)
Definition handle_input (input : ()) : TM TStep := sign.
End ts.

(** [new_with_document] *)
Definition new_with_document {N : Type} `{NodeIdT N, Crypto} (ni : NetworkInfo N) (doc : bytes) :
    Error + ThresholdSign N :=
  match set_document doc (new ni) with
  | Ok s _ => inr s
  | Err _ e => inl e
  | _ => inr (new ni)
  end.

(** ** Correctness *)
Section facts.
Context {N : Type} `{ord : NodeIdT N} `{crypto : Crypto}.
Abbreviation State := (ThresholdSign N).
Abbreviation TStep := (Step Message Signature N FaultKind).
Implicit Types (s : State) (out : TStep).

Definition me s : N := our_id (netinfo s).

(** Every stored share has the index of its sender, a validator. *)
Record state_ok s : Prop := {
  st_wf : netinfo_wf (netinfo s);
  st_index id i share : received_shares s !! id = Some (i, share) →
    node_index (netinfo s) id = Some i;
  st_doc : terminated s = true → is_Some (doc_hash s);
}.

(** Every stored share is valid for the document. *)
Definition shares_valid s : Prop := ∀ id i share,
  received_shares s !! id = Some (i, share) → is_share_valid s id share = true.

(** A signature that was combined from the stored shares and checked. *)
Definition verified s (g : G2) (sig : Signature) : Prop :=
  pk_verify_g2 (pk_set_public_key (public_key_set (netinfo s))) sig g = true.

(** The effect of a call: an output is a verified signature, it is the first one, more than
    [f] shares are there, and we have taken part. *)
Record step_ok s s' out : Prop := {
  so_netinfo : netinfo s' = netinfo s;
  so_doc : doc_hash s' = doc_hash s;
  so_had_input : had_input s = true → had_input s' = true;
  so_terminated : terminated s = true → terminated s' = true ∧ output out = [];
  so_valid : shares_valid s → shares_valid s';
  so_output : output out = [] ∨ ∃ g sig, output out = [sig] ∧ doc_hash s = Some g ∧
    verified s g sig ∧ terminated s' = true ∧ had_input s' = true;
}.

Context `{laws : !ThresholdSigLaws}.

(** How a call on behalf of the nodes [from] fails.  If the threshold of the keys is [f], a
    combination only fails while invalid shares are stored. *)
Record failed (from : N → Prop) s s' (e : Error) : Prop := {
  fa_netinfo : netinfo s' = netinfo s;
  fa_doc : doc_hash s' = doc_hash s;
  fa_terminated : terminated s' = false;
  fa_valid : shares_valid s → shares_valid s';
  fa_error : match e with
    | UnknownSender => ∃ id, from id ∧ node_index (netinfo s) id = None
    | DocumentHashIsNone => doc_hash s = None
    | MultipleMessagesToSign => False
    | CombineAndVerifySigCrypto _ | VerificationFailed =>
        sig_threshold (public_key_set (netinfo s)) = num_faulty (netinfo s) → ¬ shares_valid s'
    end;
}.

Lemma ts_NoDup_indices s : state_ok s → NoDup (values (received_shares s)).*1.
Proof.
  intros Hs. unfold values. rewrite <- list_fmap_compose. apply NoDup_fmap_2_strong.
  - intros [id [i sh]] [id' [i' sh']] Hin%elem_of_entries Hin'%elem_of_entries Heq. simpl in Heq. subst i'.
    pose proof (st_index _ Hs _ _ _ Hin) as Hi. pose proof (st_index _ Hs _ _ _ Hin') as Hi'.
    assert (id' = id) as -> by by eapply (wf_node_index_inj _ (st_wf _ Hs)). congruence.
  - apply (NoDup_fmap_1 fst), NoDup_keys.
Qed.

Lemma combine_spec g s :
  state_ok s → doc_hash s = Some g → num_faulty (netinfo s) < size (received_shares s) →
  wp (combine_and_verify_sig g) s (λ s' sig, s' = s ∧ verified s g sig)
    (λ s' e, s' = s ∧ match e with
      | CombineAndVerifySigCrypto _ | VerificationFailed =>
          sig_threshold (public_key_set (netinfo s)) = num_faulty (netinfo s) → ¬ shares_valid s
      | _ => False
      end).
Proof.
  intros Hs Hdoc Hn. set (l := values (received_shares s)).
  assert (Hcomb : sig_threshold (public_key_set (netinfo s)) = num_faulty (netinfo s) → shares_valid s →
    ∃ sig, pk_set_combine_signatures (public_key_set (netinfo s)) l = inr sig ∧ verified s g sig).
  { intros Ht Hv. apply combine_valid; [by apply ts_NoDup_indices|by rewrite Ht; unfold l; rewrite length_values|].
    intros i sh [id Hid]%elem_of_values. specialize (Hv _ _ _ Hid).
    unfold is_share_valid in Hv. rewrite Hdoc, (wf_share _ (st_wf _ Hs)), (st_index _ Hs _ _ _ Hid) in Hv.
    done. }
  unfold combine_and_verify_sig. do 2 wp_step. fold l. do 2 wp_step.
  destruct (pk_set_combine_signatures _ l) as [e|sig] eqn:Hc; cbn [of_sum].
  - apply wp_throw. split; [done|]. intros Ht Hv. destruct (Hcomb Ht Hv) as (sig & ? & _). congruence.
  - apply wp_ret. destruct (pk_verify_g2 _ sig g) eqn:Hver; cbn [negb]; [by apply wp_ret|].
    apply wp_throw. split; [done|]. intros Ht Hv. destruct (Hcomb Ht Hv) as (sig' & ? & Hver').
    unfold verified in Hver'. congruence.
Qed.

Lemma ts_remove_invalid_spec s :
  wp remove_invalid_shares s
    (λ s' _, ∃ rs, s' = s <| received_shares := rs |> ∧ rs ⊆ received_shares s ∧
      (∀ id i sh, rs !! id = Some (i, sh) → is_share_valid s id sh = true) ∧
      (∀ id i sh, received_shares s !! id = Some (i, sh) → is_share_valid s id sh = true →
        rs !! id = Some (i, sh))) (λ _ _, False).
Proof.
  unfold remove_invalid_shares. do 2 wp_step. set (l := (filter _ _).*1).
  assert (Hl : ∀ id, id ∈ l ↔ ∃ i sh, received_shares s !! id = Some (i, sh) ∧ is_share_valid s id sh = false).
  { intros id. unfold l. rewrite list_elem_of_fmap. split.
    - intros ([id' [i sh]] & -> & [Hf Hin%elem_of_entries]%list_elem_of_filter). by exists i, sh.
    - intros (i & sh & Hin & Hf). exists (id, (i, sh)). split; [done|].
      apply list_elem_of_filter. by rewrite elem_of_entries. }
  eapply wp_mono_ok; [apply (wp_for_acc _ (λ l' s' _, ∃ rs, s' = s <| received_shares := rs |> ∧
    rs ⊆ received_shares s ∧ (∀ id, id ∈ l' → id ∈ l) ∧
    (∀ id i sh, rs !! id = Some (i, sh) → is_share_valid s id sh = false → id ∈ l') ∧
    (∀ id i sh, received_shares s !! id = Some (i, sh) → id ∉ l → rs !! id = Some (i, sh))))|].
  - exists (received_shares s). split_and!; try done; [by destruct s|]. intros id i sh ? ?. apply Hl. eauto.
  - intros x l' s' acc (rs & -> & Hsub & Hin & Hinv & Hkeep). do 3 wp_step.
    exists (delete x rs). split_and!; [done| |..].
    + etrans; [apply delete_subseteq|done].
    + intros id ?. apply Hin. by right.
    + intros id i sh [Hne Hid]%lookup_delete_Some Hf. specialize (Hinv _ _ _ Hid Hf). set_solver.
    + intros id i sh Hid Hnl. rewrite lookup_delete_ne; [by apply Hkeep|].
      intros ->. apply Hnl, Hin. by left.
  - intros s' acc (rs & -> & Hsub & _ & Hinv & Hkeep). exists rs. split_and!; [done..| |].
    + intros id i sh Hid. apply not_false_iff_true. intros Hf.
      by destruct (not_elem_of_nil _ (Hinv _ _ _ Hid Hf)).
    + intros id i sh Hid Hv. apply Hkeep; [done|]. rewrite Hl. intros (i' & sh' & Hid' & Hf). congruence.
Qed.

Lemma ts_is_share_valid_eq s s' id sh :
  netinfo s' = netinfo s → doc_hash s' = doc_hash s →
  is_share_valid s' id sh = is_share_valid s id sh.
Proof. unfold is_share_valid. by intros -> ->. Qed.

Lemma ts_step_ok_refl s out : output out = [] → step_ok s s out.
Proof. intros Ho. split; auto. Qed.

Lemma state_ok_eq s s' :
  state_ok s → netinfo s' = netinfo s → received_shares s' ⊆ received_shares s →
  (terminated s' = true → is_Some (doc_hash s')) → state_ok s'.
Proof.
  intros [Hwf Hi Hd] Hni Hsub Hd'. split; [by rewrite Hni| |done]. rewrite Hni.
  intros id i sh Hid. eapply Hi. by eapply lookup_weaken.
Qed.

(** The start of [sign]: input is noted and invalid shares are dropped. *)
Lemma start_ok s rs g :
  doc_hash s = Some g → rs ⊆ received_shares s →
  (∀ id i sh, rs !! id = Some (i, sh) → is_share_valid s id sh = true) →
  let s1 := s <| had_input := true |> <| received_shares := rs |> in
  (state_ok s → state_ok s1) ∧ shares_valid s1.
Proof.
  intros Hdoc Hsub Hval s1. split; [intros Hs; by apply (state_ok_eq s); [..|apply Hs]|].
  intros id i sh Hid. rewrite (ts_is_share_valid_eq s) by done. by eapply Hval.
Qed.

(** After an output, [sign] only adds our share. *)
Lemma sign_terminated k s g :
  state_ok s → terminated s = true → doc_hash s = Some g →
  wp (sign_fuel (S k)) s
    (λ s' out, step_ok s s' out ∧ state_ok s' ∧ output out = [] ∧ had_input s' = true)
    (λ _ _, False).
Proof.
  intros Hs Ht Hdoc. cbn [sign_fuel]. do 2 wp_step. destruct (had_input s) eqn:Hin.
  { by apply wp_ret; split_and!; [apply ts_step_ok_refl|..]. }
  rewrite Hdoc. cbn [ok_or]. do 5 wp_step.
  eapply wp_mono_ok; [apply ts_remove_invalid_spec|].
  intros s2 faults (rs & -> & Hsub & Hval & _).
  destruct (start_ok s rs g Hdoc Hsub Hval) as [Hs2 Hv2]. specialize (Hs2 Hs).
  set (s2 := s <| had_input := true |> <| received_shares := rs |>) in *.
  assert (Hdone : ∀ o, output o = [] →
    step_ok s s2 o ∧ state_ok s2 ∧ output o = [] ∧ had_input s2 = true).
  { intros o Ho. split_and!; [|done..]. split; auto. }
  assert (Hts : terminated s2 = true) by done.
  destruct (secret_key_share (netinfo s)) as [sks|].
  - wp_step. unfold handle_message_with. do 2 wp_step. fold s2. rewrite Hts.
    do 2 apply wp_ret. by apply Hdone.
  - wp_step. unfold try_output_with. do 2 wp_step. fold s2.
    change (doc_hash s2) with (doc_hash s). rewrite Hdoc, Hts. cbn [negb andb].
    do 2 apply wp_ret. by apply Hdone.
Qed.

Lemma ts_try_output_spec k s :
  state_ok s →
  wp (try_output_with (sign_fuel (S k))) s (λ s' out, step_ok s s' out ∧ state_ok s')
    (failed (λ _, False) s).
Proof.
  intros Hs. unfold try_output_with. do 2 wp_step.
  destruct (doc_hash s) as [g|] eqn:Hdoc; [|by apply wp_ret; split; [apply ts_step_ok_refl|]].
  destruct (_ && _) eqn:Hc; [|by apply wp_ret; split; [apply ts_step_ok_refl|]].
  apply andb_true_iff in Hc as [Ht%negb_true_iff Hn%bool_decide_eq_true].
  wp_step. eapply wp_mono; [by apply (combine_spec g)| |].
  - intros s' sig [-> Hver]. do 3 wp_step. set (s1 := s <| terminated := true |>).
    eapply wp_mono; [apply (sign_terminated k s1 g); [by apply (state_ok_eq s); [..|intros _; exists g; exact Hdoc]|done..]| |done].
    intros s2 out (Hok & Hs2 & Ho & Hin). apply wp_ret. split; [|done]. destruct Hok.
    split; auto; [congruence|]. right. exists g, sig. simpl. rewrite Ho.
    split_and!; try done. by apply so_terminated0.
  - intros s' e [-> He]. split; auto. destruct e; done.
Qed.

Lemma failed_mono (from from' : N → Prop) s s1 s' e :
  netinfo s1 = netinfo s → doc_hash s1 = doc_hash s → (shares_valid s → shares_valid s1) →
  (∀ id, from id → from' id) → failed from s1 s' e → failed from' s s' e.
Proof.
  intros Hni Hdoc Hv Hfrom [? ? ? ? He]. rewrite Hni, Hdoc in *. split; auto.
  destruct e; try done. destruct He as (id & ? & ?). eauto.
Qed.

Lemma handle_message_with_spec k sender msg s :
  state_ok s →
  wp (handle_message_with (sign_fuel (S k)) sender msg) s
    (λ s' out, step_ok s s' out ∧ state_ok s') (failed (eq sender) s).
Proof.
  intros Hs. unfold handle_message_with. do 2 wp_step.
  destruct (terminated s) eqn:Ht; [by apply wp_ret; split; [apply ts_step_ok_refl|]|].
  destruct msg as [share]. wp_step. apply wp_ok_or; [intros idx Hidx|].
  2: { intros Hid. split; auto. by exists sender. }
  destruct (is_share_valid s sender share) eqn:Hv; cbn [negb];
    [|by apply wp_ret; split; [apply ts_step_ok_refl|]].
  do 2 wp_step. set (s1 := s <| received_shares ::= _ |>).
  assert (Hs1 : state_ok s1).
  { destruct Hs as [Hwf Hi Hd]. split; [done| |done]. intros id i sh. cbn. rewrite lookup_insert.
    case_decide as Heq; [subst id; by intros [= <- <-]|by apply Hi]. }
  assert (Hval : shares_valid s → shares_valid s1).
  { intros Hval id i sh. cbn. rewrite lookup_insert.
    case_decide as Heq; [subst id; by intros [= <- <-]|by apply Hval]. }
  eapply wp_mono; [by apply (ts_try_output_spec k s1)| |].
  - intros s' out [[] Hs']. split; [|done]. split; auto.
  - intros s' e. by apply failed_mono.
Qed.

Lemma sign_fuel_spec k s :
  state_ok s → terminated s = false →
  wp (sign_fuel (S (S k))) s (λ s' out, step_ok s s' out ∧ state_ok s')
    (failed (λ id, id = me s ∧ is_Some (secret_key_share (netinfo s))) s).
Proof.
  intros Hs Ht. cbn [sign_fuel]. do 2 wp_step. destruct (had_input s) eqn:Hin.
  { apply wp_ret; split; [by apply ts_step_ok_refl|done]. }
  wp_step. apply wp_ok_or; [intros g Hdoc|by intros; split]. do 3 wp_step.
  eapply wp_mono; [apply ts_remove_invalid_spec| |done].
  intros s2 faults (rs & -> & Hsub & Hval & _).
  destruct (start_ok s rs g Hdoc Hsub Hval) as [Hs2 Hv2]. specialize (Hs2 Hs).
  set (s2 := s <| had_input := true |> <| received_shares := rs |>) in *.
  assert (Hok : ∀ s' out o, step_ok s2 s' out ∧ state_ok s' → output o = output out →
    step_ok s s' o ∧ state_ok s').
  { intros s' out o [[] ?] Ho. rewrite <- Ho in *. split; [|done].
    split; auto; try congruence. }
  destruct (secret_key_share (netinfo s)) as [sks|]; wp_step.
  - eapply wp_mono; [by apply (handle_message_with_spec k)| |].
    2: { intros s' e. apply failed_mono; try done. }
    intros s' out Hout. apply wp_ret. by apply (Hok s' out).
  - eapply wp_mono; [by apply (ts_try_output_spec k)| |intros s' e; by apply failed_mono].
    intros s' out Hout. apply wp_ret. by apply (Hok s' out).
Qed.

(** The public methods. *)
Lemma sign_spec s :
  state_ok s →
  wp sign s (λ s' out, step_ok s s' out ∧ state_ok s')
    (failed (λ id, id = me s ∧ is_Some (secret_key_share (netinfo s))) s).
Proof.
  intros Hs. destruct (terminated s) eqn:Ht; [|by apply (sign_fuel_spec 0)].
  destruct (st_doc _ Hs Ht) as [g Hdoc].
  eapply wp_mono; [by eapply (sign_terminated 1)| |done]. by intros s' out (? & ? & _).
Qed.

Inductive call : M State Error TStep → Prop :=
  | call_sign : call sign
  | call_message id msg : call (handle_message id msg).

Lemma call_spec m s :
  call m → state_ok s →
  wp m s (λ s' out, step_ok s s' out ∧ state_ok s') (failed (λ _, True) s).
Proof.
  intros [|id msg] Hs; eapply wp_mono; try (intros s' e; by apply failed_mono);
    [by apply sign_spec|done|by apply (handle_message_with_spec 1)|done].
Qed.

(** With enough valid shares there is an output. *)
Lemma try_output_live k s g :
  state_ok s → terminated s = false → doc_hash s = Some g → shares_valid s →
  sig_threshold (public_key_set (netinfo s)) = num_faulty (netinfo s) →
  num_faulty (netinfo s) < size (received_shares s) →
  wp (try_output_with (sign_fuel (S k))) s
    (λ s' out, ∃ sig, output out = [sig] ∧ verified s g sig ∧ terminated s' = true) (λ _ _, False).
Proof.
  intros Hs Ht Hdoc Hval Hth Hn. unfold try_output_with. do 2 wp_step. rewrite Hdoc, Ht.
  rewrite bool_decide_true by done. cbn [negb andb]. wp_step.
  eapply wp_mono; [by apply (combine_spec g)| |].
  - intros s' sig [-> Hver]. do 3 wp_step. set (s1 := s <| terminated := true |>).
    eapply wp_mono; [apply (sign_terminated k s1 g); [by apply (state_ok_eq s); [..|intros _; exists g; exact Hdoc]|done..]| |done].
    intros s2 out (Hok & Hs2 & Ho & Hin). apply wp_ret. exists sig. simpl. rewrite Ho.
    split_and!; [done..|]. by apply (so_terminated _ _ _ Hok).
  - intros s' e [-> He]. by destruct e; try done; apply He.
Qed.

(** Every signature that an instance outputs was verified under the public key of the network
    and the document that was set; it is output at most once, and not before the node has
    contributed its own share.  This holds after any call, successful or not, from any
    state the instance can be in. *)
Theorem output_is_verified m s :
  call m → state_ok s →
  match m s with
  | Ok s' out => state_ok s' ∧ (terminated s = true → output out = []) ∧
      ∀ sig, sig ∈ output out → output out = [sig] ∧ terminated s' = true ∧ had_input s' = true ∧
        ∃ g, doc_hash s' = Some g ∧ verified s' g sig
  | Err s' e => terminated s' = false
  | Panic | NoFuel => False
  end.
Proof.
  intros Hm Hs. pose proof (call_spec m s Hm Hs) as Hspec. unfold wp in Hspec.
  destruct (m s) as [s' out|s' e| |]; [|by apply Hspec|done..].
  destruct Hspec as [Hok Hs']. split_and!; [done|by intros Ht; apply (so_terminated _ _ _ Hok)|].
  destruct (so_output _ _ _ Hok) as [Ho|(g & sig & Ho & Hd & Hver & Ht & Hin)]; rewrite Ho;
    intros sig'; [by intros ?%elem_of_nil|].
  intros ->%list_elem_of_singleton. split_and!; [done..|]. exists g.
  rewrite (so_doc _ _ _ Hok). unfold verified in *. by rewrite (so_netinfo _ _ _ Hok).
Qed.

(** Faulty nodes cannot stop an instance whose document was set first: a call leaves all stored
    shares valid and fails with an error of the cryptographic crate for no message of any
    sender; and the message that brings the number of valid shares above [f] outputs the
    signature. *)
Theorem valid_shares_suffice s g id share :
  state_ok s → doc_hash s = Some g → shares_valid s → terminated s = false →
  sig_threshold (public_key_set (netinfo s)) = num_faulty (netinfo s) →
  match handle_message id (Msg share) s with
  | Ok s' out => shares_valid s' ∧ state_ok s' ∧
      (is_share_valid s id share = true →
       num_faulty (netinfo s) < size ({[id]} ∪ dom (received_shares s)) →
       ∃ sig, output out = [sig] ∧ verified s g sig)
  | Err s' e => e = UnknownSender ∧ node_index (netinfo s) id = None ∧ s' = s
  | Panic | NoFuel => False
  end.
Proof.
  intros Hs Hdoc Hval Ht Hth. unfold handle_message, handle_message_with.
  unfold mbind, M_bind, get. rewrite Ht.
  destruct (node_index (netinfo s) id) as [idx|] eqn:Hidx; [|done]. cbn [ok_or mret M_ret].
  destruct (is_share_valid s id share) eqn:Hv; cbn [negb]; [|by split_and!].
  unfold modify. set (s1 := s <| received_shares ::= _ |>).
  assert (Hs1 : state_ok s1).
  { destruct Hs as [Hwf Hi Hd]. split; [done| |done]. intros i j sh. cbn. rewrite lookup_insert.
    case_decide as Heq; [subst i; by intros [= <- <-]|by apply Hi]. }
  assert (Hval1 : shares_valid s1).
  { intros i j sh. cbn. rewrite lookup_insert.
    case_decide as Heq; [subst i; by intros [= <- <-]|by apply Hval]. }
  pose proof (ts_try_output_spec 1 s1 Hs1) as Hspec. unfold wp in Hspec.
  destruct (decide (num_faulty (netinfo s1) < size (received_shares s1))) as [Hn|Hn].
  - pose proof (try_output_live 1 s1 g Hs1 Ht Hdoc Hval1 Hth Hn) as Hlive. unfold wp, sign in *.
    destruct (try_output_with _ s1) as [s' out|s' e| |]; [|done..].
    destruct Hspec as [Hok Hs'], Hlive as (sig & Ho & Hver & _).
    split_and!; [by apply (so_valid _ _ _ Hok)|done|]. intros _ _. by exists sig.
  - unfold try_output_with, mbind, M_bind, get. change (doc_hash s1) with (doc_hash s).
    rewrite Hdoc, bool_decide_false, andb_false_r by done. split_and!; [done..|].
    intros _ Hn'. destruct Hn. rewrite <- size_dom. change (netinfo s1) with (netinfo s). cbn.
    by rewrite dom_insert_L.
Qed.

(** The common coin is common: two nodes with the same public keys that sign the same document
    output the same signature, whichever shares each of them combined. *)
Theorem signature_agreement m1 m2 s1 s2 s1' s2' out1 out2 sig1 sig2 g :
  call m1 → call m2 → state_ok s1 → state_ok s2 →
  public_key_set (netinfo s1) = public_key_set (netinfo s2) →
  doc_hash s1 = Some g → doc_hash s2 = Some g →
  m1 s1 = Ok s1' out1 → m2 s2 = Ok s2' out2 →
  sig1 ∈ output out1 → sig2 ∈ output out2 → sig1 = sig2.
Proof.
  intros Hm1 Hm2 Hs1 Hs2 Hpk Hd1 Hd2 H1 H2.
  assert (Hver : ∀ m s s' out sig, call m → state_ok s → m s = Ok s' out → doc_hash s = Some g →
    sig ∈ output out → verified s g sig).
  { intros m s s' out sig Hm Hs Hms Hd Hin. pose proof (call_spec m s Hm Hs) as Hspec.
    apply (wp_ok _ _ _ _ _ _ Hspec) in Hms as [Hok _].
    destruct (so_output _ _ _ Hok) as [Ho|(g' & sig' & Ho & Hd' & Hver & _)]; rewrite Ho in Hin.
    - by apply elem_of_nil in Hin.
    - apply list_elem_of_singleton in Hin as ->. congruence. }
  intros Hv1%(Hver m1 s1 s1') Hv2%(Hver m2 s2 s2'); [|done..].
  unfold verified in *. rewrite Hpk in Hv1. by eapply sig_unique.
Qed.
End facts.

(** ** Instances and examples *)
#[export] Instance number_sig_laws : @ThresholdSigLaws number_crypto.
Proof.
  refine {| sig_threshold := (λ pks, pks.2) : @PublicKeySet number_crypto → nat |}.
  - intros pks shares g _ Hn Hval. destruct shares as [|[i [pk h]] shares]; [simpl in Hn; lia|].
    pose proof (Hval i (pk, h) ltac:(left)) as Hv.
    apply bool_decide_eq_true in Hv. injection Hv as -> ->. exists (pks.1, g). split.
    + simpl in *. by rewrite decide_True.
    + by apply bool_decide_eq_true.
  - intros pk sig sig' g Hs Hs'. apply bool_decide_eq_true in Hs, Hs'. congruence.
Defined.

(** Node [i] of four, with the document [[x42]]. *)
Definition demo_doc : bytes := ["B"]%byte.
Definition demo_ts (i : nat) : ThresholdSign nat :=
  mkTS _ _ number_crypto (four_netinfo i) (Some demo_doc) ∅ false false.
Definition demo_share (i : nat) : Message := @Msg number_crypto ((7, i), demo_doc).

Lemma demo_ts_new i : new_with_document (four_netinfo i) demo_doc = inr (demo_ts i).
Proof. reflexivity. Qed.

Lemma demo_ts_ok i : state_ok (demo_ts i).
Proof. split; [by apply four_netinfo_ok|done..]. Qed.

Lemma demo_ts_valid i : shares_valid (demo_ts i).
Proof. done. Qed.

(** The state after our own share. *)
Definition demo_ts1 : ThresholdSign nat :=
  match sign (demo_ts 0) with Ok s _ => s | _ => demo_ts 0 end.

Lemma demo_ts1_ok : state_ok demo_ts1 ∧ shares_valid demo_ts1.
Proof.
  pose proof (call_spec sign (demo_ts 0) call_sign (demo_ts_ok 0)) as Hspec.
  unfold wp in Hspec. unfold demo_ts1. destruct (sign (demo_ts 0)) as [s' out|s' e| |]; try done.
  - destruct Hspec as [Hok ?]. split; [done|]. by apply (so_valid _ _ _ Hok), demo_ts_valid.
  - split; [apply demo_ts_ok|apply demo_ts_valid].
Qed.

Lemma output_is_verified_witness : ∃ s' out, handle_message 1 (demo_share 1) demo_ts1 = Ok s' out ∧
  output out = [(7, demo_doc)] ∧ ∃ g, doc_hash s' = Some g ∧ verified s' g (7, demo_doc).
Proof.
  pose proof (output_is_verified (handle_message 1 (demo_share 1)) demo_ts1
    (call_message 1 (demo_share 1)) (proj1 demo_ts1_ok)) as Hv.
  assert (Ho : match handle_message 1 (demo_share 1) demo_ts1 with
    | Ok s' out => output out | _ => [] end = [(7, demo_doc)]) by (vm_compute; reflexivity).
  destruct (handle_message 1 (demo_share 1) demo_ts1) as [s' out|s' e| |]; try done.
  exists s', out. split; [done|]. split; [done|]. destruct Hv as (_ & _ & Hv).
  destruct (Hv (7, demo_doc)) as (_ & _ & _ & Hg); [rewrite Ho; by left|exact Hg].
Defined.

Lemma valid_shares_suffice_witness :
  match handle_message 1 (demo_share 1) demo_ts1 with
  | Ok s' out => ∃ sig, output out = [sig] ∧ verified demo_ts1 demo_doc sig
  | _ => False
  end.
Proof.
  pose proof (valid_shares_suffice demo_ts1 demo_doc 1 ((7, 1), demo_doc) (proj1 demo_ts1_ok)) as Hv.
  specialize (Hv ltac:(vm_compute; reflexivity) (proj2 demo_ts1_ok) ltac:(vm_compute; reflexivity)
    ltac:(vm_compute; reflexivity)).
  assert (Hok : match handle_message 1 (demo_share 1) demo_ts1 with Err _ _ => false | _ => true end = true)
    by (vm_compute; reflexivity).
  unfold demo_share in *. destruct (handle_message 1 _ demo_ts1) as [s' out|s' e| |]; try done.
  destruct Hv as (_ & _ & Hv). apply Hv; [vm_compute; reflexivity|vm_compute; lia].
Defined.

Lemma signature_agreement_witness : ∃ s' out,
  handle_message 1 (demo_share 1) demo_ts1 = Ok s' out ∧ output out = [(7, demo_doc)] ∧
  ((7, demo_doc) : nat * bytes) = (7, demo_doc).
Proof.
  assert (Ho : match handle_message 1 (demo_share 1) demo_ts1 with
    | Ok s' out => output out | _ => [] end = [(7, demo_doc)]) by (vm_compute; reflexivity).
  destruct (handle_message 1 (demo_share 1) demo_ts1) as [s' out|s' e| |] eqn:H1; try done.
  exists s', out. split; [done|]. split; [done|].
  apply (signature_agreement (handle_message 1 (demo_share 1)) (handle_message 1 (demo_share 1))
    demo_ts1 demo_ts1 s' s' out out (7, demo_doc) (7, demo_doc) demo_doc);
    [apply call_message|apply call_message|apply demo_ts1_ok|apply demo_ts1_ok|reflexivity
    |vm_compute; reflexivity|vm_compute; reflexivity|exact H1|exact H1
    |rewrite Ho; left|rewrite Ho; left].
Defined.
End threshold_sign.
