(* ===== verification/ThresholdDecrypt.v ===== *)
(** * Collaborative threshold decryption

    Models [src/threshold_decrypt.rs]: a ciphertext is set, shares are collected and
    checked, and more than [f] of them decrypt it.  What the decryption of shares
    guarantees is a law of the cryptographic crate, [ThresholdEncLaws]. *)
From S2P Require Import Prelude.
From S2P Require Import BTree.
From S2P Require Import Traits.
From S2P Require Import NetworkInfo.
From S2P Require Import Instances.

(** Documented behaviour of threshold encryption: a public key set has a threshold; valid
    shares with distinct indices, more than the threshold, decrypt a ciphertext to its
    plaintext, and fewer shares are an error. *)
Class ThresholdEncLaws `{Crypto} := {
  enc_threshold : PublicKeySet → nat;
  plaintext : PublicKeySet → Ciphertext → bytes;
  decrypt_valid pks shares ct :
    NoDup shares.*1 → enc_threshold pks < length shares →
    (∀ i share, (i, share) ∈ shares →
      pk_share_verify_decryption_share (pk_set_public_key_share pks i) share ct = true) →
    pk_set_decrypt pks shares ct = inr (plaintext pks ct);
  decrypt_few pks shares ct :
    length shares ≤ enc_threshold pks → ∃ e, pk_set_decrypt pks shares ct = inl e;
}.

Module threshold_decrypt.

Inductive Error `{Crypto} : Type :=
  | MultipleInputs (ct : Ciphertext)
  | InvalidCiphertext (ct : Ciphertext)
  | UnknownSender
  | Decryption (e : CryptoError)
  | CiphertextIsNone.

Inductive FaultKind : Type :=
  | MultipleDecryptionShares
  | UnverifiedDecryptionShareSender.

Inductive Message `{Crypto} : Type := Msg (share : DecryptionShare).

Record ThresholdDecrypt {N : Type} `{NodeIdT N, Crypto} : Type := mkTD {
  netinfo : NetworkInfo N;
  ciphertext : option Ciphertext;
  shares : gmap N (nat * DecryptionShare);
  had_input : bool;
  terminated : bool;
}.
Arguments ThresholdDecrypt N {_ _}.
#[global] Instance ThresholdDecrypt_settable {N} `{NodeIdT N, Crypto} : Settable (ThresholdDecrypt N) :=
  λ s, mkTD _ _ _ (netinfo s) (ciphertext s) (shares s) (had_input s) (terminated s).

Section td.
Context {N : Type} `{ord : NodeIdT N} `{crypto : Crypto}.
Abbreviation State := (ThresholdDecrypt N).
Abbreviation DStep := (Step Message bytes N FaultKind).
Abbreviation DM := (M State Error).

Definition new (ni : NetworkInfo N) : State := mkTD _ _ _ ni None ∅ false false.

Definition set_ciphertext (ct : Ciphertext) : DM () :=
  s ← get;
  if decide (is_Some (ciphertext s)) then throw (MultipleInputs ct)
  else if negb (ct_verify ct) then throw (InvalidCiphertext ct)
  else modify (λ s, s <| ciphertext := Some ct |>).

Definition sender_ids (s : State) : list N := keys (shares s).

Definition is_share_valid (s : State) (id : N) (share : DecryptionShare) : bool :=
  match ciphertext s with
  | None => true
  | Some ct =>
      match public_key_share (netinfo s) id with
      | None => false
      | Some pk => pk_share_verify_decryption_share pk share ct
      end
  end.

Definition remove_invalid_shares : DM (FaultLog N FaultKind) :=
  s ← get;
  let faulty_senders :=
    (filter (λ '(id, (_, share)), is_share_valid s id share = false) (entries (shares s))).*1 in
  for_acc (λ fault_log id,
    modify (λ s, s <| shares ::= delete id |>);;
    mret (faultlog_append id UnverifiedDecryptionShareSender fault_log)) faultlog_new faulty_senders.

(** The methods call each other; [start_decryption] is what [try_output] calls. *)
Definition try_output_with (start_decryption : DM DStep) : DM DStep :=
  s ← get;
  if terminated s || bool_decide (size (shares s) ≤ num_faulty (netinfo s)) then mret step_default
  else
    match ciphertext s with
    | None => mret step_default
    | Some ct =>
        modify (λ s, s <| terminated := true |>);;
        step ← start_decryption;
        s ← get;
        plaintext ← map_err Decryption
          (of_sum (pk_set_decrypt (public_key_set (netinfo s)) (values (shares s)) ct));
        mret (with_output step (Some plaintext))
    end.

Fixpoint start_decryption_fuel (fuel : nat) : DM DStep :=
  match fuel with
  | 0 => no_fuel
  | S fuel =>
      s ← get;
      if had_input s then mret step_default
      else
        ct ← ok_or (ciphertext s) CiphertextIsNone;
        faults ← remove_invalid_shares;
        let step := step_default <| fault_log ::= λ l, faultlog_extend l faults |> in
        modify (λ s, s <| had_input := true |>);;
        match node_index (netinfo s) (our_id (netinfo s)), secret_key_share (netinfo s) with
        | Some idx, Some sks =>
            let share := sk_share_decrypt_share_no_verify sks ct in
            let step := step <| messages ::= (.++ [target_message All (Msg share)]) |> in
            modify (λ s, s <| shares ::= <[our_id (netinfo s) := (idx, share)]> |>);;
            step' ← try_output_with (start_decryption_fuel fuel);
            mret (step_extend step step')
        | _, _ =>
            step' ← try_output_with (start_decryption_fuel fuel);
            mret (step_join step step')
        end
  end.

(** [start_decryption] may output and is then called again, and returns at once. *)
Definition start_decryption : DM DStep := start_decryption_fuel 2.
Definition try_output : DM DStep := try_output_with start_decryption.

Definition handle_message (sender_id : N) (message : Message) : DM DStep :=
  s ← get;
  if terminated s then mret step_default
  else
    idx ← ok_or (node_index (netinfo s) sender_id) UnknownSender;
    let '(Msg share) := message in
    if negb (is_share_valid s sender_id share) then
      mret (step_fault sender_id UnverifiedDecryptionShareSender)
    else
      modify (λ s, s <| shares ::= <[sender_id := (idx, share)]> |>);;
      if decide (is_Some (shares s !! sender_id)) then
        mret (step_fault sender_id MultipleDecryptionShares)
      else try_output.

(** [ConsensusProtocol] *)
Definition handle_input (input : ()) : DM DStep := start_decryption.
End td.

(** [new_with_ciphertext] *)
Definition new_with_ciphertext {N : Type} `{NodeIdT N, Crypto} (ni : NetworkInfo N) (ct : Ciphertext) :
    Error + ThresholdDecrypt N :=
  match set_ciphertext ct (new ni) with
  | Ok s _ => inr s
  | Err _ e => inl e
  | _ => inr (new ni)
  end.

(** ** Correctness *)
Section facts.
Context {N : Type} `{ord : NodeIdT N} `{crypto : Crypto} `{laws : !ThresholdEncLaws}.
Abbreviation State := (ThresholdDecrypt N).
Abbreviation DStep := (Step Message bytes N FaultKind).
Implicit Types (s : State) (out : DStep).

(** The stored shares have the index of their sender.  Shares that came before the
    ciphertext are unchecked, until we send our own: then they are all valid. *)
Definition shares_valid s : Prop := ∀ id i share,
  shares s !! id = Some (i, share) → is_share_valid s id share = true.

(** Our key share belongs to our index in the public key set. *)
Definition own_key_ok s : Prop := ∀ idx sks ct,
  node_index (netinfo s) (our_id (netinfo s)) = Some idx → secret_key_share (netinfo s) = Some sks →
  pk_share_verify_decryption_share (pk_set_public_key_share (public_key_set (netinfo s)) idx)
    (sk_share_decrypt_share_no_verify sks ct) ct = true.

Record base_ok s : Prop := {
  st_wf : netinfo_wf (netinfo s);
  st_key : own_key_ok s;
  st_threshold : enc_threshold (public_key_set (netinfo s)) = num_faulty (netinfo s);
  st_index id i share : shares s !! id = Some (i, share) → node_index (netinfo s) id = Some i;
  st_input : had_input s = true → is_Some (ciphertext s) ∧ shares_valid s;
}.
Definition state_ok s : Prop := base_ok s ∧ (terminated s = true → had_input s = true).

Record step_ok s s' out : Prop := {
  so_netinfo : netinfo s' = netinfo s;
  so_ciphertext : ciphertext s' = ciphertext s;
  so_valid : shares_valid s → shares_valid s';
  so_terminated : terminated s = true → terminated s' = true ∧ output out = [];
  so_output : output out = [] ∨ ∃ ct, ciphertext s = Some ct ∧
    output out = [plaintext (public_key_set (netinfo s)) ct] ∧ terminated s' = true;
}.

(** How a call fails: a decryption only if invalid shares had been stored. *)
Record failed s s' (e : Error) : Prop := {
  fa_netinfo : netinfo s' = netinfo s;
  fa_ciphertext : ciphertext s' = ciphertext s;
  fa_ok : state_ok s';
  fa_error : match e with
    | UnknownSender => s' = s
    | CiphertextIsNone => s' = s ∧ ciphertext s = None
    | Decryption _ => ¬ shares_valid s
    | _ => False
    end;
}.

Lemma td_step_ok_refl s out : output out = [] → step_ok s s out.
Proof. intros Ho. split; auto. Qed.

Lemma td_is_share_valid_eq s s' id sh :
  netinfo s' = netinfo s → ciphertext s' = ciphertext s →
  is_share_valid s' id sh = is_share_valid s id sh.
Proof. unfold is_share_valid. by intros -> ->. Qed.

Lemma td_NoDup_indices s : base_ok s → NoDup (values (shares s)).*1.
Proof.
  intros Hs. unfold values. rewrite <- list_fmap_compose. apply NoDup_fmap_2_strong.
  - intros [id [i sh]] [id' [i' sh']] Hin%elem_of_entries Hin'%elem_of_entries Heq. simpl in Heq. subst i'.
    pose proof (st_index _ Hs _ _ _ Hin) as Hi. pose proof (st_index _ Hs _ _ _ Hin') as Hi'.
    assert (id' = id) as -> by by eapply (wf_node_index_inj _ (st_wf _ Hs)). congruence.
  - apply (NoDup_fmap_1 fst), NoDup_keys.
Qed.

(** Valid shares decrypt to the plaintext, or there are too few of them. *)
Lemma decrypt_spec s ct :
  base_ok s → shares_valid s → ciphertext s = Some ct →
  (num_faulty (netinfo s) < size (shares s) ∧
   pk_set_decrypt (public_key_set (netinfo s)) (values (shares s)) ct =
     inr (plaintext (public_key_set (netinfo s)) ct)) ∨
  (size (shares s) ≤ num_faulty (netinfo s) ∧
   ∃ e, pk_set_decrypt (public_key_set (netinfo s)) (values (shares s)) ct = inl e).
Proof.
  intros Hs Hval Hct. rewrite <- (st_threshold _ Hs), <- length_values.
  destruct (decide (enc_threshold (public_key_set (netinfo s)) < length (values (shares s)))) as [Hn|Hn].
  - left. split; [done|]. apply decrypt_valid; [by apply td_NoDup_indices|done|].
    intros i sh [id Hid]%elem_of_values. specialize (Hval _ _ _ Hid).
    unfold is_share_valid in Hval. by rewrite Hct, (wf_share _ (st_wf _ Hs)), (st_index _ Hs _ _ _ Hid) in Hval.
  - right. split; [lia|]. apply decrypt_few. lia.
Qed.

Lemma td_remove_invalid_spec s :
  wp remove_invalid_shares s
    (λ s' _, ∃ rs, s' = s <| shares := rs |> ∧ rs ⊆ shares s ∧
      (∀ id i sh, rs !! id = Some (i, sh) → is_share_valid s id sh = true) ∧
      (∀ id i sh, shares s !! id = Some (i, sh) → is_share_valid s id sh = true →
        rs !! id = Some (i, sh))) (λ _ _, False).
Proof.
  unfold remove_invalid_shares. do 2 wp_step. set (l := (filter _ _).*1).
  assert (Hl : ∀ id, id ∈ l ↔ ∃ i sh, shares s !! id = Some (i, sh) ∧ is_share_valid s id sh = false).
  { intros id. unfold l. rewrite list_elem_of_fmap. split.
    - intros ([id' [i sh]] & -> & [Hf Hin%elem_of_entries]%list_elem_of_filter). by exists i, sh.
    - intros (i & sh & Hin & Hf). exists (id, (i, sh)). split; [done|].
      apply list_elem_of_filter. by rewrite elem_of_entries. }
  eapply wp_mono_ok; [apply (wp_for_acc _ (λ l' s' _, ∃ rs, s' = s <| shares := rs |> ∧
    rs ⊆ shares s ∧ (∀ id, id ∈ l' → id ∈ l) ∧
    (∀ id i sh, rs !! id = Some (i, sh) → is_share_valid s id sh = false → id ∈ l') ∧
    (∀ id i sh, shares s !! id = Some (i, sh) → id ∉ l → rs !! id = Some (i, sh))))|].
  - exists (shares s). split_and!; try done; [by destruct s|]. intros id i sh ? ?. apply Hl. eauto.
  - intros x l' s' acc (rs & -> & Hsub & Hin & Hinv & Hkeep). do 3 wp_step.
    exists (delete x rs). split_and!; [done| |..].
    + etrans; [apply delete_subseteq|done].
    + intros id ?. apply Hin. by right.
    + intros id i sh [Hne Hid]%lookup_delete_Some Hf. specialize (Hinv _ _ _ Hid Hf). set_solver.
    + intros id i sh Hid Hnl. rewrite lookup_delete_ne; [by apply Hkeep|].
      intros ->. apply Hnl, Hin. by left.
  - intros s' acc (rs & -> & Hsub & _ & Hinv & Hkeep). exists rs. split_and!; [done..| |].
    + intros id i sh Hid. apply not_false_iff_true. intros Hf.
      by destruct (not_elem_of_nil _ (Hinv _ _ _ Hid Hf)).
    + intros id i sh Hid Hv. apply Hkeep; [done|]. rewrite Hl. intros (i' & sh' & Hid' & Hf). congruence.
Qed.

(** Changing the shares. *)
Lemma set_shares_ok s s' :
  base_ok s → netinfo s' = netinfo s → ciphertext s' = ciphertext s →
  (∀ id i sh, shares s' !! id = Some (i, sh) → node_index (netinfo s) id = Some i) →
  (had_input s' = true → is_Some (ciphertext s) ∧
     ∀ id i sh, shares s' !! id = Some (i, sh) → is_share_valid s id sh = true) → base_ok s'.
Proof.
  intros [Hwf Hkey Hth Hidx Hin] Hni Hct Hi Hv. unfold own_key_ok in *.
  split; unfold own_key_ok; rewrite ?Hni, ?Hct; auto.
  intros [? Hval]%Hv. split; [done|]. intros id i sh Hid.
  rewrite (td_is_share_valid_eq s) by done. by eapply Hval.
Qed.

Lemma own_share_valid s ct idx sks :
  base_ok s → ciphertext s = Some ct →
  node_index (netinfo s) (our_id (netinfo s)) = Some idx → secret_key_share (netinfo s) = Some sks →
  is_share_valid s (our_id (netinfo s)) (sk_share_decrypt_share_no_verify sks ct) = true.
Proof.
  intros Hs Hct Hidx Hsks. unfold is_share_valid. rewrite Hct, (wf_share _ (st_wf _ Hs)), Hidx. simpl.
  by apply (st_key _ Hs).
Qed.

(** [start_decryption], up to its call of [try_output]: invalid shares are gone, ours is there. *)
Definition started s s' : Prop :=
  base_ok s' ∧ netinfo s' = netinfo s ∧ ciphertext s' = ciphertext s ∧
  terminated s' = terminated s ∧ had_input s' = true ∧ shares_valid s' ∧
  (shares_valid s → size (shares s) ≤ size (shares s')).

Lemma start_fuel_spec k s (Q : State → DStep → Prop) (R : State → Error → Prop) :
  base_ok s →
  (had_input s = true → Q s step_default) →
  (had_input s = false → ciphertext s = None → R s CiphertextIsNone) →
  (∀ s' st, started s s' → output st = [] →
    wp (try_output_with (start_decryption_fuel k)) s' (λ s'' out, Q s'' (step_extend st out)) R) →
  wp (start_decryption_fuel (S k)) s Q R.
Proof.
  intros Hs Hdone Hnone Htry. cbn [start_decryption_fuel]. do 2 wp_step.
  destruct (had_input s) eqn:Hin; [by apply wp_ret, Hdone|].
  wp_step. apply wp_ok_or; [intros ct Hct|by apply Hnone]. wp_step.
  eapply wp_mono; [apply td_remove_invalid_spec| |done].
  intros s1 faults (rs & -> & Hsub & Hval & Hkeep). do 2 wp_step.
  assert (Hidx : ∀ id i sh, rs !! id = Some (i, sh) → node_index (netinfo s) id = Some i).
  { intros id i sh Hid. eapply (st_index _ Hs). by eapply lookup_weaken. }
  assert (Hsize : shares_valid s → rs = shares s).
  { intros Hv. apply (anti_symm (⊆)); [done|]. apply map_subseteq_spec. intros id [i sh] Hid.
    apply Hkeep; [done|]. by eapply Hv. }
  assert (Hstart : ∀ s', netinfo s' = netinfo s → ciphertext s' = ciphertext s →
    terminated s' = terminated s → had_input s' = true →
    (∀ id i sh, shares s' !! id = Some (i, sh) →
      is_share_valid s id sh = true ∧ node_index (netinfo s) id = Some i) →
    size rs ≤ size (shares s') → started s s').
  { intros s' Hni Hct' Ht Hi Hsh Hsz. split_and!; try done.
    - apply (set_shares_ok s); try done; [by intros; eapply Hsh|]. intros _. split; [by rewrite Hct|].
      intros. by eapply Hsh.
    - intros id i sh Hid. rewrite (td_is_share_valid_eq s) by done. by eapply Hsh.
    - intros Hv. by rewrite <- (Hsize Hv). }
  set (s2 := s <| shares := rs |> <| had_input := true |>).
  assert (Hs2 : started s s2) by (apply Hstart; [done..|intros; split; [by eapply Hval|by eapply Hidx]|done]).
  destruct (node_index (netinfo s) (our_id (netinfo s))) as [idx|] eqn:Hoi;
    [destruct (secret_key_share (netinfo s)) as [sks|] eqn:Hsks|].
  - do 3 wp_step. fold s2. eapply wp_mono; [apply Htry| |done]; cycle 2.
    + intros s' out HQ. apply wp_ret. exact HQ.
    + apply Hstart; try done.
      * intros id i sh. cbn. rewrite lookup_insert. case_decide as Heq; [subst id|].
        -- intros [= <- <-]. split; [by eapply own_share_valid|done].
        -- intros Hid. split; [by eapply Hval|by eapply Hidx].
      * cbn. destruct (rs !! our_id (netinfo s)) eqn:Hrs.
        -- by erewrite map_size_insert_Some by done.
        -- rewrite map_size_insert_None by done. lia.
    + done.
  - wp_step. fold s2. eapply wp_mono; [apply Htry; [exact Hs2|]| |done]; cycle 1.
    + intros s' out HQ. apply wp_ret. exact HQ.
    + done.
  - wp_step. fold s2. eapply wp_mono; [apply Htry; [exact Hs2|]| |done]; cycle 1.
    + intros s' out HQ. apply wp_ret. exact HQ.
    + done.
Qed.

Lemma start_terminated k s ct :
  base_ok s → terminated s = true → ciphertext s = Some ct →
  wp (start_decryption_fuel (S k)) s
    (λ s' out, output out = [] ∧ started s s') (λ _ _, False).
Proof.
  intros Hs Ht Hct. apply start_fuel_spec; [done|..].
  - intros Hin. split; [done|]. split_and!; try done. by apply (st_input _ Hs).
  - congruence.
  - intros s' st Hst Ho. unfold try_output_with. do 2 wp_step.
    pose proof Hst as (_ & _ & _ & Ht' & _). rewrite Ht', Ht. apply wp_ret. simpl. by rewrite Ho.
Qed.

Lemma td_try_output_spec k s :
  base_ok s → (terminated s = true → had_input s = true) →
  wp (try_output_with (start_decryption_fuel (S k))) s
    (λ s' out, step_ok s s' out ∧ state_ok s' ∧
      (terminated s = false → is_Some (ciphertext s) → num_faulty (netinfo s) < size (shares s) →
       output out ≠ []))
    (λ s' e, failed s s' e ∧ ∃ x, e = Decryption x).
Proof.
  intros Hs Hterm. unfold try_output_with. do 2 wp_step. destruct (_ || _) eqn:Hc.
  { apply wp_ret. split_and!; [by apply td_step_ok_refl|done|].
    intros Ht _ Hn. rewrite Ht in Hc. apply bool_decide_eq_true in Hc. lia. }
  apply orb_false_iff in Hc as [Ht Hn%bool_decide_eq_false].
  destruct (ciphertext s) as [ct|] eqn:Hct.
  2: { apply wp_ret. split_and!; [by apply td_step_ok_refl|done|]. by intros _ [? ?]. }
  do 3 wp_step. set (s1 := s <| terminated := true |>).
  assert (Hs1 : base_ok s1) by (destruct Hs; by split).
  eapply wp_mono; [by apply (start_terminated k s1 ct)| |done].
  intros s2 out [Ho (Hs2 & Hni & Hct2 & Ht2 & Hin2 & Hval2 & Hsz)]. do 4 wp_step.
  change (netinfo s1) with (netinfo s) in *.
  assert (Hct2' : ciphertext s2 = Some ct) by (by rewrite Hct2).
  destruct (decrypt_spec s2 ct Hs2 Hval2 Hct2') as [[Hn2 ->]|[Hn2 [e ->]]]; cbn [of_sum].
  - do 2 apply wp_ret. split_and!; [split; auto| |].
    + congruence.
    + right. exists ct. simpl. by rewrite Ho, Hni.
    + split; [done|]. by intros _.
    + intros _ _ _. simpl. by rewrite Ho.
  - apply wp_throw. split; [|by eexists]. split; auto; [split; [done|]; by intros _|]. intros Hv.
    specialize (Hsz Hv). rewrite Hni in Hn2. change (shares s1) with (shares s) in Hsz. lia.
Qed.

Lemma start_spec s :
  state_ok s → wp start_decryption s (λ s' out, step_ok s s' out ∧ state_ok s') (failed s).
Proof.
  intros [Hs Hterm]. apply start_fuel_spec; [done|..].
  - intros Hin. by split; [apply td_step_ok_refl|].
  - intros Hin Hct. split; auto. by split.
  - intros s1 st (Hs1 & Hni & Hct & Ht & Hin & Hval & _) Ho.
    eapply wp_mono; [by apply (td_try_output_spec 0)| |].
    + intros s' out ([] & Hs' & _). split; [split|done]; simpl; rewrite ?Ho; try congruence; auto.
      * intros Htt. apply so_terminated0. congruence.
      * destruct so_output0 as [?|(ct & ? & ? & ?)]; [by left|right]. exists ct.
        by rewrite <- Hct, <- Hni.
    + intros s' e [[? ? ? He] [x ->]]. by destruct He.
Qed.

(** Once the ciphertext is set, starting does not fail, and leaves only valid shares. *)
Lemma start_with_ciphertext s ct :
  state_ok s → ciphertext s = Some ct → had_input s = false →
  wp start_decryption s (λ s' out, step_ok s s' out ∧ state_ok s' ∧ shares_valid s') (λ _ _, False).
Proof.
  intros [Hs Hterm] Hct Hin. apply start_fuel_spec; [done|congruence|congruence|].
  intros s1 st (Hs1 & Hni & Hct1 & Ht & Hin1 & Hval & _) Ho.
  eapply wp_mono; [by apply (td_try_output_spec 0)| |].
  - intros s' out ([] & Hs' & _). split; [split|split; [done|by auto]]; simpl; rewrite ?Ho; try congruence; auto.
    + intros Htt. apply so_terminated0. congruence.
    + destruct so_output0 as [?|(ct' & ? & ? & ?)]; [by left|right]. exists ct'.
      by rewrite <- Hct1, <- Hni.
  - intros s' err [[? ? ? He] [x ->]]. by destruct He.
Qed.

Lemma td_handle_message_spec id share s :
  state_ok s →
  wp (handle_message id (Msg share)) s
    (λ s' out, step_ok s s' out ∧ state_ok s' ∧
      (terminated s = false → is_Some (ciphertext s) → shares s !! id = None →
       is_share_valid s id share = true → num_faulty (netinfo s) ≤ size (shares s) → output out ≠ []))
    (λ s' e, failed s s' e ∧ (e = UnknownSender → node_index (netinfo s) id = None)).
Proof.
  intros [Hs Hterm]. unfold handle_message. do 2 wp_step.
  destruct (terminated s) eqn:Ht.
  { apply wp_ret; split_and!; [by apply td_step_ok_refl|by split; [|rewrite Ht]|done]. }
  wp_step. apply wp_ok_or; [intros idx Hidx|].
  2: { intros Hidx. split; [|done]. split; auto. by split; [|rewrite Ht]. }
  destruct (is_share_valid s id share) eqn:Hv; cbn [negb].
  2: { apply wp_ret; split_and!; [by apply td_step_ok_refl|by split; [|rewrite Ht]|].
       intros _ _ _ Hv'. congruence. }
  do 2 wp_step. set (s1 := s <| shares ::= _ |>).
  assert (Hsh : ∀ i j sh, shares s1 !! i = Some (j, sh) →
    (i = id ∧ j = idx ∧ sh = share) ∨ shares s !! i = Some (j, sh)).
  { intros i j sh. cbn. rewrite lookup_insert. case_decide as Heq; [subst i; intros [= <- <-]|]; auto. }
  assert (Hs1 : base_ok s1).
  { apply (set_shares_ok s); try done.
    - intros i j sh [(-> & -> & _)|Hid]%Hsh; [done|by eapply (st_index _ Hs)].
    - intros [Hct Hval]%(st_input _ Hs). split; [done|].
      intros i j sh [(-> & _ & ->)|Hid]%Hsh; [done|by eapply Hval]. }
  assert (Hval1 : shares_valid s → shares_valid s1).
  { intros Hval i j sh Hid. rewrite (td_is_share_valid_eq s) by done.
    apply Hsh in Hid as [(-> & _ & ->)|Hid]; [done|by eapply Hval]. }
  assert (Hterm1 : terminated s1 = true → had_input s1 = true)
    by (change (terminated s1) with (terminated s); congruence).
  case_decide as Hdup.
  - apply wp_ret. split_and!; [split; auto; congruence|by split|]. intros _ _ Hnone. by rewrite Hnone in Hdup; destruct Hdup.
  - eapply wp_mono; [by apply (td_try_output_spec 1)| |].
    + intros s' out ([] & Hs' & Hlive). split_and!; [split|done|]; auto; try congruence.
      * intros _ Hct Hnone _ Hn. apply Hlive; [done|done|]. cbn. rewrite map_size_insert_None by done. lia.
    + intros s' e [[] [x ->]]. split; [split; auto|done].
Qed.

(** The public methods. *)
Inductive call : M State Error DStep → Prop :=
  | call_start : call start_decryption
  | call_message id msg : call (handle_message id msg).

(** C27: Whatever an instance outputs is the plaintext of the ciphertext that was set, so all correct
    nodes that are given one ciphertext output the same bytes; it outputs at most once.
    This holds for every call from every state, also if faulty nodes sent shares before
    the ciphertext was known. *)
Theorem output_is_plaintext m s :
  call m → state_ok s →
  match m s with
  | Ok s' out => state_ok s' ∧ (terminated s = true → output out = []) ∧
      (output out = [] ∨ ∃ ct, ciphertext s' = Some ct ∧ terminated s' = true ∧
        output out = [plaintext (public_key_set (netinfo s')) ct])
  | Err s' e => state_ok s'
  | Panic | NoFuel => False
  end.
Proof.
  intros Hm Hs.
  assert (Hspec : wp m s (λ s' out, step_ok s s' out ∧ state_ok s') (failed s)).
  { destruct Hm as [|id [share]]; [by apply start_spec|].
    eapply wp_mono; [by apply td_handle_message_spec|by intros ? ? (? & ? & _)|by intros ? ? []]. }
  unfold wp in Hspec. destruct (m s) as [s' out|s' e| |]; [|by apply Hspec|done..].
  destruct Hspec as [Hok Hs']. split_and!; [done|by intros Ht; apply (so_terminated _ _ _ Hok)|].
  destruct (so_output _ _ _ Hok) as [?|(ct & Hct & Ho & Ht)]; [by left|right]. exists ct.
  by rewrite (so_ciphertext _ _ _ Hok), (so_netinfo _ _ _ Hok).
Qed.

(** C33: An instance whose stored shares are valid, as they are once the ciphertext is set before the
    first share arrives, cannot be stopped: a message fails only if its sender is not a
    validator, all stored shares stay valid, and the share that makes them more than [f]
    outputs the plaintext. *)
Theorem valid_shares_decrypt s ct id share :
  state_ok s → ciphertext s = Some ct → shares_valid s →
  match handle_message id (Msg share) s with
  | Ok s' out => state_ok s' ∧ shares_valid s' ∧
      (terminated s = false → shares s !! id = None → is_share_valid s id share = true →
       num_faulty (netinfo s) ≤ size (shares s) →
       output out = [plaintext (public_key_set (netinfo s)) ct])
  | Err s' e => e = UnknownSender ∧ node_index (netinfo s) id = None ∧ s' = s
  | Panic | NoFuel => False
  end.
Proof.
  intros Hs Hct Hval. pose proof (td_handle_message_spec id share s Hs) as Hspec. unfold wp in Hspec.
  destruct (handle_message id (Msg share) s) as [s' out|s' e| |]; [..|done|done].
  - destruct Hspec as (Hok & Hs' & Hlive). split; [done|split; [by apply (so_valid _ _ _ Hok)|]].
    intros Ht Hnone Hv Hn. destruct (so_output _ _ _ Hok) as [Ho|(ct' & Hct' & Ho & _)]; [|congruence].
    exfalso. apply Hlive; try done. all: by rewrite ?Hct. 
  - destruct Hspec as [[? ? ? He] Hidx]. destruct e; try done.
    + split_and!; [done|by apply Hidx|done].
    + destruct He. congruence.
Qed.
End facts.

(** ** Instances and examples *)
#[export] Instance number_enc_laws : @ThresholdEncLaws number_crypto.
Proof.
  refine (@Build_ThresholdEncLaws number_crypto (λ pks, pks.2) (λ _ ct, ct.2) _ _).
  - intros pks shares ct _ Hn _. simpl in *. by rewrite decide_True.
  - intros pks shares ct Hn. simpl in *. rewrite decide_False by lia. by exists ().
Defined.

Definition demo_ct : @Ciphertext number_crypto := (7, ["B"]%byte).
Definition demo_td (i : nat) : ThresholdDecrypt nat :=
  mkTD _ _ number_crypto (four_netinfo i) (Some demo_ct) ∅ false false.
Definition demo_share (i : nat) : Message := @Msg number_crypto ((7, i), ["B"]%byte).

Lemma demo_td_new i : new_with_ciphertext (four_netinfo i) demo_ct = inr (demo_td i).
Proof. reflexivity. Qed.

Lemma demo_td_ok : state_ok (demo_td 0) ∧ shares_valid (demo_td 0).
Proof.
  split; [split; [split|]|]; try done.
  - by apply four_netinfo_ok.
  - intros idx sks ct Hidx Hsks. vm_compute in Hidx, Hsks. injection Hidx as <-. injection Hsks as <-.
    by apply bool_decide_eq_true.
Qed.

(** The state after our own share. *)
Definition demo_td1 : ThresholdDecrypt nat :=
  match start_decryption (demo_td 0) with Ok s _ => s | _ => demo_td 0 end.

Lemma demo_td1_ok : state_ok demo_td1 ∧ shares_valid demo_td1.
Proof.
  pose proof (start_spec (demo_td 0) (proj1 demo_td_ok)) as Hspec. unfold wp in Hspec.
  unfold demo_td1. destruct (start_decryption (demo_td 0)) as [s' out|s' e| |]; try apply demo_td_ok.
  destruct Hspec as [Hok ?]. split; [done|]. by apply (so_valid _ _ _ Hok), demo_td_ok.
Qed.

Lemma output_is_plaintext_witness : ∃ s' out,
  handle_message 1 (demo_share 1) demo_td1 = Ok s' out ∧ state_ok s' ∧
  (output out = [] ∨ ∃ ct, ciphertext s' = Some ct ∧ terminated s' = true ∧
    output out = [plaintext (public_key_set (netinfo s')) ct]).
Proof.
  pose proof (output_is_plaintext (handle_message 1 (demo_share 1)) demo_td1
    (call_message 1 (demo_share 1)) (proj1 demo_td1_ok)) as Hv.
  assert (Hok : match handle_message 1 (demo_share 1) demo_td1 with Ok _ _ => true | _ => false end = true)
    by (vm_compute; reflexivity).
  destruct (handle_message 1 (demo_share 1) demo_td1) as [s' out|s' e| |]; try done.
  exists s', out. split; [done|]. split; apply Hv.
Defined.

Lemma valid_shares_decrypt_witness :
  match handle_message 1 (demo_share 1) demo_td1 with
  | Ok s' out => output out = [["B"]%byte]
  | _ => False
  end.
Proof.
  pose proof (valid_shares_decrypt demo_td1 demo_ct 1 ((7, 1), ["B"]%byte) (proj1 demo_td1_ok)
    ltac:(vm_compute; reflexivity) (proj2 demo_td1_ok)) as Hv.
  assert (Hok : match handle_message 1 (demo_share 1) demo_td1 with Err _ _ => false | _ => true end = true)
    by (vm_compute; reflexivity).
  unfold demo_share in *. destruct (handle_message 1 _ demo_td1) as [s' out|s' e| |]; try done.
  destruct Hv as (_ & _ & Hv). apply Hv; [vm_compute; reflexivity..|vm_compute; lia].
Defined.
End threshold_decrypt.
