(* ===== verification/BinaryAgreement.v ===== *)
(** * Binary agreement

    Models [src/binary_agreement/binary_agreement.rs] and the messages, errors and faults
    of [mod.rs].  Each epoch runs a synchronized binary value broadcast, a [Conf] round
    and a coin, [ThresholdSign] on the session and the epoch, or a fixed value.
    [bincode::serialize] of a session and an epoch is a parameter. *)
From S2P Require Import Prelude.
From S2P Require Import BTree.
From S2P Require Import Traits.
From S2P Require Import NetworkInfo.
From S2P Require Import BoolSet.
From S2P Require Import SbvBroadcast.
From S2P Require Import ThresholdSign.

(** [SessionIdT] with [bincode::serialize(&(&session_id, epoch))]; [None] is an error. *)
Class SessionIdT (Sid : Type) := { serialize_coin_id : Sid → u64 → option bytes }.
#[global] Hint Mode SessionIdT ! : typeclass_instances.

Module binary_agreement.

Inductive Error `{Crypto} : Type :=
  | HandleThresholdSign (e : threshold_sign.Error)
  | InvokeCoin (e : threshold_sign.Error)
  | Serialize.

Inductive FaultKind : Type :=
  | DuplicateBVal
  | DuplicateAux
  | MultipleConf
  | MultipleTerm
  | AgreementEpoch
  | CoinFault (k : threshold_sign.FaultKind).

(** The broadcast uses the fault kinds of this module. *)
Definition of_sbv_fault (k : sbv_broadcast.FaultKind) : FaultKind :=
  match k with
  | sbv_broadcast.DuplicateBVal => DuplicateBVal
  | sbv_broadcast.DuplicateAux => DuplicateAux
  end.
Definition of_sbv_error `{Crypto} (e : sbv_broadcast.Error) : Error := match e with end.

(** ** Messages *)
Inductive MessageContent `{Crypto} : Type :=
  | SbvBroadcast (m : sbv_broadcast.Message)
  | Conf (v : BoolSet)
  | Term (b : bool)
  | Coin (m : threshold_sign.Message).

Record Message `{Crypto} : Type := mkMessage {
  msg_epoch : u64;
  content : MessageContent;
}.
Definition with_epoch `{Crypto} (c : MessageContent) (epoch : u64) : Message :=
  mkMessage _ epoch c.
Definition can_expire `{Crypto} (c : MessageContent) : bool :=
  match c with Term _ => false | _ => true end.

#[global] Instance ts_message_eq_dec `{Crypto, !EqDecision SignatureShare} :
  EqDecision threshold_sign.Message.
Proof. solve_decision. Defined.
#[global] Instance content_eq_dec `{Crypto, !EqDecision SignatureShare} : EqDecision MessageContent.
Proof. solve_decision. Defined.
#[global] Instance message_eq_dec `{Crypto, !EqDecision SignatureShare} : EqDecision Message.
Proof. solve_decision. Defined.

(** ** The messages of a later epoch that one node sent *)
Record ReceivedMessages `{Crypto} : Type := mkReceived {
  rm_bval : BoolSet;
  rm_aux : BoolSet;
  rm_conf : option BoolSet;
  rm_term : option bool;
  rm_coin : option SignatureShare;
}.
#[global] Instance ReceivedMessages_settable `{Crypto} : Settable ReceivedMessages := λ s,
  mkReceived _ (rm_bval s) (rm_aux s) (rm_conf s) (rm_term s) (rm_coin s).

Definition received_new `{Crypto} : ReceivedMessages :=
  mkReceived _ bool_set.NONE bool_set.NONE None None None.

Definition received_insert `{Crypto} (c : MessageContent) (r : ReceivedMessages) :
    ReceivedMessages * option FaultKind :=
  match c with
  | SbvBroadcast (sbv_broadcast.BVal b) =>
      let '(v, new) := bool_set.insert b (rm_bval r) in
      (r <| rm_bval := v |>, if negb new then Some DuplicateBVal else None)
  | SbvBroadcast (sbv_broadcast.Aux b) =>
      let '(v, new) := bool_set.insert b (rm_aux r) in
      (r <| rm_aux := v |>, if negb new then Some DuplicateAux else None)
  | Conf bs =>
      match rm_conf r with
      | None => (r <| rm_conf := Some bs |>, None)
      | Some _ => (r, Some MultipleConf)
      end
  | Term b =>
      match rm_term r with
      | None => (r <| rm_term := Some b |>, None)
      | Some _ => (r, Some MultipleTerm)
      end
  | Coin (threshold_sign.Msg share) =>
      match rm_coin r with
      | None => (r <| rm_coin := Some share |>, None)
      | Some _ => (r, Some AgreementEpoch)
      end
  end.

Definition received_messages `{Crypto} (r : ReceivedMessages) : list MessageContent :=
  ((λ b, SbvBroadcast (sbv_broadcast.BVal b)) <$> bool_set.iter (rm_bval r)) ++
  ((λ b, SbvBroadcast (sbv_broadcast.Aux b)) <$> bool_set.iter (rm_aux r)) ++
  option_list (Conf <$> rm_conf r) ++
  option_list (Term <$> rm_term r) ++
  option_list ((λ ss, Coin (threshold_sign.Msg ss)) <$> rm_coin r).

(** ** The state *)
Inductive CoinState {N : Type} `{NodeIdT N, Crypto} : Type :=
  | Decided (value : bool)
  | InProgress (ts : threshold_sign.ThresholdSign N).
Arguments CoinState N {_ _}.
Definition coin_value {N} `{NodeIdT N, Crypto} (c : CoinState N) : option bool :=
  match c with Decided value => Some value | InProgress _ => None end.

Record BinaryAgreement {N Sid : Type} `{NodeIdT N, Crypto} : Type := mkBA {
  netinfo : NetworkInfo N;
  session_id : Sid;
  epoch : u64;
  max_future_epochs : u64;
  sbv_broadcast : sbv_broadcast.SbvBroadcast N;
  received_conf : gmap N BoolSet;
  received_term : BoolMultimap N;
  estimated : option bool;
  decision : option bool;
  incoming_queue : gmap u64 (gmap N ReceivedMessages);
  conf_values : option BoolSet;
  coin_state : CoinState N;
}.
Arguments BinaryAgreement N Sid {_ _}.
#[global] Instance BinaryAgreement_settable {N Sid} `{NodeIdT N, Crypto} :
    Settable (BinaryAgreement N Sid) := λ s,
  mkBA _ _ _ _ (netinfo s) (session_id s) (epoch s) (max_future_epochs s) (sbv_broadcast s)
    (received_conf s) (received_term s) (estimated s) (decision s) (incoming_queue s)
    (conf_values s) (coin_state s).

Section ba.
Context {N Sid : Type} `{ord : NodeIdT N} `{crypto : Crypto} `{sid : !SessionIdT Sid}.
Abbreviation State := (BinaryAgreement N Sid).
Abbreviation BStep := (Step Message bool N FaultKind).
Abbreviation SbvStep := (Step sbv_broadcast.Message BoolSet N sbv_broadcast.FaultKind).
Abbreviation TsStep := (Step threshold_sign.Message Signature N threshold_sign.FaultKind).

Definition new (ni : NetworkInfo N) (session : Sid) : State :=
  mkBA _ _ _ _ ni session 0 1000 (sbv_broadcast.new ni) ∅ bm_default None None ∅ None
    (Decided true).

Definition our_id (s : State) : N := NetworkInfo.our_id (netinfo s).
Definition terminated (s : State) : bool := bool_decide (is_Some (decision s)).
Definition can_propose (s : State) : bool :=
  bool_decide (epoch s = 0%Z) && bool_decide (estimated s = None).

(** A method of the broadcast, of the coin *)
Definition on_sbv {A} (m : M (sbv_broadcast.SbvBroadcast N) sbv_broadcast.Error A) : M State Error A :=
  map_err of_sbv_error (zoom sbv_broadcast (λ t s, s <| sbv_broadcast := t |>) m).
Definition on_coin {A} (ts : threshold_sign.ThresholdSign N)
    (m : M (threshold_sign.ThresholdSign N) threshold_sign.Error A) :
    M State threshold_sign.Error A :=
  zoom (λ _, ts) (λ ts s, s <| coin_state := InProgress ts |>) m.

(** The coin of the current epoch: [true, false, coin, true, false, coin, ...]. *)
Definition new_coin_state : M State Error (CoinState N) :=
  s ← get;
  match (epoch s mod 3)%Z with
  | 0%Z => mret (Decided true)
  | 1%Z => mret (Decided false)
  | _ =>
      coin_id ← ok_or (serialize_coin_id (session_id s) (epoch s)) Serialize;
      match threshold_sign.set_document coin_id (threshold_sign.new (netinfo s)) with
      | Ok ts _ => mret (InProgress ts)
      | Err _ e => throw (InvokeCoin e)
      | Panic => panic
      | NoFuel => no_fuel
      end
  end.

Definition count_conf (s : State) : nat :=
  length (filter (λ conf,
      bool_set.is_subset conf (sbv_broadcast.bin_values (sbv_broadcast s)) = true)
    (values (received_conf s))).

Definition decide_value (b : bool) : M State Error BStep :=
  s ← get;
  if decide (is_Some (decision s)) then mret step_default
  else
    let step := with_output step_default (Some b) in
    modify (λ s, s <| decision := Some b |>);;
    s ← get;
    if is_validator (netinfo s) then
      let msg := with_epoch (Term b) (u64_add (epoch s) 1) in
      mret (step <| messages ::= (.++ [target_message All msg]) |>)
    else mret step.

(** The handlers, given how an epoch ends ([update_epoch]). *)
Section handlers.
Context (update_epoch : bool → M State Error BStep).

Definition try_update_epoch : M State Error BStep :=
  s ← get;
  if decide (is_Some (decision s)) then mret step_default
  else
    match coin_value (coin_state s) with
    | None => mret step_default
    | Some coin =>
        match conf_values s with
        | None => mret step_default
        | Some values =>
            let def_bin_value := bool_set.definite values in
            if decide (Some coin = def_bin_value) then decide_value coin
            else update_epoch (default coin def_bin_value)
        end
    end.

Definition on_coin_step (ts_step : TsStep) : M State Error BStep :=
  s ← get;
  let epoch := epoch s in
  let '(step, ts_output) :=
    extend_with step_default ts_step CoinFault (λ c_msg, with_epoch (Coin c_msg) epoch) in
  match ts_output with
  | [] => mret step
  | sig :: _ =>
      modify (λ s, s <| coin_state := Decided (sig_parity sig) |>);;
      step' ← try_update_epoch;
      mret (step_extend step step')
  end.

Definition try_finish_conf_round : M State Error BStep :=
  s ← get;
  if bool_decide (conf_values s = None) || bool_decide (count_conf s < num_correct (netinfo s))
  then mret step_default
  else
    match coin_state s with
    | Decided _ => mret step_default
    | InProgress ts =>
        ts_step ← map_err InvokeCoin (on_coin ts threshold_sign.sign);
        step ← on_coin_step ts_step;
        step' ← try_update_epoch;
        mret (step_join step step')
    end.

Definition handle_conf (sender_id : N) (v : BoolSet) : M State Error BStep :=
  modify (λ s, s <| received_conf ::= <[sender_id := v]> |>);;
  try_finish_conf_round.

Definition handle_coin (sender_id : N) (msg : threshold_sign.Message) : M State Error BStep :=
  s ← get;
  match coin_state s with
  | Decided _ => mret step_default
  | InProgress ts =>
      ts_step ← map_err HandleThresholdSign (on_coin ts (threshold_sign.handle_message sender_id msg));
      on_coin_step ts_step
  end.

(** [send], given the handler for our own message *)
Definition send_with (handle_message_content : N → MessageContent → M State Error BStep)
    (content : MessageContent) : M State Error BStep :=
  s ← get;
  if negb (is_validator (netinfo s)) then mret step_default
  else
    let step := step_from_msg (target_message All (with_epoch content (epoch s))) in
    step' ← handle_message_content (our_id s) content;
    mret (step_join step step').

Definition send_conf_with (handle_message_content : N → MessageContent → M State Error BStep)
    (values : BoolSet) : M State Error BStep :=
  s ← get;
  if decide (is_Some (conf_values s)) then mret step_default
  else
    modify (λ s, s <| conf_values := Some values |>);;
    if negb (is_validator (netinfo s)) then try_finish_conf_round
    else send_with handle_message_content (Conf values).

Definition handle_sbvb_step_with (handle_message_content : N → MessageContent → M State Error BStep)
    (sbvb_step : SbvStep) : M State Error BStep :=
  s ← get;
  let '(step, output) :=
    extend_with step_default sbvb_step of_sbv_fault (λ msg, with_epoch (SbvBroadcast msg) (epoch s)) in
  if decide (is_Some (conf_values s)) then mret step
  else
    match output with
    | [] => mret step
    | aux_vals :: _ =>
        match coin_state s with
        | Decided _ =>
            modify (λ s, s <| conf_values := Some aux_vals |>);;
            step' ← try_update_epoch;
            mret (step_extend step step')
        | InProgress _ =>
            step' ← send_conf_with handle_message_content aux_vals;
            mret (step_extend step step')
        end
    end.

Definition handle_sbv_broadcast_with (handle_message_content : N → MessageContent → M State Error BStep)
    (sender_id : N) (msg : sbv_broadcast.Message) : M State Error BStep :=
  sbvb_step ← on_sbv (sbv_broadcast.handle_message sender_id msg);
  handle_sbvb_step_with handle_message_content sbvb_step.

Definition handle_term_with (handle_message_content : N → MessageContent → M State Error BStep)
    (sender_id : N) (b : bool) : M State Error BStep :=
  modify (λ s, s <| received_term ::= bm_insert b sender_id |>);;
  s ← get;
  if decide (is_Some (decision s)) then mret step_default
  else if decide (num_faulty (netinfo s) < size (bm_index (received_term s) b)) then decide_value b
  else
    sbvb_step ← on_sbv (sbv_broadcast.handle_bval sender_id b);
    sbvb_step' ← on_sbv (sbv_broadcast.handle_aux sender_id b);
    step ← handle_sbvb_step_with handle_message_content (step_extend sbvb_step sbvb_step');
    step' ← handle_conf sender_id (bool_set.from_bool b);
    mret (step_join step step').

Definition handle_message_content_with
    (handle_message_content : N → MessageContent → M State Error BStep)
    (sender_id : N) (content : MessageContent) : M State Error BStep :=
  match content with
  | SbvBroadcast msg => handle_sbv_broadcast_with handle_message_content sender_id msg
  | Conf v => handle_conf sender_id v
  | Term v => handle_term_with handle_message_content sender_id v
  | Coin msg => handle_coin sender_id msg
  end.

(** The only message that is sent and handled in this way is our [Conf], which sends
    nothing: two levels. *)
Definition handle_message_content : N → MessageContent → M State Error BStep :=
  handle_message_content_with (handle_message_content_with (λ _ _, no_fuel)).
Definition handle_sbvb_step : SbvStep → M State Error BStep :=
  handle_sbvb_step_with (handle_message_content_with (λ _ _, no_fuel)).

(** The loop over the queued messages of the new epoch, with its early return. *)
Fixpoint handle_queued (epoch0 : u64) (step : BStep) (l : list (N * MessageContent)) :
    M State Error BStep :=
  match l with
  | [] => mret step
  | (sender_id, m) :: l =>
      step' ← handle_message_content sender_id m;
      let step := step_extend step step' in
      s ← get;
      if bool_decide (is_Some (decision s)) || bool_decide (epoch0 < epoch s)%Z then mret step
      else handle_queued epoch0 step l
  end.

Definition update_epoch_with (b : bool) : M State Error BStep :=
  modify (λ s, s <| sbv_broadcast ::= sbv_broadcast.clear (received_term s) |>);;
  modify (λ s, s <| received_conf := ∅ |>);;
  modify (λ s, s <| received_conf :=
    foldl (λ m '(v, id), <[id := bool_set.from_bool v]> m) (received_conf s)
      (bm_iter (received_term s)) |>);;
  modify (λ s, s <| conf_values := None |>);;
  modify (λ s, s <| epoch ::= λ e, u64_add e 1 |>);;
  c ← new_coin_state;
  modify (λ s, s <| coin_state := c |>);;
  modify (λ s, s <| estimated := Some b |>);;
  sbvb_step ← on_sbv (sbv_broadcast.send_bval b);
  step ← handle_sbvb_step sbvb_step;
  s ← get;
  let epoch := epoch s in
  let epoch_state := default ∅ (incoming_queue s !! epoch) in
  modify (λ s, s <| incoming_queue ::= delete epoch |>);;
  handle_queued epoch step
    (concat ((λ '(sender_id, received), pair sender_id <$> received_messages received)
      <$> entries epoch_state)).
End handlers.

Fixpoint update_epoch_fuel (fuel : nat) (b : bool) : M State Error BStep :=
  match fuel with
  | 0 => no_fuel
  | S fuel => update_epoch_with (update_epoch_fuel fuel) b
  end.

(** The number of epochs that one call can go through: an epoch whose messages were queued
    is removed from the queue, and an epoch without queued messages ends at once only with
    our own vote, so that a fixed coin decides after at most three ([BaInvariant.rounds]);
    [BaNode.update_epoch_spec] shows that it is enough. *)
Definition epoch_fuel (s : State) : nat := 5 * size (incoming_queue s) + 5.
Definition update_epoch (b : bool) : M State Error BStep :=
  λ s, update_epoch_fuel (epoch_fuel s) b s.

(** ** The public methods *)
Definition propose (input : bool) : M State Error BStep :=
  s ← get;
  if negb (can_propose s) then mret step_default
  else
    modify (λ s, s <| estimated := Some input |>);;
    sbvb_step ← on_sbv (sbv_broadcast.send_bval input);
    handle_sbvb_step update_epoch sbvb_step.

Definition handle_message (sender_id : N) (msg : Message) : M State Error BStep :=
  s ← get;
  let '(mkMessage _ epoch0 content) := msg in
  if bool_decide (is_Some (decision s)) || (bool_decide (epoch0 < epoch s)%Z && can_expire content)
  then mret step_default
  else if bool_decide (u64_add (epoch s) (max_future_epochs s) < epoch0)%Z then
    mret (step_fault sender_id AgreementEpoch)
  else if bool_decide (epoch s < epoch0)%Z then
    let epoch_state := default ∅ (incoming_queue s !! epoch0) in
    let received := default received_new (epoch_state !! sender_id) in
    let '(received, fault) := received_insert content received in
    modify (λ s, s <| incoming_queue ::= <[epoch0 := <[sender_id := received]> epoch_state]> |>);;
    match fault with
    | None => mret step_default
    | Some fault => mret (step_fault sender_id fault)
    end
  else handle_message_content update_epoch sender_id content.
End ba.
End binary_agreement.
