(* ===== verification/BaInvariant.v ===== *)
(** * Binary agreement: one node

    What the calls of [BinaryAgreement] do, from any state that a node can reach: they
    return, keep the invariant [ba_ok], and output the decision once.  [core] is what
    holds between the statements of a call, [ba_ok] what holds between calls; [effect]
    relates the states and the step of a call.  The recursion from an epoch into the
    next is bounded by the queued epochs and the fixed coins ([rounds]). *)
From S2P Require Import Prelude.
From S2P Require Import BTree.
From S2P Require Import Traits.
From S2P Require Import NetworkInfo.
From S2P Require Import BoolSet.
From S2P Require Import SbvBroadcast.
From S2P Require Import ThresholdSign.
From S2P Require Import BinaryAgreement.
From S2P Require Import Instances.

Module ba_facts.
Import binary_agreement.

(** ** The coin schedule *)
Definition fixed_coin (e : u64) : option bool :=
  match (e mod 3)%Z with 0%Z => Some true | 1%Z => Some false | _ => None end.

(** An upper bound of the number of epochs from [e] on whose fixed coin is not [b], plus
    one.  The last epochs before the counter wraps around need one more. *)
Definition rounds (e : u64) (b : bool) : nat :=
  let wraps := if decide (2 ^ 64 - 3 <= e)%Z then 1 else 0 in
  match (e mod 3)%Z, b with
  | 0%Z, true | 1%Z, false => 1
  | 0%Z, false | 2%Z, true => 2 + wraps
  | _, _ => 3 + wraps
  end.

Lemma rounds_bounds e b : 1 ≤ rounds e b ≤ 4.
Proof.
  unfold rounds. destruct (decide _), (e mod 3)%Z as [|[[]|[]|]|], b; lia.
Qed.

Lemma mod3_cases e : (e mod 3 = 0 ∨ e mod 3 = 1 ∨ e mod 3 = 2)%Z.
Proof. pose proof (Z.mod_pos_bound e 3 ltac:(lia)). lia. Qed.

Lemma rounds_next e b :
  in_u64 e → fixed_coin e ≠ Some b → rounds (u64_add e 1) b < rounds e b.
Proof.
  unfold in_u64, fixed_coin, rounds, u64_add, wrap64. intros He Hf.
  destruct (decide (e = 2 ^ 64 - 1)%Z) as [->|Hne].
  { destruct b; [by destruct Hf|]. vm_compute. lia. }
  rewrite (Z.mod_small (e + 1)) by lia.
  destruct (mod3_cases e) as [Hm|[Hm|Hm]]; rewrite Hm in *.
  - replace ((e + 1) mod 3)%Z with 1%Z by (Z.div_mod_to_equations; lia).
    destruct b; [done|]. repeat case_decide; lia.
  - replace ((e + 1) mod 3)%Z with 2%Z by (Z.div_mod_to_equations; lia).
    destruct b; [|done]. repeat case_decide; try lia. exfalso. Z.div_mod_to_equations; lia.
  - replace ((e + 1) mod 3)%Z with 0%Z by (Z.div_mod_to_equations; lia).
    destruct b; repeat case_decide; try lia. exfalso. Z.div_mod_to_equations; lia.
Qed.
(** ** The invariant *)
Section facts.
Context {N Sid : Type} `{ord : NodeIdT N} `{crypto : Crypto} `{sid : !SessionIdT Sid}
  `{laws : !ThresholdSigLaws}.
Abbreviation State := (BinaryAgreement N Sid).
Abbreviation BStep := (Step Message bool N FaultKind).
Abbreviation TsStep := (Step threshold_sign.Message Signature N threshold_sign.FaultKind).
Abbreviation SbvStep := (Step sbv_broadcast.Message BoolSet N sbv_broadcast.FaultKind).
Implicit Types (s : State) (out : BStep) (b : bool) (e : u64).
Abbreviation terms s b := (bm_index (received_term s) b).

(** Another validator *)
Definition peer (ni : NetworkInfo N) (j : N) : Prop :=
  j ≠ NetworkInfo.our_id ni ∧ is_node_validator ni j = true.

(** The coin of an epoch is fixed or a threshold signature of the session and the epoch. *)
Definition coin_ok s : Prop :=
  match coin_state s with
  | Decided c => fixed_coin (epoch s) = Some c ∨ fixed_coin (epoch s) = None
  | InProgress ts =>
      fixed_coin (epoch s) = None ∧ threshold_sign.state_ok ts ∧
      threshold_sign.shares_valid ts ∧ threshold_sign.netinfo ts = netinfo s ∧
      ∃ doc, serialize_coin_id (session_id s) (epoch s) = Some doc ∧
        threshold_sign.doc_hash ts = Some (hash_g2 doc)
  end.

(** Why a node may have decided: more than [f] nodes told it so, or the coin and the only
    value of the [Conf] round are equal. *)
Definition grounds s b : Prop :=
  num_faulty (netinfo s) < size (terms s b) ∨
  (conf_values s = Some (bool_set.from_bool b) ∧ coin_value (coin_state s) = Some b).

Record core s : Prop := {
  c_wf : netinfo_wf (netinfo s);
  c_keys : sig_threshold (public_key_set (netinfo s)) = num_faulty (netinfo s);
  c_share : is_Some (secret_key_share (netinfo s)) → is_validator (netinfo s) = true;
  c_epoch : in_u64 (epoch s);
  c_sbv : sbv_broadcast.state_ok (sbv_broadcast s);
  c_sbv_netinfo : sbv_broadcast.netinfo (sbv_broadcast s) = netinfo s;
  c_coin : coin_ok s;
  c_terms : decision s = None → ∀ b, size (terms s b) ≤ num_faulty (netinfo s);
  c_senders b j : j ∈ terms s b → peer (netinfo s) j;
  c_grounds b : decision s = Some b → grounds s b;
  c_queue e m j : incoming_queue s !! e = Some m → is_Some (m !! j) → peer (netinfo s) j;
}.

(** Between two calls no epoch is waiting to be ended. *)
Definition quiet s : Prop :=
  decision s = None → conf_values s = None ∨ coin_value (coin_state s) = None.
Definition ba_ok s : Prop := core s ∧ quiet s.

(** The effect of a call or of a part of it: the decision is output when it is made, and
    only then a [Term] message is sent. *)
Record effect s s' out : Prop := {
  e_netinfo : netinfo s' = netinfo s;
  e_session : session_id s' = session_id s;
  e_terms b : terms s b ⊆ terms s' b;
  e_queue : size (incoming_queue s') ≤ size (incoming_queue s);
  e_decision : option_list (decision s') = option_list (decision s) ++ output out;
  e_messages tm b : tm ∈ messages out → content (message tm) = Term b → b ∈ output out;
}.
(** The only error *)
Definition bad (session : Sid) : State → Error → Prop := λ _ err,
  err = Serialize ∧ ∃ e, serialize_coin_id session e = None.

(** ** Ghost state

    What a proof about several nodes records of one node: a predicate [holds] of the
    messages that the node has sent in the current call and of its state.  The laws are
    the steps of the program; [arrives] is what is known of a message of another node,
    [conf_ok] of the output of a broadcast, and [wrapped] allows the epoch counter to
    wrap around. *)
Definition sent_of out : list Message := message <$> messages out.
Definition own_sbv e (o : SbvStep) : list Message :=
  (λ tm, with_epoch (SbvBroadcast (message tm)) e) <$> messages o.
Definition sbv_value (m : sbv_broadcast.Message) : bool :=
  match m with sbv_broadcast.BVal b | sbv_broadcast.Aux b => b end.
Definition silent (c : MessageContent) : Prop :=
  match c with Conf _ | Coin _ => True | _ => False end.
Definition term_messages s b : list Message :=
  if is_validator (netinfo s) then [with_epoch (Term b) (u64_add (epoch s) 1)] else [].
Definition coin_sig s (sig : Signature) : Prop :=
  fixed_coin (epoch s) = None ∧ ∃ doc, serialize_coin_id (session_id s) (epoch s) = Some doc ∧
    pk_verify_g2 (pk_set_public_key (public_key_set (netinfo s))) sig (hash_g2 doc) = true.
(** The epoch of [s] ends with the estimate [b]. *)
Definition ends_with s b : Prop := ∃ v c, conf_values s = Some v ∧
  coin_value (coin_state s) = Some c ∧ Some c ≠ bool_set.definite v ∧
  b = default c (bool_set.definite v).
Definition next_epoch s rc c : State :=
  s <| sbv_broadcast ::= sbv_broadcast.clear (received_term s) |>
    <| received_conf := rc |> <| conf_values := None |> <| epoch ::= λ e, u64_add e 1 |>
    <| coin_state := c |>.
(** The coin at the start of an epoch *)
Definition fresh_coin e (c : CoinState N) : Prop :=
  match c with Decided v => fixed_coin e = Some v | InProgress _ => True end.
Definition enqueue sender e0 c s : State :=
  let epoch_state := default ∅ (incoming_queue s !! e0) in
  let received := default received_new (epoch_state !! sender) in
  s <| incoming_queue ::= <[e0 := <[sender := (received_insert c received).1]> epoch_state]> |>.

Class Ghost : Type := {
  holds : list Message → State → Prop;
  arrives : list Message → N → u64 → MessageContent → Prop;
  conf_ok : list Message → u64 → BoolSet → Prop;
  input_ok : bool → Prop;
  wrapped : list Message → Prop;
  g_wrapped_arrives g j e c : wrapped g → arrives g j e c;
  g_wrapped_mono l g : wrapped g → wrapped (g ++ l);
  g_arrives_mono l g j e c : arrives g j e c → arrives (g ++ l) j e c;
  g_conf_mono l g e v : conf_ok g e v → conf_ok (g ++ l) e v;
  g_received_conf f g s : holds g s → holds g (s <| received_conf ::= f |>);
  g_estimated x g s : holds g s → holds g (s <| estimated := x |>);
  g_silent l g s : Forall (λ m, silent (content m)) l → holds g s → holds (g ++ l) s;
  g_conf v g s : core s → holds g s → conf_ok g (epoch s) v → holds g (s <| conf_values := Some v |>);
  g_progress ts ts' g s : coin_state s = InProgress ts → holds g s →
    holds g (s <| coin_state := InProgress ts' |>);
  g_coin sig g s : core s → coin_sig s sig → holds g s →
    holds g (s <| coin_state := Decided (sig_parity sig) |>);
  g_sbv sender msg t (o : SbvStep) g s : core s → holds g s → peer (netinfo s) sender →
    arrives g sender (epoch s) (SbvBroadcast msg) ∨ sender ∈ terms s (sbv_value msg) →
    sbv_broadcast.step_ok None (Some (sender, msg)) (sbv_broadcast s) t o → sbv_broadcast.state_ok t →
    let g' := g ++ own_sbv (epoch s) o in
    holds g' (s <| sbv_broadcast := t |>) ∧ ∀ v, v ∈ output o → conf_ok g' (epoch s) v;
  g_input b t (o : SbvStep) g s : core s → holds g s → epoch s = 0%Z → input_ok b →
    sbv_broadcast.step_ok (Some b) None (sbv_broadcast s) t o → sbv_broadcast.state_ok t →
    let g' := g ++ own_sbv (epoch s) o in
    holds g' (s <| sbv_broadcast := t |>) ∧ ∀ v, v ∈ output o → conf_ok g' (epoch s) v;
  g_term sender b m g s : core s → holds g s → peer (netinfo s) sender →
    arrives g sender m (Term b) → (m ≤ epoch s)%Z →
    holds g (s <| received_term ::= bm_insert b sender |>);
  g_decide b g s : core (s <| decision := Some b |>) → decision s = None → holds g s →
    holds (g ++ term_messages s b) (s <| decision := Some b |>);
  g_next b rc c t (o : SbvStep) g s : core s → decision s = None → holds g s → ends_with s b →
    let s1 := next_epoch s rc c in core s1 → fresh_coin (epoch s1) c →
    sbv_broadcast.step_ok (Some b) None (sbv_broadcast s1) t o → sbv_broadcast.state_ok t →
    (is_validator (netinfo s) = true → messages o ≠ []) →
    let g' := g ++ own_sbv (epoch s1) o in
    holds g' (s1 <| sbv_broadcast := t |>) ∧ (∀ v, v ∈ output o → conf_ok g' (epoch s1) v) ∧
    ((epoch s ≤ epoch s1)%Z ∨ wrapped g');
  g_delete e g s : holds g s → holds g (s <| incoming_queue ::= delete e |>);
  g_queued g s e m j r c : holds g s → incoming_queue s !! e = Some m → m !! j = Some r →
    c ∈ received_messages r → arrives g j e c;
  g_enqueue g s sender e c : core s → holds g s → arrives g sender e c → holds g (enqueue sender e c s);
}.

Definition no_terms out : Prop := ∀ tm b, tm ∈ messages out → content (message tm) ≠ Term b.

Lemma effect_same s s' out :
  netinfo s' = netinfo s → session_id s' = session_id s → received_term s' = received_term s →
  incoming_queue s' = incoming_queue s → decision s' = decision s → output out = [] →
  no_terms out → effect s s' out.
Proof.
  intros Hni Hsid Ht Hq Hd Ho Hm. split; try congruence.
  - by rewrite Hq.
  - by rewrite Hd, Ho, app_nil_r.
  - intros tm b Hin Hc. by destruct (Hm tm b).
Qed.

Lemma no_terms_default : no_terms step_default.
Proof. by intros tm b ?%elem_of_nil. Qed.
Lemma no_terms_app (o1 o2 : BStep) : no_terms o1 → no_terms o2 → no_terms (step_extend o1 o2).
Proof. intros H1 H2 tm b [Hin|Hin]%elem_of_app; [by apply H1|by apply H2]. Qed.

Lemma effect_refl s out : output out = [] → no_terms out → effect s s out.
Proof. intros. by apply effect_same. Qed.

Lemma effect_trans s1 s2 s3 o1 o2 :
  effect s1 s2 o1 → effect s2 s3 o2 → effect s1 s3 (step_extend o1 o2).
Proof.
  intros E1 E2. split.
  - etrans; [apply E2|apply E1].
  - etrans; [apply E2|apply E1].
  - intros b. etrans; [apply E1|apply E2].
  - etrans; [apply E2|apply E1].
  - simpl. by rewrite (e_decision _ _ _ E2), (e_decision _ _ _ E1), app_assoc.
  - intros tm b [Hin|Hin]%elem_of_app Hc; apply elem_of_app;
      [left; by eapply E1|right; by eapply E2].
Qed.

(** A part without outputs or [Term] messages of its own, before or after. *)
Lemma effect_after s1 s2 s3 o : effect s1 s2 step_default → effect s2 s3 o → effect s1 s3 o.
Proof.
  intros E1 E2. rewrite <- (step_join_default_l o). by eapply effect_trans.
Qed.
Lemma effect_prepend s s' o1 o2 :
  output o1 = [] → no_terms o1 → effect s s' o2 → effect s s' (step_extend o1 o2).
Proof. intros. eapply effect_trans; [by apply effect_refl|done]. Qed.

Lemma decided_effect s s' out b : effect s s' out → decision s = Some b →
  decision s' = Some b ∧ output out = [].
Proof.
  intros E Hd. pose proof (e_decision _ _ _ E) as He. rewrite Hd in He.
  destruct (decision s'); by simplify_eq/=.
Qed.

(** ** Updates that keep the invariant *)
Lemma core_set_received_conf f s : core s → core (s <| received_conf ::= f |>).
Proof. by destruct 1. Qed.
Lemma core_set_estimated x s : core s → core (s <| estimated := x |>).
Proof. by destruct 1. Qed.

Lemma core_set_sbv t s :
  core s → sbv_broadcast.state_ok t → sbv_broadcast.netinfo t = netinfo s →
  core (s <| sbv_broadcast := t |>).
Proof. by destruct 1. Qed.

Lemma core_set_conf v s :
  core s → conf_values s = None → core (s <| conf_values := v |>).
Proof.
  intros [] Hc. split; try done. intros b [?|[Hv _]]%c_grounds0; [by left|congruence].
Qed.

Lemma core_set_coin cs ts s :
  core s → coin_state s = InProgress ts → coin_ok (s <| coin_state := cs |>) →
  core (s <| coin_state := cs |>).
Proof.
  intros [] Hc Hok. split; try done. intros b [?|[_ Hv]]%c_grounds0; [by left|].
  by rewrite Hc in Hv.
Qed.

Lemma peer_validator s j : core s → peer (netinfo s) j → is_Some (node_index (netinfo s) j).
Proof. intros Hs [_ Hj]. by apply wf_node_index_validator; [apply Hs|]. Qed.

Lemma not_decided s : decision s = None → bool_decide (is_Some (decision s)) = false.
Proof. intros ->. done. Qed.

(** ** The coin *)
Lemma coin_call_spec (m : M (threshold_sign.ThresholdSign N) threshold_sign.Error TsStep) from ts s :
  core s → coin_state s = InProgress ts → (∀ id, from id → is_Some (node_index (netinfo s) id)) →
  (threshold_sign.state_ok ts → wp m ts (λ ts' o, threshold_sign.step_ok ts ts' o ∧
    threshold_sign.state_ok ts') (threshold_sign.failed from ts)) →
  wp (on_coin ts m) s (λ s' o, ∃ ts', s' = s <| coin_state := InProgress ts' |> ∧ core s' ∧
    ∀ sig, sig ∈ output o → coin_sig s sig) (λ _ _, False).
Proof.
  intros Hs Hts Hfrom Hm. pose proof (c_coin _ Hs) as Hcoin. unfold coin_ok in Hcoin. rewrite Hts in Hcoin.
  destruct Hcoin as (Hf & Hok & Hv & Hni & doc & Hdoc & Hhash).
  unfold on_coin. wp_step. eapply wp_mono; [by apply Hm| |].
  - intros ts' o [Hstep Hok']. exists ts'. split; [done|].
    split; [apply (core_set_coin _ ts); [done..|]|].
    2: { intros sig Hin. split; [done|]. exists doc. split; [done|].
      destruct (threshold_sign.so_output _ _ _ Hstep) as [Ho|(gd & sig' & Ho & Hgd & Hver & _)];
        rewrite Ho in Hin; [by apply elem_of_nil in Hin|apply list_elem_of_singleton in Hin as ->].
      unfold threshold_sign.verified in Hver. rewrite Hni in Hver. congruence. }
    unfold coin_ok. cbn [coin_state]. split_and!; [done..|by apply (threshold_sign.so_valid _ _ _ Hstep)| |].
    + by rewrite (threshold_sign.so_netinfo _ _ _ Hstep).
    + exists doc. by rewrite (threshold_sign.so_doc _ _ _ Hstep).
  - intros ts' err [Hni' Hdoc' _ Hv' He]. specialize (Hv' Hv).
    assert (Hth : sig_threshold (public_key_set (threshold_sign.netinfo ts)) =
      num_faulty (threshold_sign.netinfo ts)) by (rewrite Hni; apply Hs).
    destruct err; try done; try (by apply He); [|congruence].
    destruct He as (id & Hid & Hn). rewrite Hni in Hn. destruct (Hfrom id Hid). congruence.
Qed.

Lemma sign_call_spec ts s :
  core s → coin_state s = InProgress ts →
  wp (on_coin ts threshold_sign.sign) s
    (λ s' o, ∃ ts', s' = s <| coin_state := InProgress ts' |> ∧ core s' ∧
      ∀ sig, sig ∈ output o → coin_sig s sig) (λ _ _, False).
Proof.
  intros Hs Hts. eapply coin_call_spec; [done..| |apply threshold_sign.sign_spec].
  pose proof (c_coin _ Hs) as Hcoin. unfold coin_ok in Hcoin. rewrite Hts in Hcoin.
  destruct Hcoin as (_ & _ & _ & Hni & _). unfold threshold_sign.me. rewrite Hni.
  intros id [-> Hsk]. apply wf_node_index_validator; [apply Hs|].
  rewrite <- (wf_is_validator _ (c_wf _ Hs)). by apply Hs.
Qed.

Lemma message_call_spec sender msg ts s :
  core s → coin_state s = InProgress ts → peer (netinfo s) sender →
  wp (on_coin ts (threshold_sign.handle_message sender msg)) s
    (λ s' o, ∃ ts', s' = s <| coin_state := InProgress ts' |> ∧ core s' ∧
      ∀ sig, sig ∈ output o → coin_sig s sig) (λ _ _, False).
Proof.
  intros Hs Hts Hp. eapply coin_call_spec; [done..| |apply (threshold_sign.handle_message_with_spec 1)].
  intros id <-. by apply peer_validator.
Qed.

(** ** The next epoch *)
Lemma new_coin_state_spec s :
  netinfo_wf (netinfo s) →
  wp new_coin_state s (λ s' c, s' = s ∧ coin_ok (s <| coin_state := c |>) ∧ fresh_coin (epoch s) c)
    (bad (session_id s)).
Proof.
  intros Hwf. unfold new_coin_state. do 2 wp_step.
  assert (Hf : fixed_coin (epoch s) = match (epoch s mod 3)%Z with
    0%Z => Some true | 1%Z => Some false | _ => None end) by done.
  destruct (mod3_cases (epoch s)) as [Hm|[Hm|Hm]]; rewrite Hm in *;
    [apply wp_ret; split; [done|]; split; [by left|exact Hf]..|].
  wp_step. apply wp_ok_or.
  - intros doc Hdoc. split; [done|]. split; [|done].
    split_and!; [done|done|done|done|]. by exists doc.
  - intros Hn. split; [done|]. by exists (epoch s).
Qed.

Lemma core_next_epoch rc c s :
  core s → decision s = None →
  coin_ok (next_epoch s rc c) → core (next_epoch s rc c).
Proof.
  intros [] Hd Hcoin. unfold next_epoch in *. specialize (c_terms0 Hd). split; try done.
  - apply wrap64_range.
  - assert (Hme : ∀ b, sbv_broadcast.me (sbv_broadcast s) ∉ terms s b).
    { intros b Hin. destruct (c_senders0 b _ Hin) as [Hne _]. apply Hne.
      unfold sbv_broadcast.me. by rewrite c_sbv_netinfo0. }
    destruct c_sbv0. split; cbn; try done.
    + intros b. rewrite bool_set.mem_NONE. symmetry. apply bool_decide_eq_false.
      rewrite c_sbv_netinfo0. specialize (c_terms0 b). lia.
    + intros b Hin. by destruct (Hme b).
    + intros b Hin. by destruct (Hme b).
  - intros b Hd'. cbn in Hd'. congruence.
Qed.

(** Our own [BVal] of a new epoch can only make us output its value. *)
Lemma send_bval_direct b t0 s :
  core s → decision s = None → sbv_broadcast s = sbv_broadcast.clear (received_term s) t0 →
  wp (on_sbv (sbv_broadcast.send_bval b)) s
    (λ s' o, ∃ t, s' = s <| sbv_broadcast := t |> ∧ core s' ∧
      sbv_broadcast.step_ok (Some b) None (sbv_broadcast s) t o ∧ sbv_broadcast.state_ok t ∧
      (is_validator (netinfo s) = true → messages o ≠ []) ∧
      ∀ v rest, output o = v :: rest → v = bool_set.from_bool b) (λ _ _, False).
Proof.
  intros Hs Hd Hclear. pose proof (c_terms _ Hs Hd) as Hterms. unfold on_sbv. do 2 wp_step.
  eapply wp_mono; [apply sbv_broadcast.send_bval_sends, Hs| |by intros ? []].
  intros t o (Hok & Ht & Hsends). exists t. split; [done|]. split.
  { apply core_set_sbv; [done..|]. rewrite (sbv_broadcast.so_netinfo _ _ _ _ _ Hok). apply Hs. }
  split_and!; [done..| |].
  { rewrite <- (c_sbv_netinfo _ Hs). apply Hsends. rewrite Hclear. apply bool_set.mem_NONE. }
  intros v rest Ho. destruct (sbv_broadcast.so_output _ _ _ _ _ Hok) as [Hn|(v' & Hv & _ & _ & Hwf & Hne & Hbv & _)];
    [congruence|]. rewrite Hv in Ho. injection Ho as -> _.
  assert (Hni : num_faulty (sbv_broadcast.netinfo (sbv_broadcast s)) = num_faulty (netinfo s))
    by by rewrite (c_sbv_netinfo _ Hs).
  assert (Hb : ∀ j, j ∈ bm_index (sbv_broadcast.received_bval t) (negb b) →
    j ∈ terms s (negb b) ∨ j = sbv_broadcast.me (sbv_broadcast s)).
  { intros j [Hj|[?|[? _]]]%(sbv_broadcast.so_new_bval _ _ _ _ _ Hok); [left|done|by right].
    by rewrite Hclear in Hj. }
  assert (Hsub : bm_index (sbv_broadcast.received_bval t) (negb b) ⊆ terms s (negb b)).
  { intros j Hj. destruct (Hb j Hj) as [?|Hme]; [done|]. exfalso.
    subst j. rewrite <- (sbv_broadcast.sbv_me_eq _ _ (sbv_broadcast.so_netinfo _ _ _ _ _ Hok)) in Hj.
    pose proof (sbv_broadcast.st_own_bval _ Ht _ Hj) as Hsent.
    apply (sbv_broadcast.so_new_sent _ _ _ _ _ Hok) in Hsent as [Hsent|[Hsent|Hsent]].
    - rewrite Hclear in Hsent. by destruct b.
    - injection Hsent. by destruct b.
    - rewrite Hni in Hsent. specialize (Hterms (negb b)).
      assert (Hle : bm_index (sbv_broadcast.received_bval t) (negb b) ∖ {[sbv_broadcast.me (sbv_broadcast s)]} ⊆ terms s (negb b))
        by (intros j; rewrite elem_of_difference; set_solver).
      apply subseteq_size in Hle. lia. }
  assert (Hm : bool_set.mem v (negb b) = false).
  { apply not_true_iff_false. intros Hm%Hbv. apply subseteq_size in Hsub.
    specialize (Hterms (negb b)). rewrite Hni in Hm. lia. }
  apply bool_set.wf_cases in Hwf as [->|[->|[->| ->]]]; by destruct b.
Qed.

Lemma core_delete_queued e s : core s → core (s <| incoming_queue ::= delete e |>).
Proof.
  intros []. split; try done. intros e' m j Hm. change (delete e (incoming_queue s) !! e' = Some m) in Hm.
  apply lookup_delete_Some in Hm as [_ Hm]. by eapply c_queue0.
Qed.

Lemma queued_senders s e id c :
  core s →
  (id, c) ∈ concat ((λ '(sender_id, received), pair sender_id <$> received_messages received) <$>
    entries (default ∅ (incoming_queue s !! e))) →
  peer (netinfo s) id.
Proof.
  intros Hs (l & Hin & (x & -> & Hx)%list_elem_of_fmap)%elem_of_concat.
  destruct x as [j r]. apply list_elem_of_fmap in Hin as (c' & [= -> ->] & _).
  apply elem_of_entries in Hx. destruct (incoming_queue s !! e) as [m|] eqn:Hm; [|done].
  eapply (c_queue _ Hs); [exact Hm|by exists r].
Qed.

(** ** The effect with the ghost state *)
Section ghost.
Context {gh : Ghost}.
Implicit Types (g : list Message).

Record post g s s' out : Prop := {
  p_core : core s';
  p_quiet : quiet s';
  p_effect : effect s s' out;
  p_holds : holds (g ++ sent_of out) s';
  p_epoch : (epoch s ≤ epoch s')%Z ∨ wrapped (g ++ sent_of out);
}.

Lemma sent_of_extend (o1 o2 : BStep) : sent_of (step_extend o1 o2) = sent_of o1 ++ sent_of o2.
Proof. apply fmap_app. Qed.

Lemma post_refl g s out :
  core s → quiet s → output out = [] → no_terms out → holds (g ++ sent_of out) s → post g s s out.
Proof. intros. split; [done..|by apply effect_refl|done|by left]. Qed.
Lemma post_default g s : core s → quiet s → holds g s → post g s s step_default.
Proof. intros. apply post_refl; [done..|apply no_terms_default|]. by rewrite app_nil_r. Qed.

Lemma post_trans g s1 s2 s3 o1 o2 :
  effect s1 s2 o1 → (epoch s1 ≤ epoch s2)%Z ∨ wrapped (g ++ sent_of o1) →
  post (g ++ sent_of o1) s2 s3 o2 → post g s1 s3 (step_extend o1 o2).
Proof.
  intros E1 Ep1 [Hs Hq E2 Hh Ep2]. rewrite <- app_assoc, <- sent_of_extend in *.
  split; [done..|by eapply effect_trans|done|].
  destruct Ep2 as [Ep2|?]; [|by right]. destruct Ep1 as [Ep1|Hw]; [left; lia|right].
  rewrite sent_of_extend, app_assoc. by apply g_wrapped_mono.
Qed.
Lemma post_after g s1 s2 s3 o :
  post g s2 s3 o → effect s1 s2 step_default → epoch s2 = epoch s1 → post g s1 s3 o.
Proof.
  intros Hp E1 Ep. rewrite <- (step_join_default_l o).
  apply post_trans with s2; [done|left; by rewrite Ep|]. by rewrite app_nil_r.
Qed.
Lemma post_prepend g s s' o1 o2 :
  output o1 = [] → no_terms o1 → post (g ++ sent_of o1) s s' o2 → post g s s' (step_extend o1 o2).
Proof. intros. apply post_trans with s; [by apply effect_refl|by left|done]. Qed.

(** ** Deciding *)
Lemma decide_value_spec b g s :
  decision s = None → core (s <| decision := Some b |>) → holds g s →
  wp (decide_value b) s (post g s) (bad (session_id s)).
Proof.
  intros Hd Hs Hg. unfold decide_value. do 2 wp_step.
  rewrite decide_False by (rewrite Hd; by intros []). do 4 wp_step.
  pose proof (g_decide b g s Hs Hd Hg) as Hg'. unfold term_messages in Hg'.
  assert (Hpost : ∀ out, output out = [b] →
    (∀ tm b', tm ∈ messages out → content (message tm) = Term b' → b' = b) →
    holds (g ++ sent_of out) (s <| decision := Some b |>) →
    post g s (s <| decision := Some b |>) out).
  { intros out Ho Hm Hh. split; [done|done| |done|by left].
    split; try done; cbn [decision option_list].
    - by rewrite Hd, Ho.
    - intros tm b' Hin Hc. rewrite (Hm tm b'), Ho by done. by left. }
  cbn [netinfo] in *. change (netinfo (s <| decision := Some b |>)) with (netinfo s).
  destruct (is_validator _); apply wp_ret; apply Hpost; try done.
  - intros tm b' ->%list_elem_of_singleton Hc. by injection Hc.
  - by intros tm b' ?%elem_of_nil.
Qed.

(** ** The handlers

    [ue] ends an epoch; [A] are the values that it may be called with, in a state
    [within] the bounds. *)
Section handlers.
Context (ue : bool → M State Error BStep) (A : bool → Prop) (P : u64 → Prop) (q : nat) (session : Sid).
Definition within s : Prop :=
  P (epoch s) ∧ size (incoming_queue s) ≤ q ∧ session_id s = session.
Definition ends e v : Prop := ∀ c, fixed_coin e = Some c ∨ fixed_coin e = None →
  Some c ≠ bool_set.definite v → A (default c (bool_set.definite v)).
Context (Hue : ∀ g s b, core s → decision s = None → within s → A b → ends_with s b → holds g s →
  wp (ue b) s (post g s) (bad session)).

Lemma try_update_epoch_quiet s (R : State → Error → Prop) :
  quiet s → wp (try_update_epoch ue) s (λ s' out, s' = s ∧ out = step_default) R.
Proof.
  intros Hq. unfold try_update_epoch. do 2 wp_step. case_decide as Hd; [done|].
  destruct (coin_value (coin_state s)) as [c|] eqn:Hc; [|done].
  destruct (conf_values s) as [v|] eqn:Hv; [|done].
  apply eq_None_not_Some in Hd. destruct (Hq Hd); congruence.
Qed.

Lemma try_update_epoch_spec g s :
  core s → within s → (∀ v, conf_values s = Some v → ends (epoch s) v) → holds g s →
  wp (try_update_epoch ue) s (post g s) (bad session).
Proof.
  intros Hs Hw Hends Hg. unfold try_update_epoch. do 2 wp_step.
  assert (Hdone : quiet s → post g s s step_default) by (intros; by apply post_default).
  case_decide as Hd; [apply wp_ret, Hdone; intros Hn; by rewrite Hn in Hd; destruct Hd|].
  apply eq_None_not_Some in Hd.
  destruct (coin_value (coin_state s)) as [c|] eqn:Hc; [|by apply wp_ret, Hdone; right].
  destruct (conf_values s) as [v|] eqn:Hv; [|by apply wp_ret, Hdone; left].
  case_decide as Heq.
  - destruct Hw as (_ & _ & <-). apply decide_value_spec; [done| |done].
    symmetry in Heq. apply bool_set.definite_Some in Heq as ->.
    destruct Hs. split; try done. intros b [= <-]. by right.
  - apply Hue; [done..| | |done]; [|by exists v, c]. apply (Hends _ eq_refl c); [|done].
    pose proof (c_coin _ Hs) as Hcoin. unfold coin_ok in Hcoin.
    destruct (coin_state s); [by injection Hc as ->|done].
Qed.

Lemma no_terms_mapped {Msg} (f : Msg → MessageContent) e
    (l : list (TargetedMessage Msg N)) o fl :
  (∀ m b, f m ≠ Term b) →
  no_terms (mkStep o fl (tm_map (λ m, with_epoch (f m) e) <$> l)).
Proof.
  intros Hf tm b (tm' & -> & _)%list_elem_of_fmap. simpl. apply Hf.
Qed.
Lemma sent_of_mapped {Msg} (f : Msg → MessageContent) e
    (l : list (TargetedMessage Msg N)) o fl :
  sent_of (mkStep o fl (tm_map (λ m, with_epoch (f m) e) <$> l)) =
  (λ tm, with_epoch (f (message tm)) e) <$> l.
Proof. unfold sent_of. cbn [messages]. by rewrite <- list_fmap_compose. Qed.

Lemma on_coin_step_spec ts_step ts g s :
  core s → within s → coin_state s = InProgress ts →
  (∀ v, conf_values s = Some v → ends (epoch s) v) →
  (∀ sig, sig ∈ output ts_step → coin_sig s sig) → holds g s →
  wp (on_coin_step ue ts_step) s (post g s) (bad session).
Proof.
  intros Hs Hw Hts Hends Hsig Hg. unfold on_coin_step. do 2 wp_step.
  unfold extend_with. cbn [step_default output fault_log messages app].
  assert (Hnt : ∀ o fl, no_terms (mkStep o fl (tm_map (λ m, with_epoch (Coin m) (epoch s)) <$> messages ts_step)))
    by (intros; by apply no_terms_mapped).
  assert (Hg1 : ∀ o fl, holds (g ++ sent_of (mkStep o fl
      (tm_map (λ m, with_epoch (Coin m) (epoch s)) <$> messages ts_step))) s).
  { intros o fl. apply g_silent; [|done]. rewrite sent_of_mapped. by apply Forall_fmap, Forall_true. }
  destruct (output ts_step) as [|sig rest].
  { apply wp_ret, post_refl; [done|by right; rewrite Hts|done..]. }
  do 3 wp_step. set (s1 := s <| coin_state := _ |>).
  assert (Hs1 : core s1) by (apply (core_set_coin _ ts); [done..|right; by apply (Hsig sig); left]).
  eapply wp_mono_ok; [apply try_update_epoch_spec; [done..|]|].
  { apply g_coin; [done|apply Hsig; by left|apply Hg1]. }
  intros s2 out Hp. apply wp_ret. apply post_prepend; [done|by apply Hnt|].
  eapply post_after; [exact Hp|by apply effect_same, no_terms_default|done].
Qed.

Lemma try_finish_conf_round_spec g s :
  core s → quiet s → within s → (∀ v, conf_values s = Some v → ends (epoch s) v) → holds g s →
  wp (try_finish_conf_round ue) s (post g s) (bad session).
Proof.
  intros Hs Hq Hw Hends Hg. unfold try_finish_conf_round. do 2 wp_step.
  assert (Hdone : post g s s step_default) by by apply post_default.
  destruct (_ || _); [done|]. destruct (coin_state s) as [c|ts] eqn:Hts; [done|].
  do 2 wp_step. eapply wp_mono; [by apply sign_call_spec| |done].
  intros s1 ts_step (ts' & -> & Hs1 & Hsig). wp_step.
  eapply wp_mono_ok; [apply (on_coin_step_spec _ ts' g); try done; by eapply g_progress|].
  intros s2 out Hp. wp_step.
  eapply wp_mono_ok; [apply try_update_epoch_quiet, Hp|]. intros s3 o [-> ->]. apply wp_ret.
  rewrite step_join_default_r.
  eapply post_after; [exact Hp|by apply effect_same, no_terms_default|done].
Qed.

Lemma handle_conf_spec sender v g s :
  core s → quiet s → within s → (∀ v, conf_values s = Some v → ends (epoch s) v) → holds g s →
  wp (handle_conf ue sender v) s (post g s) (bad session).
Proof.
  intros Hs Hq Hw Hends Hg. unfold handle_conf. do 2 wp_step.
  set (s1 := s <| received_conf ::= _ |>).
  eapply wp_mono_ok; [apply (try_finish_conf_round_spec g s1); [by apply core_set_received_conf|done..|]|].
  { by apply g_received_conf. }
  intros s2 out Hp. eapply post_after; [exact Hp|by apply effect_same, no_terms_default|done].
Qed.

(** The handler of our own messages, of which there are only [Conf]s *)
Context (own : N → MessageContent → M State Error BStep)
  (Hown : ∀ id v, own id (Conf v) = handle_conf ue id v).

Lemma send_conf_spec v ts g s :
  core s → coin_state s = InProgress ts → conf_values s = None → within s → ends (epoch s) v →
  holds g s → conf_ok g (epoch s) v →
  wp (send_conf_with ue own v) s (post g s) (bad session).
Proof.
  intros Hs Hts Hv Hw Hends Hg Hok. unfold send_conf_with. do 2 wp_step.
  rewrite decide_False by (rewrite Hv; by intros []). do 2 wp_step.
  set (s1 := s <| conf_values := Some v |>).
  assert (Hs1 : core s1) by by apply core_set_conf.
  assert (Hq1 : quiet s1) by (right; cbn; by rewrite Hts).
  assert (He : effect s s1 step_default) by by apply effect_same, no_terms_default.
  assert (Hends1 : ∀ v', conf_values s1 = Some v' → ends (epoch s1) v') by by intros v' [= <-].
  assert (Hg1 : holds g s1) by by apply g_conf.
  destruct (is_validator (netinfo s)) eqn:Hval; cbn [negb].
  - unfold send_with. do 2 wp_step. change (netinfo s1) with (netinfo s). rewrite Hval. cbn [negb].
    wp_step. rewrite Hown. eapply wp_mono_ok;
      [apply (handle_conf_spec _ _ (g ++ [with_epoch (Conf v) (epoch s)])); try done|].
    { apply g_silent; [by constructor|done]. }
    intros s2 out Hp. apply wp_ret. eapply post_after; [|exact He|done].
    apply post_prepend; [done| |done]. by intros tm b ->%list_elem_of_singleton.
  - eapply wp_mono_ok; [by apply try_finish_conf_round_spec|].
    intros s2 out Hp. by eapply post_after.
Qed.

Lemma handle_sbvb_step_spec sbvb_step g s :
  core s → quiet s → within s →
  (∀ v rest, output sbvb_step = v :: rest → ends (epoch s) v) →
  holds (g ++ own_sbv (epoch s) sbvb_step) s →
  (∀ v, v ∈ output sbvb_step → conf_ok (g ++ own_sbv (epoch s) sbvb_step) (epoch s) v) →
  wp (handle_sbvb_step_with ue own sbvb_step) s
    (λ s' out, post g s s' out ∧ own_sbv (epoch s) sbvb_step `prefix_of` sent_of out) (bad session).
Proof.
  intros Hs Hq Hw Hends Hg Hok. unfold handle_sbvb_step_with. do 2 wp_step.
  unfold extend_with. cbn [step_default output fault_log messages app].
  set (fl := faultlog_extend _ _).
  set (step := mkStep [] fl (tm_map (λ m, with_epoch (SbvBroadcast m) (epoch s)) <$> messages sbvb_step)).
  assert (Hnt : no_terms step) by by apply no_terms_mapped.
  rewrite <- (sent_of_mapped SbvBroadcast _ _ [] fl : sent_of step = own_sbv _ _) in Hg, Hok.
  assert (Hpre : ∀ out, own_sbv (epoch s) sbvb_step `prefix_of` sent_of (step_extend step out)).
  { intros out. rewrite sent_of_extend, <- (sent_of_mapped SbvBroadcast _ _ [] fl : sent_of step = own_sbv _ _).
    by apply prefix_app_r. }
  assert (Hdone : post g s s step ∧ own_sbv (epoch s) sbvb_step `prefix_of` sent_of step).
  { split; [by apply post_refl|]. specialize (Hpre step_default).
    by rewrite sent_of_extend, app_nil_r in Hpre. }
  case_decide as Hv; [by apply wp_ret|]. apply eq_None_not_Some in Hv.
  destruct (output sbvb_step) as [|v rest]; [by apply wp_ret|].
  specialize (Hends v rest eq_refl). specialize (Hok v ltac:(by left)).
  destruct (coin_state s) as [c|ts] eqn:Hts.
  - do 3 wp_step. set (s1 := s <| conf_values := Some v |>).
    eapply wp_mono_ok; [apply (try_update_epoch_spec (g ++ sent_of step));
      [by apply core_set_conf|done|by intros v' [= <-]|by apply g_conf]|].
    intros s2 out Hp. apply wp_ret. split; [|apply Hpre]. apply post_prepend; [done..|].
    eapply post_after; [exact Hp|by apply effect_same, no_terms_default|done].
  - wp_step. eapply wp_mono_ok; [by apply (send_conf_spec v ts (g ++ sent_of step))|].
    intros s2 out Hp. apply wp_ret. split; [|apply Hpre]. by apply post_prepend.
Qed.
End handlers.

(** ** Messages *)
Lemma sbv_call_spec sender msg g s :
  core s → peer (netinfo s) sender → holds g s →
  arrives g sender (epoch s) (SbvBroadcast msg) ∨ sender ∈ terms s (sbv_value msg) →
  wp (on_sbv (sbv_broadcast.handle_message sender msg)) s
    (λ s' o, ∃ t, s' = s <| sbv_broadcast := t |> ∧ core s' ∧ holds (g ++ own_sbv (epoch s) o) s' ∧
      ∀ v, v ∈ output o → conf_ok (g ++ own_sbv (epoch s) o) (epoch s) v) (λ _ _, False).
Proof.
  intros Hs Hp Hg Ha. unfold on_sbv. do 2 wp_step.
  eapply wp_mono; [apply sbv_broadcast.sbv_handle_message_spec| |by intros ? []].
  - apply Hs.
  - unfold sbv_broadcast.me. rewrite (c_sbv_netinfo _ Hs). apply Hp.
  - intros t o [Hok Ht]. exists t. split; [done|]. split; [apply core_set_sbv; [done..|]|].
    + rewrite (sbv_broadcast.so_netinfo _ _ _ _ _ Hok). apply Hs.
    + by eapply g_sbv.
Qed.

Lemma terms_insert sender b s b' :
  terms (s <| received_term ::= bm_insert b sender |>) b' =
    if bool_decide (b = b') then {[sender]} ∪ terms s b' else terms s b'.
Proof. apply bm_index_insert. Qed.

Lemma grounds_insert sender b b' s :
  grounds s b' → grounds (s <| received_term ::= bm_insert b sender |>) b'.
Proof.
  intros [Hn|?]; [left|by right]. eapply Nat.lt_le_trans; [exact Hn|].
  apply subseteq_size, bm_insert_subseteq.
Qed.

(** Recording a [Term] message, with the decision that it may bring. *)
Lemma core_insert_term sender b s :
  core s → peer (netinfo s) sender →
  let s1 := s <| received_term ::= bm_insert b sender |> in
  effect s s1 step_default ∧
  (decision s = None → num_faulty (netinfo s) < size (terms s1 b) → core (s1 <| decision := Some b |>)) ∧
  ((decision s = None → size (terms s1 b) ≤ num_faulty (netinfo s)) → core s1).
Proof.
  intros [] Hp s1.
  assert (Hsend : ∀ b' j, j ∈ terms s1 b' → peer (netinfo s) j).
  { intros b' j. unfold s1. rewrite terms_insert. case_bool_decide; [|apply c_senders0].
    intros [->%elem_of_singleton|Hj]%elem_of_union; [done|by eapply c_senders0]. }
  split_and!.
  - split; try done; cbn [decision]; [intros b'; apply bm_insert_subseteq|by rewrite app_nil_r|].
    by intros tm b' ?%elem_of_nil.
  - intros Hd Hn. split; try done. intros b' [= <-]. by left.
  - intros Hn. split; try done.
    + intros Hd b'. destruct (decide (b = b')) as [<-|Hb]; [by apply Hn|].
      unfold s1. rewrite terms_insert, bool_decide_false by done. by apply c_terms0.
    + intros b' Hd. by apply grounds_insert, c_grounds0.
Qed.

Section messages.
Context (ue : bool → M State Error BStep) (q : nat) (session : Sid).
Abbreviation inside := (within (λ _, True) q session).
Context (Hue : ∀ g s b, core s → decision s = None → inside s → True → ends_with s b → holds g s →
  wp (ue b) s (post g s) (bad session)).
Context (own : N → MessageContent → M State Error BStep)
  (Hown : ∀ id v, own id (Conf v) = handle_conf ue id v).

Lemma within_effect s s' out : effect s s' out → inside s → inside s'.
Proof.
  intros E (_ & Hq & Hs). split_and!; [done| |by rewrite (e_session _ _ _ E)].
  etrans; [apply E|done].
Qed.

(** A message that is handled now: of the current epoch, or a [Term] of an earlier one. *)
Definition arrived g s (sender : N) (c : MessageContent) : Prop :=
  ∃ e, arrives g sender e c ∧ (e = epoch s ∨ ((e ≤ epoch s)%Z ∧ can_expire c = false)).

Lemma handle_term_spec sender b g s :
  ba_ok s → inside s → peer (netinfo s) sender → holds g s → arrived g s sender (Term b) →
  wp (handle_term_with ue own sender b) s (post g s) (bad session).
Proof.
  intros [Hs Hq] Hw Hp Hg (e & Ha & He). unfold handle_term_with. do 4 wp_step.
  set (s1 := s <| received_term ::= _ |>).
  destruct (core_insert_term sender b s Hs Hp) as (He1 & Hdec & Hs1). fold s1 in He1, Hdec, Hs1.
  assert (Hg1 : holds g s1) by (eapply g_term; [done..|lia]).
  change (decision s1) with (decision s). change (netinfo s1) with (netinfo s).
  case_decide as Hd.
  { apply wp_ret. eapply post_after; [apply post_default; [|by apply Hq|done]|exact He1|done].
    apply Hs1. intros Hn. rewrite Hn in Hd. by destruct Hd. }
  apply eq_None_not_Some in Hd. case_decide as Hn.
  { destruct Hw as (_ & _ & <-). eapply wp_mono_ok; [apply (decide_value_spec b g s1); auto|].
    intros s2 out Hp2. by eapply post_after. }
  specialize (Hs1 (λ _, proj1 (Nat.nlt_ge _ _) Hn)).
  assert (Hin : sender ∈ terms s1 b) by (apply elem_of_bm_insert; by left).
  wp_step. eapply wp_mono; [apply (sbv_call_spec sender (sbv_broadcast.BVal b) g s1); auto| |done].
  intros s2 o1 (t1 & -> & Hs2 & Hg2 & Hok1). wp_step.
  change (sbv_broadcast.handle_aux sender b) with
    (sbv_broadcast.handle_message sender (sbv_broadcast.Aux b)).
  eapply wp_mono; [by apply (sbv_call_spec sender (sbv_broadcast.Aux b) (g ++ own_sbv (epoch s) o1)); auto| |done].
  intros s3 o2 (t2 & -> & Hs3 & Hg3 & Hok2). wp_step.
  assert (Happ : ∀ e, (g ++ own_sbv e o1) ++ own_sbv e o2 = g ++ own_sbv e (step_extend o1 o2)).
  { intros. unfold own_sbv. cbn [step_extend messages]. by rewrite <- app_assoc, fmap_app. }
  cbn [epoch] in *. rewrite Happ in Hg3, Hok2.
  eapply wp_mono_ok; [apply (handle_sbvb_step_spec ue (λ _, True) (λ _, True) q session Hue own Hown _ g); try done|].
  { intros v [Hv|Hv]%elem_of_app; [|by apply Hok2]. rewrite <- Happ. by apply g_conf_mono, Hok1. }
  intros s4 o3 [Hp4 _].
  assert (Hp4' : post g s s4 o3).
  { eapply post_after; [|exact He1|done].
    eapply post_after; [exact Hp4|by apply effect_same, no_terms_default|done]. }
  wp_step. eapply wp_mono_ok; [apply (handle_conf_spec ue (λ _, True) (λ _, True) q session Hue _ _
    (g ++ sent_of o3)); try apply Hp4; try done|].
  { eapply within_effect; [apply Hp4'|done]. }
  intros s5 o4 Hp5. apply wp_ret. eapply post_trans; [apply Hp4'|apply Hp4'|done].
Qed.

Lemma handle_message_content_spec sender c g s :
  ba_ok s → inside s → peer (netinfo s) sender → holds g s → arrived g s sender c →
  wp (handle_message_content_with ue own sender c) s (post g s) (bad session).
Proof.
  intros [Hs Hq] Hw Hp Hg Ha. unfold handle_message_content_with. destruct c as [m|v|b|m].
  - destruct Ha as (e & Ha & [->|[_ ?]]); [|done].
    unfold handle_sbv_broadcast_with. wp_step.
    eapply wp_mono; [apply (sbv_call_spec sender m g s); auto| |done].
    intros s2 o1 (t1 & -> & Hs2 & Hg2 & Hok2).
    eapply wp_mono_ok; [by apply (handle_sbvb_step_spec ue (λ _, True) (λ _, True) q session Hue own Hown _ g)|].
    intros s3 o2 [Hp3 _]. eapply post_after; [exact Hp3|by apply effect_same, no_terms_default|done].
  - by apply (handle_conf_spec ue (λ _, True) (λ _, True) q session).
  - by apply handle_term_spec.
  - unfold handle_coin. do 2 wp_step. destruct (coin_state s) as [|ts] eqn:Hts.
    { by apply wp_ret, post_default. }
    do 2 wp_step. eapply wp_mono; [by apply message_call_spec| |done].
    intros s2 o1 (ts' & -> & Hs2 & Hsig).
    eapply wp_mono_ok; [apply (on_coin_step_spec ue (λ _, True) (λ _, True) q session Hue _ ts' g); try done|].
    { by eapply g_progress. }
    intros s3 o2 Hp3. eapply post_after; [exact Hp3|by apply effect_same, no_terms_default|done].
Qed.
End messages.

(** The queued messages of an epoch *)
Lemma handle_queued_spec ue q session e0 l g s0 :
  (∀ g s b, core s → decision s = None → within (λ _, True) q session s → True →
    ends_with s b → holds g s → wp (ue b) s (post g s) (bad session)) →
  ∀ step s, within (λ _, True) q session s → e0 = epoch s ∨ wrapped (g ++ sent_of step) →
  (∀ id c, (id, c) ∈ l → peer (netinfo s) id ∧ arrives (g ++ sent_of step) id e0 c) →
  post g s0 s step →
  wp (handle_queued ue e0 step l) s (post g s0) (bad session).
Proof.
  intros Hue. induction l as [|[id c] l IH]; intros step s Hw He Hl Hp; cbn [handle_queued];
    [by apply wp_ret|].
  destruct (Hl id c ltac:(by left)) as [Hid Ha]. wp_step. unfold handle_message_content.
  eapply wp_mono_ok; [apply (handle_message_content_spec _ q _ Hue _ (λ _ _, eq_refl) _ _ (g ++ sent_of step));
    [split; apply Hp|done|done|apply Hp|]|].
  { destruct He as [->|Hwr]; [exists (epoch s); auto|]. exists (epoch s).
    split; [by apply g_wrapped_arrives|by left]. }
  intros s1 out Hp1.
  assert (Hp' : post g s0 s1 (step_extend step out)) by (eapply post_trans; [apply Hp..|done]).
  do 2 wp_step. destruct (_ || _) eqn:Hret; [by apply wp_ret|].
  apply orb_false_iff in Hret as [_ Hret%bool_decide_eq_false].
  apply IH; [eapply (within_effect q session s); [apply Hp1|done]| | |done].
  - rewrite sent_of_extend, app_assoc. destruct He as [->|?]; [|right; by apply g_wrapped_mono].
    destruct (p_epoch _ _ _ _ Hp1) as [?|?]; [left; lia|by right].
  - intros id' c' Hin. rewrite (e_netinfo _ _ _ (p_effect _ _ _ _ Hp1)).
    rewrite sent_of_extend, app_assoc. destruct (Hl id' c' ltac:(by right)). split; [done|].
    by apply g_arrives_mono.
Qed.
End ghost.
End facts.
End ba_facts.
