(* ===== verification/BaNode.v ===== *)
(** * Binary agreement: the calls of one node

    The recursion of [update_epoch] and the public methods of [BinaryAgreement], over the
    handlers of [BaInvariant]: every call returns, keeps [ba_ok], carries the ghost state
    along, and outputs the decision once. *)
From S2P Require Import Prelude.
From S2P Require Import BTree.
From S2P Require Import Traits.
From S2P Require Import NetworkInfo.
From S2P Require Import BoolSet.
From S2P Require Import SbvBroadcast.
From S2P Require Import ThresholdSign.
From S2P Require Import BinaryAgreement.
From S2P Require Import BaInvariant.
From S2P Require Import Instances.

Module ba_node.
Import binary_agreement.
Import ba_facts.

Section facts.
Context {N Sid : Type} `{ord : NodeIdT N} `{crypto : Crypto} `{sid : !SessionIdT Sid}
  `{laws : !ThresholdSigLaws}.
Abbreviation State := (BinaryAgreement N Sid).
Abbreviation BStep := (Step Message bool N FaultKind).
Implicit Types (s : State) (out : BStep) (b : bool) (e : u64) (g : list Message).

Inductive ba_call : Type :=
  | Propose (input : bool)
  | HandleMessage (sender_id : N) (msg : Message).
Definition run_call (c : ba_call) : M State Error BStep :=
  match c with
  | Propose input => propose input
  | HandleMessage sender_id msg => handle_message sender_id msg
  end.
(** Messages come from other validators. *)
Definition call_from (ni : NetworkInfo N) (c : ba_call) : Prop :=
  match c with Propose _ => True | HandleMessage id _ => peer ni id end.

Section ghost.
Context {gh : Ghost (N := N) (Sid := Sid)}.

Lemma queued_arrives g s e id c :
  core s → holds g s →
  (id, c) ∈ concat ((λ '(sender_id, received), pair sender_id <$> received_messages received) <$>
    entries (default ∅ (incoming_queue s !! e))) →
  peer (netinfo s) id ∧ arrives g id e c.
Proof.
  intros Hs Hg Hin. split; [by eapply queued_senders|].
  apply elem_of_concat in Hin as (l & Hin & (x & -> & Hx)%list_elem_of_fmap).
  destruct x as [j r]. apply list_elem_of_fmap in Hin as (c' & [= -> ->] & Hc).
  apply elem_of_entries in Hx. destruct (incoming_queue s !! e) as [m|] eqn:Hm; [|done].
  by eapply g_queued.
Qed.

(** [n] is enough for the queued epochs and for the epochs that end at once. *)
Lemma update_epoch_spec n b g s :
  core s → decision s = None → ends_with s b → holds g s →
  5 * size (incoming_queue s) + rounds (u64_add (epoch s) 1) b ≤ n →
  wp (update_epoch_fuel n b) s (post g s) (bad (session_id s)).
Proof.
  revert b g s. induction n as [|n IH]; intros b g s Hs Hd Hb Hg Hn.
  { pose proof (rounds_bounds (u64_add (epoch s) 1) b). lia. }
  cbn [update_epoch_fuel]. unfold update_epoch_with. do 10 wp_step.
  set (e1 := u64_add (epoch s) 1) in *. wp_step.
  match goal with |- wp _ ?s1 _ _ => eapply wp_mono_ok; [apply (new_coin_state_spec s1), Hs|] end.
  intros ? c (-> & Hcoin & Hfresh). do 4 wp_step.
  match type of Hcoin with context [set_field (proj := received_conf) (λ _, foldl ?f ?a ?l)] =>
    set (rc := foldl f a l) in * end.
  apply (core_next_epoch rc c s Hs Hd) in Hcoin.
  match goal with |- wp _ ?x _ _ => set (s3 := x) end.
  assert (Hs3 : core s3) by by apply (core_set_estimated (Some b)) in Hcoin.
  assert (He3 : effect s s3 step_default) by by apply effect_same, no_terms_default.
  wp_step. eapply wp_mono; [by apply (send_bval_direct b (sbv_broadcast s))| |done].
  intros s4 o (t & -> & Hs4 & Hok & Ht & Hsends & Ho). wp_step.
  destruct (g_next b rc c t o g s Hs Hd Hg Hb Hcoin Hfresh Hok Ht Hsends) as (Hg4 & Hconf & Hep).
  apply (g_estimated (Some b)) in Hg4.
  set (A := λ b', b' = b ∧ fixed_coin e1 ≠ Some b).
  eapply wp_mono_ok; [apply (handle_sbvb_step_spec (update_epoch_fuel n) A (e1 =.)
    (size (incoming_queue s)) (session_id s)); try done|].
  - intros g' s' b' Hs' Hd' (He & Hq & <-) [-> Hf] Hb' Hg'. apply IH; [done..|].
    rewrite <- He. pose proof (rounds_next e1 b (wrap64_range _) Hf). lia.
  - by left.
  - intros v rest ->%Ho. intros c' Hc' Hne.
    assert (Hdef : bool_set.definite (bool_set.from_bool b) = Some b) by by apply bool_set.definite_Some.
    rewrite Hdef in *. split; [done|]. change (epoch _) with e1 in Hc'. destruct Hc'; congruence.
  - intros s5 step [Hp5 Hpre]. do 4 wp_step.
    assert (Hp : post g s s5 step).
    { destruct Hp5 as [? ? He5 ? Hep5]. split; [done..| |done|].
      - eapply effect_after; [exact He3|]. eapply effect_after; [|exact He5].
        by apply effect_same, no_terms_default.
      - destruct Hep5 as [Hep5|]; [|by right]. destruct Hep as [Hep|Hep].
        + left. change (epoch s3 ≤ epoch s5)%Z in Hep5. change (epoch s ≤ epoch s3)%Z in Hep. lia.
        + right. destruct Hpre as [l ->]. rewrite app_assoc. by apply g_wrapped_mono. }
    clear Hp5 Hpre. destruct Hp as [Hs5 Hq5 He Hg5 Hep5].
    set (s6 := s5 <| incoming_queue ::= delete (epoch s5) |>).
    assert (Hl : ∀ id c, (id, c) ∈ concat ((λ '(sender_id, received),
      pair sender_id <$> received_messages received) <$>
      entries (default ∅ (incoming_queue s5 !! epoch s5))) →
      peer (netinfo s6) id ∧ arrives (g ++ sent_of step) id (epoch s5) c)
      by (intros id c' Hin; exact (queued_arrives _ s5 _ _ _ Hs5 Hg5 Hin)).
    assert (Hp6 : post g s s6 step).
    { split; [by apply core_delete_queued|done| |by apply g_delete|done].
      split; try apply He. etrans; [|apply (e_queue _ _ _ He)].
      apply map_subseteq_size, delete_subseteq. }
    destruct (incoming_queue s5 !! epoch s5) as [m|] eqn:Hm; [|by apply wp_ret].
    assert (Hlt : size (incoming_queue s6) < size (incoming_queue s)).
    { eapply Nat.lt_le_trans; [|apply (e_queue _ _ _ He)].
      change (size (delete (epoch s5) (incoming_queue s5)) < size (incoming_queue s5)).
      assert (size (incoming_queue s5) ≠ 0)
        by (apply (map_size_ne_0_lookup_2 _ (epoch s5)); by exists m).
      rewrite map_size_delete, Hm. lia. }
    apply (handle_queued_spec _ (size (incoming_queue s6)) (session_id s)); try done; [| |by left].
    + intros g' s' b' Hs' Hd' (_ & Hq & <-) _ Hb' Hg'. apply IH; [done..|].
      pose proof (rounds_bounds (u64_add (epoch s') 1) b'). lia.
    + split_and!; [done..|]. apply He.
Qed.

(** ** The public methods *)
Lemma update_epoch_within (P : u64 → Prop) q session g s b :
  core s → decision s = None → within P q session s → True → ends_with s b → holds g s →
  wp (update_epoch b) s (post g s) (bad session).
Proof.
  intros Hs Hd (_ & _ & <-) _ Hb Hg. unfold update_epoch. apply update_epoch_spec; [done..|].
  unfold epoch_fuel. pose proof (rounds_bounds (u64_add (epoch s) 1) b). lia.
Qed.


Lemma sbv_input_spec b g s :
  core s → holds g s → epoch s = 0%Z → input_ok b →
  wp (on_sbv (sbv_broadcast.send_bval b)) s
    (λ s' o, ∃ t, s' = s <| sbv_broadcast := t |> ∧ core s' ∧ holds (g ++ own_sbv (epoch s) o) s' ∧
      ∀ v, v ∈ output o → conf_ok (g ++ own_sbv (epoch s) o) (epoch s) v) (λ _ _, False).
Proof.
  intros Hs Hg He Hin. unfold on_sbv. do 2 wp_step.
  eapply wp_mono; [apply sbv_broadcast.send_bval_input_spec, Hs| |by intros ? []].
  intros t o [Hok Ht]. exists t. split; [done|]. split; [|by eapply g_input].
  apply core_set_sbv; [done..|]. rewrite (sbv_broadcast.so_netinfo _ _ _ _ _ Hok). apply Hs.
Qed.

(** The effect of a whole call, which may add to the queue *)
Record call_effect s s' out : Prop := {
  ce_netinfo : netinfo s' = netinfo s;
  ce_session : session_id s' = session_id s;
  ce_decision : option_list (decision s') = option_list (decision s) ++ output out;
  ce_messages tm b : tm ∈ messages out → content (message tm) = Term b → b ∈ output out;
}.
Lemma effect_call s s' out : effect s s' out → call_effect s s' out.
Proof. by intros []. Qed.
Lemma call_effect_silent s s' out :
  netinfo s' = netinfo s → session_id s' = session_id s → decision s' = decision s →
  output out = [] → messages out = [] → call_effect s s' out.
Proof.
  intros ?? Hd Ho Hm. split; try done; [by rewrite Hd, Ho, app_nil_r|].
  rewrite Hm. by intros tm b ?%elem_of_nil.
Qed.


(** What a call guarantees *)
Definition call_post g s s' out : Prop :=
  ba_ok s' ∧ call_effect s s' out ∧ holds (g ++ sent_of out) s'.
Lemma post_call g s0 s s' out :
  post g s s' out → effect s0 s step_default → call_post g s0 s' out.
Proof.
  intros [Hs Hq He Hg _] E. split_and!; [by split| |done]. apply effect_call.
  by eapply effect_after.
Qed.
Lemma call_silent g s s' out :
  ba_ok s' → call_effect s s' out → messages out = [] → holds g s' → call_post g s s' out.
Proof. intros ?? Hm Hg. split_and!; [done..|]. unfold sent_of. by rewrite Hm, app_nil_r. Qed.

Lemma propose_spec input g s :
  ba_ok s → holds g s → input_ok input →
  wp (propose input) s (call_post g s) (bad (session_id s)).
Proof.
  intros [Hs Hq] Hg Hin. unfold propose. do 2 wp_step. destruct (can_propose s) eqn:Hcan; cbn [negb];
    [|apply wp_ret, call_silent; [done|by apply call_effect_silent|done..]].
  apply andb_true_iff in Hcan as [He%bool_decide_eq_true _].
  do 2 wp_step. set (s1 := s <| estimated := _ |>). wp_step.
  eapply wp_mono; [apply (sbv_input_spec input g s1); [by apply core_set_estimated|by apply g_estimated|done..]| |done].
  intros s2 o (t & -> & Hs2 & Hg2 & Hc2). unfold handle_sbvb_step.
  eapply wp_mono_ok; [apply (handle_sbvb_step_spec update_epoch (λ _, True) (λ _, True)
    (size (incoming_queue s)) (session_id s)) with (g := g); try done; intros; by eapply update_epoch_within|].
  intros s3 out [Hp3 _]. eapply post_call; [exact Hp3|]. by apply effect_same, no_terms_default.
Qed.

Lemma core_enqueue sender e0 c s :
  core s → peer (netinfo s) sender → core (enqueue sender e0 c s).
Proof.
  intros Hs Hp. unfold enqueue. set (epoch_state := default ∅ _). set (r := _.1).
  destruct Hs. split; try done. intros e m j Hq Hj.
  change (<[e0 := <[sender := r]> epoch_state]> (incoming_queue s) !! e = Some m) in Hq.
  apply lookup_insert_Some in Hq as [[_ <-]|[_ Hq]]; [|by eapply c_queue0].
  destruct Hj as [y Hy]. apply lookup_insert_Some in Hy as [[<- _]|[_ Hy]]; [done|].
  unfold epoch_state in Hy. destruct (incoming_queue s !! e0) as [m|] eqn:Hm; [|done].
  eapply c_queue0; [exact Hm|by exists y].
Qed.

Lemma handle_message_spec sender msg g s :
  ba_ok s → peer (netinfo s) sender → holds g s → arrives g sender (msg_epoch msg) (content msg) →
  wp (handle_message sender msg) s (call_post g s) (bad (session_id s)).
Proof.
  intros [Hs Hq] Hp Hg Ha. unfold handle_message. do 2 wp_step. destruct msg as [e0 c].
  cbn [msg_epoch content] in Ha.
  assert (Hsilent : ∀ out, output out = [] → messages out = [] → call_post g s s out)
    by (intros; apply call_silent; [done|by apply call_effect_silent|done..]).
  destruct (_ || _) eqn:Hold; [by apply wp_ret, Hsilent|].
  destruct (bool_decide (u64_add _ _ < _)%Z); [by apply wp_ret, Hsilent|].
  destruct (bool_decide (epoch s < e0)%Z) eqn:Hnew.
  - pose proof (g_enqueue g s sender e0 c Hs Hg Ha) as Hg1.
    pose proof (core_enqueue sender e0 c s Hs Hp) as Hs1. unfold enqueue in Hs1, Hg1.
    destruct (received_insert _ _) as [r fault]. do 2 wp_step. cbn [fst] in *.
    destruct fault; apply wp_ret; (apply call_silent; [by split|by apply call_effect_silent|done..]).
  - apply bool_decide_eq_false in Hnew. apply orb_false_iff in Hold as [_ Hold].
    assert (Harr : arrived g s sender c).
    { exists e0. split; [done|]. destruct (can_expire c) eqn:Hc; [left|right; split; [lia|done]].
      rewrite andb_true_r in Hold. apply bool_decide_eq_false in Hold. lia. }
    unfold handle_message_content. eapply wp_mono_ok; [apply (handle_message_content_spec update_epoch
      (size (incoming_queue s)) (session_id s)) with (g := g); try done; intros; by eapply update_epoch_within|].
    intros s3 out Hp3. eapply post_call; [exact Hp3|]. by apply effect_refl, no_terms_default.
Qed.

(** What is known of a call *)
Definition call_known g (c : ba_call) : Prop :=
  match c with
  | Propose input => input_ok input
  | HandleMessage sender_id msg => arrives g sender_id (msg_epoch msg) (content msg)
  end.
Lemma run_call_spec c g s :
  ba_ok s → call_from (netinfo s) c → holds g s → call_known g c →
  wp (run_call c) s (call_post g s) (bad (session_id s)).
Proof. destruct c; intros; [by apply propose_spec|by apply handle_message_spec]. Qed.
End ghost.

Lemma ba_new_ok (ni : NetworkInfo N) (session : Sid) :
  netinfo_wf ni → sig_threshold (public_key_set ni) = num_faulty ni →
  (is_Some (secret_key_share ni) → is_validator ni = true) → ba_ok (new ni session).
Proof.
  intros Hwf Hth Hsk. split; [|by left]. split; try done.
  - split; [done|done| | |]; cbn.
    + intros b. rewrite bool_set.mem_NONE. symmetry. apply bool_decide_eq_false.
      unfold bm_index. destruct b; cbn; rewrite size_empty; lia.
    + by intros [].
    + by intros [].
  - by left.
  - intros _ []; cbn; rewrite size_empty; lia.
  - by intros [].
Qed.

(** ** Without ghost state *)
#[local] Instance no_ghost : Ghost (N := N) (Sid := Sid).
Proof.
  by refine {| holds _ _ := True; arrives _ _ _ _ := True; conf_ok _ _ _ := True;
    input_ok _ := True; wrapped _ := True |}; intros; try split_and!; try right.
Defined.

Lemma run_call_plain c s :
  ba_ok s → call_from (netinfo s) c →
  wp (run_call c) s (λ s' out, ba_ok s' ∧ call_effect s s' out) (bad (session_id s)).
Proof.
  intros Hs Hc. eapply wp_mono_ok; [apply (run_call_spec (gh := no_ghost) c [] s Hs Hc I); by destruct c|].
  by intros s' out (? & ? & _).
Qed.

(** A run of calls, with the joined steps; [None] if a call does not succeed. *)
Fixpoint run_calls (l : list ba_call) s out : option (State * BStep) :=
  match l with
  | [] => Some (s, out)
  | c :: l =>
      match run_call c s with
      | Ok s o => run_calls l s (step_extend out o)
      | _ => None
      end
  end.

Lemma run_calls_spec l s0 s out :
  Forall (call_from (netinfo s)) l → (∀ e, is_Some (serialize_coin_id (session_id s) e)) →
  ba_ok s → call_effect s0 s out →
  ∃ s' out', run_calls l s out = Some (s', out') ∧ ba_ok s' ∧ call_effect s0 s' out'.
Proof.
  revert s out. induction l as [|c l IH]; intros s out Hl Hser Hok He; [by exists s, out|].
  apply Forall_cons in Hl as [Hc Hl]. pose proof (run_call_plain c s Hok Hc) as Hspec.
  unfold wp in Hspec. cbn [run_calls]. destruct (run_call c s) as [s1 o|s1 e| |]; [|exfalso|done..].
  - destruct Hspec as [Hok1 [Hni Hsid Hd Hm]]. apply IH; [by rewrite Hni|by rewrite Hsid|done|].
    destruct He as [Hni0 Hsid0 Hd0 Hm0]. split; [congruence..| |].
    + cbn [step_extend output]. by rewrite Hd, Hd0, app_assoc.
    + intros tm b [Hin|Hin]%elem_of_app Hc'; apply elem_of_app; [left|right]; eauto.
  - destruct Hspec as (_ & e' & He'). destruct (Hser e'). congruence.
Qed.

(** C25: Every call of a binary agreement instance returns and keeps its invariant: whatever a
    validator sends, in whatever order, the instance does not panic, it does not loop
    through epochs, and its only error is that the session and the epoch do not
    serialize; an output is the decision that the call made. *)
Theorem ba_call_returns c s :
  ba_ok s → call_from (netinfo s) c →
  match run_call c s with
  | Ok s' out => ba_ok s' ∧ netinfo s' = netinfo s ∧
      option_list (decision s') = option_list (decision s) ++ output out
  | Err _ e => e = Serialize ∧ ∃ e, serialize_coin_id (session_id s) e = None
  | Panic | NoFuel => False
  end.
Proof.
  intros Hok Hc. pose proof (run_call_plain c s Hok Hc) as Hspec. unfold wp in Hspec.
  destruct (run_call c s); [|done..]. by destruct Hspec as [? []].
Qed.

(** C26: An instance decides at most once: after any sequence of calls from its creation the outputs
    are the decision, if there is one, and [Term] messages carry it; and it was decided for
    a reason, more than [f] [Term] messages of other validators or a coin equal to the only
    value of the [Conf] round. *)
Theorem ba_decides_once (ni : NetworkInfo N) (session : Sid) l :
  netinfo_wf ni → sig_threshold (public_key_set ni) = num_faulty ni →
  (is_Some (secret_key_share ni) → is_validator ni = true) →
  (∀ e, is_Some (serialize_coin_id session e)) → Forall (call_from ni) l →
  ∃ s out, run_calls l (new ni session) step_default = Some (s, out) ∧
    output out = option_list (decision s) ∧
    (∀ b, decision s = Some b → grounds s b) ∧
    (∀ tm b, tm ∈ messages out → content (message tm) = Term b → decision s = Some b).
Proof.
  intros Hwf Hth Hsk Hser Hl. pose proof (ba_new_ok ni session Hwf Hth Hsk) as Hok.
  destruct (run_calls_spec l (new ni session) (new ni session) step_default) as (s & out & Hrun & [Hs _] & [_ _ Hd Hm]);
    [done..|by apply call_effect_silent|]. simpl in Hd.
  exists s, out. split_and!; [done|by rewrite Hd|apply Hs|]. intros tm b Hin Hc.
  specialize (Hm tm b Hin Hc). rewrite <- Hd in Hm. destruct (decision s); set_solver.
Qed.
End facts.

(** ** Examples *)
Section demo.
#[local] Existing Instance threshold_sign.number_sig_laws.
#[local] Instance demo_session : SessionIdT nat := {| serialize_coin_id _ _ := Some [] |}.
Definition demo_ba : BinaryAgreement nat nat := new (four_netinfo 0) 5.
(** Nodes 1 and 2 vote [true]. *)
Definition demo_calls : list (@ba_call nat number_crypto) :=
  let msg id m := HandleMessage id (mkMessage _ 0 (SbvBroadcast m)) in
  [Propose true; msg 1 (sbv_broadcast.BVal true); msg 2 (sbv_broadcast.BVal true);
   msg 1 (sbv_broadcast.Aux true); msg 2 (sbv_broadcast.Aux true)].

Lemma demo_calls_from : Forall (call_from (four_netinfo 0)) demo_calls.
Proof.
  destruct (four_netinfo_ok 0) as (_ & Hid & Hpub).
  repeat constructor; try (rewrite Hid; lia); unfold is_node_validator; by rewrite Hpub.
Qed.

Lemma demo_keys i : netinfo_wf (four_netinfo i) ∧
  sig_threshold (public_key_set (four_netinfo i)) = num_faulty (four_netinfo i) ∧
  (is_Some (secret_key_share (four_netinfo i)) → i < 4 → is_validator (four_netinfo i) = true).
Proof.
  destruct (four_netinfo_ok i) as (Hwf & Hid & Hpub). split_and!; [done|done|].
  intros _ Hi. rewrite (wf_is_validator _ Hwf). unfold is_node_validator. rewrite Hid, Hpub.
  do 4 (destruct i as [|i]; [done|]). lia.
Qed.

Lemma ba_decides_once_witness : ∃ s out,
  run_calls demo_calls demo_ba step_default = Some (s, out) ∧ output out = [true] ∧
  decision s = Some true ∧ grounds s true.
Proof.
  destruct (demo_keys 0) as (Hwf & Hth & Hsk).
  destruct (ba_decides_once (four_netinfo 0) 5 demo_calls Hwf Hth (λ H, Hsk H ltac:(lia)) (λ _, ltac:(eauto))
    demo_calls_from) as (s & out & Hrun & Ho & Hg & _).
  assert (Hd : from_option (λ '(s, _), decision s) None (run_calls demo_calls demo_ba step_default) = Some true)
    by (vm_compute; reflexivity).
  change (run_calls demo_calls demo_ba step_default = Some (s, out)) in Hrun.
  rewrite Hrun in Hd. simpl in Hd. exists s, out. rewrite Ho, Hd. auto.
Defined.

Lemma ba_call_returns_witness : ba_ok demo_ba ∧
  match run_call (Propose true) demo_ba with Ok s' _ => ba_ok s' | _ => False end.
Proof.
  destruct (demo_keys 0) as (Hwf & Hth & Hsk).
  assert (Hok : ba_ok demo_ba) by (apply ba_new_ok; [done..|intros; apply Hsk; [done|lia]]).
  split; [done|]. pose proof (ba_call_returns (Propose true) demo_ba Hok I) as H.
  destruct (run_call (Propose true) demo_ba); try done; [apply H|destruct H as (_ & ? & [=])].
Defined.
End demo.
End ba_node.
