(* ===== verification/BaEvidence.v ===== *)
(** * Binary agreement: evidence

    Why the nodes of a network decide what they decide.  The evidence is what correct nodes
    have sent, by epoch ([sent]); a [Term] message counts as [BVal] and [Aux] of all later
    epochs.  [cert] is a reason to decide, [just] a reason to vote; [lock] says that after
    the first no vote for another value is possible.  [node_ok] ties a node's state to the
    evidence, and [net_ghost] is the ghost state with which the calls of [BaNode] keep it:
    [BaAgreement] puts the nodes into a network. *)
From S2P Require Import Prelude.
From S2P Require Import BTree.
From S2P Require Import Traits.
From S2P Require Import Net.
From S2P Require Import NetworkInfo.
From S2P Require Import BoolSet.
From S2P Require Import SbvBroadcast.
From S2P Require Import ThresholdSign.
From S2P Require Import BinaryAgreement.
From S2P Require Import BaInvariant.
From S2P Require Import BaNode.
From S2P Require Import Instances.

Module ba_evidence.
Import binary_agreement.
Import ba_facts.
Import ba_node.

Section agreement.
Context {N Sid : Type} `{ord : NodeIdT N} `{crypto : Crypto} `{sid : !SessionIdT Sid}
  `{laws : !ThresholdSigLaws}.
Context (pubs : gmap N PublicKey) (correct : gset N) (pks : PublicKeySet) (session : Sid).
Abbreviation n := (size pubs).
Abbreviation f := ((size pubs - 1) / 3).
Abbreviation State := (BinaryAgreement N Sid).
Abbreviation BStep := (Step Message bool N FaultKind).
Abbreviation SbvStep := (Step sbv_broadcast.Message BoolSet N sbv_broadcast.FaultKind).
Abbreviation bval b := (SbvBroadcast (sbv_broadcast.BVal b)).
Abbreviation aux b := (SbvBroadcast (sbv_broadcast.Aux b)).
(** Who sent what, in which epoch *)
Abbreviation sent := (N → u64 → MessageContent → Prop).
Implicit Types (s : State) (out : BStep) (b : bool) (e : Z) (K : sent) (inp : bool → Prop)
  (i j k : N) (v : BoolSet).

(** ** Evidence *)
Definition termish K k e b : Prop := ∃ m, (m ≤ e)%Z ∧ K k m (Term b).
Definition bvalish K k e b : Prop := K k e (bval b) ∨ termish K k e b.
Definition auxish K k e b : Prop := K k e (aux b) ∨ termish K k e b.

(** [N - f] nodes sent [Aux(b)]. *)
Definition squorum K e b : Prop := ∃ Q : gset N, Q ⊆ dom pubs ∧ n - f ≤ size Q ∧
  ∀ k, k ∈ Q → k ∈ correct → auxish K k e b.
(** The coin of the epoch *)
Definition coinval e b : Prop := fixed_coin e = Some b ∨
  (fixed_coin e = None ∧ ∃ doc sig, serialize_coin_id session e = Some doc ∧
    pk_verify_g2 (pk_set_public_key pks) sig (hash_g2 doc) = true ∧ sig_parity sig = b).
Definition cert K e b : Prop := (0 ≤ e)%Z ∧ squorum K e b ∧ coinval e b.
Definition backed K e b : Prop := ∃ k, k ∈ correct ∧ bvalish K k e b.
Definition just K inp e b : Prop := (e = 0%Z ∧ inp b) ∨
  ((0 < e)%Z ∧ (squorum K (e - 1) b ∨ (coinval (e - 1) b ∧ backed K (e - 1) b) ∨
    ∃ e', (e' < e)%Z ∧ cert K e' b)).

(** What correct nodes send is justified. *)
Record just_ok K inp : Prop := {
  j_bval k e b : k ∈ correct → K k e (bval b) → just K inp e b;
  j_aux k e b : k ∈ correct → K k e (aux b) → just K inp e b;
  j_term k m b : k ∈ correct → K k m (Term b) → ∃ e, (e < m)%Z ∧ cert K e b;
}.

(** *** More evidence *)
Definition le K K' : Prop := ∀ j e c, K j e c → K' j e c.
Lemma termish_mono K K' k e e' b : le K K' → (e ≤ e')%Z → termish K k e b → termish K' k e' b.
Proof. intros HK He (m & Hm & Hk). exists m. split; [lia|by apply HK]. Qed.
Lemma bvalish_mono K K' k e b : le K K' → bvalish K k e b → bvalish K' k e b.
Proof. intros HK [?|?]; [left; by apply HK|right; by eapply termish_mono]. Qed.
Lemma auxish_mono K K' k e b : le K K' → auxish K k e b → auxish K' k e b.
Proof. intros HK [?|?]; [left; by apply HK|right; by eapply termish_mono]. Qed.
Lemma squorum_mono K K' e b : le K K' → squorum K e b → squorum K' e b.
Proof.
  intros HK (Q & ? & ? & HQ). exists Q. split_and!; [done..|]. intros. eapply auxish_mono; eauto.
Qed.
Lemma cert_mono K K' e b : le K K' → cert K e b → cert K' e b.
Proof. intros HK (? & ? & ?). split_and!; [done|by eapply squorum_mono|done]. Qed.
Lemma backed_mono K K' e b : le K K' → backed K e b → backed K' e b.
Proof. intros HK (k & ? & ?). exists k. split; [done|by eapply bvalish_mono]. Qed.
Lemma just_mono K K' inp inp' e b :
  le K K' → (∀ b, inp b → inp' b) → just K inp e b → just K' inp' e b.
Proof.
  intros HK Hi [[? ?]|(? & [?|[[? ?]|(e' & ? & ?)]])]; [left; auto|right; split; [done|]..].
  - left. by eapply squorum_mono.
  - right; left. split; [done|by eapply backed_mono].
  - right; right. exists e'. split; [done|by eapply cert_mono].
Qed.

(** ** Locking *)
Section lock.
Context (K : sent) (inp : bool → Prop) (HJ : just_ok K inp).

Lemma term_just k e b : k ∈ correct → termish K k e b → just K inp e b.
Proof.
  intros Hk (m & Hm & Ht). destruct (j_term _ _ HJ k m b Hk Ht) as (e' & He' & Hc).
  right. split; [destruct Hc as [? _]; lia|]. right; right. exists e'. split; [lia|done].
Qed.
Lemma backed_just e b : backed K e b → just K inp e b.
Proof. intros (k & Hk & [?|?]); [by eapply j_bval|by eapply term_just]. Qed.
Context (Hbyz : size (dom pubs ∖ correct) ≤ f) (Hn : 3 * f < n).

Lemma squorum_just e b : squorum K e b → just K inp e b.
Proof.
  intros (Q & HQ & Hs & Ha). destruct (quorum_correct (dom pubs) correct f Hbyz Q) as (k & Hk & Hc);
    [done|lia|]. destruct (Ha k Hk Hc) as [?|?]; [by eapply j_aux|by eapply term_just].
Qed.

Lemma coinval_unique e b b' : coinval e b → coinval e b' → b = b'.
Proof.
  intros [Hf|(Hf & doc & sg & Hd & Hv & <-)] [Hf'|(Hf' & doc' & sg' & Hd' & Hv' & <-)]; try congruence.
  assert (doc' = doc) as -> by congruence. f_equal. by eapply sig_unique.
Qed.

(** No correct node sends [Aux] for both values in an epoch. *)
Context (Huniq : ∀ k e b b', k ∈ correct → auxish K k e b → auxish K k e b' → b = b').

Lemma squorum_unique e b b' : squorum K e b → squorum K e b' → b = b'.
Proof.
  intros (Q & HQ & Hs & Ha) (Q' & HQ' & Hs' & Ha').
  destruct (quorum_intersect (dom pubs) correct f Hbyz Q Q') as (k & Hk & Hk' & Hc);
    rewrite ?size_dom; [done..|]. by eapply Huniq; [|apply Ha|apply Ha'].
Qed.

(** After a reason to decide [b] in epoch [e], every vote of a later epoch is for [b]. *)
Lemma lock e0 : ∀ e b b', (e < e0)%Z → cert K e b → just K inp e0 b' → b' = b.
Proof.
  assert (Hge : (e0 < 0)%Z ∨ (0 ≤ e0)%Z) by lia. destruct Hge as [Hneg|Hge].
  { intros e b b' He [? _]. lia. }
  revert e0 Hge. apply (Z_lt_induction (λ e0, ∀ e b b', (e < e0)%Z → cert K e b → just K inp e0 b' → b' = b)).
  intros e0 IH e b b' He (He0 & Hq & Hc) [[-> _]|(_ & Hj)]; [lia|].
  assert (Hsq : ∀ e', (e' < e0)%Z → squorum K e' b' → (e ≤ e')%Z → b' = b).
  { intros e' He' Hq' Hle. destruct (decide (e = e')) as [<-|Hne]; [by eapply squorum_unique|].
    eapply (IH e'); [lia| |by split_and!|by apply squorum_just]. lia. }
  destruct Hj as [Hq'|[[Hc' Hb']|(e' & He' & Hge' & Hq' & Hc')]].
  - eapply Hsq; [|done|]; lia.
  - destruct (decide (e = e0 - 1)%Z) as [->|Hne]; [by eapply coinval_unique|].
    eapply (IH (e0 - 1)%Z); [lia| |by split_and!|by apply backed_just]. lia.
  - destruct (Z.le_gt_cases e e') as [Hle|Hgt]; [by eapply Hsq|].
    symmetry. eapply (IH e); [lia| |by split_and!|by apply squorum_just]. done.
Qed.

Lemma cert_unique e e' b b' : cert K e b → cert K e' b' → b = b'.
Proof.
  intros Hc Hc'. destruct (Z.lt_trichotomy e e') as [Hlt|[<-|Hgt]].
  - symmetry. eapply lock; [exact Hlt|done|]. apply squorum_just, Hc'.
  - by eapply squorum_unique; [apply Hc|apply Hc'].
  - eapply lock; [exact Hgt|done|]. apply squorum_just, Hc.
Qed.

(** A value that is voted for was proposed by a correct node. *)
Lemma just_input e : ∀ b, just K inp e b → inp b.
Proof.
  destruct (Z.lt_ge_cases e 0) as [Hneg|Hge]; [intros b [[? ?]|[? _]]; [done|lia]|].
  revert e Hge. apply (Z_lt_induction (λ e, ∀ b, just K inp e b → inp b)).
  intros e IH b [[_ ?]|(He & [Hq|[[_ Hb]|(e' & He' & ? & Hq & _)]])]; [done|..].
  - eapply (IH (e - 1)%Z); [lia|by apply squorum_just].
  - eapply (IH (e - 1)%Z); [lia|by apply backed_just].
  - eapply (IH e'); [lia|by apply squorum_just].
Qed.
End lock.

(** ** One node *)
Definition conf_good K e v : Prop := bool_set.wf v ∧ v ≠ bool_set.NONE ∧
  (∀ b, bool_set.mem v b = true → backed K e b) ∧
  (∀ b, v = bool_set.from_bool b → squorum K e b).

Abbreviation bvals s b := (bm_index (sbv_broadcast.received_bval (sbv_broadcast s)) b).
Abbreviation auxs s b := (bm_index (sbv_broadcast.received_aux (sbv_broadcast s)) b).
Abbreviation was_sent s b := (bool_set.mem (sbv_broadcast.sent_bval (sbv_broadcast s)) b).

(** The state of node [i] and the evidence *)
Record node_ok K inp i s : Prop := {
  n_epoch : (0 ≤ epoch s < u64_max)%Z;
  n_bval b j : j ∈ bvals s b → j ∈ dom pubs ∧ (j ∈ correct → bvalish K j (epoch s) b);
  n_aux b j : j ∈ auxs s b → j ∈ dom pubs ∧ (j ∈ correct → auxish K j (epoch s) b);
  n_sent b : was_sent s b = true → just K inp (epoch s) b;
  n_term b j : j ∈ bm_index (received_term s) b →
    j ∈ dom pubs ∧ (j ∈ correct → termish K j (epoch s) b);
  n_conf v : conf_values s = Some v → conf_good K (epoch s) v;
  n_coin c : coin_value (coin_state s) = Some c → coinval (epoch s) c;
  n_dec b : decision s = Some b → ∃ e, (e ≤ epoch s)%Z ∧ cert K e b;
  n_queue e m j r c : incoming_queue s !! e = Some m → m !! j = Some r →
    c ∈ received_messages r → j ∈ correct → K j e c;
  n_own_sbv e m : K i e (SbvBroadcast m) → (e ≤ epoch s)%Z;
  n_own_aux b : K i (epoch s) (aux b) → i ∈ auxs s b;
  n_own_uniq e b b' : K i e (aux b) → K i e (aux b') → b = b';
  n_own_term m b : K i m (Term b) → m = (epoch s + 1)%Z ∧ decision s = Some b;
}.

(** What a node knows of the network *)
Record member i s : Prop := {
  m_id : NetworkInfo.our_id (netinfo s) = i;
  m_pubs : public_keys (netinfo s) = pubs;
  m_pks : public_key_set (netinfo s) = pks;
  m_session : session_id s = session;
}.

Lemma conf_good_mono K K' e v : le K K' → conf_good K e v → conf_good K' e v.
Proof.
  intros HK (? & ? & Hb & Hq). split_and!; [done..| |]; intros b ?;
    [eapply backed_mono; eauto|eapply squorum_mono; eauto].
Qed.

(** More evidence, but no more of this node that it restricts. *)
Lemma node_ok_mono K K' inp inp' i s :
  le K K' → (∀ b, inp b → inp' b) →
  (∀ e c, K' i e c → K i e c ∨ silent c) → node_ok K inp i s → node_ok K' inp' i s.
Proof.
  intros HK Hi Hown []. split; try done.
  - intros b j Hj. destruct (n_bval0 b j Hj). split; [done|]. intros. eapply bvalish_mono; eauto.
  - intros b j Hj. destruct (n_aux0 b j Hj). split; [done|]. intros. eapply auxish_mono; eauto.
  - intros b Hb. eapply just_mono; eauto.
  - intros b j Hj. destruct (n_term0 b j Hj). split; [done|]. intros. apply (termish_mono K K' j (epoch s)); [done|done|auto].
  - intros v Hv. eapply conf_good_mono; eauto.
  - intros b Hb. destruct (n_dec0 b Hb) as (e & ? & ?). exists e. split; [done|by eapply cert_mono].
  - intros e m j r c Hm Hr Hc Hj. apply HK. by eapply n_queue0.
  - intros e m [?|[]]%Hown. by eapply n_own_sbv0.
  - intros b [?|[]]%Hown. by apply n_own_aux0.
  - intros e b b' [?|[]]%Hown [?|[]]%Hown. by eapply n_own_uniq0.
  - intros m b [?|[]]%Hown. by apply n_own_term0.
Qed.

Lemma just_ok_mono K K' inp inp' :
  le K K' → (∀ b, inp b → inp' b) →
  (∀ k e c, k ∈ correct → K' k e c → K k e c ∨ silent c) → just_ok K inp → just_ok K' inp'.
Proof.
  intros HK Hi Hnew []. split.
  - intros k e b Hk [?|[]]%Hnew; [|done]. eapply just_mono; eauto.
  - intros k e b Hk [?|[]]%Hnew; [|done]. eapply just_mono; eauto.
  - intros k m b Hk [Ht|[]]%Hnew; [|done]. destruct (j_term0 k m b Hk Ht) as (e & ? & ?).
    exists e. split; [done|by eapply cert_mono].
Qed.

(** *** A call of the broadcast *)
Section sbv.
Context (Hbyz : size (dom pubs ∖ correct) ≤ f).
Context (i : N) (Hi : i ∈ correct) (Hival : i ∈ dom pubs).

Lemma member_sizes s : core s → member i s →
  num_faulty (netinfo s) = f ∧ num_correct (netinfo s) = n - f ∧ is_validator (netinfo s) = true ∧
  sbv_broadcast.me (sbv_broadcast s) = i.
Proof.
  intros Hs []. pose proof (c_wf _ Hs) as Hwf. unfold num_correct, sbv_broadcast.me.
  rewrite (c_sbv_netinfo _ Hs), (wf_num_faulty _ Hwf), (wf_num_nodes _ Hwf), m_pubs0.
  split_and!; [done..| |done]. rewrite (wf_is_validator _ Hwf). unfold is_node_validator.
  rewrite m_id0, m_pubs0. by apply bool_decide_eq_true, elem_of_dom.
Qed.

Context (s : State) (Hs : core s) (Hmem : member i s).
Context (K K' : sent) (inp : bool → Prop) (HJ : just_ok K inp) (Hnode : node_ok K inp i s).
Context (inp0 : option bool) (from : option (N * sbv_broadcast.Message))
  (t : sbv_broadcast.SbvBroadcast N) (o : SbvStep)
  (Hok : sbv_broadcast.step_ok inp0 from (sbv_broadcast s) t o) (Ht : sbv_broadcast.state_ok t).
Context (Hinp : ∀ b, inp0 = Some b → just K inp (epoch s) b)
  (Hfrom : ∀ j m, from = Some (j, m) → j ≠ i ∧ j ∈ dom pubs ∧ (j ∈ correct →
    match m with sbv_broadcast.BVal b => bvalish K j (epoch s) b
               | sbv_broadcast.Aux b => auxish K j (epoch s) b end)).
(** The new evidence are our messages. *)
Context (HK : ∀ j e c, K' j e c ↔ K j e c ∨
  (j = i ∧ e = epoch s ∧ ∃ tm, tm ∈ messages o ∧ c = SbvBroadcast (message tm))).

Lemma sbv_le : le K K'.
Proof. intros j e c ?. apply HK. by left. Qed.

Lemma sbv_me : sbv_broadcast.me t = i.
Proof.
  rewrite (sbv_broadcast.sbv_me_eq _ _ (sbv_broadcast.so_netinfo _ _ _ _ _ Hok)).
  by destruct (member_sizes s Hs Hmem) as (_ & _ & _ & ?).
Qed.
Lemma sbv_faulty : num_faulty (sbv_broadcast.netinfo t) = f ∧
  num_faulty (sbv_broadcast.netinfo (sbv_broadcast s)) = f ∧
  num_correct (sbv_broadcast.netinfo (sbv_broadcast s)) = n - f.
Proof.
  rewrite (sbv_broadcast.so_netinfo _ _ _ _ _ Hok), (c_sbv_netinfo _ Hs).
  by destruct (member_sizes s Hs Hmem) as (? & ? & _).
Qed.

Lemma sbv_new_bval b j : j ∈ bm_index (sbv_broadcast.received_bval t) b →
  j ∈ dom pubs ∧ (j ∈ correct → bvalish K' j (epoch s) b).
Proof.
  destruct (member_sizes s Hs Hmem) as (_ & _ & _ & Hme).
  intros [Hj|[Hj|(-> & _ & tm & Hin & Hm)]]%(sbv_broadcast.so_new_bval _ _ _ _ _ Hok).
  - destruct (n_bval _ _ _ _ Hnode b j Hj). split; [done|]. intros.
    eapply bvalish_mono; [apply sbv_le|auto].
  - destruct (Hfrom _ _ Hj) as (_ & ? & ?). split; [done|]. intros.
    eapply bvalish_mono; [apply sbv_le|auto].
  - rewrite Hme. split; [done|]. intros _. left. apply HK. right. split_and!; [done..|].
    exists tm. by rewrite Hm.
Qed.
Lemma sbv_new_aux b j : j ∈ bm_index (sbv_broadcast.received_aux t) b →
  j ∈ dom pubs ∧ (j ∈ correct → auxish K' j (epoch s) b).
Proof.
  destruct (member_sizes s Hs Hmem) as (_ & _ & _ & Hme).
  intros [Hj|[Hj|(-> & _ & tm & Hin & Hm)]]%(sbv_broadcast.so_new_aux _ _ _ _ _ Hok).
  - destruct (n_aux _ _ _ _ Hnode b j Hj). split; [done|]. intros.
    eapply auxish_mono; [apply sbv_le|auto].
  - destruct (Hfrom _ _ Hj) as (_ & ? & ?). split; [done|]. intros.
    eapply auxish_mono; [apply sbv_le|auto].
  - rewrite Hme. split; [done|]. intros _. left. apply HK. right. split_and!; [done..|].
    exists tm. by rewrite Hm.
Qed.

(** Our [BVal]s are justified: input, or sent by another correct node before. *)
Lemma sbv_new_sent b : bool_set.mem (sbv_broadcast.sent_bval t) b = true → just K' inp (epoch s) b.
Proof.
  assert (Hmono : just K inp (epoch s) b → just K' inp (epoch s) b)
    by (apply just_mono; [apply sbv_le|done]).
  intros [Hb|[Hb|Hb]]%(sbv_broadcast.so_new_sent _ _ _ _ _ Hok).
  - by apply Hmono, (n_sent _ _ _ _ Hnode).
  - by apply Hmono, Hinp.
  - destruct sbv_faulty as (_ & Hf & _). destruct (member_sizes s Hs Hmem) as (_ & _ & _ & Hme).
    rewrite Hf, Hme in Hb.
    destruct (quorum_correct (dom pubs) correct f Hbyz
      (bm_index (sbv_broadcast.received_bval t) b ∖ {[i]})) as (k & Hk & Hc); [|done|].
    + intros k [Hk _]%elem_of_difference. by destruct (sbv_new_bval b k Hk).
    + apply elem_of_difference in Hk as [Hk Hne]. apply not_elem_of_singleton in Hne.
      apply Hmono, (backed_just K inp HJ). exists k. split; [done|].
      destruct (sbv_new_bval b k Hk) as [_ Hb']. destruct (Hb' Hc) as [Hb''|(m & Hm & Hb'')];
        apply HK in Hb'' as [?|(? & _)]; try done; [by left|right; by exists m].
Qed.

Lemma sbv_just_ok : just_ok K' inp.
Proof.
  assert (Hjb : ∀ k e b, k ∈ correct → K' k e (bval b) → just K' inp e b).
  { intros k e b Hk [?|(-> & -> & tm & Hin & Hc)]%HK.
    - eapply just_mono; [apply sbv_le|done|by eapply (j_bval _ _ HJ)].
    - injection Hc as Hc. apply sbv_new_sent. apply (sbv_broadcast.st_own_bval _ Ht).
      destruct (sbv_broadcast.so_messages _ _ _ _ _ Hok tm Hin) as [_ Hm]. rewrite <- Hc in Hm.
      by rewrite (sbv_broadcast.sbv_me_eq _ _ (sbv_broadcast.so_netinfo _ _ _ _ _ Hok)). }
  assert (Hjt : ∀ k m b, k ∈ correct → K' k m (Term b) → ∃ e, (e < m)%Z ∧ cert K' e b).
  { intros k m b Hk [Hk'|(_ & _ & tm & _ & [=])]%HK.
    destruct (j_term _ _ HJ k m b Hk Hk') as (e & ? & ?). exists e. split; [done|].
    by eapply cert_mono; [apply sbv_le|]. }
  split; [done| |done].
  intros k e b Hk [?|(-> & -> & tm & Hin & Hc)]%HK.
  { eapply just_mono; [apply sbv_le|done|by eapply (j_aux _ _ HJ)]. }
  injection Hc as Hc.
  destruct (sbv_broadcast.so_messages _ _ _ _ _ Hok tm Hin) as [_ Hm]. rewrite <- Hc in Hm.
  rewrite <- (sbv_broadcast.sbv_me_eq _ _ (sbv_broadcast.so_netinfo _ _ _ _ _ Hok)) in Hm.
  destruct (sbv_broadcast.st_own_aux _ Ht b Hm) as [Hbin _].
  rewrite (sbv_broadcast.st_bin _ Ht), bool_decide_eq_true in Hbin.
  destruct sbv_faulty as (Hf & _). rewrite Hf in Hbin.
  destruct (quorum_correct (dom pubs) correct f Hbyz (bm_index (sbv_broadcast.received_bval t) b))
    as (k & Hk' & Hc'); [by intros k [? _]%sbv_new_bval|lia|].
  destruct (sbv_new_bval b k Hk') as [_ Hb]. destruct (Hb Hc') as [?|(m & Hm' & Hb')]; [by eapply Hjb|].
  destruct (Hjt k m b Hc' Hb') as (e & He & Hcert).
  right. split; [destruct Hcert as [? _]; lia|]. right; right. exists e. split; [lia|done].
Qed.

Lemma sbv_node_ok : node_ok K' inp i (s <| sbv_broadcast := t |>).
Proof.
  pose proof sbv_le as Hle.
  assert (Hown : ∀ b, K' i (epoch s) (aux b) → i ∈ bm_index (sbv_broadcast.received_aux t) b).
  { intros b [Hb|(_ & _ & tm & Hin & Hc)]%HK.
    - by apply (sbv_broadcast.so_aux _ _ _ _ _ Hok), (n_own_aux _ _ _ _ Hnode).
    - injection Hc as Hc. destruct (sbv_broadcast.so_messages _ _ _ _ _ Hok tm Hin) as [_ Hm].
      rewrite <- Hc in Hm. by destruct (member_sizes s Hs Hmem) as (_ & _ & _ & <-). }
  assert (Hold : ∀ e c, K' i e c → e = epoch s ∨ K i e c).
  { intros e c [?|(_ & -> & _)]%HK; auto. }
  split; cbn [epoch sbv_broadcast received_term conf_values coin_state decision incoming_queue].
  - apply Hnode.
  - apply sbv_new_bval.
  - apply sbv_new_aux.
  - apply sbv_new_sent.
  - intros b j Hj. destruct (n_term _ _ _ _ Hnode b j Hj). split; [done|]. intros.
    eapply termish_mono; [done|reflexivity|auto].
  - intros v Hv. eapply conf_good_mono; [done|by apply (n_conf _ _ _ _ Hnode)].
  - apply Hnode.
  - intros b Hb. destruct (n_dec _ _ _ _ Hnode b Hb) as (e & ? & ?). exists e.
    split; [done|by eapply cert_mono].
  - intros e m j r c Hm Hr Hc Hj. apply Hle. by eapply (n_queue _ _ _ _ Hnode).
  - intros e m [->|Hm]%Hold; [done|by eapply (n_own_sbv _ _ _ _ Hnode)].
  - done.
  - intros e b b' Hb Hb'. destruct (Hold _ _ Hb) as [->|Hb1].
    + apply Hown in Hb, Hb'. rewrite <- sbv_me in Hb, Hb'.
      destruct (sbv_broadcast.st_own_aux _ Ht b Hb) as [_ Hn]. destruct b, b'; done.
    + destruct (Hold _ _ Hb') as [->|Hb1'].
      * apply Hown in Hb, Hb'. rewrite <- sbv_me in Hb, Hb'.
        destruct (sbv_broadcast.st_own_aux _ Ht b Hb) as [_ Hn]. destruct b, b'; done.
      * by eapply (n_own_uniq _ _ _ _ Hnode).
  - intros m b [Hm|(_ & _ & ? & _ & [=])]%HK. by apply (n_own_term _ _ _ _ Hnode).
Qed.

Lemma sbv_conf_good v : v ∈ output o → conf_good K' (epoch s) v.
Proof.
  destruct (sbv_broadcast.so_output _ _ _ _ _ Hok) as [->|(v' & -> & _ & _ & Hw & Hz & Hb & Ha & _)];
    [by intros ?%elem_of_nil|intros ->%list_elem_of_singleton].
  destruct sbv_faulty as (_ & Hf & Hc). rewrite Hf in Hb. rewrite Hc in Ha. split_and!; [done..| |].
  - intros b Hm%Hb. destruct (quorum_correct (dom pubs) correct f Hbyz
      (bm_index (sbv_broadcast.received_bval t) b)) as (k & Hk & Hck); [by intros k [? _]%sbv_new_bval|lia|].
    exists k. split; [done|by apply sbv_new_bval].
  - intros b Hv. exists (bm_index (sbv_broadcast.received_aux t) b).
    split_and!; [by intros k [? _]%sbv_new_aux|by apply Ha|]. intros k [_ Hk]%sbv_new_aux. exact Hk.
Qed.
End sbv.

(** ** Epochs, terms and the queue *)
Section other.
Context (i : N) (Hi : i ∈ correct) (Hival : i ∈ dom pubs).
Context (s : State) (Hs : core s) (Hmem : member i s).
Context (K : sent) (inp : bool → Prop) (HJ : just_ok K inp) (Hnode : node_ok K inp i s).

Lemma node_ok_next rc c : decision s = None → (epoch s + 1 < u64_max)%Z → core (next_epoch s rc c) →
  fresh_coin (epoch s + 1) c → node_ok K inp i (next_epoch s rc c).
Proof.
  intros Hd Hlt Hs1 Hfresh. destruct Hnode as [He ??? Ht ?? ? Hq Hos Hoa Hou Hot].
  assert (Hep : epoch (next_epoch s rc c) = (epoch s + 1)%Z).
  { apply u64_add_small. unfold in_u64, u64_max in *. lia. }
  split; rewrite ?Hep; try done.
  - lia.
  - intros b j Hj. destruct (Ht b j Hj) as [? Htj]. split; [done|]. intros Hc. right.
    apply (termish_mono K K j (epoch s)); [by intros ???|lia|by apply Htj].
  - intros b j Hj. destruct (Ht b j Hj) as [? Htj]. split; [done|]. intros Hc. right.
    apply (termish_mono K K j (epoch s)); [by intros ???|lia|by apply Htj].
  - intros b Hb. by rewrite bool_set.mem_NONE in Hb.
  - intros b j Hj. destruct (Ht b j Hj) as [? Htj]. split; [done|]. intros Hc.
    apply (termish_mono K K j (epoch s)); [by intros ???|lia|by apply Htj].
  - intros b Hb. destruct c as [v|ts]; [left|done]. cbn in Hb. congruence.
  - intros b Hb. cbn in Hb. congruence.
  - intros e m Hm. specialize (Hos e m Hm). lia.
  - intros b Hb. specialize (Hos _ _ Hb). lia.
  - intros m b Hm. destruct (Hot m b Hm). congruence.
Qed.

(** The estimate of the next epoch is justified. *)
Lemma ends_just b : ends_with s b → just K inp (epoch s + 1) b.
Proof.
  intros (v & c & Hv & Hc & _ & ->). right. pose proof (n_epoch _ _ _ _ Hnode).
  split; [lia|]. replace (epoch s + 1 - 1)%Z with (epoch s) by lia.
  destruct (n_conf _ _ _ _ Hnode v Hv) as (Hw & Hz & Hb & Hq).
  destruct (bool_set.definite v) as [b|] eqn:Hdef; simpl.
  - left. by apply Hq, bool_set.definite_Some.
  - right; left. split; [by apply (n_coin _ _ _ _ Hnode)|]. apply Hb.
    apply bool_set.wf_cases in Hw as [->|[->|[->| ->]]]; try done. apply bool_set.mem_BOTH.
Qed.

Lemma peer_dom j : peer (netinfo s) j → j ∈ dom pubs.
Proof.
  intros [_ Hp]. rewrite elem_of_dom. unfold is_node_validator in Hp.
  rewrite (m_pubs _ _ Hmem) in Hp. by apply bool_decide_eq_true in Hp.
Qed.

Lemma node_ok_term sender b m :
  peer (netinfo s) sender → (sender ∈ correct → K sender m (Term b)) → (m ≤ epoch s)%Z →
  node_ok K inp i (s <| received_term ::= bm_insert b sender |>).
Proof.
  intros Hp Ha Hm. destruct Hnode. split; try done. intros b' j Hj.
  change (received_term _) with (bm_insert b sender (received_term s)) in Hj.
  apply elem_of_bm_insert in Hj as [[<- ->]|?]; [|by apply n_term0].
  split; [by apply peer_dom|]. intros Hc. exists m. split; [done|]. by apply Ha.
Qed.

Context (Hbyz : size (dom pubs ∖ correct) ≤ f).

(** A decision has a certificate. *)
Lemma grounds_cert b : num_faulty (netinfo s) = f → grounds s b → ∃ e, (e ≤ epoch s)%Z ∧ cert K e b.
Proof.
  intros Hf [Ht|[Hv Hc]].
  - rewrite Hf in Ht.
    destruct (quorum_correct (dom pubs) correct f Hbyz (bm_index (received_term s) b)) as (k & Hk & Hkc);
      [by intros k [? _]%(n_term _ _ _ _ Hnode)|done|].
    apply (n_term _ _ _ _ Hnode) in Hk as [_ Hk]. destruct (Hk Hkc) as (m & Hm & Hk').
    destruct (j_term _ _ HJ k m b Hkc Hk') as (e & He & Hcert). exists e. split; [lia|done].
  - exists (epoch s). split; [done|]. split_and!; [apply Hnode| |by apply (n_coin _ _ _ _ Hnode)].
    by apply (n_conf _ _ _ _ Hnode _ Hv).
Qed.

Lemma node_ok_decide b K' :
  decision s = None → num_faulty (netinfo s) = f → grounds s b →
  (∀ j e c, K' j e c ↔ K j e c ∨ (j = i ∧ e = (epoch s + 1)%Z ∧ c = Term b)) →
  just_ok K' inp ∧ node_ok K' inp i (s <| decision := Some b |>).
Proof.
  intros Hd Hf Hg HK. assert (Hle : le K K') by (intros j e c ?; apply HK; by left).
  destruct (grounds_cert b Hf Hg) as (e0 & He0 & Hcert).
  assert (Hcert' : cert K' e0 b) by by eapply cert_mono. split.
  - split.
    + intros k e b' Hk [?|(_ & _ & [=])]%HK. eapply just_mono; [done|done|by eapply (j_bval _ _ HJ)].
    + intros k e b' Hk [?|(_ & _ & [=])]%HK. eapply just_mono; [done|done|by eapply (j_aux _ _ HJ)].
    + intros k m b' Hk [Hk'|(-> & -> & [= ->])]%HK.
      * destruct (j_term _ _ HJ k m b' Hk Hk') as (e & ? & ?). exists e. split; [done|by eapply cert_mono].
      * exists e0. split; [lia|done].
  - destruct Hnode. split; try done; cbn [epoch sbv_broadcast received_term conf_values coin_state decision].
    + intros b' j Hj. destruct (n_bval0 b' j Hj). split; [done|]. intros. eapply bvalish_mono; eauto.
    + intros b' j Hj. destruct (n_aux0 b' j Hj). split; [done|]. intros. eapply auxish_mono; eauto.
    + intros b' Hb. eapply just_mono; eauto.
    + intros b' j Hj. destruct (n_term0 b' j Hj). split; [done|]. intros. apply (termish_mono K K' j (epoch s)); [done|done|auto].
    + intros v Hv. eapply conf_good_mono; eauto.
    + intros b' [= <-]. by exists e0.
    + intros e m j r c Hm Hr Hc Hj. apply Hle. by eapply n_queue0.
    + intros e m [?|(_ & _ & [=])]%HK. by eapply n_own_sbv0.
    + intros b' [?|(_ & _ & [=])]%HK. by apply n_own_aux0.
    + intros e b' b'' [?|(_ & _ & [=])]%HK [?|(_ & _ & [=])]%HK. by eapply n_own_uniq0.
    + intros m b' [Hm|(_ & -> & [= ->])]%HK; [|done].
      destruct (n_own_term0 m b' Hm). congruence.
Qed.

Lemma elem_of_iter_insert b b' v :
  b' ∈ bool_set.iter (bool_set.insert b v).1 → b' = b ∨ b' ∈ bool_set.iter v.
Proof.
  rewrite !bool_set.elem_of_iter, bool_set.mem_insert, orb_true_iff, bool_decide_eq_true. naive_solver.
Qed.

Lemma received_insert_messages c c' r :
  c' ∈ received_messages (received_insert c r).1 → c' = c ∨ c' ∈ received_messages r.
Proof.
  unfold received_messages. rewrite !elem_of_app, !list_elem_of_fmap.
  destruct c as [[b|b]|v|b|[sh]]; cbn [received_insert].
  - pose proof (λ b', elem_of_iter_insert b b' (rm_bval r)) as Hins.
    destruct (bool_set.insert b (rm_bval r)) as [v' new], r. cbn in *. naive_solver.
  - pose proof (λ b', elem_of_iter_insert b b' (rm_aux r)) as Hins.
    destruct (bool_set.insert b (rm_aux r)) as [v' new], r. cbn in *. naive_solver.
  - destruct r as [? ? [?|] ? ?]; cbn; [naive_solver|]. set_solver.
  - destruct r as [? ? ? [?|] ?]; cbn; [naive_solver|]. set_solver.
  - destruct r as [? ? ? ? [?|]]; cbn; [naive_solver|]. set_solver.
Qed.

Lemma node_ok_enqueue sender e c :
  (sender ∈ correct → K sender e c) → node_ok K inp i (enqueue sender e c s).
Proof.
  intros Ha. destruct Hnode. split; try done. intros e' m j r c' Hm Hr Hc Hj.
  unfold enqueue in Hm. set (epoch_state := default ∅ (incoming_queue s !! e)) in *.
  change (<[e := <[sender := (received_insert c (default received_new (epoch_state !! sender))).1]> epoch_state]>
    (incoming_queue s) !! e' = Some m) in Hm.
  assert (Hold : ∀ j' r', epoch_state !! j' = Some r' → ∃ m', incoming_queue s !! e = Some m' ∧ m' !! j' = Some r').
  { unfold epoch_state. intros j' r' Hr'. destruct (incoming_queue s !! e) as [m'|]; [by exists m'|done]. }
  apply lookup_insert_Some in Hm as [[<- <-]|[_ Hm]]; [|by eapply n_queue0].
  apply lookup_insert_Some in Hr as [[<- <-]|[_ Hr]].
  - apply received_insert_messages in Hc as [->|Hc]; [by apply Ha|].
    destruct (epoch_state !! sender) as [r'|] eqn:Hr'; [|by apply elem_of_nil in Hc].
    destruct (Hold _ _ Hr') as (m' & ? & ?). by eapply n_queue0.
  - destruct (Hold _ _ Hr) as (m' & ? & ?). by eapply n_queue0.
Qed.
End other.

(** ** The ghost state of a call

    [base] is the evidence before the call of node [i]. *)
Definition known (base : sent) i (g : list Message) : sent := λ j e c,
  base j e c ∨ (j = i ∧ mkMessage _ e c ∈ g).
(** A correct node has reached the last epoch. *)
Definition overflow K : Prop := ∃ k c, k ∈ correct ∧ K k u64_max c.

Section ghost.
Context (Hbyz : size (dom pubs ∖ correct) ≤ f).
Context (base : sent) (inp : bool → Prop) (i : N) (Hi : i ∈ correct) (Hival : i ∈ dom pubs).
Abbreviation K g := (known base i g).

Lemma known_app g l : le (K g) (K (g ++ l)).
Proof. intros j e c [?|[? ?]]; [by left|right]. split; [done|]. apply elem_of_app. by left. Qed.
Lemma overflow_mono K1 K2 : le K1 K2 → overflow K1 → overflow K2.
Proof. intros Hle (k & c & ? & ?). exists k, c. split; [done|by apply Hle]. Qed.

Lemma known_sbv g e (o : SbvStep) j e' c :
  K (g ++ own_sbv e o) j e' c ↔ K g j e' c ∨
    (j = i ∧ e' = e ∧ ∃ tm, tm ∈ messages o ∧ c = SbvBroadcast (message tm)).
Proof.
  unfold known, own_sbv. rewrite elem_of_app, list_elem_of_fmap. unfold with_epoch. split.
  - intros [?|[-> [?|(tm & [= -> ->] & ?)]]]; [by left; left|by left; right|right].
    split_and!; [done..|]. by exists tm.
  - intros [[?|[-> ?]]|(-> & -> & tm & ? & ->)]; [by left|by right; split; [|left]|right].
    split; [done|right]. by exists tm.
Qed.

Lemma known_silent g l j e c :
  Forall (λ m, silent (content m)) l → K (g ++ l) j e c → K g j e c ∨ silent c.
Proof.
  intros Hl [?|[-> [?|Hin]%elem_of_app]]; [by left; left|by left; right|right].
  rewrite Forall_forall in Hl. by apply (Hl _ Hin).
Qed.

Definition net_holds g s : Prop := member i s ∧
  (overflow (K g) ∨ (just_ok (K g) inp ∧ node_ok (K g) inp i s)).
Definition net_arrives g j e c : Prop := overflow (K g) ∨ (j ∈ correct → K g j e c).
Definition net_conf_ok g e v : Prop := overflow (K g) ∨ conf_good (K g) e v.
Definition net_input_ok b : Prop := inp b.
Definition net_wrapped g : Prop := overflow (K g).

(** A call of the broadcast *)
Lemma net_sbv (ip : option bool) from t (o : SbvStep) g s :
  core s → member i s → just_ok (K g) inp → node_ok (K g) inp i s →
  (∀ b, ip = Some b → just (K g) inp (epoch s) b) →
  (∀ j m, from = Some (j, m) → j ≠ i ∧ j ∈ dom pubs ∧ (j ∈ correct →
    match m with sbv_broadcast.BVal b => bvalish (K g) j (epoch s) b
               | sbv_broadcast.Aux b => auxish (K g) j (epoch s) b end)) →
  sbv_broadcast.step_ok ip from (sbv_broadcast s) t o → sbv_broadcast.state_ok t →
  let g' := g ++ own_sbv (epoch s) o in
  net_holds g' (s <| sbv_broadcast := t |>) ∧ ∀ v, v ∈ output o → net_conf_ok g' (epoch s) v.
Proof.
  intros Hs Hm HJ Hnode Hinp Hfrom Hok Ht g'.
  assert (HK : ∀ j e c, K g' j e c ↔ K g j e c ∨
    (j = i ∧ e = epoch s ∧ ∃ tm, tm ∈ messages o ∧ c = SbvBroadcast (message tm)))
    by (intros; apply known_sbv).
  split; [split; [by destruct Hm|right; split]|intros v Hv; right].
  - by eapply sbv_just_ok with (s := s).
  - by eapply sbv_node_ok.
  - by eapply sbv_conf_good with (s := s).
Qed.

Lemma net_sbv_overflow t (o : SbvStep) g e s :
  overflow (K g) → member i s →
  let g' := g ++ own_sbv e o in
  net_holds g' (s <| sbv_broadcast := t |>) ∧ ∀ v, v ∈ output o → net_conf_ok g' e v.
Proof.
  intros Ho Hm g'. assert (Ho' : overflow (K g')) by (eapply overflow_mono, Ho; apply known_app).
  split; [split; [by destruct Hm|by left]|by left].
Qed.

Lemma net_silent l g s :
  Forall (λ m, silent (content m)) l → net_holds g s → net_holds (g ++ l) s.
Proof.
  intros Hl [Hm [Ho|[HJ Hn]]]; (split; [done|]); [left; eapply overflow_mono, Ho; apply known_app|right].
  split.
  - eapply just_ok_mono; [apply known_app|done| |done]. intros k e c _. by apply known_silent.
  - eapply node_ok_mono; [apply known_app|done| |done]. intros e c. by apply known_silent.
Qed.

(** Changes that the evidence does not see. *)
Lemma net_same g s s' :
  member i s' → (∀ K, node_ok K inp i s → node_ok K inp i s') → net_holds g s → net_holds g s'.
Proof. intros Hm' Hn [Hm [Ho|[HJ Hk]]]; (split; [done|]); [by left|right; auto]. Qed.

Lemma net_decide b g s : core (s <| decision := Some b |>) → decision s = None → net_holds g s →
  net_holds (g ++ term_messages s b) (s <| decision := Some b |>).
Proof.
  intros Hs Hd [Hm [Ho|[HJ Hn]]]; (split; [by destruct Hm|]);
    [left; eapply overflow_mono, Ho; apply known_app|right].
  destruct (member_sizes i Hival (s <| decision := Some b |>) Hs ltac:(by destruct Hm)) as (Hf & _ & Hv & _).
  change (netinfo (s <| decision := Some b |>)) with (netinfo s) in Hf, Hv.
  eapply node_ok_decide; [done..|exact (c_grounds _ Hs b eq_refl)|].
  intros j e c. unfold known, term_messages. rewrite Hv, elem_of_app, list_elem_of_singleton.
  assert (He : u64_add (epoch s) 1 = (epoch s + 1)%Z).
  { apply u64_add_small. pose proof (n_epoch _ _ _ _ Hn). unfold in_u64, u64_max in *. lia. }
  unfold with_epoch. rewrite He. naive_solver.
Qed.

Lemma net_next b rc c t (o : SbvStep) g s :
  core s → decision s = None → net_holds g s → ends_with s b →
  let s1 := next_epoch s rc c in core s1 → fresh_coin (epoch s1) c →
  sbv_broadcast.step_ok (Some b) None (sbv_broadcast s1) t o → sbv_broadcast.state_ok t →
  (is_validator (netinfo s) = true → messages o ≠ []) →
  let g' := g ++ own_sbv (epoch s1) o in
  net_holds g' (s1 <| sbv_broadcast := t |>) ∧ (∀ v, v ∈ output o → net_conf_ok g' (epoch s1) v) ∧
  ((epoch s ≤ epoch s1)%Z ∨ net_wrapped g').
Proof.
  intros Hs Hd [Hm Hg] Hb s1 Hs1 Hfresh Hok Ht Hsends g'.
  assert (Hm1 : member i s1) by by destruct Hm.
  assert (Hover : overflow (K g') → net_holds g' (s1 <| sbv_broadcast := t |>) ∧
    (∀ v, v ∈ output o → net_conf_ok g' (epoch s1) v) ∧ ((epoch s ≤ epoch s1)%Z ∨ net_wrapped g')).
  { intros Ho. split_and!; [split; [by destruct Hm|by left]|by left|by right]. }
  destruct Hg as [Ho|[HJ Hn]]; [apply Hover; eapply overflow_mono, Ho; apply known_app|].
  assert (He : epoch s1 = (epoch s + 1)%Z).
  { apply u64_add_small. pose proof (n_epoch _ _ _ _ Hn). unfold in_u64, u64_max in *. lia. }
  destruct (decide (epoch s + 1 < u64_max)%Z) as [Hlt|Hge].
  - rewrite He in Hfresh. assert (Hn1 : node_ok (K g) inp i s1) by by eapply node_ok_next.
    destruct (net_sbv (Some b) None t o g s1 Hs1 Hm1 HJ Hn1) as [? ?]; try done.
    + intros b' [= <-]. rewrite He. by eapply ends_just.
    + split_and!; [done..|left; lia].
  - apply Hover. destruct (member_sizes i Hival s Hs Hm) as (_ & _ & Hv & _).
    destruct (messages o) as [|tm l] eqn:Hms; [by destruct Hsends|].
    exists i, (SbvBroadcast (message tm)). split; [done|]. right. split; [done|]. apply elem_of_app. right.
    apply list_elem_of_fmap. exists tm. rewrite Hms. split; [|by left]. unfold with_epoch. f_equal.
    rewrite He. pose proof (n_epoch _ _ _ _ Hn). lia.
Qed.

Definition net_ghost : Ghost (N := N) (Sid := Sid).
Proof.
  refine {| holds := net_holds; arrives := net_arrives; conf_ok := net_conf_ok;
    input_ok := net_input_ok; wrapped := net_wrapped |}.
  - intros g j e c Ho. by left.
  - intros l g Ho. eapply overflow_mono, Ho. apply known_app.
  - intros l g j e c [Ho|Ha]; [left; eapply overflow_mono, Ho; apply known_app|right].
    intros Hc. by apply known_app, Ha.
  - intros l g e v [Ho|Hv]; [left; eapply overflow_mono, Ho|right; eapply conf_good_mono, Hv];
      apply known_app.
  - intros ff g s Hg. eapply net_same, Hg; [by destruct Hg as [[] _]|]. by intros K' [].
  - intros x g s Hg. eapply net_same, Hg; [by destruct Hg as [[] _]|]. by intros K' [].
  - apply net_silent.
  - intros v g s Hs [Hm [Ho|[HJ Hn]]] [Ho'|Hv]; (split; [by destruct Hm|]); [by left..|right].
    split; [done|]. destruct Hn. split; try done. by intros v' [= <-].
  - intros ts ts' g s Hts Hg. eapply net_same, Hg; [by destruct Hg as [[] _]|]. intros K' []. by split.
  - intros sg g s Hs (Hf & doc & Hdoc & Hv) [Hm [Ho|[HJ Hn]]]; (split; [by destruct Hm|]); [by left|right].
    split; [done|]. destruct Hn. split; try done. intros c [= <-]. right. split; [done|].
    exists doc, sg. destruct Hm as [_ _ <- <-]. done.
  - intros sender msg t o g s Hs [Hm Hg] Hp Ha Hok Ht.
    destruct Hg as [Ho|[HJ Hn]]; [by apply net_sbv_overflow|].
    destruct Ha as [[Ho|Ha]|Ha]; [by apply net_sbv_overflow|..];
      (eapply (net_sbv None (Some (sender, msg))); [done..|intros ?? [= <- <-]|exact Hok|exact Ht]);
      (split; [|split]; [by destruct Hp as [Hne _]; rewrite (m_id _ _ Hm) in Hne|by eapply peer_dom|]).
    + intros Hc. destruct msg; left; by apply Ha.
    + intros Hc. destruct msg; right; by apply (n_term _ _ _ _ Hn).
  - intros b t o g s Hs [Hm Hg] He Hin Hok Ht.
    destruct Hg as [Ho|[HJ Hn]]; [by apply net_sbv_overflow|].
    eapply net_sbv; [done..| | |exact Hok|exact Ht]; [|done].
    intros b' [= <-]. rewrite He. left. done.
  - intros sender b m g s Hs [Hm [Ho|[HJ Hn]]] Hp Ha Hle; (split; [by destruct Hm|]); [by left|].
    destruct Ha as [Ho|Ha]; [by left|right]. split; [done|]. by eapply node_ok_term.
  - apply net_decide.
  - apply net_next.
  - intros e g s Hg. eapply net_same, Hg; [by destruct Hg as [[] _]|]. intros K' []. split; try done.
    intros e' m j r c Hq. change (delete e (incoming_queue s) !! e' = Some m) in Hq.
    apply lookup_delete_Some in Hq as [_ Hq]. by eapply n_queue0.
  - intros g s e m j r c [_ [Ho|[_ Hn]]] Hq Hr Hc; [by left|right]. intros Hj. by eapply (n_queue _ _ _ _ Hn).
  - intros g s sender e c Hs [Hm [Ho|[HJ Hn]]] Ha; (split; [by destruct Hm|]); [by left|].
    destruct Ha as [Ho|Ha]; [by left|right]. split; [done|]. by apply node_ok_enqueue.
Defined.
End ghost.
End agreement.
End ba_evidence.
