(* ===== verification/BaAgreement.v ===== *)
(** * Binary agreement in a network

    What [binary_agreement.rs] promises across nodes, for a network ([Net]) of validators
    that run [BinaryAgreement] with the keys of one key set, of which at most [f] are
    faulty, [3 f < N]: two nodes that decide, decide the same value, and the value was
    proposed by a correct node.  The coin's security is not used: for agreement and
    validity it need only be the same at all nodes. *)
From S2P Require Import Prelude.
From S2P Require Import BTree.
From S2P Require Import Traits.
From S2P Require Import Net.
From S2P Require Import NetworkInfo.
From S2P Require Import BoolSet.
From S2P Require Import SbvBroadcast.
From S2P Require Import ThresholdSign.
From S2P Require Import BinaryAgreement.
From S2P Require Import BaInvariant.
From S2P Require Import BaNode.
From S2P Require Import BaEvidence.
From S2P Require Import Instances.

Module ba_agreement.
Import binary_agreement.
Import ba_facts.
Import ba_node.
Import ba_evidence.

Section net.
Context {N Sid : Type} `{ord : NodeIdT N} `{crypto : Crypto} `{sid : !SessionIdT Sid}
  `{laws : !ThresholdSigLaws} `{msg_eq : !EqDecision Message}.
Context (pubs : gmap N PublicKey) (correct : gset N) (pks : PublicKeySet) (session : Sid).
Abbreviation f := ((size pubs - 1) / 3).
Abbreviation State := (BinaryAgreement N Sid).
Abbreviation BaWorld := (Net.world N State bool Message bool).
Implicit Types (w : BaWorld) (i j k : N).

(** Nodes take messages of validators only. *)
Definition validator (j : N) : bool := bool_decide (is_Some (pubs !! j)).
Definition ba_initial w : Prop := w_sent w = [] ∧ ∀ i, i ∈ correct →
  w_input w i = [] ∧ w_out w i = [] ∧ ∃ ni, w_node w i = new ni session ∧ netinfo_wf ni ∧
    NetworkInfo.our_id ni = i ∧ public_keys ni = pubs ∧ public_key_set ni = pks ∧
    sig_threshold pks = num_faulty ni ∧ (is_Some (secret_key_share ni) → is_validator ni = true).
Abbreviation reachable := (Net.reachable propose handle_message validator correct ba_initial).

Definition sent_in w j (e : u64) (c : MessageContent) : Prop := ∃ tm, (j, tm) ∈ w_sent w ∧ message tm = with_epoch c e.
Definition proposed w b : Prop := ∃ i, i ∈ correct ∧ b ∈ w_input w i.
(** No correct node has reached the last epoch, [u64::MAX]. *)
Definition epochs_left w : Prop := ∀ k c, k ∈ correct → ¬ sent_in w k u64_max c.

Record winv w : Prop := {
  w_ok i : i ∈ correct → ba_ok (w_node w i);
  w_member i : i ∈ correct → member pubs pks session i (w_node w i);
  w_outs i : i ∈ correct → (w_out w i).*1 = option_list (decision (w_node w i));
  w_evidence : overflow correct (sent_in w) ∨
    (just_ok pubs correct pks session (sent_in w) (proposed w) ∧
     ∀ i, i ∈ correct → node_ok pubs correct pks session (sent_in w) (proposed w) i (w_node w i));
}.

Context (Hcorrect : correct ⊆ dom pubs) (Hbyz : size (dom pubs ∖ correct) ≤ f).
Context (Hser : ∀ e, is_Some (serialize_coin_id session e)).

Lemma ba_initial_inv w : ba_initial w → winv w.
Proof.
  intros [Hs Hin]. assert (Hno : ∀ j e c, ¬ sent_in w j e c).
  { intros j e c (tm & Hm & _). rewrite Hs in Hm. by apply elem_of_nil in Hm. }
  split.
  - intros i Hi. destruct (Hin i Hi) as (_ & _ & ni & -> & Hwf & Hid & Hp & Hk & Hth & Hsk).
    apply ba_new_ok; [done|by rewrite Hk|done].
  - intros i Hi. destruct (Hin i Hi) as (_ & _ & ni & -> & Hwf & Hid & Hp & Hk & Hth & Hsk). done.
  - intros i Hi. destruct (Hin i Hi) as (_ & -> & ni & -> & _). done.
  - right. split; [split; intros; exfalso; by eapply Hno|].
    intros i Hi. destruct (Hin i Hi) as (_ & _ & ni & -> & _). split; cbn; try done.
    + intros b j. destruct b; set_solver.
    + intros b j. destruct b; set_solver.
    + intros b. by rewrite bool_set.mem_NONE.
    + intros b j. destruct b; set_solver.
    + intros c [= <-]. by left.
    + intros e m ?. exfalso. by eapply Hno.
    + intros b ?. exfalso. by eapply Hno.
    + intros e b b' ?. exfalso. by eapply Hno.
    + intros m b ?. exfalso. by eapply Hno.
Qed.

(** *** A call of one node *)
Section step.
Context (w : BaWorld) (Hw : winv w) (i : N) (Hi : i ∈ correct).
Context (c : @ba_call N crypto) (Hfrom : call_from (netinfo (w_node w i)) c).
Context (ins : list bool) (Hins : ∀ b, c = Propose b → b ∈ ins).
Context (Harr : ∀ j m, c = HandleMessage j m → j ∈ correct →
  sent_in w j (msg_epoch m) (content m)).

(** The inputs after the call *)
Definition inputs b : Prop := proposed w b ∨ b ∈ ins.
Abbreviation K0 := (known (sent_in w) i []).
Abbreviation ghost := (net_ghost pubs correct pks session Hbyz (sent_in w) inputs i Hi (Hcorrect i Hi)).

Lemma known_nil j e m : K0 j e m ↔ sent_in w j e m.
Proof. split; [intros [?|[_ ?%elem_of_nil]]; done|by left]. Qed.

Lemma call_holds : holds (Ghost := ghost) [] (w_node w i).
Proof.
  split; [by apply Hw|]. destruct (w_evidence _ Hw) as [Ho|[HJ Hn]];
    [left; eapply overflow_mono, Ho; intros ???; apply known_nil|right; split].
  - eapply just_ok_mono, HJ; [intros ???; apply known_nil|by left|].
    intros k e m _ ?%known_nil. by left.
  - eapply node_ok_mono, Hn, Hi; [intros ???; apply known_nil|by left|].
    intros e m ?%known_nil. by left.
Qed.

Lemma call_arrives : call_known (gh := ghost) [] c.
Proof.
  destruct c as [b|j m]; [right; by apply Hins|].
  right. intros Hj. apply known_nil. by apply Harr.
Qed.

Lemma ba_call_inv : ∃ w', commit w i ins (run_call c (w_node w i)) = Some w' ∧ winv w'.
Proof.
  pose proof (run_call_spec (gh := ghost) c [] (w_node w i) (w_ok _ Hw i Hi) Hfrom call_holds call_arrives) as Hspec.
  unfold wp in Hspec. destruct (run_call c (w_node w i)) as [s' out|s' e| |]; [|exfalso|done..].
  2: { destruct Hspec as (_ & e' & He). rewrite (m_session _ _ _ _ _ (w_member _ Hw i Hi)) in He.
    destruct (Hser e'). congruence. }
  destruct Hspec as (Hok & [_ _ Hd _] & Hm & Hev). eexists. split; [done|]. set (w' := World _ _ _ _).
  assert (HK : ∀ j e m, sent_in w' j e m ↔ known (sent_in w) i ([] ++ sent_of out) j e m).
  { intros j e m. unfold sent_in, known, sent_of. cbn. setoid_rewrite elem_of_app.
    setoid_rewrite list_elem_of_fmap. unfold with_epoch. naive_solver. }
  assert (Hle : ∀ j e m, sent_in w j e m → sent_in w' j e m) by (intros; apply HK; by left).
  assert (Hinp : ∀ b, inputs b → proposed w' b).
  { intros b [(k & Hk & Hb)|Hb]; [exists k|exists i]; (split; [done|]); cbn;
      [|rewrite fn_lookup_insert; set_solver].
    destruct (decide (k = i)) as [->|Hne]; [rewrite fn_lookup_insert; set_solver|].
    by rewrite fn_lookup_insert_ne. }
  assert (Hnode : w_node w' i = s') by (cbn; by rewrite fn_lookup_insert).
  assert (Hother : ∀ k, k ≠ i → w_node w' k = w_node w k) by (intros; cbn; by rewrite fn_lookup_insert_ne).
  split.
  - intros k Hk. destruct (decide (k = i)) as [->|Hne]; [by rewrite Hnode|rewrite Hother by done; by apply Hw].
  - intros k Hk. destruct (decide (k = i)) as [->|Hne]; [by rewrite Hnode|rewrite Hother by done; by apply Hw].
  - intros k Hk. destruct (decide (k = i)) as [->|Hne].
    + rewrite Hnode, Hd, <- (w_outs _ Hw i Hi). cbn. rewrite fn_lookup_insert, fmap_app.
      f_equal. rewrite <- list_fmap_compose. apply list_fmap_id.
    + rewrite Hother by done. cbn. rewrite fn_lookup_insert_ne by done. by apply Hw.
  - destruct Hev as [Ho|[HJ Hn]]; [left; eapply overflow_mono, Ho; intros ???; apply HK|].
    destruct (w_evidence _ Hw) as [Ho|[_ Hns]]; [left; by eapply overflow_mono|right; split].
    + eapply just_ok_mono, HJ; [intros ???; apply HK|done|]. intros k e m _ ?%HK. by left.
    + intros k Hk. destruct (decide (k = i)) as [->|Hne].
      * rewrite Hnode. eapply node_ok_mono, Hn; [intros ???; apply HK|done|]. intros e m ?%HK. by left.
      * rewrite Hother by done. eapply node_ok_mono, Hns, Hk; [done|intros; apply Hinp; by left|].
        intros e m [?|[? _]]%HK; [by left|done].
Qed.
End step.

Lemma ba_exec_inv w ev w' :
  winv w → allowed validator correct w ev = true → exec propose handle_message w ev = Some w' → winv w'.
Proof.
  intros Hw Ha He. destruct ev as [i b|i j msg].
  - apply allowed_input in Ha as Hi.
    destruct (ba_call_inv w Hw i Hi (Propose b) I [b]) as (w2 & He' & Hw2); [|done|].
    + intros b' [= ->]. by left.
    + change (exec propose handle_message w (Input i b) = Some w2) in He'. congruence.
  - apply allowed_deliver in Ha as (Hi & Hj & Hp & Hs). apply bool_decide_eq_true in Hp.
    destruct (w_member _ Hw i Hi) as [Hid Hpub _ _].
    destruct (ba_call_inv w Hw i Hi (HandleMessage j msg)) with (ins := @nil bool) as (w2 & He' & Hw2); [|done| |].
    + split; [by rewrite Hid|]. unfold is_node_validator. rewrite Hpub. by apply bool_decide_eq_true.
    + intros j' m [= <- <-] Hc. destruct (Hs Hc) as (tm & Hin & Hm). exists tm. split; [done|].
      by destruct msg.
    + change (exec propose handle_message w (Deliver i j msg) = Some w2) in He'. congruence.
Qed.

Lemma ba_reachable_inv w : reachable w → winv w.
Proof. induction 1 as [|w ev w' _ IH Ha He]; [by apply ba_initial_inv|by eapply ba_exec_inv]. Qed.

(** ** Agreement and validity *)
Section inv.
Context (w : BaWorld) (Hw : winv w) (Hleft : epochs_left w).

Lemma evidence_ok : just_ok pubs correct pks session (sent_in w) (proposed w) ∧
  ∀ i, i ∈ correct → node_ok pubs correct pks session (sent_in w) (proposed w) i (w_node w i).
Proof. destruct (w_evidence _ Hw) as [(k & m & Hk & Hm)|?]; [by destruct (Hleft k m Hk)|done]. Qed.

Lemma aux_unique k e b b' :
  k ∈ correct → auxish (sent_in w) k e b → auxish (sent_in w) k e b' → b = b'.
Proof.
  intros Hk. pose proof (proj2 evidence_ok k Hk) as Hn.
  assert (Hx : ∀ e b m b', sent_in w k e (SbvBroadcast (sbv_broadcast.Aux b)) → (m ≤ e)%Z →
    ¬ sent_in w k m (Term b')).
  { intros e1 b1 m1 b1' Ha%(n_own_sbv _ _ _ _ _ _ _ _ Hn) Hm [-> _]%(n_own_term _ _ _ _ _ _ _ _ Hn). lia. }
  intros [Ha|(m & Hm & Ht)] [Ha'|(m' & Hm' & Ht')].
  - by eapply (n_own_uniq _ _ _ _ _ _ _ _ Hn).
  - by destruct (Hx e b m' b').
  - by destruct (Hx e b' m b).
  - apply (n_own_term _ _ _ _ _ _ _ _ Hn) in Ht as [_ Ht], Ht' as [_ Ht']. congruence.
Qed.

Lemma out_cert i b s : i ∈ correct → (b, s) ∈ w_out w i →
  ∃ e, cert pubs correct pks session (sent_in w) e b.
Proof.
  intros Hi Hin. assert (Hd : decision (w_node w i) = Some b).
  { apply (list_elem_of_fmap_2 fst) in Hin. rewrite (w_outs _ Hw i Hi) in Hin.
    destruct (decision (w_node w i)); set_solver. }
  apply (n_dec _ _ _ _ _ _ _ _ (proj2 evidence_ok i Hi)) in Hd as (e & _ & ?). by exists e.
Qed.

Lemma three_f i : i ∈ correct → 3 * f < size pubs.
Proof.
  intros Hi. assert (size pubs ≠ 0).
  { intros Hz%map_size_empty_inv. specialize (Hcorrect i Hi). rewrite Hz, dom_empty_L in Hcorrect.
    by apply elem_of_empty in Hcorrect. }
  pose proof (Nat.mul_div_le (size pubs - 1) 3 ltac:(lia)). lia.
Qed.
End inv.

Lemma decisions_agree w i j b b' s s' :
  winv w → epochs_left w → i ∈ correct → j ∈ correct →
  (b, s) ∈ w_out w i → (b', s') ∈ w_out w j → b = b'.
Proof.
  intros Hw Hl Hi Hj Ho Ho'.
  destruct (out_cert w Hw Hl i b s Hi Ho) as (e & Hc).
  destruct (out_cert w Hw Hl j b' s' Hj Ho') as (e' & Hc').
  eapply (cert_unique _ _ _ _ _ _ (proj1 (evidence_ok w Hw Hl)) Hbyz (three_f i Hi)); [|done..].
  apply aux_unique; done.
Qed.

(** C10: Agreement: in a network of validators of which at most [f] are faulty, [3 f < N], all
    outputs of correct nodes are the same value, whatever the faulty nodes send, in whatever
    order messages arrive, whatever the coins show, and in whatever epochs the nodes
    decide. *)
Theorem ba_agreement w i j b b' s s' :
  reachable w → epochs_left w → i ∈ correct → j ∈ correct →
  (b, s) ∈ w_out w i → (b', s') ∈ w_out w j → b = b'.
Proof. intros Hw%ba_reachable_inv. by apply decisions_agree. Qed.

(** C11: Validity: an output of a correct node was proposed by a correct node; in particular, if
    all correct nodes propose the same value, no node decides the other one. *)
Theorem ba_validity w i b s :
  reachable w → epochs_left w → i ∈ correct → (b, s) ∈ w_out w i → proposed w b.
Proof.
  intros Hw%ba_reachable_inv Hl Hi Ho. pose proof (proj1 (evidence_ok w Hw Hl)) as HJ.
  destruct (out_cert w Hw Hl i b s Hi Ho) as (e & _ & Hq & _).
  eapply (just_input _ _ _ _ _ _ HJ Hbyz (three_f i Hi)).
  by eapply (squorum_just _ _ _ _ _ _ HJ Hbyz (three_f i Hi)).
Qed.
End net.

(** ** An execution

    Four validators, the last one faulty and silent; two nodes propose [true] and one
    proposes [false]. *)
#[local] Existing Instance threshold_sign.number_sig_laws.
#[local] Existing Instance demo_session.
#[local] Instance demo_share_eq : EqDecision (@SignatureShare number_crypto).
Proof.
  change (EqDecision (nat * nat * bytes)). pose (Byte.byte_eq_dec : EqDecision Byte.byte). apply _.
Defined.
Definition ba_correct : gset nat := {[0; 1; 2]}.
Definition ba_keys : PublicKeySet := public_key_set (four_netinfo 0).
Abbreviation demo_world := (Net.world nat (@BinaryAgreement nat nat nat_ord_key number_crypto) bool
  (@Message number_crypto) bool).
Definition ba_init : demo_world := World (λ i, new (four_netinfo i) 5) [] (λ _, []) (λ _, []).
Definition ba_final : option demo_world :=
  w ← run (ord := nat_ord_key) propose handle_message
    (validator (ord := nat_ord_key) (crypto := number_crypto) four_keys) ba_correct ba_init
    [Input 0 true; Input 1 true; Input 2 false];
  Net.rounds (ord := nat_ord_key) propose handle_message
    (validator (ord := nat_ord_key) (crypto := number_crypto) four_keys) ba_correct 4 w.

Abbreviation demo_reachable := (Net.reachable (ord := nat_ord_key) propose handle_message
  (validator (ord := nat_ord_key) (crypto := number_crypto) four_keys) ba_correct
  (ba_initial (ord := nat_ord_key) (crypto := number_crypto) four_keys ba_correct ba_keys 5)).

Lemma ba_init_ok : ba_initial (ord := nat_ord_key) (crypto := number_crypto) four_keys ba_correct ba_keys 5 ba_init.
Proof.
  split; [done|]. intros i Hi. split_and!; [done..|]. exists (four_netinfo i).
  destruct (four_netinfo_ok i) as (Hwf & Hid & Hpub). destruct (demo_keys i) as (_ & Hth & Hsk).
  split_and!; [done..|]. intros H. apply Hsk; [done|].
  unfold ba_correct in Hi. set_solver by lia.
Qed.

Lemma ba_byz : ba_correct ⊆ dom four_keys ∧ size (dom four_keys ∖ ba_correct) ≤ (size four_keys - 1) / 3.
Proof. split; [by apply (bool_decide_unpack (ba_correct ⊆ dom four_keys)); vm_compute|vm_compute; lia]. Qed.

Lemma ba_run_reachable w : ba_final = Some w → demo_reachable w.
Proof.
  unfold ba_final. destruct (run _ _ _ _ ba_init _) as [w1|] eqn:Hw1; [|done].
  intros Hw. eapply rounds_reachable; [|exact Hw]. eapply run_reachable; [|exact Hw1].
  apply reach_init, ba_init_ok.
Qed.

(** What is read off the execution: two outputs, and that no message is of the last epoch *)
Definition read_off (w : demo_world) : list bool * list bool * bool :=
  ((w_out w 0).*1, (w_out w 1).*1,
   forallb (λ '(_, tm), bool_decide (msg_epoch (message tm) < u64_max)%Z) (w_sent w)).

Lemma ba_read_off_of (o : option demo_world) :
  read_off <$> o = Some ([true], [true], true) →
  ∃ w s s', o = Some w ∧ w_out w 0 = [(true, s)] ∧ w_out w 1 = [(true, s')] ∧
    epochs_left (ord := nat_ord_key) (crypto := number_crypto) ba_correct w.
Proof.
  destruct o as [w|]; [|done]. cbn. unfold read_off. intros Ho.
  assert (Ho' : (w_out w 0).*1 = [true] ∧ (w_out w 1).*1 = [true] ∧
    forallb (λ '(_, tm), bool_decide (msg_epoch (message tm) < u64_max)%Z) (w_sent w) = true)
    by (by injection Ho).
  destruct Ho' as ((s & Hs)%singleton_fst & (s' & Hs')%singleton_fst & Hall).
  exists w, s, s'. split_and!; [done..|]. intros k c _ (tm & Hin & Hm).
  rewrite forallb_forall in Hall. specialize (Hall _ (proj1 (list_elem_of_In _ _) Hin)). simpl in Hall.
  rewrite Hm in Hall. by apply bool_decide_eq_true in Hall.
Qed.

Lemma ba_outputs : ∃ w s s', ba_final = Some w ∧ w_out w 0 = [(true, s)] ∧ w_out w 1 = [(true, s')] ∧
  epochs_left (ord := nat_ord_key) (crypto := number_crypto) ba_correct w.
Proof. apply ba_read_off_of. vm_compute. reflexivity. Qed.

Lemma ba_agreement_witness : ∃ (w : demo_world) s s',
  w_out w 0 = [(true, s)] ∧ w_out w 1 = [(true, s')] ∧ true = true.
Proof.
  destruct ba_outputs as (w & s & s' & Hw & H0 & H1 & Hl). exists w, s, s'.
  split; [exact H0|]. split; [exact H1|]. destruct ba_byz as [Hc Hb].
  apply (ba_agreement (ord := nat_ord_key) (crypto := number_crypto) four_keys ba_correct ba_keys 5 Hc Hb
    (λ _, ltac:(eauto)) w 0 1 true true s s' (ba_run_reachable w Hw) Hl);
    [by vm_compute..|rewrite H0; by left|rewrite H1; by left].
Defined.

Lemma ba_validity_witness : ∃ (w : demo_world) s, w_out w 1 = [(true, s)] ∧
  proposed (ord := nat_ord_key) (crypto := number_crypto) ba_correct w true.
Proof.
  destruct ba_outputs as (w & _ & s & Hw & _ & H1 & Hl). exists w, s.
  split; [exact H1|]. destruct ba_byz as [Hc Hb].
  apply (ba_validity (ord := nat_ord_key) (crypto := number_crypto) four_keys ba_correct ba_keys 5 Hc Hb
    (λ _, ltac:(eauto)) w 1 true s (ba_run_reachable w Hw) Hl); [by vm_compute|rewrite H1; by left].
Defined.
End ba_agreement.
