(* ===== verification/Targets.v ===== *)
(** * Whom the messages are addressed to

    The algorithms below [Subset] address their messages to all nodes, apart from the
    [Value] messages of a broadcast, which go to one other node each: no node writes to
    itself, it handles its own message at once instead. *)
From S2P Require Import Prelude.
From S2P Require Import BTree.
From S2P Require Import Traits.
From S2P Require Import Net.
From S2P Require Import NetworkInfo.
From S2P Require Import Merkle.
From S2P Require Import BoolSet.
From S2P Require Import Broadcast.
From S2P Require Import SbvBroadcast.
From S2P Require Import ThresholdSign.
From S2P Require Import ThresholdDecrypt.
From S2P Require Import BinaryAgreement.

(** ** What all messages of a method satisfy *)
Section sends.
Context {Msg O N F : Type} (P : TargetedMessage Msg N → Prop).
Abbreviation NStep := (Step Msg O N F).

Definition sends {S E} (m : M S E NStep) : Prop := ∀ s, after m s (λ _ x, Forall P (messages x)) (λ _, True).

Lemma sends_ret {S E} (x : NStep) : Forall P (messages x) → sends (S := S) (E := E) (mret x).
Proof. by intros ? s. Qed.
Lemma sends_bind {S E A} (m : M S E A) (k : A → M S E NStep) : (∀ a, sends (k a)) → sends (m ≫= k).
Proof. intros Hk s. apply after_bind. unfold after. destruct (m s) as [s' a| | |]; try done. apply Hk. Qed.
Lemma sends_throw {S E} (e : E) : sends (S := S) (throw e).
Proof. done. Qed.
Lemma sends_panic {S E} : sends (S := S) (E := E) panic.
Proof. done. Qed.
Lemma sends_no_fuel {S E} : sends (S := S) (E := E) no_fuel.
Proof. done. Qed.
Lemma sends_map_err {S E E'} (f : E → E') (m : M S E NStep) : sends m → sends (map_err f m).
Proof. intros Hm s. apply after_map_err. by eapply after_mono; [apply Hm|..]. Qed.
Lemma sends_zoom {S T E} (get : S → T) put (m : M T E NStep) : sends m → sends (zoom get put m).
Proof. intros Hm s. apply after_zoom. by eapply after_mono; [apply Hm|..]. Qed.
Lemma sends_for_acc {S E A} (body : NStep → A → M S E NStep) l acc : Forall P (messages acc) →
  (∀ x acc, Forall P (messages acc) → sends (body acc x)) → sends (for_acc body acc l).
Proof.
  intros Ha Hb s. exact (after_for_acc body (λ x, Forall P (messages x)) l (λ x acc s Hacc, Hb x acc Hacc s) acc s Ha).
Qed.
End sends.
(** A call whose messages, in all cases, satisfy [P'] *)
Lemma sends_bind_step {Msg O N F Msg' O' F' S E} (P : TargetedMessage Msg N → Prop) P'
    (m : M S E (Step Msg' O' N F')) (k : Step Msg' O' N F' → M S E (Step Msg O N F)) :
  sends P' m → (∀ x, Forall P' (messages x) → sends P (k x)) → sends P (m ≫= k).
Proof.
  intros Hm Hk s. apply after_bind. eapply after_mono; [apply Hm| |done]. intros s' x Hx. by apply Hk.
Qed.
Lemma sends_weaken {Msg O N F S E} (P P' : TargetedMessage Msg N → Prop) (m : M S E (Step Msg O N F)) :
  (∀ tm, P tm → P' tm) → sends P m → sends P' m.
Proof.
  intros HP Hm s. eapply after_mono; [apply Hm| |done]. intros s' x Hx. exact (Forall_impl P P' _ Hx HP).
Qed.

Definition for_all {Msg N} (tm : TargetedMessage Msg N) : Prop := target tm = All.
Abbreviation to_all l := (Forall for_all l) (only parsing).
Abbreviation sends_all := (sends for_all).

Create HintDb sends.
(** The messages of a step that is put together of others *)
Ltac solve_targets :=
  cbn in *;
  repeat first [assumption | apply Forall_nil_2 | apply Forall_cons_2; [reflexivity|] | apply Forall_app_2
    | match goal with |- Forall _ (tm_map _ <$> _) => apply Forall_fmap end
    | apply Forall_true; intros; exact I ].
#[export] Hint Extern 1 (Forall _ (messages _)) => solve [solve_targets] : sends.
Ltac sends_step :=
  match goal with
  | |- sends _ (mret _) => apply sends_ret; solve [solve_targets]
  | |- sends _ (throw _) => apply sends_throw
  | |- sends _ panic => apply sends_panic
  | |- sends _ no_fuel => apply sends_no_fuel
  | |- sends _ (map_err _ _) => apply sends_map_err
  | |- sends _ (zoom _ _ _) => apply sends_zoom
  | |- sends _ (for_acc _ _ _) => apply sends_for_acc; [solve [solve_targets]|intros ? ? ?]
  | |- sends _ (if ?b then _ else _) => destruct b
  | |- sends _ (match ?b with _ => _ end) => destruct b
  | |- sends _ _ => solve [auto with sends]
  end; cbn beta match.
Ltac run_sends :=
  repeat first
    [ match goal with |- sends ?P (_ ≫= _) =>
        first [apply (sends_bind_step P P); [solve [run_sends]|intros ? ?]
              |apply (sends_bind_step P for_all); [solve [run_sends]|intros ? ?]
              |apply sends_bind; intros ?]; cbn beta match end
    | sends_step ].

(** ** SBV broadcast *)
Module targets.
Section sbv.
Context {N : Type} `{ord : NodeIdT N} `{crypto : Crypto}.
Import sbv_broadcast.

Lemma sbv_try_output : sends_all (try_output (N := N)).
Proof. unfold try_output. run_sends. Qed.
#[local] Hint Resolve sbv_try_output : sends.
Lemma sbv_handle_aux j b : sends_all (handle_aux (N := N) j b).
Proof. unfold handle_aux. run_sends. Qed.
#[local] Hint Resolve sbv_handle_aux : sends.
Lemma sbv_send_with h (msg : Message) : (∀ j m, sends_all (h j m)) → sends_all (send_with (N := N) h msg).
Proof. intros Hh. unfold send_with. run_sends. Qed.
#[local] Hint Resolve sbv_send_with : sends.
Lemma sbv_send_bval_with h b : (∀ j m, sends_all (h j m)) → sends_all (send_bval_with (N := N) h b).
Proof. intros Hh. unfold send_bval_with. run_sends. Qed.
#[local] Hint Resolve sbv_send_bval_with : sends.
Lemma sbv_handle_message_fuel n j (msg : Message) : sends_all (handle_message_fuel (N := N) n j msg).
Proof.
  revert j msg. induction n as [|n IH]; intros j msg; cbn [handle_message_fuel]; [by apply sends_no_fuel|].
  destruct msg as [b|b]; [unfold handle_bval_with|]; run_sends.
Qed.
End sbv.
#[export] Hint Resolve sbv_handle_aux sbv_handle_message_fuel sbv_send_bval_with : sends.

(** ** Threshold signatures and decryption *)
Section ts.
Context {N : Type} `{ord : NodeIdT N} `{crypto : Crypto}.
Import threshold_sign.
Lemma ts_try_output_with m : sends_all m → sends_all (try_output_with (N := N) m).
Proof. intros Hm. unfold try_output_with. run_sends. Qed.
#[local] Hint Resolve ts_try_output_with : sends.
Lemma ts_handle_message_with m j msg : sends_all m → sends_all (handle_message_with (N := N) m j msg).
Proof. intros Hm. unfold handle_message_with. run_sends. Qed.
#[local] Hint Resolve ts_handle_message_with : sends.
Lemma ts_sign_fuel n : sends_all (sign_fuel (N := N) n).
Proof. induction n as [|n IH]; cbn [sign_fuel]; [by apply sends_no_fuel|]. run_sends. Qed.
Lemma ts_sign : sends_all (sign (N := N)).
Proof. apply ts_sign_fuel. Qed.
Lemma ts_handle_message j msg : sends_all (handle_message (N := N) j msg).
Proof. apply ts_handle_message_with, ts_sign. Qed.
End ts.
#[export] Hint Resolve ts_sign ts_handle_message : sends.

Section td.
Context {N : Type} `{ord : NodeIdT N} `{crypto : Crypto}.
Import threshold_decrypt.
Lemma td_try_output_with m : sends_all m → sends_all (try_output_with (N := N) m).
Proof. intros Hm. unfold try_output_with. run_sends. Qed.
#[local] Hint Resolve td_try_output_with : sends.
Lemma td_start_decryption_fuel n : sends_all (start_decryption_fuel (N := N) n).
Proof. induction n as [|n IH]; cbn [start_decryption_fuel]; [by apply sends_no_fuel|]. run_sends. Qed.
Lemma td_start_decryption : sends_all (start_decryption (N := N)).
Proof. apply td_start_decryption_fuel. Qed.
#[local] Hint Resolve td_start_decryption : sends.
Lemma td_handle_message j msg : sends_all (handle_message (N := N) j msg).
Proof. unfold handle_message, try_output. run_sends. Qed.
End td.
#[export] Hint Resolve td_start_decryption td_handle_message : sends.

(** ** Binary agreement *)
Section ba.
Context {N Sid : Type} `{ord : NodeIdT N} `{crypto : Crypto} `{sid : !SessionIdT Sid}.
Import binary_agreement.
Abbreviation BM := (M (BinaryAgreement N Sid) Error (Step Message bool N FaultKind)).

Lemma ba_on_sbv {Msg O F} (m : M (sbv_broadcast.SbvBroadcast N) sbv_broadcast.Error (Step Msg O N F)) :
  sends_all m → sends_all (on_sbv (Sid := Sid) m).
Proof. intros Hm. unfold on_sbv. run_sends. Qed.
Lemma ba_on_coin {Msg O F} ts (m : M (threshold_sign.ThresholdSign N) threshold_sign.Error (Step Msg O N F)) :
  sends_all m → sends_all (on_coin (Sid := Sid) ts m).
Proof. intros Hm. unfold on_coin. run_sends. Qed.
#[local] Hint Resolve ba_on_sbv ba_on_coin : sends.
Lemma ba_decide_value b : sends_all (decide_value b : BM).
Proof. unfold decide_value. run_sends. Qed.
#[local] Hint Resolve ba_decide_value : sends.

Section handlers.
Context (update_epoch : bool → BM) (Hupdate : ∀ b, sends_all (update_epoch b)).
#[local] Hint Resolve Hupdate : sends.
Lemma ba_try_update_epoch : sends_all (try_update_epoch update_epoch).
Proof. unfold try_update_epoch. run_sends. Qed.
#[local] Hint Resolve ba_try_update_epoch : sends.
Lemma ba_on_coin_step x : to_all (messages x) → sends_all (on_coin_step update_epoch x).
Proof. intros Hx. unfold on_coin_step, extend_with. run_sends. Qed.
#[local] Hint Resolve ba_on_coin_step : sends.
Lemma ba_try_finish_conf_round : sends_all (try_finish_conf_round update_epoch).
Proof. unfold try_finish_conf_round. run_sends. Qed.
#[local] Hint Resolve ba_try_finish_conf_round : sends.
Lemma ba_handle_conf j v : sends_all (handle_conf update_epoch j v).
Proof. unfold handle_conf. run_sends. Qed.
#[local] Hint Resolve ba_handle_conf : sends.
Lemma ba_handle_coin j m : sends_all (handle_coin update_epoch j m).
Proof. unfold handle_coin. run_sends. Qed.
#[local] Hint Resolve ba_handle_coin : sends.
Lemma ba_send_with h c : (∀ j m, sends_all (h j m)) → sends_all (send_with h c : BM).
Proof. intros Hh. unfold send_with. run_sends. Qed.
#[local] Hint Resolve ba_send_with : sends.
Lemma ba_send_conf_with h v : (∀ j m, sends_all (h j m)) → sends_all (send_conf_with update_epoch h v).
Proof. intros Hh. unfold send_conf_with. run_sends. Qed.
#[local] Hint Resolve ba_send_conf_with : sends.
Lemma ba_handle_sbvb_step_with h x : (∀ j m, sends_all (h j m)) → to_all (messages x) →
  sends_all (handle_sbvb_step_with update_epoch h x).
Proof. intros Hh Hx. unfold handle_sbvb_step_with, extend_with. run_sends. Qed.
#[local] Hint Resolve ba_handle_sbvb_step_with : sends.
Lemma ba_handle_message_content_with h j c : (∀ j m, sends_all (h j m)) →
  sends_all (handle_message_content_with update_epoch h j c).
Proof.
  intros Hh. destruct c; cbn; [unfold handle_sbv_broadcast_with, sbv_broadcast.handle_message; run_sends|run_sends| |run_sends].
  unfold handle_term_with, sbv_broadcast.handle_bval, sbv_broadcast.handle_message. run_sends.
Qed.
#[local] Hint Resolve ba_handle_message_content_with : sends.
Lemma ba_handle_message_content j c : sends_all (handle_message_content update_epoch j c).
Proof. apply ba_handle_message_content_with. intros. apply ba_handle_message_content_with. intros. apply sends_no_fuel. Qed.
#[local] Hint Resolve ba_handle_message_content : sends.
Lemma ba_handle_sbvb_step x : to_all (messages x) → sends_all (handle_sbvb_step update_epoch x).
Proof.
  apply ba_handle_sbvb_step_with. intros. apply ba_handle_message_content_with. intros. apply sends_no_fuel.
Qed.
#[local] Hint Resolve ba_handle_sbvb_step : sends.
Lemma ba_handle_queued e x l : to_all (messages x) → sends_all (handle_queued update_epoch e x l).
Proof. revert x. induction l as [|[j m] l IH]; intros x Hx; cbn [handle_queued]; run_sends. Qed.
#[local] Hint Resolve ba_handle_queued : sends.
Lemma ba_update_epoch_with b : sends_all (update_epoch_with update_epoch b).
Proof. unfold update_epoch_with, sbv_broadcast.send_bval. run_sends. Qed.
End handlers.

Lemma ba_update_epoch b : sends_all (update_epoch b : BM).
Proof.
  assert (Hn : ∀ n b, sends_all (update_epoch_fuel n b : BM)).
  { intros n. induction n as [|n IH]; intros c; cbn [update_epoch_fuel]; [apply sends_no_fuel|by apply ba_update_epoch_with]. }
  intros s. apply Hn.
Qed.
Lemma ba_propose b : sends_all (propose b : BM).
Proof.
  unfold propose, sbv_broadcast.send_bval. pose proof ba_update_epoch. pose proof (ba_handle_sbvb_step update_epoch). run_sends.
Qed.
Lemma ba_handle_message j m : sends_all (handle_message j m : BM).
Proof.
  unfold handle_message. pose proof ba_update_epoch. pose proof (ba_handle_message_content update_epoch). run_sends.
Qed.
End ba.

(** ** Broadcast *)
Section bc.
Context {N : Type} `{ord : NodeIdT N} `{sha : Sha3} `{crypto : Crypto} `{rse : ReedSolomonLib} `{bo : ByteOrder}.
Import broadcast.
Abbreviation BM := (M (Broadcast N) Error (Step Message bytes N FaultKind)).

Lemma bc_compute_output h : sends_all (compute_output h : BM).
Proof. unfold compute_output. run_sends. Qed.
#[local] Hint Resolve bc_compute_output : sends.
Lemma bc_send_ready_with g h : (∀ j h, sends_all (g j h)) → sends_all (send_ready_with g h : BM).
Proof. intros Hg. unfold send_ready_with. run_sends. Qed.
#[local] Hint Resolve bc_send_ready_with : sends.
Lemma bc_handle_ready_fuel n j h : sends_all (handle_ready_fuel n j h : BM).
Proof.
  revert j h. induction n as [|n IH]; intros j h; cbn [handle_ready_fuel]; [by apply sends_no_fuel|]. run_sends.
Qed.
#[local] Hint Resolve bc_handle_ready_fuel : sends.
Lemma bc_handle_echo j q : sends_all (handle_echo j q : BM).
Proof. unfold handle_echo, send_ready. run_sends. Qed.
#[local] Hint Resolve bc_handle_echo : sends.
Lemma bc_handle_value j q : sends_all (handle_value j q : BM).
Proof. unfold handle_value, send_echo. run_sends. Qed.
#[local] Hint Resolve bc_handle_value : sends.
Lemma bc_handle_message j m : sends_all (handle_message j m : BM).
Proof. unfold handle_message, handle_ready. run_sends. Qed.

(** To others than [i] *)
Definition not_to (i : N) {Msg} (tm : TargetedMessage Msg N) : Prop := target tm ≠ Node i.
Lemma for_all_not_to i {Msg} (tm : TargetedMessage Msg N) : for_all tm → not_to i tm.
Proof. unfold for_all, not_to. by intros ->. Qed.

Lemma bc_send_shards v (s : Broadcast N) :
  after (send_shards v) s (λ _ x, Forall (not_to (me s)) (messages x.2)) (λ _, True).
Proof.
  unfold send_shards. repeat (after_step; []).
  apply (after_mono _ _ (λ _ y, Forall (not_to (me s)) (messages y.2)) _ (λ _, True)); [|intros s' [res y] Hy|done].
  - apply after_for_acc; [|apply Forall_nil_2]. intros [index id] [res y] s' Hy. after_step.
    unfold after. destruct (proof x0 index); [|done]. cbn. destruct (decide (id = me s)) as [|Hid]; [exact Hy|]. cbn.
    apply Forall_app_2; [done|]. apply Forall_cons_2; [|by apply Forall_nil_2]. by intros [= ->].
  - after_step. unfold after. by destruct res.
Qed.

Lemma bc_broadcast v (s : Broadcast N) :
  after (broadcast v) s (λ _ x, Forall (not_to (me s)) (messages x)) (λ _, True).
Proof.
  unfold broadcast. do 4 after_step; [done|by after_step|]. do 3 after_step.
  eapply after_mono; [apply bc_send_shards| |done]. intros s' [q x] Hx. after_step.
  eapply after_mono; [apply bc_handle_value| |done]. intros s'' x' Hx'. after_step. cbn.
  apply Forall_app_2; [done|]. eapply Forall_impl; [exact Hx'|]. intros tm. apply for_all_not_to.
Qed.
End bc.

(** ** Worlds in which no correct node has sent itself a message *)
Section net.
Context {N State I Msg O Er F : Type} `{ord : NodeIdT N} `{msg_eq : EqDecision Msg}.
Context (correct : gset N).
Implicit Types (w : world N State I Msg O) (i : N).

Definition self_free w : Prop :=
  Forall (λ x : N * TargetedMessage Msg N, x.1 ∉ correct ∨ not_to x.1 x.2) (w_sent w).

#[local] Instance target_eq_dec : EqDecision (Target N).
Proof. solve_decision. Defined.
#[global] Instance self_free_dec w : Decision (self_free w).
Proof. unfold self_free, not_to. apply _. Defined.

Lemma self_free_elem w i t m : self_free w → i ∈ correct → (i, TM t m) ∈ w_sent w → t ≠ Node i.
Proof. intros Hf Hi Hin. destruct (proj1 (Forall_forall _ _) Hf _ Hin) as [?|Hn]; [done|exact Hn]. Qed.
Lemma self_free_intro w : (∀ i t m, i ∈ correct → (i, TM t m) ∈ w_sent w → t ≠ Node i) → self_free w.
Proof.
  intros Hf. apply Forall_forall. intros [i [t m]] Hin. destruct (decide (i ∈ correct)) as [Hi|]; [right|by left].
  exact (Hf i t m Hi Hin).
Qed.

Context (handle_input : I → M State Er (Step Msg O N F)) (handle_message : N → Msg → M State Er (Step Msg O N F)).
Context (peer : N → bool) (initial : world N State I Msg O → Prop).
Abbreviation reachable := (Net.reachable handle_input handle_message peer correct initial).
(** What the calls of the correct nodes keep of their states, and give for the messages they send *)
Section reachable_polite.
Context (Inv : N → State → Prop) (Q : N → TargetedMessage Msg N → Prop).
Abbreviation polite_call i m s :=
  (Inv i s → after m s (λ s' x, Inv i s' ∧ Forall (Q i) (messages x)) (λ s', Inv i s')).

Lemma reachable_polite :
  (∀ w, initial w → w_sent w = [] ∧ ∀ i, i ∈ correct → Inv i (w_node w i)) →
  (∀ i v s, polite_call i (handle_input v) s) → (∀ i j m s, polite_call i (handle_message j m) s) →
  ∀ w, reachable w → (∀ i, i ∈ correct → Inv i (w_node w i)) ∧
    ∀ i tm, i ∈ correct → (i, tm) ∈ w_sent w → Q i tm.
Proof.
  intros H0 Hin Hmsg w. induction 1 as [w Hw|w ev w' Hr [IHn IHs] Ha He].
  { destruct (H0 w Hw) as [-> ?]. split; [done|]. by intros i tm _ ?%elem_of_nil. }
  assert (Hev : ∃ i (ins : list I) (h : M State Er (Step Msg O N F)), i ∈ correct ∧
    commit w i ins (h (w_node w i)) = Some w' ∧ polite_call i h (w_node w i)).
  { destruct ev as [i v|i j m]; simpl in He.
    - exists i, [v], (handle_input v). split; [by apply allowed_input in Ha|]. split; [exact He|apply Hin].
    - exists i, [], (handle_message j m). split; [by apply allowed_deliver_iff in Ha as [? _]|]. split; [exact He|apply Hmsg]. }
  destruct Hev as (i & ins & h & Hi & Hc & Hp). apply commit_acts in Hc. specialize (Hp (IHn i Hi)). unfold after in Hp.
  assert (Hx : ∃ s' ins' (x : Step Msg O N F), acts w w' i ins' s' x ∧ Inv i s' ∧ Forall (Q i) (messages x)).
  { destruct (h (w_node w i)) as [s' x|s' e| |]; [| |done..].
    - destruct Hp. by exists s', ins, x.
    - exists s', [], step_default. split_and!; [done..|apply Forall_nil_2]. }
  destruct Hx as (s' & ins' & x & Hact & Hs' & Hx). split.
  - intros k Hk. destruct (decide (k = i)) as [->|Hne]; [by rewrite (a_node _ _ _ _ _ _ Hact)|].
    rewrite (a_node_ne _ _ _ _ _ _ Hact k Hne). by apply IHn.
  - intros k tm Hk. rewrite (a_sent _ _ _ _ _ _ Hact), elem_of_app.
    intros [?|(tm' & [= -> ->] & Hin')%list_elem_of_fmap]; [by apply IHs|]. by apply (proj1 (Forall_forall _ _) Hx).
Qed.
End reachable_polite.
End net.
End targets.
