(* ===== verification/Subset.v ===== *)
(** * Subset

    Models [src/subset/subset.rs], [proposal_state.rs], [message.rs] and [error.rs]: for
    every validator a reliable broadcast of its value and a binary agreement on whether
    it belongs to the subset. *)
From S2P Require Import Prelude.
From S2P Require Import BTree.
From S2P Require Import Traits.
From S2P Require Import NetworkInfo.
From S2P Require Import Merkle.
From S2P Require Import Broadcast.
From S2P Require Import BoolSet.
From S2P Require Import BinaryAgreement.

Module subset.

Inductive Error `{Crypto} : Type :=
  | NewAgreement (e : binary_agreement.Error)
  | NewBroadcast (e : broadcast.Error)
  | HandleBroadcast (e : broadcast.Error)
  | HandleAgreement (e : binary_agreement.Error)
  | UnknownProposer.

Inductive FaultKind : Type :=
  | BroadcastFault (k : broadcast.FaultKind)
  | BaFault (k : binary_agreement.FaultKind).

Inductive MessageContent `{Crypto} : Type :=
  | Broadcast (m : broadcast.Message)
  | Agreement (m : binary_agreement.Message).

Record Message {N : Type} `{Crypto} : Type := mkMessage {
  msg_proposer_id : N;
  content : MessageContent;
}.
Arguments Message N {_}.
(** [MessageContent::with] *)
Definition with_proposer {N} `{Crypto} (c : MessageContent) (proposer_id : N) : Message N :=
  mkMessage _ _ proposer_id c.

#[global] Instance subset_content_eq_dec `{Crypto, !EqDecision SignatureShare} :
  EqDecision MessageContent.
Proof. solve_decision. Defined.
#[global] Instance subset_message_eq_dec {N} `{NodeIdT N, Crypto, !EqDecision SignatureShare} :
  EqDecision (Message N).
Proof. solve_decision. Defined.

Record BaSessionId (Sid : Type) : Type := mkBaSessionId {
  subset_id : Sid;
  proposer_idx : u32;
}.
Arguments mkBaSessionId {Sid} subset_id proposer_idx.
Arguments subset_id {Sid} _.
Arguments proposer_idx {Sid} _.

(** ** The state of a proposal *)
Inductive ProposalState {N Sid : Type} `{NodeIdT N, Crypto, ReedSolomonLib} : Type :=
  | Ongoing (bc : broadcast.Broadcast N) (ba : binary_agreement.BinaryAgreement N (BaSessionId Sid))
  | HasValue (value : bytes) (ba : binary_agreement.BinaryAgreement N (BaSessionId Sid))
  | Accepted (bc : broadcast.Broadcast N)
  | Complete (accepted : bool).
Arguments ProposalState N Sid {_ _ _}.

Section proposal.
Context {N Sid : Type} `{ord : NodeIdT N} `{crypto : Crypto} `{sha : Sha3}
  `{rse : ReedSolomonLib} `{bo : ByteOrder} `{sid : !SessionIdT (BaSessionId Sid)}.
Abbreviation PState := (ProposalState N Sid).
Abbreviation PStep := (Step MessageContent bytes N FaultKind).
Abbreviation BcStep := (Step broadcast.Message bytes N broadcast.FaultKind).
Abbreviation BaStep := (Step binary_agreement.Message bool N binary_agreement.FaultKind).
Abbreviation BaInstance := (binary_agreement.BinaryAgreement N (BaSessionId Sid)).

(** [ProposalState::new] *)
Definition proposal_new (ni : NetworkInfo N) (ba_id : BaSessionId Sid) (prop_id : N) :
    Error + PState :=
  let agreement := binary_agreement.new ni ba_id in
  match broadcast.new ni prop_id with
  | inl e => inl (NewBroadcast e)
  | inr bc => inr (Ongoing bc agreement)
  end.

Definition received (s : PState) : bool :=
  match s with
  | Ongoing _ _ | Accepted _ => false
  | HasValue _ _ => true
  | Complete accepted => accepted
  end.
Definition accepted (s : PState) : bool :=
  match s with
  | Ongoing _ _ | HasValue _ _ => false
  | Accepted _ => true
  | Complete accepted => accepted
  end.
Definition complete (s : PState) : bool :=
  match s with
  | Ongoing _ _ | HasValue _ _ | Accepted _ => false
  | Complete _ => true
  end.

(** A converted step, and the last of its outputs. *)
Definition convert_bc (bc_step : BcStep) : option bytes * PStep :=
  let '(step, outputs) := extend_with step_default bc_step BroadcastFault Broadcast in
  (last outputs, step).
Definition convert_ba (ba_step : BaStep) : option bool * PStep :=
  let '(step, outputs) := extend_with step_default ba_step BaFault Agreement in
  (last outputs, step).

Definition handle_agreement (f : M BaInstance binary_agreement.Error BaStep) :
    M PState Error PStep := λ s,
  match s with
  | Ongoing bc ba =>
      match f ba with
      | Err ba e => Err (Ongoing bc ba) (HandleAgreement e)
      | Ok ba ba_step =>
          match convert_ba ba_step with
          | (None, step) => Ok (Ongoing bc ba) step
          | (Some false, step) => Ok (Complete false) step
          | (Some true, step) => Ok (Accepted bc) step
          end
      | Panic => Panic
      | NoFuel => NoFuel
      end
  | HasValue value ba =>
      match f ba with
      | Err ba e => Err (HasValue value ba) (HandleAgreement e)
      | Ok ba ba_step =>
          match convert_ba ba_step with
          | (None, step) => Ok (HasValue value ba) step
          | (Some false, step) => Ok (Complete false) step
          | (Some true, step) => Ok (Complete true) (with_output step (Some value))
          end
      | Panic => Panic
      | NoFuel => NoFuel
      end
  | Accepted _ | Complete _ => Ok s step_default
  end.

Definition handle_broadcast (f : M (broadcast.Broadcast N) broadcast.Error BcStep) :
    M PState Error PStep := λ s,
  match s with
  | Ongoing bc ba =>
      match f bc with
      | Err bc e => Err (Ongoing bc ba) (HandleBroadcast e)
      | Ok bc bc_step =>
          match convert_bc bc_step with
          | (None, step) => Ok (Ongoing bc ba) step
          | (Some value, step) =>
              match handle_agreement (binary_agreement.propose true) (HasValue value ba) with
              | Ok s vote_step => Ok s (step_join step vote_step)
              | Err s e => Err s e
              | Panic => Panic
              | NoFuel => NoFuel
              end
          end
      | Panic => Panic
      | NoFuel => NoFuel
      end
  | Accepted bc =>
      match f bc with
      | Err bc e => Err (Accepted bc) (HandleBroadcast e)
      | Ok bc bc_step =>
          match convert_bc bc_step with
          | (None, step) => Ok (Accepted bc) step
          | (Some value, step) => Ok (Complete true) (with_output step (Some value))
          end
      | Panic => Panic
      | NoFuel => NoFuel
      end
  | HasValue _ _ | Complete _ => Ok s step_default
  end.

Definition proposal_propose (value : bytes) : M PState Error PStep :=
  handle_broadcast (broadcast.broadcast value).
Definition proposal_handle_message (sender_id : N) (msg : MessageContent) : M PState Error PStep :=
  match msg with
  | Agreement ba_msg => handle_agreement (binary_agreement.handle_message sender_id ba_msg)
  | Broadcast bc_msg => handle_broadcast (broadcast.handle_message sender_id bc_msg)
  end.
Definition vote_false : M PState Error PStep := handle_agreement (binary_agreement.propose false).
End proposal.

(** ** The subset instance *)
Inductive SubsetOutput {N : Type} : Type :=
  | Contribution (proposer_id : N) (value : bytes)
  | Done.
Arguments SubsetOutput N : clear implicits.

Record Subset {N Sid : Type} `{NodeIdT N, Crypto, ReedSolomonLib} : Type := mkSubset {
  netinfo : NetworkInfo N;
  session_id : Sid;
  proposal_states : gmap N (ProposalState N Sid);
  decided : bool;
}.
Arguments Subset N Sid {_ _ _}.
#[global] Instance Subset_settable {N Sid} `{NodeIdT N, Crypto, ReedSolomonLib} :
    Settable (Subset N Sid) := λ s,
  mkSubset _ _ _ _ _ (netinfo s) (session_id s) (proposal_states s) (decided s).

Section subset.
Context {N Sid : Type} `{ord : NodeIdT N} `{crypto : Crypto} `{sha : Sha3}
  `{rse : ReedSolomonLib} `{bo : ByteOrder} `{sid : !SessionIdT (BaSessionId Sid)}.
Abbreviation State := (Subset N Sid).
Abbreviation PStep := (Step MessageContent bytes N FaultKind).
Abbreviation CsStep := (Step (Message N) (SubsetOutput N) N FaultKind).

Definition terminated (s : State) : bool := decided s.

(** [Subset::new]: one proposal state per validator, with the index of the proposer in its
    session identifier. *)
Definition new (ni : NetworkInfo N) (session : Sid) : Error + State :=
  let add acc '(proposer_idx, proposer_id) :=
    match acc with
    | inl e => inl e
    | inr m =>
        let ba_id := mkBaSessionId session (wrap32 (Z.of_nat proposer_idx)) in
        match proposal_new ni ba_id proposer_id with
        | inl e => inl e
        | inr st => inr (<[proposer_id := st]> m)
        end
    end in
  match foldl add (inr ∅) (imap pair (all_ids ni)) with
  | inl e => inl e
  | inr m => inr (mkSubset _ _ _ _ _ ni session m false)
  end.

Definition received_proposals (s : State) : nat :=
  length (filter (λ p, received p = true) (values (proposal_states s))).
Definition count_accepted (s : State) : nat :=
  length (filter (λ p, accepted p = true) (values (proposal_states s))).

Definition convert_step (proposer_id : N) (prop_step : PStep) : CsStep :=
  let '(step, outputs) :=
    extend_with step_default prop_step (λ fault, fault) (λ p_msg, with_proposer p_msg proposer_id) in
  match last outputs with
  | Some value => step <| output ::= (.++ [Contribution proposer_id value]) |>
  | None => step
  end.

(** A method of one proposal state; its absence is [UnknownProposer]. *)
Definition on_proposal {A} (proposer_id : N) (m : M (ProposalState N Sid) Error A) : M State Error A :=
  s ← get;
  p ← ok_or (proposal_states s !! proposer_id) UnknownProposer;
  zoom (λ _, p) (λ p s, s <| proposal_states ::= <[proposer_id := p]> |>) m.

Definition try_output : M State Error CsStep :=
  s ← get;
  if decided s || bool_decide (count_accepted s < num_correct (netinfo s)) then mret step_default
  else
    step ←
      (if decide (count_accepted s = num_correct (netinfo s)) then
         for_acc (λ step proposer_id,
           prop_step ← on_proposal proposer_id vote_false;
           mret (step_extend step (convert_step proposer_id prop_step)))
           step_default (keys (proposal_states s))
       else mret step_default);
    s ← get;
    if forallb complete (values (proposal_states s)) then
      modify (λ s, s <| decided := true |>);;
      mret (step <| output ::= (.++ [Done]) |>)
    else mret step.

Definition propose (value : bytes) : M State Error CsStep :=
  s ← get;
  if negb (is_validator (netinfo s)) then mret step_default
  else
    prop_step ← on_proposal (our_id (netinfo s)) (proposal_propose value);
    let step := convert_step (our_id (netinfo s)) prop_step in
    step' ← try_output;
    mret (step_join step step').

Definition handle_message (sender_id : N) (msg : Message N) : M State Error CsStep :=
  prop_step ← on_proposal (msg_proposer_id msg) (proposal_handle_message sender_id (content msg));
  let step := convert_step (msg_proposer_id msg) prop_step in
  step' ← try_output;
  mret (step_join step step').
End subset.
End subset.
