(* ===== verification/SubsetMoves.v ===== *)
(** * Subset: a proposal and its two networks

    A network of [Subset] nodes contains, for every proposer, a network of [Broadcast]
    instances and a network of [BinaryAgreement] instances.  This file has the step of one
    node in one proposal: what [ProposalState] does to its two instances are events of
    the two networks ([moved]).  [SubsetNet] puts the proposals together. *)
From S2P Require Import Prelude.
From S2P Require Import BTree.
From S2P Require Import Traits.
From S2P Require Import Net.
From S2P Require Import NetworkInfo.
From S2P Require Import Merkle.
From S2P Require Import Broadcast.
From S2P Require Import BroadcastNet.
From S2P Require Import ThresholdSign.
From S2P Require Import BinaryAgreement.
From S2P Require Import BaInvariant.
From S2P Require Import BaNode.
From S2P Require Import BaAgreement.
From S2P Require Import Subset.
From S2P Require Import Instances.

Module subset_moves.
Import subset.

Abbreviation bc_world N := (Net.world N (broadcast.Broadcast N) bytes broadcast.Message bytes).
Abbreviation ba_world N Sid := (Net.world N (binary_agreement.BinaryAgreement N (BaSessionId Sid)) bool
  binary_agreement.Message bool).

(** The calls of a broadcast instance *)
Inductive bc_call {N : Type} `{Crypto} : Type :=
  | BcPropose (value : bytes)
  | BcMessage (sender_id : N) (msg : broadcast.Message).

Section moves.
Context {N Sid : Type} `{ord : NodeIdT N} `{crypto : Crypto} `{sha : Sha3}
  `{rse : ReedSolomonLib} `{bo : ByteOrder} `{sid : !SessionIdT (BaSessionId Sid)}
  `{rse_laws : !ReedSolomonLaws} `{bo_laws : !ByteOrderLaws} `{laws : !ThresholdSigLaws}
  `{share_eq : !EqDecision SignatureShare}.
Context (pubs : gmap N PublicKey) (correct : gset N) (pks : PublicKeySet).
Abbreviation n := (size pubs).
Abbreviation f := ((size pubs - 1) / 3).
Abbreviation PState := (ProposalState N Sid).
Abbreviation PStep := (Step MessageContent bytes N FaultKind).
Abbreviation BcStep := (Step broadcast.Message bytes N broadcast.FaultKind).
Abbreviation BaStep := (Step binary_agreement.Message bool N binary_agreement.FaultKind).
Context (Hcorrect : correct ⊆ dom pubs) (Hbyz : size (dom pubs ∖ correct) ≤ f).
(** The proposer and the session of its agreement *)
Context (p : N) (ba_id : BaSessionId Sid).
Context (Hser : ∀ e, is_Some (serialize_coin_id ba_id e)).
Implicit Types (bw : bc_world N) (aw : ba_world N Sid) (i j k : N) (st : PState) (o : PStep).

Abbreviation bc_reachable := (Net.reachable broadcast.broadcast broadcast.handle_message (λ _, true)
  correct (BroadcastNet.initial correct pubs p)).
Abbreviation ba_reachable := (Net.reachable binary_agreement.propose binary_agreement.handle_message
  (ba_agreement.validator pubs) correct (ba_agreement.ba_initial pubs correct pks ba_id)).

(** ** Events of the two networks *)
Definition run_bc (c : bc_call) : M (broadcast.Broadcast N) broadcast.Error _ :=
  match c with
  | BcPropose value => broadcast.broadcast value
  | BcMessage sender_id msg => broadcast.handle_message sender_id msg
  end.
Definition bc_ins (c : @bc_call N crypto) : list bytes := match c with BcPropose value => [value] | _ => [] end.
Definition ba_ins (c : @ba_node.ba_call N crypto) : list bool :=
  match c with ba_node.Propose b => [b] | _ => [] end.
Definition bc_event i (c : bc_call) : event N bytes broadcast.Message :=
  match c with BcPropose value => Input i value | BcMessage j msg => Deliver i j msg end.
Definition ba_event i (c : @ba_node.ba_call N crypto) : event N bool binary_agreement.Message :=
  match c with ba_node.Propose b => Input i b | ba_node.HandleMessage j msg => Deliver i j msg end.
Definition bc_allowed bw i (c : bc_call) : Prop := Net.allowed (λ _, true) correct bw (bc_event i c) = true.
Definition ba_allowed aw i c : Prop :=
  Net.allowed (ba_agreement.validator pubs) correct aw (ba_event i c) = true.

Lemma ba_move aw i c :
  ba_reachable aw → i ∈ correct → ba_allowed aw i c →
  ∃ s' out aw', ba_node.run_call c (w_node aw i) = Ok s' out ∧ ba_reachable aw' ∧ acts aw aw' i (ba_ins c) s' out ∧
    (w_out aw' i).*1 = option_list (binary_agreement.decision s').
Proof.
  intros Hr Hi Ha. pose proof (ba_agreement.ba_reachable_inv _ _ _ _ Hcorrect Hbyz Hser aw Hr) as Hw.
  destruct (ba_agreement.w_member _ _ _ _ _ Hw i Hi) as [Hid Hpub _ Hsid].
  assert (Hfrom : ba_node.call_from (binary_agreement.netinfo (w_node aw i)) c).
  { destruct c as [b|j m]; [done|]. apply allowed_deliver in Ha as (_ & Hj & Hp & _).
    split; [by rewrite Hid|]. unfold is_node_validator. by rewrite Hpub. }
  pose proof (ba_node.run_call_plain c _ (ba_agreement.w_ok _ _ _ _ _ Hw i Hi) Hfrom) as Hspec.
  unfold wp in Hspec. destruct (ba_node.run_call c (w_node aw i)) as [s' out|s' e| |] eqn:Hrun; [|exfalso|done..].
  2: { destruct Hspec as (_ & e' & He). rewrite Hsid in He. destruct (Hser e'). congruence. }
  assert (He : exec binary_agreement.propose binary_agreement.handle_message aw (ba_event i c) =
    commit aw i (ba_ins c) (ba_node.run_call c (w_node aw i))) by by destruct c.
  rewrite Hrun in He. destruct (commit _ _ _ _) as [aw'|] eqn:Hc; [|done].
  assert (Hr' : ba_reachable aw') by (by eapply reach_step).
  pose proof (commit_acts _ _ _ _ _ Hc) as Hacts. exists s', out, aw'. split_and!; [done..|].
  pose proof (ba_agreement.ba_reachable_inv _ _ _ _ Hcorrect Hbyz Hser aw' Hr') as Hw'.
  rewrite (ba_agreement.w_outs _ _ _ _ _ Hw' i Hi). by rewrite (a_node _ _ _ _ _ _ Hacts).
Qed.

Lemma bc_move bw i c :
  bc_reachable bw → i ∈ correct → bc_allowed bw i c →
  ∃ bw', bc_reachable bw' ∧ length (w_out bw' i) ≤ 1 ∧
    match run_bc c (w_node bw i) with
    | Ok s' out => acts bw bw' i (bc_ins c) s' out
    | Err s' _ => acts bw bw' i [] s' (step_default : BcStep)
    | _ => False
    end.
Proof.
  intros Hr Hi Ha. pose proof (bc_reachable_inv _ _ _ Hbyz bw Hr) as Hinv.
  destruct (bc_exec_local _ _ _ bw (bc_event i c) Hinv Ha) as (bw' & _ & _ & _ & _ & _ & _ & He & _).
  assert (Hr' : bc_reachable bw') by (by eapply reach_step).
  exists bw'. split; [done|]. split.
  - destruct (i_out _ _ _ _ (bc_reachable_inv _ _ _ Hbyz bw' Hr') i Hi) as [->|(v & s & -> & _)]; simpl; lia.
  - destruct c; by apply commit_acts in He.
Qed.

(** ** A proposal *)

(** The state of the proposal at node [i] and what [i] has output in the two networks *)
Definition related i st bw aw : Prop :=
  match st with
  | Ongoing bc ba => w_node bw i = bc ∧ (w_out bw i).*1 = [] ∧ w_node aw i = ba ∧ (w_out aw i).*1 = []
  | HasValue value ba => (w_out bw i).*1 = [value] ∧ w_node aw i = ba ∧ (w_out aw i).*1 = []
  | Accepted bc => w_node bw i = bc ∧ (w_out bw i).*1 = [] ∧ (w_out aw i).*1 = [true]
  | Complete true => (∃ value, (w_out bw i).*1 = [value]) ∧ (w_out aw i).*1 = [true]
  | Complete false => (w_out aw i).*1 = [false]
  end.
(** The value of a completed proposal *)
Definition result i st bw : list bytes :=
  match st with Complete true => (w_out bw i).*1 | _ => [] end.

Definition bc_part (tm : TargetedMessage MessageContent N) : option (TargetedMessage broadcast.Message N) :=
  match message tm with Broadcast m => Some (TM (target tm) m) | Agreement _ => None end.
Definition ba_part (tm : TargetedMessage MessageContent N) :
    option (TargetedMessage binary_agreement.Message N) :=
  match message tm with Agreement m => Some (TM (target tm) m) | Broadcast _ => None end.

(** [ins] are the inputs of the broadcast. *)
Record moved (ins : list bytes) i st bw aw o st' bw' aw' : Prop := {
  mv_bc : bc_reachable bw';
  mv_ba : ba_reachable aw';
  mv_related : related i st' bw' aw';
  mv_bc_sent : w_sent bw' = w_sent bw ++ (pair i <$> omap bc_part (messages o));
  mv_ba_sent : w_sent aw' = w_sent aw ++ (pair i <$> omap ba_part (messages o));
  mv_bc_ne k : k ≠ i → w_node bw' k = w_node bw k ∧ w_out bw' k = w_out bw k;
  mv_ba_ne k : k ≠ i → w_node aw' k = w_node aw k ∧ w_out aw' k = w_out aw k;
  mv_result : result i st' bw' = result i st bw ++ output o;
  mv_input k v : v ∈ w_input bw' k → v ∈ w_input bw k ∨ (k = i ∧ v ∈ ins);
  mv_accepted : accepted st = true → accepted st' = true;
  mv_complete : complete st = true → st' = st;
}.

Lemma moved_refl ins i st bw aw :
  bc_reachable bw → ba_reachable aw → related i st bw aw → moved ins i st bw aw step_default st bw aw.
Proof. intros. split; try done; [by rewrite app_nil_r..|by left]. Qed.

Lemma moved_trans ins i st1 bw1 aw1 o1 st2 bw2 aw2 o2 st3 bw3 aw3 :
  moved ins i st1 bw1 aw1 o1 st2 bw2 aw2 → moved ins i st2 bw2 aw2 o2 st3 bw3 aw3 →
  moved ins i st1 bw1 aw1 (step_extend o1 o2) st3 bw3 aw3.
Proof.
  intros [] []. split; try done.
  - cbn [messages step_extend]. rewrite omap_app, fmap_app, app_assoc. congruence.
  - cbn [messages step_extend]. rewrite omap_app, fmap_app, app_assoc. congruence.
  - intros k Hk. destruct (mv_bc_ne0 k Hk), (mv_bc_ne1 k Hk). split; congruence.
  - intros k Hk. destruct (mv_ba_ne0 k Hk), (mv_ba_ne1 k Hk). split; congruence.
  - cbn [output step_extend]. rewrite app_assoc. congruence.
  - intros k v [[?|?]%mv_input0|?]%mv_input1; [by left|by right..].
  - auto.
  - intros Hc. specialize (mv_complete0 Hc). subst st2. auto.
Qed.

Lemma moved_weaken ins ins' i st bw aw o st' bw' aw' : ins ⊆ ins' →
  moved ins i st bw aw o st' bw' aw' → moved ins' i st bw aw o st' bw' aw'.
Proof. intros Hs []. split; try done. intros k v [?|[? ?]]%mv_input0; [by left|right; auto]. Qed.

Lemma omap_bc_part (l : list (TargetedMessage broadcast.Message N)) :
  omap bc_part (tm_map Broadcast <$> l) = l ∧ omap ba_part (tm_map Broadcast <$> l) = [].
Proof. induction l as [|[t m] l [IH1 IH2]]; [done|]. split; cbn; [by f_equal|done]. Qed.
Lemma omap_ba_part (l : list (TargetedMessage binary_agreement.Message N)) :
  omap bc_part (tm_map Agreement <$> l) = [] ∧ omap ba_part (tm_map Agreement <$> l) = l.
Proof. induction l as [|[t m] l [IH1 IH2]]; [done|]. split; cbn; [done|by f_equal]. Qed.

(** An event of the agreement network as a step of the proposal *)
Lemma moved_ba ins i st st' bw aw aw' ains s' (out : BaStep) o :
  bc_reachable bw → ba_reachable aw' → acts aw aw' i ains s' out → related i st' bw aw' →
  messages o = tm_map Agreement <$> messages out → result i st' bw = result i st bw ++ output o →
  accepted st = false → complete st = false → moved ins i st bw aw o st' bw aw'.
Proof.
  intros Hb Ha Hacts Hrel Hm Hres Hacc Hcom. destruct (omap_ba_part (messages out)) as [H1 H2].
  split; try done.
  - by rewrite Hm, H1, app_nil_r.
  - rewrite Hm, H2. apply Hacts.
  - intros k Hk. split; by apply Hacts.
  - by left.
  - congruence.
  - congruence.
Qed.

Lemma handle_agreement_moved ins i c st bw aw :
  bc_reachable bw → ba_reachable aw → i ∈ correct → related i st bw aw → ba_allowed aw i c →
  wp (handle_agreement (ba_node.run_call c)) st
    (λ st' o, ∃ aw', moved ins i st bw aw o st' bw aw') (λ _ _, False).
Proof.
  intros Hb Ha Hi Hrel Hall. destruct (ba_move aw i c Ha Hi Hall) as (s' & out & aw' & Hrun & Ha' & Hacts & Hd).
  assert (Hout : (w_out aw i).*1 = [] →
    (w_out aw' i).*1 = output out ∧ (output out = [] ∨ ∃ b, output out = [b])).
  { intros Ho. rewrite (a_out _ _ _ _ _ _ Hacts), Ho in Hd. rewrite (a_out _ _ _ _ _ _ Hacts), Ho. split; [done|].
    simpl in Hd. rewrite Hd. destruct (binary_agreement.decision s'); [right; by eexists|by left]. }
  unfold wp, handle_agreement. destruct st as [bc ba|v ba|bc|b];
    [| |exists aw; by apply moved_refl..].
  - destruct Hrel as (Hbc & Hbo & <- & Hao). rewrite Hrun. unfold convert_ba, extend_with.
    destruct (Hout Hao) as [Ho [He|[b He]]]; rewrite He; cbn [last]; [|destruct b]; exists aw';
      (eapply moved_ba; [done|done|exact Hacts| |done..]); repeat split; try done; try congruence.
    apply (a_node _ _ _ _ _ _ Hacts).
  - destruct Hrel as (Hbo & <- & Hao). rewrite Hrun. unfold convert_ba, extend_with.
    destruct (Hout Hao) as [Ho [He|[b He]]]; rewrite He; cbn [last]; [|destruct b]; exists aw';
      (eapply moved_ba; [done|done|exact Hacts| |done| |done..]); try done; repeat split; try congruence.
    + apply (a_node _ _ _ _ _ _ Hacts).
    + by exists v.
Qed.

(** The same for the broadcast network *)
Lemma moved_bc ins i st st' bw bw' aw s' (out : BcStep) o :
  bc_reachable bw' → ba_reachable aw → acts bw bw' i ins s' out → related i st' bw' aw →
  messages o = tm_map Broadcast <$> messages out → result i st' bw' = result i st bw ++ output o →
  (accepted st = true → accepted st' = true) → complete st = false →
  moved ins i st bw aw o st' bw' aw.
Proof.
  intros Hb Ha Hacts Hrel Hm Hres Hacc Hcom. destruct (omap_bc_part (messages out)) as [H1 H2].
  split; try done.
  - rewrite Hm, H1. apply Hacts.
  - by rewrite Hm, H2, app_nil_r.
  - intros k Hk. split; by apply Hacts.
  - intros k v. apply (a_input _ _ _ _ _ _ Hacts).
  - congruence.
Qed.

Lemma handle_broadcast_moved i c st bw aw :
  bc_reachable bw → ba_reachable aw → i ∈ correct → related i st bw aw → bc_allowed bw i c →
  wp (handle_broadcast (run_bc c)) st
    (λ st' o, ∃ bw' aw', moved (bc_ins c) i st bw aw o st' bw' aw')
    (λ st' _, ∃ bw', moved [] i st bw aw step_default st' bw' aw).
Proof.
  intros Hb Ha Hi Hrel Hall. destruct (bc_move bw i c Hb Hi Hall) as (bw' & Hb' & Hlen & Hacts).
  assert (Hout : ∀ ains s' (o : BcStep), acts bw bw' i ains s' o → (w_out bw i).*1 = [] →
    (w_out bw' i).*1 = output o ∧ (output o = [] ∨ ∃ v, output o = [v])).
  { intros ains s' o Hx Ho. pose proof (a_out _ _ _ _ _ _ Hx) as Hy. rewrite Ho in Hy. split; [done|].
    assert (Hl : length (output o) ≤ 1) by (simpl in Hy; rewrite <- Hy, length_fmap; done).
    destruct (output o) as [|v []]; simpl in Hl; [by left|right; by exists v|lia]. }
  unfold wp, handle_broadcast. destruct st as [bc ba|v ba|bc|b];
    [|exists bw, aw; by apply moved_refl| |exists bw, aw; by apply moved_refl].
  - destruct Hrel as (<- & Hbo & Hba & Hao). destruct (run_bc c (w_node bw i)) as [s' out|s' e| |]; [| |done..].
    + unfold convert_bc, extend_with. destruct (Hout _ s' out Hacts Hbo) as [Ho [He|[v He]]]; rewrite He; cbn [last].
      * exists bw', aw. eapply moved_bc; [done|done|exact Hacts| |done..]. split_and!; try done; [exact (a_node _ _ _ _ _ _ Hacts)|congruence].
      * set (o1 := mkStep _ _ _).
        assert (Hm : moved (bc_ins c) i (Ongoing (w_node bw i) ba) bw aw o1 (HasValue v ba) bw' aw).
        { eapply moved_bc; [done|done|exact Hacts| |done..]. split_and!; try done. congruence. }
        pose proof (handle_agreement_moved (bc_ins c) i (ba_node.Propose true) (HasValue v ba) bw' aw Hb' Ha Hi
          (mv_related _ _ _ _ _ _ _ _ _ Hm)) as Hwp.
        unfold wp in Hwp. cbn [ba_node.run_call] in Hwp.
        destruct (handle_agreement (binary_agreement.propose true) (HasValue v ba)) as [st' o2|st' e| |].
        -- destruct Hwp as (aw' & Hm'); [by apply allowed_input|]. exists bw', aw'. by eapply moved_trans.
        -- destruct Hwp. by apply allowed_input.
        -- destruct Hwp. by apply allowed_input.
        -- destruct Hwp. by apply allowed_input.
    + exists bw'. destruct (Hout _ s' step_default Hacts Hbo) as [Ho _].
      eapply moved_bc; [done|done|exact Hacts| |done..]. split_and!; try done. exact (a_node _ _ _ _ _ _ Hacts).
  - destruct Hrel as (<- & Hbo & Hao). destruct (run_bc c (w_node bw i)) as [s' out|s' e| |]; [| |done..].
    + unfold convert_bc, extend_with. destruct (Hout _ s' out Hacts Hbo) as [Ho [He|[v He]]]; rewrite He; cbn [last];
        exists bw', aw; (eapply moved_bc; [done|done|exact Hacts| |done| |done..]).
      * split_and!; [exact (a_node _ _ _ _ _ _ Hacts)|congruence|done].
      * done.
      * split; [exists v; congruence|done].
      * simpl. congruence.
    + exists bw'. destruct (Hout _ s' step_default Hacts Hbo) as [Ho _].
      eapply moved_bc; [done|done|exact Hacts| |done..]. split_and!; try done. exact (a_node _ _ _ _ _ _ Hacts).
Qed.
End moves.
End subset_moves.
