(* ===== verification/SubsetNet.v ===== *)
(** * Subset in a network

    What [src/subset/mod.rs] promises, for a network ([Net]) of validators that run
    [Subset], at most [f] of them faulty, [3 f < N].  The network refines one network of
    [Broadcast] and one of [BinaryAgreement] per proposer ([view]); agreement on the
    subset and its validity follow from the guarantees of those two. *)
From S2P Require Import Prelude.
From S2P Require Import BTree.
From S2P Require Import Traits.
From S2P Require Import Net.
From S2P Require Import NetworkInfo.
From S2P Require Import Merkle.
From S2P Require Import Broadcast.
From S2P Require Import BroadcastNet.
From S2P Require Import ThresholdSign.
From S2P Require Import BinaryAgreement.
From S2P Require Import BaNode.
From S2P Require Import BaAgreement.
From S2P Require Import Subset.
From S2P Require Import SubsetMoves.
From S2P Require Import Instances.

Module subset_net.
Import subset.
Import subset_moves.

Section net.
Context {N Sid : Type} `{ord : NodeIdT N} `{crypto : Crypto} `{sha : Sha3}
  `{rse : ReedSolomonLib} `{bo : ByteOrder} `{sid : !SessionIdT (BaSessionId Sid)}
  `{rse_laws : !ReedSolomonLaws} `{bo_laws : !ByteOrderLaws} `{laws : !ThresholdSigLaws}
  `{share_eq : !EqDecision SignatureShare}.
Context (pubs : gmap N PublicKey) (correct : gset N) (pks : PublicKeySet) (session : Sid).
Abbreviation f := ((size pubs - 1) / 3).
Abbreviation State := (Subset N Sid).
Abbreviation PState := (ProposalState N Sid).
Abbreviation PStep := (Step MessageContent bytes N FaultKind).
Abbreviation CsStep := (Step (Message N) (SubsetOutput N) N FaultKind).
Abbreviation CsWorld := (Net.world N State bytes (Message N) (SubsetOutput N)).
Implicit Types (w : CsWorld) (bw : bc_world N) (aw : ba_world N Sid) (i j k p q : N) (s : State)
  (o : CsStep) (st : PState).

(** The session of the agreement on the proposal of [p] *)
Definition session_of p : BaSessionId Sid :=
  mkBaSessionId session (wrap32 (Z.of_nat (default 0 (index_of p (keys pubs))))).
Definition cs_initial w : Prop := w_sent w = [] ∧ ∀ i, i ∈ correct →
  w_input w i = [] ∧ w_out w i = [] ∧ ∃ ni, new ni session = inr (w_node w i) ∧ netinfo_wf ni ∧
    our_id ni = i ∧ public_keys ni = pubs ∧ public_key_set ni = pks ∧
    sig_threshold pks = num_faulty ni ∧ (is_Some (secret_key_share ni) → is_validator ni = true).
Abbreviation reachable := (Net.reachable propose handle_message (ba_agreement.validator pubs) correct cs_initial).
Abbreviation bc_reachable p := (Net.reachable broadcast.broadcast broadcast.handle_message (λ _, true)
  correct (BroadcastNet.initial correct pubs p)).
Abbreviation ba_reachable p := (Net.reachable binary_agreement.propose binary_agreement.handle_message
  (ba_agreement.validator pubs) correct (ba_agreement.ba_initial pubs correct pks (session_of p))).

Context (Hcorrect : correct ⊆ dom pubs) (Hbyz : size (dom pubs ∖ correct) ≤ f).
Context (Hser : ∀ p e, is_Some (serialize_coin_id (session_of p) e)).

(** ** The part of one proposal *)
Definition contribution_of p (x : SubsetOutput N) : option bytes :=
  match x with Contribution q v => if decide (q = p) then Some v else None | Done => None end.
Definition contribs p (l : list (SubsetOutput N)) : list bytes := omap (contribution_of p) l.
Definition content_of p (tm : TargetedMessage (Message N) N) : option (TargetedMessage MessageContent N) :=
  if decide (msg_proposer_id (message tm) = p) then Some (TM (target tm) (content (message tm))) else None.
Definition part p o : PStep := mkStep (contribs p (output o)) [] (omap (content_of p) (messages o)).

Lemma part_extend p o1 o2 : part p (step_extend o1 o2) = step_extend (part p o1) (part p o2).
Proof. apply step_ext; cbn; [apply omap_app|done|apply omap_app]. Qed.

Lemma omap_content_of p q (l : list (TargetedMessage MessageContent N)) :
  omap (content_of p) (tm_map (λ m, with_proposer m q) <$> l) = if decide (q = p) then l else [].
Proof.
  induction l as [|[t m] l IH]; cbn; [by case_decide|]. unfold content_of at 1. cbn.
  case_decide; cbn; [by f_equal|done].
Qed.

Lemma part_convert p q (o : PStep) : length (output o) ≤ 1 →
  part p (convert_step q o) = if decide (q = p) then mkStep (output o) [] (messages o) else step_default.
Proof.
  intros Hl. unfold convert_step, part, extend_with.
  destruct o as [[|v []] fl ms]; cbn in *; [| |lia]; rewrite omap_content_of; by case_decide.
Qed.

(** ** The networks of a proposal *)
Record view p w bw aw : Prop := {
  v_bc : bc_reachable p bw;
  v_ba : ba_reachable p aw;
  v_node i : i ∈ correct → ∃ st, proposal_states (w_node w i) !! p = Some st ∧
    related i st bw aw ∧ contribs p (w_out w i).*1 = result i st bw;
  v_bc_sent i t m : (i, TM t m) ∈ w_sent bw ↔ (i, TM t (with_proposer (Broadcast m) p)) ∈ w_sent w;
  v_ba_sent i t m : (i, TM t m) ∈ w_sent aw ↔ (i, TM t (with_proposer (Agreement m) p)) ∈ w_sent w;
  v_input i v : v ∈ w_input bw i → v ∈ w_input w i;
}.

(** ** A call of one node *)
Section call.
Context (w : CsWorld) (i : N) (Hi : i ∈ correct).
Context (Hviews : ∀ p, p ∈ dom pubs → ∃ bw aw, view p w bw aw).
Implicit Types ins : list bytes.
Abbreviation moved ins p := (moved pubs correct pks p (session_of p) ins i).

(** In every proposal, the node has done events of its networks. *)
Definition ok ins s o : Prop := ∀ p bw aw, p ∈ dom pubs → view p w bw aw →
  ∃ st st' bw' aw', proposal_states (w_node w i) !! p = Some st ∧
    proposal_states s !! p = Some st' ∧ moved ins p st bw aw (part p o) st' bw' aw'.

Lemma moved_step ins p st bw aw (o o' : PStep) st' bw' aw' : output o = output o' → messages o = messages o' →
  moved ins p st bw aw o st' bw' aw' → moved ins p st bw aw o' st' bw' aw'.
Proof. intros Ho Hm []. by split; rewrite <- ?Ho, <- ?Hm. Qed.

Lemma moved_output ins p st bw aw (o : PStep) st' bw' aw' : moved ins p st bw aw o st' bw' aw' → length (output o) ≤ 1.
Proof.
  intros Hm. pose proof (mv_result _ _ _ _ _ _ _ _ _ _ _ _ _ _ Hm) as Hr.
  assert (Hl : length (result i st' bw') ≤ 1); [|rewrite Hr, length_app in Hl; lia].
  pose proof (mv_bc _ _ _ _ _ _ _ _ _ _ _ _ _ _ Hm) as Hb. unfold result.
  destruct st' as [| | |[]]; simpl; try lia. rewrite length_fmap.
  destruct (i_out _ _ _ _ (bc_reachable_inv _ _ _ Hbyz bw' Hb) i Hi) as [->|(v & x & -> & _)]; simpl; lia.
Qed.

Lemma ok_refl ins s : proposal_states s = proposal_states (w_node w i) → ok ins s step_default.
Proof.
  intros Hs p bw aw Hp Hv. destruct (v_node _ _ _ _ Hv i Hi) as (st & Hst & Hrel & _).
  exists st, st, bw, aw. rewrite Hs. split_and!; [done..|]. by apply moved_refl; [apply Hv..|].
Qed.

(** A method of one proposal that does events of its networks, in which everything was
    sent that was sent in ours *)
Definition sends p bw aw : Prop :=
  (∀ j t m, (j, TM t (with_proposer (Broadcast m) p)) ∈ w_sent w → (j, TM t m) ∈ w_sent bw) ∧
  (∀ j t m, (j, TM t (with_proposer (Agreement m) p)) ∈ w_sent w → (j, TM t m) ∈ w_sent aw).
Definition does_events ins p (m : M PState Error PStep) (R : Prop) : Prop := ∀ st bw aw,
  bc_reachable p bw → ba_reachable p aw → related i st bw aw → sends p bw aw →
  wp m st (λ st' x, ∃ bw' aw', moved ins p st bw aw x st' bw' aw')
    (λ st' _, R ∧ ∃ bw', moved [] p st bw aw step_default st' bw' aw).

(** What the loops of [Subset] keep *)
Record evolves s s' : Prop := {
  ev_netinfo : netinfo s' = netinfo s;
  ev_decided : decided s' = decided s;
  ev_dom : dom (proposal_states s') = dom (proposal_states s);
  ev_accepted p st : proposal_states s !! p = Some st → accepted st = true →
    ∃ st', proposal_states s' !! p = Some st' ∧ accepted st' = true;
}.
(** Only contributions of validators are output. *)
Definition contributes o : Prop := ∀ x, x ∈ output o → ∃ p v, x = Contribution p v ∧ p ∈ dom pubs.

Lemma evolves_refl s : evolves s s.
Proof. split; try done. intros p st ? ?. by exists st. Qed.
Lemma evolves_trans s1 s2 s3 : evolves s1 s2 → evolves s2 s3 → evolves s1 s3.
Proof.
  intros [] []. split; try congruence. intros p st Hst Hacc.
  destruct (ev_accepted0 p st Hst Hacc) as (st' & ? & ?). eauto.
Qed.
Lemma contributes_extend o1 o2 : contributes o1 → contributes o2 → contributes (step_extend o1 o2).
Proof. intros H1 H2 x [?|?]%elem_of_app; auto. Qed.
Lemma contributes_convert q (x : PStep) : q ∈ dom pubs → contributes (convert_step q x).
Proof.
  intros Hq y. unfold convert_step, extend_with. destruct (last (output x)) as [v|]; cbn.
  - intros ->%list_elem_of_singleton. by exists q, v.
  - by intros ?%elem_of_nil.
Qed.

Lemma moved_sends ins p st bw0 aw0 (x : PStep) st' bw aw :
  view p w bw0 aw0 → moved ins p st bw0 aw0 x st' bw aw → sends p bw aw.
Proof.
  intros Hv Hm. split; intros j t m Hin.
  - rewrite (mv_bc_sent _ _ _ _ _ _ _ _ _ _ _ _ _ _ Hm). apply elem_of_app. left. by apply (v_bc_sent _ _ _ _ Hv).
  - rewrite (mv_ba_sent _ _ _ _ _ _ _ _ _ _ _ _ _ _ Hm). apply elem_of_app. left. by apply (v_ba_sent _ _ _ _ Hv).
Qed.

(** The proposal [q] makes a step. *)
Lemma ok_insert ins q s o1 st (x : PStep) st' :
  ok ins s o1 → proposal_states s !! q = Some st →
  (∀ bw aw, bc_reachable q bw → ba_reachable q aw → related i st bw aw → sends q bw aw →
    ∃ bw' aw', moved ins q st bw aw x st' bw' aw') →
  q ∈ dom pubs →
  ok ins (s <| proposal_states ::= <[q := st']> |>) (step_extend o1 (convert_step q x)) ∧
  evolves s (s <| proposal_states ::= <[q := st']> |>).
Proof.
  intros Hok Hst Hm Hq.
  assert (Hx : length (output x) ≤ 1 ∧ (accepted st = true → accepted st' = true)).
  { destruct (Hviews q Hq) as (bw & aw & Hv). destruct (Hok q bw aw Hq Hv) as (st0 & st1 & bw' & aw' & _ & Hst1 & Hm1).
    assert (st1 = st) as -> by congruence.
    destruct (Hm bw' aw') as (bw2 & aw2 & Hm2); [apply Hm1..|by eapply moved_sends|].
    split; [by eapply moved_output|apply Hm2]. }
  destruct Hx as [Hx Hacc]. split.
  - intros p bw aw Hp Hv. destruct (Hok p bw aw Hp Hv) as (st0 & st1 & bw' & aw' & Hst0 & Hst1 & Hm1).
    rewrite part_extend, part_convert by done. destruct (decide (q = p)) as [->|Hne].
    + assert (st1 = st) as -> by congruence.
      destruct (Hm bw' aw') as (bw2 & aw2 & Hm2); [apply Hm1..|by eapply moved_sends|].
      exists st0, st', bw2, aw2. split_and!; [done|cbn; by rewrite lookup_insert_eq|].
      eapply moved_trans; [exact Hm1|]. by eapply moved_step, Hm2.
    + exists st0, st1, bw', aw'. split_and!; [done|cbn; by rewrite lookup_insert_ne|].
      by eapply moved_step, Hm1; cbn; rewrite app_nil_r.
  - split; cbn; try done.
    + rewrite dom_insert_L. assert (q ∈ dom (proposal_states s)) by (by apply elem_of_dom_2 in Hst). set_solver.
    + intros p st0 Hst0 Hacc0. destruct (decide (q = p)) as [->|Hne].
      * exists st'. rewrite lookup_insert_eq. split; [done|]. apply Hacc. congruence.
      * exists st0. by rewrite lookup_insert_ne.
Qed.

Lemma on_proposal_spec ins q m R s o1 :
  ok ins s o1 → q ∈ dom pubs → does_events ins q m R →
  wp (on_proposal q m) s
    (λ s' x, ok ins s' (step_extend o1 (convert_step q x)) ∧ evolves s s' ∧ contributes (convert_step q x))
    (λ s' _, R ∧ (∀ ins', ok ins' s o1 → ok ins' s' o1) ∧ evolves s s').
Proof.
  intros Hok Hq Hm. destruct (Hviews q Hq) as (bw0 & aw0 & Hv).
  destruct (Hok q bw0 aw0 Hq Hv) as (st0 & st & bw & aw & _ & Hst & Hmv).
  unfold on_proposal. do 2 wp_step. wp_step.
  apply wp_ok_or; [|congruence]. intros st1 Hst1. assert (st1 = st) as -> by congruence. wp_step.
  pose proof (Hm st) as Hwp. unfold wp in *. destruct (m st) as [st' x|st' e| |].
  - split; [|split]; [by eapply ok_insert..|by apply contributes_convert].
  - assert (Hr : R). { eapply (Hwp bw aw); [apply Hmv..|by eapply moved_sends]. }
    assert (Hd : step_extend o1 (convert_step q step_default) = o1).
    { apply step_ext; cbn; apply app_nil_r. }
    assert (Hins : ∀ ins', ok ins' s o1 → ok ins' (s <| proposal_states ::= <[q := st']> |>) o1 ∧
      evolves s (s <| proposal_states ::= <[q := st']> |>)).
    { intros ins' Hok'. pose proof (ok_insert ins' q s o1 st step_default st') as Hi'. rewrite Hd in Hi'.
      apply Hi'; [done..| |done].
      intros bw1 aw1 ? ? ? ?. destruct (Hwp bw1 aw1) as (_ & bw2 & ?); [done..|]. exists bw2, aw1.
      eapply moved_weaken; [|done]. by intros x ?%elem_of_nil. }
    split_and!; [done|intros; by apply Hins|by apply (Hins ins)].
  - eapply (Hwp bw aw); [apply Hmv..|by eapply moved_sends].
  - eapply (Hwp bw aw); [apply Hmv..|by eapply moved_sends].
Qed.

(** *** The methods of a proposal *)
Lemma ba_events ins p c :
  (∀ aw bw, sends p bw aw → ba_allowed pubs correct aw i c) →
  does_events ins p (handle_agreement (ba_node.run_call c)) False.
Proof.
  intros Hall st bw aw Hb Ha Hrel Hs.
  pose proof (handle_agreement_moved pubs correct pks Hcorrect Hbyz p (session_of p) (Hser p) ins i c st bw aw
    Hb Ha Hi Hrel (Hall aw bw Hs)) as Hwp.
  refine (wp_mono _ _ _ _ _ _ Hwp _ _); [|by intros ??[]]. intros st' x [aw' Hm]. by exists bw, aw'.
Qed.

Lemma bc_events p c :
  (∀ aw bw, sends p bw aw → bc_allowed correct bw i c) →
  does_events (bc_ins c) p (handle_broadcast (run_bc c)) True.
Proof.
  intros Hall st bw aw Hb Ha Hrel Hs.
  pose proof (handle_broadcast_moved pubs correct pks Hcorrect Hbyz p (session_of p) (Hser p) i c st bw aw
    Hb Ha Hi Hrel (Hall aw bw Hs)) as Hwp.
  refine (wp_mono _ _ _ _ _ _ Hwp _ _); [done|]. intros st' e [bw' Hm]. split; [done|by exists bw'].
Qed.

Lemma does_events_weaken ins p m : does_events ins p m False → does_events ins p m True.
Proof.
  intros Hm st bw aw Hb Ha Hrel Hs. refine (wp_mono _ _ _ _ _ _ (Hm st bw aw Hb Ha Hrel Hs) _ _); [done|].
  by intros st' e [[] _].
Qed.

Lemma vote_false_events ins p : does_events ins p vote_false False.
Proof. apply (ba_events _ p (ba_node.Propose false)). intros aw bw _. by apply allowed_input. Qed.

Lemma propose_events p v : does_events [v] p (proposal_propose v) True.
Proof.
  apply (bc_events p (BcPropose v)). intros aw bw _. by apply allowed_input.
Qed.

Lemma message_events p j m :
  Net.allowed (ba_agreement.validator pubs) correct w (Deliver i j (with_proposer m p)) = true →
  does_events [] p (proposal_handle_message j m) True.
Proof.
  intros (_ & Hj & Hpeer & Hs)%allowed_deliver_iff.
  assert (Hsent : j ∈ correct → ∃ t, (j, TM t (with_proposer m p)) ∈ w_sent w ∧ addressed i t = true).
  { intros Hc. destruct (Hs Hc) as ([t m'] & Hin & Hm & Hto). exists t. simpl in Hm. by rewrite <- Hm. }
  destruct m as [m|m].
  - apply (bc_events p (BcMessage j m)). intros aw bw [Hbc _].
    apply allowed_deliver_iff. split_and!; [exact Hi|exact Hj|exact eq_refl|]. intros Hc.
    destruct (Hsent Hc) as (t & Hin & Hto). exists (TM t m). split; [by apply Hbc|by split].
  - apply does_events_weaken, (ba_events [] p (ba_node.HandleMessage j m)). intros aw bw [_ Hba].
    apply allowed_deliver_iff. split_and!; [exact Hi|exact Hj|exact Hpeer|]. intros Hc.
    destruct (Hsent Hc) as (t & Hin & Hto). exists (TM t m). split; [by apply Hba|by split].
Qed.

(** *** Voting against late proposals, and the end *)
Record finishes s s' o : Prop := {
  fi_netinfo : netinfo s' = netinfo s;
  fi_dom : dom (proposal_states s') = dom (proposal_states s);
  fi_before : decided s = false;
  fi_after : decided s' = true;
  fi_complete p st : proposal_states s' !! p = Some st → complete st = true;
  fi_accepted : num_correct (netinfo s') ≤ count_accepted s';
  fi_output : ∃ l, output o = l ++ [Done] ∧ ∀ x, x ∈ l → ∃ p v, x = Contribution p v ∧ p ∈ dom pubs;
}.

Lemma evolves_count s s' : evolves s s' → count_accepted s ≤ count_accepted s'.
Proof.
  intros He. unfold count_accepted. rewrite !length_filter_values. apply subseteq_size. intros p.
  rewrite !elem_of_keys_with. intros (st & Hst & Hacc).
  destruct (ev_accepted _ _ He p st Hst Hacc) as (st' & ? & ?). by exists st'.
Qed.

Lemma ok_ext ins s s' o o' : proposal_states s' = proposal_states s → (∀ p, part p o' = part p o) →
  ok ins s o → ok ins s' o'.
Proof.
  intros Hs Ho Hok p bw aw Hp Hv. destruct (Hok p bw aw Hp Hv) as (st & st' & bw' & aw' & ? & ? & ?).
  exists st, st', bw', aw'. by rewrite Hs, Ho.
Qed.

Lemma part_done p o : part p (o <| output ::= (.++ [Done]) |>) = part p o.
Proof. apply step_ext; cbn; [|done..]. unfold contribs. rewrite omap_app. cbn. by rewrite app_nil_r. Qed.

Lemma try_output_spec ins s o1 :
  ok ins s o1 → dom (proposal_states s) = dom pubs →
  wp try_output s (λ s' o2, ok ins s' (step_extend o1 o2) ∧
    ((evolves s s' ∧ contributes o2) ∨ finishes s s' o2)) (λ _ _, False).
Proof.
  intros Hok Hdom. unfold try_output. do 2 wp_step.
  assert (Hd : contributes step_default) by by intros x ?%elem_of_nil.
  destruct (_ || _) eqn:Hc.
  { apply wp_ret. split; [by rewrite (step_join_default_r o1 : step_extend o1 _ = _)|left].
    split; [apply evolves_refl|done]. }
  apply orb_false_iff in Hc as [Hdec Hcount%bool_decide_eq_false].
  apply wp_bind. eapply (wp_mono_ok _ _ (λ s' o2, ok ins s' (step_extend o1 o2) ∧ evolves s s' ∧ contributes o2)).
  { destruct (decide _); [|apply wp_ret; split_and!; [by rewrite (step_join_default_r o1 : step_extend o1 _ = _)|apply evolves_refl|done]].
    eapply wp_mono_ok; [apply (wp_for_acc _ (λ l s' acc, (∀ p, p ∈ l → p ∈ dom pubs) ∧
      ok ins s' (step_extend o1 acc) ∧ evolves s s' ∧ contributes acc) (λ _ _, False))|].
    - split_and!; [|by rewrite (step_join_default_r o1 : step_extend o1 _ = _)|apply evolves_refl|done].
      intros p Hp%elem_of_keys. by rewrite <- Hdom, elem_of_dom.
    - intros p l s' acc (Hl & Hok' & Hev & Hco). wp_step.
      eapply wp_mono; [apply (on_proposal_spec ins p vote_false False s' (step_extend o1 acc)); [done|apply Hl; by left|apply vote_false_events]| |by intros ??[]].
      intros s2 x (Hok2 & Hev2 & Hco2). apply wp_ret. split_and!.
      + intros q Hq. apply Hl. by right.
      + by rewrite (step_join_assoc o1 acc _ : step_extend o1 (step_extend _ _) = _).
      + by eapply evolves_trans.
      + by apply contributes_extend.
    - intros s' acc (_ & ? & ? & ?). done. }
  intros s' o2 (Hok' & Hev & Hco). do 2 wp_step. destruct (forallb _ _) eqn:Hall.
  - do 2 wp_step. apply wp_ret. split.
    + eapply ok_ext; [done| |exact Hok']. intros p. rewrite !part_extend, part_done. done.
    + right. split; cbn; try apply Hev; try done.
      * intros p st Hst. rewrite forallb_forall in Hall. apply Hall, list_elem_of_In, elem_of_values. by exists p.
      * pose proof (evolves_count _ _ Hev) as Hle. rewrite (ev_netinfo _ _ Hev). unfold count_accepted in *. cbn. lia.
      * by exists (output o2).
  - apply wp_ret. split; [done|by left].
Qed.

(** *** The public methods *)
Abbreviation s0 := (w_node w i).
Context (Hid : our_id (netinfo s0) = i) (Hval : is_validator (netinfo s0) = true)
  (Hdom : dom (proposal_states s0) = dom pubs).

Definition call_post ins s o : Prop := ok ins s o ∧ ((evolves s0 s ∧ contributes o) ∨ finishes s0 s o).
Definition call_err s (e : Error) : Prop := ok [] s step_default ∧ evolves s0 s.

Lemma finishes_evolves s1 s2 o1 o2 : evolves s0 s1 → contributes o1 → finishes s1 s2 o2 →
  finishes s0 s2 (step_extend o1 o2).
Proof.
  intros [] Hco []. split; try congruence; try done. destruct fi_output0 as (l & Ho & Hl).
  exists (output o1 ++ l). cbn. rewrite Ho, app_assoc. split; [done|].
  intros x [?|?]%elem_of_app; auto.
Qed.

Lemma on_proposal_call ins q m :
  q ∈ dom pubs → does_events ins q m True →
  wp (x ← on_proposal q m; y ← try_output; mret (step_join (convert_step q x) y)) s0 (call_post ins) call_err.
Proof.
  intros Hq Hm. wp_step. eapply wp_mono; [apply (on_proposal_spec ins q m True s0 step_default); [by apply ok_refl|done..]| |].
  - intros s1 x (Hok & Hev & Hco). rewrite (step_join_default_l _ : step_extend _ (convert_step q x) = _) in Hok.
    wp_step. eapply wp_mono; [apply (try_output_spec ins s1 (convert_step q x)); [done|by rewrite (ev_dom _ _ Hev)]| |done].
    intros s2 y [Hok2 Hcase]. apply wp_ret. split; [done|]. destruct Hcase as [[Hev2 Hco2]|Hf].
    + left. split; [by eapply evolves_trans|by apply contributes_extend].
    + right. by eapply finishes_evolves.
  - intros s1 e (_ & Hok & Hev). split; [|done]. by apply Hok, ok_refl.
Qed.

Lemma propose_call v : wp (propose v) s0 (call_post [v]) call_err.
Proof.
  unfold propose. do 2 wp_step. rewrite Hval. cbn [negb]. rewrite Hid.
  apply on_proposal_call; [by apply Hcorrect|by apply propose_events].
Qed.

Lemma message_call j msg :
  Net.allowed (ba_agreement.validator pubs) correct w (Deliver i j msg) = true →
  wp (handle_message j msg) s0 (call_post []) call_err.
Proof.
  intros Ha. destruct msg as [p m]. destruct (decide (p ∈ dom pubs)) as [Hp|Hp].
  - apply on_proposal_call; [done|by apply message_events].
  - unfold handle_message, on_proposal. do 4 wp_step. apply wp_ok_or.
    + intros st Hst. destruct Hp. rewrite <- Hdom. by apply elem_of_dom_2 in Hst.
    + intros _. split; [by apply ok_refl|apply evolves_refl].
Qed.
End call.

(** ** The invariant of the network *)
Definition contribution_ok (x : SubsetOutput N) : Prop := ∃ p v, x = Contribution p v ∧ p ∈ dom pubs.
(** The outputs so far and the end *)
Definition outputs_ok s (l : list (SubsetOutput N)) : Prop :=
  if decided s then
    (∃ l', l = l' ++ [Done] ∧ ∀ x, x ∈ l' → contribution_ok x) ∧
    (∀ p st, proposal_states s !! p = Some st → complete st = true) ∧
    num_correct (netinfo s) ≤ count_accepted s
  else ∀ x, x ∈ l → contribution_ok x.

Record node_inv i s (l : list (SubsetOutput N)) : Prop := {
  ni_id : our_id (netinfo s) = i;
  ni_validator : is_validator (netinfo s) = true;
  ni_correct : num_correct (netinfo s) = size pubs - f;
  ni_dom : dom (proposal_states s) = dom pubs;
  ni_outputs : outputs_ok s l;
}.
Record cs_inv w : Prop := {
  cs_views p : p ∈ dom pubs → ∃ bw aw, view p w bw aw;
  cs_node i : i ∈ correct → node_inv i (w_node w i) (w_out w i).*1;
}.

Section step.
Context (w w' : CsWorld) (Hw : cs_inv w) (i : N) (Hi : i ∈ correct) (ins : list bytes) (s' : State) (o : CsStep).
Context (Hacts : acts w w' i ins s' o) (Hok : ok w i ins s' o).

Lemma related_same k st bw aw bw' aw' :
  w_node bw' k = w_node bw k → w_out bw' k = w_out bw k →
  w_node aw' k = w_node aw k → w_out aw' k = w_out aw k →
  related k st bw aw → related k st bw' aw' ∧ result k st bw' = result k st bw.
Proof. unfold related, result. intros -> -> -> ->. done. Qed.

Lemma sent_part {X} (g : TargetedMessage MessageContent N → option (TargetedMessage X N))
    (h : X → MessageContent) p k t m (l : list (N * TargetedMessage X N)) l0 :
  (∀ t' c x, g (TM t' c) = Some x ↔ ∃ m, c = h m ∧ x = TM t' m) →
  ((k, TM t m) ∈ l ↔ (k, TM t (with_proposer (h m) p)) ∈ l0) →
  ((k, TM t m) ∈ l ++ (pair i <$> omap g (messages (part p o))) ↔
   (k, TM t (with_proposer (h m) p)) ∈ l0 ++ (pair i <$> messages o)).
Proof.
  intros Hg Hl. assert (Hin : TM t m ∈ omap g (messages (part p o)) ↔ TM t (with_proposer (h m) p) ∈ messages o).
  { cbn. rewrite list_elem_of_omap. setoid_rewrite list_elem_of_omap. split.
    - intros ([t' c] & ([t2 [q c']] & Hin & Hc) & Hx). apply Hg in Hx as (m' & -> & [= <- <-]).
      unfold content_of in Hc. cbn in Hc. case_decide; [|done]. injection Hc as -> ->. by subst q.
    - intros Hin. exists (TM t (h m)). split; [|apply Hg; by exists m].
      exists (TM t (with_proposer (h m) p)). split; [done|]. unfold content_of. cbn. by rewrite decide_True. }
  rewrite !elem_of_app, Hl, !list_elem_of_fmap.
  split; (intros [?|(x & [= -> <-] & Hx)]; [by left|right]); eexists; (split; [done|by apply Hin]).
Qed.

Lemma view_step p : p ∈ dom pubs → ∃ bw aw, view p w' bw aw.
Proof.
  intros Hp. destruct (cs_views _ Hw p Hp) as (bw & aw & Hv).
  destruct (Hok p bw aw Hp Hv) as (st & st' & bw' & aw' & Hst & Hst' & Hm).
  exists bw', aw'. split; [apply Hm..| | | |].
  - intros k Hk. destruct (decide (k = i)) as [->|Hne].
    + exists st'. rewrite (a_node _ _ _ _ _ _ Hacts), (a_out _ _ _ _ _ _ Hacts). split_and!; [done|apply Hm|].
      destruct (v_node _ _ _ _ Hv i Hi) as (st0 & Hst0 & _ & Ho). assert (st0 = st) as -> by congruence.
      rewrite (mv_result _ _ _ _ _ _ _ _ _ _ _ _ _ _ Hm), <- Ho. unfold contribs. by rewrite omap_app.
    + destruct (v_node _ _ _ _ Hv k Hk) as (st0 & Hst0 & Hrel & Ho). exists st0.
      rewrite (a_node_ne _ _ _ _ _ _ Hacts k Hne), (a_out_ne _ _ _ _ _ _ Hacts k Hne).
      destruct (mv_bc_ne _ _ _ _ _ _ _ _ _ _ _ _ _ _ Hm k Hne), (mv_ba_ne _ _ _ _ _ _ _ _ _ _ _ _ _ _ Hm k Hne).
      destruct (related_same k st0 bw aw bw' aw') as [? Hr]; [done..|]. split_and!; [done..|]. by rewrite Hr.
  - intros k t m. rewrite (mv_bc_sent _ _ _ _ _ _ _ _ _ _ _ _ _ _ Hm), (a_sent _ _ _ _ _ _ Hacts).
    apply (sent_part bc_part Broadcast); [|apply (v_bc_sent _ _ _ _ Hv)].
    intros t' c x. unfold bc_part. cbn. destruct c; naive_solver.
  - intros k t m. rewrite (mv_ba_sent _ _ _ _ _ _ _ _ _ _ _ _ _ _ Hm), (a_sent _ _ _ _ _ _ Hacts).
    apply (sent_part ba_part Agreement); [|apply (v_ba_sent _ _ _ _ Hv)].
    intros t' c x. unfold ba_part. cbn. destruct c; naive_solver.
  - intros k v [Hv'|Hv']%(mv_input _ _ _ _ _ _ _ _ _ _ _ _ _ _ Hm); apply (a_input _ _ _ _ _ _ Hacts);
      [left; by apply (v_input _ _ _ _ Hv)|by right].
Qed.

Lemma complete_stays p st st' : p ∈ dom pubs → proposal_states (w_node w i) !! p = Some st →
  proposal_states s' !! p = Some st' → complete st = true → st' = st ∧ contribs p (output o) = [].
Proof.
  intros Hp Hst Hst' Hc. destruct (cs_views _ Hw p Hp) as (bw & aw & Hv).
  destruct (Hok p bw aw Hp Hv) as (st0 & st1 & bw' & aw' & Hst0 & Hst1 & Hm).
  assert (st0 = st) as -> by congruence. assert (st1 = st') as -> by congruence.
  pose proof (mv_complete _ _ _ _ _ _ _ _ _ _ _ _ _ _ Hm Hc) as ->. split; [done|].
  pose proof (mv_result _ _ _ _ _ _ _ _ _ _ _ _ _ _ Hm) as Hr.
  pose proof (mv_related _ _ _ _ _ _ _ _ _ _ _ _ _ _ Hm) as Hrel'.
  destruct (v_node _ _ _ _ Hv i Hi) as (st2 & Hst2 & Hrel & _). assert (st2 = st) as -> by congruence.
  destruct st as [| | |[]]; try done; cbn in *.
  destruct Hrel' as [[v' Hv'] _], Hrel as [[v0 Hv0] _]. rewrite Hv', Hv0 in Hr.
  by destruct (contribs p (output o)).
Qed.

Lemma node_step : evolves (w_node w i) s' ∧ contributes o ∨ finishes (w_node w i) s' o →
  node_inv i s' ((w_out w i).*1 ++ output o).
Proof.
  intros Hcase. destruct (cs_node _ Hw i Hi) as [Hid Hval Hcor Hdom Hout].
  assert (Hni : netinfo s' = netinfo (w_node w i)) by (destruct Hcase as [[[] _]|[]]; done).
  assert (Hd : dom (proposal_states s') = dom (proposal_states (w_node w i)))
    by (destruct Hcase as [[[] _]|[]]; done).
  split; rewrite ?Hni; [done..|by rewrite Hd|]. unfold outputs_ok in *.
  destruct Hcase as [[Hev Hco]|[_ _ Hb Ha Hcp Hac (l & Hl & Hlc)]].
  - rewrite (ev_decided _ _ Hev). destruct (decided (w_node w i)).
    + destruct Hout as ((l & Hl & Hlc) & Hcp & Hac).
      assert (Hnil : output o = []).
      { destruct (output o) as [|x lx] eqn:Ho; [done|]. exfalso.
        destruct (Hco x) as (p & v & -> & Hp); [rewrite Ho; by left|].
        assert (Hin : is_Some (proposal_states (w_node w i) !! p)) by (apply elem_of_dom; by rewrite Hdom).
        assert (Hin' : is_Some (proposal_states s' !! p)) by (apply elem_of_dom; by rewrite Hd, Hdom).
        destruct Hin as [st Hst], Hin' as [st' Hst'].
        destruct (complete_stays p st st' Hp Hst Hst' (Hcp p st Hst)) as [_ Hn].
        rewrite Ho in Hn. cbn in Hn. by rewrite decide_True in Hn. }
      rewrite Hnil, app_nil_r. split_and!.
      * by exists l.
      * intros p st' Hst'. assert (Hp : p ∈ dom pubs) by (rewrite <- Hdom, <- Hd; by apply elem_of_dom_2 in Hst').
        assert (Hin : is_Some (proposal_states (w_node w i) !! p)) by (apply elem_of_dom; by rewrite Hdom).
        destruct Hin as [st Hst].
        destruct (complete_stays p st st' Hp Hst Hst' (Hcp p st Hst)) as [-> _]. by eapply Hcp.
      * rewrite Hni. etrans; [exact Hac|by apply evolves_count].
    + intros x [?|?]%elem_of_app; [auto|by apply Hco].
  - rewrite Ha. rewrite Hb in Hout. split_and!; [|done..].
    exists ((w_out w i).*1 ++ l). split; [by rewrite Hl, app_assoc|].
    intros x [?|?]%elem_of_app; [auto|by apply Hlc].
Qed.
End step.

Lemma cs_inv_step w w' i ins s' o : cs_inv w → i ∈ correct → acts w w' i ins s' o → ok w i ins s' o →
  evolves (w_node w i) s' ∧ contributes o ∨ finishes (w_node w i) s' o → cs_inv w'.
Proof.
  intros Hw Hi Ha Hok Hcase. split; [by eapply view_step|]. intros k Hk.
  destruct (decide (k = i)) as [->|Hne].
  - rewrite (a_node _ _ _ _ _ _ Ha), (a_out _ _ _ _ _ _ Ha). by eapply node_step.
  - rewrite (a_node_ne _ _ _ _ _ _ Ha k Hne), (a_out_ne _ _ _ _ _ _ Ha k Hne). by apply Hw.
Qed.

(** Every allowed event is handled. *)
Lemma cs_exec_inv w ev : cs_inv w → Net.allowed (ba_agreement.validator pubs) correct w ev = true →
  ∃ w', exec propose handle_message w ev = Some w' ∧ cs_inv w'.
Proof.
  intros Hw Ha.
  assert (Hev : ∃ i ins m, i ∈ correct ∧ exec propose handle_message w ev = commit w i ins (m (w_node w i)) ∧
    wp m (w_node w i) (call_post w i ins) (call_err w i)).
  { destruct ev as [i v|i j msg].
    - apply allowed_input in Ha as Hi. exists i, [v], (propose v). split_and!; [done..|].
      destruct (cs_node _ Hw i Hi) as [Hid Hval Hcor Hdom _]. apply propose_call; try done. apply Hw.
    - pose proof Ha as (Hi & _)%allowed_deliver_iff. exists i, [], (handle_message j msg). split_and!; [done..|].
      destruct (cs_node _ Hw i Hi) as [Hid Hval Hcor Hdom _]. apply message_call; try done. apply Hw. }
  destruct Hev as (i & ins & m & Hi & -> & Hwp).
  pose proof (commit_acts w i ins (m (w_node w i))) as Hacts. unfold wp in Hwp.
  destruct (m (w_node w i)) as [s' o|s' e| |]; [| |done..].
  - eexists. split; [reflexivity|]. destruct Hwp. by eapply (cs_inv_step w); [..|exact (Hacts _ eq_refl)| |].
  - eexists. split; [reflexivity|]. destruct Hwp.
    eapply (cs_inv_step w); [..|exact (Hacts _ eq_refl)|done|]; [done..|left].
    split; [done|by intros x ?%elem_of_nil].
Qed.

(** *** The start *)
Lemma new_spec ni s : new ni session = inr s →
  netinfo s = ni ∧ decided s = false ∧ dom (proposal_states s) = dom (public_keys ni) ∧
  ∀ p st, proposal_states s !! p = Some st → ∃ idx bc, all_ids ni !! idx = Some p ∧
    broadcast.new ni p = inr bc ∧
    st = Ongoing bc (binary_agreement.new ni (mkBaSessionId session (wrap32 (Z.of_nat idx)))).
Proof.
  unfold new. match goal with |- context [foldl ?g _ _] => set (add := g) end.
  assert (Hinl : ∀ l e, foldl add (inl e) l = inl e) by (by induction l as [|[idx q] l IH]; [|intros; apply IH]).
  assert (Hfold : ∀ l m0 m, foldl add (inr m0) l = inr m →
    dom m = dom m0 ∪ list_to_set (snd <$> l) ∧
    ∀ p st, m !! p = Some st → m0 !! p = Some st ∨ ∃ idx bc, (idx, p) ∈ l ∧ broadcast.new ni p = inr bc ∧
      st = Ongoing bc (binary_agreement.new ni (mkBaSessionId session (wrap32 (Z.of_nat idx))))).
  { induction l as [|[idx q] l IH]; intros m0 m; cbn [foldl].
    - intros [= ->]. split; [set_solver|by left].
    - unfold add at 2. unfold proposal_new. destruct (broadcast.new ni q) as [e|bc] eqn:Hbc; [by rewrite Hinl|].
      intros [Hd Hl]%IH. split; [rewrite Hd, dom_insert_L; cbn; set_solver|].
      intros p st [Hp|(idx' & bc' & Hin & ? & ?)]%Hl.
      + apply lookup_insert_Some in Hp as [[<- <-]|[_ Hp]]; [right|by left].
        exists idx, bc. split; [by left|done].
      + right. exists idx', bc'. split; [by right|done]. }
  destruct (foldl add (inr ∅) _) as [e|m] eqn:Hm; [done|]. intros [= <-]. cbn.
  destruct (Hfold _ _ _ Hm) as [Hd Hl]. split_and!; [done..| |].
  - rewrite Hd, dom_empty_L, (left_id_L ∅ (∪)). apply set_eq. intros p.
    rewrite elem_of_list_to_set, list_elem_of_fmap, elem_of_dom, <- elem_of_keys. fold (all_ids ni). split.
    + intros ([idx q] & -> & Hin). apply elem_of_lookup_imap in Hin as (? & ? & [= -> ->] & Hi).
      by eapply list_elem_of_lookup_2.
    + intros [idx Hi]%list_elem_of_lookup_1. exists (idx, p). split; [done|]. apply elem_of_lookup_imap. by exists idx, p.
  - intros p st [Hp|(idx & bc & Hin & Hbc & ->)]%Hl; [done|].
    apply elem_of_lookup_imap in Hin as (? & ? & [= -> ->] & Hi). by eexists _, bc.
Qed.

(** At least one validator is correct. *)
Lemma some_correct p : p ∈ dom pubs → ∃ i, i ∈ correct.
Proof.
  intros Hp. destruct (quorum_correct (dom pubs) correct f Hbyz (dom pubs)) as (k & _ & Hk); [done| |by exists k].
  rewrite size_dom. assert (size pubs ≠ 0).
  { intros Hz%map_size_empty_inv. rewrite Hz, dom_empty_L in Hp. by apply elem_of_empty in Hp. }
  pose proof (Nat.div_lt_upper_bound (size pubs - 1) 3 (size pubs) ltac:(lia) ltac:(lia)). lia.
Qed.

Lemma cs_initial_view w p : cs_initial w → p ∈ dom pubs → ∃ bw aw, view p w bw aw.
Proof.
  intros [Hs Hn] Hp. destruct (some_correct p Hp) as [i0 Hi0].
  assert (Hst : ∀ i, i ∈ correct → ∃ ni bc, proposal_states (w_node w i) !! p =
    Some (Ongoing bc (binary_agreement.new ni (session_of p))) ∧ broadcast.new ni p = inr bc ∧ netinfo_wf ni ∧
    our_id ni = i ∧ public_keys ni = pubs ∧ public_key_set ni = pks ∧ sig_threshold pks = num_faulty ni ∧
    (is_Some (secret_key_share ni) → is_validator ni = true)).
  { intros i Hi. destruct (Hn i Hi) as (_ & _ & ni & Hnew & Hwf & Hid & Hpub & Hpks & Hth & Hsk).
    destruct (new_spec ni _ Hnew) as (_ & _ & Hd & Hl).
    assert (His : is_Some (proposal_states (w_node w i) !! p)) by (apply elem_of_dom; by rewrite Hd, Hpub).
    destruct His as [st Hst]. destruct (Hl p st Hst) as (idx & bc & Hidx & Hbc & ->).
    exists ni, bc. split_and!; try done. rewrite Hst. unfold session_of. repeat f_equal.
    rewrite <- Hpub. fold (all_ids ni). apply index_of_Some in Hidx; [|apply NoDup_keys]. by rewrite Hidx. }
  destruct (Hst i0 Hi0) as (ni0 & bc0 & _).
  set (bw := World (λ i, match proposal_states (w_node w i) !! p with Some (Ongoing bc _) => bc | _ => bc0 end)
    [] (λ _, []) (λ _, []) : bc_world N).
  set (aw := World (λ i, match proposal_states (w_node w i) !! p with
    Some (Ongoing _ ba) => ba | _ => binary_agreement.new ni0 (session_of p) end)
    [] (λ _, []) (λ _, []) : ba_world N Sid).
  exists bw, aw. split.
  - apply reach_init. split_and!; [done..|]. intros i Hi.
    destruct (Hst i Hi) as (ni & bc & Hi' & Hbc & Hwf & Hid & Hpub & _). exists ni. cbn. by rewrite Hi'.
  - apply reach_init. split; [done|]. intros i Hi. split_and!; [done..|].
    destruct (Hst i Hi) as (ni & bc & Hi' & Hbc & Hrest). exists ni. cbn. rewrite Hi'. split; [done|apply Hrest].
  - intros i Hi. destruct (Hst i Hi) as (ni & bc & Hi' & _). eexists. split; [done|]. cbn. rewrite Hi'.
    destruct (Hn i Hi) as (_ & -> & _). done.
  - intros i t m. rewrite Hs. cbn. split; by intros ?%elem_of_nil.
  - intros i t m. rewrite Hs. cbn. split; by intros ?%elem_of_nil.
  - by intros i v ?%elem_of_nil.
Qed.

Lemma cs_initial_inv w : cs_initial w → cs_inv w.
Proof.
  intros Hin. split; [intros p Hp; by apply cs_initial_view|]. destruct Hin as [_ Hn]. intros i Hi.
  destruct (Hn i Hi) as (_ & -> & ni & Hnew & Hwf & Hid & Hpub & _).
  destruct (new_spec ni _ Hnew) as (Hni & Hdec & Hd & _). split; rewrite ?Hni; try done.
  - rewrite (wf_is_validator _ Hwf). unfold is_node_validator. rewrite Hid, Hpub.
    apply bool_decide_eq_true, elem_of_dom. by apply Hcorrect.
  - unfold num_correct. by rewrite (wf_num_faulty _ Hwf), (wf_num_nodes _ Hwf), Hpub.
  - by rewrite Hd, Hpub.
  - unfold outputs_ok. rewrite Hdec. by intros x ?%elem_of_nil.
Qed.

Lemma cs_reachable_inv w : reachable w → cs_inv w.
Proof.
  induction 1 as [|w ev w' _ IH Ha He]; [by apply cs_initial_inv|].
  destruct (cs_exec_inv w ev IH Ha) as (w2 & He' & Hw2). congruence.
Qed.

(** ** What the network guarantees *)
Definition proposers (l : list (SubsetOutput N)) : list N :=
  omap (λ x, match x with Contribution p _ => Some p | Done => None end) l.
(** No correct node has reached the last epoch of an agreement. *)
Definition epochs_left w : Prop := ∀ k t c p, k ∈ correct →
  (k, TM t (with_proposer (Agreement (binary_agreement.with_epoch c u64_max)) p)) ∉ w_sent w.
(** The shards that two nodes have decoded to the outputs of the broadcast of [p] collide. *)
Definition shards_collide p w i j : Prop := ∃ bw aw v v' x x' h t t', view p w bw aw ∧
  w_out bw i = [(v, x)] ∧ w_out bw j = [(v', x')] ∧
  from_vec (broadcast.decoded_shards x h) = Some t ∧ from_vec (broadcast.decoded_shards x' h) = Some t' ∧
  collides (tree_inputs t) (tree_inputs t').

Lemma elem_of_contribs p v l : Contribution p v ∈ l ↔ v ∈ contribs p l.
Proof.
  unfold contribs. rewrite list_elem_of_omap. split.
  - intros Hin. exists (Contribution p v). split; [done|]. cbn. by rewrite decide_True.
  - intros ([q u|] & Hin & Hc); [|done]. cbn in Hc. case_decide; [|done]. by simplify_eq.
Qed.

Lemma epochs_left_view p w bw aw : view p w bw aw → epochs_left w → ba_agreement.epochs_left correct aw.
Proof.
  intros Hv Hl k c Hk ([t m] & Hin & Hm). cbn in Hm. subst m. apply (Hl k t c p Hk). by apply (v_ba_sent _ _ _ _ Hv).
Qed.

Section guarantees.
Context (w : CsWorld) (Hw : cs_inv w).
Abbreviation outs i := ((w_out w i).*1).

Lemma outs_done i : i ∈ correct → Done ∈ outs i → decided (w_node w i) = true.
Proof.
  intros Hi Hd. pose proof (ni_outputs _ _ _ (cs_node _ Hw i Hi)) as Ho. unfold outputs_ok in Ho.
  destruct (decided (w_node w i)); [done|]. by destruct (Ho _ Hd) as (p & v & [=] & _).
Qed.

Lemma outs_contribution i p v : i ∈ correct → Contribution p v ∈ outs i → p ∈ dom pubs.
Proof.
  intros Hi Hc. pose proof (ni_outputs _ _ _ (cs_node _ Hw i Hi)) as Ho. unfold outputs_ok in Ho.
  destruct (decided (w_node w i)).
  - destruct Ho as ((l & Hl & Hlc) & _). rewrite Hl in Hc. apply elem_of_app in Hc as [Hc|Hc].
    + by destruct (Hlc _ Hc) as (q & u & [= -> ->] & ?).
    + by apply list_elem_of_singleton in Hc.
  - by destruct (Ho _ Hc) as (q & u & [= -> ->] & ?).
Qed.

(** A contribution is accepted by the agreement and output by the broadcast. *)
Lemma contribution_outputs i p v bw aw : view p w bw aw → i ∈ correct → Contribution p v ∈ outs i →
  (w_out bw i).*1 = [v] ∧ (w_out aw i).*1 = [true].
Proof.
  intros Hv Hi Hc%elem_of_contribs. destruct (v_node _ _ _ _ Hv i Hi) as (st & _ & Hrel & Hr).
  rewrite Hr in Hc. destruct st as [| | |[]]; try by apply elem_of_nil in Hc.
  destruct Hrel as [[u Hu] Ha]. split; [|done]. cbn in Hc. rewrite Hu in Hc |- *.
  by apply list_elem_of_singleton in Hc as ->.
Qed.

(** A finished node has decided on every proposal. *)
Lemma done_complete i p bw aw : view p w bw aw → p ∈ dom pubs → i ∈ correct → Done ∈ outs i →
  (∃ v, (w_out bw i).*1 = [v] ∧ (w_out aw i).*1 = [true] ∧ Contribution p v ∈ outs i ∧
    ∃ st, proposal_states (w_node w i) !! p = Some st ∧ accepted st = true) ∨
  ((w_out aw i).*1 = [false] ∧ ∃ st, proposal_states (w_node w i) !! p = Some st ∧ accepted st = false).
Proof.
  intros Hv Hp Hi Hd. pose proof (ni_outputs _ _ _ (cs_node _ Hw i Hi)) as Ho. unfold outputs_ok in Ho.
  rewrite (outs_done i Hi Hd) in Ho. destruct Ho as (_ & Hcp & _).
  destruct (v_node _ _ _ _ Hv i Hi) as (st & Hst & Hrel & Hr). specialize (Hcp p st Hst).
  destruct st as [| | |[]]; try done; [left|right].
  - destruct Hrel as [[v Hv'] Ha]. exists v. split_and!; [done..| |by eexists].
    apply elem_of_contribs. rewrite Hr. cbn. rewrite Hv'. by left.
  - split; [done|by eexists].
Qed.

Lemma proposers_NoDup l : (∀ p, length (contribs p l) ≤ 1) → NoDup (proposers l).
Proof.
  induction l as [|[p v|] l IH]; intros Hl; [constructor| |].
  - change (NoDup (p :: proposers l)). constructor.
    + intros ([q u|] & Hin & [= ->])%list_elem_of_omap. specialize (Hl p). cbn in Hl.
      rewrite decide_True in Hl by done. apply elem_of_contribs in Hin. unfold contribs in Hin.
      destruct (omap (contribution_of p) l); [by apply elem_of_nil in Hin|cbn in Hl; lia].
    + apply IH. intros q. specialize (Hl q). cbn in Hl. case_decide; cbn in Hl; unfold contribs; lia.
  - apply IH. intros q. apply (Hl q).
Qed.

Lemma length_proposers l : length (proposers l) ≤ length l.
Proof.
  induction l as [|[p v|] l IH]; [done|apply le_n_S, IH|apply Nat.le_le_succ_r, IH].
Qed.

Lemma contribs_once i p : i ∈ correct → length (contribs p (outs i)) ≤ 1.
Proof.
  intros Hi. destruct (contribs p (outs i)) as [|v l] eqn:Hc; [simpl; lia|].
  assert (Hin : Contribution p v ∈ outs i) by (apply elem_of_contribs; rewrite Hc; by left).
  destruct (cs_views _ Hw p (outs_contribution i p v Hi Hin)) as (bw & aw & Hv).
  destruct (v_node _ _ _ _ Hv i Hi) as (st & _ & Hrel & Hr). rewrite Hc in Hr. rewrite Hr.
  destruct st as [| | |[]]; simpl; try lia. destruct Hrel as [[u ->] _]. simpl. lia.
Qed.

Lemma accepted_le i l : i ∈ correct → Done ∈ outs i → outs i = l ++ [Done] →
  count_accepted (w_node w i) ≤ length l.
Proof.
  intros Hi Hd Hl. unfold count_accepted. rewrite length_filter_values.
  assert (Hsub : keys_with (λ st, accepted st = true) (proposal_states (w_node w i)) ⊆
    list_to_set (proposers l)).
  { intros p (st & Hst & Hacc)%elem_of_keys_with. apply elem_of_list_to_set, list_elem_of_omap.
    assert (Hp : p ∈ dom pubs).
    { rewrite <- (ni_dom _ _ _ (cs_node _ Hw i Hi)). by apply elem_of_dom_2 in Hst. }
    destruct (cs_views _ Hw p Hp) as (bw & aw & Hv).
    destruct (done_complete i p bw aw Hv Hp Hi Hd) as [(v & _ & _ & Hin & _)|(_ & st' & Hst' & Hn)]; [|congruence].
    exists (Contribution p v). split; [|done]. rewrite Hl in Hin. apply elem_of_app in Hin as [?|Hin]; [done|].
    by apply list_elem_of_singleton in Hin. }
  apply subseteq_size in Hsub. rewrite size_list_to_set in Hsub; [etrans; [exact Hsub|apply length_proposers]|].
  rewrite <- (app_nil_r (proposers l)). change [] with (proposers [Done]). unfold proposers.
  rewrite <- omap_app, <- Hl. apply proposers_NoDup. intros p. by apply contribs_once.
Qed.
End guarantees.

(** C13: The network of [Subset] nodes refines, for every proposer, a network of [Broadcast]
    instances and a network of [BinaryAgreement] instances: the correct nodes do nothing in
    a proposal but events of these two networks, a proposal's state is the state of the
    node's two instances and their outputs, the contribution that a node outputs is what
    its broadcast output, and the messages are the messages of the instances. *)
Theorem subset_refines w p : reachable w → p ∈ dom pubs → ∃ bw aw, view p w bw aw.
Proof. intros Hw%cs_reachable_inv. apply Hw. Qed.

(** No input, no message of a faulty node and no order of messages makes a correct node panic
    or loop: every allowed event of the network is handled. *)
Theorem subset_returns w ev :
  reachable w → Net.allowed (ba_agreement.validator pubs) correct w ev = true →
  ∃ w', exec propose handle_message w ev = Some w'.
Proof.
  intros Hw%cs_reachable_inv Ha. destruct (cs_exec_inv w ev Hw Ha) as (w' & ? & _). by exists w'.
Qed.

Lemma contributions_agree w i j p v :
  cs_inv w → epochs_left w → i ∈ correct → j ∈ correct →
  Done ∈ (w_out w j).*1 → Contribution p v ∈ (w_out w i).*1 →
  Contribution p v ∈ (w_out w j).*1 ∨ shards_collide p w i j.
Proof.
  intros Hw Hl Hi Hj Hd Hc.
  pose proof (outs_contribution w Hw i p v Hi Hc) as Hp. destruct (cs_views _ Hw p Hp) as (bw & aw & Hv).
  destruct (contribution_outputs w i p v bw aw Hv Hi Hc) as [Hb Ha].
  pose proof (ba_agreement.ba_reachable_inv _ _ _ _ Hcorrect Hbyz (Hser p) aw (v_ba _ _ _ _ Hv)) as Hainv.
  pose proof (bc_reachable_inv _ _ _ Hbyz bw (v_bc _ _ _ _ Hv)) as Hbinv.
  destruct (done_complete w Hw j p bw aw Hv Hp Hj Hd) as [(v' & Hb' & _ & Hin & _)|[Ha' _]].
  - destruct (singleton_fst _ _ Hb) as [x Hx], (singleton_fst _ _ Hb') as [x' Hx'].
    destruct (BroadcastNet.outputs_agree _ _ _ Hbyz bw i j v v' x x' Hbinv Hi Hj Hx Hx')
      as [->|(h & t & t' & Ht & Ht' & Hcol)]; [by left|right].
    by exists bw, aw, v, v', x, x', h, t, t'.
  - destruct (singleton_fst _ _ Ha) as [x Hx], (singleton_fst _ _ Ha') as [x' Hx'].
    assert (Heq : true = false); [|done].
    eapply (ba_agreement.decisions_agree _ _ _ _ Hcorrect Hbyz (Hser p) aw i j true false x x' Hainv
      (epochs_left_view p w bw aw Hv Hl) Hi Hj); [rewrite Hx|rewrite Hx']; by left.
Qed.

(** C12: Agreement on the subset: if a correct node has output [Done], every contribution that a
    correct node has output or will output is among its contributions, unless the shards that
    the two nodes decoded for it collide; so two nodes that are done have the same set. *)
Theorem subset_agreement w i j p v :
  reachable w → epochs_left w → i ∈ correct → j ∈ correct →
  Done ∈ (w_out w j).*1 → Contribution p v ∈ (w_out w i).*1 →
  Contribution p v ∈ (w_out w j).*1 ∨ shards_collide p w i j.
Proof. intros Hw%cs_reachable_inv. by apply contributions_agree. Qed.

Lemma done_outputs w i :
  cs_inv w → i ∈ correct → Done ∈ (w_out w i).*1 →
  ∃ l, (w_out w i).*1 = l ++ [Done] ∧ Done ∉ l ∧ size pubs - f ≤ length l ∧
    length l = length (proposers l) ∧ NoDup (proposers l) ∧ list_to_set (proposers l) ⊆ dom pubs.
Proof.
  intros Hw Hi Hd. pose proof (ni_outputs _ _ _ (cs_node _ Hw i Hi)) as Ho.
  unfold outputs_ok in Ho. rewrite (outs_done w Hw i Hi Hd) in Ho. destruct Ho as ((l & Hl & Hlc) & _ & Hn).
  exists l. split; [done|]. assert (Hp : proposers ((w_out w i).*1) = proposers l).
  { rewrite Hl. unfold proposers. by rewrite omap_app, app_nil_r. }
  split_and!.
  - intros Hin. by destruct (Hlc _ Hin) as (p & v & [=] & _).
  - rewrite <- (ni_correct _ _ _ (cs_node _ Hw i Hi)). etrans; [exact Hn|]. by apply accepted_le.
  - clear -Hlc. induction l as [|x l IH]; [done|]. destruct (Hlc x) as (p & v & -> & _); [by left|].
    cbn. f_equal. apply IH. intros y Hy. apply Hlc. by right.
  - rewrite <- Hp. apply proposers_NoDup. intros p. by apply contribs_once.
  - intros p (x & Hin & Hx)%elem_of_list_to_set%list_elem_of_omap.
    destruct (Hlc _ Hin) as (q & v & -> & Hq). by injection Hx as <-.
Qed.

(** C14: The end of the subset: [Done] is the last output and occurs once, at least [N - f] and
    at most [N] contributions come before it, one for each of their proposers, which are
    validators. *)
Theorem subset_done w i :
  reachable w → i ∈ correct → Done ∈ (w_out w i).*1 →
  ∃ l, (w_out w i).*1 = l ++ [Done] ∧ Done ∉ l ∧ size pubs - f ≤ length l ∧
    length l = length (proposers l) ∧ NoDup (proposers l) ∧ list_to_set (proposers l) ⊆ dom pubs.
Proof. intros Hw%cs_reachable_inv. by apply done_outputs. Qed.

(** The shards that the node [i] has decoded to the output [v] of the broadcast of [p] collide
    with the shards of the value [v0]. *)
Definition input_collides p w i v v0 : Prop := ∃ bw aw c shards x h t t0, view p w bw aw ∧ w_out bw i = [(v, x)] ∧
  broadcast.coding_new (size pubs - 2 * f) (2 * f) = Some c ∧
  broadcast.make_shards c v0 = Some shards ∧ from_vec shards = Some t0 ∧
  from_vec (broadcast.decoded_shards x h) = Some t ∧ collides (tree_inputs t) (tree_inputs t0).

Lemma contribution_valid w i p v :
  cs_inv w → i ∈ correct → p ∈ correct → Contribution p v ∈ (w_out w i).*1 →
  ∃ v0, v0 ∈ w_input w p ∧ ((Z.of_nat (length v0) < 2 ^ 32)%Z → v = v0 ∨ input_collides p w i v v0).
Proof.
  intros Hw Hi Hpc Hc.
  pose proof (outs_contribution w Hw i p v Hi Hc) as Hp. destruct (cs_views _ Hw p Hp) as (bw & aw & Hv).
  destruct (contribution_outputs w i p v bw aw Hv Hi Hc) as [Hb _].
  pose proof (bc_reachable_inv _ _ _ Hbyz bw (v_bc _ _ _ _ Hv)) as Hbinv.
  destruct (singleton_fst _ _ Hb) as [x Hx].
  destruct (BroadcastNet.output_valid _ _ _ Hbyz bw i v x Hbinv Hpc Hi Hx)
    as (v0 & c & shards & t0 & Hin & Hco & Hm & Ht0 & Hlen).
  exists v0. split; [apply (v_input _ _ _ _ Hv); rewrite Hin; by left|].
  intros [->|(h & t & Ht & Hcol)]%Hlen; [by left|right]. by exists bw, aw, c, shards, x, h, t, t0.
Qed.

(** C15: Validity of the subset: a contribution of a correct proposer is a value that the proposer
    has proposed (if that is shorter than 2^32 bytes), unless shards of the two collide. *)
Theorem subset_validity w i p v :
  reachable w → i ∈ correct → p ∈ correct → Contribution p v ∈ (w_out w i).*1 →
  ∃ v0, v0 ∈ w_input w p ∧ ((Z.of_nat (length v0) < 2 ^ 32)%Z → v = v0 ∨ input_collides p w i v v0).
Proof. intros Hw%cs_reachable_inv. by apply contribution_valid. Qed.
End net.
End subset_net.
