(* ===== verification/SubsetDemo.v ===== *)
(** * Subset: an execution

    Four validators with the toy keys and codes of [Instances], the last one faulty and
    silent; the three others propose a value each.  The theorems of [SubsetNet] apply to
    it. *)
From S2P Require Import Prelude.
From S2P Require Import BTree.
From S2P Require Import Traits.
From S2P Require Import Net.
From S2P Require Import NetworkInfo.
From S2P Require Import Merkle.
From S2P Require Import Broadcast.
From S2P Require Import BroadcastNet.
From S2P Require Import ThresholdSign.
From S2P Require Import BinaryAgreement.
From S2P Require Import BaNode.
From S2P Require Import BaAgreement.
From S2P Require Import Subset.
From S2P Require Import SubsetMoves.
From S2P Require Import SubsetNet.
From S2P Require Import Instances.

Module subset_demo.
Import subset.
Import subset_net.

#[local] Existing Instance threshold_sign.number_sig_laws.
#[local] Existing Instance ba_agreement.demo_share_eq.
#[local] Instance any_session Sid : SessionIdT (BaSessionId Sid) := {| serialize_coin_id _ _ := Some [] |}.
(** A cheap hash: the last byte *)
#[local] Instance last_byte : Sha3 := {| sha3_256 l := Vector.const (default "000"%byte (last l)) 32 |}.

Definition cs_correct : gset nat := {[0; 1; 2]}.
Definition cs_keys : PublicKeySet := public_key_set (four_netinfo 0).
Abbreviation demo_world := (Net.world nat (@Subset nat nat nat_ord_key number_crypto repeat_code) bytes
  (@Message nat number_crypto) (SubsetOutput nat)).
Definition cs_node0 i : @Subset nat nat nat_ord_key number_crypto repeat_code :=
  match new (four_netinfo i) 5 with inr s => s | inl _ => mkSubset _ _ _ _ _ (four_netinfo i) 5 ∅ false end.
Definition cs_init : demo_world := World cs_node0 [] (λ _, []) (λ _, []).
Abbreviation cs_validator := (ba_agreement.validator (ord := nat_ord_key) (crypto := number_crypto) four_keys).
Abbreviation cs_run := (Net.run (ord := nat_ord_key) propose handle_message cs_validator cs_correct).
Abbreviation cs_rounds := (Net.rounds (ord := nat_ord_key) propose handle_message cs_validator cs_correct).
Abbreviation cs_reachable := (Net.reachable (ord := nat_ord_key) propose handle_message cs_validator cs_correct
  (cs_initial (ord := nat_ord_key) (crypto := number_crypto) four_keys cs_correct cs_keys 5)).
Definition cs_final : option demo_world :=
  w ← cs_run cs_init [Input 0 ["a"%byte]; Input 1 ["b"%byte]; Input 2 ["c"%byte]]; cs_rounds 10 w.

Lemma four_subset {Sid} i (session : Sid) :
  ∃ s : @Subset nat Sid nat_ord_key number_crypto repeat_code, new (four_netinfo i) session = inr s.
Proof.
  assert (Hbc : ∀ p, ∃ bc : broadcast.Broadcast nat, broadcast.new (four_netinfo i) p = inr bc).
  { intros p. unfold broadcast.new.
    assert (num_nodes (four_netinfo i) = 4) as -> by (vm_compute; reflexivity).
    assert (num_faulty (four_netinfo i) = 1) as -> by (vm_compute; reflexivity). by eexists. }
  unfold new. match goal with |- context [foldl ?g _ _] => set (add := g) end.
  assert (Hfold : ∀ l m, ∃ m', foldl add (inr m) l = inr m').
  { induction l as [|[idx p] l IH]; intros m; [by exists m|]. cbn [foldl]. unfold add at 2, proposal_new.
    destruct (Hbc p) as [bc ->]. apply IH. }
  destruct (Hfold (imap pair (all_ids (four_netinfo i))) ∅) as [m ->]. by eexists.
Qed.

Lemma cs_new i : new (four_netinfo i) 5 = inr (cs_node0 i).
Proof. unfold cs_node0. by destruct (four_subset i 5) as [s ->]. Qed.

Lemma cs_initial_ok : cs_initial (ord := nat_ord_key) (crypto := number_crypto) four_keys cs_correct cs_keys 5 cs_init.
Proof.
  split; [done|]. intros i Hi. split_and!; [done..|]. exists (four_netinfo i).
  destruct (four_netinfo_ok i) as (Hwf & Hid & Hpub). destruct (ba_node.demo_keys i) as (_ & Hth & Hsk).
  split_and!; [apply cs_new|done..|]. intros H. apply Hsk; [done|].
  unfold cs_correct in Hi. set_solver by lia.
Qed.

Lemma cs_byz : cs_correct ⊆ dom four_keys ∧ size (dom four_keys ∖ cs_correct) ≤ (size four_keys - 1) / 3.
Proof. split; [by apply (bool_decide_unpack (cs_correct ⊆ dom four_keys)); vm_compute|vm_compute; lia]. Qed.

Lemma cs_run_reachable w : cs_final = Some w → cs_reachable w.
Proof.
  unfold cs_final. destruct (cs_run cs_init _) as [w1|] eqn:Hw1; [|done].
  intros Hw. eapply rounds_reachable; [|exact Hw]. eapply run_reachable; [|exact Hw1].
  apply reach_init, cs_initial_ok.
Qed.

(** What is read off the execution: two nodes' outputs, the messages' epochs *)
Definition early (m : @Message nat number_crypto) : bool :=
  match content m with
  | Broadcast _ => true
  | Agreement m => bool_decide (binary_agreement.msg_epoch m < u64_max)%Z
  end.
Definition cs_expected : list (SubsetOutput nat) :=
  [Contribution 0 ["a"%byte]; Contribution 1 ["b"%byte]; Contribution 2 ["c"%byte]; Done].
Definition read_off (w : demo_world) : list (SubsetOutput nat) * list (SubsetOutput nat) * bool :=
  ((w_out w 0).*1, (w_out w 1).*1, forallb (λ '(_, tm), early (message tm)) (w_sent w)).

Lemma cs_read_off (o : option demo_world) : read_off <$> o = Some (cs_expected, cs_expected, true) →
  ∃ w, o = Some w ∧ (w_out w 0).*1 = cs_expected ∧ (w_out w 1).*1 = cs_expected ∧
    epochs_left (ord := nat_ord_key) (crypto := number_crypto) cs_correct w.
Proof.
  destruct o as [w|]; [|done]. intros Ho. unfold read_off in Ho. cbn [fmap option_fmap option_map] in Ho.
  assert (Ho' : (w_out w 0).*1 = cs_expected ∧ (w_out w 1).*1 = cs_expected ∧
    forallb (λ '(_, tm), early (message tm)) (w_sent w) = true) by (split_and!; congruence).
  destruct Ho' as (H0 & H1 & Hall). exists w. split_and!; [done..|]. intros k t c p _ Hin.
  rewrite forallb_forall in Hall. specialize (Hall _ (proj1 (list_elem_of_In _ _) Hin)). cbn in Hall.
  by apply bool_decide_eq_true in Hall.
Qed.

Lemma cs_expected_in : Done ∈ cs_expected ∧ Contribution 2 ["c"%byte] ∈ cs_expected.
Proof. split; apply list_elem_of_In; simpl; auto. Qed.

Lemma cs_outputs : ∃ w, cs_final = Some w ∧ (w_out w 0).*1 = cs_expected ∧ (w_out w 1).*1 = cs_expected ∧
  epochs_left (ord := nat_ord_key) (crypto := number_crypto) cs_correct w.
Proof. apply cs_read_off. vm_compute. reflexivity. Qed.

Abbreviation cs_view p w bw aw := (view (ord := nat_ord_key) (crypto := number_crypto) four_keys cs_correct
  cs_keys 5 p w bw aw).

Lemma subset_refines_witness : ∃ w bw aw, cs_reachable w ∧ cs_view 1 w bw aw.
Proof.
  destruct cs_outputs as (w & Hw & _). destruct cs_byz as [Hc Hb].
  destruct (subset_refines (ord := nat_ord_key) (crypto := number_crypto) four_keys cs_correct cs_keys 5 Hc Hb
    (λ _ _, ltac:(eauto)) w 1 (cs_run_reachable w Hw)) as (bw & aw & Hv); [by vm_compute|].
  exists w, bw, aw. split.
  { exact (cs_run_reachable w Hw). }
  exact Hv.
Defined.

Lemma subset_returns_witness : ∃ w' : demo_world,
  exec (ord := nat_ord_key) propose handle_message cs_init (Input 0 ["a"%byte]) = Some w'.
Proof.
  destruct cs_byz as [Hc Hb].
  apply (subset_returns (ord := nat_ord_key) (crypto := number_crypto) four_keys cs_correct cs_keys 5 Hc Hb
    (λ _ _, ltac:(eauto)) cs_init (Input 0 ["a"%byte])); [apply reach_init, cs_initial_ok|by vm_compute].
Defined.

Lemma subset_agreement_witness : ∃ w : demo_world, Done ∈ (w_out w 0).*1 ∧
  (Contribution 2 ["c"%byte] ∈ (w_out w 0).*1 ∨
   shards_collide (ord := nat_ord_key) (crypto := number_crypto) four_keys cs_correct cs_keys 5 2 w 1 0).
Proof.
  destruct cs_outputs as (w & Hw & H0 & H1 & Hl). exists w. destruct cs_byz as [Hc Hb].
  split; [rewrite H0; apply cs_expected_in|].
  apply (subset_agreement (ord := nat_ord_key) (crypto := number_crypto) four_keys cs_correct cs_keys 5 Hc Hb
    (λ _ _, ltac:(eauto)) w 1 0 2 ["c"%byte] (cs_run_reachable w Hw) Hl);
    [by vm_compute..|rewrite H0; apply cs_expected_in|rewrite H1; apply cs_expected_in].
Defined.

Lemma subset_done_witness : ∃ (w : demo_world) l, (w_out w 1).*1 = l ++ [Done] ∧ 3 ≤ length l ∧ NoDup (proposers l).
Proof.
  destruct cs_outputs as (w & Hw & H0 & H1 & Hl). exists w. destruct cs_byz as [Hc Hb].
  destruct (subset_done (ord := nat_ord_key) (crypto := number_crypto) four_keys cs_correct cs_keys 5 Hc Hb
    (λ _ _, ltac:(eauto)) w 1 (cs_run_reachable w Hw)) as (l & Hout & _ & Hlen & _ & Hnd & _);
    [by vm_compute|rewrite H1; apply cs_expected_in|].
  exists l. split; [exact Hout|]. split; [|exact Hnd].
  refine (Nat.le_trans _ _ _ _ Hlen). vm_compute. lia.
Defined.

Lemma subset_validity_witness : ∃ (w : demo_world) v0, Contribution 2 ["c"%byte] ∈ (w_out w 1).*1 ∧ v0 ∈ w_input w 2.
Proof.
  destruct cs_outputs as (w & Hw & H0 & H1 & Hl). exists w. destruct cs_byz as [Hc Hb].
  assert (Hin : Contribution 2 ["c"%byte] ∈ (w_out w 1).*1) by (rewrite H1; apply cs_expected_in).
  destruct (subset_validity (ord := nat_ord_key) (crypto := number_crypto) four_keys cs_correct cs_keys 5 Hc Hb
    (λ _ _, ltac:(eauto)) w 1 2 ["c"%byte] (cs_run_reachable w Hw)) as (v0 & Hv0 & _); [by vm_compute..|exact Hin|].
  exists v0. split; [exact Hin|exact Hv0].
Defined.
End subset_demo.
