(* ===== verification/HoneyBadger.v ===== *)
(** * Honey Badger

    Models [src/honey_badger/]: the state of an epoch ([epoch_state.rs]), the algorithm
    ([honey_badger.rs]) with its encryption schedule, [builder.rs], [params.rs],
    [batch.rs], [message.rs] and [error.rs].  The serialization crate [bincode] is a
    parameter, per type. *)
From S2P Require Import Prelude.
From S2P Require Import BTree.
From S2P Require Import Traits.
From S2P Require Import NetworkInfo.
From S2P Require Import Merkle.
From S2P Require Import Broadcast.
From S2P Require Import BinaryAgreement.
From S2P Require Import ThresholdDecrypt.
From S2P Require Import Subset.

Module honey_badger.

Inductive Error `{Crypto} : Type :=
  | ProposeBincode
  | CreateSubset (e : subset.Error)
  | InputSubset (e : subset.Error)
  | HandleSubsetMessage (e : subset.Error)
  | ThresholdDecrypt (e : threshold_decrypt.Error)
  | UnknownSender.

Inductive FaultKind : Type :=
  | UnexpectedDecryptionShare
  | DeserializeCiphertext
  | InvalidCiphertext
  | UnexpectedHbMessageEpoch
  | BatchDeserializationFailed
  | SubsetFault (k : subset.FaultKind)
  | DecryptionFault (k : threshold_decrypt.FaultKind).

Inductive MessageContent {N : Type} `{Crypto} : Type :=
  | Subset (m : subset.Message N)
  | DecryptionShare (proposer_id : N) (share : threshold_decrypt.Message).
Arguments MessageContent N {_}.
Record Message {N : Type} `{Crypto} : Type := mkMessage {
  msg_epoch : u64;
  content : MessageContent N;
}.
Arguments Message N {_}.
Definition with_epoch {N} `{Crypto} (c : MessageContent N) (epoch : u64) : Message N :=
  mkMessage _ _ epoch c.

#[global] Instance td_message_eq_dec `{Crypto, !EqDecision NetworkInfo.DecryptionShare} :
  EqDecision threshold_decrypt.Message.
Proof. solve_decision. Defined.
#[global] Instance hb_content_eq_dec {N} `{NodeIdT N, Crypto, !EqDecision SignatureShare, !EqDecision NetworkInfo.DecryptionShare} :
  EqDecision (MessageContent N).
Proof. solve_decision. Defined.
#[global] Instance hb_message_eq_dec {N} `{NodeIdT N, Crypto, !EqDecision SignatureShare, !EqDecision NetworkInfo.DecryptionShare} :
  EqDecision (Message N).
Proof. solve_decision. Defined.

(** ** Parameters *)
Inductive EncryptionSchedule : Type :=
  | Always
  | Never
  | EveryNthEpoch (n : u32)
  | TickTock (on off : u32).

(** [None] is a remainder by zero. *)
Definition use_on_epoch (s : EncryptionSchedule) (epoch : u64) : option bool :=
  match s with
  | Always => Some true
  | Never => Some false
  | EveryNthEpoch n =>
      if decide (n = 0%Z) then None else Some (bool_decide (epoch mod n = 0)%Z)
  | TickTock on off =>
      if decide (u32_add on off = 0%Z) then None
      else Some (bool_decide (epoch mod u32_add on off <= on)%Z)
  end.

Inductive SubsetHandlingStrategy : Type :=
  | Incremental
  | AllAtEnd.

Record Params : Type := mkParams {
  max_future_epochs : u64;
  subset_handling_strategy : SubsetHandlingStrategy;
  encryption_schedule : EncryptionSchedule;
}.
#[global] Instance Params_settable : Settable Params := λ p,
  mkParams (max_future_epochs p) (subset_handling_strategy p) (encryption_schedule p).
Definition params_default : Params := mkParams 3 Incremental Always.

(** ** Batches *)
Record Batch {C N : Type} `{NodeIdT N} : Type := mkBatch {
  batch_epoch : u64;
  contributions : gmap N C;
}.
Arguments Batch C N {_}.
#[global] Instance Batch_settable {C N} `{NodeIdT N} : Settable (Batch C N) := λ b,
  mkBatch _ _ _ (batch_epoch b) (contributions b).

Definition batch_iter {T N} `{NodeIdT N} (b : Batch (list T) N) : list T :=
  concat (values (contributions b)).
Definition batch_len {T N} `{NodeIdT N} (b : Batch (list T) N) : nat :=
  sum_list (length <$> values (contributions b)).
Definition batch_is_empty {T N} `{NodeIdT N} (b : Batch (list T) N) : bool :=
  forallb (λ l : list T, match l with [] => true | _ => false end) (values (contributions b)).

(** ** Decryption and subset states *)
Inductive DecryptionState {N : Type} `{NodeIdT N, Crypto} : Type :=
  | DecOngoing (td : threshold_decrypt.ThresholdDecrypt N)
  | DecComplete (plaintext : bytes).
Arguments DecryptionState N {_ _}.

Record EpochId : Type := mkEpochId {
  hb_id : u64;
  id_epoch : u64;
}.

Inductive SubsetState {N : Type} `{NodeIdT N, Crypto, ReedSolomonLib} : Type :=
  | SubOngoing (cs : subset.Subset N EpochId)
  | SubComplete (ids : gset N).
Arguments SubsetState N {_ _ _}.

Inductive SubsetHandler {N : Type} : Type :=
  | HandleIncremental
  | HandleAllAtEnd (cs : list (N * bytes)).
Arguments SubsetHandler N : clear implicits.

Definition subset_handler_of {N} (s : SubsetHandlingStrategy) : SubsetHandler N :=
  match s with Incremental => HandleIncremental | AllAtEnd => HandleAllAtEnd [] end.

(** [SubsetHandler::handle]: the handler, the contributions and whether it is done. *)
Definition subset_handle {N} (o : subset.SubsetOutput N) (h : SubsetHandler N) :
    SubsetHandler N * (list (N * bytes) * bool) :=
  match o with
  | subset.Contribution proposer_id data =>
      let proposal := (proposer_id, data) in
      match h with
      | HandleIncremental => (h, ([proposal], false))
      | HandleAllAtEnd cs => (HandleAllAtEnd (cs ++ [proposal]), ([], false))
      end
  | subset.Done =>
      match h with
      | HandleIncremental => (h, ([], true))
      | HandleAllAtEnd cs => (HandleAllAtEnd [], (cs, true))
      end
  end.

Section states.
Context {N : Type} `{ord : NodeIdT N} `{crypto : Crypto} `{sha : Sha3}
  `{rse : ReedSolomonLib} `{bo : ByteOrder} `{sid : !SessionIdT (subset.BaSessionId EpochId)}.
Abbreviation TdStep := (Step threshold_decrypt.Message bytes N threshold_decrypt.FaultKind).
Abbreviation CsStep := (Step (subset.Message N) (subset.SubsetOutput N) N subset.FaultKind).

Definition dec_new (ni : NetworkInfo N) : DecryptionState N := DecOngoing (threshold_decrypt.new ni).

Definition dec_handle_message (sender_id : N) (msg : threshold_decrypt.Message) :
    M (DecryptionState N) threshold_decrypt.Error TdStep :=
  s ← get;
  match s with
  | DecOngoing td => zoom (λ _, td) (λ td _, DecOngoing td) (threshold_decrypt.handle_message sender_id msg)
  | DecComplete _ => mret step_default
  end.

Definition dec_set_ciphertext (ct : Ciphertext) : M (DecryptionState N) threshold_decrypt.Error TdStep :=
  s ← get;
  match s with
  | DecOngoing td =>
      zoom (λ _, td) (λ td _, DecOngoing td)
        (threshold_decrypt.set_ciphertext ct;; threshold_decrypt.start_decryption)
  | DecComplete _ => mret step_default
  end.

Definition sub_handle_input (proposal : bytes) : M (SubsetState N) Error CsStep :=
  s ← get;
  match s with
  | SubOngoing cs =>
      map_err InputSubset (zoom (λ _, cs) (λ cs _, SubOngoing cs) (subset.propose proposal))
  | SubComplete _ => mret step_default
  end.

Definition sub_handle_message (sender_id : N) (msg : subset.Message N) : M (SubsetState N) Error CsStep :=
  s ← get;
  match s with
  | SubOngoing cs =>
      map_err HandleSubsetMessage
        (zoom (λ _, cs) (λ cs _, SubOngoing cs) (subset.handle_message sender_id msg))
  | SubComplete _ => mret step_default
  end.

Definition sub_received_proposals (s : SubsetState N) : nat :=
  match s with
  | SubOngoing cs => subset.received_proposals cs
  | SubComplete proposer_ids => size proposer_ids
  end.
Definition accepted_ids (s : SubsetState N) : option (gset N) :=
  match s with SubOngoing _ => None | SubComplete ids => Some ids end.
End states.

(** ** The state of an epoch *)
Record EpochState {N : Type} `{NodeIdT N, Crypto, ReedSolomonLib} : Type := mkEpochState {
  es_epoch : u64;
  es_netinfo : NetworkInfo N;
  es_subset : SubsetState N;
  decryption : gmap N (DecryptionState N);
  accepted_proposers : gset N;
  subset_handler : SubsetHandler N;
  require_decryption : bool;
}.
Arguments EpochState N {_ _ _}.
#[global] Instance EpochState_settable {N} `{NodeIdT N, Crypto, ReedSolomonLib} :
    Settable (EpochState N) := λ s,
  mkEpochState _ _ _ _ (es_epoch s) (es_netinfo s) (es_subset s) (decryption s)
    (accepted_proposers s) (subset_handler s) (require_decryption s).

Section epoch_state.
Context {C N : Type} `{ord : NodeIdT N} `{crypto : Crypto} `{sha : Sha3}
  `{rse : ReedSolomonLib} `{bo : ByteOrder} `{sid : !SessionIdT (subset.BaSessionId EpochId)}
  `{bin_c : !Bincode C} `{bin_ct : !Bincode Ciphertext}.
Abbreviation EState := (EpochState N).
Abbreviation TdStep := (Step threshold_decrypt.Message bytes N threshold_decrypt.FaultKind).
Abbreviation CsStep := (Step (subset.Message N) (subset.SubsetOutput N) N subset.FaultKind).
Abbreviation HStep := (Step (Message N) (Batch C N) N FaultKind).

(** [EpochState::new] *)
Definition epoch_state_new (ni : NetworkInfo N) (hb_id epoch : u64)
    (strategy : SubsetHandlingStrategy) (require : bool) : Error + EState :=
  match subset.new ni (mkEpochId hb_id epoch) with
  | inl e => inl (CreateSubset e)
  | inr cs =>
      inr (mkEpochState _ _ _ _ epoch ni (SubOngoing cs) ∅ ∅ (subset_handler_of strategy) require)
  end.

Definition es_received_proposals (s : EState) : nat := sub_received_proposals (es_subset s).

(** A method of the decryption state of a proposer, which is created if it is missing. *)
Definition on_decryption {A} (proposer_id : N)
    (m : M (DecryptionState N) threshold_decrypt.Error A) : M EState threshold_decrypt.Error A :=
  zoom (λ s, default (dec_new (es_netinfo s)) (decryption s !! proposer_id))
    (λ d s, s <| decryption ::= <[proposer_id := d]> |>) m.

Definition process_decryption (proposer_id : N) (td_step : TdStep) : M EState Error HStep :=
  s ← get;
  let '(step, outputs) := extend_with step_default td_step DecryptionFault
    (λ share, with_epoch (DecryptionShare proposer_id share) (es_epoch s)) in
  match outputs with
  | output :: _ =>
      modify (λ s, s <| decryption ::= <[proposer_id := DecComplete output]> |>);;
      mret step
  | [] => mret step
  end.

Definition send_decryption_share (proposer_id : N) (v : bytes) : M EState Error HStep :=
  match bin_deserialize v with
  | None => mret (step_fault proposer_id DeserializeCiphertext)
  | Some ciphertext => λ s,
      match on_decryption proposer_id (dec_set_ciphertext ciphertext) s with
      | Ok s td_step => process_decryption proposer_id td_step s
      | Err s (threshold_decrypt.InvalidCiphertext _) =>
          Ok s (step_fault proposer_id InvalidCiphertext)
      | Err s e => Err s (ThresholdDecrypt e)
      | Panic => Panic
      | NoFuel => NoFuel
      end
  end.

(** The loop over the contributions of one subset output. *)
Definition handle_contributions (step : HStep) (cs : list (N * bytes)) : M EState Error HStep :=
  for_acc (λ step '(k, v),
    s ← get;
    step' ← (if require_decryption s then send_decryption_share k v
             else modify (λ s, s <| decryption ::= <[k := DecComplete v]> |>);; mret step_default);
    modify (λ s, s <| accepted_proposers ::= union {[k]} |>);;
    mret (step_extend step step')) step cs.

(** When the subset is complete, the shares for contributions that were not accepted are dropped. *)
Definition finish_subset (step : HStep) : M EState Error HStep :=
  modify (λ s, s <| es_subset := SubComplete (accepted_proposers s) |>);;
  s ← get;
  let faulty_shares := filter (λ id, id ∉ accepted_proposers s) (keys (decryption s)) in
  for_acc (λ step id,
    s ← get;
    modify (λ s, s <| decryption ::= delete id |>);;
    match decryption s !! id with
    | Some (DecOngoing td) =>
        mret (step <| fault_log ::= λ l,
          foldl (λ l id, faultlog_append id UnexpectedDecryptionShare l) l
            (threshold_decrypt.sender_ids td) |>)
    | _ => mret step
    end) step faulty_shares.

Definition process_subset (cs_step : CsStep) : M EState Error HStep :=
  s ← get;
  let '(step, cs_outputs) := extend_with step_default cs_step SubsetFault
    (λ cs_msg, with_epoch (Subset cs_msg) (es_epoch s)) in
  for_acc (λ step cs_output,
    s ← get;
    let '(h, (contributions, is_done)) := subset_handle cs_output (subset_handler s) in
    modify (λ s, s <| subset_handler := h |>);;
    step ← handle_contributions step contributions;
    if is_done then finish_subset step else mret step) step cs_outputs.

(** [EpochState::propose]; the random number generator is threaded. *)
Definition es_propose (proposal : C) (rng : Rng) : M EState Error (HStep * Rng) :=
  ser_prop ← ok_or (bin_serialize proposal) ProposeBincode;
  s ← get;
  '(input, rng) ←
    (if require_decryption s then
       let '(ciphertext, rng) :=
         pk_encrypt_with_rng (pk_set_public_key (public_key_set (es_netinfo s))) rng ser_prop in
       ser ← ok_or (bin_serialize ciphertext) ProposeBincode;
       mret (ser, rng)
     else mret (ser_prop, rng));
  cs_step ← zoom es_subset (λ t s, s <| es_subset := t |>) (sub_handle_input input);
  step ← process_subset cs_step;
  mret (step, rng).

Definition handle_message_content (sender_id : N) (content : MessageContent N) : M EState Error HStep :=
  match content with
  | Subset cs_msg =>
      cs_step ← zoom es_subset (λ t s, s <| es_subset := t |>) (sub_handle_message sender_id cs_msg);
      process_subset cs_step
  | DecryptionShare proposer_id share =>
      s ← get;
      let unexpected :=
        match accepted_ids (es_subset s) with
        | Some ids => bool_decide (proposer_id ∉ ids)
        | None => false
        end in
      if unexpected then mret (step_fault sender_id UnexpectedDecryptionShare)
      else
        td_step ← map_err ThresholdDecrypt
          (on_decryption proposer_id (dec_handle_message sender_id share));
        process_decryption proposer_id td_step
  end.

(** The plaintexts of the accepted proposers, if all are decrypted. *)
Definition collect_plaintexts (s : EState) (ids : list N) : option (list (N * bytes)) :=
  mapM (λ id, match decryption s !! id with
              | Some (DecComplete pt) => Some (id, pt)
              | _ => None
              end) ids.

Definition try_output_batch (s : EState) : option (Batch C N * FaultLog N FaultKind) :=
  proposer_ids ← accepted_ids (es_subset s);
  plaintexts ← collect_plaintexts s (set_items proposer_ids);
  Some (foldl (λ '(batch, fault_log) '(id, plaintext),
    match bin_deserialize plaintext with
    | Some contrib => (batch <| contributions ::= <[id := contrib]> |>, fault_log)
    | None => (batch, faultlog_append id BatchDeserializationFailed fault_log)
    end) (mkBatch _ _ _ (es_epoch s) ∅, faultlog_new) plaintexts).
End epoch_state.

(** ** The algorithm *)
Record HoneyBadger {N : Type} `{NodeIdT N, Crypto, ReedSolomonLib} : Type := mkHB {
  netinfo : NetworkInfo N;
  session_id : u64;
  epoch : u64;
  has_input_flag : bool;
  epochs : gmap u64 (EpochState N);
  params : Params;
}.
Arguments HoneyBadger N {_ _ _}.
#[global] Instance HoneyBadger_settable {N} `{NodeIdT N, Crypto, ReedSolomonLib} :
    Settable (HoneyBadger N) := λ s,
  mkHB _ _ _ _ (netinfo s) (session_id s) (epoch s) (has_input_flag s) (epochs s) (params s).

Section hb.
Context {C N : Type} `{ord : NodeIdT N} `{crypto : Crypto} `{sha : Sha3}
  `{rse : ReedSolomonLib} `{bo : ByteOrder} `{sid : !SessionIdT (subset.BaSessionId EpochId)}
  `{bin_c : !Bincode C} `{bin_ct : !Bincode Ciphertext}.
Abbreviation State := (HoneyBadger N).
Abbreviation HStep := (Step (Message N) (Batch C N) N FaultKind).

Definition terminated (s : State) : bool := false.
Definition has_input (s : State) : bool := negb (is_validator (netinfo s)) || has_input_flag s.
Definition get_encryption_schedule (s : State) : EncryptionSchedule := encryption_schedule (params s).
Definition next_epoch (s : State) : u64 := epoch s.
Definition hb_max_future_epochs (s : State) : u64 := max_future_epochs (params s).
Definition received_proposals (s : State) : nat :=
  match epochs s !! epoch s with Some es => es_received_proposals es | None => 0 end.

Definition update_epoch : M State Error () :=
  modify (λ s, s <| epochs ::= delete (epoch s) |>);;
  modify (λ s, s <| epoch ::= λ e, u64_add e 1 |>);;
  modify (λ s, s <| has_input_flag := false |>).

(** The loop ends when the current epoch has no batch; every round removes an epoch. *)
Fixpoint try_output_batches_fuel (fuel : nat) (step : HStep) : M State Error HStep :=
  s ← get;
  match epochs s !! epoch s ≫= try_output_batch with
  | None => mret step
  | Some (batch, fault_log) =>
      match fuel with
      | 0 => no_fuel
      | S fuel =>
          let step := mkStep (output step ++ [batch])
            (faultlog_extend (Traits.fault_log step) fault_log) (messages step) in
          update_epoch;;
          try_output_batches_fuel fuel step
      end
  end.
Definition try_output_batches : M State Error HStep :=
  λ s, try_output_batches_fuel (size (epochs s)) step_default s.

(** A method of the state of an epoch, which is created if it is missing. *)
Definition on_epoch {A} (epoch : u64) (m : M (EpochState N) Error A) : M State Error A :=
  s ← get;
  es ← match epochs s !! epoch with
       | Some es => mret es
       | None =>
           require ← expect (use_on_epoch (encryption_schedule (params s)) epoch);
           of_sum (epoch_state_new (netinfo s) (session_id s) epoch
             (subset_handling_strategy (params s)) require)
       end;
  zoom (λ _, es) (λ es s, s <| epochs ::= <[epoch := es]> |>) m.

Definition propose (proposal : C) (rng : Rng) : M State Error (HStep * Rng) :=
  s ← get;
  if negb (is_validator (netinfo s)) then mret (step_default, rng)
  else
    modify (λ s, s <| has_input_flag := true |>);;
    '(step, rng) ← on_epoch (epoch s) (es_propose proposal rng);
    step' ← try_output_batches;
    mret (step_join step step', rng).

Definition handle_message (sender_id : N) (message : Message N) : M State Error HStep :=
  s ← get;
  if negb (is_node_validator (netinfo s) sender_id) then throw UnknownSender
  else
    let '(mkMessage _ _ epoch0 content) := message in
    if bool_decide (u64_add (epoch s) (max_future_epochs (params s)) < epoch0)%Z then
      mret (step_fault sender_id UnexpectedHbMessageEpoch)
    else if bool_decide (epoch0 < epoch s)%Z then mret step_default
    else
      step ← on_epoch epoch0 (handle_message_content sender_id content);
      step' ← try_output_batches;
      mret (step_join step step').
End hb.

(** ** The builder *)
Record HoneyBadgerBuilder {N : Type} `{NodeIdT N, Crypto} : Type := mkBuilder {
  b_netinfo : NetworkInfo N;
  b_session_id : u64;
  b_epoch : u64;
  b_params : Params;
}.
Arguments HoneyBadgerBuilder N {_ _}.
#[global] Instance HoneyBadgerBuilder_settable {N} `{NodeIdT N, Crypto} :
    Settable (HoneyBadgerBuilder N) := λ b,
  mkBuilder _ _ _ (b_netinfo b) (b_session_id b) (b_epoch b) (b_params b).

Section builder.
Context {N : Type} `{ord : NodeIdT N} `{crypto : Crypto} `{rse : ReedSolomonLib}.
Abbreviation Builder := (HoneyBadgerBuilder N).

Definition builder (ni : NetworkInfo N) : Builder := mkBuilder _ _ _ ni 0 0 params_default.
Definition set_session_id (id : u64) (b : Builder) : Builder := b <| b_session_id := id |>.
Definition set_epoch (e : u64) (b : Builder) : Builder := b <| b_epoch := e |>.
Definition set_max_future_epochs (n : u64) (b : Builder) : Builder :=
  b <| b_params ::= λ p, p <| max_future_epochs := n |> |>.
Definition set_subset_handling_strategy (s : SubsetHandlingStrategy) (b : Builder) : Builder :=
  b <| b_params ::= λ p, p <| subset_handling_strategy := s |> |>.
Definition set_encryption_schedule (s : EncryptionSchedule) (b : Builder) : Builder :=
  b <| b_params ::= λ p, p <| encryption_schedule := s |> |>.
Definition set_params (p : Params) (b : Builder) : Builder := b <| b_params := p |>.
Definition build (b : Builder) : HoneyBadger N :=
  mkHB _ _ _ _ (b_netinfo b) (b_session_id b) (b_epoch b) false ∅ (b_params b).
End builder.
End honey_badger.
