(* ===== verification/HbEpoch.v ===== *)
(** * Honey Badger: one epoch

    The contributions that the subset of an epoch outputs are decrypted and collected into
    a batch ([epoch_state.rs]).  [es_ok] relates the state of the epoch to the list of
    outputs that it has processed; [batch_of] is the batch that they amount to, which
    [try_output_batch] produces.  It does not when a contribution is not a valid
    ciphertext: then the epoch never ends ([HbStall]). *)
From S2P Require Import Prelude.
From S2P Require Import BTree.
From S2P Require Import Traits.
From S2P Require Import NetworkInfo.
From S2P Require Import Merkle.
From S2P Require Import Broadcast.
From S2P Require Import BinaryAgreement.
From S2P Require Import ThresholdDecrypt.
From S2P Require Import Subset.
From S2P Require Import HoneyBadger.

Module hb_epoch.
Import honey_badger.

(** The messages of the subset of an epoch *)
Definition cs_part {N} `{Crypto} (e : u64) (tm : TargetedMessage (Message N) N) :
    option (TargetedMessage (subset.Message N) N) :=
  match content (message tm) with
  | Subset m => if decide (msg_epoch (message tm) = e) then Some (TM (target tm) m) else None
  | DecryptionShare _ _ => None
  end.
Definition contributions_of {N} (l : list (subset.SubsetOutput N)) : list (N * bytes) :=
  omap (λ x, match x with subset.Contribution p v => Some (p, v) | subset.Done => None end) l.

Section epoch.
Context {C N : Type} `{ord : NodeIdT N} `{crypto : Crypto} `{sha : Sha3}
  `{rse : ReedSolomonLib} `{bo : ByteOrder} `{sid : !SessionIdT (subset.BaSessionId EpochId)}
  `{bin_c : !Bincode C} `{bin_ct : !Bincode Ciphertext} `{laws : !ThresholdEncLaws}.
Abbreviation EState := (EpochState N).
Abbreviation TdStep := (Step threshold_decrypt.Message bytes N threshold_decrypt.FaultKind).
Abbreviation CsStep := (Step (subset.Message N) (subset.SubsetOutput N) N subset.FaultKind).
Abbreviation HStep := (Step (Message N) (Batch C N) N FaultKind).
Abbreviation Outputs := (list (subset.SubsetOutput N)).
Implicit Types (s : EState) (l : Outputs) (hl : list (N * bytes)) (p : N) (v : bytes) (o : HStep).

(** The keys of the node, and whether the epoch's contributions are encrypted *)
Context (e : u64) (ni : NetworkInfo N) (require : bool).
Context (Hkeys : threshold_decrypt.state_ok (threshold_decrypt.new ni)).

(** The plaintext of a contribution *)
Definition plain v : option bytes :=
  if require then plaintext (public_key_set ni) <$> bin_deserialize v else Some v.
Definition batch_of hl : Batch C N :=
  mkBatch _ _ _ e (omap (λ v, pt ← plain v; bin_deserialize pt) (list_to_map hl : gmap N bytes)).

(** ** Decryption *)
Definition dec_rel hl p (d : DecryptionState N) : Prop :=
  match d with
  | DecComplete pt => ∃ v, (p, v) ∈ hl ∧ plain v = Some pt
  | DecOngoing td => threshold_decrypt.state_ok td ∧ threshold_decrypt.netinfo td = ni ∧
      match threshold_decrypt.ciphertext td with
      | None => True
      | Some ct => require = true ∧ threshold_decrypt.shares_valid td ∧
          ∃ v, (p, v) ∈ hl ∧ bin_deserialize v = Some ct
      end
  end.
Record dec_ok s hl : Prop := {
  d_epoch : es_epoch s = e;
  d_netinfo : es_netinfo s = ni;
  d_require : require_decryption s = require;
  d_dec p d : decryption s !! p = Some d → dec_rel hl p d;
}.

Lemma dec_rel_mono hl hl' p d : hl ⊆ hl' → dec_rel hl p d → dec_rel hl' p d.
Proof.
  intros Hsub. destruct d as [td|pt]; [|intros (v & ? & ?); exists v; split; [by apply Hsub|done]].
  intros (Hok & Hni & Hct). split_and!; [done..|]. destruct (threshold_decrypt.ciphertext td) as [ct|]; [|done].
  destruct Hct as (? & ? & v & ? & ?). split_and!; [done..|]. exists v. split; [by apply Hsub|done].
Qed.

Lemma dec_rel_new hl p : dec_rel hl p (dec_new ni).
Proof. unfold dec_new. by split_and!. Qed.

Lemma dec_rel_default s hl p : dec_ok s hl →
  dec_rel hl p (default (dec_new (es_netinfo s)) (decryption s !! p)).
Proof.
  intros Hs. destruct (decryption s !! p) as [d|] eqn:Hd; [by apply (d_dec _ _ Hs)|].
  rewrite (d_netinfo _ _ Hs). apply dec_rel_new.
Qed.

Lemma dec_ok_insert s hl p d : dec_ok s hl → dec_rel hl p d → dec_ok (s <| decryption ::= <[p := d]> |>) hl.
Proof.
  intros [] Hd. split; try done. intros q d' Hq.
  change (<[p := d]> (decryption s) !! q = Some d') in Hq.
  apply lookup_insert_Some in Hq as [[<- <-]|[_ Hq]]; [done|auto].
Qed.

(** No messages but decryption shares, no batches *)
Definition shares_only o : Prop := output o = [] ∧
  ∀ tm, tm ∈ messages o → ∃ p m, content (message tm) = DecryptionShare p m.
Lemma shares_only_default : shares_only step_default.
Proof. split; [done|]. by intros tm ?%elem_of_nil. Qed.
Lemma shares_only_extend o1 o2 : shares_only o1 → shares_only o2 → shares_only (step_extend o1 o2).
Proof.
  intros [Ho1 Hm1] [Ho2 Hm2]. split; [cbn; by rewrite Ho1, Ho2|]. intros tm [?|?]%elem_of_app; auto.
Qed.

(** The parts of the state that decryption does not touch *)
Record same_subset s s' : Prop := {
  ss_subset : es_subset s' = es_subset s;
  ss_handler : subset_handler s' = subset_handler s;
  ss_accepted : accepted_proposers s' = accepted_proposers s;
}.
Lemma same_subset_refl s : same_subset s s.
Proof. done. Qed.
Lemma same_subset_trans s1 s2 s3 : same_subset s1 s2 → same_subset s2 s3 → same_subset s1 s3.
Proof. intros [] []. split; congruence. Qed.

(** A step of the decryption *)
Definition td_step_rel hl p (d : DecryptionState N) (x : TdStep) : Prop :=
  dec_rel hl p d ∧ (output x = [] ∨ ∃ v pt, output x = [pt] ∧ (p, v) ∈ hl ∧ plain v = Some pt).

Lemma process_decryption_spec s hl p (x : TdStep) :
  dec_ok s hl → (output x = [] ∨ ∃ v pt, output x = [pt] ∧ (p, v) ∈ hl ∧ plain v = Some pt) →
  wp (process_decryption (C := C) p x) s
    (λ s' o, dec_ok s' hl ∧ shares_only o ∧ same_subset s s')
    (λ _ _, False).
Proof.
  intros Hs Hx. unfold process_decryption, extend_with. do 2 wp_step. cbn [messages step_default app].
  assert (Hm : shares_only (mkStep [] (faultlog_map DecryptionFault (fault_log x)) (tm_map (λ share,
    with_epoch (DecryptionShare p share) (es_epoch s)) <$> messages x))).
  { split; [done|]. intros tm (tm' & -> & _)%list_elem_of_fmap. by eexists _, _. }
  destruct Hx as [->|(v & pt & -> & Hv & Hpt)].
  - by apply wp_ret.
  - do 2 wp_step. apply wp_ret. split_and!; [|done..]. apply dec_ok_insert; [done|]. by exists v.
Qed.

Lemma dec_message_spec hl p d sender m :
  dec_rel hl p d → is_Some (node_index ni sender) →
  wp (dec_handle_message sender m) d (λ d' x, td_step_rel hl p d' x) (λ d' _, d' = d).
Proof.
  intros Hd Hs. unfold dec_handle_message. do 2 wp_step. destruct d as [td|pt].
  2: { apply wp_ret. by split; [|left]. }
  destruct Hd as (Hok & Hni & Hct). wp_step. destruct m as [share].
  eapply wp_mono; [by apply threshold_decrypt.td_handle_message_spec| |].
  - intros td' x ([Hni' Hct' Hval _ Hout] & Hok' & _).
    assert (Hd' : dec_rel hl p (DecOngoing td')).
    { split_and!; [done|congruence|]. rewrite Hct'. destruct (threshold_decrypt.ciphertext td) as [ct|]; [|done].
      destruct Hct as (? & ? & ?). split_and!; [done|auto|done]. }
    split; [done|]. destruct Hout as [?|(ct & Hc & Hout & _)]; [by left|right].
    rewrite Hc in Hct. destruct Hct as (Hr & _ & v & Hv & Hdes).
    eexists v, _. split; [exact Hout|]. split; [done|]. unfold plain. by rewrite Hr, Hdes, Hni.
  - intros td' err [[_ _ _ He] Hu].
    assert (Hvalid : threshold_decrypt.shares_valid td).
    { destruct (threshold_decrypt.ciphertext td) as [ct|] eqn:Hc; [apply Hct|].
      intros id i sh _. unfold threshold_decrypt.is_share_valid. by rewrite Hc. }
    destruct err; try done; [by rewrite He|by destruct He as [-> _]].
Qed.

(** Our own share for a contribution that is processed for the first time *)
Lemma dec_set_ciphertext_spec hl p v d ct :
  dec_rel hl p d → p ∉ hl.*1 → require = true → bin_deserialize v = Some ct →
  wp (dec_set_ciphertext ct) d (λ d' x, ct_verify ct = true ∧ td_step_rel (hl ++ [(p, v)]) p d' x)
    (λ d' err, d' = d ∧ ct_verify ct = false ∧ err = threshold_decrypt.InvalidCiphertext ct).
Proof.
  intros Hd Hp Hr Hdes. unfold dec_set_ciphertext. do 2 wp_step.
  assert (Hnot : ∀ u, (p, u) ∉ hl) by (intros u Hin; apply Hp, list_elem_of_fmap; by exists (p, u)).
  destruct d as [td|pt]; [|destruct Hd as (u & Hin & _); by destruct (Hnot u)].
  destruct Hd as ([Hb Ht] & Hni & Hct).
  destruct (threshold_decrypt.ciphertext td) as [ct0|] eqn:Hc.
  { destruct Hct as (_ & _ & u & Hin & _). by destruct (Hnot u). }
  assert (Hin : threshold_decrypt.had_input td = false).
  { apply not_true_iff_false. intros Hi. destruct (threshold_decrypt.st_input _ Hb Hi) as [[? ?] _]. congruence. }
  wp_step. wp_step. unfold threshold_decrypt.set_ciphertext. do 2 wp_step. rewrite Hc.
  destruct (decide (is_Some None)) as [[? ?]|_]; [done|]. destruct (ct_verify ct) eqn:Hv; cbn [negb].
  - wp_step. set (td1 := td <| threshold_decrypt.ciphertext := Some ct |>).
    assert (Hok1 : threshold_decrypt.state_ok td1).
    { split; [destruct Hb; split; try done|]; cbn; try done; by rewrite Hin. }
    eapply wp_mono; [by apply (threshold_decrypt.start_with_ciphertext td1 ct)| |done].
    intros td' x ([Hni' Hct' _ _ Hout] & Hok' & Hval). split; [done|].
    assert (Hpv : (p, v) ∈ hl ++ [(p, v)]) by (apply elem_of_app; right; by left).
    split.
    + split_and!; [done|by rewrite Hni'|]. rewrite Hct'. cbn. split_and!; [done..|by exists v].
    + destruct Hout as [?|(ct' & [= <-] & Hout & _)]; [by left|right]. eexists v, _. split; [exact Hout|].
      split; [done|]. unfold plain. rewrite Hr, Hdes. cbn. by rewrite Hni.
  - apply wp_throw. done.
Qed.

Lemma dec_ok_mono s hl hl' : hl ⊆ hl' → dec_ok s hl → dec_ok s hl'.
Proof. intros Hsub []. split; try done. intros p d Hd. by eapply dec_rel_mono, d_dec0. Qed.

Lemma send_share_spec s hl p v :
  dec_ok s hl → p ∉ hl.*1 → require = true →
  wp (send_decryption_share (C := C) p v) s
    (λ s' o, dec_ok s' (hl ++ [(p, v)]) ∧ shares_only o ∧ same_subset s s') (λ _ _, False).
Proof.
  intros Hs Hp Hr. unfold send_decryption_share.
  assert (Hsub : hl ⊆ hl ++ [(p, v)]) by (intros x ?; apply elem_of_app; by left).
  assert (Hsh : ∀ k, shares_only (step_fault p k)) by (split; [done|by intros tm ?%elem_of_nil]).
  destruct (bin_deserialize v) as [ct|] eqn:Hdes.
  2: { apply wp_ret. split_and!; [by eapply dec_ok_mono|done|done]. }
  pose proof (dec_set_ciphertext_spec hl p v _ ct (dec_rel_default s hl p Hs) Hp Hr Hdes) as Hwp.
  unfold wp, on_decryption, zoom in *.
  destruct (dec_set_ciphertext ct _) as [d x|d err| |]; [| |done..].
  - destruct Hwp as (_ & Hd & Hx).
    pose proof (process_decryption_spec (s <| decryption ::= <[p := d]> |>) (hl ++ [(p, v)]) p x) as Hwp2.
    unfold wp in Hwp2. destruct (process_decryption p x _) as [s2 o|s2 err| |].
    + destruct Hwp2 as (Hs2 & Ho & Hss); [by apply dec_ok_insert; [by eapply dec_ok_mono|]|done|]. split_and!; [done..|].
      eapply same_subset_trans; [|exact Hss]. done.
    + destruct Hwp2; [by apply dec_ok_insert; [by eapply dec_ok_mono|]|done].
    + destruct Hwp2; [by apply dec_ok_insert; [by eapply dec_ok_mono|]|done].
    + destruct Hwp2; [by apply dec_ok_insert; [by eapply dec_ok_mono|]|done].
  - destruct Hwp as (-> & _ & ->). split_and!; [|apply Hsh|done].
    apply dec_ok_insert; [by eapply dec_ok_mono|]. eapply dec_rel_mono; [done|by apply dec_rel_default].
Qed.

Lemma plain_contribution s hl p v : dec_ok s hl → require = false →
  dec_ok (s <| decryption ::= <[p := DecComplete v]> |>) (hl ++ [(p, v)]).
Proof.
  intros Hs Hr. apply dec_ok_insert.
  - eapply dec_ok_mono, Hs. intros x ?. apply elem_of_app. by left.
  - exists v. split; [apply elem_of_app; right; by left|]. unfold plain. by rewrite Hr.
Qed.

(** The contributions [hl] have been processed. *)
Definition processed s hl : Prop := dec_ok s hl ∧ accepted_proposers s = list_to_set hl.*1.

Lemma handle_contributions_spec s hl cs o :
  processed s hl → NoDup (hl ++ cs).*1 →
  wp (handle_contributions (C := C) o cs) s
    (λ s' o', processed s' (hl ++ cs) ∧ es_subset s' = es_subset s ∧ subset_handler s' = subset_handler s ∧
      ∃ o2, o' = step_extend o o2 ∧ shares_only o2) (λ _ _, False).
Proof.
  intros Hs Hnd. unfold handle_contributions.
  eapply wp_mono_ok; [apply (wp_for_acc _ (λ rem s' o', ∃ hl', hl ++ cs = hl' ++ rem ∧ processed s' hl' ∧
    es_subset s' = es_subset s ∧ subset_handler s' = subset_handler s ∧
    ∃ o2, o' = step_extend o o2 ∧ shares_only o2))|].
  - exists hl. split_and!; [done..|]. exists step_default. split; [|apply shares_only_default].
    by rewrite (step_join_default_r o : step_extend o _ = _).
  - intros [p v] rem s1 o1 (hl' & Heq & [Hd Ha] & Hsub & Hh & o2 & -> & Ho2). do 3 wp_step.
    assert (Hp : p ∉ hl'.*1).
    { rewrite Heq, fmap_app in Hnd. apply NoDup_app in Hnd as (_ & Hnd & _). intros Hin.
      apply (Hnd p Hin). by left. }
    eapply (wp_mono_ok _ _ (λ s2 x, dec_ok s2 (hl' ++ [(p, v)]) ∧ shares_only x ∧ same_subset s1 s2)).
    + rewrite (d_require _ _ Hd). destruct require eqn:Hr; [by apply send_share_spec|].
      do 2 wp_step. apply wp_ret. split_and!; [by apply plain_contribution|apply shares_only_default|done].
    + intros s2 x (Hd2 & Hx & [Hs2 Hh2 Ha2]). do 2 wp_step. apply wp_ret.
      exists (hl' ++ [(p, v)]). split_and!.
      * by rewrite <- app_assoc.
      * split; [by destruct Hd2|]. cbn. rewrite Ha2, Ha, fmap_app, list_to_set_app_L. cbn. set_solver.
      * cbn. congruence.
      * cbn. congruence.
      * exists (step_extend o2 x). split; [exact (eq_sym (step_join_assoc o o2 x))|].
        by apply shares_only_extend.
  - intros s' o' (hl' & Heq & Hs' & ?). rewrite app_nil_r in Heq. by subst hl'.
Qed.

Lemma finish_subset_spec s hl o :
  processed s hl → wp (finish_subset (C := C) o) s
    (λ s' o', processed s' hl ∧ es_subset s' = SubComplete (list_to_set hl.*1) ∧
      subset_handler s' = subset_handler s ∧ output o' = output o ∧ messages o' = messages o) (λ _ _, False).
Proof.
  intros [Hd Ha]. unfold finish_subset. do 4 wp_step.
  eapply wp_mono_ok; [apply (wp_for_acc _ (λ _ s' o', processed s' hl ∧ es_subset s' = SubComplete (list_to_set hl.*1) ∧
      subset_handler s' = subset_handler s ∧ output o' = output o ∧ messages o' = messages o))|].
  - split_and!; try done; [split; [by destruct Hd|done]|]. cbn. by rewrite Ha.
  - intros p rem s1 o1 ([Hd1 Ha1] & Hsub & Hh & Ho & Hm). do 4 wp_step.
    assert (Hp : processed (s1 <| decryption ::= delete p |>) hl).
    { split; [|done]. destruct Hd1. split; try done. intros q d Hq.
      change (delete p (decryption s1) !! q = Some d) in Hq. apply lookup_delete_Some in Hq as [_ Hq]. auto. }
    destruct (decryption s1 !! p) as [[td|]|]; apply wp_ret; done.
  - done.
Qed.

(** ** The outputs of the subset *)
Definition es_ok s l : Prop :=
  let cl := contributions_of l in
  match es_subset s with
  | SubOngoing _ => subset.Done ∉ l ∧
      match subset_handler s with
      | HandleIncremental => processed s cl
      | HandleAllAtEnd cs => processed s [] ∧ cs = cl
      end
  | SubComplete ids => subset.Done ∈ l ∧ processed s cl ∧ ids = list_to_set cl.*1
  end.
(** What a subset outputs: one contribution per proposer, and [Done] at the end. *)
Definition outs_wf l : Prop := NoDup (contributions_of l).*1 ∧
  ∀ l1 l2, l = l1 ++ subset.Done :: l2 → l2 = [].

Lemma es_ok_dec s l : es_ok s l → dec_ok s (contributions_of l).
Proof.
  unfold es_ok. destruct (es_subset s) as [cs|ids]; [|by intros (_ & [? _] & _)].
  intros [_ Hh]. destruct (subset_handler s) as [|cs']; [apply Hh|]. destruct Hh as [[Hd _] _].
  eapply dec_ok_mono, Hd. by intros x ?%elem_of_nil.
Qed.

Lemma contributions_snoc l p v : contributions_of (l ++ [subset.Contribution p v]) = contributions_of l ++ [(p, v)].
Proof. unfold contributions_of. by rewrite omap_app. Qed.
Lemma contributions_done l : contributions_of (l ++ [subset.Done]) = contributions_of l.
Proof. unfold contributions_of. by rewrite omap_app, app_nil_r. Qed.

Lemma shares_only_part o e' : shares_only o → omap (cs_part e') (messages o) = [].
Proof.
  intros [_ Hm]. induction (messages o) as [|tm ms IH]; [done|]. destruct (Hm tm) as (p & m & Hc); [by left|].
  cbn. unfold cs_part at 1. rewrite Hc. apply IH. intros tm' ?. apply Hm. by right.
Qed.

(** One output *)
Definition handle_output o (x : subset.SubsetOutput N) : M EState Error HStep :=
  s ← get;
  let '(h, (contributions, is_done)) := subset_handle x (subset_handler s) in
  modify (λ s, s <| subset_handler := h |>);;
  step ← handle_contributions o contributions;
  if is_done then finish_subset step else mret step.

(** Steps that add decryption shares and faults *)
Definition adds_shares o o' : Prop := output o' = output o ∧
  ∀ e', omap (cs_part e') (messages o') = omap (cs_part e') (messages o).
Lemma adds_shares_extend o o2 : shares_only o2 → adds_shares o (step_extend o o2).
Proof.
  intros Hs. split; [cbn; by rewrite (proj1 Hs), app_nil_r|]. intros e'. cbn.
  by rewrite omap_app, (shares_only_part o2 e' Hs), app_nil_r.
Qed.

Lemma output_contribution s l p v o :
  es_ok s l → (∃ cs, es_subset s = SubOngoing cs) → NoDup (contributions_of (l ++ [subset.Contribution p v])).*1 →
  wp (handle_output o (subset.Contribution p v)) s
    (λ s' o', es_ok s' (l ++ [subset.Contribution p v]) ∧ es_subset s' = es_subset s ∧ adds_shares o o') (λ _ _, False).
Proof.
  rewrite contributions_snoc. intros Hs [cs Hcs] Hnd. unfold es_ok in Hs. rewrite Hcs in Hs. destruct Hs as [Hd Hh].
  assert (Hd' : subset.Done ∉ l ++ [subset.Contribution p v]) by (rewrite elem_of_app, list_elem_of_singleton; naive_solver).
  unfold handle_output. do 2 wp_step. unfold subset_handle. destruct (subset_handler s) as [|pend]; do 3 wp_step.
  - set (s1 := s <| subset_handler := _ |>).
    assert (Hs1 : processed s1 (contributions_of l)) by (destruct Hh as [[] ?]; by split).
    eapply wp_mono; [by apply (handle_contributions_spec s1 (contributions_of l) [(p, v)])| |done].
    intros s2 o' (Hp & Hsub & Hh2 & o2 & -> & Ho2). apply wp_ret. split_and!; [|done|by apply adds_shares_extend].
    unfold es_ok. rewrite Hsub, Hh2. cbn. rewrite Hcs. split; [done|]. by rewrite contributions_snoc.
  - unfold handle_contributions. cbn [for_acc]. do 2 apply wp_ret. split_and!; [|done|by split].
    unfold es_ok. cbn. rewrite Hcs. split; [done|]. rewrite contributions_snoc.
    destruct Hh as [[[] ?] ->]. by split.
Qed.

Lemma output_done s l o :
  es_ok s l → (∃ cs, es_subset s = SubOngoing cs) → NoDup (contributions_of l).*1 →
  wp (handle_output o subset.Done) s
    (λ s' o', es_ok s' (l ++ [subset.Done]) ∧ (∃ ids, es_subset s' = SubComplete ids) ∧ adds_shares o o') (λ _ _, False).
Proof.
  intros Hs [cs Hcs] Hnd. unfold es_ok in Hs. rewrite Hcs in Hs. destruct Hs as [Hd Hh].
  assert (Hend : ∀ s1 o1, processed s1 (contributions_of l) → adds_shares o o1 →
    wp (finish_subset o1) s1 (λ s' o', es_ok s' (l ++ [subset.Done]) ∧ (∃ ids, es_subset s' = SubComplete ids) ∧
      adds_shares o o') (λ _ _, False)).
  { intros s1 o1 Hp [Ho Hm]. eapply wp_mono; [by apply finish_subset_spec| |done].
    intros s2 o2 (Hp2 & Hsub & _ & Ho2 & Hm2). split_and!; [|by eexists|split; [congruence|by rewrite Hm2]].
    unfold es_ok. rewrite Hsub, contributions_done. split_and!; [apply elem_of_app; right; by left|done..]. }
  unfold handle_output. do 2 wp_step. unfold subset_handle. destruct (subset_handler s) as [|pend]; do 3 wp_step.
  - unfold handle_contributions. cbn [for_acc]. apply wp_ret. apply Hend; [|by split]. destruct Hh as [[] ?]. by split.
  - set (s1 := s <| subset_handler := _ |>). destruct Hh as [[[] ?] ->].
    eapply wp_mono; [apply (handle_contributions_spec s1 [] (contributions_of l)); [by split|done]| |done].
    intros s2 o' (Hp & Hsub & Hh2 & o2 & -> & Ho2). apply Hend; [done|by apply adds_shares_extend].
Qed.

Lemma cs_part_wrap e' (ms : list (TargetedMessage (subset.Message N) N)) :
  omap (cs_part e') (tm_map (λ m, with_epoch (Subset m) e) <$> ms) = if decide (e' = e) then ms else [].
Proof.
  induction ms as [|[t m] ms IH]; [by case_decide|]. cbn. unfold cs_part at 1. cbn.
  destruct (decide (e' = e)) as [->|Hne].
  - rewrite decide_True by done. f_equal. exact IH.
  - rewrite decide_False by congruence. exact IH.
Qed.

(** What a call of the subset leads to *)
Lemma process_subset_spec s l (x : CsStep) :
  es_ok s l → outs_wf (l ++ output x) → (output x ≠ [] → ∃ cs, es_subset s = SubOngoing cs) →
  wp (process_subset (C := C) x) s
    (λ s' o, es_ok s' (l ++ output x) ∧ output o = [] ∧
      (∀ cs, es_subset s' = SubOngoing cs → es_subset s = SubOngoing cs) ∧
      (subset.Done ∈ output x → ∃ ids, es_subset s' = SubComplete ids) ∧
      ∀ e', omap (cs_part e') (messages o) = if decide (e' = e) then messages x else []) (λ _ _, False).
Proof.
  intros Hs [Hnd Hdone] Hsub. unfold process_subset, extend_with. do 2 wp_step.
  set (o0 := mkStep _ _ _).
  assert (Ho0 : output o0 = [] ∧ ∀ e', omap (cs_part e') (messages o0) = if decide (e' = e) then messages x else []).
  { split; [done|]. intros e'. unfold o0. cbn. rewrite (d_epoch _ _ (es_ok_dec _ _ Hs)). apply cs_part_wrap. }
  change (wp (for_acc handle_output o0 (output x)) s
    (λ s' o, es_ok s' (l ++ output x) ∧ output o = [] ∧
      (∀ cs, es_subset s' = SubOngoing cs → es_subset s = SubOngoing cs) ∧
      (subset.Done ∈ output x → ∃ ids, es_subset s' = SubComplete ids) ∧
      ∀ e', omap (cs_part e') (messages o) = if decide (e' = e) then messages x else []) (λ _ _, False)).
  eapply wp_mono_ok; [apply (wp_for_acc _ (λ rem s' o', ∃ l1, output x = l1 ++ rem ∧ es_ok s' (l ++ l1) ∧
    adds_shares o0 o' ∧ (∀ cs, es_subset s' = SubOngoing cs → es_subset s = SubOngoing cs) ∧
    (rem ≠ [] → ∃ cs, es_subset s' = SubOngoing cs) ∧ (subset.Done ∈ l1 → ∃ ids, es_subset s' = SubComplete ids)))|].
  - exists []. rewrite app_nil_r. split_and!; try done. by intros ?%elem_of_nil.
  - intros y rem s1 o1 (l1 & Heq & Hok & Hadd & Hback & Hongoing & Hd). destruct Hongoing as [cs Hcs]; [done|].
    assert (Hnd1 : NoDup (contributions_of ((l ++ l1) ++ [y])).*1).
    { rewrite Heq, (app_assoc l l1 (y :: rem)), (cons_middle y (l ++ l1) rem), (app_assoc (l ++ l1) [y] rem) in Hnd.
      unfold contributions_of in Hnd. rewrite omap_app, fmap_app in Hnd. by apply NoDup_app in Hnd as [? _]. }
    assert (Htr : ∀ o2, adds_shares o1 o2 → adds_shares o0 o2).
    { destruct Hadd as [Ha1 Ha2]. intros o2 [Hb1 Hb2]. split; [congruence|]. intros e'. by rewrite Hb2, Ha2. }
    destruct y as [p v|].
    + eapply wp_mono; [apply (output_contribution s1 (l ++ l1) p v o1); [done|by eexists|done]| |done].
      intros s2 o2 (Hok2 & Hsub2 & Hadd2). exists (l1 ++ [subset.Contribution p v]).
      rewrite <- !(app_assoc l1), (app_assoc l). split_and!; [done| |auto|..].
      * by rewrite <- app_assoc in Hok2 |- *.
      * intros cs' Hcs'. apply Hback. congruence.
      * intros _. exists cs. congruence.
      * rewrite elem_of_app, list_elem_of_singleton. intros [Hin|[=]]. rewrite Hsub2. by apply Hd.
    + eapply wp_mono; [apply (output_done s1 (l ++ l1) o1); [done|by eexists|]| |done].
      { by rewrite contributions_done in Hnd1. }
      intros s2 o2 (Hok2 & [ids Hids] & Hadd2).
      assert (Hrem : rem = []) by (apply (Hdone (l ++ l1) rem); by rewrite Heq, app_assoc). subst rem.
      exists (l1 ++ [subset.Done]). rewrite app_nil_r, app_assoc. split_and!; [done|done|auto|congruence|done|by eexists].
  - intros s' o' (l1 & Heq & Hok & [Ha1 Ha2] & Hback & _ & Hd). rewrite app_nil_r in Heq. subst l1.
    split_and!; [done|by rewrite Ha1; apply Ho0|done|done|]. intros e'. rewrite Ha2. apply Ho0.
Qed.

(** ** Decryption shares *)
Definition handled s l : list (N * bytes) :=
  match es_subset s, subset_handler s with
  | SubOngoing _, HandleAllAtEnd _ => []
  | _, _ => contributions_of l
  end.
Lemma es_ok_handled s l : es_ok s l → dec_ok s (handled s l).
Proof.
  unfold es_ok, handled. destruct (es_subset s); [|by intros (_ & [? _] & _)].
  destruct (subset_handler s); [by intros (_ & ? & _)|by intros (_ & [? _] & _)].
Qed.
Lemma es_ok_same s s' l : same_subset s s' → dec_ok s' (handled s l) → es_ok s l → es_ok s' l.
Proof.
  intros [Hs Hh Ha] Hd. unfold es_ok, handled, processed in *. rewrite Hs, Hh, Ha.
  destruct (es_subset s); [|naive_solver]. destruct (subset_handler s); naive_solver.
Qed.

Lemma decryption_share_spec s l sender p m :
  es_ok s l → is_Some (node_index ni sender) →
  wp (handle_message_content (C := C) sender (DecryptionShare p m)) s
    (λ s' o, es_ok s' l ∧ shares_only o ∧ same_subset s s') (λ s' _, es_ok s' l ∧ same_subset s s').
Proof.
  intros Hs Hsender. pose proof (es_ok_handled s l Hs) as Hd. unfold handle_message_content. do 2 wp_step.
  match goal with |- wp (if ?b then _ else _) _ _ _ => destruct b end.
  { apply wp_ret. split_and!; [done| |done]. split; [done|]. by intros tm ?%elem_of_nil. }
  wp_step. unfold on_decryption. do 2 wp_step.
  eapply wp_mono; [by apply (dec_message_spec (handled s l) p); [apply dec_rel_default|]| |].
  - intros d x [Hrel Hx]. eapply wp_mono; [apply (process_decryption_spec _ (handled s l)); [by apply dec_ok_insert|done]| |done].
    intros s2 o (Hd2 & Ho & Hss).
    assert (Hss' : same_subset s s2) by (eapply same_subset_trans, Hss; done).
    split_and!; [|done..]. by eapply es_ok_same.
  - intros d err ->. split; [|done]. eapply es_ok_same; [| |exact Hs]; [done|].
    apply dec_ok_insert; [done|by apply dec_rel_default].
Qed.

(** ** The batch *)
Lemma batch_fold (pts : list (N * bytes)) (b0 b : Batch C N) (fl0 fl : FaultLog N FaultKind) :
  NoDup pts.*1 → contributions b0 = ∅ →
  foldl (λ '(batch, fault_log) '(id, plaintext),
    match bin_deserialize plaintext with
    | Some contrib => (batch <| contributions ::= <[id := contrib]> |>, fault_log)
    | None => (batch, faultlog_append id BatchDeserializationFailed fault_log)
    end) (b0, fl0) pts = (b, fl) →
  batch_epoch b = batch_epoch b0 ∧ contributions b = omap bin_deserialize (list_to_map pts : gmap N bytes).
Proof.
  intros Hnd H0. revert b fl. induction pts as [|[p pt] pts IH] using rev_ind; intros b fl.
  { intros [= <- <-]. split; [done|]. rewrite H0. symmetry. apply omap_empty. }
  rewrite fmap_app in Hnd. apply NoDup_app in Hnd as (Hnd & Hp & _).
  rewrite foldl_app. cbn [foldl]. destruct (foldl _ _ pts) as [b1 fl1]. destruct (IH Hnd b1 fl1 eq_refl) as [He Hc].
  rewrite list_to_map_snoc by (intros Hin; apply (Hp p Hin); by left). cbn [fst] in *.
  destruct (bin_deserialize pt) as [c|] eqn:Hd; intros [= <- <-]; cbn.
  - split; [done|]. rewrite Hc. by rewrite (omap_insert_Some _ _ _ _ c).
  - split; [done|]. rewrite Hc, omap_insert_None by done. symmetry. apply delete_id.
    rewrite lookup_omap. rewrite not_elem_of_list_to_map_1; [done|]. intros Hin. apply (Hp p Hin). by left.
Qed.

Lemma collect_lookup s ids pts : NoDup ids → collect_plaintexts s ids = Some pts →
  pts.*1 = ids ∧ ∀ p pt, (p, pt) ∈ pts → decryption s !! p = Some (DecComplete pt).
Proof.
  intros _. unfold collect_plaintexts. rewrite mapM_Some. induction 1 as [|id [p pt] ids pts Hid _ [IH1 IH2]].
  - split; [done|]. by intros p pt ?%elem_of_nil.
  - destruct (decryption s !! id) as [[|pt']|] eqn:Hd; try done. injection Hid as -> ->. split; [cbn; congruence|].
    intros q qt [[= -> ->]|?]%elem_of_cons; [done|auto].
Qed.

Lemma try_output_batch_spec s l (b : Batch C N) fl :
  es_ok s l → outs_wf l → try_output_batch s = Some (b, fl) →
  subset.Done ∈ l ∧ b = batch_of (contributions_of l).
Proof.
  intros Hs [Hnd _] Hb. unfold try_output_batch, accepted_ids in Hb. unfold es_ok in Hs.
  destruct (es_subset s) as [cs|ids] eqn:Hsub; [done|]. destruct Hs as (Hdone & [Hd Ha] & ->). split; [done|].
  cbn in Hb. destruct (collect_plaintexts s _) as [pts|] eqn:Hc; [|done]. cbn in Hb.
  apply collect_lookup in Hc as [Hk Hpts]; [|apply NoDup_set_items].
  assert (Hndp : NoDup pts.*1) by (rewrite Hk; apply NoDup_set_items).
  destruct (batch_fold pts (mkBatch _ _ _ (es_epoch s) ∅) b faultlog_new fl Hndp eq_refl) as [He Hcon];
    [by injection Hb|].
  destruct b as [be bc]. cbn in He, Hcon. unfold batch_of. f_equal; [by rewrite He, (d_epoch _ _ Hd)|].
  rewrite Hcon. apply map_eq. intros q. rewrite !lookup_omap.
  destruct (list_to_map (contributions_of l) !! q) as [v|] eqn:Hv; cbn.
  - apply elem_of_list_to_map_2 in Hv.
    assert (Hq : q ∈ pts.*1).
    { rewrite Hk, elem_of_set_items, elem_of_list_to_set. apply list_elem_of_fmap. by exists (q, v). }
    apply list_elem_of_fmap in Hq as ([q' pt] & Hq & Hin). cbn in Hq. subst q'.
    rewrite (elem_of_list_to_map_1 _ _ pt) by done. cbn.
    destruct (d_dec _ _ Hd _ _ (Hpts _ _ Hin)) as (v' & Hv' & Hplain).
    assert (v' = v) as ->.
    { pose proof (elem_of_list_to_map_1 (M := gmap N) _ _ _ Hnd Hv) as H1.
      pose proof (elem_of_list_to_map_1 (M := gmap N) _ _ _ Hnd Hv') as H2. rewrite H1 in H2. by injection H2. }
    by rewrite Hplain.
  - rewrite not_elem_of_list_to_map_1; [done|]. rewrite Hk, elem_of_set_items, elem_of_list_to_set.
    by apply (not_elem_of_list_to_map_2 (M := gmap N)).
Qed.
End epoch.
End hb_epoch.
