(* ===== verification/HbNet.v ===== *)
(** * Honey Badger in a network

    What [src/honey_badger/mod.rs] promises, for a network ([Net]) of validators that run
    [HoneyBadger], at most [f] of them faulty, [3 f < N]: all correct nodes output the same
    sequence of batches.  The network refines a network of [Subset] instances for every
    epoch ([eview]), and the batch of an epoch is what the contributions amount to that its
    subset has output ([HbEpoch.hb_epoch.batch_of]).  An epoch that wraps around 2^64 is
    excluded ([overflown]): the nodes would then start over at epoch 0. *)
From S2P Require Import Prelude.
From S2P Require Import BTree.
From S2P Require Import Traits.
From S2P Require Import Net.
From S2P Require Import NetworkInfo.
From S2P Require Import Merkle.
From S2P Require Import Broadcast.
From S2P Require Import ThresholdSign.
From S2P Require Import BinaryAgreement.
From S2P Require Import BaAgreement.
From S2P Require Import ThresholdDecrypt.
From S2P Require Import Subset.
From S2P Require Import SubsetNet.
From S2P Require Import HoneyBadger.
From S2P Require Import HbEpoch.

Module hb_net.
Import honey_badger.
Import hb_epoch.

(** Whether a schedule panics does not depend on the epoch. *)
Lemma usable_any sch e : use_on_epoch sch 0 ≠ None → is_Some (use_on_epoch sch e).
Proof. destruct sch; cbn; intros H; try done; by case_decide. Qed.
Lemma usable_none sch e : use_on_epoch sch 0 = None → use_on_epoch sch e = None.
Proof. destruct sch; cbn; intros H; try done; by case_decide. Qed.

Section net.
Context {C N : Type} `{ord : NodeIdT N} `{crypto : Crypto} `{sha : Sha3}
  `{rse : ReedSolomonLib} `{bo : ByteOrder} `{sid : !SessionIdT (subset.BaSessionId EpochId)}
  `{bin_c : !Bincode C} `{bin_ct : !Bincode Ciphertext}
  `{rse_laws : !ReedSolomonLaws} `{bo_laws : !ByteOrderLaws} `{sig_laws : !ThresholdSigLaws}
  `{enc_laws : !ThresholdEncLaws} `{share_eq : !EqDecision SignatureShare}
  `{dec_eq : !EqDecision NetworkInfo.DecryptionShare}.
Context (pubs : gmap N PublicKey) (correct : gset N) (pks : PublicKeySet).
(** The session, the first epoch and the encryption schedule of all nodes *)
Context (hb_id e0 : u64) (sched : EncryptionSchedule).
Abbreviation f := ((size pubs - 1) / 3).
Abbreviation State := (HoneyBadger N).
Abbreviation EState := (EpochState N).
Abbreviation CsStep := (Step (subset.Message N) (subset.SubsetOutput N) N subset.FaultKind).
Abbreviation CsInstance := (subset.Subset N EpochId).
Abbreviation Outputs := (list (subset.SubsetOutput N)).
Abbreviation HStep := (Step (Message N) (Batch C N) N FaultKind).
Abbreviation CsWorld := (Net.world N CsInstance bytes (subset.Message N) (subset.SubsetOutput N)).
Abbreviation HbWorld := (Net.world N State (C * Rng) (Message N) (Batch C N)).
Implicit Types (w : HbWorld) (sw : CsWorld) (i j k p : N) (e : u64) (s : State) (es : EState) (o : HStep)
  (outs : list (Batch C N)) (cs : CsInstance) (l : Outputs) (ni : NetworkInfo N).

Definition hb_input (x : C * Rng) : M State Error HStep := '(step, _) ← propose x.1 x.2; mret step.
Definition require e : bool := default false (use_on_epoch sched e).
(** The keys of the node [i] *)
Record keys_ok i ni : Prop := {
  k_wf : netinfo_wf ni;
  k_id : our_id ni = i;
  k_pubs : public_keys ni = pubs;
  k_pks : public_key_set ni = pks;
  k_threshold : sig_threshold pks = num_faulty ni;
  k_share : is_Some (secret_key_share ni) → is_validator ni = true;
  k_dec : threshold_decrypt.state_ok (threshold_decrypt.new ni);
  k_subset e : ∃ cs, subset.new ni (mkEpochId hb_id e) = inr cs;
}.
Definition hb_initial w : Prop := w_sent w = [] ∧ ∀ i, i ∈ correct →
  w_input w i = [] ∧ w_out w i = [] ∧ ∃ ni ps, w_node w i = build (mkBuilder _ _ _ ni hb_id e0 ps) ∧
    encryption_schedule ps = sched ∧ (0 ≤ max_future_epochs ps)%Z ∧ keys_ok i ni.
Abbreviation reachable := (Net.reachable hb_input handle_message (λ _, true) correct hb_initial).
Abbreviation validator := (ba_agreement.validator pubs).
Abbreviation cs_reachable e := (Net.reachable subset.propose subset.handle_message validator correct
  (subset_net.cs_initial pubs correct pks (mkEpochId hb_id e))).

Context (Hcorrect : correct ⊆ dom pubs) (Hbyz : size (dom pubs ∖ correct) ≤ f).
Context (Hser : ∀ (id : subset.BaSessionId EpochId) e, is_Some (serialize_coin_id id e)).
Context (He0 : (0 ≤ e0)%Z).

(** ** The network of an epoch *)
Abbreviation couts sw i := ((w_out sw i).*1).
(** The state of an epoch fits the state of the subset instance and its outputs. *)
Definition es_fits e ni es cs l : Prop := es_ok e ni (require e) es l ∧
  ∀ cs', es_subset es = SubOngoing cs' → cs' = cs.
Definition batch_at e ni l : Batch C N := batch_of e ni (require e) (contributions_of l).
Definition epoch_rel e s outs cs l : Prop :=
  match epochs s !! e with
  | Some es => es_fits e (netinfo s) es cs l
  | None => (e < epoch s)%Z ∨ (l = [] ∧ subset.new (netinfo s) (mkEpochId hb_id e) = inr cs)
  end ∧
  ∀ b n, outs !! n = Some b → e = (e0 + Z.of_nat n)%Z → subset.Done ∈ l ∧ b = batch_at e (netinfo s) l.

Record node_ok i s outs : Prop := {
  n_keys : keys_ok i (netinfo s);
  n_sched : encryption_schedule (params s) = sched;
  n_session : session_id s = hb_id;
  n_epoch : epoch s = (e0 + Z.of_nat (length outs))%Z;
  n_small : (epoch s < 2 ^ 64)%Z;
  n_max : (0 ≤ max_future_epochs (params s))%Z;
  n_epochs e : is_Some (epochs s !! e) → (epoch s ≤ e ≤ epoch s + max_future_epochs (params s))%Z;
}.

(** What is proposed to the subset for a contribution *)
Definition encodes e (c : C) (v : bytes) : Prop := ∃ ser, bin_serialize c = Some ser ∧
  if require e then ∃ rng, bin_serialize (pk_encrypt_with_rng (pk_set_public_key pks) rng ser).1 = Some v
  else v = ser.

(** The node has proposed in the epoch, or left it. *)
Definition proposed e s : Prop := (e < epoch s)%Z ∨ (e = epoch s ∧ has_input_flag s = true).

Record eview e w sw : Prop := {
  v_reach : cs_reachable e sw;
  v_node i : i ∈ correct → epoch_rel e (w_node w i) (w_out w i).*1 (w_node sw i) (couts sw i);
  v_sent i t m : (i, TM t m) ∈ w_sent sw ↔ (i, TM t (with_epoch (Subset m) e)) ∈ w_sent w;
  v_input i v : v ∈ w_input sw i → ∃ x, x ∈ w_input w i ∧ encodes e x.1 v;
  v_proposed i v : i ∈ correct → v ∈ w_input sw i → proposed e (w_node w i);
}.

Lemma cs_inv_of e sw : cs_reachable e sw →
  subset_net.cs_inv pubs correct pks (mkEpochId hb_id e) sw.
Proof. by apply subset_net.cs_reachable_inv. Qed.

Lemma contributions_proposers l : (contributions_of l).*1 = subset_net.proposers l.
Proof. induction l as [|[p v|] l IH]; [done|cbn; f_equal; exact IH|exact IH]. Qed.

Lemma couts_wf e sw i : cs_reachable e sw → i ∈ correct → outs_wf (couts sw i).
Proof.
  intros Hr%cs_inv_of Hi. split.
  - rewrite contributions_proposers. apply (subset_net.proposers_NoDup pubs correct Hbyz). intros p.
    by apply (subset_net.contribs_once pubs correct pks (mkEpochId hb_id e) Hbyz sw Hr).
  - intros l1 l2 Hl. pose proof (subset_net.ni_outputs _ _ _ _ (subset_net.cs_node _ _ _ _ _ Hr i Hi)) as Ho.
    unfold subset_net.outputs_ok in Ho. destruct (subset.decided (w_node sw i)).
    + destruct Ho as ((l' & Hl' & Hc) & _). rewrite Hl in Hl'.
      destruct l2 as [|x l2 _] using rev_ind; [done|]. rewrite app_comm_cons, app_assoc in Hl'.
      apply app_inj_tail in Hl' as [Hl' _]. destruct (Hc subset.Done) as (p & v & [=] & _).
      rewrite <- Hl'. apply elem_of_app. right. by left.
    + destruct (Ho subset.Done) as (p & v & [=] & _). rewrite Hl. apply elem_of_app. right. by left.
Qed.

(** ** A call of one node *)
Section call.
Context (i : N) (Hi : i ∈ correct).

(** In the network of the epoch, the node has done at most one event. *)
Record moved e (ins : list bytes) sw o sw' : Prop := {
  mv_reach : cs_reachable e sw';
  mv_sent : w_sent sw' = w_sent sw ++ (pair i <$> omap (cs_part e) (messages o));
  mv_ne k : k ≠ i → w_node sw' k = w_node sw k ∧ w_out sw' k = w_out sw k;
  mv_input k v : v ∈ w_input sw' k → v ∈ w_input sw k ∨ (k = i ∧ v ∈ ins);
}.
(** A method of the state of an epoch *)
Definition es_post e ni ins sw es o : Prop := output o = [] ∧ (∀ e', e' ≠ e → omap (cs_part e') (messages o) = []) ∧
  ∃ sw', moved e ins sw o sw' ∧ es_fits e ni es (w_node sw' i) (couts sw' i).

Lemma hb_moved_refl e ins sw o : cs_reachable e sw → omap (cs_part e) (messages o) = [] → moved e ins sw o sw.
Proof. intros Hr Ho. split; try done; [by rewrite Ho, app_nil_r|by left]. Qed.

(** A method of the subset instance, and what it outputs *)
Definition sub_call (g : subset.Error → Error) (m : M CsInstance subset.Error CsStep) : M EState Error HStep :=
  cs_step ← zoom es_subset (λ t (x : EState), x <| es_subset := t |>)
    (x ← get;
     match x with
     | SubOngoing cs => map_err g (zoom (λ _, cs) (λ cs _, SubOngoing cs) m)
     | SubComplete _ => mret step_default
     end);
  process_subset cs_step.

Lemma es_fits_complete e ni es cs cs' l : es_fits e ni es cs l → (∀ cs, es_subset es ≠ SubOngoing cs) →
  es_fits e ni es cs' l.
Proof. intros [Hok _] Hn. split; [done|]. intros cs2 Hc. by destruct (Hn cs2). Qed.

Lemma sub_call_spec e ni ins sw ev g m es :
  keys_ok i ni → cs_reachable e sw → Net.allowed validator correct sw ev = true →
  exec subset.propose subset.handle_message sw ev = commit sw i ins (m (w_node sw i)) →
  es_fits e ni es (w_node sw i) (couts sw i) →
  wp (sub_call g m) es (es_post e ni ins sw) (λ es' _, es_post e ni [] sw es' step_default).
Proof.
  intros Hk Hr Ha Hev [Hok Hcs].
  destruct (subset_net.cs_exec_inv _ _ _ _ Hcorrect Hbyz (λ p e, Hser _ _) sw ev (cs_inv_of e sw Hr) Ha)
    as (sw' & He & _).
  assert (Hr' : cs_reachable e sw') by (by eapply reach_step).
  unfold sub_call. destruct (es_subset es) as [cs|ids] eqn:Hsub.
  - rewrite (Hcs cs eq_refl) in *. rewrite Hev in He. apply commit_acts in He.
    wp_step. wp_step. rewrite Hsub. do 4 wp_step. unfold wp at 1.
    destruct (m (w_node sw i)) as [cs' x|cs' err| |]; [| |done..].
    + set (es1 := es <| es_subset := SubOngoing cs' |>).
      assert (Hok1 : es_ok e ni (require e) es1 (couts sw i)).
      { unfold es_ok, es1 in *. rewrite Hsub in Hok. destruct Hok as [? Hh]. cbn. split; [done|].
        destruct (subset_handler es); [by destruct Hh as [[] ?]|by destruct Hh as [[[] ?] ?]]. }
      pose proof (process_subset_spec (C := C) e ni (require e) (k_dec _ _ Hk) es1 (couts sw i) x Hok1) as Hwp.
      rewrite <- (a_out _ _ _ _ _ _ He) in Hwp.
      refine (wp_mono _ _ _ _ _ _ (Hwp (couts_wf e sw' i Hr' Hi) _) _ _); [by eexists| |done].
      intros es' o (Hok' & Ho & Hback & _ & Hm). split; [done|]. split.
      { intros e' Hne. rewrite Hm. by rewrite decide_False. }
      exists sw'. split.
      * split; [done| |split; [by apply He|by apply He]|intros k v; apply He].
        rewrite Hm, decide_True by done. apply He.
      * split; [done|]. intros cs2 Hc2. rewrite (a_node _ _ _ _ _ _ He). apply Hback in Hc2. cbn in Hc2. congruence.
    + split; [done|]. split; [done|]. exists sw'. split.
      * split; [done|apply He|split; by apply He|intros k v; apply He].
      * rewrite (a_node _ _ _ _ _ _ He), (a_out _ _ _ _ _ _ He). cbn. rewrite app_nil_r. split; [|by intros cs2 [= ->]].
        unfold es_ok in *. rewrite Hsub in Hok. destruct Hok as [? Hh]. cbn. split; [done|].
        destruct (subset_handler es); [by destruct Hh as [[] ?]|by destruct Hh as [[[] ?] ?]].
  - wp_step. wp_step. rewrite Hsub. wp_step. wp_step. wp_step.
    assert (Hes : es <| es_subset := SubComplete ids |> = es) by (destruct es; cbn in *; by subst). rewrite Hes.
    pose proof (process_subset_spec (C := C) e ni (require e) (k_dec _ _ Hk) es (couts sw i) step_default Hok) as Hwp.
    cbn in Hwp. rewrite app_nil_r in Hwp.
    refine (wp_mono _ _ _ _ _ _ (Hwp (couts_wf e sw i Hr Hi) _) _ _); [done| |done].
    intros es' o (Hok' & Ho & Hback & _ & Hm). split; [done|].
    assert (Hnil : ∀ e', omap (cs_part e') (messages o) = []) by (intros e'; rewrite Hm; by case_decide).
    split; [done|]. exists sw. split; [by apply hb_moved_refl|]. split; [done|]. intros cs2 Hc2%Hback. congruence.
Qed.
Lemma es_post_refl e ni sw es : cs_reachable e sw → es_fits e ni es (w_node sw i) (couts sw i) →
  es_post e ni [] sw es step_default.
Proof. intros Hr Hes. split; [done|]. split; [done|]. exists sw. split; [by apply hb_moved_refl|done]. Qed.

Lemma content_sub j m : handle_message_content (C := C) j (Subset m) =
  sub_call HandleSubsetMessage (subset.handle_message j m).
Proof. reflexivity. Qed.

Lemma content_spec e ni j c sw es :
  keys_ok i ni → cs_reachable e sw → is_Some (node_index ni j) →
  (∀ m, c = Subset m → Net.allowed validator correct sw (Deliver i j m) = true) →
  es_fits e ni es (w_node sw i) (couts sw i) →
  wp (handle_message_content (C := C) j c) es (es_post e ni [] sw) (λ es' _, es_post e ni [] sw es' step_default).
Proof.
  intros Hk Hr Hj Ha Hes. destruct c as [m|p m].
  - rewrite content_sub. exact (sub_call_spec e ni [] sw (Deliver i j m) _ _ es Hk Hr (Ha m eq_refl) eq_refl Hes).
  - destruct Hes as [Hok Hcs].
    assert (Hfit : ∀ es', es_ok e ni (require e) es' (couts sw i) → same_subset es es' →
      es_fits e ni es' (w_node sw i) (couts sw i)).
    { intros es' ? [Hs _ _]. split; [done|]. intros cs'. rewrite Hs. apply Hcs. }
    eapply wp_mono; [apply (decryption_share_spec (C := C) e ni (require e) (k_dec _ _ Hk) es (couts sw i) j p m Hok Hj)| |].
    + intros es' o (Hok' & Ho & Hss). split; [apply Ho|].
      assert (Hnil : ∀ e', omap (cs_part e') (messages o) = []) by (intros e'; by apply (shares_only_part (C := C))).
      split; [done|]. exists sw. split; [by apply hb_moved_refl|auto].
    + intros es' err (Hok' & Hss). apply es_post_refl; auto.
Qed.

Lemma es_propose_spec e ni (c : C) rng sw es :
  keys_ok i ni → cs_reachable e sw → es_fits e ni es (w_node sw i) (couts sw i) →
  wp (es_propose c rng) es (λ es' x, ∃ v, encodes e c v ∧ es_post e ni [v] sw es' x.1)
    (λ es' _, es_post e ni [] sw es' step_default).
Proof.
  intros Hk Hr Hes. pose proof (es_ok_dec _ _ _ _ _ (proj1 Hes)) as Hd.
  pose proof (es_post_refl e ni sw es Hr Hes) as Hrefl.
  unfold es_propose. wp_step. apply wp_ok_or; [|done]. intros ser Hser_c. do 2 wp_step.
  assert (Hsub : ∀ v (r : Rng), encodes e c v →
    wp (cs_step ← zoom es_subset (λ t (x : EState), x <| es_subset := t |>) (sub_handle_input v);
      step ← process_subset (C := C) cs_step; mret (step, r)) es
    (λ es' x, ∃ v, encodes e c v ∧ es_post e ni [v] sw es' x.1) (λ es' _, es_post e ni [] sw es' step_default)).
  { intros v r Hv. pose proof (sub_call_spec e ni [v] sw (Input i v) InputSubset (subset.propose v) es Hk Hr
      (proj2 (allowed_input _ _ sw i v) Hi) eq_refl Hes) as Hwp.
    apply wp_bind_inv in Hwp. wp_step. refine (wp_mono _ _ _ _ _ _ Hwp _ _); [|done].
    intros es' x Hx. wp_step. refine (wp_mono _ _ _ _ _ _ Hx _ _); [|done].
    intros es2 o Ho. apply wp_ret. by exists v. }
  rewrite (d_require _ _ _ _ _ Hd), (d_netinfo _ _ _ _ _ Hd), (k_pks _ _ Hk).
  wp_step. destruct (require e) eqn:Hreq.
  - destruct (pk_encrypt_with_rng _ rng ser) as [ct rng'] eqn:Hct. wp_step. apply wp_ok_or; [|done]. intros v Hv.
    wp_step. apply (Hsub v rng'). exists ser. split; [done|]. rewrite Hreq. exists rng. by rewrite Hct.
  - wp_step. apply (Hsub ser rng). exists ser. split; [done|]. by rewrite Hreq.
Qed.
(** *** The state of the algorithm *)
Record same_node s s' : Prop := {
  sn_netinfo : netinfo s' = netinfo s;
  sn_session : session_id s' = session_id s;
  sn_epoch : epoch s' = epoch s;
  sn_params : params s' = params s;
}.
Lemma same_node_trans s1 s2 s3 : same_node s1 s2 → same_node s2 s3 → same_node s1 s3.
Proof. intros [] []. split; congruence. Qed.
Lemma node_ok_same s s' outs : node_ok i s outs → same_node s s' →
  (∀ e, is_Some (epochs s' !! e) → (epoch s ≤ e ≤ epoch s + max_future_epochs (params s))%Z) → node_ok i s' outs.
Proof. intros [] [Hni Hse He Hp] Hep. split; rewrite ?Hni, ?Hse, ?He, ?Hp; done. Qed.
Lemma epoch_rel_same e s s' outs cs l : same_node s s' → epochs s' !! e = epochs s !! e →
  epoch_rel e s outs cs l → epoch_rel e s' outs cs l.
Proof. intros [Hni _ He _] Heq. unfold epoch_rel. by rewrite Heq, Hni, He. Qed.
(** A call in the epoch [e], before batches are output *)
Definition epoch_post e ins s sw outs s' o : Prop := output o = [] ∧ same_node s s' ∧
  has_input_flag s' = has_input_flag s ∧
  (∀ e', e' ≠ e → omap (cs_part e') (messages o) = [] ∧ epochs s' !! e' = epochs s !! e') ∧
  is_Some (epochs s' !! e) ∧
  ∃ sw', moved e ins sw o sw' ∧ epoch_rel e s' outs (w_node sw' i) (couts sw' i).

Lemma epoch_new_spec e ni strategy cs :
  subset.new ni (mkEpochId hb_id e) = inr cs →
  ∃ es, epoch_state_new ni hb_id e strategy (require e) = inr es ∧ es_fits e ni es cs [].
Proof.
  intros Hnew. unfold epoch_state_new. rewrite Hnew. eexists. split; [reflexivity|].
  split; [|by intros cs' [= ->]]. unfold es_ok. cbn. split; [by intros ?%elem_of_nil|].
  assert (Hd : processed e ni (require e) (mkEpochState _ _ _ _ e ni (SubOngoing cs) ∅ ∅
    (subset_handler_of strategy) (require e)) []).
  { split; [|done]. split; try done. }
  destruct strategy; [done|by split].
Qed.

Lemma no_past e s outs b n : node_ok i s outs → (epoch s ≤ e)%Z → outs !! n = Some b → e ≠ (e0 + Z.of_nat n)%Z.
Proof. intros Hn He Hb%lookup_lt_Some ->. rewrite (n_epoch _ _ _ Hn) in He. lia. Qed.

Context (Hsched : ∀ e, is_Some (use_on_epoch sched e)).
Lemma on_epoch_any {A} (R : A → HStep) e (P : list bytes → Prop) s sw outs (m : M EState Error A) :
  node_ok i s outs → (epoch s ≤ e)%Z → cs_reachable e sw → epoch_rel e s outs (w_node sw i) (couts sw i) →
  (∀ es, es_fits e (netinfo s) es (w_node sw i) (couts sw i) →
    wp m es (λ es' a, ∃ vs, P vs ∧ es_post e (netinfo s) vs sw es' (R a)) (λ es' _, es_post e (netinfo s) [] sw es' step_default)) →
  wp (on_epoch e m) s (λ s' a, ∃ vs, P vs ∧ epoch_post e vs s sw outs s' (R a))
    (λ s' _, epoch_post e [] s sw outs s' step_default).
Proof.
  intros Hn He Hr [Hes _] Hm.
  assert (Hpost : ∀ ins' es' o, es_post e (netinfo s) ins' sw es' o →
    epoch_post e ins' s sw outs (s <| epochs ::= <[e := es']> |>) o).
  { intros ins' es' o (Ho & Hne & sw' & Hmv & Hfit). split_and!; [done..| |cbn; by rewrite lookup_insert_eq|].
    - intros e' He'. split; [by apply Hne|]. cbn. by rewrite lookup_insert_ne.
    - exists sw'. split; [done|]. unfold epoch_rel. cbn. rewrite lookup_insert_eq. split; [done|].
      intros b n Hb Heq. by destruct (no_past e s outs b n Hn He Hb). }
  unfold on_epoch. do 2 wp_step. rewrite (n_sched _ _ _ Hn), (n_session _ _ _ Hn).
  assert (Hput : ∀ es, es_fits e (netinfo s) es (w_node sw i) (couts sw i) →
    wp (zoom (λ _ : State, es) (λ x (y : State), y <| epochs ::= <[e := x]> |>) m) s
      (λ s' a, ∃ vs, P vs ∧ epoch_post e vs s sw outs s' (R a)) (λ s' _, epoch_post e [] s sw outs s' step_default)).
  { intros es Hfit. wp_step. eapply wp_mono; [by apply Hm| |intros; by apply Hpost].
    intros es' a (vs & ? & ?). exists vs. split; [done|by apply Hpost]. }
  wp_step. destruct (epochs s !! e) as [es|] eqn:Hl.
  - apply wp_ret. by apply Hput.
  - destruct Hes as [?|[Hc Hnew]]; [lia|]. destruct (Hsched e) as [r Hreq].
    wp_step. apply wp_expect. exists r. split; [done|].
    destruct (epoch_new_spec e (netinfo s) (subset_handling_strategy (params s)) _ Hnew) as (es & Hes & Hfit).
    assert (Hr' : require e = r) by (unfold require; by rewrite Hreq). rewrite Hr' in Hes. rewrite Hes.
    apply wp_ret. apply Hput. by rewrite Hc.
Qed.

(** *** The batches *)
Definition over outs : Prop := (2 ^ 64 ≤ e0 + Z.of_nat (length outs))%Z.
Lemma over_app outs outs' : over outs → over (outs ++ outs').
Proof. unfold over. rewrite length_app. lia. Qed.

(** The networks of all epochs, as seen by this node *)
Definition fits s outs (V : u64 → CsWorld → Prop) : Prop := node_ok i s outs ∧
  ∀ e sw, V e sw → epoch_rel e s outs (w_node sw i) (couts sw i).

Lemma fits_output s outs (V : u64 → CsWorld → Prop) es (b : Batch C N) fl :
  (∀ e sw, V e sw → cs_reachable e sw) → (∀ e, ∃ sw, V e sw) → fits s outs V →
  epochs s !! epoch s = Some es → try_output_batch es = Some (b, fl) →
  over (outs ++ [b]) ∨ fits (s <| epochs ::= delete (epoch s) |> <| epoch ::= λ e, u64_add e 1 |>
    <| has_input_flag := false |>) (outs ++ [b]) V.
Proof.
  intros HV Htot [Hn Hrel] Hes Hb. destruct (decide (over (outs ++ [b]))) as [|Hnot]; [by left|right].
  unfold over in Hnot. rewrite length_app in Hnot. cbn in Hnot. pose proof (n_epoch _ _ _ Hn) as Hep.
  assert (Hadd : u64_add (epoch s) 1 = (epoch s + 1)%Z).
  { unfold u64_add, wrap64. apply Z.mod_small. lia. }
  split.
  - destruct Hn. split; cbn; try done.
    + rewrite Hadd, length_app. cbn. lia.
    + rewrite Hadd. lia.
    + intros e [es' [Hne He]%lookup_delete_Some]. rewrite Hadd. specialize (n_epochs0 e (mk_is_Some _ _ He)). lia.
  - intros e sw Hv. destruct (Hrel e sw Hv) as [Hcase Hbs]. unfold epoch_rel. cbn. split.
    + destruct (decide (e = epoch s)) as [->|Hne].
      * rewrite lookup_delete_eq. left. rewrite Hadd. lia.
      * rewrite lookup_delete_ne by done. destruct (epochs s !! e); [done|].
        destruct Hcase as [?|?]; [left|by right]. rewrite Hadd. lia.
    + intros b' n [Hl|[Hle Hl]]%lookup_app_Some He; [by apply (Hbs b' n)|].
      apply list_lookup_singleton_Some in Hl as [Hl <-].
      assert (He' : e = epoch s) by lia. clear He. subst e. rewrite Hes in Hcase. destruct Hcase as [Hok _].
      apply (try_output_batch_spec (C := C) _ _ _ _ _ _ fl Hok); [|done]. eapply couts_wf, Hi. by apply HV.
Qed.
Lemma batches_spec fuel (V : u64 → CsWorld → Prop) s o outs :
  (∀ e sw, V e sw → cs_reachable e sw) → (∀ e, ∃ sw, V e sw) →
  over outs ∨ fits s outs V → size (epochs s) ≤ fuel →
  wp (try_output_batches_fuel fuel o) s (λ s' o', ∃ bs, output o' = output o ++ bs ∧ messages o' = messages o ∧
    (bs = [] → s' = s) ∧ (bs ≠ [] → has_input_flag s' = false) ∧ (over (outs ++ bs) ∨ fits s' (outs ++ bs) V)) (λ _ _, False).
Proof.
  intros HV Htot. revert s o outs. induction fuel as [|fuel IH]; intros s o outs Hs Hfuel.
  all: cbn [try_output_batches_fuel]; do 2 wp_step.
  all: destruct (epochs s !! epoch s) as [es|] eqn:Hes; cbn [mbind option_bind];
    [|apply wp_ret; exists []; by rewrite !app_nil_r].
  all: destruct (try_output_batch es) as [[b fl]|] eqn:Hb;
    [|apply wp_ret; exists []; by rewrite !app_nil_r].
  - exfalso. apply Nat.le_0_r, map_size_empty_inv in Hfuel. rewrite Hfuel, lookup_empty in Hes. done.
  - unfold update_epoch. do 3 wp_step. do 2 wp_step. wp_step.
    match goal with |- wp (try_output_batches_fuel fuel ?x) ?y _ _ =>
      assert (Hwp : wp (try_output_batches_fuel fuel x) y (λ s' o', ∃ bs, output o' = output x ++ bs ∧
        messages o' = messages x ∧ (bs = [] → s' = y) ∧ (bs ≠ [] → has_input_flag s' = false) ∧ (over ((outs ++ [b]) ++ bs) ∨ fits s' ((outs ++ [b]) ++ bs) V)) (λ _ _, False)) end.
    { apply IH.
      - destruct Hs as [Hov|Hfit]; [left; by apply over_app|]. by eapply fits_output.
      - cbn. rewrite map_size_delete, Hes. lia. }
    refine (wp_mono _ _ _ _ _ _ Hwp _ _); [|done]. intros s' o' (bs & Ho & Hm & Hno & Hfl & Hcase).
    exists (b :: bs). rewrite <- app_assoc in Hcase. split_and!; [|done..| |done].
    + rewrite Ho. cbn. by rewrite <- app_assoc.
    + intros _. destruct bs; [by rewrite Hno|by apply Hfl].
Qed.

Lemma moved_messages e vs sw o o' sw' : messages o' = messages o → moved e vs sw o sw' → moved e vs sw o' sw'.
Proof. intros Hm []. split; try done. by rewrite Hm. Qed.

(** *** The public methods *)
Section public.
Context (w : HbWorld).
Abbreviation s0 := (w_node w i).
Abbreviation outs := ((w_out w i).*1).
Context (Hn : node_ok i s0 outs) (Hviews : ∀ e, ∃ sw, eview e w sw).
Implicit Types ins : list (C * Rng).
(** The epochs whose messages the node handles *)
Definition in_window e : Prop := (epoch s0 ≤ e ≤ epoch s0 + max_future_epochs (params s0))%Z.

Definition inputs_of e ins (vs : list bytes) : Prop := ∀ v, v ∈ vs → ∃ x, x ∈ ins ∧ encodes e x.1 v.
(** In every epoch, the node has done at most one event of the epoch's network. *)
Definition nmoved ins s' o e sw' : Prop := ∃ sw vs, eview e w sw ∧ moved e vs sw o sw' ∧ inputs_of e ins vs ∧
  (vs ≠ [] → e = epoch s0 ∧ proposed e s').
Definition later s s' : Prop := ∀ e, proposed e s → proposed e s'.
Definition node_event ins s' o : Prop := over (outs ++ output o) ∨ (node_ok i s' (outs ++ output o) ∧ later s0 s' ∧
  (output o ≠ [] → has_input_flag s' = false) ∧
  ∀ e, ∃ sw', nmoved ins s' o e sw' ∧ epoch_rel e s' (outs ++ output o) (w_node sw' i) (couts sw' i)).

Lemma eview_rel e sw : eview e w sw → epoch_rel e s0 outs (w_node sw i) (couts sw i).
Proof. intros Hv. by apply (v_node _ _ _ Hv). Qed.

Definition flag_kept s s' : Prop := has_input_flag s = true → has_input_flag s' = true.
Lemma same_later s s' : same_node s s' → flag_kept s s' → later s s'.
Proof. unfold later, proposed. intros [_ _ -> _] Hf e [?|[? ?%Hf]]; auto. Qed.

Lemma node_event_refl ins o : output o = [] → messages o = [] → node_event ins s0 o.
Proof.
  intros Ho Hm. right. rewrite Ho, app_nil_r. split_and!; [done|by intros e|done|].
  intros e. destruct (Hviews e) as [sw Hv]. exists sw. split; [|by apply eview_rel].
  exists sw, []. split_and!; [done| |by intros v ?%elem_of_nil|done]. apply hb_moved_refl; [apply Hv|by rewrite Hm].
Qed.

(** A call in the epoch [e], in a state [s] that differs from [s0] in the flag for the input *)
Record starts e ins vs s : Prop := {
  st_same : same_node s0 s;
  st_flag : flag_kept s0 s;
  st_epochs : epochs s = epochs s0;
  st_window : in_window e;
  st_inputs : inputs_of e ins vs;
  st_proposes : vs ≠ [] → e = epoch s0 ∧ has_input_flag s = true;
}.

Lemma epoch_post_event e ins vs s sw s1 o1 :
  starts e ins vs s → eview e w sw →
  epoch_post e vs s sw outs s1 o1 → output o1 = [] ∧ node_ok i s1 outs ∧ later s0 s1 ∧
  ∀ e', ∃ sw', nmoved ins s1 o1 e' sw' ∧ epoch_rel e' s1 outs (w_node sw' i) (couts sw' i).
Proof.
  intros [Hs Hf He Hle Hvs Hpr] Hv (Ho & Hs' & Hfl & Hother & Hsome & sw' & Hmv & Hrel). split_and!; [done| | |].
  - apply (node_ok_same s0); [done|by eapply same_node_trans|]. intros e' He'.
    destruct (decide (e' = e)) as [->|Hne]; [done|]. destruct (Hother e' Hne) as [_ Heq].
    rewrite Heq, He in He'. by apply (n_epochs _ _ _ Hn).
  - apply same_later; [by eapply same_node_trans|]. unfold flag_kept. by rewrite Hfl.
  - intros e'. destruct (decide (e' = e)) as [->|Hne].
    + exists sw'. split; [exists sw, vs; split_and!; [done..|]|done]. intros [-> Hflag]%Hpr. split; [done|].
      right. by rewrite Hfl, (sn_epoch _ _ Hs'), (sn_epoch _ _ Hs).
    + destruct (Hother e' Hne) as [Hnil Heq]. destruct (Hviews e') as [sw2 Hv2]. exists sw2. split.
      * exists sw2, []. split_and!; [done| |by intros v ?%elem_of_nil|done]. apply hb_moved_refl; [apply Hv2|done].
      * apply (epoch_rel_same e' s0); [by eapply same_node_trans|by rewrite Heq, He|by apply eview_rel].
Qed.

Lemma epoch_err_event e s sw s1 :
  starts e [] [] s → eview e w sw →
  epoch_post e [] s sw outs s1 step_default → node_event [] s1 step_default.
Proof.
  intros Hs Hv Hp. destruct (epoch_post_event e [] [] s sw s1 step_default Hs Hv Hp) as (Ho & Hok & Hl & Hall).
  right. cbn. by rewrite app_nil_r.
Qed.

Lemma output_call e ins vs s sw s1 o1 :
  starts e ins vs s → eview e w sw → epoch_post e vs s sw outs s1 o1 →
  wp (try_output_batches (C := C)) s1 (λ s2 o2, node_event ins s2 (step_join o1 o2)) (λ _ _, False).
Proof.
  intros Hs Hv Hp. destruct (epoch_post_event e ins vs s sw s1 o1 Hs Hv Hp) as (Ho & Hok & Hl & Hall).
  set (V := λ e' sw', nmoved ins s1 o1 e' sw' ∧ epoch_rel e' s1 outs (w_node sw' i) (couts sw' i)).
  eapply wp_mono; [apply (batches_spec _ V s1 step_default outs)| |done].
  - intros e' sw' [(sw2 & ? & _ & Hmv & _) _]. apply Hmv.
  - exact Hall.
  - right. split; [done|]. by intros e' sw' [_ ?].
  - done.
  - intros s2 o2 (bs & Hout & Hmsg & Hnone & Hfl & Hcase).
    assert (Hbs : output (step_join o1 o2) = bs) by (cbn; by rewrite Ho, Hout).
    assert (Hms : messages (step_join o1 o2) = messages o1) by (cbn; by rewrite Hmsg, app_nil_r).
    unfold node_event. rewrite Hbs. destruct Hcase as [?|[Hok2 Hrel2]]; [by left|right].
    assert (Hlater : later s1 s2).
    { destruct bs as [|b bs]; [rewrite Hnone by done; by intros e'|]. pose proof (n_epoch _ _ _ Hok) as He1.
      pose proof (n_epoch _ _ _ Hok2) as He2. rewrite length_app in He2. cbn in He2.
      intros e' [?|[? _]]; left; lia. }
    split_and!; [done|intros e' He'; by apply Hlater, Hl|done|].
    intros e'. destruct (Hall e') as (sw' & Hnm & Hr). exists sw'. split; [|by apply Hrel2].
    destruct Hnm as (sw2 & vs2 & ? & ? & ? & Hpr). exists sw2, vs2. split_and!; [done|by eapply moved_messages|done|].
    intros [? ?%Hlater]%Hpr. done.
Qed.

Lemma input_call x : wp (hb_input x) s0 (node_event [x]) (λ s' _, node_event [] s' step_default).
Proof.
  destruct x as [c rng]. unfold hb_input, propose. do 3 wp_step. cbn [fst snd]. destruct (is_validator _); cbn [negb].
  2: { do 2 apply wp_ret. by apply node_event_refl. }
  do 2 wp_step. destruct (Hviews (epoch s0)) as [sw Hv]. set (s := s0 <| has_input_flag := true |>).
  assert (Hns : node_ok i s outs) by (by destruct Hn). pose proof (n_keys _ _ _ Hn) as Hk.
  assert (Hle : in_window (epoch s0)) by (pose proof (n_max _ _ _ Hn); unfold in_window; lia).
  wp_step. eapply wp_mono; [apply (on_epoch_any (λ y : HStep * Rng, y.1) (epoch s0) (λ vs, inputs_of (epoch s0) [(c, rng)] vs) s sw outs);
    [done|done|apply Hv|by apply eview_rel|]| |].
  - intros es Hes. eapply wp_mono; [by apply (es_propose_spec (epoch s0) (netinfo s0) c rng sw); [|apply Hv|]| |done].
    intros es' y (v & Hv' & Hp). exists [v]. split; [|done]. intros v' ->%list_elem_of_singleton.
    exists (c, rng). split; [by left|done].
  - intros s1 [o1 rng'] (vs & Hvs & Hp). cbn [fst] in Hp. wp_step.
    eapply wp_mono; [by eapply (output_call (epoch s0) [(c, rng)] vs s sw)| |done].
    intros s2 o2 Hev. by do 2 apply wp_ret.
  - intros s1 err Hp. eapply (epoch_err_event (epoch s0) s sw); [|done..]. split; [done|by intros ?|done|done|by intros ? ?%elem_of_nil|done].
Qed.

Lemma hb_message_call j msg :
  Net.allowed (λ _, true) correct w (Deliver i j msg) = true →
  wp (handle_message (C := C) j msg) s0 (node_event []) (λ s' _, node_event [] s' step_default).
Proof.
  intros (_ & Hj & _ & Hs)%allowed_deliver_iff. unfold handle_message. do 2 wp_step.
  assert (Hnil : ∀ e, in_window e → starts e [] [] s0) by (intros e ?; split; [done|by intros ?|done|done|by intros ? ?%elem_of_nil|done]).
  destruct (is_node_validator _ _) eqn:Hval; cbn [negb]; [|apply wp_throw; by apply node_event_refl].
  destruct msg as [e c]. cbn match. wp_step; [apply wp_ret; by apply node_event_refl|].
  wp_step; [apply wp_ret; by apply node_event_refl|].
  apply bool_decide_eq_false in E, E0. destruct (Hviews e) as [sw Hv]. pose proof (n_keys _ _ _ Hn) as Hk.
  assert (Hle : in_window e).
  { pose proof (n_max _ _ _ Hn). pose proof (n_epoch _ _ _ Hn). unfold in_window. split; [lia|].
    etrans; [apply Z.nlt_ge, E|]. apply Z.mod_le; lia. }
  wp_step. eapply wp_mono; [apply (on_epoch_any id e (.= []) s0 sw outs); [done|apply Hle|apply Hv|by apply eview_rel|]| |].
  - intros es Hes. eapply wp_mono; [apply (content_spec e (netinfo s0) j c sw); [done|apply Hv| | |done]| |done].
    + by apply (wf_node_index_validator _ (k_wf _ _ Hk)).
    + intros m ->. apply allowed_deliver_iff. split_and!; [done|done| |].
      * unfold ba_agreement.validator. unfold is_node_validator in Hval. by rewrite (k_pubs _ _ Hk) in Hval.
      * intros Hc. destruct (Hs Hc) as ([t m'] & Hin & Hm & Hto). cbn in Hm, Hto. subst m'.
        exists (TM t m). split; [|done]. by apply (v_sent _ _ _ Hv).
    + intros es' o Hp. by exists [].
  - intros s1 o1 (vs & -> & Hp). wp_step. eapply wp_mono; [exact (output_call e [] [] s0 sw s1 o1 (Hnil e Hle) Hv Hp)| |done].
    intros s2 o2 Hev. by apply wp_ret.
  - intros s1 err Hp. exact (epoch_err_event e s0 sw s1 (Hnil e Hle) Hv Hp).
Qed.
End public.
End call.

(** ** The invariant of the network *)
Record good w : Prop := {
  g_node i : i ∈ correct → node_ok i (w_node w i) (w_out w i).*1;
  g_view i e : i ∈ correct → ∃ sw, eview e w sw;
}.
(** A correct node has output so many batches that its epoch has wrapped around. *)
Definition overflown w : Prop := ∃ i, i ∈ correct ∧ over (w_out w i).*1.

Lemma cs_part_elem e t m (ms : list (TargetedMessage (Message N) N)) :
  TM t m ∈ omap (cs_part e) ms ↔ TM t (with_epoch (Subset m) e) ∈ ms.
Proof.
  rewrite list_elem_of_omap. split.
  - intros ([t' [e' [m'|]]] & Hin & Hc); unfold cs_part in Hc; cbn in Hc; [|done].
    case_decide; [|done]. by simplify_eq.
  - intros Hin. exists (TM t (with_epoch (Subset m) e)). split; [done|]. unfold cs_part. cbn. by rewrite decide_True.
Qed.

Lemma eview_step w w' i ins s' o e sw sw' vs :
  i ∈ correct → acts w w' i ins s' o → eview e w sw → moved i e vs sw o sw' → inputs_of e ins vs →
  (vs ≠ [] → e = epoch (w_node w i) ∧ proposed e s') → later (w_node w i) s' →
  epoch_rel e s' ((w_out w i).*1 ++ output o) (w_node sw' i) (couts sw' i) → eview e w' sw'.
Proof.
  intros Hi Ha Hv Hm Hvs Hpr Hl Hrel. split; [apply Hm| | | |].
  - intros k Hk. destruct (decide (k = i)) as [->|Hne].
    + by rewrite (a_node _ _ _ _ _ _ Ha), (a_out _ _ _ _ _ _ Ha).
    + rewrite (a_node_ne _ _ _ _ _ _ Ha k Hne), (a_out_ne _ _ _ _ _ _ Ha k Hne).
      destruct (mv_ne _ _ _ _ _ _ Hm k Hne) as [-> ->]. by apply (v_node _ _ _ Hv).
  - intros k t m. rewrite (mv_sent _ _ _ _ _ _ Hm), (a_sent _ _ _ _ _ _ Ha), !elem_of_app, (v_sent _ _ _ Hv).
    rewrite !list_elem_of_fmap. split; (intros [?|(x & [= -> <-] & Hx)]; [by left|right]); eexists; (split; [done|]); by apply cs_part_elem.
  - intros k v [Hin|[-> Hin]]%(mv_input _ _ _ _ _ _ Hm).
    + destruct (v_input _ _ _ Hv k v Hin) as (x & ? & ?). exists x. split; [|done]. apply (a_input _ _ _ _ _ _ Ha). by left.
    + destruct (Hvs v Hin) as (x & ? & ?). exists x. split; [|done]. apply (a_input _ _ _ _ _ _ Ha). by right.
  - intros k v Hk Hin%(mv_input _ _ _ _ _ _ Hm). destruct (decide (k = i)) as [->|Hne].
    + rewrite (a_node _ _ _ _ _ _ Ha). destruct Hin as [Hin|[_ Hin]].
      * by eapply Hl, (v_proposed _ _ _ Hv).
      * apply Hpr. intros ->. by apply elem_of_nil in Hin.
    + rewrite (a_node_ne _ _ _ _ _ _ Ha k Hne). destruct Hin as [Hin|[? _]]; [|done]. by eapply (v_proposed _ _ _ Hv).
Qed.

Lemma good_step w w' i ins s' o : good w → i ∈ correct → acts w w' i ins s' o → node_event i w ins s' o →
  good w' ∨ overflown w'.
Proof.
  intros [Hn Hviews] Hi Ha [Hov|(Hok & Hl & _ & Hall)].
  - right. exists i. split; [done|]. by rewrite (a_out _ _ _ _ _ _ Ha).
  - left. split.
    + intros k Hk. destruct (decide (k = i)) as [->|Hne].
      * by rewrite (a_node _ _ _ _ _ _ Ha), (a_out _ _ _ _ _ _ Ha).
      * rewrite (a_node_ne _ _ _ _ _ _ Ha k Hne), (a_out_ne _ _ _ _ _ _ Ha k Hne). by apply Hn.
    + intros _ e _. destruct (Hall e) as (sw' & (sw & vs & Hv & Hm & Hvs & Hpr) & Hrel). exists sw'. by eapply eview_step.
Qed.

Definition ev_node (ev : Net.event N (C * Rng) (Message N)) : N :=
  match ev with Input i _ => i | Deliver i _ _ => i end.

Definition ev_inputs (ev : Net.event N (C * Rng) (Message N)) : list (C * Rng) :=
  match ev with Input _ x => [x] | Deliver _ _ _ => [] end.
Definition ev_call (ev : Net.event N (C * Rng) (Message N)) : M State Error HStep :=
  match ev with Input _ x => hb_input x | Deliver _ j msg => handle_message j msg end.

Lemma exec_commit w ev : Net.allowed (λ _, true) correct w ev = true → ev_node ev ∈ correct ∧
  exec hb_input (handle_message (C := C)) w ev =
    commit w (ev_node ev) (ev_inputs ev) (ev_call ev (w_node w (ev_node ev))).
Proof.
  destruct ev as [i x|i j msg]; cbn [ev_node ev_inputs ev_call]; intros Ha; split; try done.
  - by apply allowed_input in Ha.
  - by apply allowed_deliver_iff in Ha as [Hi _].
Qed.

Section usable.
Context (Hsched : ∀ e, is_Some (use_on_epoch sched e)).
Lemma good_call w ev : good w → Net.allowed (λ _, true) correct w ev = true →
  wp (ev_call ev) (w_node w (ev_node ev)) (node_event (ev_node ev) w (ev_inputs ev))
    (λ s' (_ : Error), node_event (ev_node ev) w [] s' step_default).
Proof.
  intros [Hn Hv] Ha. destruct ev as [i x|i j msg]; cbn.
  - apply allowed_input in Ha as Hi. apply input_call; eauto.
  - pose proof Ha as (Hi & _)%allowed_deliver_iff. apply hb_message_call; eauto.
Qed.

Lemma exec_event w ev : good w → Net.allowed (λ _, true) correct w ev = true →
  ∃ w' ins s' o, exec hb_input (handle_message (C := C)) w ev = Some w' ∧ ev_node ev ∈ correct ∧
    acts w w' (ev_node ev) ins s' o ∧ node_event (ev_node ev) w ins s' o.
Proof.
  intros Hg Ha. pose proof (good_call w ev Hg Ha) as Hwp. destruct (exec_commit w ev Ha) as [Hi ->].
  pose proof (commit_acts w (ev_node ev) (ev_inputs ev) (ev_call ev (w_node w (ev_node ev)))) as Hacts. unfold wp in Hwp.
  destruct (ev_call ev (w_node w (ev_node ev))) as [s' o|s' e| |]; [| |done..].
  - eexists _, _, _, _. split_and!; [reflexivity|done|exact (Hacts _ eq_refl)|done].
  - eexists _, _, _, _. split_and!; [reflexivity|done|exact (Hacts _ eq_refl)|done].
Qed.

Lemma good_exec w ev : good w → Net.allowed (λ _, true) correct w ev = true →
  ∃ w', exec hb_input (handle_message (C := C)) w ev = Some w' ∧ (good w' ∨ overflown w').
Proof.
  intros Hg (w' & ins & s' & o & He & Hi & Ha & Hev)%exec_event; [|done]. exists w'. split; [done|]. by eapply good_step.
Qed.
End usable.

Lemma overflown_exec w ev w' : overflown w → Net.allowed (λ _, true) correct w ev = true →
  exec hb_input (handle_message (C := C)) w ev = Some w' → overflown w'.
Proof.
  intros (k & Hk & Hov) [Hi ->]%exec_commit He%commit_acts. exists k. split; [done|].
  set (i := ev_node ev) in *. destruct (ev_call ev (w_node w i)) as [s' o|s' e| |]; [| |done..].
  all: destruct (decide (k = i)) as [->|Hne]; [rewrite (a_out _ _ _ _ _ _ He); by apply over_app|].
  all: by rewrite (a_out_ne _ _ _ _ _ _ He k Hne).
Qed.

(** *** A schedule that panics

    With [EveryNthEpoch(0)], or a tick and a tock that add up to 0, the state of an epoch
    cannot be created: calls that return have done nothing. *)
Lemma panicking_state ev ni ps : use_on_epoch (encryption_schedule ps) 0 = None → is_validator ni = true →
  let s := build (mkBuilder _ _ _ ni hb_id e0 ps) in
  match ev with
  | Input _ _ => ev_call ev s = Panic
  | Deliver _ _ _ =>
      match ev_call ev s with
      | Ok s' o => s' = s ∧ messages o = [] ∧ output o = []
      | Err s' _ => s' = s
      | Panic => True
      | NoFuel => False
      end
  end.
Proof.
  intros Hnone Hval s.
  assert (Hpanic : ∀ A e (m : M EState Error A) t, epochs t = ∅ → encryption_schedule (params t) = encryption_schedule ps →
    on_epoch e m t = Panic).
  { intros A e m t He Ht. unfold on_epoch, mbind, M_bind, get. cbn. rewrite He, lookup_empty, Ht.
    by rewrite (usable_none _ e Hnone). }
  destruct ev as [i [c r]|i j msg]; cbn [ev_call].
  - unfold hb_input, propose, mbind, M_bind, get, modify. cbn. rewrite Hval. cbn. by rewrite Hpanic.
  - unfold handle_message, mbind, M_bind, get. cbn. destruct (negb _); [done|]. destruct msg as [e m].
    case_bool_decide; [done|]. case_bool_decide; [done|]. by rewrite Hpanic.
Qed.
Lemma correct_validator i ni : i ∈ correct → keys_ok i ni → is_validator ni = true.
Proof.
  intros Hi [Hwf Hid Hpubs _ _ _ _ _]. rewrite (wf_is_validator _ Hwf), Hid. unfold is_node_validator.
  rewrite Hpubs. apply bool_decide_eq_true, elem_of_dom, Hcorrect, Hi.
Qed.

Context (He0max : (e0 < 2 ^ 64)%Z).
Lemma initial_good w : hb_initial w → good w.
Proof.
  intros [Hs Hin]. split.
  - intros i Hi. destruct (Hin i Hi) as (_ & -> & ni & ps & -> & Hsch & Hmax & Hk). split; try done; cbn; [lia|].
    intros e [? ?%lookup_empty_Some]. done.
  - intros i0 e Hi0.
    assert (Hnew : ∀ i, i ∈ correct → ∃ cs, subset.new (netinfo (w_node w i)) (mkEpochId hb_id e) = inr cs).
    { intros i Hi. destruct (Hin i Hi) as (_ & _ & ni & ps & -> & _ & _ & Hk). apply (k_subset _ _ Hk). }
    destruct (Hnew i0 Hi0) as [cs0 _].
    exists (World (λ i, match subset.new (netinfo (w_node w i)) (mkEpochId hb_id e) with inr cs => cs | inl _ => cs0 end)
      [] (λ _, []) (λ _, [])). split; cbn.
    + apply reach_init. split; [done|]. intros i Hi. split_and!; [done..|]. destruct (Hnew i Hi) as [cs Hcs]. cbn.
      destruct (Hin i Hi) as (_ & _ & ni & ps & Hw & _ & _ & []). exists ni. rewrite Hcs.
      rewrite Hw in Hcs. by split_and!.
    + intros i Hi. destruct (Hnew i Hi) as [cs Hcs]. rewrite Hcs.
      destruct (Hin i Hi) as (_ & -> & ni & ps & Hw & _). rewrite Hw in *. split; [right; by split|done].
    + intros i t m. rewrite Hs. split; by intros ?%elem_of_nil.
    + by intros i v ?%elem_of_nil.
    + by intros i v _ ?%elem_of_nil.
Qed.

Lemma panicking_reachable w : use_on_epoch sched 0 = None → reachable w → hb_initial w.
Proof.
  intros Hnone. induction 1 as [w Hw|w ev w' _ IH Ha He]; [done|].
  destruct (exec_commit w ev Ha) as [Hi He']. rewrite He' in He.
  destruct (proj2 IH _ Hi) as (_ & _ & ni & ps & Hn & Hps & _ & Hkeys).
  pose proof (panicking_state ev ni ps (eq_trans (f_equal (λ x, use_on_epoch x 0) Hps) Hnone) (correct_validator _ _ Hi Hkeys)) as Hc.
  cbn zeta in Hc. rewrite <- Hn in Hc. destruct ev as [i x|i j msg]; cbn [ev_node ev_inputs] in *; [by rewrite Hc in He|].
  apply commit_acts in He. destruct (ev_call _ _) as [s' o|s' e| |]; [| |done..].
  all: assert (Hkeep : s' = w_node w i ∧ w_sent w' = w_sent w ∧ (w_out w' i).*1 = (w_out w i).*1).
  1: destruct Hc as (Hs' & Hms & Hos); split; [done|];
    by rewrite (a_sent _ _ _ _ _ _ He), (a_out _ _ _ _ _ _ He), Hms, Hos, !app_nil_r.
  2: by rewrite (a_sent _ _ _ _ _ _ He), (a_out _ _ _ _ _ _ He), !app_nil_r.
  all: destruct Hkeep as (-> & Hs & Ho), IH as [Hsent Hin]; split; [by rewrite Hs|]; intros k Hk;
    destruct (Hin k Hk) as (Hink & Hok & Hnode).
  all: split; [apply elem_of_nil_inv; intros x Hx%(a_input _ _ _ _ _ _ He); rewrite Hink in Hx;
    by destruct Hx as [?%elem_of_nil|[_ ?%elem_of_nil]]|].
  all: destruct (decide (k = i)) as [->|Hne];
    [rewrite (a_node _ _ _ _ _ _ He); split; [|done]; rewrite Hok in Ho; by apply fmap_nil_inv in Ho
    |by rewrite (a_node_ne _ _ _ _ _ _ He k Hne), (a_out_ne _ _ _ _ _ _ He k Hne)].
Qed.

Lemma reachable_good w : reachable w → good w ∨ overflown w.
Proof.
  intros Hr. destruct (use_on_epoch sched 0) as [b|] eqn:Hu; [|by left; apply initial_good, panicking_reachable].
  assert (Hsched : ∀ e, is_Some (use_on_epoch sched e)) by (intros e; by apply usable_any; rewrite Hu).
  induction Hr as [w Hw|w ev w' _ [Hg|Hov] Ha He]; [left; by apply initial_good| |right; by eapply overflown_exec].
  destruct (good_exec Hsched w ev Hg Ha) as (w2 & He2 & Hg2). congruence.
Qed.
(** ** What the network guarantees *)
(** No correct node has reached the last epoch of an agreement, in any epoch. *)
Definition epochs_left w : Prop := ∀ k t c p e, k ∈ correct → (k, TM t (with_epoch (Subset
  (subset.with_proposer (subset.Agreement (binary_agreement.with_epoch c u64_max)) p)) e)) ∉ w_sent w.
(** Two nodes have decoded shards that collide, in a broadcast of the epoch [e]. *)
Definition shards_collide e w i j : Prop := ∃ sw p, eview e w sw ∧
  (subset_net.shards_collide pubs correct pks (mkEpochId hb_id e) p sw i j ∨
   subset_net.shards_collide pubs correct pks (mkEpochId hb_id e) p sw j i).

Lemma hb_epochs_left_view e w sw : eview e w sw → epochs_left w → subset_net.epochs_left correct sw.
Proof. intros Hv Hl k t c p Hk Hin. apply (Hl k t c p e Hk). by apply (v_sent _ _ _ Hv). Qed.

Lemma contribution_elem p v l : (p, v) ∈ contributions_of l ↔ subset.Contribution p v ∈ l.
Proof.
  unfold contributions_of. rewrite list_elem_of_omap. split.
  - intros ([q u|] & Hin & [= -> ->]). done.
  - intros Hin. by exists (subset.Contribution p v).
Qed.

Lemma good_batch w i n (b : Batch C N) : good w → i ∈ correct → (w_out w i).*1 !! n = Some b →
  ∃ sw ni, let e := (e0 + Z.of_nat n)%Z in eview e w sw ∧ public_key_set ni = pks ∧
    subset.Done ∈ couts sw i ∧ b = batch_at e ni (couts sw i).
Proof.
  intros Hg Hi Hb. destruct (g_view _ Hg i (e0 + Z.of_nat n)%Z Hi) as [sw Hv]. exists sw, (netinfo (w_node w i)).
  split; [done|]. split; [apply (n_keys _ _ _ (g_node _ Hg i Hi))|].
  destruct (v_node _ _ _ Hv i Hi) as [_ Hbs]. by eapply Hbs.
Qed.

(** Some correct node has proposed in the epoch of a batch. *)
Lemma batch_proposer w sw i n (b : Batch C N) : good w → eview (e0 + Z.of_nat n)%Z w sw → i ∈ correct →
  (w_out w i).*1 !! n = Some b → ∃ p v, p ∈ correct ∧ v ∈ w_input sw p.
Proof.
  intros Hg Hv Hi Hb. destruct (v_node _ _ _ Hv i Hi) as [_ Hbs]. destruct (Hbs b n Hb eq_refl) as [Hd _].
  pose proof (cs_inv_of _ sw (v_reach _ _ _ Hv)) as Hinv.
  destruct (subset_net.done_outputs pubs correct pks _ Hbyz sw i Hinv Hi Hd) as (l & Hl & _ & Hmin & Hlen & Hnd & Hsub).
  assert (Hpos : 0 < size pubs).
  { destruct (decide (size pubs = 0)) as [Hz%map_size_empty_inv|]; [|lia]. specialize (Hcorrect i Hi).
    rewrite Hz, dom_empty_L in Hcorrect. by apply elem_of_empty in Hcorrect. }
  destruct (quorum_correct (dom pubs) correct f Hbyz (list_to_set (subset_net.proposers l))) as (p & Hp & Hc); [done| |].
  { rewrite size_list_to_set, <- Hlen by done. pose proof (Nat.Div0.div_le_upper_bound (size pubs - 1) 3 f).
    pose proof (Nat.Div0.mul_div_le (size pubs - 1) 3). lia. }
  apply elem_of_list_to_set, list_elem_of_omap in Hp as ([q v|] & Hin & [= ->]).
  destruct (subset_net.contribution_valid pubs correct pks _ Hbyz sw i p v Hinv Hi Hc) as (v0 & Hv0 & _); [|by exists p, v0].
  rewrite Hl. apply elem_of_app. by left.
Qed.

(** A batch two or more epochs ahead of the state in which a call began was not proposed in this
    call, but by another node. *)
Lemma leap_proposed w ev w' n (b : Batch C N) : (∀ e, is_Some (use_on_epoch sched e)) → reachable w → Net.allowed (λ _, true) correct w ev = true →
  exec hb_input (handle_message (C := C)) w ev = Some w' → ¬ overflown w' →
  (w_out w' (ev_node ev)).*1 !! n = Some b → (epoch (w_node w (ev_node ev)) < e0 + Z.of_nat n)%Z →
  ∃ p, p ∈ correct ∧ p ≠ ev_node ev ∧ proposed (e0 + Z.of_nat n)%Z (w_node w p).
Proof.
  intros Hsched [Hg|Hov]%reachable_good Ha He Hnov Hb Hlt; [|by destruct Hnov; eapply overflown_exec].
  destruct (exec_event Hsched w ev Hg Ha) as (w2 & ins & s' & o & He2 & Hi & Hacts & [Hov|Hev]).
  { destruct Hnov. replace w' with w2 by congruence. exists (ev_node ev). split; [done|].
    by rewrite (a_out _ _ _ _ _ _ Hacts). }
  assert (w2 = w') as -> by congruence.
  destruct (good_step w w' _ ins s' o Hg Hi Hacts (or_intror Hev)) as [Hg'|?]; [|done].
  destruct Hev as (_ & Hl & _ & Hall). set (e := (e0 + Z.of_nat n)%Z) in *.
  destruct (Hall e) as (sw' & (sw & vs & Hv & Hm & Hvs & Hpr) & Hrel).
  assert (Hv' : eview e w' sw') by (by eapply eview_step).
  destruct (batch_proposer w' sw' (ev_node ev) n b Hg' Hv' Hi Hb) as (p & v & Hp & Hin).
  assert (Hvs' : vs = []) by (destruct vs; [done|]; destruct Hpr as [-> _]; [done|lia]). subst vs.
  apply (mv_input _ _ _ _ _ _ Hm) in Hin as [Hin|[_ ?%elem_of_nil]]; [|done].
  pose proof (v_proposed _ _ _ Hv p v Hp Hin) as Hprop. exists p. split_and!; [done| |done].
  intros ->. destruct Hprop as [?|[? _]]; lia.
Qed.

(** The flag for the input is that of the epoch after the batches. *)
Lemma batch_clears_flag w ev w' : (∀ e, is_Some (use_on_epoch sched e)) → reachable w → Net.allowed (λ _, true) correct w ev = true →
  exec hb_input (handle_message (C := C)) w ev = Some w' → ¬ overflown w' →
  (w_out w' (ev_node ev)).*1 = (w_out w (ev_node ev)).*1 ∨ has_input_flag (w_node w' (ev_node ev)) = false.
Proof.
  intros Hsched [Hg|Hov]%reachable_good Ha He Hnov; [|by destruct Hnov; eapply overflown_exec].
  destruct (exec_event Hsched w ev Hg Ha) as (w2 & ins & s' & o & He2 & Hi & Hacts & Hev).
  assert (w2 = w') as -> by congruence. rewrite (a_out _ _ _ _ _ _ Hacts), (a_node _ _ _ _ _ _ Hacts).
  destruct Hev as [Hov|(_ & _ & Hfl & _)].
  - destruct Hnov. exists (ev_node ev). split; [done|]. by rewrite (a_out _ _ _ _ _ _ Hacts).
  - destruct (output o) as [|b bs]; [left; by rewrite app_nil_r|right; by apply Hfl].
Qed.

Lemma node_epoch w i : reachable w → ¬ overflown w → i ∈ correct →
  epoch (w_node w i) = (e0 + Z.of_nat (length (w_out w i)))%Z.
Proof.
  intros [Hg|?]%reachable_good Hov Hi; [|done]. by rewrite (n_epoch _ _ _ (g_node _ Hg i Hi)), length_fmap.
Qed.
Lemma batch_number w i n (b : Batch C N) : reachable w → ¬ overflown w → i ∈ correct →
  (w_out w i).*1 !! n = Some b → batch_epoch b = (e0 + Z.of_nat n)%Z.
Proof.
  intros [Hg|?]%reachable_good Hov Hi Hb; [|done].
  by destruct (good_batch w i n b Hg Hi Hb) as (sw & ni & _ & _ & _ & ->).
Qed.

Lemma batch_at_eq e ni ni' l l' : public_key_set ni = public_key_set ni' →
  outs_wf l → outs_wf l' → (∀ p v, subset.Contribution p v ∈ l ↔ subset.Contribution p v ∈ l') →
  batch_at e ni l = batch_at e ni' l'.
Proof.
  intros Hp [Hnd _] [Hnd' _] Heq. unfold batch_at, batch_of. f_equal.
  assert (Hm : list_to_map (contributions_of l) =@{gmap N bytes} list_to_map (contributions_of l')).
  { apply list_to_map_proper; [done|]. apply NoDup_Permutation; [by eapply NoDup_fmap_1..|].
    intros [p v]. by rewrite !contribution_elem. }
  rewrite Hm. apply map_eq. intros p. rewrite !lookup_omap. unfold plain. by rewrite Hp.
Qed.

Lemma batches_agree w i j n (b b' : Batch C N) :
  reachable w → epochs_left w → ¬ overflown w → i ∈ correct → j ∈ correct →
  (w_out w i).*1 !! n = Some b → (w_out w j).*1 !! n = Some b' →
  b = b' ∨ shards_collide (e0 + Z.of_nat n)%Z w i j.
Proof.
  intros [Hg|?]%reachable_good Hl Hov Hi Hj Hb Hb'; [|done].
  destruct (good_batch w i n b Hg Hi Hb) as (sw & ni & Hv & Hni & Hd & ->).
  destruct (v_node _ _ _ Hv j Hj) as [_ Hbs]. destruct (Hbs b' n Hb' eq_refl) as [Hd' ->].
  set (e := (e0 + Z.of_nat n)%Z) in *. pose proof (v_reach _ _ _ Hv) as Hr.
  assert (Hagree : ∀ i j, i ∈ correct → j ∈ correct → subset.Done ∈ couts sw j →
    (∃ p, subset_net.shards_collide pubs correct pks (mkEpochId hb_id e) p sw i j) ∨
    ∀ x, x ∈ contributions_of (couts sw i) → x ∈ contributions_of (couts sw j)).
  { clear i j Hi Hj Hb Hb' Hd Hd' Hbs. intros i j Hi Hj Hd.
    assert (Hall : Forall (λ x : N * bytes, x ∈ contributions_of (couts sw j) ∨
      subset_net.shards_collide pubs correct pks (mkEpochId hb_id e) x.1 sw i j) (contributions_of (couts sw i))).
    { apply Forall_forall. intros [p v] Hc%contribution_elem.
      destruct (subset_net.contributions_agree pubs correct pks (mkEpochId hb_id e) Hcorrect Hbyz (λ _ _, Hser _ _)
        sw i j p v (cs_inv_of e sw Hr) (hb_epochs_left_view e w sw Hv Hl) Hi Hj Hd Hc) as [?|?]; [left|by right].
      by apply contribution_elem. }
    clear -Hall. induction (contributions_of (couts sw i)) as [|x l IH]; [right; by intros x ?%elem_of_nil|].
    apply Forall_cons in Hall as [[Hx|Hx] Hall]; [|left; by exists x.1].
    destruct (IH Hall) as [?|Hl]; [by left|right]. intros y [->|?]%elem_of_cons; auto. }
  destruct (Hagree i j Hi Hj Hd') as [[p Hp]|Hij]; [right; exists sw, p; auto|].
  destruct (Hagree j i Hj Hi Hd) as [[p Hp]|Hji]; [right; exists sw, p; auto|]. left.
  apply batch_at_eq; [|by apply (couts_wf e)..|].
  - by rewrite Hni, (k_pks _ _ (n_keys _ _ _ (g_node _ Hg j Hj))).
  - intros p v. rewrite <- !contribution_elem. split; [apply Hij|apply Hji].
Qed.

(** C1: Total order: in a network of validators of which at most [f] are faulty, [3 f < N], the
    [n]-th batches that two correct nodes output are equal, unless the two have decoded
    colliding shards in a broadcast of that epoch, or the epoch number has overflown. *)
Theorem hb_agreement w i j n (b b' : Batch C N) :
  reachable w → epochs_left w → ¬ overflown w → i ∈ correct → j ∈ correct →
  (w_out w i).*1 !! n = Some b → (w_out w j).*1 !! n = Some b' →
  b = b' ∨ shards_collide (e0 + Z.of_nat n)%Z w i j.
Proof. apply batches_agree. Qed.

(** C3: The batches come in order and are whole: the [n]-th batch of a correct node has the epoch
    [e0 + n], and is what the contributions amount to that a [Subset] instance of this epoch,
    in a network of such instances, has output before [Done]. *)
Theorem hb_batches w i n (b : Batch C N) :
  reachable w → ¬ overflown w → i ∈ correct → (w_out w i).*1 !! n = Some b →
  batch_epoch b = (e0 + Z.of_nat n)%Z ∧
  ∃ sw ni, eview (batch_epoch b) w sw ∧ public_key_set ni = pks ∧
    subset.Done ∈ couts sw i ∧ b = batch_of (batch_epoch b) ni (require (batch_epoch b)) (contributions_of (couts sw i)).
Proof.
  intros [Hg|?]%reachable_good Hov Hi Hb; [|done].
  destruct (good_batch w i n b Hg Hi Hb) as (sw & ni & Hv & Hni & Hd & ->). split; [done|]. by exists sw, ni.
Qed.

(** C2: Validity: a contribution of a correct proposer [p] in a batch is one that [p] has proposed,
    given that decryption inverts encryption and deserialization inverts serialization, if
    what [p] has broadcast is shorter than 2^32 bytes, and unless shards collide. *)
Theorem hb_validity w i n p (b : Batch C N) (c : C) :
  (∀ rng m, plaintext pks (pk_encrypt_with_rng (pk_set_public_key pks) rng m).1 = m) →
  (∀ (ct : Ciphertext) v, bin_serialize ct = Some v → bin_deserialize v = Some ct) →
  (∀ (c : C) v, bin_serialize c = Some v → bin_deserialize v = Some c) →
  reachable w → ¬ overflown w → i ∈ correct → p ∈ correct →
  (w_out w i).*1 !! n = Some b → contributions b !! p = Some c →
  ∃ x v0, x ∈ w_input w p ∧ encodes (batch_epoch b) x.1 v0 ∧ ((Z.of_nat (length v0) < 2 ^ 32)%Z →
    c = x.1 ∨ ∃ sw v, eview (batch_epoch b) w sw ∧
      subset_net.input_collides pubs correct pks (mkEpochId hb_id (batch_epoch b)) p sw i v v0).
Proof.
  intros Henc Hct Hc [Hg|?]%reachable_good Hov Hi Hp Hb Hlook; [|done].
  destruct (good_batch w i n b Hg Hi Hb) as (sw & ni & Hv & Hni & Hd & ->). cbn [batch_epoch batch_at batch_of] in *.
  set (e := (e0 + Z.of_nat n)%Z) in *. cbn in Hlook.
  apply lookup_omap_Some in Hlook as (v & Hplain & Hl%elem_of_list_to_map_2%contribution_elem).
  destruct (subset_net.contribution_valid pubs correct pks (mkEpochId hb_id e) Hbyz
    sw i p v (cs_inv_of e sw (v_reach _ _ _ Hv)) Hi Hp Hl) as (v0 & Hin & Hval).
  destruct (v_input _ _ _ Hv p v0 Hin) as (x & Hx & Hxe). exists x, v0. split; [done|]. split; [done|].
  intros [->|?]%Hval; [left|right; by exists sw, v].
  destruct Hxe as (ser & Hs & Hxe). unfold plain in Hplain. destruct (require e).
  - destruct Hxe as [rng Hv0]. rewrite (Hct _ _ Hv0) in Hplain. cbn in Hplain.
    rewrite Hni, Henc, (Hc _ _ Hs) in Hplain. by injection Hplain.
  - subst v0. cbn in Hplain. rewrite (Hc _ _ Hs) in Hplain. by injection Hplain.
Qed.

(** C16: Memory: whatever epochs the messages of faulty nodes name, a node keeps the state of at
    most [max_future_epochs + 1] epochs. *)
Theorem hb_bounded w i :
  reachable w → ¬ overflown w → i ∈ correct →
  (Z.of_nat (size (epochs (w_node w i))) ≤ max_future_epochs (params (w_node w i)) + 1)%Z.
Proof.
  intros [Hg|?]%reachable_good Hov Hi; [|done]. pose proof (g_node _ Hg i Hi) as Hn.
  set (s := w_node w i) in *. pose proof (n_max _ _ _ Hn) as Hmax.
  assert (Hsub : dom (epochs s) ⊆ list_to_set (seqZ (epoch s) (max_future_epochs (params s) + 1))).
  { intros e He%elem_of_dom%(n_epochs _ _ _ Hn). apply elem_of_list_to_set, elem_of_seqZ. lia. }
  apply subseteq_size in Hsub. rewrite size_dom, size_list_to_set, length_seqZ in Hsub by apply NoDup_seqZ. lia.
Qed.

(** C4: No input, no message of a faulty node and no order of messages makes a correct node panic
    or loop, as long as no epoch number has overflown, with every encryption schedule but
    [EveryNthEpoch(0)] and those [TickTock]s whose two numbers add up to 0: with these, which the
    builder accepts, no node ever outputs a batch, and every proposal of a correct node panics. *)
Theorem hb_returns w ev :
  reachable w → Net.allowed (λ _, true) correct w ev = true →
  match use_on_epoch sched 0 with
  | Some _ => ¬ overflown w → ∃ w', exec hb_input (handle_message (C := C)) w ev = Some w'
  | None => (∀ i, i ∈ correct → w_out w i = []) ∧
      ∀ i x, ev = Input i x → exec hb_input (handle_message (C := C)) w ev = None
  end.
Proof.
  intros Hr Ha. destruct (use_on_epoch sched 0) as [b|] eqn:Hu.
  - intros Hov. destruct (reachable_good w Hr) as [Hg|?]; [|done].
    destruct (good_exec (λ e, usable_any sched e ltac:(by rewrite Hu)) w ev Hg Ha) as (w' & ? & _). by exists w'.
  - pose proof (panicking_reachable w Hu Hr) as Hin. split; [intros i Hi; by apply Hin|].
    intros i x ->. destruct (exec_commit w _ Ha) as [Hi ->]. destruct (proj2 Hin _ Hi) as (_ & _ & ni & ps & -> & Hps & _ & Hk).
    by rewrite (panicking_state (Input i x) ni ps (eq_trans (f_equal (λ x, use_on_epoch x 0) Hps) Hu) (correct_validator _ _ Hi Hk)).
Qed.
End net.
End hb_net.
