(* ===== verification/SelfFree.v ===== *)
(** * No node writes to itself

    A [HoneyBadger] node addresses no message to itself, in whatever state its calls have
    left it: it handles its own messages at once.  [Net] delivers no such message, so
    this is what makes [Net] complete for Honey Badger.  Only [send_shards] of a broadcast
    addresses messages to single nodes, and it leaves out the node whose ID is in the
    broadcast's [NetworkInfo]; the files of [Targets] do the rest. *)
From S2P Require Import Prelude.
From S2P Require Import BTree.
From S2P Require Import Traits.
From S2P Require Import Net.
From S2P Require Import NetworkInfo.
From S2P Require Import Merkle.
From S2P Require Import Broadcast.
From S2P Require Import ThresholdSign.
From S2P Require Import ThresholdDecrypt.
From S2P Require Import BinaryAgreement.
From S2P Require Import Targets.
From S2P Require Import Subset.
From S2P Require Import HoneyBadger.
From S2P Require Import HbNet.

(** ** Calls that keep an invariant *)

(** [polite Inv P m]: from a state of [Inv], [m] stays in [Inv], on an error too, and what it
    returns satisfies [P]. *)
Definition polite {S E A} (Inv : S → Prop) (P : A → Prop) (m : M S E A) : Prop :=
  ∀ s, Inv s → after m s (λ s' a, Inv s' ∧ P a) Inv.
Abbreviation keeps Inv := (polite Inv (λ _, True)).

Section polite.
Context {S E A : Type} (Inv : S → Prop) (P : A → Prop).
Lemma polite_ret (a : A) : P a → polite (E := E) Inv P (mret a).
Proof. by intros Ha s Hs. Qed.
Lemma polite_throw (e : E) : polite Inv P (throw e).
Proof. by intros s Hs. Qed.
Lemma polite_panic : polite (E := E) Inv P panic.
Proof. by intros s Hs. Qed.
Lemma polite_no_fuel : polite (E := E) Inv P no_fuel.
Proof. by intros s Hs. Qed.
Lemma polite_modify (f : S → S) : (∀ s, Inv s → Inv (f s)) → keeps Inv (modify (E := E) f).
Proof. intros Hf s Hs. split; [by apply Hf|done]. Qed.
Lemma polite_get (k : S → M S E A) : (∀ s, Inv s → polite Inv P (k s)) → polite Inv P (get ≫= k).
Proof. intros Hk s Hs. apply after_bind, after_get. by apply (Hk s Hs). Qed.
Lemma polite_bind {B} (Q : B → Prop) (m : M S E B) (k : B → M S E A) :
  polite Inv Q m → (∀ b, Q b → polite Inv P (k b)) → polite Inv P (m ≫= k).
Proof.
  intros Hm Hk s Hs. apply after_bind. eapply after_mono; [by apply Hm| |done].
  intros s' b [Hs' Hb]. by apply (Hk b Hb).
Qed.
Lemma polite_keeps (m : M S E A) : polite Inv P m → keeps Inv m.
Proof. intros Hm s Hs. eapply after_mono; [by apply Hm| |done]. by intros s' a [? _]. Qed.
Lemma polite_map_err {E'} (f : E → E') (m : M S E A) : polite Inv P m → polite Inv P (map_err f m).
Proof. intros Hm s Hs. apply after_map_err. by apply Hm. Qed.
Lemma polite_zoom {T} (J : T → Prop) (get : S → T) (put : T → S → S) (m : M T E A) :
  (∀ s, Inv s → J (get s)) → (∀ t s, J t → Inv s → Inv (put t s)) →
  polite J P m → polite Inv P (zoom get put m).
Proof.
  intros Hg Hp Hm s Hs. apply after_zoom. eapply after_mono; [by apply Hm, Hg| |].
  - intros t a [Ht ?]. split; [by apply Hp|done].
  - intros t Ht. by apply Hp.
Qed.
Lemma polite_for_acc {B} (body : A → B → M S E A) (l : list B) acc :
  (∀ acc x, P acc → polite Inv P (body acc x)) → P acc → polite Inv P (for_acc body acc l).
Proof.
  intros Hb. revert acc. induction l as [|x l IH]; intros acc Ha; cbn [for_acc]; [by apply polite_ret|].
  apply (polite_bind P); [by apply Hb|]. intros a Ha'. by apply IH.
Qed.
End polite.

(** A call that keeps the invariant, and the messages of which are known for all states *)
Lemma polite_sends {Msg O N F S E} (Inv : S → Prop) (P : TargetedMessage Msg N → Prop) (m : M S E (Step Msg O N F)) :
  keeps Inv m → sends P m → polite Inv (λ x, Forall P (messages x)) m.
Proof.
  intros Hk Hm s Hs. specialize (Hk s Hs). specialize (Hm s). unfold after in *. destruct (m s); [|done..].
  by destruct Hk.
Qed.

Create HintDb keeps.
(** Calls that do not touch the part of the state that the invariant is about *)
Ltac keeps_step :=
  match goal with
  | |- polite _ _ (mret _) => apply polite_ret; exact I
  | |- polite _ _ (throw _) => apply polite_throw
  | |- polite _ _ panic => apply polite_panic
  | |- polite _ _ no_fuel => apply polite_no_fuel
  | |- polite _ _ (gets _) => solve [intros ? ?; by split]
  | |- polite _ _ (modify _) => apply polite_modify; solve [intros ? ?; cbn in *; first [assumption|exact I]]
  | |- polite _ _ (ok_or ?o _) => unfold ok_or; destruct o
  | |- polite _ _ (expect ?o) => unfold expect; destruct o
  | |- polite _ _ (of_sum ?o) => unfold of_sum; destruct o
  | |- polite _ _ (assert_ ?b) => unfold assert_; destruct b
  | |- polite _ _ (map_err _ _) => apply polite_map_err
  | |- polite _ _ (get ≫= _) => apply polite_get; intros ? ?
  | |- polite _ _ (_ ≫= _) => apply (polite_bind _ _ (λ _, True)); [|intros ? _]
  | |- polite _ _ (for_acc _ _ _) => apply polite_for_acc; [intros ? ? _|exact I]
  | |- polite _ _ (if ?b then _ else _) => destruct b
  | |- polite _ _ (match ?b with _ => _ end) => destruct b
  | |- polite _ _ ((match ?b with _ => _ end) _) => destruct b
  | |- polite _ _ _ => solve [eauto with keeps]
  end; cbn beta match.
Ltac run_keeps := repeat keeps_step.

Module self_free_nets.
Import targets.

(** ** Broadcast *)
Section bc.
Context {N : Type} `{ord : NodeIdT N} `{sha : Sha3} `{crypto : Crypto} `{rse : ReedSolomonLib} `{bo : ByteOrder}.
Import broadcast.
Context (i : N).
Abbreviation BM := (M (Broadcast N) Error (Step Message bytes N FaultKind)).
Definition bc_ours (s : Broadcast N) : Prop := me s = i.
Abbreviation clean x := (Forall (not_to i) (messages x)).

Lemma keeps_compute_output h : keeps bc_ours (compute_output h : BM).
Proof. unfold compute_output, decode_from_shards. run_keeps. Qed.
#[local] Hint Resolve keeps_compute_output : keeps.
Lemma keeps_send_ready_with g h : (∀ j h, keeps bc_ours (g j h)) → keeps bc_ours (send_ready_with g h : BM).
Proof. intros Hg. unfold send_ready_with. run_keeps. Qed.
#[local] Hint Resolve keeps_send_ready_with : keeps.
Lemma keeps_handle_ready_fuel n j h : keeps bc_ours (handle_ready_fuel n j h : BM).
Proof.
  revert j h. induction n as [|n IH]; intros j h; cbn [handle_ready_fuel]; run_keeps.
Qed.
#[local] Hint Resolve keeps_handle_ready_fuel : keeps.
Lemma keeps_handle_echo j q : keeps bc_ours (handle_echo j q : BM).
Proof. unfold handle_echo, send_ready. run_keeps. Qed.
#[local] Hint Resolve keeps_handle_echo : keeps.
Lemma keeps_handle_value j q : keeps bc_ours (handle_value j q : BM).
Proof. unfold handle_value, send_echo. run_keeps. Qed.
#[local] Hint Resolve keeps_handle_value : keeps.
Lemma keeps_send_shards v : keeps bc_ours (send_shards v : M (Broadcast N) Error _).
Proof. unfold send_shards. run_keeps. Qed.
#[local] Hint Resolve keeps_send_shards : keeps.
Lemma keeps_broadcast v : keeps bc_ours (broadcast v : BM).
Proof. unfold broadcast. run_keeps. Qed.
Lemma keeps_bc_message j m : keeps bc_ours (handle_message j m : BM).
Proof. unfold handle_message, handle_ready. run_keeps. Qed.

Lemma polite_broadcast v : polite bc_ours (λ x, clean x) (broadcast v : BM).
Proof.
  intros s Hs. pose proof (keeps_broadcast v s Hs) as Hk. pose proof (bc_broadcast v s) as Hb.
  rewrite Hs in Hb. unfold after in *. destruct (broadcast v s); [|done..]. by destruct Hk.
Qed.
Lemma polite_bc_message j m : polite bc_ours (λ x, clean x) (handle_message j m : BM).
Proof.
  apply polite_sends; [apply keeps_bc_message|].
  apply (sends_weaken for_all); [apply for_all_not_to|apply bc_handle_message].
Qed.
End bc.

(** ** Subset *)
Section subset.
Context {N Sid : Type} `{ord : NodeIdT N} `{crypto : Crypto} `{sha : Sha3}
  `{rse : ReedSolomonLib} `{bo : ByteOrder} `{sid : !SessionIdT (subset.BaSessionId Sid)}.
Import subset.
Context (i : N).
Abbreviation PState := (ProposalState N Sid).
Abbreviation State := (Subset N Sid).
Abbreviation PStep := (Step MessageContent bytes N FaultKind).
Abbreviation CsStep := (Step (Message N) (SubsetOutput N) N FaultKind).
Abbreviation clean x := (Forall (not_to i) (messages x)).
(** The broadcast instances are those of the node [i]. *)
Definition ps_ours (st : PState) : Prop :=
  match st with Ongoing bc _ | Accepted bc => bc_ours i bc | HasValue _ _ | Complete _ => True end.
Definition cs_ours (s : State) : Prop := our_id (netinfo s) = i ∧ map_Forall (λ _, ps_ours) (proposal_states s).

Lemma convert_bc_clean x : clean x → clean (convert_bc (N := N) x).2.
Proof. intros Hx. unfold convert_bc, extend_with. cbn. by apply Forall_fmap. Qed.
Lemma convert_ba_clean x : to_all (messages x) → clean (convert_ba (N := N) x).2.
Proof.
  intros Hx. unfold convert_ba, extend_with. cbn. apply Forall_fmap. eapply Forall_impl; [exact Hx|].
  intros tm Htm. by apply (for_all_not_to i) in Htm.
Qed.

Lemma polite_handle_agreement f : sends_all f → polite ps_ours (λ x, clean x) (handle_agreement f : M PState Error PStep).
Proof.
  intros Hf s Hs. unfold after, handle_agreement. destruct s as [bc ba|v ba|bc|a]; try by split; [|apply Forall_nil_2].
  all: specialize (Hf ba); unfold after in Hf; destruct (f ba) as [ba' x|ba' e| |]; try done.
  all: apply convert_ba_clean in Hf; destruct (convert_ba x) as [[[]|] y]; by split.
Qed.

Lemma polite_handle_broadcast f : polite (bc_ours i) (λ x, clean x) f →
  polite ps_ours (λ x, clean x) (handle_broadcast f : M PState Error PStep).
Proof.
  intros Hf s Hs. unfold after, handle_broadcast. destruct s as [bc ba|v ba|bc|a]; try by split; [|apply Forall_nil_2].
  all: specialize (Hf bc Hs); unfold after in Hf; destruct (f bc) as [bc' x|bc' e| |]; try done.
  all: destruct Hf as [Hbc Hx%convert_bc_clean]; destruct (convert_bc x) as [[v|] y]; try by split.
  pose proof (polite_handle_agreement (binary_agreement.propose true) (ba_propose true) (HasValue v ba) I) as Ha.
  unfold after in Ha. destruct (handle_agreement _ _) as [st z|st e| |]; [|done..].
  destruct Ha as [? Hz]. split; [done|]. cbn. by apply Forall_app_2.
Qed.

Lemma polite_proposal_propose v : polite ps_ours (λ x, clean x) (proposal_propose v : M PState Error PStep).
Proof. apply polite_handle_broadcast, polite_broadcast. Qed.
Lemma polite_proposal_message j m : polite ps_ours (λ x, clean x) (proposal_handle_message j m : M PState Error PStep).
Proof.
  destruct m; [apply polite_handle_broadcast, polite_bc_message|apply polite_handle_agreement, ba_handle_message].
Qed.
Lemma polite_vote_false : polite ps_ours (λ x, clean x) (vote_false : M PState Error PStep).
Proof. apply polite_handle_agreement, ba_propose. Qed.

Lemma polite_on_proposal {A} p (P : A → Prop) (m : M PState Error A) :
  polite ps_ours P m → polite cs_ours P (on_proposal p m : M State Error A).
Proof.
  intros Hm. unfold on_proposal. apply polite_get. intros s [Hn Hs]. unfold ok_or.
  destruct (proposal_states s !! p) as [st|] eqn:Hp; [|by apply (polite_bind _ _ (λ _, False)); [apply polite_throw|]].
  apply (polite_bind _ _ (λ a, a = st)); [by apply polite_ret|]. intros _ ->.
  apply (polite_zoom _ _ ps_ours); [|intros st' s' Hst' [Hn' Hs']|done].
  - intros _ _. exact (Hs p st Hp).
  - split; [done|]. by apply map_Forall_insert_2.
Qed.

Lemma convert_step_clean p (x : PStep) : clean x → clean (convert_step p x : CsStep).
Proof. intros Hx. unfold convert_step, extend_with. destruct (last (output x)); cbn; by apply Forall_fmap. Qed.

Lemma polite_cs_try_output : polite cs_ours (λ x, clean x) (try_output : M State Error CsStep).
Proof.
  unfold try_output. apply polite_get. intros s Hs. destruct (_ || _); [by apply polite_ret, Forall_nil_2|].
  apply (polite_bind _ _ (λ x : CsStep, clean x)).
  - case_decide; [|by apply polite_ret, Forall_nil_2]. apply polite_for_acc; [|apply Forall_nil_2].
    intros x p Hx. apply (polite_bind _ _ (λ x : PStep, clean x)); [apply polite_on_proposal, polite_vote_false|].
    intros y Hy. apply polite_ret. cbn. apply Forall_app_2; [done|by apply convert_step_clean].
  - intros x Hx. apply polite_get. intros s' Hs'. destruct (forallb _ _); [|by apply polite_ret].
    apply (polite_bind _ _ (λ _, True)); [by apply polite_modify|]. intros _ _. by apply polite_ret.
Qed.

(** What is common to the input and the messages *)
Lemma polite_then_output p (m : M PState Error PStep) : polite ps_ours (λ x, clean x) m →
  polite cs_ours (λ x, clean x) (prop_step ← on_proposal p m; step' ← try_output;
    mret (step_join (convert_step p prop_step) step') : M State Error CsStep).
Proof.
  intros Hm. apply (polite_bind _ _ (λ x : PStep, clean x)); [by apply polite_on_proposal|]. intros x Hx.
  apply (polite_bind _ _ (λ x : CsStep, clean x)); [apply polite_cs_try_output|]. intros y Hy.
  apply polite_ret. cbn. apply Forall_app_2; [by apply convert_step_clean|done].
Qed.
Lemma polite_cs_propose v : polite cs_ours (λ x, clean x) (propose v : M State Error CsStep).
Proof.
  unfold propose. apply polite_get. intros s Hs. destruct (negb _); [by apply polite_ret, Forall_nil_2|].
  apply polite_then_output, polite_proposal_propose.
Qed.
Lemma polite_cs_message j m : polite cs_ours (λ x, clean x) (handle_message j m : M State Error CsStep).
Proof. apply polite_then_output, polite_proposal_message. Qed.

Lemma cs_new_ours ni session s : our_id ni = i → new ni session = inr s → cs_ours s.
Proof.
  intros Hid. unfold new. set (add := λ (acc : Error + _) _, _).
  assert (Hfold : ∀ l m m', map_Forall (λ _, ps_ours) m → foldl add (inr m) l = inr m' → map_Forall (λ _, ps_ours) m').
  { induction l as [|[n p] l IH]; intros m m' Hm; cbn [foldl]; [by intros [= <-]|]. unfold add at 2, proposal_new.
    destruct (broadcast.new ni p) as [e|bc] eqn:Hbc.
    - assert (Hinl : foldl add (inl (NewBroadcast e)) l = inl (NewBroadcast e)) by (clear; by induction l as [|[]]).
      by rewrite Hinl.
    - apply IH. apply map_Forall_insert_2; [|done]. unfold broadcast.new in Hbc.
      destruct (broadcast.coding_new _ _); [|done]. by injection Hbc as <-. }
  destruct (foldl add (inr ∅) _) as [e|m] eqn:Hf; [done|]. intros [= <-]. split; [done|].
  eapply Hfold; [|exact Hf]. apply map_Forall_empty.
Qed.
End subset.

(** ** Honey Badger *)
Section hb.
Context {C N : Type} `{ord : NodeIdT N} `{crypto : Crypto} `{sha : Sha3}
  `{rse : ReedSolomonLib} `{bo : ByteOrder} `{sid : !SessionIdT (subset.BaSessionId honey_badger.EpochId)}
  `{bin_c : !Bincode C} `{bin_ct : !Bincode Ciphertext}.
Import honey_badger.
Context (i : N).
Abbreviation EState := (EpochState N).
Abbreviation State := (HoneyBadger N).
Abbreviation CsStep := (Step (subset.Message N) (subset.SubsetOutput N) N subset.FaultKind).
Abbreviation HStep := (Step (Message N) (Batch C N) N FaultKind).
Abbreviation clean x := (Forall (not_to i) (messages x)).
Definition sub_ours (s : SubsetState N) : Prop :=
  match s with SubOngoing cs => cs_ours i cs | SubComplete _ => True end.
Definition es_ours (s : EState) : Prop := sub_ours (es_subset s).
Definition hb_ours (s : State) : Prop := our_id (netinfo s) = i ∧ map_Forall (λ _, es_ours) (epochs s).

Lemma polite_sub_handle_input v : polite sub_ours (λ x : CsStep, clean x) (sub_handle_input v).
Proof.
  unfold sub_handle_input. apply polite_get. intros [cs|ids] Hs; [|by apply polite_ret, Forall_nil_2].
  apply polite_map_err, (polite_zoom _ _ (cs_ours i)); [done..|]. apply polite_cs_propose.
Qed.
Lemma polite_sub_handle_message j m : polite sub_ours (λ x : CsStep, clean x) (sub_handle_message j m).
Proof.
  unfold sub_handle_message. apply polite_get. intros [cs|ids] Hs; [|by apply polite_ret, Forall_nil_2].
  apply polite_map_err, (polite_zoom _ _ (cs_ours i)); [done..|]. apply polite_cs_message.
Qed.

(** Decryption shares are sent to all, and do not touch the subset. *)
Lemma dec_handle_message_all j m : sends_all (dec_handle_message (N := N) j m).
Proof. unfold dec_handle_message. run_sends. Qed.
Lemma dec_set_ciphertext_all ct : sends_all (dec_set_ciphertext (N := N) ct).
Proof. unfold dec_set_ciphertext. run_sends. Qed.

Lemma polite_on_decryption {Msg O F} p (m : M (DecryptionState N) threshold_decrypt.Error (Step Msg O N F)) :
  sends_all m → polite es_ours (λ x, to_all (messages x)) (on_decryption p m).
Proof.
  intros Hm. unfold on_decryption. apply (polite_zoom _ _ (λ _, True)); [done..|].
  apply polite_sends; [|done]. intros s _. unfold after. by destruct (m s).
Qed.

Lemma all_clean {Msg} (l : list (TargetedMessage Msg N)) : to_all l → Forall (not_to i) l.
Proof. intros Hl. eapply Forall_impl; [exact Hl|]. intros tm. apply for_all_not_to. Qed.

Lemma polite_process_decryption p x : to_all (messages x) →
  polite es_ours (λ x : HStep, clean x) (process_decryption p x : M EState Error HStep).
Proof.
  intros Hx. unfold process_decryption, extend_with. apply polite_get. intros s Hs. cbn.
  assert (Hc : Forall (not_to i) (tm_map (λ share, with_epoch (DecryptionShare (N := N) p share) (es_epoch s)) <$> messages x))
    by (apply Forall_fmap, all_clean, Hx).
  destruct (output x) as [|out l]; [by apply polite_ret|].
  apply (polite_bind _ _ (λ _, True)); [by apply polite_modify|]. intros _ _. by apply polite_ret.
Qed.

Lemma polite_send_decryption_share p v :
  polite es_ours (λ x : HStep, clean x) (send_decryption_share p v : M EState Error HStep).
Proof.
  unfold send_decryption_share. destruct (bin_deserialize v) as [ct|]; [|by apply polite_ret, Forall_nil_2].
  intros s Hs. unfold after. pose proof (polite_on_decryption p _ (dec_set_ciphertext_all ct) s Hs) as Hd. unfold after in Hd.
  destruct (on_decryption p (dec_set_ciphertext ct) s) as [s' x|s' e| |]; [|by destruct e; try split; try apply Forall_nil_2|done..].
  destruct Hd as [Hs' Hx]. by apply (polite_process_decryption p x Hx s').
Qed.

Lemma polite_handle_contributions (step : HStep) cs : clean step →
  polite es_ours (λ x : HStep, clean x) (handle_contributions step cs : M EState Error HStep).
Proof.
  intros Hx. unfold handle_contributions. apply polite_for_acc; [|done]. intros x [k v] Hx'.
  apply polite_get. intros s Hs. apply (polite_bind _ _ (λ x : HStep, clean x)).
  - destruct (require_decryption s); [apply polite_send_decryption_share|].
    apply (polite_bind _ _ (λ _, True)); [by apply polite_modify|]. intros _ _. by apply polite_ret, Forall_nil_2.
  - intros y Hy. apply (polite_bind _ _ (λ _, True)); [by apply polite_modify|]. intros _ _.
    apply polite_ret. cbn. by apply Forall_app_2.
Qed.

Lemma polite_finish_subset (step : HStep) : clean step →
  polite es_ours (λ x : HStep, clean x) (finish_subset step : M EState Error HStep).
Proof.
  intros Hx. unfold finish_subset. apply (polite_bind _ _ (λ _, True)); [by apply polite_modify|]. intros _ _.
  apply polite_get. intros s Hs. apply polite_for_acc; [|done]. intros x p Hx'. apply polite_get. intros s' Hs'.
  apply (polite_bind _ _ (λ _, True)); [by apply polite_modify|]. intros _ _.
  destruct (decryption s' !! p) as [[]|]; by apply polite_ret.
Qed.

Lemma polite_process_subset (cs_step : CsStep) : clean cs_step →
  polite es_ours (λ x : HStep, clean x) (process_subset cs_step : M EState Error HStep).
Proof.
  intros Hx. unfold process_subset, extend_with. apply polite_get. intros s Hs. cbn.
  apply polite_for_acc; [|cbn; by apply Forall_fmap]. intros x out Hx'. apply polite_get. intros s' Hs'.
  destruct (subset_handle out (subset_handler s')) as [h [l fin]].
  apply (polite_bind _ _ (λ _, True)); [by apply polite_modify|]. intros _ _.
  apply (polite_bind _ _ (λ x : HStep, clean x)); [by apply polite_handle_contributions|]. intros y Hy.
  destruct fin; [by apply polite_finish_subset|by apply polite_ret].
Qed.

Lemma polite_message_content j c :
  polite es_ours (λ x : HStep, clean x) (handle_message_content j c : M EState Error HStep).
Proof.
  destruct c as [m|p share]; cbn.
  - apply (polite_bind _ _ (λ x : CsStep, clean x)); [|by apply polite_process_subset].
    apply (polite_zoom _ _ sub_ours); [done..|]. apply polite_sub_handle_message.
  - apply polite_get. intros s Hs. destruct (match accepted_ids _ with Some _ => _ | None => _ end); [by apply polite_ret, Forall_nil_2|].
    apply (polite_bind _ _ (λ x, to_all (messages x))); [|intros x; apply polite_process_decryption].
    apply polite_map_err, polite_on_decryption, dec_handle_message_all.
Qed.

Lemma polite_es_propose c r :
  polite es_ours (λ y : HStep * Rng, clean y.1) (es_propose c r : M EState Error (HStep * Rng)).
Proof.
  unfold es_propose. apply (polite_bind _ _ (λ _, True)); [run_keeps|]. intros ser _. apply polite_get. intros s Hs.
  apply (polite_bind _ _ (λ _, True)); [run_keeps|]. intros [input r'] _.
  apply (polite_bind _ _ (λ x : CsStep, clean x)); [apply (polite_zoom _ _ sub_ours); [done..|]; apply polite_sub_handle_input|].
  intros x Hx. apply (polite_bind _ _ (λ x : HStep, clean x)); [by apply polite_process_subset|]. intros y Hy. by apply polite_ret.
Qed.

Lemma polite_on_epoch {A} (P : A → Prop) e (m : M EState Error A) : polite es_ours P m → polite hb_ours P (on_epoch e m).
Proof.
  intros Hm. unfold on_epoch. apply polite_get. intros s [Hid Hs].
  apply (polite_bind _ _ es_ours); [|intros es Hes].
  - destruct (epochs s !! e) as [es|] eqn:He; [apply polite_ret, (Hs e es He)|].
    apply (polite_bind _ _ (λ _, True)); [run_keeps|]. intros req _. unfold of_sum, epoch_state_new.
    destruct (subset.new _ _) as [er|cs] eqn:Hnew; [apply polite_throw|]. apply polite_ret.
    by eapply cs_new_ours.
  - apply (polite_zoom _ _ es_ours); [done| |done]. intros es' s' Hes' [Hid' Hs']. split; [done|].
    by apply map_Forall_insert_2.
Qed.

Lemma keeps_update_epoch : keeps hb_ours (update_epoch (N := N)).
Proof.
  unfold update_epoch. apply (polite_bind _ _ (λ _, True)); [|intros _ _].
  - apply polite_modify. intros s [Hid Hs]. split; [done|]. by apply map_Forall_delete.
  - run_keeps.
Qed.

Lemma polite_try_output_batches : polite hb_ours (λ x : HStep, clean x) (try_output_batches : M State Error HStep).
Proof.
  assert (Hn : ∀ n (x : HStep), clean x →
    polite hb_ours (λ x : HStep, clean x) (try_output_batches_fuel n x : M State Error HStep)).
  { induction n as [|n IH]; intros x Hx; cbn [try_output_batches_fuel]; apply polite_get; intros s Hs;
      destruct (_ ≫= _) as [[b l]|]; try by apply polite_ret.
    - apply polite_no_fuel.
    - apply (polite_bind _ _ (λ _, True)); [apply keeps_update_epoch|]. intros _ _. by apply IH. }
  intros s Hs. by apply Hn; [apply Forall_nil_2|].
Qed.

Lemma polite_hb_message j m : polite hb_ours (λ x : HStep, clean x) (handle_message j m : M State Error HStep).
Proof.
  unfold handle_message. apply polite_get. intros s Hs. destruct (negb _); [apply polite_throw|].
  destruct m as [e c]. do 2 (case_bool_decide; [by apply polite_ret, Forall_nil_2|]).
  apply (polite_bind _ _ (λ x : HStep, clean x)); [apply polite_on_epoch, polite_message_content|]. intros x Hx.
  apply (polite_bind _ _ (λ x : HStep, clean x)); [apply polite_try_output_batches|]. intros y Hy.
  apply polite_ret. cbn. by apply Forall_app_2.
Qed.

Lemma polite_hb_input (x : C * Rng) : polite hb_ours (λ x : HStep, clean x) (hb_net.hb_input x : M State Error HStep).
Proof.
  unfold hb_net.hb_input. apply (polite_bind _ _ (λ y : HStep * Rng, clean y.1)); [|intros [y r] Hy; by apply polite_ret].
  unfold propose. apply polite_get. intros s Hs. destruct (negb _); [by apply polite_ret, Forall_nil_2|].
  apply (polite_bind _ _ (λ _, True)); [by apply polite_modify|]. intros _ _.
  apply (polite_bind _ _ (λ y : HStep * Rng, clean y.1)); [apply polite_on_epoch, polite_es_propose|]. intros [y r] Hy.
  apply (polite_bind _ _ (λ x : HStep, clean x)); [apply polite_try_output_batches|]. intros z Hz.
  apply polite_ret. cbn. by apply Forall_app_2.
Qed.
End hb.

(** ** The network *)
Section hb_net.
Context {C N : Type} `{ord : NodeIdT N} `{crypto : Crypto} `{sha : Sha3}
  `{rse : ReedSolomonLib} `{bo : ByteOrder} `{sid : !SessionIdT (subset.BaSessionId honey_badger.EpochId)}
  `{bin_c : !Bincode C} `{bin_ct : !Bincode Ciphertext}
  `{rse_laws : !ReedSolomonLaws} `{bo_laws : !ByteOrderLaws} `{sig_laws : !ThresholdSigLaws}
  `{enc_laws : !ThresholdEncLaws} `{share_eq : !EqDecision SignatureShare}
  `{dec_eq : !EqDecision NetworkInfo.DecryptionShare}.
Context (pubs : gmap N PublicKey) (correct : gset N) (pks : PublicKeySet).
Context (hb_id e0 : u64) (sched : honey_badger.EncryptionSchedule).
Abbreviation reachable := (Net.reachable (hb_net.hb_input (C := C)) honey_badger.handle_message (λ _, true) correct
  (hb_net.hb_initial pubs correct pks hb_id e0 sched)).

(** A correct Honey Badger node sends no message to itself. *)
Lemma hb_self_free w : reachable w → self_free correct w.
Proof.
  intros Hr. apply self_free_intro.
  enough (H : (∀ i, i ∈ correct → hb_ours i (w_node w i)) ∧
    ∀ i tm, i ∈ correct → (i, tm) ∈ w_sent w → not_to i tm).
  { intros i t m Hi Hin. exact (proj2 H i _ Hi Hin). }
  revert w Hr. apply (reachable_polite correct _ _ _ _ hb_ours (λ i tm, not_to i tm)).
  - intros w0 [Hs Hin]. split; [done|]. intros i Hi. destruct (Hin i Hi) as (_ & _ & ni & ps & -> & _ & _ & Hk).
    split; [apply Hk|]. apply map_Forall_empty.
  - intros i x s. apply polite_hb_input.
  - intros i j m s. apply polite_hb_message.
Qed.
End hb_net.
End self_free_nets.
