(* ===== verification/HbDemo.v ===== *)
(** * Honey Badger: an execution

    Four validators with the toy keys and codes of [Instances], the last one faulty and
    silent; the three others propose a contribution each, which is encrypted.  The
    theorems of [HbNet] apply to it. *)
From S2P Require Import Prelude.
From S2P Require Import BTree.
From S2P Require Import Traits.
From S2P Require Import Net.
From S2P Require Import NetworkInfo.
From S2P Require Import Merkle.
From S2P Require Import Broadcast.
From S2P Require Import ThresholdSign.
From S2P Require Import BinaryAgreement.
From S2P Require Import BaNode.
From S2P Require Import BaAgreement.
From S2P Require Import ThresholdDecrypt.
From S2P Require Import Subset.
From S2P Require Import SubsetNet.
From S2P Require Import SubsetDemo.
From S2P Require Import HoneyBadger.
From S2P Require Import HbEpoch.
From S2P Require Import HbNet.
From S2P Require Import Instances.

Module hb_demo.
Import honey_badger.
Import hb_net.

#[local] Existing Instance threshold_sign.number_sig_laws.
#[local] Existing Instance threshold_decrypt.number_enc_laws.
#[local] Existing Instance ba_agreement.demo_share_eq.
#[local] Existing Instance subset_demo.any_session.
#[local] Existing Instance subset_demo.last_byte.
#[local] Instance demo_dec_eq : EqDecision (@NetworkInfo.DecryptionShare number_crypto).
Proof. change (EqDecision (nat * nat * list Byte.byte)). apply _. Defined.
(** A contribution is a byte string and its own serialization; a ciphertext for the key [7]
    starts with a ["c"]. *)
#[local] Instance bin_contribution : Bincode bytes :=
  {| bin_serialize l := Some l; bin_deserialize l := Some l |}.
#[local] Instance bin_ciphertext : Bincode (@Ciphertext number_crypto) := {|
  bin_serialize ct := if decide (ct.1 = 7) then Some ("c"%byte :: ct.2) else None;
  bin_deserialize l := match l with "c"%byte :: m => Some (7, m) | _ => None end
|}.

Definition hb_correct : gset nat := {[0; 1; 2]}.
Definition hb_keys : PublicKeySet := public_key_set (four_netinfo 0).
Abbreviation demo_world := (Net.world nat (@HoneyBadger nat nat_ord_key number_crypto repeat_code) (bytes * nat)
  (@Message nat number_crypto) (@Batch bytes nat nat_ord_key)).
Definition hb_init : demo_world :=
  World (λ i, build (mkBuilder _ _ _ (four_netinfo i) 5 0 params_default)) [] (λ _, []) (λ _, []).
Abbreviation hb_run := (Net.run (ord := nat_ord_key) (hb_input (C := bytes)) handle_message (λ _, true) hb_correct).
Abbreviation hb_rounds := (Net.rounds (ord := nat_ord_key) (hb_input (C := bytes)) handle_message (λ _, true) hb_correct).
Abbreviation hb_reachable := (Net.reachable (ord := nat_ord_key) (hb_input (C := bytes)) handle_message (λ _, true)
  hb_correct (hb_initial (ord := nat_ord_key) (crypto := number_crypto) four_keys hb_correct hb_keys 5 0 Always)).
Abbreviation hb_overflown := (overflown (C := bytes) (ord := nat_ord_key) (crypto := number_crypto) hb_correct 0).
Abbreviation hb_epochs_left := (epochs_left (C := bytes) (ord := nat_ord_key) (crypto := number_crypto) hb_correct).

(** Two epochs *)
Definition hb_inputs a b c : list (event nat (bytes * nat) (@Message nat number_crypto)) :=
  [Input 0 ([a], 0); Input 1 ([b], 0); Input 2 ([c], 0)].
Definition hb_final : option demo_world :=
  w ← hb_run hb_init (hb_inputs "a" "b" "c"); w ← hb_rounds 10 w;
  w ← hb_run w (hb_inputs "d" "e" "f"); hb_rounds 10 w.

Lemma hb_keys_ok hb_id i : i < 4 →
  keys_ok (crypto := number_crypto) (ord := nat_ord_key) four_keys hb_keys hb_id i (four_netinfo i).
Proof.
  intros Hlt. destruct (four_netinfo_ok i) as (Hwf & Hid & Hpub). destruct (ba_node.demo_keys i) as (_ & Hth & Hsk).
  split; try done.
  - intros H. by apply Hsk.
  - split; [split|]; try done.
    intros idx sks ct Hidx Hsks. do 4 (destruct i as [|i]; [vm_compute in Hidx, Hsks; simplify_eq; by apply bool_decide_eq_true|]).
    lia.
  - intros e. apply subset_demo.four_subset.
Qed.
Lemma hb_initial_for (correct : gset nat) : (∀ i, i ∈ correct → i < 4) →
  hb_initial (C := bytes) (ord := nat_ord_key) (crypto := number_crypto) four_keys correct hb_keys 5 0 Always hb_init.
Proof.
  intros Hlts. split; [done|]. intros i Hi. split_and!; [done..|]. exists (four_netinfo i), params_default.
  split_and!; [done..|]. by apply hb_keys_ok, Hlts.
Qed.
Lemma hb_initial_ok : hb_initial (C := bytes) (ord := nat_ord_key) (crypto := number_crypto) four_keys hb_correct
  hb_keys 5 0 Always hb_init.
Proof. apply hb_initial_for. unfold hb_correct. set_solver by lia. Qed.

Lemma hb_byz : hb_correct ⊆ dom four_keys ∧ size (dom four_keys ∖ hb_correct) ≤ (size four_keys - 1) / 3.
Proof. split; [by apply (bool_decide_unpack (hb_correct ⊆ dom four_keys)); vm_compute|vm_compute; lia]. Qed.

Lemma hb_final_reachable w : hb_final = Some w → hb_reachable w.
Proof.
  unfold hb_final. destruct (hb_run hb_init _) as [w1|] eqn:Hw1; [|done]. cbn [mbind option_bind].
  destruct (hb_rounds 10 w1) as [w2|] eqn:Hw2; [|done]. cbn [mbind option_bind].
  destruct (hb_run w2 _) as [w3|] eqn:Hw3; [|done]. cbn [mbind option_bind]. intros Hw4.
  eapply rounds_reachable, Hw4. eapply run_reachable, Hw3. eapply rounds_reachable, Hw2.
  eapply run_reachable, Hw1. apply reach_init, hb_initial_ok.
Qed.

(** What is read off the execution: the outputs and the messages' epochs *)
Definition early (m : @Message nat number_crypto) : bool :=
  match content m with
  | Subset m => subset_demo.early m
  | DecryptionShare _ _ => true
  end.
Definition hb_batch (e : Z) a b c : @Batch bytes nat nat_ord_key :=
  mkBatch _ _ _ e (list_to_map [(0, [a]); (1, [b]); (2, [c])]).
Definition hb_expected : list (@Batch bytes nat nat_ord_key) := [hb_batch 0 "a" "b" "c"; hb_batch 1 "d" "e" "f"].
Record expected (w : demo_world) : Prop := {
  x_outs i : i ∈ hb_correct → (w_out w i).*1 = hb_expected;
  x_early : forallb (λ '(_, tm), early (message tm)) (w_sent w) = true;
}.
Definition read_off (w : demo_world) :=
  ((λ i, (w_out w i).*1) <$> [0; 1; 2], forallb (λ '(_, tm), early (message tm)) (w_sent w)).

(** What is the same at the three correct nodes *)
Lemma hb_three {A} (g : nat → A) x : g <$> [0; 1; 2] = replicate 3 x → ∀ i, i ∈ hb_correct → g i = x.
Proof.
  intros [= H0 H1 H2] i Hi. assert (i = 0 ∨ i = 1 ∨ i = 2) as [->|[->| ->]] by (unfold hb_correct in Hi; set_solver); done.
Qed.
Lemma hb_read_off (o : option demo_world) :
  read_off <$> o = Some (replicate 3 hb_expected, true) → ∃ w, o = Some w ∧ expected w.
Proof.
  destruct o as [w|]; [|done]. intros Ho. apply (inj Some), pair_equal_spec in Ho as [Ho He].
  exists w. split; [done|]. split; [|exact He]. exact (hb_three _ _ Ho).
Qed.

Lemma hb_outputs : ∃ w, hb_final = Some w ∧ expected w.
Proof. apply hb_read_off. vm_compute. reflexivity. Qed.

Lemma x_lookup w i n : expected w → i ∈ hb_correct → (w_out w i).*1 !! n = hb_expected !! n.
Proof. intros Hx Hi. by rewrite (x_outs w Hx i Hi). Qed.

Lemma outs_fit (w : demo_world) : (∀ i, i ∈ hb_correct → (w_out w i).*1 = hb_expected) → ¬ hb_overflown w.
Proof.
  intros Hout (i & Hi & Hov).
  assert (Hx : over (C := bytes) (ord := nat_ord_key) 0 hb_expected) by (rewrite <- (Hout i Hi); exact Hov).
  unfold over in Hx. cbn in Hx. lia.
Qed.
Lemma expected_ok w : expected w → hb_epochs_left w ∧ ¬ hb_overflown w.
Proof.
  intros [Hout Hall]. split; [|by apply outs_fit].
  intros k t c p e _ Hin. rewrite forallb_forall in Hall. specialize (Hall _ (proj1 (list_elem_of_In _ _) Hin)).
  by apply bool_decide_eq_true in Hall.
Qed.

Lemma demo_ser (id : subset.BaSessionId EpochId) e : is_Some (serialize_coin_id id e).
Proof. by eexists. Qed.
Lemma demo_first : (0 ≤ 0)%Z ∧ (0 < 2 ^ 64)%Z.
Proof. lia. Qed.
Abbreviation hb_collide := (shards_collide (C := bytes) (ord := nat_ord_key) (crypto := number_crypto) four_keys hb_correct
  hb_keys 5 0 Always).
Abbreviation hb_eview := (eview (C := bytes) (ord := nat_ord_key) (crypto := number_crypto) four_keys hb_correct
  hb_keys 5 0 Always).

Lemma hb_correct_in : 0 ∈ hb_correct ∧ 1 ∈ hb_correct ∧ 2 ∈ hb_correct.
Proof. unfold hb_correct. set_solver. Qed.

Lemma hb_agreement_witness : ∃ w : demo_world, (w_out w 0).*1 !! 1 = Some (hb_batch 1 "d" "e" "f") ∧
  (hb_batch 1 "d" "e" "f" = hb_batch 1 "d" "e" "f" ∨ hb_collide 1 w 0 2).
Proof.
  destruct hb_outputs as (w & Hw & Hx). destruct hb_correct_in as (H0 & _ & H2). exists w.
  assert (Hout : ∀ i, i ∈ hb_correct → (w_out w i).*1 !! 1 = Some (hb_batch 1 "d" "e" "f")).
  { intros i Hi. exact (x_lookup w i 1 Hx Hi). }
  split; [by apply Hout|]. destruct (expected_ok w Hx) as [Hl Hov].
  exact (hb_agreement (ord := nat_ord_key) (crypto := number_crypto) four_keys hb_correct hb_keys 5 0 Always
    (proj1 hb_byz) (proj2 hb_byz) demo_ser (proj1 demo_first) (proj2 demo_first) w 0 2 1 _ _ (hb_final_reachable w Hw) Hl Hov H0 H2 (Hout 0 H0) (Hout 2 H2)).
Defined.

Lemma hb_batches_witness : ∃ (w : demo_world) sw ni, hb_eview 1 w sw ∧ public_key_set ni = hb_keys ∧
  hb_batch 1 "d" "e" "f" = hb_epoch.batch_of 1 ni true (hb_epoch.contributions_of (w_out sw 1).*1).
Proof.
  destruct hb_outputs as (w & Hw & Hx). destruct hb_correct_in as (_ & H1 & _). exists w.
  destruct (expected_ok w Hx) as [Hl Hov].
  destruct (hb_batches (ord := nat_ord_key) (crypto := number_crypto) four_keys hb_correct hb_keys 5 0 Always
    (proj1 hb_byz) (proj2 hb_byz) demo_ser (proj1 demo_first) (proj2 demo_first) w 1 1 (hb_batch 1 "d" "e" "f") (hb_final_reachable w Hw) Hov H1)
    as (_ & sw & ni & Hv & Hni & _ & Hb); [exact (x_lookup w 1 1 Hx H1)|].
  exists sw, ni. split; [exact Hv|]. split; [exact Hni|exact Hb].
Defined.

Lemma hb_validity_witness : ∃ (w : demo_world) x, x ∈ w_input w 2 ∧
  encodes (crypto := number_crypto) hb_keys Always 0 x.1 ("c"%byte :: x.1).
Proof.
  destruct hb_outputs as (w & Hw & Hx). destruct hb_correct_in as (_ & H1 & H2). exists w.
  destruct (expected_ok w Hx) as [Hl Hov].
  assert (Henc : ∀ rng m, plaintext hb_keys (pk_encrypt_with_rng (pk_set_public_key hb_keys) rng m).1 = m) by done.
  assert (Hct : ∀ (ct : @Ciphertext number_crypto) v, bin_serialize ct = Some v → bin_deserialize v = Some ct).
  { intros [k m] v. cbn. case_decide; [|done]. intros [= <-]. by subst k. }
  assert (Hc : ∀ (c : bytes) v, bin_serialize c = Some v → bin_deserialize v = Some c) by (by intros c v [= ->]).
  pose proof (x_lookup w 1 0 Hx H1) as Hout.
  destruct (hb_validity (ord := nat_ord_key) (crypto := number_crypto) four_keys hb_correct hb_keys 5 0 Always
    (proj1 hb_byz) (proj2 hb_byz) demo_ser (proj1 demo_first) (proj2 demo_first) w 1 0 2 (hb_batch 0 "a" "b" "c") ["c"%byte] Henc Hct Hc
    (hb_final_reachable w Hw) Hov H1 H2 Hout) as (x & v0 & Hin & Henc0 & _); [done|].
  exists x. split; [exact Hin|]. exists x.1. split; [done|]. exists 0. done.
Defined.

Lemma hb_bounded_witness : ∃ w : demo_world, hb_final = Some w ∧ (Z.of_nat (size (epochs (w_node w 0%nat))) ≤
  max_future_epochs (params (w_node w 0%nat)) + 1)%Z.
Proof.
  destruct hb_outputs as (w & Hw & Hx). exists w. split; [exact Hw|].
  exact (hb_bounded (ord := nat_ord_key) (crypto := number_crypto) four_keys hb_correct hb_keys 5 0 Always
    (proj1 hb_byz) (proj2 hb_byz) demo_ser (proj1 demo_first) (proj2 demo_first) w 0 (hb_final_reachable w Hw) (proj2 (expected_ok w Hx)) (proj1 hb_correct_in)).
Defined.

(** A schedule that encrypts in every 0th epoch *)
Definition panicking : EncryptionSchedule := EveryNthEpoch 0.
Definition panicking_init : demo_world :=
  World (λ i, build (mkBuilder _ _ _ (four_netinfo i) 5 0 (params_default <| encryption_schedule := panicking |>)))
    [] (λ _, []) (λ _, []).
Lemma panicking_initial : hb_initial (C := bytes) (ord := nat_ord_key) (crypto := number_crypto) four_keys hb_correct
  hb_keys 5 0 panicking panicking_init.
Proof.
  split; [done|]. intros i Hi. split_and!; [done..|]. eexists (four_netinfo i), _.
  split_and!; [reflexivity|done..|]. apply hb_keys_ok. unfold hb_correct in Hi. set_solver by lia.
Qed.

Lemma hb_returns_witness :
  (∃ w' : demo_world,
    exec (ord := nat_ord_key) (hb_input (C := bytes)) handle_message hb_init (Input 0 (["a"%byte], 0)) = Some w') ∧
  exec (ord := nat_ord_key) (hb_input (C := bytes)) handle_message panicking_init (Input 0 (["a"%byte], 0)) = None.
Proof.
  assert (Ha : ∀ w : demo_world, Net.allowed (ord := nat_ord_key) (λ _, true) hb_correct w (Input 0 (["a"%byte], 0)) = true)
    by (intros w; by apply allowed_input, hb_correct_in).
  split.
  - apply (hb_returns (ord := nat_ord_key) (crypto := number_crypto) four_keys hb_correct hb_keys 5 0 Always
      (proj1 hb_byz) (proj2 hb_byz) demo_ser (proj1 demo_first) (proj2 demo_first) hb_init (Input 0 (["a"%byte], 0))).
    + apply reach_init, hb_initial_ok.
    + apply Ha.
    + intros (i & _ & Hov). unfold over in Hov. cbn in Hov. lia.
  - apply (proj2 (hb_returns (ord := nat_ord_key) (crypto := number_crypto) four_keys hb_correct hb_keys 5 0 panicking
      (proj1 hb_byz) (proj2 hb_byz) demo_ser (proj1 demo_first) (proj2 demo_first) panicking_init (Input 0 (["a"%byte], 0))
      (reach_init _ _ _ _ _ _ panicking_initial) (Ha _)) 0 (["a"%byte], 0) eq_refl).
Defined.
End hb_demo.
