(* ===== verification/HbStall.v ===== *)
(** * Honey Badger: an epoch that does not end

    [EpochState::process_subset] adds every proposer of the subset to the accepted ones,
    also one whose contribution is not a valid ciphertext and was reported as a fault.
    Its decryption can never finish, so [try_output_batch] never returns a batch
    ([stuck]), and the algorithm stays in the epoch for good. *)
From S2P Require Import Prelude.
From S2P Require Import BTree.
From S2P Require Import Traits.
From S2P Require Import Net.
From S2P Require Import NetworkInfo.
From S2P Require Import Merkle.
From S2P Require Import Broadcast.
From S2P Require Import ThresholdSign.
From S2P Require Import BinaryAgreement.
From S2P Require Import BaAgreement.
From S2P Require Import ThresholdDecrypt.
From S2P Require Import Subset.
From S2P Require Import SubsetDemo.
From S2P Require Import HoneyBadger.
From S2P Require Import HbEpoch.
From S2P Require Import HbNet.
From S2P Require Import HbDemo.
From S2P Require Import Instances.

Module hb_stall.
Import honey_badger.
Import hb_epoch.

Section stall.
Context {C N : Type} `{ord : NodeIdT N} `{crypto : Crypto} `{sha : Sha3}
  `{rse : ReedSolomonLib} `{bo : ByteOrder} `{sid : !SessionIdT (subset.BaSessionId EpochId)}
  `{bin_c : !Bincode C} `{bin_ct : !Bincode Ciphertext} `{laws : !ThresholdEncLaws}.
Abbreviation State := (HoneyBadger N).
Abbreviation EState := (EpochState N).
Abbreviation HStep := (Step (Message N) (Batch C N) N FaultKind).
Implicit Types (s : State) (es : EState) (o : HStep) (p q j : N).

(** A decryption that has not been given its ciphertext *)
Definition waiting (d : option (DecryptionState N)) : Prop :=
  match d with
  | None => True
  | Some (DecOngoing td) => threshold_decrypt.ciphertext td = None
  | Some (DecComplete _) => False
  end.
(** The subset is complete, and one of the accepted contributions waits for a ciphertext. *)
Definition stuck p es : Prop := (∃ ids, es_subset es = SubComplete ids ∧ p ∈ ids) ∧ waiting (decryption es !! p).

(** How that comes about: the contribution is not a ciphertext. *)
Lemma bad_contribution_stuck e ni es l p v :
  es_ok e ni true es l → outs_wf l → subset.Done ∈ l → subset.Contribution p v ∈ l →
  bin_deserialize (A := Ciphertext) v = None → stuck p es.
Proof.
  intros Hok [Hnd _] Hdone Hin Hbad. unfold es_ok in Hok.
  destruct (es_subset es) as [cs|ids] eqn:Hs; [by destruct Hok|]. destruct Hok as (_ & [Hd _] & ->).
  assert (Hp : (p, v) ∈ contributions_of l).
  { unfold contributions_of. apply list_elem_of_omap. by exists (subset.Contribution p v). }
  assert (Hsame : ∀ v', (p, v') ∈ contributions_of l → v' = v).
  { intros v' Hp'. pose proof (elem_of_list_to_map_1 (M := gmap N) _ _ _ Hnd Hp) as H1.
    pose proof (elem_of_list_to_map_1 (M := gmap N) _ _ _ Hnd Hp') as H2. rewrite H1 in H2. by injection H2. }
  split.
  - eexists. split; [exact Hs|]. apply elem_of_list_to_set, list_elem_of_fmap. by exists (p, v).
  - destruct (decryption es !! p) as [d|] eqn:Hp2; [|done]. pose proof (d_dec _ _ _ _ _ Hd p d Hp2) as Hrel.
    destruct d as [td|pt]; cbn in *.
    + destruct Hrel as (_ & _ & Hct). destruct (threshold_decrypt.ciphertext td); [|done].
      destruct Hct as (_ & _ & v' & ->%Hsame & Hv'). congruence.
    + destruct Hrel as (v' & ->%Hsame & Hplain). unfold plain in Hplain. by rewrite Hbad in Hplain.
Qed.

(** ** Nothing helps *)
Lemma waiting_message (td : threshold_decrypt.ThresholdDecrypt N) j m :
  threshold_decrypt.ciphertext td = None →
  after (threshold_decrypt.handle_message j m) td
    (λ td' x, threshold_decrypt.ciphertext td' = None ∧ output x = [])
    (λ td', threshold_decrypt.ciphertext td' = None).
Proof.
  intros Hct. unfold threshold_decrypt.handle_message. apply after_bind. cbn.
  destruct (threshold_decrypt.terminated td); [done|]. apply after_bind.
  destruct (node_index _ j) as [idx|]; [cbn|done]. destruct m as [share]. unfold threshold_decrypt.is_share_valid.
  rewrite Hct. cbn [negb]. apply after_bind. cbn. destruct (decide _); [done|].
  unfold threshold_decrypt.try_output, threshold_decrypt.try_output_with. apply after_bind. cbn.
  destruct (_ || _); [done|]. cbn. by rewrite Hct.
Qed.

Lemma stuck_other p q es d : stuck p es → (q = p → waiting (Some d)) → stuck p (es <| decryption ::= <[q := d]> |>).
Proof.
  intros [Hs Hw] Hd. split; [exact Hs|]. cbn. destruct (decide (q = p)) as [->|Hne].
  - rewrite lookup_insert_eq. by apply Hd.
  - by rewrite lookup_insert_ne.
Qed.

Lemma stuck_share p es j q m : stuck p es →
  after (handle_message_content (C := C) j (DecryptionShare q m)) es (λ es' o, stuck p es' ∧ output o = []) (stuck p).
Proof.
  intros Hst. unfold handle_message_content. apply after_bind. cbn.
  match goal with |- after (if ?b then _ else _) _ _ _ => destruct b end; [done|].
  set (d0 := default (dec_new (es_netinfo es)) (decryption es !! q)).
  assert (H0 : q = p → waiting (Some d0)).
  { intros ->. unfold d0. destruct Hst as [_ Hw]. by destruct (decryption es !! p). }
  assert (Hd : after (dec_handle_message j m) d0 (λ d x, q = p → waiting (Some d) ∧ output x = [])
    (λ d, q = p → waiting (Some d))).
  { unfold dec_handle_message. apply after_bind. cbn. destruct d0 as [td|pt]; [|by intros ?%H0].
    apply after_zoom. unfold after. pose proof (λ Hct, waiting_message td j m Hct) as Hwm. unfold after in Hwm.
    destruct (threshold_decrypt.handle_message j m td); try done; intros Hq; by apply Hwm, H0. }
  apply after_bind. unfold after at 1, map_err, on_decryption, zoom. unfold after in Hd. fold d0.
  destruct (dec_handle_message j m d0) as [d x|d e| |]; try done; [|by apply stuck_other].
  unfold process_decryption. apply after_bind. cbn. destruct (output x) as [|pt outs] eqn:Ho; cbn.
  - split; [|done]. apply stuck_other; [done|]. by intros [? _]%Hd.
  - split; [|done]. apply stuck_other.
    + apply stuck_other; [done|]. by intros [_ ?]%Hd.
    + intros [_ ?]%Hd. done.
Qed.

Lemma stuck_content p es j c : stuck p es →
  after (handle_message_content (C := C) j c) es (λ es' o, stuck p es' ∧ output o = []) (stuck p).
Proof.
  intros Hst. destruct c as [m|q m]; [|by apply stuck_share].
  pose proof Hst as [(ids & Hs & Hp) Hw]. unfold handle_message_content. apply after_bind, after_zoom.
  unfold sub_handle_message. apply after_bind. cbn. rewrite Hs. cbn. split; [|done]. split; [by exists ids|exact Hw].
Qed.

Lemma stuck_propose p es (c : C) rng : stuck p es →
  after (es_propose c rng) es (λ es' x, stuck p es' ∧ output x.1 = []) (stuck p).
Proof.
  intros Hst. pose proof Hst as [(ids & Hs & Hp) Hw].
  assert (Hput : ∀ v (r : Rng), after (cs_step ← zoom es_subset (λ t (x : EState), x <| es_subset := t |>) (sub_handle_input v);
      o ← process_subset (C := C) cs_step; mret (o, r)) es (λ es' x, stuck p es' ∧ output x.1 = []) (stuck p)).
  { intros v r. apply after_bind, after_zoom. unfold sub_handle_input. apply after_bind. cbn. rewrite Hs. cbn.
    split; [|done]. split; [by exists ids|exact Hw]. }
  unfold es_propose. apply after_bind. destruct (bin_serialize c) as [ser|]; [cbn|done].
  apply after_bind. cbn. apply after_bind. destruct (require_decryption es); [|cbn; apply Hput].
  destruct (pk_encrypt_with_rng _ _ _) as [ct r]. apply after_bind.
  destruct (bin_serialize ct) as [v|]; [cbn; apply Hput|done].
Qed.

Lemma stuck_no_batch p es : stuck p es → try_output_batch (C := C) es = None.
Proof.
  intros [(ids & Hs & Hp) Hw]. unfold try_output_batch, accepted_ids. rewrite Hs. cbn.
  destruct (collect_plaintexts es (set_items ids)) as [pts|] eqn:Hc; [|done].
  apply collect_lookup in Hc as [Hk Hpts]; [|apply NoDup_set_items].
  assert (Hin : p ∈ pts.*1) by (by rewrite Hk, elem_of_set_items).
  apply list_elem_of_fmap in Hin as ([q pt] & Hq & Hin). cbn in Hq. subst q.
  by rewrite (Hpts p pt Hin) in Hw.
Qed.

(** The methods of an epoch output no batches. *)
Abbreviation silent m := (∀ es, after m es (λ _ o, output o = []) (λ _, True)).
Lemma process_decryption_silent q x : silent (process_decryption (C := C) q x).
Proof. intros es. unfold process_decryption. apply after_bind. cbn. by destruct (output x). Qed.

Lemma send_share_silent q v : silent (send_decryption_share (C := C) q v).
Proof.
  intros es. unfold send_decryption_share. destruct (bin_deserialize v) as [ct|]; [|done]. unfold after at 1.
  destruct (on_decryption q _ es) as [es' x|es' [] | |]; try done. apply process_decryption_silent.
Qed.

Lemma process_subset_silent x : silent (process_subset (C := C) x).
Proof.
  intros es. unfold process_subset. apply after_bind. cbn.
  apply (after_for_acc _ (λ o : HStep, output o = [])); [|done]. intros y o es' Ho. apply after_bind. cbn.
  destruct (subset_handle y _) as [h [cs is_done]]. apply after_bind. cbn. apply after_bind.
  eapply after_mono; [apply (after_for_acc _ (λ o : HStep, output o = [])); [|exact Ho]| |done].
  - intros [k v] o1 es1 Ho1. apply after_bind. cbn. apply after_bind.
    eapply (after_mono _ _ (λ _ o2, output o2 = [])); [|intros es2 o2 Ho2; change (output o1 ++ output o2 = []); by rewrite Ho1, Ho2|done].
    destruct (require_decryption es1); [apply send_share_silent|done].
  - intros es1 o1 Ho1. destruct is_done; [|done]. unfold finish_subset. apply after_bind. cbn. apply after_bind. cbn.
    apply (after_for_acc _ (λ o : HStep, output o = [])); [|done]. intros q o2 es2 Ho2. apply after_bind. cbn.
    apply after_bind. cbn. by destruct (decryption es2 !! q) as [[]|].
Qed.

Lemma content_silent j c : silent (handle_message_content (C := C) j c).
Proof.
  intros es. destruct c as [m|q m]; unfold handle_message_content; apply after_bind.
  - unfold after at 1. destruct (zoom _ _ _ es) as [es' x| | |]; try done. apply process_subset_silent.
  - cbn. match goal with |- after (if ?b then _ else _) _ _ _ => destruct b end; [done|]. apply after_bind.
    unfold after at 1. destruct (map_err _ _ es) as [es' x| | |]; try done. apply process_decryption_silent.
Qed.

Lemma propose_silent (c : C) rng es : after (es_propose c rng) es (λ _ x, output x.1 = []) (λ _, True).
Proof.
  unfold es_propose. apply after_bind. destruct (bin_serialize c) as [ser|]; [cbn|done]. apply after_bind. cbn.
  apply after_bind. unfold after at 1. match goal with |- match ?m es with _ => _ end => destruct (m es) as [es' [v r]| | |] end; try done.
  apply after_bind. unfold after at 1. destruct (zoom _ _ _ es') as [es2 x| | |]; try done.
  apply after_bind. eapply after_mono; [apply process_subset_silent|done|done].
Qed.

(** ** The algorithm *)
Inductive hb_call : Type :=
  | Propose (c : C) (rng : Rng)
  | HandleMessage (sender_id : N) (msg : Message N).
Definition run_call (c : hb_call) : M State Error HStep :=
  match c with
  | Propose c rng => '(step, _) ← propose c rng; mret step
  | HandleMessage sender_id msg => handle_message sender_id msg
  end.
(** The batches that the calls output; a call that fails outputs none. *)
Fixpoint run_calls s (calls : list hb_call) : option (State * list (Batch C N)) :=
  match calls with
  | [] => Some (s, [])
  | c :: calls =>
      match run_call c s with
      | Ok s' o => '(s'', bs) ← run_calls s' calls; Some (s'', output o ++ bs)
      | Err s' _ => run_calls s' calls
      | _ => None
      end
  end.

(** The current epoch is stuck. *)
Definition stalled p s : Prop := ∃ es, epochs s !! epoch s = Some es ∧ stuck p es.

Lemma stalled_no_batches p s : stalled p s →
  after (try_output_batches (C := C)) s (λ s' o, s' = s ∧ output o = []) (λ _, False).
Proof.
  intros (es & Hes & Hst). unfold try_output_batches, after.
  assert (Hfuel : ∀ fuel, try_output_batches_fuel (C := C) fuel step_default s = Ok s step_default).
  { intros fuel. destruct fuel; cbn; unfold mbind at 1, M_bind, get; rewrite Hes; cbn; by rewrite (stuck_no_batch p es Hst). }
  by rewrite Hfuel.
Qed.

Lemma stalled_epoch {A} p s e (m : M EState Error A) (out : A → list (Batch C N)) : stalled p s →
  (∀ es, stuck p es → after m es (λ es' a, stuck p es' ∧ out a = []) (stuck p)) →
  (∀ es, after m es (λ _ a, out a = []) (λ _, True)) →
  after (on_epoch e m) s (λ s' a, stalled p s' ∧ epoch s' = epoch s ∧ out a = []) (λ s', stalled p s' ∧ epoch s' = epoch s).
Proof.
  intros (es & Hes & Hst) Hm Hout.
  assert (Hput : ∀ es', (e = epoch s → stuck p es') → stalled p (s <| epochs ::= <[e := es']> |>)).
  { intros es' Hes'. destruct (decide (e = epoch s)) as [->|Hne].
    - exists es'. cbn. rewrite lookup_insert_eq. auto.
    - exists es. cbn. by rewrite lookup_insert_ne. }
  assert (Hzoom : ∀ es1, (e = epoch s → es1 = es) → after (zoom (λ _ : State, es1) (λ x (y : State), y <| epochs ::= <[e := x]> |>) m) s
    (λ s' a, stalled p s' ∧ epoch s' = epoch s ∧ out a = []) (λ s', stalled p s' ∧ epoch s' = epoch s)).
  { intros es1 Heq. apply after_zoom. unfold after. specialize (Hout es1). unfold after in Hout.
    assert (Hst1 : e = epoch s → after m es1 (λ es' a, stuck p es' ∧ out a = []) (stuck p)) by (intros He; rewrite (Heq He); auto).
    unfold after in Hst1. destruct (m es1) as [es' a|es' err| |]; try done.
    - split_and!; [|done..]. apply Hput. intros He. by apply Hst1.
    - split; [|done]. apply Hput. intros He. by apply Hst1. }
  unfold on_epoch. apply after_bind. cbn. destruct (epochs s !! e) as [es1|] eqn:He1.
  - apply after_bind. cbn. apply Hzoom. intros ->. congruence.
  - assert (Hne : e ≠ epoch s) by (intros ->; congruence). apply after_bind, after_bind.
    destruct (use_on_epoch _ e) as [r|]; [cbn|done].
    destruct (epoch_state_new _ _ _ _ _) as [err|es1]; cbn; [split; [by exists es|done]|]. by apply Hzoom.
Qed.

Lemma stalled_call p s c : stalled p s → after (run_call c) s
  (λ s' o, stalled p s' ∧ epoch s' = epoch s ∧ output o = []) (λ s', stalled p s' ∧ epoch s' = epoch s).
Proof.
  intros Hs. destruct c as [c rng|j [e c]]; cbn [run_call].
  - unfold propose. apply after_bind, after_bind. cbn. destruct (negb _); [done|]. apply after_bind. cbn.
    assert (Hs1 : stalled p (s <| has_input_flag := true |>)) by exact Hs. apply after_bind.
    eapply after_mono; [apply (stalled_epoch p _ (epoch s) _ (λ x, output x.1)); [exact Hs1| |]| |done].
    + intros es. apply stuck_propose.
    + intros es. apply propose_silent.
    + intros s1 [o r] (Hs2 & He & Ho). apply after_bind.
      eapply after_mono; [by apply (stalled_no_batches p)| |done]. intros s2 o2 [-> Ho2]. cbn in *.
      split_and!; [done|exact He|]. by rewrite Ho, Ho2.
  - unfold handle_message. apply after_bind. cbn. destruct (negb _); [done|]. 
    destruct (bool_decide _); [done|]. destruct (bool_decide _); [done|]. apply after_bind.
    eapply after_mono; [apply (stalled_epoch p s e _ output); [exact Hs| |]| |done].
    + intros es. apply stuck_content.
    + apply content_silent.
    + intros s1 o (Hs2 & He & Ho). apply after_bind.
      eapply after_mono; [by apply (stalled_no_batches p)| |done]. intros s2 o2 [-> Ho2]. cbn in *.
      split_and!; [done|exact He|]. by rewrite Ho, Ho2.
Qed.

(** C17: A stuck epoch is never left: if the subset of the current epoch is complete and a proposer
    in it has a contribution whose decryption has not been given a ciphertext, as it is after
    the fault [DeserializeCiphertext] or [InvalidCiphertext], then no sequence of messages and
    proposals makes the node output a batch or reach another epoch. *)
Theorem hb_stall p s calls s' bs :
  stalled p s → run_calls s calls = Some (s', bs) → bs = [] ∧ epoch s' = epoch s ∧ stalled p s'.
Proof.
  revert s bs. induction calls as [|c calls IH]; intros s bs Hs; simpl; [by intros [= -> <-]|].
  pose proof (stalled_call p s c Hs) as Hc. unfold after in Hc.
  destruct (run_call c s) as [s1 o|s1 e| |]; try done.
  - destruct Hc as (Hs1 & He & Ho). destruct (run_calls s1 calls) as [[s2 bs2]|] eqn:Hr; [|done]. cbn.
    intros [= -> <-]. destruct (IH s1 bs2 Hs1 Hr) as (-> & He2 & ?). by rewrite Ho, He2.
  - destruct Hc as [Hs1 He]. intros Hr. destruct (IH s1 bs Hs1 Hr) as (-> & He2 & ?). by rewrite He2.
Qed.
End stall.

(** ** An execution

    As in [HbDemo], but the faulty node [3] proposes bytes that are no ciphertext: it runs
    the algorithm with another encryption schedule. *)
Section demo.
#[local] Existing Instance threshold_sign.number_sig_laws.
#[local] Existing Instance threshold_decrypt.number_enc_laws.
#[local] Existing Instance ba_agreement.demo_share_eq.
#[local] Existing Instance subset_demo.any_session.
#[local] Existing Instance subset_demo.last_byte.
#[local] Existing Instance hb_demo.demo_dec_eq.
#[local] Existing Instance hb_demo.bin_contribution.
#[local] Existing Instance hb_demo.bin_ciphertext.
Abbreviation demo_world := hb_demo.demo_world.
Abbreviation demo_event := (event nat (bytes * nat) (@Message nat number_crypto)).

Definition four : gset nat := {[0; 1; 2; 3]}.
Definition faulty_init : demo_world := World (λ i, build (mkBuilder _ _ _ (four_netinfo i) 5 0
  (params_default <| encryption_schedule := if decide (i = 3) then Never else Always |>))) [] (λ _, []) (λ _, []).
Definition proposals : list demo_event :=
  [Input 0 (["a"%byte], 0); Input 1 (["b"%byte], 0); Input 2 (["c"%byte], 0); Input 3 (["x"%byte], 0)].
Abbreviation run4 := (Net.run (ord := nat_ord_key) (hb_net.hb_input (C := bytes)) handle_message (λ _, true) four).
(** The events of all four nodes, in rounds *)
Fixpoint trace (k : nat) (w : demo_world) : list demo_event :=
  match k with
  | 0 => []
  | S k => let evs := deliveries (ord := nat_ord_key) four w in
      evs ++ match run4 w evs with Some w' => trace k w' | None => [] end
  end.
Definition at_correct (ev : demo_event) : bool :=
  match ev with Input i _ | Deliver i _ _ => bool_decide (i ∈ hb_demo.hb_correct) end.
Definition stall_schedule : list demo_event :=
  filter (λ ev, at_correct ev = true) (proposals ++ match run4 faulty_init proposals with Some w => trace 9 w | None => [] end).
Definition stall_world : option demo_world := hb_demo.hb_run hb_demo.hb_init stall_schedule.

Definition stalledb (p : nat) (s : @HoneyBadger nat nat_ord_key number_crypto repeat_code) : bool :=
  match epochs s !! epoch s with
  | Some es =>
      match es_subset es with SubComplete ids => bool_decide (p ∈ ids) | SubOngoing _ => false end &&
      match decryption es !! p with
      | None => true
      | Some (DecOngoing td) => match threshold_decrypt.ciphertext td with None => true | Some _ => false end
      | Some (DecComplete _) => false
      end
  | None => false
  end.
Lemma stalledb_ok p s : stalledb p s = true → stalled p s.
Proof.
  unfold stalledb, stalled, stuck. destruct (epochs s !! epoch s) as [es|]; [|done]. intros [Hs Hw]%andb_true_iff.
  exists es. split; [done|]. split.
  - destruct (es_subset es) as [|ids]; [done|]. exists ids. by apply bool_decide_eq_true in Hs.
  - destruct (decryption es !! p) as [[td|]|]; cbn; [by destruct (threshold_decrypt.ciphertext td)|done..].
Qed.

Lemma stall_world_ok : ∃ w, stall_world = Some w ∧ stalledb 3 (w_node w 0) = true.
Proof.
  assert (Hw : from_option (λ w : demo_world, stalledb 3 (w_node w 0)) false stall_world = true) by (vm_compute; reflexivity).
  destruct stall_world as [w|]; [by exists w|done].
Qed.

Lemma hb_stall_witness : ∃ w : demo_world, hb_demo.hb_reachable w ∧
  ∀ (calls : list (@hb_call bytes nat number_crypto)) s' bs, run_calls (w_node w 0) calls = Some (s', bs) → bs = [].
Proof.
  destruct stall_world_ok as (w & Hw & Hst). exists w. split.
  { eapply run_reachable; [|exact Hw]. apply reach_init, hb_demo.hb_initial_ok. }
  intros calls s' bs Hrun. apply (hb_stall 3 (w_node w 0) calls s' bs (stalledb_ok _ _ Hst) Hrun).
Defined.
End demo.
End hb_stall.
