(* ===== verification/SyncKeyGen.v ===== *)
(** * Synchronous distributed key generation

    Models [src/sync_key_gen.rs]: the state of a key generation, [Part] and [Ack]
    messages and their faults, and the generation of the keys.  Polynomials and their
    commitments are [threshold_crypto::poly], the interface [PolyLib]. *)
From S2P Require Import Prelude.
From S2P Require Import BTree.
From S2P Require Import NetworkInfo.

(** [threshold_crypto]'s polynomials over the field [Fr], the commitments to them and
    the group [G1]; an argument of an evaluation is an integer mapped into the field. *)
Class PolyLib `{Crypto} := {
  Fr : Type;
  G1 : Type;
  Poly : Type;
  Commitment : Type;
  BivarPoly : Type;
  BivarCommitment : Type;
  G1_eq_dec :: EqDecision G1;
  Commitment_eq_dec :: EqDecision Commitment;
  BivarCommitment_eq_dec :: EqDecision BivarCommitment;
  fr_zero : Fr;
  fr_add : Fr → Fr → Fr;
  (** [G1Affine::one().mul(x)] *)
  g1_one_mul : Fr → G1;
  poly_zero : Poly;
  poly_evaluate : Poly → u64 → Fr;
  poly_interpolate : list (u64 * Fr) → Poly;
  poly_commitment : Poly → Commitment;
  commitment_add : Commitment → Commitment → Commitment;
  bivar_random : nat → Rng → BivarPoly * Rng;
  bivar_row : BivarPoly → u64 → Poly;
  bivar_commitment : BivarPoly → BivarCommitment;
  bivar_commitment_row : BivarCommitment → u64 → Commitment;
  bivar_commitment_evaluate : BivarCommitment → u64 → u64 → G1;
  (** [PublicKeySet::from] *)
  pk_set_of_commitment : Commitment → PublicKeySet;
  (** [SecretKeyShare::from_mut] *)
  sk_share_from_fr : Fr → SecretKeyShare;
}.

Module sync_key_gen.

Inductive Error : Type :=
  | Creation
  | Generation
  | UnknownSender
  | Serialize.

Inductive AckFault : Type :=
  | ValueCount
  | MissingPart
  | DecryptValue
  | DeserializeValue
  | ValueCommitment.

Inductive PartFault : Type :=
  | RowCount
  | MultipleParts
  | DecryptRow
  | DeserializeRow
  | RowCommitment.

(** ** Messages *)
Record Part `{PolyLib} : Type := mkPart {
  part_commit : BivarCommitment;
  part_rows : list Ciphertext;
}.
Record Ack `{Crypto} : Type := mkAck {
  ack_proposer : u64;
  ack_values : list Ciphertext;
}.
#[global] Instance Part_eq_dec `{PolyLib} : EqDecision Part.
Proof. solve_decision. Defined.
#[global] Instance Ack_eq_dec `{Crypto} : EqDecision Ack.
Proof. solve_decision. Defined.

Inductive PartOutcome `{Crypto} : Type :=
  | PartValid (ack : option Ack)
  | PartInvalid (fault : PartFault).
Inductive AckOutcome : Type :=
  | AckValid
  | AckInvalid (fault : AckFault).

(** ** State *)
Record ProposalState `{PolyLib} : Type := mkPS {
  commit : BivarCommitment;
  values : gmap u64 Fr;
  acks : gset u64;
}.
#[global] Instance ProposalState_settable `{PolyLib} : Settable ProposalState := λ p,
  mkPS _ _ (commit p) (values p) (acks p).
Definition proposal_new `{PolyLib} (c : BivarCommitment) : ProposalState := mkPS _ _ c ∅ ∅.
Definition is_complete `{PolyLib} (threshold : nat) (p : ProposalState) : bool :=
  bool_decide (2 * threshold < size (acks p)).

Record SyncKeyGen {N : Type} `{NodeIdT N, PolyLib} : Type := mkSKG {
  our_id : N;
  our_idx : option u64;
  sec_key : SecretKey;
  pub_keys : gmap N PublicKey;
  parts : gmap u64 ProposalState;
  threshold : nat;
}.
Arguments SyncKeyGen N {_ _ _}.
#[global] Instance SyncKeyGen_settable {N} `{NodeIdT N, PolyLib} : Settable (SyncKeyGen N) := λ s,
  mkSKG _ _ _ _ (our_id s) (our_idx s) (sec_key s) (pub_keys s) (parts s) (threshold s).

Section skg.
Context {N : Type} `{ord : NodeIdT N} `{crypto : Crypto} `{pl : !PolyLib}
  `{bin_poly : !Bincode Poly} `{bin_fr : !Bincode Fr}.
Abbreviation State := (SyncKeyGen N).

(** [pub_keys.keys().position(|id| id == node_id)] *)
Definition position (pub : gmap N PublicKey) (node_id : N) : option u64 :=
  Z.of_nat <$> index_of node_id (keys pub).

Definition node_index (s : State) (node_id : N) : option u64 := position (pub_keys s) node_id.
Definition num_nodes (s : State) : nat := size (pub_keys s).

(** [BivarPoly::random], the commitment to it and an encrypted row per node; observers
    send nothing. *)
Fixpoint encrypt_rows (our_part : BivarPoly) (i : nat) (pks : list PublicKey) (rng : Rng) :
    Error + (list Ciphertext * Rng) :=
  match pks with
  | [] => inr ([], rng)
  | pk :: pks =>
      match bin_serialize (bivar_row our_part (Z.of_nat i + 1)) with
      | None => inl Serialize
      | Some ser =>
          let '(ct, rng) := pk_encrypt_with_rng pk rng ser in
          match encrypt_rows our_part (S i) pks rng with
          | inl e => inl e
          | inr (cts, rng) => inr (ct :: cts, rng)
          end
      end
  end.

Definition new (our_id : N) (sec_key : SecretKey) (pub_keys : gmap N PublicKey)
    (threshold : nat) (rng : Rng) : Error + (State * option Part * Rng) :=
  let our_idx := position pub_keys our_id in
  let key_gen := mkSKG _ _ _ _ our_id our_idx sec_key pub_keys ∅ threshold in
  match our_idx with
  | None => inr (key_gen, None, rng)
  | Some _ =>
      let '(our_part, rng) := bivar_random threshold rng in
      let commit := bivar_commitment our_part in
      match encrypt_rows our_part 0 (BTree.values pub_keys) rng with
      | inl e => inl e
      | inr (rows, rng) => inr (key_gen, Some (mkPart _ _ commit rows), rng)
      end
  end.

(** ** Handling messages *)
Definition handle_part_or_fault (sender_idx : u64) (part : Part) : M State PartFault (option Poly) :=
  s ← get;
  let '(mkPart _ _ commit rows) := part in
  if negb (bool_decide (length rows = size (pub_keys s))) then throw RowCount
  else match parts s !! sender_idx with
  | Some state =>
      if negb (bool_decide (sync_key_gen.commit state = commit)) then throw MultipleParts
      else mret None
  | None =>
      let opt_idx_commit_row :=
        (λ idx, (idx, bivar_commitment_row commit (u64_add idx 1))) <$> our_idx s in
      modify (λ s, s <| parts ::= <[sender_idx := proposal_new commit]> |>);;
      match opt_idx_commit_row with
      | None => mret None
      | Some (our_idx, commit_row) =>
          ct ← expect (rows !! Z.to_nat our_idx);
          ser_row ← ok_or (sk_decrypt (sec_key s) ct) DecryptRow;
          row ← ok_or (bin_deserialize ser_row) DeserializeRow;
          if negb (bool_decide (poly_commitment row = commit_row)) then throw RowCommitment
          else mret (Some row)
      end
  end.

Definition handle_ack_or_fault (sender_idx : u64) (ack : Ack) : M State AckFault () :=
  s ← get;
  let '(mkAck _ proposer_idx values) := ack in
  if negb (bool_decide (length values = size (pub_keys s))) then throw ValueCount
  else
    part ← ok_or (parts s !! proposer_idx) MissingPart;
    if bool_decide (sender_idx ∈ acks part) then mret ()
    else
      let part := part <| acks ::= λ a, {[sender_idx]} ∪ a |> in
      modify (λ s, s <| parts ::= <[proposer_idx := part]> |>);;
      match our_idx s with
      | None => mret ()
      | Some our_idx =>
          ct ← expect (values !! Z.to_nat our_idx);
          ser_val ← ok_or (sk_decrypt (sec_key s) ct) DecryptValue;
          val ← ok_or (bin_deserialize ser_val) DeserializeValue;
          if negb (bool_decide (
               bivar_commitment_evaluate (commit part) (u64_add our_idx 1) (u64_add sender_idx 1)
               = g1_one_mul val))
          then throw ValueCommitment
          else
            let part := part <| sync_key_gen.values ::= <[u64_add sender_idx 1 := val]> |> in
            modify (λ s, s <| parts ::= <[proposer_idx := part]> |>)
      end.

(** The values of a row, one encrypted for every node. *)
Fixpoint encrypt_values (row : Poly) (idx : nat) (pks : list PublicKey) (rng : Rng) :
    Error + (list Ciphertext * Rng) :=
  match pks with
  | [] => inr ([], rng)
  | pk :: pks =>
      match bin_serialize (poly_evaluate row (Z.of_nat idx + 1)) with
      | None => inl Serialize
      | Some ser_val =>
          let '(ct, rng) := pk_encrypt_with_rng pk rng ser_val in
          match encrypt_values row (S idx) pks rng with
          | inl e => inl e
          | inr (cts, rng) => inr (ct :: cts, rng)
          end
      end
  end.

Definition handle_part (sender_id : N) (part : Part) (rng : Rng) : M State Error (PartOutcome * Rng) :=
  s ← get;
  sender_idx ← ok_or (node_index s sender_id) UnknownSender;
  res ← try_ (handle_part_or_fault sender_idx part);
  match res with
  | inl fault => mret (PartInvalid fault, rng)
  | inr None => mret (PartValid None, rng)
  | inr (Some row) =>
      '(values, rng) ← of_sum (encrypt_values row 0 (BTree.values (pub_keys s)) rng);
      mret (PartValid (Some (mkAck _ sender_idx values)), rng)
  end.

Definition handle_ack (sender_id : N) (ack : Ack) : M State Error AckOutcome :=
  s ← get;
  sender_idx ← ok_or (node_index s sender_id) UnknownSender;
  res ← try_ (handle_ack_or_fault sender_idx ack);
  match res with
  | inl fault => mret (AckInvalid fault)
  | inr () => mret AckValid
  end.

(** ** Completion *)

(** [parts.values()] and [values.iter()], in the order of their keys *)
Definition part_states (s : State) : list ProposalState :=
  @BTree.values u64 Z_ord_key _ (parts s).
Definition part_values (p : ProposalState) : list (u64 * Fr) :=
  @entries u64 Z_ord_key _ (values p).

Definition complete_parts (s : State) : list ProposalState :=
  filter (λ p, is_complete (threshold s) p = true) (part_states s).
Definition count_complete (s : State) : nat :=
  length (complete_parts s).

Definition is_node_ready (s : State) (proposer_id : N) : bool :=
  match node_index s proposer_id ≫= λ idx, parts s !! idx with
  | Some part => is_complete (threshold s) part
  | None => false
  end.

Definition is_ready (s : State) : bool := bool_decide (threshold s < count_complete s).

(** The sum of the parts' secrets at our index, and of their public commitments. *)
Definition generate (s : State) : PublicKeySet * option SecretKeyShare :=
  let '(pk_commit, opt_sk_val) :=
    foldl (λ '(pk_commit, opt_sk_val) part,
      (commitment_add pk_commit (bivar_commitment_row (commit part) 0),
       (λ sk_val,
          let row := poly_interpolate (take (threshold s + 1) (part_values part)) in
          fr_add sk_val (poly_evaluate row 0)) <$> opt_sk_val))
      (poly_commitment poly_zero, (λ _, fr_zero) <$> our_idx s) (complete_parts s) in
  (pk_set_of_commitment pk_commit, sk_share_from_fr <$> opt_sk_val).

(** [None] is the panic of [NetworkInfo::new]. *)
Definition into_network_info (s : State) : option (NetworkInfo N) :=
  let '(pk_set, sk_share) := generate s in
  netinfo_new (our_id s) sk_share pk_set (sec_key s) (pub_keys s).
End skg.

(** ** Sequences of messages *)
Inductive event {N : Type} `{NodeIdT N, PolyLib} : Type :=
  | EvPart (sender_id : N) (part : Part) (rng : Rng)
  | EvAck (sender_id : N) (ack : Ack).
Arguments event N {_ _ _}.

Section facts.
Context {N : Type} `{ord : NodeIdT N} `{crypto : Crypto} `{pl : !PolyLib}
  `{bin_poly : !Bincode Poly} `{bin_fr : !Bincode Fr}.
Abbreviation State := (SyncKeyGen N).
Implicit Types (s : State) (p : ProposalState) (id : N) (ev : event N).

(** The state after a call that returned; what a failed call changed stays. *)
Definition state_after {E A} (o : outcome State E A) : option State :=
  match o with Ok s _ | Err s _ => Some s | Panic | NoFuel => None end.
Definition handle_event ev s : option State :=
  match ev with
  | EvPart sender_id part rng => state_after (handle_part sender_id part rng s)
  | EvAck sender_id ack => state_after (handle_ack sender_id ack s)
  end.
Fixpoint handle_events (evs : list (event N)) s : option State :=
  match evs with
  | [] => Some s
  | ev :: evs => s' ← handle_event ev s; handle_events evs s'
  end.

(** What [new] establishes *)
Definition idx_ok s : Prop := our_idx s = position (pub_keys s) (our_id s).

Lemma position_lt (pub : gmap N PublicKey) id i :
  position pub id = Some i → Z.to_nat i < size pub ∧ (0 <= i)%Z.
Proof.
  unfold position. intros (j & Hj & ->)%fmap_Some. rewrite Nat2Z.id. split; [|lia].
  apply index_of_Some in Hj; [|apply NoDup_keys]. apply lookup_lt_Some in Hj.
  by rewrite length_keys in Hj.
Qed.

Lemma expect_at {A} (l : list A) s idx n :
  idx_ok s → our_idx s = Some idx → length l = n → n = size (pub_keys s) →
  ∃ x, l !! Z.to_nat idx = Some x.
Proof.
  intros Hok Hidx Hl Hn. unfold idx_ok in Hok. rewrite Hok in Hidx.
  apply position_lt in Hidx as [Hlt _]. apply lookup_lt_is_Some. lia.
Qed.

(** What a [Part] does: how the public state changes, and when a row is returned. *)
Lemma handle_part_or_fault_spec idx part s :
  idx_ok s →
  let recorded s' :=
    length (part_rows part) = size (pub_keys s) ∧ parts s !! idx = None ∧
    s' = s <| parts ::= <[idx := proposal_new (part_commit part)]> |> in
  let ignored s' :=
    s' = s ∧ (length (part_rows part) = size (pub_keys s) → is_Some (parts s !! idx)) in
  wp (handle_part_or_fault idx part) s
    (λ s' row, recorded s' ∧ (row = None → our_idx s = None) ∨ ignored s' ∧ row = None)
    (λ s' e, recorded s' ∨ ignored s').
Proof.
  intros Hok recorded ignored. unfold handle_part_or_fault. do 2 wp_step.
  destruct part as [c rows]; cbn [part_commit part_rows] in *.
  destruct (decide (length rows = size (pub_keys s))) as [Hl|Hl]; cycle 1.
  { rewrite bool_decide_false by done. cbn [negb]. wp_step. right. by split. }
  rewrite bool_decide_true by done. cbn [negb].
  destruct (parts s !! idx) as [p|] eqn:Hp.
  { assert (Hig : ignored s) by (split; [done|]; intros _; by eexists).
    destruct (negb _); [apply wp_throw|apply wp_ret]; by right. }
  assert (Hrec : recorded (s <| parts ::= <[idx := proposal_new c]> |>)) by done.
  do 2 wp_step. destruct (our_idx s) as [i|] eqn:Hi; cbn [fmap option_fmap option_map]; cycle 1.
  { wp_step. left. by split. }
  destruct (expect_at rows s i _ Hok Hi Hl eq_refl) as [ct Hct].
  apply wp_bind, wp_expect. exists ct. split; [done|].
  apply wp_bind, wp_ok_or; [intros ser _|by left].
  apply wp_bind, wp_ok_or; [intros row _|by left].
  destruct (negb _); [apply wp_throw|apply wp_ret]; left; [done|]. by split.
Qed.

(** What an [Ack] does. *)
Lemma handle_ack_or_fault_spec idx ack s :
  idx_ok s →
  let acked p s' := ∃ p', (s' = s <| parts ::= <[ack_proposer ack := p']> |>) ∧
    commit p' = commit p ∧ acks p' = {[idx]} ∪ acks p ∧
    (values p' = values p ∨ ∃ i v, our_idx s = Some i ∧
      values p' = <[u64_add idx 1 := v]> (values p) ∧
      bivar_commitment_evaluate (commit p) (u64_add i 1) (u64_add idx 1) = g1_one_mul v) in
  let post s' :=
    if decide (length (ack_values ack) = size (pub_keys s)) then
      match parts s !! ack_proposer ack with
      | Some p => if decide (idx ∈ acks p) then s' = s else acked p s'
      | None => s' = s
      end
    else s' = s in
  wp (handle_ack_or_fault idx ack) s (λ s' _, post s') (λ s' _, post s').
Proof.
  intros Hok acked post. subst post. cbn beta. unfold handle_ack_or_fault. do 2 wp_step.
  destruct ack as [prop vals]; cbn [ack_proposer ack_values] in *.
  destruct (decide (length vals = size (pub_keys s))) as [Hl|Hl]; cycle 1.
  { rewrite bool_decide_false by done. cbn [negb]. by wp_step. }
  rewrite bool_decide_true by done. cbn [negb]. apply wp_bind.
  destruct (parts s !! prop) as [p|] eqn:Hp; [|done]. apply wp_ret.
  destruct (decide (idx ∈ acks p)) as [Ha|Ha].
  { rewrite bool_decide_true by done. by wp_step. }
  rewrite bool_decide_false by done. do 2 wp_step.
  assert (Hacked : acked p (s <| parts ::= <[prop := (p <| acks ::= λ a, {[idx]} ∪ a |>)]> |>)).
  { eexists. split; [done|]. split_and!; try done. by left. }
  destruct (our_idx s) as [i|] eqn:Hi; [|by wp_step].
  destruct (expect_at vals s i _ Hok Hi Hl eq_refl) as [ct Hct].
  apply wp_bind, wp_expect. exists ct. split; [done|].
  apply wp_bind, wp_ok_or; [intros ser _|done].
  apply wp_bind, wp_ok_or; [intros v _|done].
  destruct (decide (bivar_commitment_evaluate (commit p) (u64_add i 1) (u64_add idx 1) = g1_one_mul v))
    as [Hv|Hv].
  - rewrite bool_decide_true by exact Hv. cbn [negb]. wp_step.
    eexists. split; [unfold set_field; cbn; by rewrite insert_insert_eq|].
    split_and!; try done. right. by exists i, v.
  - rewrite bool_decide_false by exact Hv. cbn [negb]. by wp_step.
Qed.

(** ** The public state

    What a key generation keeps of the messages that does not depend on who handles them:
    the commitment and the acknowledgements of every part. *)
Abbreviation public_parts := (gmap u64 (BivarCommitment * gset u64)).
Definition public s : public_parts := (λ p, (commit p, acks p)) <$> parts s.

(** The public state as a function of the messages: the specification of [handle_part] and
    [handle_ack]. *)
Definition handle_public (pub : gmap N PublicKey) ev (m : public_parts) : public_parts :=
  match ev with
  | EvPart sender_id part _ =>
      match position pub sender_id with
      | Some idx =>
          if decide (length (part_rows part) = size pub ∧ m !! idx = None)
          then <[idx := (part_commit part, ∅)]> m else m
      | None => m
      end
  | EvAck sender_id ack =>
      match position pub sender_id, m !! ack_proposer ack with
      | Some idx, Some (c, a) =>
          if decide (length (ack_values ack) = size pub)
          then <[ack_proposer ack := (c, {[idx]} ∪ a)]> m else m
      | _, _ => m
      end
  end.

(** The values of the parts that were stored for this node lie on the committed polynomials,
    and came with an acknowledgement. *)
Definition values_ok s : Prop :=
  ∀ i j p x v, our_idx s = Some i → parts s !! j = Some p → values p !! x = Some v →
    bivar_commitment_evaluate (commit p) (u64_add i 1) x = g1_one_mul v ∧
    ∃ k, k ∈ acks p ∧ x = u64_add k 1.

(** One message: the fixed part of the state, the public state and the values. *)
Record transition ev s s' : Prop := {
  tr_our_id : our_id s' = our_id s;
  tr_our_idx : our_idx s' = our_idx s;
  tr_pub_keys : pub_keys s' = pub_keys s;
  tr_threshold : threshold s' = threshold s;
  tr_public : public s' = handle_public (pub_keys s) ev (public s);
  tr_values : values_ok s → values_ok s';
}.

Lemma transition_id ev s :
  handle_public (pub_keys s) ev (public s) = public s → transition ev s s.
Proof. by constructor. Qed.

Lemma transition_part sender_id idx part rng s s' :
  position (pub_keys s) sender_id = Some idx →
  (length (part_rows part) = size (pub_keys s) ∧ parts s !! idx = None ∧
    s' = s <| parts ::= <[idx := proposal_new (part_commit part)]> |>) ∨
  (s' = s ∧ (length (part_rows part) = size (pub_keys s) → is_Some (parts s !! idx))) →
  transition (EvPart sender_id part rng) s s'.
Proof.
  intros Hidx [(Hl & Hn & ->)|[-> Hold]].
  - constructor; try done; cbn.
    + assert (Hpn : public s !! idx = None) by (unfold public; by rewrite lookup_fmap, Hn).
      rewrite Hidx, decide_True by done. unfold public at 1. cbn. by rewrite fmap_insert.
    + intros Hv i j p x v Hi. cbn. rewrite lookup_insert_Some.
      intros [[<- <-]|[_ Hp]]; cbn; [done|]. by apply (Hv i j).
  - apply transition_id. cbn. rewrite Hidx. rewrite decide_False; [done|]. intros [Hl Hn].
    destruct (Hold Hl) as [p Hp]. unfold public in Hn. by rewrite lookup_fmap, Hp in Hn.
Qed.

Lemma transition_ack sender_id idx ack p p' s :
  position (pub_keys s) sender_id = Some idx → length (ack_values ack) = size (pub_keys s) →
  parts s !! ack_proposer ack = Some p →
  commit p' = commit p → acks p' = {[idx]} ∪ acks p →
  (values p' = values p ∨ ∃ i v, our_idx s = Some i ∧
    values p' = <[u64_add idx 1 := v]> (values p) ∧
    bivar_commitment_evaluate (commit p) (u64_add i 1) (u64_add idx 1) = g1_one_mul v) →
  transition (EvAck sender_id ack) s (s <| parts ::= <[ack_proposer ack := p']> |>).
Proof.
  intros Hidx Hl Hp Hc Ha Hvals. constructor; try done; cbn.
  - unfold public at 1. cbn. rewrite Hidx. unfold public. rewrite lookup_fmap, Hp; cbn.
    by rewrite decide_True, fmap_insert, Hc, Ha.
  - intros Hv i j q x v Hi. cbn in *. rewrite lookup_insert_Some.
    intros [[<- <-]|[_ Hq]]; [|by apply (Hv i j)]. rewrite Hc, Ha.
    destruct Hvals as [->|(i' & w & Hi' & -> & Hw)].
    + intros Hx. destruct (Hv i _ p x v Hi Hp Hx) as (? & k & ? & ->).
      split; [done|]. exists k. set_solver.
    + rewrite lookup_insert_Some. intros [[<- <-]|[_ Hx]].
      * assert (i' = i) as -> by congruence. split; [done|]. exists idx. set_solver.
      * destruct (Hv i _ p x v Hi Hp Hx) as (? & k & ? & ->). split; [done|]. exists k. set_solver.
Qed.

Lemma transition_ack_id sender_id idx ack s :
  position (pub_keys s) sender_id = Some idx →
  (∀ p, length (ack_values ack) = size (pub_keys s) → parts s !! ack_proposer ack = Some p →
    idx ∈ acks p) →
  transition (EvAck sender_id ack) s s.
Proof.
  intros Hidx Hin. apply transition_id. cbn. rewrite Hidx. unfold public at 1.
  rewrite lookup_fmap. destruct (parts s !! ack_proposer ack) as [p|] eqn:Hp; [|done].
  cbn. case_decide as Hl; [|done]. apply insert_id. unfold public. rewrite lookup_fmap, Hp. cbn.
  specialize (Hin p Hl eq_refl). do 2 f_equal. set_solver.
Qed.

Lemma handle_event_spec ev s :
  idx_ok s → ∃ s', handle_event ev s = Some s' ∧ transition ev s s'.
Proof.
  intros Hok.
  assert (Hwp : ∀ A (m : M State Error A),
    wp m s (λ s' _, transition ev s s') (λ s' _, transition ev s s') →
    ∃ s', state_after (m s) = Some s' ∧ transition ev s s').
  { intros A m Hm. unfold wp in Hm. destruct (m s); try done; simpl; eauto. }
  destruct ev as [sender_id part rng|sender_id ack]; apply Hwp.
  - unfold handle_part. do 2 wp_step. unfold node_index.
    apply wp_bind, wp_ok_or; [intros idx Hidx|intros Hnone; apply transition_id; cbn; by rewrite Hnone].
    apply wp_bind, wp_try. eapply wp_mono; [by apply handle_part_or_fault_spec| |].
    + intros s' row Hs'. assert (Htr : transition (EvPart sender_id part rng) s s').
      { eapply transition_part; [done|]. naive_solver. }
      destruct row as [row|]; [|by wp_step]. apply wp_bind. unfold of_sum.
      destruct (encrypt_values _ _ _ _) as [e|[vals rng']]; [done|]. by wp_steps.
    + intros s' e Hs'. wp_step. by eapply transition_part.
  - unfold handle_ack. do 2 wp_step. unfold node_index.
    apply wp_bind, wp_ok_or; [intros idx Hidx|intros Hnone; apply transition_id; cbn; by rewrite Hnone].
    apply wp_bind, wp_try. 
    assert (Hack : ∀ s', (if decide (length (ack_values ack) = size (pub_keys s)) then
        match parts s !! ack_proposer ack with
        | Some p => if decide (idx ∈ acks p) then s' = s else
            ∃ p', (s' = s <| parts ::= <[ack_proposer ack := p']> |>) ∧
              commit p' = commit p ∧ acks p' = {[idx]} ∪ acks p ∧
              (values p' = values p ∨ ∃ i v, our_idx s = Some i ∧
                values p' = <[u64_add idx 1 := v]> (values p) ∧
                bivar_commitment_evaluate (commit p) (u64_add i 1) (u64_add idx 1) = g1_one_mul v)
        | None => s' = s
        end
      else s' = s) → transition (EvAck sender_id ack) s s').
    { intros s'. case_decide as Hl; [|intros ->; eapply transition_ack_id; naive_solver].
      destruct (parts s !! ack_proposer ack) as [p|] eqn:Hp.
      - case_decide as Hin; [intros ->; eapply transition_ack_id; naive_solver|].
        intros (p' & -> & Hc & Ha & Hv). by eapply transition_ack.
      - intros ->. eapply transition_ack_id; naive_solver. }
    eapply wp_mono; [by apply (handle_ack_or_fault_spec idx ack)| |].
    + intros s' [] Hs'. wp_step. by apply Hack.
    + intros s' e Hs'. wp_step. by apply Hack.
Qed.

Definition handle_public_all (pub : gmap N PublicKey) (evs : list (event N)) (m : public_parts) :
    public_parts := foldl (λ m ev, handle_public pub ev m) m evs.

Lemma handle_events_spec evs s :
  idx_ok s → ∃ s', handle_events evs s = Some s' ∧ idx_ok s' ∧
    our_id s' = our_id s ∧ our_idx s' = our_idx s ∧ pub_keys s' = pub_keys s ∧
    threshold s' = threshold s ∧
    public s' = handle_public_all (pub_keys s) evs (public s) ∧ (values_ok s → values_ok s').
Proof.
  revert s. induction evs as [|ev evs IH]; intros s Hok; [by exists s|].
  destruct (handle_event_spec ev s Hok) as (s1 & Hs1 & Htr).
  assert (Hok1 : idx_ok s1).
  { unfold idx_ok. by rewrite (tr_our_idx _ _ _ Htr), (tr_our_id _ _ _ Htr), (tr_pub_keys _ _ _ Htr). }
  destruct (IH s1 Hok1) as (s' & Hs' & Hok' & Hid & Hidx & Hpk & Ht & Hpub & Hv).
  exists s'. simpl. rewrite Hs1. simpl. destruct Htr. split_and!; try congruence; auto.
Qed.

(** ** The public key set *)
Definition complete_public (t : nat) (m : public_parts) : list (BivarCommitment * gset u64) :=
  filter (λ x, 2 * t < size x.2) (@BTree.values u64 Z_ord_key _ m).

Lemma complete_parts_public s :
  (λ p, (commit p, acks p)) <$> complete_parts s = complete_public (threshold s) (public s).
Proof.
  unfold complete_parts, complete_public, part_states, public.
  pose proof (values_fmap (H := Z_ord_key) (λ p, (commit p, acks p)) (parts s)) as Hv.
  etransitivity; [|symmetry; exact (f_equal (filter _) Hv)]. clear Hv.
  induction (@BTree.values u64 Z_ord_key _ (parts s)) as [|p l IH]; [done|]. csimpl.
  rewrite !filter_cons.
  assert (Hiff : is_complete (threshold s) p = true ↔ 2 * threshold s < size (acks p))
    by apply bool_decide_eq_true.
  destruct (decide (2 * threshold s < size (acks p))) as [Hd|Hd].
  - rewrite decide_True by (by apply Hiff). csimpl. rewrite decide_True by done. by rewrite IH.
  - rewrite decide_False by (by rewrite Hiff). csimpl. by rewrite decide_False by done.
Qed.

Lemma count_complete_public s : count_complete s = length (complete_public (threshold s) (public s)).
Proof. unfold count_complete. by rewrite <- complete_parts_public, length_fmap. Qed.

Definition key_set_of (l : list (BivarCommitment * gset u64)) : PublicKeySet :=
  pk_set_of_commitment
    (foldl (λ c x, commitment_add c (bivar_commitment_row x.1 0)) (poly_commitment poly_zero) l).

Lemma generate_public s :
  (generate s).1 = key_set_of (complete_public (threshold s) (public s)).
Proof.
  rewrite <- complete_parts_public. unfold generate, key_set_of.
  generalize ((λ _, fr_zero) <$> our_idx s) as o, (poly_commitment poly_zero) as c.
  induction (complete_parts s) as [|p l IH]; intros o c; [done|]. csimpl. apply IH.
Qed.

Lemma is_node_ready_public s id :
  is_node_ready s id =
    match node_index s id ≫= λ idx, public s !! idx with
    | Some (_, a) => bool_decide (2 * threshold s < size a)
    | None => false
    end.
Proof.
  unfold is_node_ready, public. destruct (node_index s id) as [idx|]; [|done]. cbn.
  rewrite lookup_fmap. by destruct (parts s !! idx).
Qed.

(** ** Properties *)

(** Two nodes' instances of one key generation; their keys and decrypted values differ. *)
Definition same_public s1 s2 : Prop :=
  pub_keys s1 = pub_keys s2 ∧ threshold s1 = threshold s2 ∧ public s1 = public s2.

(** C29: The public state is a function of the messages: whoever handles a sequence of [Part]s and
    [Ack]s, with whatever keys, ends in the state that [handle_public] computes from the
    sequence, whether single messages are accepted, are faulty or fail; nothing panics. *)
Theorem public_state_refines evs s :
  idx_ok s →
  ∃ s', handle_events evs s = Some s' ∧ pub_keys s' = pub_keys s ∧ threshold s' = threshold s ∧
    public s' = handle_public_all (pub_keys s) evs (public s).
Proof.
  intros Hok. destruct (handle_events_spec evs s Hok) as (s' & ? & _ & _ & _ & ? & ? & ? & _).
  by exists s'.
Qed.

(** Nodes that handle the same sequence of messages agree at every point of it on which parts
    are complete, on whether the keys can be generated, and on the public key set that
    [generate] returns. *)
Theorem nodes_agree evs s1 s2 :
  idx_ok s1 → idx_ok s2 → same_public s1 s2 →
  ∃ s1' s2', handle_events evs s1 = Some s1' ∧ handle_events evs s2 = Some s2' ∧
    count_complete s1' = count_complete s2' ∧ is_ready s1' = is_ready s2' ∧
    (∀ id, is_node_ready s1' id = is_node_ready s2' id) ∧
    (generate s1').1 = (generate s2').1.
Proof.
  intros Hok1 Hok2 (Hpk & Ht & Hpub).
  destruct (handle_events_spec evs s1 Hok1) as (s1' & H1 & _ & _ & _ & Hpk1 & Ht1 & Hpub1 & _).
  destruct (handle_events_spec evs s2 Hok2) as (s2' & H2 & _ & _ & _ & Hpk2 & Ht2 & Hpub2 & _).
  assert (Hpub' : public s1' = public s2') by congruence.
  assert (Ht' : threshold s1' = threshold s2') by congruence.
  exists s1', s2'. split_and!; [done..| | | |].
  - by rewrite !count_complete_public, Hpub', Ht'.
  - unfold is_ready. by rewrite !count_complete_public, Hpub', Ht'.
  - intros id. rewrite !is_node_ready_public, Hpub', Ht'. unfold node_index. by rewrite Hpk1, Hpk2, Hpk.
  - by rewrite !generate_public, Hpub', Ht'.
Qed.
End facts.

(** ** The secret key shares *)

(** What the crate's polynomials satisfy: [BivarPoly]s are symmetric; every commitment is the
    commitment to some polynomial ([G1] is generated by [one()]), which its values
    determine; and [t + 1] points of a polynomial of degree [t] determine it.  A share made
    of a value of a polynomial belongs to the public share of the committed polynomial. *)
Class PolyLaws `{PolyLib} := {
  poly_add : Poly → Poly → Poly;
  bivar_dlog : BivarCommitment → BivarPoly;
  bivar_degree : BivarPoly → nat;
  poly_evaluate_add p q x : poly_evaluate (poly_add p q) x = fr_add (poly_evaluate p x) (poly_evaluate q x);
  poly_evaluate_zero x : poly_evaluate poly_zero x = fr_zero;
  commitment_add_poly p q :
    commitment_add (poly_commitment p) (poly_commitment q) = poly_commitment (poly_add p q);
  bivar_dlog_ok c : bivar_commitment (bivar_dlog c) = c;
  g1_one_mul_inj x y : g1_one_mul x = g1_one_mul y → x = y;
  bivar_commitment_row_ok f x : bivar_commitment_row (bivar_commitment f) x = poly_commitment (bivar_row f x);
  bivar_commitment_evaluate_ok f x y :
    bivar_commitment_evaluate (bivar_commitment f) x y = g1_one_mul (poly_evaluate (bivar_row f x) y);
  bivar_symmetric f x y : poly_evaluate (bivar_row f x) y = poly_evaluate (bivar_row f y) x;
  poly_interpolate_row f a pts t z :
    bivar_degree f ≤ t → length pts = t + 1 → NoDup pts.*1 →
    Forall (λ pt, pt.2 = poly_evaluate (bivar_row f a) pt.1) pts →
    poly_evaluate (poly_interpolate pts) z = poly_evaluate (bivar_row f a) z;
  share_verifies p i g :
    pk_share_verify_g2 (pk_set_public_key_share (pk_set_of_commitment (poly_commitment p)) i)
      (sk_share_sign_g2 (sk_share_from_fr (poly_evaluate p (u64_add (Z.of_nat i) 1))) g) g = true;
}.

Section shares.
Context {N : Type} `{ord : NodeIdT N} `{crypto : Crypto} `{pl : !PolyLib} `{laws : !PolyLaws}
  `{bin_poly : !Bincode Poly} `{bin_fr : !Bincode Fr}.
Abbreviation State := (SyncKeyGen N).
Implicit Types (s : State) (p : ProposalState).

(** The polynomial whose value at 0 is the secret master key: the sum of what the complete
    parts commit to. *)
Definition master (l : list ProposalState) : Poly :=
  foldl (λ q p, poly_add q (bivar_row (bivar_dlog (commit p)) 0)) poly_zero l.

(** A part whose dealer committed to a polynomial of degree at most [t] and of whose
    acknowledgements at most [t] came without a valid value for this node *)
Definition sound_part (t : nat) p : Prop :=
  bivar_degree (bivar_dlog (commit p)) ≤ t ∧ size (acks p) ≤ size (values p) + t.

Lemma part_secret t i p :
  2 * t < size (acks p) → sound_part t p →
  (∀ x v, values p !! x = Some v →
    bivar_commitment_evaluate (commit p) (u64_add i 1) x = g1_one_mul v) →
  poly_evaluate (poly_interpolate (take (t + 1) (part_values p))) 0 =
    poly_evaluate (bivar_row (bivar_dlog (commit p)) 0) (u64_add i 1).
Proof.
  intros Hc [Hd Hn] Hv. set (f := bivar_dlog (commit p)).
  rewrite (bivar_symmetric f 0). apply (poly_interpolate_row f _ _ t); [done| | |].
  - rewrite length_take.
    assert (Hl : length (part_values p) = size (values p)) by apply (length_entries (H := Z_ord_key)).
    rewrite Hl. lia.
  - rewrite fmap_take. eapply sublist_NoDup; [|apply sublist_take].
    apply (NoDup_keys (H := Z_ord_key)).
  - apply Forall_take, Forall_forall. intros [x v] Hin%(elem_of_entries (H := Z_ord_key)). cbn.
    apply Hv in Hin. rewrite <- (bivar_dlog_ok (commit p)) in Hin. fold f in Hin.
    rewrite bivar_commitment_evaluate_ok in Hin. symmetry. by apply g1_one_mul_inj.
Qed.

Lemma complete_part_in s p : p ∈ complete_parts s → 2 * threshold s < size (acks p) ∧
  ∃ j, parts s !! j = Some p.
Proof.
  unfold complete_parts. intros [Hc Hin]%list_elem_of_filter. split.
  - unfold is_complete in Hc. by apply bool_decide_eq_true in Hc.
  - by apply (elem_of_values (H := Z_ord_key)) in Hin.
Qed.

Lemma generate_shares s i :
  our_idx s = Some i → values_ok s → Forall (sound_part (threshold s)) (complete_parts s) →
  generate s = (pk_set_of_commitment (poly_commitment (master (complete_parts s))),
    Some (sk_share_from_fr (poly_evaluate (master (complete_parts s)) (u64_add i 1)))).
Proof.
  intros Hi Hv Hs. unfold generate, master. rewrite Hi. cbn [fmap option_fmap option_map].
  assert (Hl : ∀ p, p ∈ complete_parts s →
    poly_evaluate (poly_interpolate (take (threshold s + 1) (part_values p))) 0 =
    poly_evaluate (bivar_row (bivar_dlog (commit p)) 0) (u64_add i 1)).
  { intros p Hp. destruct (complete_part_in s p Hp) as [Hc [j Hj]].
    rewrite Forall_forall in Hs. apply part_secret; [done|by apply Hs|].
    intros x v Hx. by destruct (Hv i j p x v Hi Hj Hx). }
  rewrite <- (poly_evaluate_zero (u64_add i 1)).
  generalize poly_zero as q. clear Hs.
  induction (complete_parts s) as [|p l IH]; intros q; [done|]. csimpl.
  rewrite Hl by (by left). rewrite <- poly_evaluate_add.
  rewrite <- (bivar_dlog_ok (commit p)) at 1. rewrite bivar_commitment_row_ok, commitment_add_poly.
  apply IH. intros p' Hp'. apply Hl. by right.
Qed.

(** C28: The generated keys fit together: if of every complete part the committed polynomial has the
    right degree and at most [threshold] acknowledgements lacked a valid value for this
    node, then the share that this node generates is the value, at its index, of one
    polynomial, the one that the public key set commits to; that polynomial depends only on
    the public state, and signature shares made with the share verify under the node's
    public key share. *)
Theorem generated_shares_fit evs s s' i :
  idx_ok s → values_ok s → our_idx s = Some (Z.of_nat i) → handle_events evs s = Some s' →
  Forall (sound_part (threshold s')) (complete_parts s') →
  ∃ sk, generate s' = (pk_set_of_commitment (poly_commitment (master (complete_parts s'))), Some sk) ∧
    sk = sk_share_from_fr (poly_evaluate (master (complete_parts s')) (u64_add (Z.of_nat i) 1)) ∧
    ∀ g, pk_share_verify_g2 (pk_set_public_key_share (generate s').1 i) (sk_share_sign_g2 sk g) g = true.
Proof.
  intros Hok Hv Hi Hs' Hs.
  destruct (handle_events_spec evs s Hok) as (s1 & Hs1 & _ & _ & Hidx & _ & _ & _ & Hv1).
  assert (s1 = s') as -> by congruence. rewrite Hi in Hidx.
  pose proof (generate_shares s' (Z.of_nat i) Hidx (Hv1 Hv) Hs) as Hg. rewrite Hg.
  eexists. split; [done|]. split; [done|]. intros g. apply share_verifies.
Qed.
End shares.
End sync_key_gen.
