(* ===== verification/SyncKeyGenDemo.v ===== *)
(** * Key generation over the rationals

    An executable instance of the polynomial interface: polynomials of degree at most two
    over the rationals, commitments that show the coefficients, and the laws.  With it,
    the properties of [SyncKeyGen] are applied to a run of four nodes, and a run with a
    dealer that commits to a polynomial of too high a degree is evaluated. *)
From S2P Require Import Prelude.
From S2P Require Import BTree.
From S2P Require Import NetworkInfo.
From S2P Require Import Merkle.
From S2P Require Import Instances.
From S2P Require Import SyncKeyGen.
From Stdlib Require Import QArith Qcanon Field.

Module quadratic.
Import sync_key_gen.

(** ** The field *)
Definition qc (z : Z) : Qc := Q2Qc (inject_Z z).

Lemma qc_inj x y : qc x = qc y → x = y.
Proof.
  unfold qc. intros Hq. apply (f_equal this) in Hq. simpl in Hq. apply Qred_eq_iff in Hq.
  unfold inject_Z, Qeq in Hq. simpl in Hq. lia.
Qed.

#[local] Instance Qc_eq_decision : EqDecision Qc := Qc_eq_dec.

(** [c0 + c1 x + c2 x^2] *)
Record quad : Type := Quad { c0 : Qc; c1 : Qc; c2 : Qc }.
(** The symmetric polynomial with the coefficients of [1], [x + y], [x y], [x^2 + y^2],
    [x^2 y + x y^2] and [x^2 y^2] *)
Record biquad : Type := Biquad { b00 : Qc; b01 : Qc; b11 : Qc; b02 : Qc; b12 : Qc; b22 : Qc }.
#[local] Instance quad_eq_dec : EqDecision quad.
Proof. solve_decision. Defined.
#[local] Instance biquad_eq_dec : EqDecision biquad.
Proof. solve_decision. Defined.

Section operations.
#[local] Open Scope Qc_scope.
Definition eval (p : quad) (x : Qc) : Qc := c0 p + c1 p * x + c2 p * x * x.
Definition add (p q : quad) : quad := Quad (c0 p + c0 q) (c1 p + c1 q) (c2 p + c2 q).
Definition row (f : biquad) (x : Qc) : quad :=
  Quad (b00 f + b01 f * x + b02 f * x * x) (b01 f + b11 f * x + b12 f * x * x)
    (b02 f + b12 f * x + b22 f * x * x).
(** Through the first one, two or three points *)
Definition interpolate (pts : list (Z * Qc)) : quad :=
  match pts with
  | [] => Quad 0 0 0
  | [(_, y)] => Quad y 0 0
  | [(x1, y1); (x2, y2)] =>
      let d := (y2 - y1) / (qc x2 - qc x1) in Quad (y1 - d * qc x1) d 0
  | (x1, y1) :: (x2, y2) :: (x3, y3) :: _ =>
      let d12 := (y2 - y1) / (qc x2 - qc x1) in
      let d13 := (y3 - y1) / (qc x3 - qc x1) in
      let c := (d13 - d12) / (qc x3 - qc x2) in
      let b := d12 - c * (qc x1 + qc x2) in
      Quad (y1 - b * qc x1 - c * qc x1 * qc x1) b c
  end.
Definition degree (f : biquad) : nat :=
  if decide (b02 f = 0 ∧ b12 f = 0 ∧ b22 f = 0)
  then if decide (b01 f = 0 ∧ b11 f = 0) then 0%nat else 1%nat
  else 2%nat.
End operations.
#[local] Open Scope nat_scope.

(** ** Keys and polynomials

    Individual keys as in [number_crypto]; a threshold key share is a field element, and
    the public key set is the polynomial. *)
#[local] Instance poly_crypto : Crypto := {|
  SecretKey := nat;
  PublicKey := nat;
  SecretKeyShare := Qc;
  PublicKeyShare := Qc;
  SecretKeySet := quad;
  PublicKeySet := quad;
  Signature := nat * bytes;
  SignatureShare := Qc * bytes;
  Ciphertext := nat * bytes;
  DecryptionShare := Qc * bytes;
  G2 := bytes;
  CryptoError := unit;
  Rng := nat;
  sk_set_random t rng := (Quad (qc (Z.of_nat rng)) 0%Qc 0%Qc, S rng);
  sk_set_public_keys s := s;
  sk_set_secret_key_share s i := eval s (qc (u64_add (Z.of_nat i) 1));
  pk_set_public_key_share s i := eval s (qc (u64_add (Z.of_nat i) 1));
  pk_set_public_key s := 0;
  sk_gen rng := (rng, S rng);
  sk_public_key sk := sk;
  sk_sign sk msg := (sk, msg);
  pk_verify pk sig msg := bool_decide (sig = (pk, msg));
  sk_decrypt sk ct := if decide (ct.1 = sk) then Some ct.2 else None;
  pk_encrypt_with_rng pk rng msg := ((pk, msg), S rng);
  hash_g2 msg := msg;
  sk_share_sign_g2 sk g := (sk, g);
  pk_share_verify_g2 pk share g := bool_decide (share = (pk, g));
  pk_verify_g2 pk sig g := bool_decide (sig = (pk, g));
  pk_set_combine_signatures s shares := inl ();
  sig_parity sig := Nat.odd (length sig.2);
  ct_verify ct := true;
  sk_share_decrypt_share_no_verify sk ct := (sk, ct.2);
  pk_share_verify_decryption_share pk share ct := bool_decide (share = (pk, ct.2));
  pk_set_decrypt s shares ct := inl ()
|}.

#[local] Instance quadratic_poly : PolyLib := {|
  Fr := Qc;
  G1 := Qc;
  Poly := quad;
  Commitment := quad;
  BivarPoly := biquad;
  BivarCommitment := biquad;
  fr_zero := 0%Qc;
  fr_add := Qcplus;
  g1_one_mul x := x;
  poly_zero := Quad 0 0 0;
  poly_evaluate p x := eval p (qc x);
  poly_interpolate := interpolate;
  poly_commitment p := p;
  commitment_add := add;
  bivar_random t rng :=
    (Biquad (qc (Z.of_nat rng)) (if decide (0 < t) then 2%Qc else 0%Qc)
       (if decide (0 < t) then 1%Qc else 0%Qc) 0%Qc 0%Qc 0%Qc, S rng);
  bivar_row f x := row f (qc x);
  bivar_commitment f := f;
  bivar_commitment_row c x := row c (qc x);
  bivar_commitment_evaluate c x y := eval (row c (qc x)) (qc y);
  pk_set_of_commitment c := c;
  sk_share_from_fr x := x;
|}.

(** A field element that is a small natural number takes one byte; other elements are not
    used by the runs and do not serialize. *)
#[local] Instance bin_fr : Bincode Qc := {|
  bin_serialize (x : Qc) :=
    if decide (Qden (this x) = 1%positive ∧ (0 <= Qnum (this x) < 256)%Z)
    then Some [byte_of_Z (Qnum (this x))] else None;
  bin_deserialize l := match l with [b] => Some (qc (byte_to_Z b)) | _ => None end;
|}.
#[local] Instance bin_poly : Bincode quad := {|
  bin_serialize p :=
    x ← bin_serialize (c0 p); y ← bin_serialize (c1 p); z ← bin_serialize (c2 p); Some (x ++ y ++ z);
  bin_deserialize l :=
    match l with
    | [x; y; z] => Some (Quad (qc (byte_to_Z x)) (qc (byte_to_Z y)) (qc (byte_to_Z z)))
    | _ => None
    end;
|}.

(** ** The laws *)
Lemma qc_minus_ne x y : x ≠ y → (qc x - qc y ≠ 0)%Qc.
Proof.
  intros Hne He. apply Hne, qc_inj. replace (qc x) with (qc x - qc y + qc y)%Qc by ring.
  rewrite He. ring.
Qed.

Lemma interpolate_ok f a pts t z :
  degree f ≤ t → length pts = t + 1 → NoDup pts.*1 →
  Forall (λ pt, pt.2 = eval (row f a) (qc pt.1)) pts →
  eval (interpolate pts) z = eval (row f a) z.
Proof.
  intros Hd Hl Hnd Hall.
  destruct pts as [|[x1 y1] [|[x2 y2] [|[x3 y3] pts]]]; simpl in *.
  - lia.
  - assert (Hf : b02 f = 0%Qc ∧ b12 f = 0%Qc ∧ b22 f = 0%Qc ∧ b01 f = 0%Qc ∧ b11 f = 0%Qc).
    { unfold degree in Hd. repeat case_decide; [naive_solver|lia|lia]. }
    destruct Hf as (H1 & H2 & H3 & H4 & H5). rewrite Forall_singleton in Hall. simpl in Hall.
    rewrite Hall. unfold eval, row; simpl. rewrite H1, H2, H3, H4, H5. ring.
  - assert (Hf : b02 f = 0%Qc ∧ b12 f = 0%Qc ∧ b22 f = 0%Qc).
    { unfold degree in Hd. repeat case_decide; [naive_solver|naive_solver|lia]. }
    destruct Hf as (H1 & H2 & H3). rewrite !Forall_cons in Hall. destruct Hall as (Hy1 & Hy2 & _).
    simpl in *. rewrite Hy1, Hy2. unfold eval, row; simpl. rewrite H1, H2, H3.
    field. apply qc_minus_ne. intros ->. rewrite NoDup_cons in Hnd. set_solver.
  - rewrite !Forall_cons in Hall. destruct Hall as (Hy1 & Hy2 & Hy3 & _). simpl in *.
    rewrite !NoDup_cons in Hnd. destruct Hnd as (Hn1 & Hn2 & _).
    rewrite Hy1, Hy2, Hy3. unfold eval at 1; simpl. unfold eval; simpl.
    field. split_and!; apply qc_minus_ne; set_solver.
Qed.

Lemma eval_add p q x : eval (add p q) x = (eval p x + eval q x)%Qc.
Proof. unfold eval; simpl. ring. Qed.
Lemma eval_zero x : eval (Quad 0 0 0) x = 0%Qc.
Proof. unfold eval; simpl. ring. Qed.
Lemma row_symmetric f x y : eval (row f x) y = eval (row f y) x.
Proof. unfold eval, row; simpl. ring. Qed.

#[local] Instance quadratic_laws : PolyLaws.
Proof.
  refine {| poly_add := (add : @Poly _ quadratic_poly → @Poly _ quadratic_poly → @Poly _ quadratic_poly);
    bivar_dlog := (id : @BivarCommitment _ quadratic_poly → @BivarPoly _ quadratic_poly);
    bivar_degree := (degree : @BivarPoly _ quadratic_poly → nat) |}; simpl.
  - intros p q x. apply eval_add.
  - intros x. apply eval_zero.
  - reflexivity.
  - reflexivity.
  - intros x y Hxy. exact Hxy.
  - reflexivity.
  - reflexivity.
  - intros f x y. apply row_symmetric.
  - intros f a pts t z. apply interpolate_ok.
  - intros p i g. apply bool_decide_eq_true. reflexivity.
Defined.

(** ** Runs of four nodes with threshold 1 *)
Abbreviation State := (SyncKeyGen nat).
Abbreviation Event := (sync_key_gen.event nat).

Definition demo_node (i : nat) : State * option Part :=
  match new (crypto := poly_crypto) i (10 + i) (four_keys : gmap nat (@PublicKey poly_crypto)) 1 (5 + i) with
  | inr (s, part, _) => (s, part)
  | inl _ => (mkSKG _ _ _ _ i None i ∅ ∅ 0, None)
  end.

(** The acknowledgement of node [i] for a part of node [j] *)
Definition demo_ack (j : nat) (part : Part) (i : nat) : list Event :=
  match handle_part j part 0 (demo_node i).1 with
  | Ok _ (PartValid (Some ack), _) => [EvAck i ack]
  | _ => []
  end.
(** The parts, and then the acknowledgements of all nodes *)
Definition demo_events (parts : list (nat * Part)) : list Event :=
  ((λ '(j, part), EvPart j part 0) <$> parts) ++
  ('(j, part) ← parts; i ← [0; 1; 2; 3]; demo_ack j part i).

(** No message of the sequence is found to be invalid. *)
Fixpoint all_valid (evs : list Event) (s : State) : bool :=
  match evs with
  | [] => true
  | EvPart j part rng :: evs =>
      match handle_part j part rng s with
      | Ok s (PartValid _, _) => all_valid evs s
      | _ => false
      end
  | EvAck j ack :: evs =>
      match handle_ack j ack s with
      | Ok s AckValid => all_valid evs s
      | _ => false
      end
  end.

Definition honest_events : list Event :=
  demo_events (omap (λ j, pair j <$> (demo_node j).2) [0; 1]).

#[local] Instance sound_part_dec t p : Decision (sound_part t p).
Proof. unfold sound_part. apply _. Defined.

(** The conclusion of [generated_shares_fit], on a run whose end is computed *)
Lemma fit_of (o : option State) (i : nat) (Q : State → Prop) :
  (∀ s', o = Some s' → Forall (sound_part (threshold s')) (complete_parts s') → Q s') →
  from_option (λ s', bool_decide (Forall (sound_part (threshold s')) (complete_parts s'))) false o = true →
  ∃ s', o = Some s' ∧ Q s'.
Proof.
  intros HQ Hb. destruct o as [s'|]; [|done]. exists s'. split; [done|]. apply HQ; [done|].
  simpl in Hb. by apply bool_decide_eq_true in Hb.
Qed.

Lemma generated_shares_fit_witness :
  ∃ s', handle_events honest_events (demo_node 2).1 = Some s' ∧
  ∃ sk, generate s' = (pk_set_of_commitment (poly_commitment (master (complete_parts s'))), Some sk) ∧
    sk = sk_share_from_fr (poly_evaluate (master (complete_parts s')) (u64_add (Z.of_nat 2) 1)) ∧
    ∀ g, pk_share_verify_g2 (pk_set_public_key_share (generate s').1 2) (sk_share_sign_g2 sk g) g = true.
Proof.
  apply (fit_of _ 2).
  - intros s' Hs' Hall.
    apply (generated_shares_fit honest_events (demo_node 2).1 s' 2); [reflexivity| |reflexivity|exact Hs'|exact Hall].
    intros i j p x v _ Hj. exfalso. revert Hj. change (parts (demo_node 2).1) with (∅ : gmap u64 ProposalState).
    rewrite lookup_empty. discriminate.
  - vm_compute. reflexivity.
Defined.

Lemma public_state_refines_witness :
  ∃ s', handle_events honest_events (demo_node 2).1 = Some s' ∧
    pub_keys s' = pub_keys (demo_node 2).1 ∧ threshold s' = threshold (demo_node 2).1 ∧
    public s' = handle_public_all (pub_keys (demo_node 2).1) honest_events (public (demo_node 2).1).
Proof. apply (public_state_refines honest_events (demo_node 2).1). reflexivity. Defined.

Lemma nodes_agree_witness :
  ∃ s1' s2', handle_events honest_events (demo_node 1).1 = Some s1' ∧
    handle_events honest_events (demo_node 3).1 = Some s2' ∧
    count_complete s1' = count_complete s2' ∧ is_ready s1' = is_ready s2' ∧
    (∀ id, is_node_ready s1' id = is_node_ready s2' id) ∧
    (generate s1').1 = (generate s2').1.
Proof.
  apply (nodes_agree honest_events (demo_node 1).1 (demo_node 3).1);
    [reflexivity|reflexivity|split_and!; reflexivity].
Defined.

(** ** A commitment of too high a degree *)
Definition oversized : biquad := Biquad 1%Qc 0%Qc 0%Qc 1%Qc 0%Qc 0%Qc.
Definition oversized_part : option Part :=
  match encrypt_rows (crypto := poly_crypto) (oversized : @BivarPoly _ quadratic_poly) 0 [10; 11; 12; 13] 0 with
  | inr (rows, _) => Some (mkPart _ _ (oversized : @BivarCommitment _ quadratic_poly) rows)
  | inl _ => None
  end.
Definition oversized_events : list Event :=
  demo_events (option_list (pair 0 <$> (demo_node 0).2) ++ option_list (pair 1 <$> oversized_part)).

Definition ready_but_unfit (s : State) : bool :=
  is_ready s &&
  match (generate s).2 with
  | Some sk => negb (bool_decide ((sk : Qc) = eval (generate s).1 (qc (u64_add (Z.of_nat 2) 1))))
  | None => false
  end.
Lemma checked {A} (o : option A) (P : A → bool) :
  from_option P false o = true → ∃ a, o = Some a ∧ P a = true.
Proof. destruct o as [a|]; [by exists a|done]. Qed.
Lemma unfit_run :
  from_option ready_but_unfit false (handle_events oversized_events (demo_node 2).1) = true.
Proof. vm_compute. reflexivity. Qed.

(** C37: A dealer can break the key generation without being detected: with four nodes and threshold
    1, every node accepts every message of a run in which node 1 commits to a polynomial of
    degree 2, the generation is ready, and yet node 2 generates a key share whose
    signature shares do not verify under its public key share, on any message.  The code
    compares rows and values with the commitment but never the degree with the threshold. *)
Theorem oversized_part_accepted :
  (∀ i, i < 4 → all_valid oversized_events (demo_node i).1 = true) ∧
  ∃ s' sk, handle_events oversized_events (demo_node 2).1 = Some s' ∧ is_ready s' = true ∧
    (generate s').2 = Some sk ∧
    ∀ g, pk_share_verify_g2 (pk_set_public_key_share (generate s').1 2) (sk_share_sign_g2 sk g) g = false.
Proof.
  split.
  { intros [|[|[|[|i]]]] Hi; [vm_compute; reflexivity..|lia]. }
  destruct (checked _ ready_but_unfit unfit_run) as (s' & Hs' & Hu).
  unfold ready_but_unfit in Hu. apply andb_true_iff in Hu as [Hr Hu].
  destruct (generate s').2 as [sk|] eqn:Hsk; [|discriminate Hu].
  apply negb_true_iff, bool_decide_eq_false in Hu. exists s', sk. split_and!; [done..|].
  intros g. apply bool_decide_eq_false. intros Hg. injection Hg as Hg. exact (Hu Hg).
Qed.
End quadratic.
