(* ===== verification/DhbTypes.v ===== *)
(** * Changes, errors and faults of Dynamic Honey Badger

    Models [src/dynamic_honey_badger/change.rs] and [error.rs], which the vote counter
    and the algorithm share. *)
From S2P Require Import Prelude.
From S2P Require Import BTree.
From S2P Require Import NetworkInfo.
From S2P Require Import HoneyBadger.
From S2P Require Import SyncKeyGen.

Module dhb.

Inductive Error `{Crypto} : Type :=
  | SerializeKeyGen
  | SerializeVote
  | ProposeHoneyBadger (e : honey_badger.Error)
  | HandleHoneyBadgerMessage (e : honey_badger.Error)
  | SyncKeyGen (e : sync_key_gen.Error)
  | UnknownSender.

Inductive FaultKind : Type :=
  | InvalidKeyGenMessageSignature
  | InvalidKeyGenMessageEra
  | UnexpectedKeyGenMessage
  | UnexpectedKeyGenAck
  | UnexpectedKeyGenPart
  | TooManyKeyGenMessages
  | IncorrectPayloadSignature
  | SyncKeyGenAck (fault : sync_key_gen.AckFault)
  | SyncKeyGenPart (fault : sync_key_gen.PartFault)
  | InvalidVoteSignature
  | InvalidCommittedVote
  | UnexpectedDhbMessageEra
  | HbFault (kind : honey_badger.FaultKind).

Inductive Change {N : Type} `{NodeIdT N, Crypto} : Type :=
  | NodeChange (pub_keys : gmap N PublicKey)
  | EncryptionSchedule (schedule : honey_badger.EncryptionSchedule).
Arguments Change N {_ _}.

Inductive ChangeState {N : Type} `{NodeIdT N, Crypto} : Type :=
  | NoChange
  | InProgress (change : Change N)
  | Complete (change : Change N).
Arguments ChangeState N {_ _}.

#[global] Instance EncryptionSchedule_eq_dec : EqDecision honey_badger.EncryptionSchedule.
Proof. solve_decision. Defined.
#[global] Instance Change_eq_dec {N} `{NodeIdT N, Crypto} : EqDecision (Change N).
Proof. solve_decision. Defined.
#[global] Instance ChangeState_eq_dec {N} `{NodeIdT N, Crypto} : EqDecision (ChangeState N).
Proof. solve_decision. Defined.
#[global] Instance SubsetHandlingStrategy_eq_dec : EqDecision honey_badger.SubsetHandlingStrategy.
Proof. solve_decision. Defined.
#[global] Instance Params_eq_dec : EqDecision honey_badger.Params.
Proof. solve_decision. Defined.
End dhb.
