(* ===== verification/Votes.v ===== *)
(** * The vote counter

    Models [src/dynamic_honey_badger/votes.rs]: signed votes, the pending and the
    committed ones, and the change that wins.  Votes are signed in their [bincode]
    form, a parameter. *)
From S2P Require Import Prelude.
From S2P Require Import BTree.
From S2P Require Import Traits.
From S2P Require Import NetworkInfo.
From S2P Require Import DhbTypes.
From S2P Require Import Instances.

Module votes.
Import dhb.

Record Vote {N : Type} `{NodeIdT N, Crypto} : Type := mkVote {
  change : Change N;
  vote_era : u64;
  num : u64;
}.
Arguments Vote N {_ _}.
Record SignedVote {N : Type} `{NodeIdT N, Crypto} : Type := mkSignedVote {
  vote : Vote N;
  voter : N;
  sig : Signature;
}.
Arguments SignedVote N {_ _}.
#[global] Instance Vote_eq_dec {N} `{NodeIdT N, Crypto} : EqDecision (Vote N).
Proof. solve_decision. Defined.
#[global] Instance SignedVote_eq_dec {N} `{NodeIdT N, Crypto} : EqDecision (SignedVote N).
Proof. solve_decision. Defined.

Record VoteCounter {N : Type} `{NodeIdT N, Crypto} : Type := mkVC {
  netinfo : NetworkInfo N;
  era : u64;
  pending : gmap N (SignedVote N);
  committed : gmap N (Vote N);
}.
Arguments VoteCounter N {_ _}.
#[global] Instance VoteCounter_settable {N} `{NodeIdT N, Crypto} : Settable (VoteCounter N) := λ s,
  mkVC _ _ _ (netinfo s) (era s) (pending s) (committed s).

(** The counts of [compute_winner]'s hash map: [entry(change).or_insert(0) += 1],
    with the new count. *)
Fixpoint count_vote {A} `{EqDecision A} (x : A) (counts : list (A * nat)) : nat * list (A * nat) :=
  match counts with
  | [] => (1, [(x, 1)])
  | (y, n) :: counts =>
      if decide (x = y) then (S n, (y, S n) :: counts)
      else let '(m, counts) := count_vote x counts in (m, (y, n) :: counts)
  end.

(** The first element that occurs more than [f] times in the elements up to it. *)
Fixpoint first_above {A} `{EqDecision A} (f : nat) (counts : list (A * nat)) (l : list A) : option A :=
  match l with
  | [] => None
  | x :: l =>
      let '(n, counts) := count_vote x counts in
      if decide (f < n) then Some x else first_above f counts l
  end.

Section votes.
Context {N : Type} `{ord : NodeIdT N} `{crypto : Crypto} `{bin_vote : !Bincode (Vote N)}.
Abbreviation State := (VoteCounter N).
Abbreviation VM := (M State Error).

Definition sv_era (sv : SignedVote N) : u64 := vote_era (vote sv).

Definition new (ni : NetworkInfo N) (era : u64) : State := mkVC _ _ _ ni era ∅ ∅.

Definition sign_vote_for (change : Change N) : VM (SignedVote N) :=
  s ← get;
  let voter := our_id (netinfo s) in
  let vote := mkVote _ _ _ change (era s)
    (match pending s !! voter with Some sv => u64_add (num (vote sv)) 1 | None => 0%Z end) in
  ser_vote ← ok_or (bin_serialize vote) SerializeVote;
  let signed_vote := mkSignedVote _ _ _ vote voter (sk_sign (secret_key (netinfo s)) ser_vote) in
  modify (λ s, s <| pending ::= λ p, <[voter := signed_vote]> (delete voter p) |>);;
  mret signed_vote.

Definition validate (signed_vote : SignedVote N) : VM bool :=
  s ← get;
  ser_vote ← ok_or (bin_serialize (vote signed_vote)) SerializeVote;
  mret (match public_key (netinfo s) (voter signed_vote) with
        | Some pk => pk_verify pk (sig signed_vote) ser_vote
        | None => false
        end).

Definition add_pending_vote (sender_id : N) (signed_vote : SignedVote N) :
    VM (FaultLog N FaultKind) :=
  s ← get;
  if negb (bool_decide (vote_era (vote signed_vote) = era s))
     || match pending s !! voter signed_vote with
        | Some sv => bool_decide (num (vote signed_vote) <= num (vote sv))%Z
        | None => false
        end
  then mret faultlog_new
  else
    ok ← validate signed_vote;
    if negb ok then mret (faultlog_init sender_id InvalidVoteSignature)
    else
      modify (λ s, s <| pending ::= <[voter signed_vote := signed_vote]> |>);;
      mret faultlog_new.

(** [vote] is newer than the vote of its voter that was committed last. *)
Definition newer_than_committed (s : State) (sv : SignedVote N) : bool :=
  match committed s !! voter sv with
  | Some vote' => bool_decide (num vote' < num (vote sv))%Z
  | None => true
  end.
Definition pending_votes (s : State) : list (SignedVote N) :=
  filter (λ sv, newer_than_committed s sv = true) (values (pending s)).

Definition add_committed_vote (proposer_id : N) (signed_vote : SignedVote N) :
    VM (FaultLog N FaultKind) :=
  s ← get;
  if match committed s !! voter signed_vote with
     | Some vote' => bool_decide (num (vote signed_vote) <= num vote')%Z
     | None => false
     end
  then mret faultlog_new
  else
    invalid ←
      (if negb (bool_decide (vote_era (vote signed_vote) = era s)) then mret true
       else ok ← validate signed_vote; mret (negb ok));
    if invalid : bool then mret (faultlog_init proposer_id InvalidCommittedVote)
    else
      modify (λ s, s <| committed ::= <[voter signed_vote := vote signed_vote]> |>);;
      mret faultlog_new.

Definition add_committed_votes (proposer_id : N) (signed_votes : list (SignedVote N)) :
    VM (FaultLog N FaultKind) :=
  for_acc (λ fault_log signed_vote,
    fl ← add_committed_vote proposer_id signed_vote;
    mret (faultlog_extend fault_log fl)) faultlog_new signed_votes.

Definition compute_winner (s : State) : option (Change N) :=
  first_above (num_faulty (netinfo s)) [] (change <$> values (committed s)).
End votes.

(** ** Counting *)
Section counting.
Context {A : Type} `{EqDecision A}.
Implicit Types (x y : A) (counts : list (A * nat)) (l : list A).

Definition occurrences x l : nat := length (filter (x =.) l).

Fixpoint count_of x counts : nat :=
  match counts with
  | [] => 0
  | (y, n) :: counts => if decide (x = y) then n else count_of x counts
  end.

Lemma count_vote_spec x counts :
  let '(n, counts') := count_vote x counts in
  n = S (count_of x counts) ∧ count_of x counts' = n ∧
  ∀ y, y ≠ x → count_of y counts' = count_of y counts.
Proof.
  induction counts as [|[y n] counts IH]; simpl.
  - split_and!; [done|by rewrite decide_True|]. intros y Hy. by rewrite decide_False.
  - destruct (decide (x = y)) as [->|Hxy]; simpl.
    + split_and!; [done|by rewrite decide_True|]. intros z Hz. by rewrite !decide_False.
    + destruct (count_vote x counts) as [m counts']. destruct IH as (-> & Hx & Hy). simpl.
      rewrite decide_False by done. split_and!; [done..|]. intros z Hz.
      destruct (decide (z = y)); [done|]. by apply Hy.
Qed.

Lemma occurrences_cons x y l :
  occurrences x (y :: l) = (if decide (x = y) then 1 else 0) + occurrences x l.
Proof. unfold occurrences. rewrite filter_cons. by destruct (decide (x = y)). Qed.

Lemma first_above_spec f counts l :
  (∀ x, count_of x counts ≤ f) →
  match first_above f counts l with
  | Some x => x ∈ l ∧ f < count_of x counts + occurrences x l
  | None => ∀ x, count_of x counts + occurrences x l ≤ f
  end.
Proof.
  revert counts. induction l as [|y l IH]; intros counts Hc; simpl.
  { intros x. unfold occurrences. rewrite filter_nil. simpl. specialize (Hc x). lia. }
  pose proof (count_vote_spec y counts) as Hs.
  destruct (count_vote y counts) as [n counts']. destruct Hs as (Hn & Hy & Hne).
  assert (Hsum : ∀ x, count_of x counts + occurrences x (y :: l) = count_of x counts' + occurrences x l).
  { intros x. rewrite occurrences_cons. destruct (decide (x = y)) as [->|Hxy]; [lia|].
    rewrite Hne by done. lia. }
  destruct (decide (f < n)) as [Hfn|Hfn].
  - split; [by left|]. rewrite Hsum. lia.
  - assert (Hc' : ∀ x, count_of x counts' ≤ f).
    { intros x. destruct (decide (x = y)) as [->|Hxy]; [lia|]. by rewrite Hne. }
    specialize (IH counts' Hc'). destruct (first_above f counts' l) as [x|].
    + destruct IH as [Hin Hlt]. split; [by right|]. by rewrite Hsum.
    + intros x. by rewrite Hsum.
Qed.
End counting.

Section facts.
Context {N : Type} `{ord : NodeIdT N} `{crypto : Crypto} `{bin_vote : !Bincode (Vote N)}.
Abbreviation State := (VoteCounter N).
Implicit Types (s : State) (sv : SignedVote N) (id : N) (c : Change N).

(** ** Signed votes *)

(** [sv] is a vote of the counter's era with a valid signature of its voter. *)
Definition valid (ni : NetworkInfo N) (era : u64) sv : Prop :=
  vote_era (vote sv) = era ∧
  ∃ ser pk, bin_serialize (vote sv) = Some ser ∧ public_key ni (voter sv) = Some pk ∧
    pk_verify pk (sig sv) ser = true.

Record votes_ok s : Prop := {
  vo_pending : ∀ id sv, pending s !! id = Some sv →
    voter sv = id ∧ valid (netinfo s) (era s) sv;
  vo_committed : ∀ id v, committed s !! id = Some v →
    ∃ sg, valid (netinfo s) (era s) (mkSignedVote _ _ _ v id sg);
}.

Lemma new_ok ni era : votes_ok (new ni era).
Proof. by constructor. Qed.

Lemma validate_spec sv s :
  wp (validate sv) s
    (λ s' ok, s' = s ∧
      (ok = true ↔ ∃ ser pk, bin_serialize (vote sv) = Some ser ∧
        public_key (netinfo s) (voter sv) = Some pk ∧ pk_verify pk (sig sv) ser = true))
    (λ s' e, s' = s ∧ e = SerializeVote ∧ bin_serialize (vote sv) = None).
Proof.
  unfold validate. do 2 wp_step. apply wp_bind, wp_ok_or; [|done].
  intros ser Hser. wp_step. split; [done|].
  destruct (public_key (netinfo s) (voter sv)) as [pk|]; naive_solver.
Qed.

(** The newest number of a committed vote decides. *)
Definition superseded s sv : Prop :=
  ∃ v, committed s !! voter sv = Some v ∧ (num (vote sv) <= num v)%Z.

Lemma add_committed_vote_spec proposer_id sv s :
  wp (add_committed_vote proposer_id sv) s
    (λ s' fl,
      (superseded s sv ∧ s' = s ∧ fl = []) ∨
      (¬ superseded s sv ∧ ¬ valid (netinfo s) (era s) sv ∧ s' = s ∧
        fl = [mkFault proposer_id InvalidCommittedVote]) ∨
      (¬ superseded s sv ∧ valid (netinfo s) (era s) sv ∧ fl = [] ∧
        s' = s <| committed ::= <[voter sv := vote sv]> |>))
    (λ s' e, s' = s ∧ e = SerializeVote ∧ bin_serialize (vote sv) = None).
Proof.
  unfold add_committed_vote. do 2 wp_step.
  destruct (match committed s !! voter sv with Some vote' => _ | None => false end) eqn:Hsup.
  { wp_step. left. split; [|done]. unfold superseded.
    destruct (committed s !! voter sv) as [v|]; [|done]. apply bool_decide_eq_true in Hsup. eauto. }
  assert (Hns : ¬ superseded s sv).
  { intros (v & Hv & Hle). rewrite Hv in Hsup. by apply bool_decide_eq_false in Hsup. }
  wp_step. destruct (decide (vote_era (vote sv) = era s)) as [Hera|Hera].
  - rewrite bool_decide_true by done. simpl negb. cbn iota. apply wp_bind.
    eapply wp_mono; [apply validate_spec| |done].
    intros s1 ok [-> Hok]. wp_step. destruct ok; simpl negb; cbn iota.
    + apply wp_bind, wp_modify, wp_ret. do 2 right. split_and!; [done| |done|done].
      split; [done|]. by apply Hok.
    + wp_step. right. left. split_and!; [done| |done|done].
      intros [_ Hex]. by apply Hok in Hex.
  - rewrite bool_decide_false by done. simpl negb. cbn iota. do 2 wp_step.
    right. left. split_and!; [done| |done|done]. by intros [? _].
Qed.

Lemma ok_committed s sv :
  votes_ok s → valid (netinfo s) (era s) sv →
  votes_ok (s <| committed ::= <[voter sv := vote sv]> |>).
Proof.
  intros [Hp Hc] Hv. constructor; [exact Hp|]. intros id v. cbn.
  rewrite lookup_insert_Some. intros [[<- <-]|[_ Hl]]; [|by apply Hc].
  exists (sig sv). by destruct sv.
Qed.

(** ** What a sequence of committed votes leaves *)
Definition progress (l : list (SignedVote N)) s s' : Prop :=
  netinfo s' = netinfo s ∧ era s' = era s ∧ pending s' = pending s ∧
  (votes_ok s → votes_ok s') ∧
  (∀ id v, committed s !! id = Some v →
    ∃ v', committed s' !! id = Some v' ∧ (num v <= num v')%Z) ∧
  (∀ sv, sv ∈ l → valid (netinfo s) (era s) sv →
    ∃ v', committed s' !! voter sv = Some v' ∧ (num (vote sv) <= num v')%Z) ∧
  (∀ id v', committed s' !! id = Some v' →
    committed s !! id = Some v' ∨
    ∃ sv, sv ∈ l ∧ voter sv = id ∧ vote sv = v' ∧ valid (netinfo s) (era s) sv ∧
      ∀ v, committed s !! id = Some v → (num v < num v')%Z).

Lemma progress_refl s : progress [] s s.
Proof. split_and!; [done..| | |]; [|set_solver|by left]. intros; eexists; split; [done|lia]. Qed.

Lemma progress_one sv s s' :
  (s' = s ∧ (superseded s sv ∨ ¬ valid (netinfo s) (era s) sv)) ∨
  (¬ superseded s sv ∧ valid (netinfo s) (era s) sv ∧
    s' = s <| committed ::= <[voter sv := vote sv]> |>) →
  progress [sv] s s'.
Proof.
  intros [[-> Hor]|(Hns & Hv & ->)].
  - split_and!; [done..| | |]; [intros; eexists; split; [done|lia]| |by left].
    intros sv' ->%list_elem_of_singleton Hv. destruct Hor as [(v & ? & ?)|]; [eauto|done].
  - assert (Hlt : ∀ v, committed s !! voter sv = Some v → (num v < num (vote sv))%Z).
    { intros v Hl. apply Z.lt_nge. intros Hle. apply Hns. exists v. split; [done|lia]. }
    split_and!; [done..|by intros; apply ok_committed| | |]; cbn.
    + intros id v Hl. destruct (decide (id = voter sv)) as [->|Hne].
      * rewrite lookup_insert_eq. eexists; split; [done|]. apply Hlt in Hl. lia.
      * rewrite lookup_insert_ne by done. eexists; split; [done|lia].
    + intros sv' ->%list_elem_of_singleton _. rewrite lookup_insert_eq. eexists; split; [done|lia].
    + intros id v'. rewrite lookup_insert_Some. intros [[<- <-]|[_ Hl]]; [right|by left].
      exists sv. split_and!; [by left|done..].
Qed.

Lemma progress_trans l1 l2 s1 s2 s3 :
  progress l1 s1 s2 → progress l2 s2 s3 → progress (l1 ++ l2) s1 s3.
Proof.
  intros (Hn1 & He1 & Hp1 & Hok1 & Hk1 & Hin1 & Hfrom1) (Hn2 & He2 & Hp2 & Hok2 & Hk2 & Hin2 & Hfrom2).
  rewrite Hn1, He1 in *. split_and!; [congruence..|by auto| | |].
  - intros id v Hv. destruct (Hk1 id v Hv) as (v1 & Hv1 & ?).
    destruct (Hk2 id v1 Hv1) as (v2 & ? & ?). exists v2. split; [done|lia].
  - intros sv [Hsv|Hsv]%elem_of_app Hval.
    + destruct (Hin1 sv Hsv Hval) as (v1 & Hv1 & ?). destruct (Hk2 _ v1 Hv1) as (v2 & ? & ?).
      exists v2. split; [done|lia].
    + by apply Hin2.
  - intros id v3 Hv3. destruct (Hfrom2 id v3 Hv3) as [Hv2|(sv & ? & ? & ? & ? & Hlt)].
    + destruct (Hfrom1 id v3 Hv2) as [?|(sv & ? & ? & ? & ? & ?)]; [by left|right].
      exists sv. split_and!; [|done..]. apply elem_of_app; by left.
    + right. exists sv. split_and!; [|done..|].
      * apply elem_of_app; by right.
      * intros v Hv. destruct (Hk1 id v Hv) as (v2 & Hv2 & ?). apply Hlt in Hv2. lia.
Qed.

Lemma add_committed_votes_spec proposer_id l s :
  wp (add_committed_votes proposer_id l) s (λ s' _, progress l s s')
    (λ s' e, e = SerializeVote ∧ ∃ l', progress l' s s' ∧ l' ⊆ l).
Proof.
  unfold add_committed_votes.
  assert (Hgen : ∀ l0 (fl : FaultLog N FaultKind) s0, progress l0 s s0 →
    wp (for_acc (λ fault_log signed_vote,
          fl ← add_committed_vote proposer_id signed_vote;
          mret (faultlog_extend fault_log fl)) fl l) s0 (λ s' _, progress (l0 ++ l) s s')
      (λ s' e, e = SerializeVote ∧ ∃ l', progress (l0 ++ l') s s' ∧ l' ⊆ l)).
  { induction l as [|sv l IH]; intros l0 fl s0 H0; simpl.
    { apply wp_ret. by rewrite app_nil_r. }
    do 2 apply wp_bind. eapply wp_mono; [apply add_committed_vote_spec| |].
    - intros s1 fl1 Hs1. wp_step.
      assert (H1 : progress (l0 ++ [sv]) s s1).
      { eapply progress_trans; [exact H0|]. apply progress_one. naive_solver. }
      eapply wp_mono; [by apply IH| |].
      + intros s' fl' Hp. by rewrite <- (assoc_L (++)) in Hp.
      + intros s' e (-> & l' & Hl' & Hsub). split; [done|]. exists (sv :: l').
        rewrite <- (assoc_L (++)) in Hl'. split; [done|]. set_solver.
    - intros s1 e (-> & -> & _). split; [done|]. exists []. rewrite app_nil_r. split; [done|set_solver]. }
  eapply wp_mono; [apply (Hgen [] _ s), progress_refl|done|].
  intros s' e (-> & l' & ? & ?). split; [done|]. by exists l'.
Qed.

(** ** Properties *)

(** The node's own key is the one the network knows. *)
Definition own_key_ok (ni : NetworkInfo N) : Prop :=
  public_key ni (our_id ni) = Some (sk_public_key (secret_key ni)).

Lemma sign_vote_for_spec `{!SignatureLaws} c s :
  own_key_ok (netinfo s) →
  wp (sign_vote_for c) s
    (λ s' sv, s' = s <| pending ::= <[our_id (netinfo s) := sv]> |> ∧
      voter sv = our_id (netinfo s) ∧ change (vote sv) = c ∧ valid (netinfo s) (era s) sv)
    (λ s' e, s' = s ∧ e = SerializeVote).
Proof.
  intros Hkey. unfold sign_vote_for. do 2 wp_step. apply wp_bind, wp_ok_or; [|done].
  intros ser Hser. do 3 wp_step. split_and!; [|done..|].
  - unfold set_field; cbn. f_equal. by rewrite insert_delete_eq.
  - split; [done|]. exists ser, (sk_public_key (secret_key (netinfo s))).
    split_and!; [done..|]. apply sign_verify.
Qed.

Lemma ok_pending s id sv :
  votes_ok s → voter sv = id → valid (netinfo s) (era s) sv →
  votes_ok (s <| pending ::= <[id := sv]> |>).
Proof.
  intros [Hp Hc] Hid Hv. constructor; [|exact Hc]. intros id' sv'. cbn.
  rewrite lookup_insert_Some. intros [[<- <-]|[_ Hl]]; [done|by apply Hp].
Qed.

(** An older vote, or one of another era *)
Definition outdated s sv : Prop :=
  vote_era (vote sv) ≠ era s ∨
  ∃ sv', pending s !! voter sv = Some sv' ∧ (num (vote sv) <= num (vote sv'))%Z.

Lemma add_pending_vote_spec sender_id sv s :
  wp (add_pending_vote sender_id sv) s
    (λ s' fl,
      (outdated s sv ∧ s' = s ∧ fl = []) ∨
      (¬ outdated s sv ∧ ¬ valid (netinfo s) (era s) sv ∧ s' = s ∧
        fl = [mkFault sender_id InvalidVoteSignature]) ∨
      (¬ outdated s sv ∧ valid (netinfo s) (era s) sv ∧ fl = [] ∧
        s' = s <| pending ::= <[voter sv := sv]> |>))
    (λ s' e, s' = s ∧ e = SerializeVote ∧ bin_serialize (vote sv) = None).
Proof.
  unfold add_pending_vote. do 2 wp_step.
  destruct (negb _ || _) eqn:Hout.
  { wp_step. left. split; [|done]. unfold outdated.
    apply orb_true_iff in Hout as [Hera%negb_true_iff%bool_decide_eq_false|Hnum]; [by left|right].
    destruct (pending s !! voter sv) as [sv'|]; [|done]. apply bool_decide_eq_true in Hnum. eauto. }
  apply orb_false_iff in Hout as [Hera%negb_false_iff%bool_decide_eq_true Hnum].
  assert (Hno : ¬ outdated s sv).
  { intros [?|(sv' & Hl & Hle)]; [done|]. rewrite Hl in Hnum. by apply bool_decide_eq_false in Hnum. }
  apply wp_bind. eapply wp_mono; [apply validate_spec| |done].
  intros s1 ok [-> Hok]. destruct ok; simpl negb; cbn iota.
  - apply wp_bind, wp_modify, wp_ret. do 2 right. split_and!; [done| |done|done].
    split; [done|]. by apply Hok.
  - wp_step. right. left. split_and!; [done| |done|done].
    intros [_ Hex]. by apply Hok in Hex.
Qed.

(** Every vote that the counter holds, pending or committed, belongs to its era and was signed by
    its voter with the key the network knows for it: signing, receiving and committing
    votes preserve this, on success and on error, and none of them panics. *)
Theorem votes_stay_valid `{!SignatureLaws} s c sender_id sv l :
  votes_ok s → own_key_ok (netinfo s) →
  wp (sign_vote_for c) s (λ s' _, votes_ok s') (λ s' _, votes_ok s') ∧
  wp (add_pending_vote sender_id sv) s (λ s' _, votes_ok s') (λ s' _, votes_ok s') ∧
  wp (add_committed_votes sender_id l) s (λ s' _, votes_ok s') (λ s' _, votes_ok s').
Proof.
  intros Hok Hkey. split_and!.
  - eapply wp_mono; [by apply sign_vote_for_spec| |by intros s' e [-> _]].
    intros s' sv' (-> & Hid & _ & Hv). by apply ok_pending.
  - eapply wp_mono; [apply add_pending_vote_spec| |by intros s' e [-> _]].
    intros s' fl [(_ & -> & _)|[(_ & _ & -> & _)|(_ & Hv & _ & ->)]]; [done..|].
    by apply ok_pending.
  - eapply wp_mono; [apply add_committed_votes_spec| |].
    + intros s' fl (_ & _ & _ & Hp & _). by apply Hp.
    + intros s' e (_ & l' & (_ & _ & _ & Hp & _) & _). by apply Hp.
Qed.

(** Committing a batch of votes keeps, for every voter, the vote with the highest number: no
    committed vote is lost to an older one, every valid vote of the batch is subsumed by
    the vote that is kept for its voter, and a vote that is new was in the batch, is
    valid and is newer than the one it replaces.  The pending votes are untouched. *)
Theorem committed_newest proposer_id l s :
  match add_committed_votes proposer_id l s with
  | Ok s' _ => pending s' = pending s ∧
      (∀ id v, committed s !! id = Some v →
        ∃ v', committed s' !! id = Some v' ∧ (num v <= num v')%Z) ∧
      (∀ sv, sv ∈ l → valid (netinfo s) (era s) sv →
        ∃ v', committed s' !! voter sv = Some v' ∧ (num (vote sv) <= num v')%Z) ∧
      (∀ id v', committed s' !! id = Some v' → committed s !! id = Some v' ∨
        ∃ sv, sv ∈ l ∧ voter sv = id ∧ vote sv = v' ∧ valid (netinfo s) (era s) sv ∧
          ∀ v, committed s !! id = Some v → (num v < num v')%Z)
  | Err _ e => e = SerializeVote
  | Panic | NoFuel => False
  end.
Proof.
  pose proof (add_committed_votes_spec proposer_id l s) as Hw. unfold wp in Hw.
  destruct (add_committed_votes _ _ _) as [s' fl|s' e| |]; [|by destruct Hw|done..].
  destruct Hw as (_ & _ & Hp & _ & Hk & Hin & Hfrom). done.
Qed.

(** What [VoteCounter::add_pending_vote] does on every branch: an outdated vote is dropped
    without a fault, an invalid one is reported as a fault of the sender and dropped, and
    a valid newer one becomes the pending vote of its voter; the only error is a vote that
    does not serialize, and it changes nothing. *)
Theorem add_pending_vote_branches sender_id sv s :
  match add_pending_vote sender_id sv s with
  | Ok s' fl =>
      (outdated s sv ∧ s' = s ∧ fl = []) ∨
      (¬ outdated s sv ∧ ¬ valid (netinfo s) (era s) sv ∧ s' = s ∧
        fl = [mkFault sender_id InvalidVoteSignature]) ∨
      (¬ outdated s sv ∧ valid (netinfo s) (era s) sv ∧ fl = [] ∧
        s' = s <| pending ::= <[voter sv := sv]> |>)
  | Err s' e => s' = s ∧ e = SerializeVote ∧ bin_serialize (vote sv) = None
  | Panic | NoFuel => False
  end.
Proof.
  pose proof (add_pending_vote_spec sender_id sv s) as Hw. unfold wp in Hw.
  by destruct (add_pending_vote _ _ _).
Qed.

(** The voters whose committed vote is for [c] *)
Definition voters_for c s : gset N := keys_with (λ v, change v = c) (committed s).

Lemma occurrences_voters c s :
  occurrences c (change <$> values (committed s)) = size (voters_for c s).
Proof.
  unfold voters_for. rewrite <- length_filter_values. unfold occurrences.
  induction (values (committed s)) as [|v l IH]; [done|]. csimpl. rewrite !filter_cons.
  destruct (decide (c = change v)), (decide (change v = c)); simpl; congruence.
Qed.

(** [VoteCounter::compute_winner] finds a change that more than [f] validators have committed to,
    and answers [None] only if no change has that many votes. *)
Theorem compute_winner_correct s :
  match compute_winner s with
  | Some c => num_faulty (netinfo s) < size (voters_for c s)
  | None => ∀ c, size (voters_for c s) ≤ num_faulty (netinfo s)
  end.
Proof.
  unfold compute_winner.
  pose proof (first_above_spec (num_faulty (netinfo s)) [] (change <$> values (committed s))) as H.
  destruct (first_above _ _ _) as [c|]; simpl in H.
  - destruct H as [_ H]; [lia|]. by rewrite occurrences_voters in H.
  - intros c. specialize (H ltac:(lia) c). by rewrite occurrences_voters in H.
Qed.

(** ** Agreement of counters *)

(** Two nodes' counters that have seen the same batches: their keys and pending votes may
    differ. *)
Definition same_view (s1 s2 : State) : Prop :=
  committed s1 = committed s2 ∧ era s1 = era s2 ∧
  public_keys (netinfo s1) = public_keys (netinfo s2) ∧
  num_faulty (netinfo s1) = num_faulty (netinfo s2).

Definition same_result {A} (o1 o2 : outcome State Error A) : Prop :=
  match o1, o2 with
  | Ok s1 a1, Ok s2 a2 => a1 = a2 ∧ same_view s1 s2
  | Err s1 e1, Err s2 e2 => e1 = e2 ∧ same_view s1 s2
  | _, _ => False
  end.

Lemma add_committed_vote_same proposer_id sv s1 s2 :
  same_view s1 s2 →
  same_result (add_committed_vote proposer_id sv s1) (add_committed_vote proposer_id sv s2).
Proof.
  intros (Hc & He & Hp & Hf).
  unfold add_committed_vote, validate, public_key, get, mbind, M_bind, mret, M_ret.
  rewrite <- Hc. destruct (match committed s1 !! _ with Some _ => _ | None => _ end); [done|].
  rewrite <- He. destruct (negb _); simpl; [done|].
  destruct (bin_serialize (vote sv)); simpl; [|done].
  rewrite <- Hp. destruct (negb _); simpl; [done|]. split; [done|].
  unfold same_view, set_field; cbn. by rewrite Hc.
Qed.

Lemma add_committed_votes_same proposer_id l s1 s2 :
  same_view s1 s2 →
  same_result (add_committed_votes proposer_id l s1) (add_committed_votes proposer_id l s2).
Proof.
  unfold add_committed_votes. generalize (@faultlog_new N FaultKind) as fl.
  revert s1 s2. induction l as [|sv l IH]; intros s1 s2 fl Hs; [done|].
  simpl. unfold mbind, M_bind.
  pose proof (add_committed_vote_same proposer_id sv s1 s2 Hs) as Hr.
  destruct (add_committed_vote _ _ s1), (add_committed_vote _ _ s2); try done.
  simpl in *. destruct Hr as [-> Hs']. by apply IH.
Qed.

(** C32: Nodes count alike: two counters of the same era and validators that have committed the same
    votes still have after any further batch, report the same faults, and elect the same
    change, whatever their keys and their pending votes. *)
Theorem counters_agree proposer_id l s1 s2 :
  same_view s1 s2 →
  match add_committed_votes proposer_id l s1, add_committed_votes proposer_id l s2 with
  | Ok s1' fl1, Ok s2' fl2 =>
      fl1 = fl2 ∧ same_view s1' s2' ∧ compute_winner s1' = compute_winner s2'
  | Err s1' e1, Err s2' e2 =>
      e1 = e2 ∧ same_view s1' s2' ∧ compute_winner s1' = compute_winner s2'
  | _, _ => False
  end.
Proof.
  intros Hs. pose proof (add_committed_votes_same proposer_id l s1 s2 Hs) as Hr.
  assert (Hw : ∀ t1 t2, same_view t1 t2 → compute_winner t1 = compute_winner t2).
  { intros t1 t2 (Hc & _ & _ & Hf). unfold compute_winner. by rewrite Hc, Hf. }
  destruct (add_committed_votes _ _ s1), (add_committed_votes _ _ s2); try done.
  all: destruct Hr as [-> Hs']; by auto.
Qed.
End facts.

(** ** Instances *)
#[local] Instance demo_bin : Bincode (Vote nat) :=
  {| bin_serialize v := Some [byte_of_Z (num v); byte_of_Z (vote_era v)]; bin_deserialize _ := None |}.
Definition demo_counter (i : nat) : VoteCounter nat := new (four_netinfo i) 5.
Definition demo_vote (i : nat) (n : u64) : SignedVote nat :=
  mkSignedVote _ _ _ (mkVote _ _ _ (NodeChange ∅) 5 n) i
    (sk_sign (10 + i) [byte_of_Z n; byte_of_Z 5]).

Lemma votes_stay_valid_witness :
  wp (sign_vote_for (NodeChange ∅)) (demo_counter 0) (λ s' _, votes_ok s') (λ s' _, votes_ok s') ∧
  wp (add_pending_vote 1 (demo_vote 1 0)) (demo_counter 0)
    (λ s' _, votes_ok s') (λ s' _, votes_ok s') ∧
  wp (add_committed_votes 1 [demo_vote 1 0; demo_vote 2 3]) (demo_counter 0)
    (λ s' _, votes_ok s') (λ s' _, votes_ok s').
Proof.
  apply votes_stay_valid; [apply new_ok|]. unfold own_key_ok. vm_compute. reflexivity.
Defined.

Lemma counters_agree_witness :
  match add_committed_votes 1 [demo_vote 1 0; demo_vote 2 3] (demo_counter 0),
        add_committed_votes 1 [demo_vote 1 0; demo_vote 2 3] (demo_counter 3) with
  | Ok s1' fl1, Ok s2' fl2 =>
      fl1 = fl2 ∧ same_view s1' s2' ∧ compute_winner s1' = compute_winner s2'
  | Err s1' e1, Err s2' e2 =>
      e1 = e2 ∧ same_view s1' s2' ∧ compute_winner s1' = compute_winner s2'
  | _, _ => False
  end.
Proof. apply counters_agree. split_and!; reflexivity. Defined.
End votes.
