(* ===== verification/DynamicHoneyBadger.v ===== *)
(** * Dynamic Honey Badger

    Models [src/dynamic_honey_badger/dynamic_honey_badger.rs] with the messages, the join
    plan and the key generation state of [mod.rs], [batch.rs] and [builder.rs].  The
    random number generator is an argument and a result of the methods that use it. *)
From S2P Require Import Prelude.
From S2P Require Import BTree.
From S2P Require Import Traits.
From S2P Require Import NetworkInfo.
From S2P Require Import Merkle.
From S2P Require Import Broadcast.
From S2P Require Import BinaryAgreement.
From S2P Require Import Subset.
From S2P Require Import HoneyBadger.
From S2P Require Import SyncKeyGen.
From S2P Require Import DhbTypes.
From S2P Require Import Votes.

Module dynamic_honey_badger.
Import dhb.

(** ** Messages *)
Inductive KeyGenMessage `{PolyLib} : Type :=
  | KgPart (part : sync_key_gen.Part)
  | KgAck (ack : sync_key_gen.Ack).
#[global] Instance KeyGenMessage_eq_dec `{PolyLib} : EqDecision KeyGenMessage.
Proof. solve_decision. Defined.

Inductive Message {N : Type} `{NodeIdT N, PolyLib} : Type :=
  | HoneyBadger (era : u64) (msg : honey_badger.Message N)
  | KeyGen (era : u64) (msg : KeyGenMessage) (sig : Signature)
  | SignedVote (sv : votes.SignedVote N).
Arguments Message N {_ _ _}.

Definition msg_era {N} `{NodeIdT N, PolyLib} (m : Message N) : u64 :=
  match m with
  | HoneyBadger era _ => era
  | KeyGen era _ _ => era
  | SignedVote sv => votes.sv_era sv
  end.

Record SignedKeyGenMsg {N : Type} `{NodeIdT N, PolyLib} : Type := mkSkgm {
  skgm_era : u64;
  skgm_sender : N;
  skgm_msg : KeyGenMessage;
  skgm_sig : Signature;
}.
Arguments SignedKeyGenMsg N {_ _ _}.
#[global] Instance SignedKeyGenMsg_eq_dec {N} `{NodeIdT N, PolyLib} : EqDecision (SignedKeyGenMsg N).
Proof. solve_decision. Defined.

Record InternalContrib {C N : Type} `{NodeIdT N, PolyLib} : Type := mkContrib {
  contrib : C;
  key_gen_messages : list (SignedKeyGenMsg N);
  contrib_votes : list (votes.SignedVote N);
}.
Arguments InternalContrib C N {_ _ _}.

Inductive Input {C N : Type} `{NodeIdT N, Crypto} : Type :=
  | User (c : C)
  | InputChange (change : Change N).
Arguments Input C N {_ _}.

(** ** Join plans and batches *)
Record JoinPlan {N : Type} `{NodeIdT N, Crypto} : Type := mkJoinPlan {
  jp_era : u64;
  jp_change : ChangeState N;
  jp_pub_key_set : PublicKeySet;
  jp_pub_keys : gmap N PublicKey;
  jp_params : honey_badger.Params;
}.
Arguments JoinPlan N {_ _}.
Definition jp_next_epoch {N} `{NodeIdT N, Crypto} (jp : JoinPlan N) : u64 := jp_era jp.

Record Batch {C N : Type} `{NodeIdT N, Crypto} : Type := mkBatch {
  batch_epoch : u64;
  batch_era : u64;
  batch_contributions : gmap N C;
  batch_change : ChangeState N;
  batch_netinfo : NetworkInfo N;
  batch_params : honey_badger.Params;
}.
Arguments Batch C N {_ _}.

Definition batch_iter {T N} `{NodeIdT N, Crypto} (b : Batch (list T) N) : list T :=
  concat (values (batch_contributions b)).
Definition batch_len {T N} `{NodeIdT N, Crypto} (b : Batch (list T) N) : nat :=
  sum_list (length <$> values (batch_contributions b)).
Definition batch_is_empty {T N} `{NodeIdT N, Crypto} (b : Batch (list T) N) : bool :=
  forallb (λ l : list T, match l with [] => true | _ => false end)
    (values (batch_contributions b)).

Definition join_plan {C N} `{NodeIdT N, Crypto} (b : Batch C N) : option (JoinPlan N) :=
  if bool_decide (batch_change b = NoChange) then None
  else Some (mkJoinPlan _ _ _ (u64_add (batch_epoch b) 1) (batch_change b)
    (public_key_set (batch_netinfo b)) (public_keys (batch_netinfo b)) (batch_params b)).

Definition public_eq {C N} `{NodeIdT N, Crypto, EqDecision C} (b other : Batch C N) : bool :=
  bool_decide (batch_epoch b = batch_epoch other) &&
  bool_decide (batch_era b = batch_era other) &&
  bool_decide (batch_contributions b = batch_contributions other) &&
  bool_decide (batch_change b = batch_change other) &&
  bool_decide (public_key_set (batch_netinfo b) = public_key_set (batch_netinfo other)) &&
  bool_decide (public_keys (batch_netinfo b) = public_keys (batch_netinfo other)) &&
  bool_decide (batch_params b = batch_params other).

(** ** The key generation in progress *)
Record KeyGenState {N : Type} `{NodeIdT N, PolyLib} : Type := mkKgs {
  key_gen : sync_key_gen.SyncKeyGen N;
  msg_count : gmap N nat;
}.
Arguments KeyGenState N {_ _ _}.
#[global] Instance KeyGenState_settable {N} `{NodeIdT N, PolyLib} : Settable (KeyGenState N) := λ s,
  mkKgs _ _ _ _ (key_gen s) (msg_count s).

Definition kgs_new {N} `{NodeIdT N, PolyLib} (kg : sync_key_gen.SyncKeyGen N) : KeyGenState N :=
  mkKgs _ _ _ _ kg ∅.
Definition kgs_is_ready {N} `{NodeIdT N, PolyLib} (kgs : KeyGenState N) : bool :=
  let kg := key_gen kgs in
  sync_key_gen.is_ready kg &&
  bool_decide (2 * size (sync_key_gen.pub_keys kg) < sync_key_gen.count_complete kg * 3).
Definition kgs_public_keys {N} `{NodeIdT N, PolyLib} (kgs : KeyGenState N) : gmap N PublicKey :=
  sync_key_gen.pub_keys (key_gen kgs).
(** The new state and the new count. *)
Definition count_messages {N} `{NodeIdT N, PolyLib} (node_id : N) (kgs : KeyGenState N) :
    KeyGenState N * nat :=
  let count := default 0 (msg_count kgs !! node_id) + 1 in
  (kgs <| msg_count ::= <[node_id := count]> |>, count).

(** ** The algorithm *)
Record DynamicHoneyBadger {N : Type} `{NodeIdT N, PolyLib, ReedSolomonLib} : Type := mkDHB {
  netinfo : NetworkInfo N;
  max_future_epochs : u64;
  era : u64;
  vote_counter : votes.VoteCounter N;
  key_gen_msg_buffer : list (SignedKeyGenMsg N);
  hb : honey_badger.HoneyBadger N;
  key_gen_state : option (KeyGenState N);
}.
Arguments DynamicHoneyBadger N {_ _ _ _}.
#[global] Instance DynamicHoneyBadger_settable {N} `{NodeIdT N, PolyLib, ReedSolomonLib} :
    Settable (DynamicHoneyBadger N) := λ s,
  mkDHB _ _ _ _ _ (netinfo s) (max_future_epochs s) (era s) (vote_counter s)
    (key_gen_msg_buffer s) (hb s) (key_gen_state s).

Section dhb.
Context {C N : Type} `{ord : NodeIdT N} `{crypto : Crypto} `{pl : !PolyLib} `{sha : Sha3}
  `{rse : ReedSolomonLib} `{bo : ByteOrder}
  `{sid : !SessionIdT (subset.BaSessionId honey_badger.EpochId)}
  `{bin_ct : !Bincode Ciphertext} `{bin_vote : !Bincode (votes.Vote N)}
  `{bin_poly : !Bincode Poly} `{bin_fr : !Bincode Fr}
  `{bin_kg : !Bincode KeyGenMessage} `{bin_c : !Bincode (InternalContrib C N)}.
Abbreviation State := (DynamicHoneyBadger N).
Abbreviation DStep := (Step (Message N) (Batch C N) N FaultKind).
Abbreviation DM := (M State Error).
Abbreviation HbStep :=
  (Step (honey_badger.Message N) (honey_badger.Batch (InternalContrib C N) N) N honey_badger.FaultKind).

Definition our_id (s : State) : N := NetworkInfo.our_id (netinfo s).
Definition has_input (s : State) : bool := honey_badger.has_input (hb s).
Definition next_epoch (s : State) : u64 := u64_add (era s) (honey_badger.next_epoch (hb s)).
Definition dhb_epoch (s : State) : u64 * u64 := (era s, honey_badger.next_epoch (hb s)).

(** Methods of the parts of the state *)
Definition on_hb {A} (f : honey_badger.Error → Error)
    (m : M (honey_badger.HoneyBadger N) honey_badger.Error A) : DM A :=
  zoom hb (λ h s, s <| hb := h |>) (map_err f m).
Definition on_votes {A} (m : M (votes.VoteCounter N) Error A) : DM A :=
  zoom vote_counter (λ v s, s <| vote_counter := v |>) m.
Definition on_key_gen {A} (kgs : KeyGenState N)
    (m : M (sync_key_gen.SyncKeyGen N) sync_key_gen.Error A) : DM A :=
  zoom (λ _, key_gen kgs) (λ kg s, s <| key_gen_state := Some (kgs <| key_gen := kg |>) |>)
    (map_err SyncKeyGen m).

(** ** Key generation *)

(** Signs and sends a [KeyGenMessage] and also tries to commit it. *)
Definition send_transaction (kg_msg : KeyGenMessage) : DM DStep :=
  ser ← ok_or (bin_serialize kg_msg) SerializeKeyGen;
  s ← get;
  let sig := sk_sign (secret_key (netinfo s)) ser in
  (if is_validator (netinfo s)
   then modify (λ s, s <| key_gen_msg_buffer ::=
          λ l, l ++ [mkSkgm _ _ _ _ (era s) (our_id s) kg_msg sig] |>)
   else mret ());;
  mret (step_from_msg (target_message All (KeyGen (era s) kg_msg sig))).

Definition handle_part (sender_id : N) (part : sync_key_gen.Part) (rng : Rng) : DM (DStep * Rng) :=
  s ← get;
  match key_gen_state s with
  | None => mret (step_fault sender_id UnexpectedKeyGenPart, rng)
  | Some kgs =>
      '(outcome, rng) ← on_key_gen kgs (sync_key_gen.handle_part sender_id part rng);
      match outcome with
      | sync_key_gen.PartValid (Some ack) => step ← send_transaction (KgAck ack); mret (step, rng)
      | sync_key_gen.PartValid None => mret (step_default, rng)
      | sync_key_gen.PartInvalid fault => mret (step_fault sender_id (SyncKeyGenPart fault), rng)
      end
  end.

Definition handle_ack (sender_id : N) (ack : sync_key_gen.Ack) : DM DStep :=
  s ← get;
  match key_gen_state s with
  | None => mret (step_fault sender_id UnexpectedKeyGenAck)
  | Some kgs =>
      outcome ← on_key_gen kgs (sync_key_gen.handle_ack sender_id ack);
      match outcome with
      | sync_key_gen.AckValid => mret step_default
      | sync_key_gen.AckInvalid fault => mret (step_fault sender_id (SyncKeyGenAck fault))
      end
  end.

Definition take_ready_key_gen : DM (option (KeyGenState N)) :=
  s ← get;
  match key_gen_state s with
  | Some kgs =>
      if kgs_is_ready kgs then modify (λ s, s <| key_gen_state := None |>);; mret (Some kgs)
      else mret None
  | None => mret None
  end.

Definition verify_signature (node_id : N) (sig : Signature) (kg_msg : KeyGenMessage) : DM bool :=
  ser ← ok_or (bin_serialize kg_msg) SerializeKeyGen;
  s ← get;
  let verify (opt_pk : option PublicKey) :=
    match opt_pk with Some pk => pk_verify pk sig ser | None => false end in
  let current_key := public_key (netinfo s) node_id in
  let candidate_key := kgs ← key_gen_state s; kgs_public_keys kgs !! node_id in
  mret (verify current_key || verify candidate_key).

Definition handle_key_gen_message (sender_id : N) (kg_msg : KeyGenMessage) (sig : Signature) :
    DM (FaultLog N FaultKind) :=
  ok ← verify_signature sender_id sig kg_msg;
  if negb ok then mret (fault_into_log (mkFault sender_id InvalidKeyGenMessageSignature))
  else
    s ← get;
    match key_gen_state s with
    | None => mret (fault_into_log (mkFault sender_id UnexpectedKeyGenMessage))
    | Some kgs =>
        let '(kgs, count) := count_messages sender_id kgs in
        modify (λ s, s <| key_gen_state := Some kgs |>);;
        if bool_decide (sync_key_gen.num_nodes (key_gen kgs) + 1 < count)
        then mret (fault_into_log (mkFault sender_id TooManyKeyGenMessages))
        else
          modify (λ s, s <| key_gen_msg_buffer ::=
            λ l, l ++ [mkSkgm _ _ _ _ (era s) sender_id kg_msg sig] |>);;
          mret faultlog_new
    end.

(** ** Changes *)
Definition restart_honey_badger (era : u64) (params : honey_badger.Params) : DM () :=
  modify (λ s, s <| dynamic_honey_badger.era := era |>);;
  modify (λ s, s <| key_gen_msg_buffer ::= filter (λ kg_msg, era <= skgm_era kg_msg)%Z |>);;
  s ← get;
  modify (λ s, s <| vote_counter := votes.new (netinfo s) era |>);;
  modify (λ s, s <| hb := honey_badger.build
    (honey_badger.set_params params
      (honey_badger.set_session_id era (honey_badger.builder (netinfo s)))) |>).

Definition update_encryption_schedule (era : u64) (schedule : honey_badger.EncryptionSchedule) : DM () :=
  s ← get;
  let params := honey_badger.params (hb s) in
  restart_honey_badger era (params <| honey_badger.encryption_schedule := schedule |>).

Definition update_key_gen (era : u64) (pub_keys : gmap N PublicKey) (rng : Rng) : DM (DStep * Rng) :=
  s ← get;
  if bool_decide (kgs_public_keys <$> key_gen_state s = Some pub_keys)
  then mret (step_default, rng)
  else
    restart_honey_badger era (honey_badger.params (hb s));;
    threshold ← expect (max_faulty (size pub_keys));
    s ← get;
    '(key_gen, part, rng) ← map_err SyncKeyGen (of_sum
      (sync_key_gen.new (our_id s) (secret_key (netinfo s)) pub_keys threshold rng));
    modify (λ s, s <| key_gen_state := Some (kgs_new key_gen) |>);;
    match part with
    | Some part => step ← send_transaction (KgPart part); mret (step, rng)
    | None => mret (step_default, rng)
    end.

(** ** Batches of the inner Honey Badger *)

(** One committed key generation message of a contribution of [id]. *)
Definition commit_key_gen_message (id : N) (acc : DStep * Rng) (skgm : SignedKeyGenMsg N) :
    DM (DStep * Rng) :=
  let '(step, rng) := acc in
  let '(mkSkgm _ _ _ _ era s_id kg_msg sig) := skgm in
  s ← get;
  if negb (bool_decide (era = dynamic_honey_badger.era s)) then
    mret (step <| fault_log ::= faultlog_append id InvalidKeyGenMessageEra |>, rng)
  else
    ok ← verify_signature s_id sig kg_msg;
    if negb ok then
      mret (step <| fault_log ::= faultlog_append id InvalidKeyGenMessageSignature |>, rng)
    else
      '(step', rng) ←
        match kg_msg with
        | KgPart part => handle_part s_id part rng
        | KgAck ack => step ← handle_ack s_id ack; mret (step, rng)
        end;
      mret (step_extend step step', rng).

(** One contribution: its votes, its user contribution and its key generation messages. *)
Definition process_contribution (acc : DStep * Rng * gmap N C)
    (c : N * InternalContrib C N) : DM (DStep * Rng * gmap N C) :=
  let '(step, rng, batch_contributions) := acc in
  let '(id, mkContrib _ _ _ _ _ contrib key_gen_messages votes) := c in
  fl ← on_votes (votes.add_committed_votes id votes);
  let step := step <| fault_log ::= λ l, faultlog_extend l fl |> in
  let batch_contributions := <[id := contrib]> batch_contributions in
  modify (λ s, s <| key_gen_msg_buffer ::= filter (λ skgm, skgm ∉ key_gen_messages) |>);;
  '(step, rng) ← for_acc (commit_key_gen_message id) (step, rng) key_gen_messages;
  mret (step, rng, batch_contributions).

(** What a batch changes: a completed key generation, or the winner of the vote. *)
Definition apply_change (batch_epoch : u64) (step : DStep) (rng : Rng) :
    DM (DStep * Rng * ChangeState N) :=
  opt_kgs ← take_ready_key_gen;
  match opt_kgs with
  | Some kgs =>
      ni ← expect (sync_key_gen.into_network_info (key_gen kgs));
      modify (λ s, s <| netinfo := ni |>);;
      s ← get;
      restart_honey_badger (u64_add batch_epoch 1) (honey_badger.params (hb s));;
      mret (step, rng, Complete (NodeChange (public_keys ni)))
  | None =>
      s ← get;
      match votes.compute_winner (vote_counter s) with
      | Some (NodeChange pub_keys) =>
          '(step', rng) ← update_key_gen (u64_add batch_epoch 1) pub_keys rng;
          mret (step_extend step step', rng, InProgress (NodeChange pub_keys))
      | Some (EncryptionSchedule schedule) =>
          update_encryption_schedule (u64_add batch_epoch 1) schedule;;
          mret (step, rng, Complete (EncryptionSchedule schedule))
      | None => mret (step, rng, NoChange)
      end
  end.

Definition process_batch (acc : DStep * Rng) (hb_batch : honey_badger.Batch (InternalContrib C N) N) :
    DM (DStep * Rng) :=
  let '(step, rng) := acc in
  s ← get;
  let batch_era := era s in
  let batch_epoch := u64_add (honey_badger.batch_epoch hb_batch) batch_era in
  '(step, rng, batch_contributions) ← for_acc process_contribution (step, rng, ∅)
    (entries (honey_badger.contributions hb_batch));
  '(step, rng, change) ← apply_change batch_epoch step rng;
  s ← get;
  mret (step <| output ::= λ l, l ++ [mkBatch _ _ _ _ batch_epoch batch_era batch_contributions
    change (netinfo s) (honey_badger.params (hb s))] |>, rng).

Definition process_output (hb_step : HbStep) (rng : Rng) : DM (DStep * Rng) :=
  s ← get;
  let '(step, output) := extend_with step_default hb_step HbFault
    (λ hb_msg, HoneyBadger (era s) hb_msg) in
  for_acc process_batch (step, rng) output.

(** ** The interface *)
Definition propose (contrib : C) (rng : Rng) : DM (DStep * Rng) :=
  s ← get;
  let key_gen_messages := filter (λ kg_msg, skgm_era kg_msg = era s) (key_gen_msg_buffer s) in
  let contrib := mkContrib _ _ _ _ _ contrib key_gen_messages
    (votes.pending_votes (vote_counter s)) in
  '(step, rng) ← on_hb ProposeHoneyBadger (honey_badger.propose contrib rng);
  process_output step rng.

Definition vote_for (change : Change N) : DM DStep :=
  s ← get;
  if negb (is_validator (netinfo s)) then mret step_default
  else
    signed_vote ← on_votes (votes.sign_vote_for change);
    mret (step_from_msg (target_message All (SignedVote signed_vote))).

Definition vote_to_add (node_id : N) (pub_key : PublicKey) : DM DStep :=
  s ← get;
  vote_for (NodeChange (<[node_id := pub_key]> (public_keys (netinfo s)))).
Definition vote_to_remove (node_id : N) : DM DStep :=
  s ← get;
  vote_for (NodeChange (delete node_id (public_keys (netinfo s)))).

Definition handle_honey_badger_message (sender_id : N) (message : honey_badger.Message N) (rng : Rng) :
    DM (DStep * Rng) :=
  s ← get;
  if negb (is_node_validator (netinfo s) sender_id) then throw UnknownSender
  else
    step ← on_hb HandleHoneyBadgerMessage (honey_badger.handle_message sender_id message);
    process_output step rng.

Definition handle_message (sender_id : N) (message : Message N) (rng : Rng) : DM (DStep * Rng) :=
  s ← get;
  if bool_decide (msg_era message = era s) then
    match message with
    | HoneyBadger _ hb_msg => handle_honey_badger_message sender_id hb_msg rng
    | KeyGen _ kg_msg sig =>
        fl ← handle_key_gen_message sender_id kg_msg sig; mret (step_from_faults fl, rng)
    | SignedVote signed_vote =>
        fl ← on_votes (votes.add_pending_vote sender_id signed_vote);
        mret (step_from_faults fl, rng)
    end
  else if bool_decide (era s < msg_era message)%Z then
    mret (step_fault sender_id UnexpectedDhbMessageEra, rng)
  else mret (step_default, rng).

Definition handle_input (input : Input C N) (rng : Rng) : DM (DStep * Rng) :=
  match input with
  | User contrib => propose contrib rng
  | InputChange change => step ← vote_for change; mret (step, rng)
  end.

Definition should_propose (s : State) : bool :=
  if has_input s then false
  else if bool_decide (num_faulty (netinfo s) < honey_badger.received_proposals (hb s)) then true
  else if existsb (λ sv, bool_decide (votes.voter sv = our_id s))
            (votes.pending_votes (vote_counter s)) then true
  else match key_gen_msg_buffer s with [] => false | _ => true end.

(** ** Joining and building *)
Definition new_joining (our_id : N) (secret_key : SecretKey) (jp : JoinPlan N) (rng : Rng) :
    outcome State Error (DStep * Rng) :=
  match netinfo_new our_id None (jp_pub_key_set jp) secret_key (jp_pub_keys jp) with
  | None => Panic
  | Some ni =>
      let honey_badger := honey_badger.build (honey_badger.set_params (jp_params jp)
        (honey_badger.set_session_id (jp_era jp) (honey_badger.builder ni))) in
      let dhb := mkDHB _ _ _ _ _ ni (honey_badger.max_future_epochs (jp_params jp)) (jp_era jp)
        (votes.new ni (jp_era jp)) [] honey_badger None in
      match jp_change jp with
      | InProgress (NodeChange change) => update_key_gen (jp_era jp) change rng dhb
      | _ => Ok dhb (step_default, rng)
      end
  end.
End dhb.

Record DynamicHoneyBadgerBuilder : Type := mkBuilder {
  b_era : u64;
  b_epoch : u64;
  b_params : honey_badger.Params;
}.
#[global] Instance DynamicHoneyBadgerBuilder_settable : Settable DynamicHoneyBadgerBuilder := λ b,
  mkBuilder (b_era b) (b_epoch b) (b_params b).

Section builder.
Context {N : Type} `{ord : NodeIdT N} `{crypto : Crypto} `{pl : !PolyLib} `{rse : ReedSolomonLib}.

Definition builder : DynamicHoneyBadgerBuilder := mkBuilder 0 0 honey_badger.params_default.
Definition set_era (e : u64) (b : DynamicHoneyBadgerBuilder) := b <| b_era := e |>.
Definition set_epoch (e : u64) (b : DynamicHoneyBadgerBuilder) := b <| b_epoch := e |>.
Definition set_max_future_epochs (n : u64) (b : DynamicHoneyBadgerBuilder) :=
  b <| b_params ::= λ p, p <| honey_badger.max_future_epochs := n |> |>.
Definition set_subset_handling_strategy (s : honey_badger.SubsetHandlingStrategy)
    (b : DynamicHoneyBadgerBuilder) :=
  b <| b_params ::= λ p, p <| honey_badger.subset_handling_strategy := s |> |>.
Definition set_encryption_schedule (s : honey_badger.EncryptionSchedule)
    (b : DynamicHoneyBadgerBuilder) :=
  b <| b_params ::= λ p, p <| honey_badger.encryption_schedule := s |> |>.
Definition set_params (p : honey_badger.Params) (b : DynamicHoneyBadgerBuilder) :=
  b <| b_params := p |>.

Definition build (ni : NetworkInfo N) (b : DynamicHoneyBadgerBuilder) : DynamicHoneyBadger N :=
  let honey_badger := honey_badger.build (honey_badger.set_params (b_params b)
    (honey_badger.set_epoch (b_epoch b)
      (honey_badger.set_session_id (b_era b) (honey_badger.builder ni)))) in
  mkDHB _ _ _ _ _ ni (honey_badger.max_future_epochs (b_params b)) (b_era b)
    (votes.new ni 0) [] honey_badger None.

(** [None] is a panic of [NetworkInfo::new]. *)
Definition build_first_node (our_id : N) (rng : Rng) (b : DynamicHoneyBadgerBuilder) :
    option (DynamicHoneyBadger N * Rng) :=
  let '(sk_set, rng) := sk_set_random 0 rng in
  let pk_set := sk_set_public_keys sk_set in
  let sks := sk_set_secret_key_share sk_set 0 in
  let '(sk, rng) := sk_gen rng in
  let pub_keys := {[our_id := sk_public_key sk]} in
  ni ← netinfo_new our_id (Some sks) pk_set sk pub_keys;
  Some (build ni b, rng).
End builder.
End dynamic_honey_badger.
