(* ===== verification/DhbAgreement.v ===== *)
(** * Dynamic Honey Badger: agreement

    Nodes that process the same batches of the inner Honey Badger output the same batches
    and make the same changes of validators and of the encryption schedule, whatever their
    keys, their random numbers and what they have buffered ([same_public]).  What a
    faulty proposer can put into a batch includes one that no node can process. *)
From S2P Require Import Prelude.
From S2P Require Import BTree.
From S2P Require Import Traits.
From S2P Require Import NetworkInfo.
From S2P Require Import Merkle.
From S2P Require Import Broadcast.
From S2P Require Import BinaryAgreement.
From S2P Require Import Subset.
From S2P Require Import HoneyBadger.
From S2P Require Import SyncKeyGen.
From S2P Require Import DhbTypes.
From S2P Require Import Votes.
From S2P Require Import DynamicHoneyBadger.

Module dhb_agreement.
Import dhb.
Import dynamic_honey_badger.

(** ** Two runs side by side

    The two runs return, fail with the same error or panic together. *)
Definition both {S E A B} (R : S → S → Prop) (m1 : M S E A) (m2 : M S E B) (s1 s2 : S)
    (Q : S → A → S → B → Prop) : Prop :=
  match m1 s1, m2 s2 with
  | Ok t1 a1, Ok t2 a2 => Q t1 a1 t2 a2
  | Err t1 e1, Err t2 e2 => e1 = e2 ∧ R t1 t2
  | Panic, Panic => True
  | _, _ => False
  end.

Section both.
Context {S E : Type} (R : S → S → Prop).
Lemma both_bind {A1 A2 B1 B2} (m1 : M S E A1) (m2 : M S E A2) (k1 : A1 → M S E B1) (k2 : A2 → M S E B2) s1 s2 Q :
  both R m1 m2 s1 s2 (λ t1 a1 t2 a2, both R (k1 a1) (k2 a2) t1 t2 Q) → both R (m1 ≫= k1) (m2 ≫= k2) s1 s2 Q.
Proof. unfold both, mbind, M_bind. by destruct (m1 s1), (m2 s2). Qed.
Lemma both_mono {A B} (m1 : M S E A) (m2 : M S E B) s1 s2 (Q Q' : S → A → S → B → Prop) :
  both R m1 m2 s1 s2 Q → (∀ t1 a1 t2 a2, Q t1 a1 t2 a2 → Q' t1 a1 t2 a2) → both R m1 m2 s1 s2 Q'.
Proof. unfold both. destruct (m1 s1), (m2 s2); auto. Qed.
Lemma both_for_acc {A B1 B2} (body1 : B1 → A → M S E B1) (body2 : B2 → A → M S E B2) (I : S → B1 → S → B2 → Prop) l :
  (∀ x s1 a1 s2 a2, I s1 a1 s2 a2 → both R (body1 a1 x) (body2 a2 x) s1 s2 I) →
  ∀ s1 a1 s2 a2, I s1 a1 s2 a2 → both R (for_acc body1 a1 l) (for_acc body2 a2 l) s1 s2 I.
Proof.
  intros Hb. induction l as [|x l IH]; intros s1 a1 s2 a2 H; simpl; [done|].
  apply both_bind. eapply both_mono; [by apply Hb|]. intros. by apply IH.
Qed.
End both.

(** Loops whose body keeps an invariant, or fails at some element *)
Lemma for_acc_keeps {S E A B} (body : B → A → M S E B) (I : S → Prop) l :
  (∀ x a s, I s → after (body a x) s (λ t _, I t) (λ _, True)) →
  ∀ a s, I s → after (for_acc body a l) s (λ t _, I t) (λ _, True).
Proof.
  intros Hb. induction l as [|x l IH]; intros a s Hs; [done|]. simpl.
  apply after_bind. eapply after_mono; [by apply Hb| |done]. intros t a' Ht. by apply IH.
Qed.
Lemma for_acc_fails {S E A B} (body : B → A → M S E B) (I : S → Prop) (bad : A → Prop) l :
  (∀ x a s, I s → after (body a x) s (λ t _, I t) (λ _, True)) →
  (∀ x a s, I s → bad x → after (body a x) s (λ _ _, False) (λ _, True)) →
  (∃ x, x ∈ l ∧ bad x) → ∀ a s, I s → after (for_acc body a l) s (λ _ _, False) (λ _, True).
Proof.
  intros Hb Hbad. induction l as [|x l IH]; intros (y & Hy & Hyb) a s Hs; [by apply elem_of_nil in Hy|]. simpl.
  apply after_bind. apply elem_of_cons in Hy as [->|Hy]; [by eapply after_mono; [by apply Hbad|done|done]|].
  eapply after_mono; [by apply Hb| |done]. intros t a' Ht. apply IH; eauto.
Qed.

Section agreement.
Context {C N : Type} `{ord : NodeIdT N} `{crypto : Crypto} `{pl : !PolyLib} `{sha : Sha3}
  `{rse : ReedSolomonLib} `{bo : ByteOrder}
  `{sid : !SessionIdT (subset.BaSessionId honey_badger.EpochId)}
  `{bin_ct : !Bincode Ciphertext} `{bin_vote : !Bincode (votes.Vote N)}
  `{bin_poly : !Bincode Poly} `{bin_fr : !Bincode Fr}
  `{bin_kg : !Bincode KeyGenMessage} `{bin_c : !Bincode (InternalContrib C N)}.
(** Serialization does not fail. *)
Context (Hkg : ∀ m : KeyGenMessage, is_Some (bin_serialize m)) (Hpoly : ∀ p : Poly, is_Some (bin_serialize p))
  (Hfr : ∀ x : Fr, is_Some (bin_serialize x)).
Abbreviation State := (DynamicHoneyBadger N).
Abbreviation DStep := (Step (Message N) (Batch C N) N FaultKind).
Abbreviation DM := (M State Error).
Implicit Types (s t : State) (kgs : KeyGenState N) (ni : NetworkInfo N) (r : Rng).

(** What the nodes have in common *)
Record same_keys ni1 ni2 : Prop := {
  sk_wf1 : netinfo_wf ni1;
  sk_wf2 : netinfo_wf ni2;
  sk_public_keys : public_keys ni1 = public_keys ni2;
  sk_key_set : public_key_set ni1 = public_key_set ni2;
}.
Definition same_kg (o1 o2 : option (KeyGenState N)) : Prop :=
  match o1, o2 with
  | None, None => True
  | Some k1, Some k2 => sync_key_gen.same_public (key_gen k1) (key_gen k2) ∧
      sync_key_gen.idx_ok (key_gen k1) ∧ sync_key_gen.idx_ok (key_gen k2)
  | _, _ => False
  end.
Record same_public s1 s2 : Prop := {
  sp_era : era s1 = era s2;
  sp_keys : same_keys (netinfo s1) (netinfo s2);
  sp_votes : votes.same_view (vote_counter s1) (vote_counter s2);
  sp_params : honey_badger.params (hb s1) = honey_badger.params (hb s2);
  sp_key_gen : same_kg (key_gen_state s1) (key_gen_state s2);
}.
Abbreviation both_ := (both same_public).

(** Batches that differ only in the secret keys *)
Record same_batch (b1 b2 : Batch C N) : Prop := {
  sb_epoch : batch_epoch b1 = batch_epoch b2;
  sb_era : batch_era b1 = batch_era b2;
  sb_contributions : batch_contributions b1 = batch_contributions b2;
  sb_change : batch_change b1 = batch_change b2;
  sb_netinfo : same_keys (batch_netinfo b1) (batch_netinfo b2);
  sb_params : batch_params b1 = batch_params b2;
}.
Definition same_output (st1 st2 : DStep) : Prop := Forall2 same_batch (output st1) (output st2).

Lemma same_output_default : same_output step_default step_default.
Proof. constructor. Qed.
Lemma same_output_nil (st1 st2 x1 x2 : DStep) : same_output st1 st2 → output x1 = [] → output x2 = [] →
  same_output (step_extend st1 x1) (step_extend st2 x2).
Proof. unfold same_output. cbn. intros ? -> ->. by rewrite !app_nil_r. Qed.

Lemma same_num_faulty ni1 ni2 : same_keys ni1 ni2 → num_faulty ni1 = num_faulty ni2.
Proof. intros [W1 W2 H _]. by rewrite (wf_num_faulty _ W1), (wf_num_faulty _ W2), (wf_num_nodes _ W1), (wf_num_nodes _ W2), H. Qed.
Lemma new_same_view ni1 ni2 e : same_keys ni1 ni2 → votes.same_view (votes.new ni1 e) (votes.new ni2 e).
Proof. intros H. split_and!; [done..|apply H|by apply same_num_faulty]. Qed.

(** ** Key generation messages *)
(** A step without outputs on both sides *)
Abbreviation silent := (λ (t1 : State) (x1 : DStep) (t2 : State) (x2 : DStep),
  same_public t1 t2 ∧ output x1 = [] ∧ output x2 = []).
Abbreviation silent_rng := (λ (t1 : State) (x1 : DStep * Rng) (t2 : State) (x2 : DStep * Rng),
  same_public t1 t2 ∧ output x1.1 = [] ∧ output x2.1 = []).

Lemma same_buffer s1 s2 (b1 b2 : list (SignedKeyGenMsg N)) : same_public s1 s2 →
  same_public (s1 <| key_gen_msg_buffer := b1 |>) (s2 <| key_gen_msg_buffer := b2 |>).
Proof. by intros []. Qed.

Lemma buffer_id s : s <| key_gen_msg_buffer := key_gen_msg_buffer s |> = s.
Proof. by destruct s. Qed.

Lemma send_transaction_ok m s : ∃ b (x : DStep),
  send_transaction m s = Ok (s <| key_gen_msg_buffer := b |>) x ∧ output x = [].
Proof.
  destruct (Hkg m) as [ser Hser]. unfold send_transaction, mbind, M_bind. rewrite Hser. cbn.
  destruct (is_validator (netinfo s)); cbn; [by eexists _, _|].
  exists (key_gen_msg_buffer s). eexists. by rewrite buffer_id.
Qed.

Lemma same_public_state s1 s2 k1 k2 m1 m2 : same_public s1 s2 →
  sync_key_gen.same_public m1 m2 → sync_key_gen.idx_ok m1 → sync_key_gen.idx_ok m2 →
  same_public (s1 <| key_gen_state := Some (k1 <| key_gen := m1 |>) |>)
    (s2 <| key_gen_state := Some (k2 <| key_gen := m2 |>) |>).
Proof. by intros []. Qed.

Lemma transition_same ev1 ev2 (m1 m2 m1' m2' : sync_key_gen.SyncKeyGen N) :
  sync_key_gen.same_public m1 m2 → sync_key_gen.idx_ok m1 → sync_key_gen.idx_ok m2 →
  (∀ pub p, sync_key_gen.handle_public pub ev1 p = sync_key_gen.handle_public pub ev2 p) →
  sync_key_gen.transition ev1 m1 m1' → sync_key_gen.transition ev2 m2 m2' →
  sync_key_gen.same_public m1' m2' ∧ sync_key_gen.idx_ok m1' ∧ sync_key_gen.idx_ok m2'.
Proof.
  intros (Hk & Ht & Hp) H1 H2 Hev [] []. unfold sync_key_gen.same_public, sync_key_gen.idx_ok in *.
  split_and!; try congruence.
Qed.

Lemma encrypt_values_total (row : Poly) i pks r : ∃ cts r', sync_key_gen.encrypt_values row i pks r = inr (cts, r').
Proof.
  revert i r. induction pks as [|pk pks IH]; intros i r; simpl; [by eexists _, _|].
  destruct (Hfr (poly_evaluate row (Z.of_nat i + 1))) as [ser ->]. destruct (pk_encrypt_with_rng pk r ser) as [ct r1].
  destruct (IH (S i) r1) as (cts & r' & ->). by eexists _, _.
Qed.
Lemma encrypt_rows_total (p : BivarPoly) i pks r : ∃ cts r', sync_key_gen.encrypt_rows p i pks r = inr (cts, r').
Proof.
  revert i r. induction pks as [|pk pks IH]; intros i r; simpl; [by eexists _, _|].
  destruct (Hpoly (bivar_row p (Z.of_nat i + 1))) as [ser ->]. destruct (pk_encrypt_with_rng pk r ser) as [ct r1].
  destruct (IH (S i) r1) as (cts & r' & ->). by eexists _, _.
Qed.

(** A call of the key generation: it fails exactly if the sender is not one of its nodes. *)
Definition kg_call {A} id (ev : sync_key_gen.event N) (m : sync_key_gen.SyncKeyGen N)
    (o : outcome (sync_key_gen.SyncKeyGen N) sync_key_gen.Error A) : Prop :=
  match sync_key_gen.position (sync_key_gen.pub_keys m) id with
  | None => o = Err m sync_key_gen.UnknownSender
  | Some _ => ∃ m' a, o = Ok m' a ∧ sync_key_gen.transition ev m m'
  end.

Lemma kg_part id part r (m : sync_key_gen.SyncKeyGen N) : sync_key_gen.idx_ok m →
  kg_call id (sync_key_gen.EvPart id part r) m (sync_key_gen.handle_part id part r m).
Proof.
  intros Hok. destruct (sync_key_gen.handle_event_spec (sync_key_gen.EvPart id part r) m Hok) as (m' & Hm' & Htr).
  cbn [sync_key_gen.handle_event] in Hm'. unfold kg_call, sync_key_gen.handle_part, mbind, M_bind, get in *.
  unfold sync_key_gen.node_index in *. destruct (sync_key_gen.position _ id) as [idx|]; [|done].
  cbn [ok_or mret M_ret] in *. unfold mret, M_ret, try_ in *.
  destruct (sync_key_gen.handle_part_or_fault idx part m) as [m1 [row|]|m1 e| |]; try done; cbn in *.
  - destruct (encrypt_values_total row 0 (BTree.values (sync_key_gen.pub_keys m)) r) as (cts & r' & Henc).
    rewrite Henc in *. cbn in *. injection Hm' as ->. eexists _, _. split; [reflexivity|exact Htr].
  - injection Hm' as ->. eexists _, _. split; [reflexivity|exact Htr].
  - injection Hm' as ->. eexists _, _. split; [reflexivity|exact Htr].
Qed.

Lemma kg_ack id ack (m : sync_key_gen.SyncKeyGen N) : sync_key_gen.idx_ok m →
  kg_call id (sync_key_gen.EvAck id ack) m (sync_key_gen.handle_ack id ack m).
Proof.
  intros Hok. destruct (sync_key_gen.handle_event_spec (sync_key_gen.EvAck id ack) m Hok) as (m' & Hm' & Htr).
  cbn [sync_key_gen.handle_event] in Hm'. unfold kg_call, sync_key_gen.handle_ack, mbind, M_bind, get in *.
  unfold sync_key_gen.node_index in *. destruct (sync_key_gen.position _ id) as [idx|]; [|done].
  cbn [ok_or mret M_ret] in *. unfold mret, M_ret, try_ in *.
  destruct (sync_key_gen.handle_ack_or_fault idx ack m) as [m1 []|m1 e| |]; try done; cbn in *.
  all: injection Hm' as ->; eexists _, _; split; [reflexivity|exact Htr].
Qed.

(** Both nodes' key generations handle the message alike. *)
Lemma on_key_gen_same {A1 A2} id ev1 ev2 k1 k2 s1 s2 (m1 : M (sync_key_gen.SyncKeyGen N) sync_key_gen.Error A1)
    (m2 : M (sync_key_gen.SyncKeyGen N) sync_key_gen.Error A2) :
  same_public s1 s2 → same_kg (Some k1) (Some k2) → key_gen_state s1 = Some k1 → key_gen_state s2 = Some k2 →
  (∀ pub p, sync_key_gen.handle_public pub ev1 p = sync_key_gen.handle_public pub ev2 p) →
  kg_call id ev1 (key_gen k1) (m1 (key_gen k1)) → kg_call id ev2 (key_gen k2) (m2 (key_gen k2)) →
  both_ (on_key_gen k1 m1) (on_key_gen k2 m2) s1 s2 (λ t1 _ t2 _, same_public t1 t2).
Proof.
  intros Hs (Hp & Hi1 & Hi2) Hk1 Hk2 Hev H1 H2. unfold both, on_key_gen, zoom, map_err, kg_call in *.
  assert (Hpk : sync_key_gen.pub_keys (key_gen k1) = sync_key_gen.pub_keys (key_gen k2)) by apply Hp.
  rewrite Hpk in H1. destruct (sync_key_gen.position _ id) as [idx|].
  - destruct H1 as (m1' & a1 & -> & Ht1), H2 as (m2' & a2 & -> & Ht2).
    destruct (transition_same ev1 ev2 _ _ _ _ Hp Hi1 Hi2 Hev Ht1 Ht2) as (? & ? & ?). by apply same_public_state.
  - rewrite H1, H2. split; [done|]. by apply same_public_state.
Qed.

Lemma handle_part_same id part r1 r2 s1 s2 : same_public s1 s2 →
  both_ (handle_part (C := C) id part r1) (handle_part id part r2) s1 s2 silent_rng.
Proof.
  intros Hs. unfold handle_part. apply both_bind. cbn. pose proof (sp_key_gen _ _ Hs) as Hkg'. unfold same_kg in Hkg'.
  destruct (key_gen_state s1) as [k1|] eqn:Hk1, (key_gen_state s2) as [k2|] eqn:Hk2; try done.
  apply both_bind. eapply both_mono.
  { eapply (on_key_gen_same id (sync_key_gen.EvPart id part r1) (sync_key_gen.EvPart id part r2));
      [done..|apply kg_part, Hkg'|apply kg_part, Hkg']. }
  intros t1 [o1 r1'] t2 [o2 r2'] Ht. cbn.
  assert (Hdone : ∀ (o : sync_key_gen.PartOutcome) r (t : State), ∃ b x r',
    (match o with
     | sync_key_gen.PartValid (Some ack) => step ← send_transaction (C := C) (KgAck ack); mret (step, r)
     | sync_key_gen.PartValid None => mret (step_default, r)
     | sync_key_gen.PartInvalid fault => mret (step_fault id (SyncKeyGenPart fault), r)
     end) t = Ok (t <| key_gen_msg_buffer := b |>) (x, r') ∧ output x = []).
  { intros [[ack|]|fault] r t.
    - destruct (send_transaction_ok (KgAck ack) t) as (b & x & Hx & Ho). exists b, x, r.
      unfold mbind, M_bind. by rewrite Hx.
    - exists (key_gen_msg_buffer t). eexists _, _. by rewrite buffer_id.
    - exists (key_gen_msg_buffer t). eexists _, _. by rewrite buffer_id. }
  destruct (Hdone o1 r1' t1) as (b1 & x1 & r1'' & H1 & Ho1), (Hdone o2 r2' t2) as (b2 & x2 & r2'' & H2 & Ho2).
  unfold both. rewrite H1, H2. split; [by apply same_buffer|done].
Qed.

Lemma handle_ack_same id ack s1 s2 : same_public s1 s2 →
  both_ (handle_ack (C := C) id ack) (handle_ack id ack) s1 s2 silent.
Proof.
  intros Hs. unfold handle_ack. apply both_bind. cbn. pose proof (sp_key_gen _ _ Hs) as Hkg'. unfold same_kg in Hkg'.
  destruct (key_gen_state s1) as [k1|] eqn:Hk1, (key_gen_state s2) as [k2|] eqn:Hk2; try done.
  apply both_bind. eapply both_mono.
  { eapply (on_key_gen_same id (sync_key_gen.EvAck id ack) (sync_key_gen.EvAck id ack));
      [done..|apply kg_ack, Hkg'|apply kg_ack, Hkg']. }
  intros t1 o1 t2 o2 Ht. by destruct o1, o2.
Qed.

Lemma verify_signature_same id sg m s1 s2 : same_public s1 s2 →
  both_ (verify_signature id sg m) (verify_signature id sg m) s1 s2 (λ t1 a1 t2 a2, t1 = s1 ∧ t2 = s2 ∧ a1 = a2).
Proof.
  intros Hs. destruct (Hkg m) as [ser Hser]. unfold verify_signature, both, mbind, M_bind. rewrite Hser. cbn.
  split_and!; [done..|]. unfold public_key. rewrite (sk_public_keys _ _ (sp_keys _ _ Hs)).
  pose proof (sp_key_gen _ _ Hs) as Hkg'. unfold same_kg in Hkg'.
  destruct (key_gen_state s1) as [k1|], (key_gen_state s2) as [k2|]; try done. cbn.
  destruct Hkg' as [(Hp & _) _]. unfold kgs_public_keys. by rewrite Hp.
Qed.
(** ** A contribution *)
Abbreviation so := (λ (t1 : State) (x1 : DStep * Rng) (t2 : State) (x2 : DStep * Rng),
  same_public t1 t2 ∧ same_output x1.1 x2.1).

Lemma commit_message_same id m s1 (a1 : DStep * Rng) s2 a2 : so s1 a1 s2 a2 →
  both_ (commit_key_gen_message (C := C) id a1 m) (commit_key_gen_message id a2 m) s1 s2 so.
Proof.
  destruct a1 as [st1 r1], a2 as [st2 r2], m as [e sid' m sg]. intros [Hs Ho]. unfold commit_key_gen_message.
  apply both_bind. cbn. rewrite (sp_era _ _ Hs). destruct (negb _); [done|]. apply both_bind.
  eapply both_mono; [by apply verify_signature_same|]. intros t1 b1 t2 b2 (-> & -> & ->).
  destruct (negb b2); [done|]. apply both_bind.
  eapply (both_mono _ _ _ _ _ silent_rng).
  - destruct m as [part|ack]; [by apply handle_part_same|]. apply both_bind.
    eapply both_mono; [by apply handle_ack_same|]. done.
  - intros t1 [x1 r1'] t2 [x2 r2'] (Ht & H1 & H2). split; [done|]. by apply same_output_nil.
Qed.

Abbreviation so_c := (λ (t1 : State) (x1 : DStep * Rng * gmap N C) (t2 : State) (x2 : DStep * Rng * gmap N C),
  so t1 x1.1 t2 x2.1 ∧ x1.2 = x2.2).

Lemma process_contribution_same c s1 a1 s2 a2 : so_c s1 a1 s2 a2 →
  both_ (process_contribution (C := C) a1 c) (process_contribution a2 c) s1 s2 so_c.
Proof.
  destruct a1 as [[st1 r1] m1], a2 as [[st2 r2] m2], c as [id [con kgm vs]]. intros [[Hs Ho] Hm]. cbn in Ho, Hm. subst m2.
  unfold process_contribution. apply both_bind.
  pose proof (votes.add_committed_votes_same id vs _ _ (sp_votes _ _ Hs)) as Hv. unfold both, on_votes, zoom.
  destruct (votes.add_committed_votes id vs (vote_counter s1)) as [v1 fl1|v1 e1| |],
    (votes.add_committed_votes id vs (vote_counter s2)) as [v2 fl2|v2 e2| |]; try done; cbn in Hv.
  2: { destruct Hv as [-> Hv]. split; [done|]. by destruct Hs. }
  destruct Hv as [-> Hv].
  set (t1 := s1 <| vote_counter := v1 |>). set (t2 := s2 <| vote_counter := v2 |>).
  change (both_ (modify (λ s : State, s <| key_gen_msg_buffer ::= filter (λ skgm, skgm ∉ kgm) |>);;
      '(step, rng) ← for_acc (commit_key_gen_message (C := C) id) (st1 <| fault_log ::= λ l, faultlog_extend l fl2 |>, r1) kgm;
      mret (step, rng, <[id := con]> m1))
    (modify (λ s : State, s <| key_gen_msg_buffer ::= filter (λ skgm, skgm ∉ kgm) |>);;
      '(step, rng) ← for_acc (commit_key_gen_message (C := C) id) (st2 <| fault_log ::= λ l, faultlog_extend l fl2 |>, r2) kgm;
      mret (step, rng, <[id := con]> m1)) t1 t2 so_c).
  apply both_bind. cbn. apply both_bind. eapply both_mono.
  - apply (both_for_acc same_public _ _ so); [intros; by apply commit_message_same|].
    split; [|done]. by destruct Hs.
  - intros u1 [x1 q1] u2 [x2 q2] Hu. done.
Qed.

(** ** The change *)
Lemma restart_ok e p s : ∃ b, restart_honey_badger e p s = Ok (s <| era := e |> <| key_gen_msg_buffer := b |>
  <| vote_counter := votes.new (netinfo s) e |> <| hb := honey_badger.build (honey_badger.set_params p
    (honey_badger.set_session_id e (honey_badger.builder (netinfo s)))) |>) ().
Proof. by eexists. Qed.

Lemma same_restart e p s1 s2 (b1 b2 : list (SignedKeyGenMsg N)) : same_keys (netinfo s1) (netinfo s2) →
  same_kg (key_gen_state s1) (key_gen_state s2) →
  same_public
    (s1 <| era := e |> <| key_gen_msg_buffer := b1 |> <| vote_counter := votes.new (netinfo s1) e |>
      <| hb := honey_badger.build (honey_badger.set_params p (honey_badger.set_session_id e (honey_badger.builder (netinfo s1)))) |>)
    (s2 <| era := e |> <| key_gen_msg_buffer := b2 |> <| vote_counter := votes.new (netinfo s2) e |>
      <| hb := honey_badger.build (honey_badger.set_params p (honey_badger.set_session_id e (honey_badger.builder (netinfo s2)))) |>).
Proof. intros Hk Hkg'. split; [done|done|by apply new_same_view|done|done]. Qed.

Lemma restart_same e p s1 s2 : same_keys (netinfo s1) (netinfo s2) →
  same_kg (key_gen_state s1) (key_gen_state s2) →
  both_ (restart_honey_badger e p) (restart_honey_badger e p) s1 s2 (λ t1 _ t2 _, same_public t1 t2).
Proof.
  intros Hk Hkg'. unfold both. destruct (restart_ok e p s1) as [b1 ->], (restart_ok e p s2) as [b2 ->].
  by apply same_restart.
Qed.

Lemma kg_new_ok (id : N) (sk : SecretKey) (pub : gmap N PublicKey) (th : nat) r : ∃ kg part r',
  sync_key_gen.new id sk pub th r = inr (kg, part, r') ∧ sync_key_gen.idx_ok kg ∧
  sync_key_gen.pub_keys kg = pub ∧ sync_key_gen.threshold kg = th ∧ sync_key_gen.public kg = ∅.
Proof.
  unfold sync_key_gen.new. destruct (sync_key_gen.position pub id) as [idx|] eqn:Hp.
  - destruct (bivar_random th r) as [p r1]. destruct (encrypt_rows_total p 0 (BTree.values pub) r1) as (cts & r' & ->).
    eexists _, _, _. split; [reflexivity|]. by split_and!.
  - eexists _, _, _. split; [reflexivity|]. by split_and!.
Qed.

Lemma same_kg_keys s1 s2 : same_public s1 s2 →
  kgs_public_keys <$> key_gen_state s1 = kgs_public_keys <$> key_gen_state s2.
Proof.
  intros Hs. pose proof (sp_key_gen _ _ Hs) as Hk. unfold same_kg in Hk.
  destruct (key_gen_state s1), (key_gen_state s2); try done. cbn. f_equal. apply Hk.
Qed.

Lemma update_key_gen_same e pub r1 r2 s1 s2 : same_public s1 s2 →
  both_ (update_key_gen (C := C) e pub r1) (update_key_gen e pub r2) s1 s2 silent_rng.
Proof.
  intros Hs. unfold update_key_gen. apply both_bind. cbn. rewrite (same_kg_keys _ _ Hs).
  destruct (bool_decide _); [done|]. apply both_bind. rewrite (sp_params _ _ Hs).
  eapply both_mono; [by apply restart_same; apply Hs|]. intros t1 u1 t2 u2 Ht. cbn beta in Ht. clear u1 u2.
  apply both_bind. unfold expect. destruct (max_faulty (size pub)) as [th|]; [|done]. cbn.
  apply both_bind. cbn. apply both_bind. unfold both at 1, map_err, of_sum.
  destruct (kg_new_ok (our_id t1) (secret_key (netinfo t1)) pub th r1) as (kg1 & p1 & q1 & -> & Hi1 & Hk1 & Ht1 & Hp1).
  destruct (kg_new_ok (our_id t2) (secret_key (netinfo t2)) pub th r2) as (kg2 & p2 & q2 & -> & Hi2 & Hk2 & Ht2 & Hp2).
  cbn. apply both_bind. cbn.
  set (u1 := t1 <| key_gen_state := Some (kgs_new kg1) |>). set (u2 := t2 <| key_gen_state := Some (kgs_new kg2) |>).
  assert (Hu : same_public u1 u2).
  { destruct Ht. split; try done. cbn. split_and!; [|done..]. split_and!; congruence. }
  assert (Hdone : ∀ p r (t : State), ∃ b x r', (match p with
      | Some part => step ← send_transaction (C := C) (KgPart part); mret (step, r)
      | None => mret (step_default, r) end) t = Ok (t <| key_gen_msg_buffer := b |>) (x, r') ∧ output x = []).
  { intros [part|] r t.
    - destruct (send_transaction_ok (KgPart part) t) as (b & x & Hx & Ho). exists b, x, r.
      unfold mbind, M_bind. by rewrite Hx.
    - exists (key_gen_msg_buffer t). eexists _, _. by rewrite buffer_id. }
  destruct (Hdone p1 q1 u1) as (b1 & x1 & r1' & H1 & Ho1), (Hdone p2 q2 u2) as (b2 & x2 & r2' & H2 & Ho2).
  unfold both. rewrite H1, H2. split; [by apply same_buffer|done].
Qed.

Lemma take_ready_same s1 s2 : same_public s1 s2 →
  both_ take_ready_key_gen take_ready_key_gen s1 s2 (λ t1 o1 t2 o2, same_public t1 t2 ∧ same_kg o1 o2).
Proof.
  intros Hs. unfold take_ready_key_gen. apply both_bind. cbn. pose proof (sp_key_gen _ _ Hs) as Hk. unfold same_kg in Hk.
  destruct (key_gen_state s1) as [k1|] eqn:Hk1, (key_gen_state s2) as [k2|] eqn:Hk2; try done.
  pose proof Hk as [(Hp & Ht & Hpub) _].
  assert (Hready : kgs_is_ready k1 = kgs_is_ready k2).
  { unfold kgs_is_ready, sync_key_gen.is_ready. by rewrite !sync_key_gen.count_complete_public, Ht, Hpub, Hp. }
  rewrite Hready. destruct (kgs_is_ready k2); [|by split]. apply both_bind. cbn. split; [|done].
  destruct Hs. by split.
Qed.

Lemma into_network_info_same (m1 m2 : sync_key_gen.SyncKeyGen N) : sync_key_gen.same_public m1 m2 →
  match sync_key_gen.into_network_info m1, sync_key_gen.into_network_info m2 with
  | Some ni1, Some ni2 => same_keys ni1 ni2
  | None, None => True
  | _, _ => False
  end.
Proof.
  intros (Hp & Ht & Hpub). unfold sync_key_gen.into_network_info.
  assert (Hg : (sync_key_gen.generate m1).1 = (sync_key_gen.generate m2).1).
  { by rewrite !sync_key_gen.generate_public, Ht, Hpub. }
  destruct (sync_key_gen.generate m1) as [pk1 sk1], (sync_key_gen.generate m2) as [pk2 sk2]. cbn in Hg. subst pk2.
  destruct (netinfo_new _ sk1 _ _ _) as [ni1|] eqn:H1, (netinfo_new _ sk2 _ _ _) as [ni2|] eqn:H2; [| | |done].
  - apply netinfo_new_wf in H1 as (? & _ & ? & ? & _), H2 as (? & _ & ? & ? & _). split; congruence.
  - assert (Hs : is_Some (netinfo_new (sync_key_gen.our_id m2) sk2 pk1 (sync_key_gen.sec_key m2) (sync_key_gen.pub_keys m2))).
    { apply netinfo_new_total. rewrite <- Hp. eapply netinfo_new_total. by eexists. }
    rewrite H2 in Hs. by destruct Hs.
  - assert (Hs : is_Some (netinfo_new (sync_key_gen.our_id m1) sk1 pk1 (sync_key_gen.sec_key m1) (sync_key_gen.pub_keys m1))).
    { apply netinfo_new_total. rewrite Hp. eapply netinfo_new_total. by eexists. }
    rewrite H1 in Hs. by destruct Hs.
Qed.

Lemma winner_same s1 s2 : same_public s1 s2 →
  votes.compute_winner (vote_counter s1) = votes.compute_winner (vote_counter s2).
Proof. intros Hs. destruct (sp_votes _ _ Hs) as (Hc & _ & _ & Hf). unfold votes.compute_winner. by rewrite Hc, Hf. Qed.

Lemma apply_change_same e st1 st2 r1 r2 s1 s2 : same_public s1 s2 → same_output st1 st2 →
  both_ (apply_change (C := C) e st1 r1) (apply_change e st2 r2) s1 s2 (λ t1 x1 t2 x2, so t1 x1.1 t2 x2.1 ∧ x1.2 = x2.2).
Proof.
  intros Hs Ho. unfold apply_change. apply both_bind. eapply both_mono; [by apply take_ready_same|].
  intros t1 o1 t2 o2 [Ht Hk]. destruct o1 as [k1|], o2 as [k2|]; try done.
  - pose proof (into_network_info_same _ _ (proj1 Hk)) as Hn. apply both_bind. unfold expect.
    destruct (sync_key_gen.into_network_info (key_gen k1)) as [ni1|],
      (sync_key_gen.into_network_info (key_gen k2)) as [ni2|]; try done. cbn.
    apply both_bind. cbn. apply both_bind. cbn. apply both_bind. rewrite (sp_params _ _ Ht).
    eapply both_mono; [apply restart_same; [done|apply Ht]|]. intros u1 v1 u2 v2 Hu. cbn.
    split_and!; [done|done|]. by rewrite (sk_public_keys _ _ Hn).
  - apply both_bind. cbn. rewrite (winner_same _ _ Ht).
    destruct (votes.compute_winner (vote_counter t2)) as [[pub|sch]|]; [| |done].
    + apply both_bind. eapply both_mono; [by apply update_key_gen_same|].
      intros u1 [x1 q1] u2 [x2 q2] (Hu & H1 & H2). cbn. split_and!; [done| |done]. by apply same_output_nil.
    + apply both_bind. unfold update_encryption_schedule. apply both_bind. cbn. rewrite (sp_params _ _ Ht).
      eapply both_mono; [apply restart_same; apply Ht|]. done.
Qed.

(** ** A batch *)
Lemma process_batch_same (hb_batch : honey_badger.Batch (InternalContrib C N) N) s1 a1 s2 a2 : so s1 a1 s2 a2 →
  both_ (process_batch (C := C) a1 hb_batch) (process_batch a2 hb_batch) s1 s2 so.
Proof.
  destruct a1 as [st1 r1], a2 as [st2 r2]. intros [Hs Ho]. unfold process_batch. apply both_bind. cbn.
  rewrite (sp_era _ _ Hs). apply both_bind. eapply both_mono.
  { apply (both_for_acc same_public _ _ so_c); [intros; by apply process_contribution_same|]. done. }
  intros t1 [[x1 q1] m1] t2 [[x2 q2] m2] [[Ht Hx] Hm]. cbn in Ht, Hx, Hm. subst m2. apply both_bind.
  eapply both_mono; [by apply apply_change_same|].
  intros u1 [[y1 p1] c1] u2 [[y2 p2] c2] [[Hu Hy] Hc]. cbn in Hu, Hy, Hc. subst c2. cbn.
  split; [done|]. cbn. apply Forall2_app; [done|]. constructor; [|constructor]. split; try done; apply Hu.
Qed.

(** The batches that the inner Honey Badger has output, with other messages and faults *)
Abbreviation HbStep := (Step (honey_badger.Message N) (honey_badger.Batch (InternalContrib C N) N) N honey_badger.FaultKind).

(** Agreement: two nodes that have the same era, validators, votes, parameters and public key
    generation state, and whose Honey Badger instances output the same batches, output the
    same batches, up to their secret keys, with the same contributions and the same change
    of validators or schedule, and are again in the same public state; or both fail, with
    the same error. *)
Theorem dhb_batches_agree s1 s2 (hs1 hs2 : HbStep) r1 r2 :
  same_public s1 s2 → output hs1 = output hs2 →
  match process_output hs1 r1 s1, process_output hs2 r2 s2 with
  | Ok t1 (x1, _), Ok t2 (x2, _) => same_public t1 t2 ∧ Forall2 same_batch (output x1) (output x2)
  | Err t1 e1, Err t2 e2 => e1 = e2 ∧ same_public t1 t2
  | Panic, Panic => True
  | _, _ => False
  end.
Proof.
  intros Hs Ho. assert (Hb : both_ (process_output hs1 r1) (process_output hs2 r2) s1 s2 so).
  { unfold process_output. apply both_bind. cbn. rewrite Ho.
    apply (both_for_acc same_public _ _ so); [intros; by apply process_batch_same|]. split; [done|constructor]. }
  unfold both in Hb. by destruct (process_output hs1 r1 s1) as [? []| | |], (process_output hs2 r2 s2) as [? []| | |].
Qed.
(** ** A batch that cannot be processed

    A validator that is about to be removed is not a node of the key generation, but its
    key is still known: its key generation messages pass [verify_signature] and make
    [SyncKeyGen] fail with [UnknownSender]. *)
Section departing.
Context (e : u64) (id : N) (pk : PublicKey) (candidates : gmap N PublicKey).
Context (Hleaving : sync_key_gen.position candidates id = None).
Definition leaving s : Prop := era s = e ∧ public_key (netinfo s) id = Some pk ∧
  ∃ kgs, key_gen_state s = Some kgs ∧ sync_key_gen.idx_ok (key_gen kgs) ∧ sync_key_gen.pub_keys (key_gen kgs) = candidates.
(** A key generation message of the leaving node, with its valid signature *)
Definition last_word (m : SignedKeyGenMsg N) : Prop := skgm_era m = e ∧ skgm_sender m = id ∧
  ∃ ser, bin_serialize (skgm_msg m) = Some ser ∧ pk_verify pk (skgm_sig m) ser = true.
Abbreviation keeps m s := (after m s (λ t _, leaving t) (λ _, True)).

Lemma leaving_send m s : leaving s → keeps (send_transaction (C := C) m) s.
Proof. intros Hs. destruct (send_transaction_ok m s) as (b & x & Hx & _). unfold after. by rewrite Hx. Qed.

Lemma leaving_on_key_gen {A} j ev kgs s (m : M (sync_key_gen.SyncKeyGen N) sync_key_gen.Error A) :
  leaving s → key_gen_state s = Some kgs → kg_call j ev (key_gen kgs) (m (key_gen kgs)) → keeps (on_key_gen kgs m) s.
Proof.
  intros (He & Hp & k & Hk & Hi & Hc) Hkgs Hcall. assert (k = kgs) as -> by congruence.
  unfold after, on_key_gen, zoom, map_err, kg_call in *. destruct (sync_key_gen.position _ j).
  - destruct Hcall as (m' & a & -> & []). split_and!; [done..|]. eexists. split; [reflexivity|].
    unfold sync_key_gen.idx_ok in *. cbn. split; congruence.
  - by rewrite Hcall.
Qed.

Lemma leaving_part j part r s : leaving s → keeps (handle_part (C := C) j part r) s.
Proof.
  intros Hs. unfold handle_part. apply after_bind. cbn. pose proof Hs as (_ & _ & kgs & Hk & Hi & _). rewrite Hk.
  apply after_bind. eapply after_mono; [by eapply (leaving_on_key_gen j), kg_part| |done].
  intros t [[[ack|]|fault] r'] Ht; [|done..]. apply after_bind. eapply after_mono; [by apply leaving_send|done|done].
Qed.
Lemma leaving_ack j ack s : leaving s → keeps (handle_ack (C := C) j ack) s.
Proof.
  intros Hs. unfold handle_ack. apply after_bind. cbn. pose proof Hs as (_ & _ & kgs & Hk & Hi & _). rewrite Hk.
  apply after_bind. eapply after_mono; [by eapply (leaving_on_key_gen j), kg_ack| |done].
  by intros t [|fault] Ht.
Qed.

Lemma leaving_message j (a : DStep * Rng) m s : leaving s → keeps (commit_key_gen_message (C := C) j a m) s.
Proof.
  intros Hs. destruct a as [st r], m as [e' j' m sg]. unfold commit_key_gen_message. apply after_bind. cbn.
  destruct (negb _); [done|]. apply after_bind. unfold verify_signature. apply after_bind.
  destruct (bin_serialize m); [cbn|done]. apply after_bind. cbn. destruct (negb _); [done|].
  apply after_bind. eapply (after_mono _ _ (λ t _, leaving t) _ (λ _, True)); [|by intros t [x r'] Ht|done].
  destruct m as [part|ack]; [by apply leaving_part|]. apply after_bind.
  eapply after_mono; [by apply leaving_ack|done|done].
Qed.

Lemma last_word_fails j (a : DStep * Rng) m s : leaving s → last_word m →
  commit_key_gen_message (C := C) j a m s = Err s (SyncKeyGen sync_key_gen.UnknownSender).
Proof.
  intros (He & Hp & kgs & Hk & _ & Hc) (Hme & Hms & ser & Hser & Hv). destruct a as [st r], m as [e' j' m sg].
  cbn in *. subst e' j'. unfold commit_key_gen_message, mbind, M_bind, get. cbn. rewrite He, bool_decide_true by done.
  cbn. unfold verify_signature, mbind, M_bind. rewrite Hser. cbn. rewrite Hp, Hv. cbn.
  assert (Hid : s <| key_gen_state := Some (kgs <| key_gen := key_gen kgs |>) |> = s).
  { destruct s, kgs. cbn in *. by subst. }
  destruct m as [part|ack]; cbn.
  - unfold handle_part, mbind, M_bind, get. cbn. rewrite Hk. unfold on_key_gen, zoom, map_err, sync_key_gen.handle_part,
      mbind, M_bind, get. unfold sync_key_gen.node_index. rewrite Hc, Hleaving. cbn. by rewrite Hid.
  - unfold handle_ack, mbind, M_bind, get. cbn. rewrite Hk. unfold on_key_gen, zoom, map_err, sync_key_gen.handle_ack,
      mbind, M_bind, get. unfold sync_key_gen.node_index. rewrite Hc, Hleaving. cbn. by rewrite Hid.
Qed.

Lemma leaving_messages_keep j l (a : DStep * Rng) s : leaving s → keeps (for_acc (commit_key_gen_message (C := C) j) a l) s.
Proof. apply for_acc_keeps. intros. by apply leaving_message. Qed.
Lemma leaving_messages_fail j l (a : DStep * Rng) s : leaving s → (∃ m, m ∈ l ∧ last_word m) →
  after (for_acc (commit_key_gen_message (C := C) j) a l) s (λ _ _, False) (λ _, True).
Proof.
  intros Hs Hl. revert a s Hs. apply (for_acc_fails _ leaving last_word); [intros; by apply leaving_message| |done].
  intros m a s Hs Hm. unfold after. by rewrite last_word_fails.
Qed.

Abbreviation has_last_word := (λ c : N * InternalContrib C N, ∃ m, m ∈ key_gen_messages c.2 ∧ last_word m).
(** What comes before the key generation messages of a contribution *)
Lemma leaving_contribution c (a : DStep * Rng * gmap N C) s (Q : State → Prop) : leaving s →
  (∀ (a' : DStep * Rng) t, leaving t → after (for_acc (commit_key_gen_message (C := C) c.1) a' (key_gen_messages c.2)) t
    (λ t _, Q t) (λ _, True)) →
  after (process_contribution (C := C) a c) s (λ t _, Q t) (λ _, True).
Proof.
  intros Hs Hloop. destruct a as [[st r] mp], c as [j [con kgm vs]]. unfold process_contribution. apply after_bind.
  unfold after at 1, on_votes, zoom. destruct (votes.add_committed_votes j vs (vote_counter s)) as [v fl| | |]; try done.
  apply after_bind. cbn. apply after_bind. eapply after_mono; [by apply Hloop|by intros t [x r'] Ht|done].
Qed.

(** C19: A batch that is lost: while the key generation of a new set of validators is running, a
    validator that is not in this set can put a key generation message that it has signed
    into its contribution; then every node's [process_output] fails, no node outputs the
    batch, although its Honey Badger instance has, and the contributions in it are lost. *)
Theorem departing_validator_loses_batch hs r s (hb_batch : honey_badger.Batch (InternalContrib C N) N) j c :
  leaving s → output hs = [hb_batch] → honey_badger.contributions hb_batch !! j = Some c →
  (∃ m, m ∈ key_gen_messages c ∧ last_word m) →
  ∀ t x, process_output (C := C) hs r s ≠ Ok t x.
Proof.
  intros Hs Ho Hc Hm. assert (Ha : after (process_output (C := C) hs r) s (λ _ _, False) (λ _, True)).
  { unfold process_output. apply after_bind. cbn. rewrite Ho. simpl. apply after_bind.
    eapply (after_mono _ _ (λ _ _, False) _ (λ _, True)); [|done|done]. unfold process_batch. apply after_bind. cbn. apply after_bind.
    eapply (after_mono _ _ (λ _ _, False) _ (λ _, True)); [|done|done].
    apply (for_acc_fails _ leaving has_last_word); [| | |exact Hs].
    - intros x a s' Hs'. apply leaving_contribution; [done|]. intros. by apply leaving_messages_keep.
    - intros x a s' Hs' Hx. apply (leaving_contribution x a s' (λ _, False)); [done|].
      intros a' t Ht. by apply leaving_messages_fail.
    - exists (j, c). split; [by apply elem_of_entries|done]. }
  intros t x Heq. unfold after in Ha. by rewrite Heq in Ha.
Qed.
End departing.
End agreement.
End dhb_agreement.
