(* ===== verification/DhbRun.v ===== *)
(** * Dynamic Honey Badger: the run of the batches

    What [DynamicHoneyBadger::process_output] makes of the batches of the inner Honey Badger:
    a sequence of eras.  [process_batch_after] is the effect of one batch, [good_run] the run of
    a reference node on a history of batches, which every other node follows
    ([DhbAgreement]), and [ref_ok] the shape of that run: the eras ascend, and the epochs
    of the batches are consecutive numbers. *)
From S2P Require Import Prelude.
From S2P Require Import BTree.
From S2P Require Import Traits.
From S2P Require Import NetworkInfo.
From S2P Require Import Merkle.
From S2P Require Import Broadcast.
From S2P Require Import BinaryAgreement.
From S2P Require Import Subset.
From S2P Require Import HoneyBadger.
From S2P Require Import SyncKeyGen.
From S2P Require Import DhbTypes.
From S2P Require Import Votes.
From S2P Require Import DynamicHoneyBadger.
From S2P Require Import DhbAgreement.

Module dhb_run.
Import dhb.
Import dynamic_honey_badger.
Import dhb_agreement.

(** Where [m1] returns, so does [m2], in the same state. *)
Definition beside {S E A B} (m1 : M S E A) (m2 : M S E B) (s : S) (Q : S → A → B → Prop) : Prop :=
  ∀ (t : S) (a : A), m1 s = Ok t a → ∃ b, m2 s = Ok t b ∧ Q t a b.
Lemma beside_bind {S E A B A' B'} (m1 : M S E A) (m2 : M S E B) (k1 : A → M S E A') (k2 : B → M S E B') (s : S) Q :
  beside m1 m2 s (λ t a b, beside (k1 a) (k2 b) t Q) → beside (m1 ≫= k1) (m2 ≫= k2) s Q.
Proof.
  unfold beside, mbind, M_bind. intros H t a. destruct (m1 s) as [u a1| | |]; [|done..].
  destruct (H u a1 eq_refl) as (b & -> & Hk). apply Hk.
Qed.
Lemma beside_same {S E A} (m : M S E A) (s : S) (Q : S → A → A → Prop) : (∀ (t : S) a, Q t a a) → beside m m s Q.
Proof. intros HQ t a Ht. exists a. auto. Qed.
Lemma beside_ret {S E A B} (a : A) (b : B) (s : S) (Q : S → A → B → Prop) : Q s a b → beside (E := E) (mret a) (mret b) s Q.
Proof. intros HQ t a' [= <- <-]. by exists b. Qed.
Lemma beside_mono {S E A B} (m1 : M S E A) (m2 : M S E B) (s : S) (Q Q' : S → A → B → Prop) :
  beside m1 m2 s Q → (∀ (t : S) a b, Q t a b → Q' t a b) → beside m1 m2 s Q'.
Proof. intros H HQ t a (b & ? & ?)%H. exists b. auto. Qed.
Lemma beside_for_acc {S E A B B'} (body1 : B → A → M S E B) (body2 : B' → A → M S E B') (I : B → B' → Prop) l :
  (∀ (x : A) (s : S) a b, I a b → beside (body1 a x) (body2 b x) s (λ _ a b, I a b)) →
  ∀ (s : S) a b, I a b → beside (for_acc body1 a l) (for_acc body2 b l) s (λ _ a b, I a b).
Proof.
  intros Hb. induction l as [|x l IH]; intros s a b H; cbn [for_acc]; [by apply beside_ret|].
  apply beside_bind. eapply beside_mono; [by apply Hb|]. intros. by apply IH.
Qed.

(** The errors of a call *)
Definition fails_with {S E A} (P : E → Prop) (m : M S E A) : Prop := ∀ (s t : S) (err : E), m s = Err t err → P err.
Lemma fails_bind {S E A B} (P : E → Prop) (m : M S E A) (k : A → M S E B) :
  fails_with P m → (∀ a, fails_with P (k a)) → fails_with P (m ≫= k).
Proof.
  intros Hm Hk s t err. unfold mbind, M_bind. destruct (m s) as [s' a|s' err'| |] eqn:He; [by apply Hk| |done..].
  intros [= <- <-]. by eapply Hm.
Qed.
Lemma fails_ret {S E A} (P : E → Prop) (a : A) : fails_with P (mret a : M S E A).
Proof. done. Qed.
Lemma fails_get {S E} (P : E → Prop) : fails_with P (get : M S E S).
Proof. done. Qed.
Lemma fails_modify {S E} (P : E → Prop) (g : S → S) : fails_with P (modify g : M S E ()).
Proof. done. Qed.
Lemma fails_expect {S E A} (P : E → Prop) (o : option A) : fails_with P (expect o : M S E A).
Proof. by destruct o. Qed.
Lemma fails_ok_or {S E A} (P : E → Prop) (o : option A) (err : E) : P err → fails_with P (ok_or o err : M S E A).
Proof. intros HP s t e. destruct o; [done|]. by intros [= _ <-]. Qed.
Lemma fails_map_err {S E E' A} (P : E' → Prop) (g : E → E') (m : M S E A) : (∀ e, P (g e)) → fails_with P (map_err g m).
Proof. intros HP s t e. unfold map_err. destruct (m s); try done. by intros [= _ <-]. Qed.
Lemma fails_zoom {S T E A} (P : E → Prop) (g : S → T) (put : T → S → S) (m : M T E A) :
  fails_with P m → fails_with P (zoom g put m).
Proof. intros Hm s t e. unfold zoom. destruct (m (g s)) eqn:He; try done. intros [= _ <-]. by eapply Hm. Qed.
Lemma fails_for_acc {S E A B} (P : E → Prop) (body : B → A → M S E B) (l : list A) :
  (∀ b x, fails_with P (body b x)) → ∀ b, fails_with P (for_acc body b l).
Proof. intros Hb. induction l as [|x l IH]; intros b; [done|]. cbn [for_acc]. by apply fails_bind. Qed.
Create HintDb fails.
#[export] Hint Resolve fails_ret fails_get fails_modify fails_expect : fails.
(** Goes through the statements of a call. *)
Ltac fails_auto :=
  repeat first
    [ progress intros | progress case_match | progress cbn beta iota
    | apply fails_bind | apply fails_for_acc | apply fails_zoom
    | apply fails_map_err; done | apply fails_ok_or; done | solve [auto with fails] ].

Section effect.
Context {C N : Type} `{ord : NodeIdT N} `{crypto : Crypto} `{pl : !PolyLib} `{sha : Sha3}
  `{rse : ReedSolomonLib} `{bo : ByteOrder}
  `{sid : !SessionIdT (subset.BaSessionId honey_badger.EpochId)}
  `{bin_ct : !Bincode Ciphertext} `{bin_vote : !Bincode (votes.Vote N)}
  `{bin_poly : !Bincode Poly} `{bin_fr : !Bincode Fr}
  `{bin_kg : !Bincode KeyGenMessage} `{bin_c : !Bincode (InternalContrib C N)}.
Abbreviation State := (DynamicHoneyBadger N).
Abbreviation DStep := (Step (Message N) (Batch C N) N FaultKind).
Abbreviation HbBatch := (honey_badger.Batch (InternalContrib C N) N).
Implicit Types (s t : State) (r : Rng) (x : DStep).

(** ** The effect of a batch *)

(** The part of a message that concerns the Honey Badger of an era *)
Definition hb_part (e : u64) (tm : TargetedMessage (Message N) N) : option (TargetedMessage (honey_badger.Message N) N) :=
  match message tm with
  | HoneyBadger e' m => if decide (e' = e) then Some (TM (target tm) m) else None
  | _ => None
  end.
Definition quiet (ms : list (TargetedMessage (Message N) N)) : Prop := ∀ e, omap (hb_part e) ms = [].
Definition adds x x' : Prop := output x' = output x ∧ ∃ ms, messages x' = messages x ++ ms ∧ quiet ms.
Record kept s t : Prop := {
  kp_netinfo : netinfo t = netinfo s;
  kp_era : era t = era s;
  kp_hb : hb t = hb s;
}.
Definition restarted (e : u64) (p : honey_badger.Params) t : Prop := era t = e ∧
  hb t = honey_badger.build (honey_badger.set_params p (honey_badger.set_session_id e (honey_badger.builder (netinfo t)))).
Definition changed (epoch : u64) s t (c : ChangeState N) : Prop :=
  let p := honey_badger.params (hb s) in
  match c with
  | NoChange => kept s t
  | InProgress (NodeChange _) => netinfo t = netinfo s ∧ (kept s t ∨ restarted (u64_add epoch 1) p t)
  | Complete (EncryptionSchedule sch) => netinfo t = netinfo s ∧
      restarted (u64_add epoch 1) (p <| honey_badger.encryption_schedule := sch |>) t
  | Complete (NodeChange _) => restarted (u64_add epoch 1) p t
  | InProgress (EncryptionSchedule _) => False
  end.

Lemma quiet_app ms ms' : quiet ms → quiet ms' → quiet (ms ++ ms').
Proof. intros H H' e. by rewrite omap_app, H, H'. Qed.
Lemma adds_refl x : adds x x.
Proof. split; [done|]. exists []. by rewrite app_nil_r. Qed.
Lemma adds_trans x1 x2 x3 : adds x1 x2 → adds x2 x3 → adds x1 x3.
Proof.
  intros [H1 (m1 & H2 & Q1)] [H3 (m2 & H4 & Q2)]. split; [congruence|]. exists (m1 ++ m2).
  rewrite H4, H2, app_assoc. split; [done|by apply quiet_app].
Qed.
Lemma adds_extend x x' : output x' = [] → quiet (messages x') → adds x (step_extend x x').
Proof. intros Ho Hq. split; [cbn; by rewrite Ho, app_nil_r|]. by exists (messages x'). Qed.
Lemma kept_refl s : kept s s.
Proof. done. Qed.
Lemma kept_trans s1 s2 s3 : kept s1 s2 → kept s2 s3 → kept s1 s3.
Proof. intros [] []. split; congruence. Qed.

Abbreviation silent x := (output x = [] ∧ quiet (messages x)).

Lemma send_transaction_after m s : after (send_transaction (C := C) m) s (λ t x, kept s t ∧ silent x) (λ _, True).
Proof.
  unfold send_transaction. apply after_bind. unfold ok_or. destruct (bin_serialize m); [|done]. apply after_ret.
  apply after_bind, after_get, after_bind.
  destruct (is_validator (netinfo s)); [apply after_modify|apply after_ret]; apply after_ret; by split_and!.
Qed.

Lemma on_key_gen_after {A} kgs (m : M (sync_key_gen.SyncKeyGen N) sync_key_gen.Error A) s :
  after (on_key_gen kgs m) s (λ t _, kept s t) (λ _, True).
Proof. unfold on_key_gen, zoom, after. by destruct (map_err SyncKeyGen m (key_gen kgs)). Qed.

Lemma handle_part_after id part r s :
  after (handle_part (C := C) id part r) s (λ t y, kept s t ∧ silent y.1) (λ _, True).
Proof.
  unfold handle_part. apply after_bind, after_get. destruct (key_gen_state s) as [kgs|]; [|by apply after_ret].
  apply after_bind. eapply after_mono; [apply on_key_gen_after| |done]. intros t [[[ack|]|fault] r'] Ht.
  - apply after_bind. eapply after_mono; [apply send_transaction_after| |done]. intros u x (Hu & Hx).
    apply after_ret. split; [by eapply kept_trans|done].
  - by apply after_ret.
  - by apply after_ret.
Qed.

Lemma handle_ack_after id ack s :
  after (handle_ack (C := C) id ack) s (λ t x, kept s t ∧ silent x) (λ _, True).
Proof.
  unfold handle_ack. apply after_bind, after_get. destruct (key_gen_state s) as [kgs|]; [|by apply after_ret].
  apply after_bind. eapply after_mono; [apply on_key_gen_after| |done]. intros t [|fault] Ht; by apply after_ret.
Qed.

Lemma verify_signature_after id sg m s :
  after (verify_signature id sg m) s (λ t _, t = s) (λ _, True).
Proof.
  unfold verify_signature. apply after_bind. unfold ok_or. destruct (bin_serialize m); [|done]. apply after_ret.
  by apply after_bind, after_get, after_ret.
Qed.

Lemma commit_after id m (a : DStep * Rng) s :
  after (commit_key_gen_message id a m) s (λ t y, kept s t ∧ adds a.1 y.1) (λ _, True).
Proof.
  destruct a as [x r], m as [e j m sg]. unfold commit_key_gen_message. apply after_bind, after_get.
  destruct (negb _); [apply after_ret; split; [done|]; split; [done|]; exists []; by rewrite app_nil_r|].
  apply after_bind. eapply after_mono; [apply verify_signature_after| |done]. intros t ok ->.
  destruct (negb ok); [apply after_ret; split; [done|]; split; [done|]; exists []; by rewrite app_nil_r|].
  apply after_bind. apply (after_mono _ _ (λ t y, kept s t ∧ silent y.1) _ (λ _, True)); [| |done].
  - destruct m as [part|ack]; [apply handle_part_after|]. apply after_bind.
    eapply after_mono; [apply handle_ack_after| |done]. intros t x' Hx. by apply after_ret.
  - intros t [x' r'] (Ht & Ho & Hq). apply after_ret. split; [done|]. by apply adds_extend.
Qed.

Lemma contribution_after (c : N * InternalContrib C N) (a : DStep * Rng * gmap N C) s :
  after (process_contribution a c) s (λ t y, kept s t ∧ adds a.1.1 y.1.1) (λ _, True).
Proof.
  destruct a as [[x r] cs], c as [id [con kgm vs]]. unfold process_contribution. apply after_bind.
  apply (after_mono _ _ (λ t _, kept s t) _ (λ _, True)); [| |done].
  { unfold on_votes, zoom, after. by destruct (votes.add_committed_votes id vs (vote_counter s)). }
  intros t fl Ht. apply after_bind, after_modify, after_bind.
  set (t1 := t <| key_gen_msg_buffer ::= filter (λ skgm, skgm ∉ kgm) |>).
  set (x1 := x <| fault_log ::= λ l, faultlog_extend l fl |>).
  assert (Hloop : ∀ l (a : DStep * Rng) u, kept s u ∧ adds x a.1 →
    after (for_acc (commit_key_gen_message (C := C) id) a l) u (λ u y, kept s u ∧ adds x y.1) (λ _, True)).
  { induction l as [|m l IH]; intros a u Hu; [done|]. cbn [for_acc]. apply after_bind.
    eapply after_mono; [apply commit_after| |done]. intros v y (Hv & Hy). apply IH.
    destruct Hu. split; [by eapply kept_trans|by eapply adds_trans]. }
  eapply after_mono; [apply Hloop| |done].
  - split; [by destruct Ht|]. apply (adds_refl x).
  - intros u [y r'] [Hu Hy]. by apply after_ret.
Qed.

Lemma restart_after e p s (Q : State → () → Prop) R : (∀ t, netinfo t = netinfo s → key_gen_state t = key_gen_state s →
    restarted e p t → Q t ()) → after (restart_honey_badger e p) s Q R.
Proof. intros H. unfold restart_honey_badger. by apply H. Qed.

Lemma update_key_gen_after e pub r s : after (update_key_gen (C := C) e pub r) s
  (λ t y, netinfo t = netinfo s ∧ (kept s t ∨ restarted e (honey_badger.params (hb s)) t) ∧ silent y.1) (λ _, True).
Proof.
  unfold update_key_gen. apply after_bind, after_get. destruct (bool_decide _); [apply after_ret; split_and!; [done|by left|done..]|].
  apply after_bind, restart_after. intros t Hni _ Hre. apply after_bind, after_expect. intros th _.
  apply after_bind, after_get, after_bind, after_map_err. unfold of_sum.
  destruct (sync_key_gen.new _ _ _ _ _) as [err|[[kg part] r']]; [done|]. apply after_ret, after_bind, after_modify.
  set (u := t <| key_gen_state := Some (kgs_new kg) |>).
  assert (Hu : netinfo u = netinfo s ∧ restarted e (honey_badger.params (hb s)) u) by done.
  destruct part as [part|]; [|apply after_ret; split_and!; [done|by right|done..]].
  apply after_bind. eapply after_mono; [apply send_transaction_after| |done]. intros v x ([H1 H2 H3] & Hx).
  apply after_ret. split; [by rewrite H1|]. split; [right|done]. unfold restarted. by rewrite H1, H2, H3.
Qed.

Lemma apply_change_after epoch x r s : after (apply_change epoch x r) s
  (λ t y, adds x y.1.1 ∧ changed epoch s t y.2) (λ _, True).
Proof.
  unfold apply_change. apply after_bind.
  apply (after_mono _ _ (λ t _, kept s t) _ (λ _, True)); [| |done].
  { unfold take_ready_key_gen. apply after_bind, after_get. destruct (key_gen_state s) as [kgs|]; [|by apply after_ret].
    destruct (kgs_is_ready kgs); [|by apply after_ret]. by apply after_bind, after_modify, after_ret. }
  intros t [kgs|] [Hni Her Hhb].
  - apply after_bind, after_expect. intros ni _. apply after_bind, after_modify, after_bind, after_get, after_bind.
    apply restart_after. intros u Hu _ Hre. apply after_ret. split; [apply adds_refl|]. cbn. rewrite <- Hhb. exact Hre.
  - apply after_bind, after_get. destruct (votes.compute_winner (vote_counter t)) as [[pub|sch]|].
    + apply after_bind. eapply after_mono; [apply update_key_gen_after| |done]. intros u [x' r'] (Hu & Hk & Ho & Hq).
      apply after_ret. split; [by apply adds_extend|]. cbn. rewrite <- Hhb, Hu. split; [done|].
      destruct Hk as [Hk|Hk]; [left|by right]. by apply (kept_trans s t).
    + apply after_bind. unfold update_encryption_schedule. apply after_bind, after_get, restart_after.
      intros u Hu _ Hre. apply after_ret. split; [apply adds_refl|]. cbn. rewrite <- Hhb, Hu. done.
    + apply after_ret. split; [apply adds_refl|done].
Qed.

(** What [process_batch] does to a state and a step: it appends one batch. *)
Lemma process_batch_after (b : HbBatch) (a : DStep * Rng) s : after (process_batch a b) s
  (λ t y, ∃ y0 ms, output y.1 = output a.1 ++ [y0] ∧ messages y.1 = messages a.1 ++ ms ∧ quiet ms ∧
    batch_era y0 = era s ∧ batch_epoch y0 = u64_add (honey_badger.batch_epoch b) (era s) ∧
    changed (batch_epoch y0) s t (batch_change y0)) (λ _, True).
Proof.
  destruct a as [x r]. unfold process_batch. apply after_bind, after_get, after_bind.
  assert (Hloop : ∀ l (a : DStep * Rng * gmap N C) u, kept s u ∧ adds x a.1.1 →
    after (for_acc (process_contribution (C := C)) a l) u (λ u y, kept s u ∧ adds x y.1.1) (λ _, True)).
  { induction l as [|c l IH]; intros a u Hu; [done|]. cbn [for_acc]. apply after_bind.
    eapply after_mono; [apply contribution_after| |done]. intros v y (Hv & Hy). apply IH.
    destruct Hu. split; [by eapply kept_trans|by eapply adds_trans]. }
  eapply after_mono; [apply Hloop; split; [done|apply (adds_refl x)]| |done].
  intros t [[x1 r1] cs] [[Hni Her Hhb] Hx1]. apply after_bind. eapply after_mono; [apply apply_change_after| |done].
  intros u [[x2 r2] c] (Hx2 & Hc). apply after_bind, after_get, after_ret.
  destruct (adds_trans _ _ _ Hx1 Hx2) as [Ho (ms & Hm & Hq)]. eexists _, ms. cbn in *.
  split_and!; [by rewrite Ho|done..|]. cbn. revert Hc. unfold changed. rewrite <- Hhb, <- Hni.
  destruct c as [|[]|[]]; try done.
  - intros []. split; congruence.
  - intros [? [[]|?]]; (split; [done|]); [left|by right]. split; congruence.
Qed.

(** The errors that a batch can lead to are those of the votes and of the key generation; all but
    those of messages and inputs of Honey Badger. *)
Definition stops (e : Error) : bool :=
  match e with ProposeHoneyBadger _ | HandleHoneyBadgerMessage _ | UnknownSender => false | _ => true end.
Abbreviation fatal := (λ e : Error, stops e = true).
Lemma send_transaction_fails m : fails_with fatal (send_transaction m : M State Error DStep).
Proof. unfold send_transaction. fails_auto. Qed.
#[local] Hint Resolve send_transaction_fails : fails.
Lemma commit_fails id (a : DStep * Rng) m : fails_with fatal (commit_key_gen_message id a m : M State Error (DStep * Rng)).
Proof. unfold commit_key_gen_message, verify_signature, handle_part, handle_ack, on_key_gen. fails_auto. Qed.
#[local] Hint Resolve commit_fails : fails.
Lemma apply_change_fails e x r : fails_with fatal (apply_change (C := C) e x r).
Proof. unfold apply_change, take_ready_key_gen, update_key_gen, update_encryption_schedule, restart_honey_badger. fails_auto. Qed.
#[local] Hint Resolve apply_change_fails : fails.
Lemma contribution_fails (a : DStep * Rng * gmap N C) c : fails_with fatal (process_contribution a c).
Proof.
  unfold process_contribution, on_votes, votes.add_committed_votes, votes.add_committed_vote, votes.validate. fails_auto.
Qed.
#[local] Hint Resolve contribution_fails : fails.
Lemma process_output_fails (o : Step (honey_badger.Message N) HbBatch N honey_badger.FaultKind) r :
  fails_with fatal (process_output (C := C) o r).
Proof. unfold process_output, process_batch. fails_auto. Qed.

(** *** The step so far does not matter *)

(** The same random numbers, and the same outputs after [o1] and [o2] *)
Definition alike (o1 o2 : list (Batch C N)) (y1 y2 : DStep * Rng) : Prop :=
  y1.2 = y2.2 ∧ ∃ l, output y1.1 = o1 ++ l ∧ output y2.1 = o2 ++ l.
Lemma alike_extend o1 o2 (x1 x2 : DStep) r1 r2 x' r' : alike o1 o2 (x1, r1) (x2, r2) →
  alike o1 o2 (step_extend x1 x', r') (step_extend x2 x', r').
Proof. intros [_ (l & H1 & H2)]. split; [done|]. exists (l ++ output x'). cbn in *. by rewrite H1, H2, !app_assoc. Qed.

Lemma commit_beside o1 o2 id m (a1 a2 : DStep * Rng) s : alike o1 o2 a1 a2 →
  beside (commit_key_gen_message id a1 m) (commit_key_gen_message id a2 m) s (λ _, alike o1 o2).
Proof.
  destruct a1 as [x1 r1], a2 as [x2 r2], m as [e j m sg]. intros Ha. pose proof Ha as [Hr Hx]. cbn in Hr. subst r2.
  unfold commit_key_gen_message. apply beside_bind, beside_same. intros s0 s1.
  destruct (negb _); [by apply beside_ret|]. apply beside_bind, beside_same. intros t ok.
  destruct (negb ok); [by apply beside_ret|]. apply beside_bind, beside_same. intros u [x' r'].
  apply beside_ret. by eapply alike_extend.
Qed.

Definition alike_c (o1 o2 : list (Batch C N)) (y1 y2 : DStep * Rng * gmap N C) : Prop :=
  alike o1 o2 y1.1 y2.1 ∧ y1.2 = y2.2.
Lemma contribution_beside o1 o2 c (a1 a2 : DStep * Rng * gmap N C) s : alike_c o1 o2 a1 a2 →
  beside (process_contribution a1 c) (process_contribution a2 c) s (λ _, alike_c o1 o2).
Proof.
  destruct a1 as [[x1 r1] m1], a2 as [[x2 r2] m2], c as [id [con kgm vs]]. intros [Ha Hm]. cbn in Hm. subst m2.
  unfold process_contribution. apply beside_bind, beside_same. intros t fl. apply beside_bind, beside_same. intros u [].
  apply beside_bind. eapply beside_mono.
  { apply (beside_for_acc _ _ (alike o1 o2)); [intros; by apply commit_beside|]. exact Ha. }
  intros v [y1 q1] [y2 q2] Hy. by apply beside_ret.
Qed.

Lemma apply_change_beside o1 o2 e (x1 x2 : DStep) r s : alike o1 o2 (x1, r) (x2, r) →
  beside (apply_change e x1 r) (apply_change e x2 r) s (λ _ y1 y2, alike o1 o2 y1.1 y2.1 ∧ y1.2 = y2.2).
Proof.
  intros Ha. unfold apply_change. apply beside_bind, beside_same. intros t [kgs|].
  - apply beside_bind, beside_same. intros t1 ni. apply beside_bind, beside_same. intros t2 [].
    apply beside_bind, beside_same. intros t3 s3. apply beside_bind, beside_same. intros t4 []. by apply beside_ret.
  - apply beside_bind, beside_same. intros t1 s1. destruct (votes.compute_winner _) as [[pub|sch]|].
    + apply beside_bind, beside_same. intros t2 [x' r']. apply beside_ret. split; [|done]. by eapply alike_extend.
    + apply beside_bind, beside_same. intros t2 []. by apply beside_ret.
    + by apply beside_ret.
Qed.

Lemma process_batch_beside (b : HbBatch) o1 o2 (a1 a2 : DStep * Rng) s : alike o1 o2 a1 a2 →
  beside (process_batch a1 b) (process_batch a2 b) s (λ _, alike o1 o2).
Proof.
  destruct a1 as [x1 r1], a2 as [x2 r2]. intros Ha. pose proof Ha as [Hr _]. cbn in Hr. subst r2. unfold process_batch.
  apply beside_bind, beside_same. intros s0 s1. apply beside_bind. eapply beside_mono.
  { apply (beside_for_acc _ _ (alike_c o1 o2)); [intros; by apply contribution_beside|]. by split. }
  intros t [[y1 q1] m1] [[y2 q2] m2] [Hy Hm]. cbn in Hm. subst m2. pose proof Hy as [Hq _]. cbn in Hq. subst q2.
  apply beside_bind. eapply beside_mono; [by apply apply_change_beside|].
  intros u [[z1 p1] c1] [[z2 p2] c2] [[Hp (l & H1 & H2)] Hc]. cbn in Hp, H1, H2, Hc. subst p2 c2.
  apply beside_bind, beside_same. intros u' s'. apply beside_ret. split; [done|].
  eexists (l ++ [_]). cbn. by rewrite H1, H2, !app_assoc.
Qed.

(** ** The reference run *)
Record ref : Type := mkRef {
  rf_state : State;
  rf_rng : Rng;
  rf_outs : list (Batch C N);
  rf_log : list (u64 * HbBatch);
}.
Definition ref_step (R : ref) (b : HbBatch) : option ref :=
  match process_batch (step_default, rf_rng R) b (rf_state R) with
  | Ok t (x, r') => Some (mkRef t r' (rf_outs R ++ output x) (rf_log R ++ [(era (rf_state R), b)]))
  | _ => None
  end.
(** The batches of an era *)
Definition seg (e : u64) (R : ref) : list HbBatch :=
  omap (λ '(e', b), if decide (e' = e) then Some b else None) (rf_log R).
(** A change with which the network of the validators ends: the validators change, or a
    schedule that makes Honey Badger panic is set. *)
Definition ends (c : ChangeState N) : bool :=
  match c with
  | Complete (NodeChange _) => true
  | Complete (EncryptionSchedule sch) => bool_decide (honey_badger.use_on_epoch sch 0 = None)
  | _ => false
  end.
Definition any_ends (l : list (Batch C N)) : bool := existsb (λ b, ends (batch_change b)) l.
(** The batches up to the one with which it ends *)
Fixpoint in_charge (l : list (Batch C N)) : list (Batch C N) :=
  match l with
  | [] => []
  | b :: l => b :: (if ends (batch_change b) then [] else in_charge l)
  end.

Lemma any_ends_app l l' : any_ends (l ++ l') = any_ends l || any_ends l'.
Proof. apply existsb_app. Qed.
Lemma any_ends_same l l' : Forall2 same_batch l l' → any_ends l = any_ends l'.
Proof. induction 1 as [|b b' l l' Hb _ IH]; [done|]. unfold any_ends in *. cbn. by rewrite IH, (sb_change _ _ Hb). Qed.
Lemma in_charge_prefix l : in_charge l `prefix_of` l.
Proof.
  induction l as [|b l IH]; [done|]. cbn. apply prefix_cons. destruct (ends (batch_change b)); [apply prefix_nil|done].
Qed.
Lemma in_charge_app l l' : any_ends l = true → in_charge (l ++ l') = in_charge l.
Proof.
  induction l as [|b l IH]; [done|]. unfold any_ends. cbn. destruct (ends (batch_change b)); [done|]. intros ?%IH. by f_equal.
Qed.
(** All that a network has output that has not ended *)
Lemma in_charge_all l : any_ends l = false → in_charge l = l.
Proof.
  induction l as [|b l IH]; [done|]. unfold any_ends. cbn. intros [-> ?%IH]%orb_false_iff. by f_equal.
Qed.
Abbreviation ended R := (any_ends (rf_outs R)).

Section follow.
Context (Hkg : ∀ m : KeyGenMessage, is_Some (bin_serialize m)) (Hpoly : ∀ p : Poly, is_Some (bin_serialize p))
  (Hfr : ∀ x : Fr, is_Some (bin_serialize x)).

(** A node with the same public state follows the reference. *)
Lemma batch_follows (b : HbBatch) (a y : DStep * Rng) s t R : same_public s (rf_state R) →
  process_batch a b s = Ok t y → ∃ R' l l', ref_step R b = Some R' ∧ same_public t (rf_state R') ∧
    output y.1 = output a.1 ++ l ∧ rf_outs R' = rf_outs R ++ l' ∧ Forall2 same_batch l l'.
Proof.
  intros Hs Hp. destruct (process_batch_beside b (output a.1) [] a (step_default, a.2) s) with t y as (y0 & Hy0 & _ & l & Hl & Hl0);
    [|done|]; [by split; [|exists []; rewrite app_nil_r]|].
  pose proof (process_batch_same Hkg Hpoly Hfr b s (step_default, a.2) (rf_state R) (step_default, rf_rng R)
    (conj Hs same_output_default)) as Hb. unfold both in Hb. rewrite Hy0 in Hb. unfold ref_step.
  destruct (process_batch (step_default, rf_rng R) b (rf_state R)) as [u [x r']| | |]; [|done..]. destruct Hb as [Hu Ho].
  eexists _, l, (output x). split; [reflexivity|]. split_and!; [done..|]. cbn in *. by rewrite <- Hl0.
Qed.

End follow.

(** ** The shape of the run *)
Section shape.
Context (ni0 : NetworkInfo N) (era0 ep0 : u64) (Hera0 : (0 ≤ era0)%Z) (Hep0 : (0 ≤ ep0)%Z).
Implicit Types (R : ref).
(** The first epoch of an era, and its Honey Badger *)
Definition e_start (e : u64) : u64 := if decide (e = era0) then ep0 else 0%Z.
Definition fresh (ni : NetworkInfo N) (e : u64) (ps : honey_badger.Params) : honey_badger.HoneyBadger N :=
  honey_badger.build (honey_badger.mkBuilder _ _ _ ni e (e_start e) ps).
Abbreviation r_era R := (era (rf_state R)).
Abbreviation r_params R := (honey_badger.params (hb (rf_state R))).
Definition position (e : u64) (n : nat) : Z := (e + e_start e + Z.of_nat n)%Z.

Record ref_ok R : Prop := {
  ro_len : length (rf_outs R) = length (rf_log R);
  ro_position : position (r_era R) (length (seg (r_era R) R)) = position era0 (length (rf_log R));
  ro_era : (era0 ≤ r_era R)%Z;
  ro_log e b : (e, b) ∈ rf_log R → (era0 ≤ e ≤ r_era R)%Z;
  ro_outs n y : rf_outs R !! n = Some y → batch_epoch y = (era0 + ep0 + Z.of_nat n)%Z;
  ro_open : ended R = false → netinfo (rf_state R) = ni0 ∧ hb (rf_state R) = fresh ni0 (r_era R) (r_params R) ∧
    honey_badger.use_on_epoch (honey_badger.encryption_schedule (r_params R)) 0 ≠ None ∧
    (0 ≤ honey_badger.max_future_epochs (r_params R))%Z;
}.

Lemma seg_snoc e R R' e' b : rf_log R' = rf_log R ++ [(e', b)] →
  seg e R' = seg e R ++ (if decide (e' = e) then [b] else []).
Proof. unfold seg. intros ->. rewrite omap_app. cbn. by case_decide. Qed.
Lemma seg_nil e R : ref_ok R → (r_era R < e)%Z → seg e R = [].
Proof.
  intros Hok He. unfold seg. assert (Hl : ∀ e' b, (e', b) ∈ rf_log R → (e' < e)%Z).
  { intros e' b Hin%(ro_log _ Hok). lia. }
  clear Hok. induction (rf_log R) as [|[e' b] l IH]; [done|]. cbn. rewrite decide_False.
  - apply IH. intros e2 b2 ?. apply (Hl e2 b2). by right.
  - specialize (Hl e' b ltac:(by left)). lia.
Qed.

Lemma ref_step_log R b R' : ref_step R b = Some R' → rf_log R' = rf_log R ++ [(r_era R, b)].
Proof. unfold ref_step. destruct (process_batch _ _ _) as [t [x r']| | |]; [|done..]. by intros [= <-]. Qed.

(** One more batch: the era stays, and with it the Honey Badger, or a later one begins. *)
Lemma ref_step_ok R b R' : ref_ok R → ended R = false → ref_step R b = Some R' →
  honey_badger.batch_epoch b = (e_start (r_era R) + Z.of_nat (length (seg (r_era R) R)))%Z →
  (position era0 (S (length (rf_log R))) < 2 ^ 64)%Z →
  ref_ok R' ∧ (r_era R' = r_era R ∧ r_params R' = r_params R ∧ ended R' = false ∨ (r_era R < r_era R')%Z).
Proof.
  intros Hok Hopen Hst Hb Hsmall. pose proof (ref_step_log _ _ _ Hst) as Hlog. unfold ref_step in Hst.
  pose proof (process_batch_after b (step_default, rf_rng R) (rf_state R)) as Ha. unfold after in Ha.
  destruct (process_batch _ _ _) as [t [x r']| | |]; [|done..]. injection Hst as <-. cbn [fst] in Ha.
  destruct Ha as (y & ms & Ho & _ & _ & Hy & Hep & Hc). cbn in Ho, Hlog. rewrite Ho in *. clear Ho.
  pose proof (ro_position _ Hok) as Hpos. pose proof (ro_era _ Hok) as Her. unfold position in *.
  assert (Hst : (0 ≤ e_start (r_era R))%Z) by (unfold e_start; case_decide; lia).
  assert (He0 : e_start era0 = ep0) by (unfold e_start; by rewrite decide_True). rewrite He0 in *.
  assert (Hepoch : batch_epoch y = (era0 + ep0 + Z.of_nat (length (rf_log R)))%Z).
  { rewrite Hep, Hb, u64_add_small; unfold in_u64; lia. }
  assert (Hnext : u64_add (batch_epoch y) 1 = (era0 + ep0 + Z.of_nat (S (length (rf_log R))))%Z).
  { rewrite Hepoch, u64_add_small; unfold in_u64; lia. }
  destruct (ro_open _ Hok Hopen) as (Hni & Hhb & Hus & Hmax).
  set (R' := mkRef t r' (rf_outs R ++ [y]) (rf_log R ++ [(r_era R, b)])).
  assert (Hcases : (kept (rf_state R) t ∧ ends (batch_change y) = false) ∨ ∃ p, restarted (u64_add (batch_epoch y) 1) p t ∧
    (ends (batch_change y) = false → netinfo t = ni0 ∧ honey_badger.use_on_epoch (honey_badger.encryption_schedule p) 0 ≠ None ∧
      (0 ≤ honey_badger.max_future_epochs p)%Z)).
  { unfold changed in Hc. destruct (batch_change y) as [|[pub|sch]|[pub|sch]]; cbn.
    - by left.
    - destruct Hc as [Hn [Hk|Hr]]; [by left|right]. eexists. split; [exact Hr|]. by rewrite Hn.
    - done.
    - right. eexists. by split; [exact Hc|].
    - destruct Hc as [Hn Hr]. right. eexists. split; [exact Hr|]. intros Hus'%bool_decide_eq_false. by rewrite Hn. }
  assert (Hlen : length (rf_outs R') = length (rf_log R')) by (cbn; rewrite !length_app, (ro_len _ Hok); done).
  assert (Houts : ∀ n y', rf_outs R' !! n = Some y' → batch_epoch y' = (era0 + ep0 + Z.of_nat n)%Z).
  { intros n y' [Hl|[Hle Hl]]%lookup_app_Some; [by apply (ro_outs _ Hok)|].
    apply list_lookup_singleton_Some in Hl as [Hl <-]. rewrite Hepoch, <- (ro_len _ Hok). lia. }
  assert (Hlogs : (r_era R ≤ era t)%Z → ∀ e b', (e, b') ∈ rf_log R' → (era0 ≤ e ≤ era t)%Z).
  { intros Hle e b' [Hin%(ro_log _ Hok)|Hin%list_elem_of_singleton]%elem_of_app; [lia|]. injection Hin as -> _. lia. }
  assert (Hended : ended R' = false → ends (batch_change y) = false).
  { cbn. unfold any_ends. rewrite existsb_app. cbn. rewrite orb_false_r. by intros [_ ?]%orb_false_iff. }
  destruct Hcases as [[[Kn Ke Kh] Hno]|(p & [Hre Hrh] & Hop)].
  - split; [|left; split_and!; cbn; [exact Ke|by rewrite Kh|]].
    2: { unfold any_ends in *. rewrite existsb_app, Hopen. cbn. by rewrite Hno. }
    split; cbn [rf_state R']; rewrite ?Ke, ?Kh; try done.
    + unfold position. rewrite He0, (seg_snoc _ R R' _ b eq_refl), decide_True, !length_app by done. cbn. rewrite length_app. cbn. lia.
    + rewrite Ke in Hlogs. by apply Hlogs.
    + intros _. by rewrite Kn.
  - assert (Hlt : (r_era R < era t)%Z) by (rewrite Hre, Hnext; lia).
    split; [|right; exact Hlt]. split; cbn [rf_state R']; try done.
    + unfold position. rewrite He0, (seg_snoc _ R R' _ b eq_refl), decide_False, seg_nil by (done || lia). unfold e_start.
      rewrite decide_False, Hre, Hnext by lia. cbn. rewrite length_app. cbn. lia.
    + lia.
    + apply Hlogs. lia.
    + intros [Hn [Hu Hm]]%Hended%Hop. rewrite Hrh. cbn. split_and!; [done| |done..]. unfold fresh, e_start.
      rewrite decide_False, <- Hre, Hn by lia. done.
Qed.

(** *** Good runs *)
Context (R0 : ref) (HR0 : ref_ok R0) (Hlog0 : rf_log R0 = []).
(** A run on batches whose epochs are those of the Honey Badger of their era, as long as
    nothing has ended the network *)
Inductive good_run : list HbBatch → ref → Prop :=
  | gr_nil : good_run [] R0
  | gr_snoc g R b R' : good_run g R → ended R = false → ref_step R b = Some R' →
      honey_badger.batch_epoch b = (e_start (r_era R) + Z.of_nat (length (seg (r_era R) R)))%Z →
      (position era0 (S (length (rf_log R))) < 2 ^ 64)%Z → good_run (g ++ [b]) R'.

Lemma good_run_ok h R : good_run h R → ref_ok R.
Proof. induction 1; [done|]. by eapply ref_step_ok. Qed.
Lemma good_run_det h R R' : good_run h R → good_run h R' → R = R'.
Proof.
  intros H. revert R'. induction H as [|g R b R1 Hg IH Ho Hst _ _]; intros R' H'; inversion H' as [Hnil|g' R2 b' R3 Hg' Ho' Hst' ? ? Heq]; subst.
  - done.
  - by destruct g'.
  - by destruct g.
  - apply app_inj_tail in Heq as [-> ->]. rewrite (IH _ Hg') in Hst. congruence.
Qed.
Lemma good_run_length h R : good_run h R → length (rf_log R) = length h.
Proof.
  induction 1 as [|g R b R' _ IH _ Hst _ _]; [by rewrite Hlog0|]. by rewrite (ref_step_log _ _ _ Hst), !length_app, IH.
Qed.

(** What is left of a run after a prefix *)
Lemma good_run_app g k R' : good_run (g ++ k) R' → ∃ R, good_run g R ∧ (k = [] → R = R') ∧ (k ≠ [] → ended R = false) ∧
  (r_era R ≤ r_era R')%Z ∧ (r_era R = r_era R' → r_params R' = r_params R) ∧
  (∀ e, seg e R `prefix_of` seg e R') ∧ (∀ e, (e < r_era R)%Z → seg e R' = seg e R).
Proof.
  revert R'. induction k as [|b k IH] using rev_ind; intros R' H.
  - rewrite app_nil_r in H. exists R'. split_and!; try done.
  - rewrite app_assoc in H. inversion H as [Hnil|g' R1 b' R2 Hg' Ho' Hst' ? ? Heq]; subst; [by destruct (g ++ k)|].
    apply app_inj_tail in Heq as [-> ->]. destruct (IH R1 Hg') as (R & Hg & Hk & Hk' & Her & Hps & Hpre & Hseg).
    destruct (ref_step_ok R1 b R') as [_ Hcase]; [by eapply good_run_ok|done..|].
    pose proof (ref_step_log _ _ _ Hst') as Hlog. exists R. split_and!; [done|by destruct k|..].
    + intros _. destruct k; [by rewrite Hk|by apply Hk'].
    + destruct Hcase as [(-> & _)|?]; lia.
    + intros Heq. destruct Hcase as [(He & -> & _)|?]; [apply Hps|]; lia.
    + intros e. rewrite (seg_snoc e R1 R' _ b Hlog). by apply prefix_app_r.
    + intros e He. rewrite (seg_snoc e R1 R' _ b Hlog), decide_False, app_nil_r by lia. by apply Hseg.
Qed.
Lemma good_run_snoc g b R R' : good_run g R → good_run (g ++ [b]) R' →
  ended R = false ∧ ref_step R b = Some R' ∧ ∀ e, seg e R' = seg e R ++ (if decide (r_era R = e) then [b] else []).
Proof.
  intros Hg Hb. inversion Hb as [Hnil|g' R2 b' R3 Hg' Ho Hst _ _ Heq]; subst; [by destruct g|].
  apply app_inj_tail in Heq as [-> ->]. rewrite (good_run_det _ _ _ Hg Hg'). split_and!; [done..|].
  intros e. by apply seg_snoc, ref_step_log.
Qed.
(** The era ends with the network. *)
Lemma good_run_ends g b R R' : good_run g R → good_run (g ++ [b]) R' → ended R' = true → (r_era R < r_era R')%Z.
Proof.
  intros Hg Hb Hend. inversion Hb as [Hnil|g' R2 b' R3 Hg' Ho Hst Hep Hpos Heq]; subst; [by destruct g|].
  apply app_inj_tail in Heq as [-> ->]. rewrite <- (good_run_det _ _ _ Hg Hg') in *.
  destruct (ref_step_ok R b R') as [_ [(_ & _ & ?)|?]]; [by eapply good_run_ok|done..|congruence|done].
Qed.
Lemma good_run_next g b k R R' : good_run g R → good_run (g ++ b :: k) R' →
  seg (r_era R) R ++ [b] `prefix_of` seg (r_era R) R'.
Proof.
  intros Hg H. replace (g ++ b :: k) with ((g ++ [b]) ++ k) in H by by rewrite <- app_assoc.
  destruct (good_run_app (g ++ [b]) k R' H) as (R1 & Hb & _ & _ & _ & _ & Hpre & _).
  destruct (good_run_snoc g b R R1 Hg Hb) as (_ & _ & Hs). etrans; [|apply Hpre]. by rewrite Hs, decide_True.
Qed.

Lemma seg_bound h R e : good_run h R → (era0 ≤ e)%Z →
  (e_start e + Z.of_nat (length (seg e R)) ≤ position era0 (length (rf_log R)))%Z.
Proof.
  intros H He. induction H as [|g R b R' Hg IH Ho Hst _ _].
  - unfold seg, position, e_start. rewrite Hlog0. cbn. rewrite (decide_True (P := era0 = era0)) by done. case_decide; lia.
  - pose proof (ref_step_log _ _ _ Hst) as Hlog. rewrite (seg_snoc _ R R' _ b Hlog), Hlog, !length_app.
    case_decide as Heq; cbn; [|unfold position in *; lia].
    pose proof (ro_position _ (good_run_ok _ _ Hg)) as Hp. pose proof (ro_era _ (good_run_ok _ _ Hg)).
    unfold position in *. subst e. lia.
Qed.
End shape.
End effect.
End dhb_run.
