(* ===== verification/DhbNet.v ===== *)
(** * Dynamic Honey Badger in a network

    What [src/dynamic_honey_badger/mod.rs] promises, for a network ([Net]) of validators that
    run [DynamicHoneyBadger], at most [f] of them faulty, [3 f < N], as long as this set of
    validators is in charge: all correct nodes output the same batches, through any number of
    changes of the encryption schedule and the start of key generations, up to the batch in
    which a change of the validators is complete ([in_charge]).  The nodes run on after that,
    and after errors.  What is excluded is a world in which the processing of a
    batch has failed at a correct node ([sound]): the batches that were left
    are then lost ([DhbAgreement.dhb_agreement.departing_validator_loses_batch]).  In every era the network
    refines a network of Honey Badger nodes ([era_view]), so that [HbNet] applies; a history of
    the batches of all eras ([DhbRun.dhb_run.good_run]) says in which state a node is that
    has processed them. *)
From S2P Require Import Prelude.
From S2P Require Import BTree.
From S2P Require Import Traits.
From S2P Require Import Net.
From S2P Require Import NetworkInfo.
From S2P Require Import Merkle.
From S2P Require Import Broadcast.
From S2P Require Import ThresholdSign.
From S2P Require Import ThresholdDecrypt.
From S2P Require Import BinaryAgreement.
From S2P Require Import BaAgreement.
From S2P Require Import Subset.
From S2P Require Import SubsetNet.
From S2P Require Import HoneyBadger.
From S2P Require Import HbNet.
From S2P Require Import SyncKeyGen.
From S2P Require Import DhbTypes.
From S2P Require Import Votes.
From S2P Require Import DynamicHoneyBadger.
From S2P Require Import DhbAgreement.
From S2P Require Import DhbRun.

Module dhb_net.
Import dhb.
Import dynamic_honey_badger.
Import dhb_agreement.
Import dhb_run.

#[global] Instance dhb_message_eq_dec {N} `{NodeIdT N, PolyLib, !EqDecision SignatureShare,
  !EqDecision NetworkInfo.DecryptionShare} : EqDecision (Message N).
Proof. solve_decision. Defined.

Section net.
Context {C N : Type} `{ord : NodeIdT N} `{crypto : Crypto} `{pl : !PolyLib} `{sha : Sha3}
  `{rse : ReedSolomonLib} `{bo : ByteOrder}
  `{sid : !SessionIdT (subset.BaSessionId honey_badger.EpochId)}
  `{bin_ct : !Bincode Ciphertext} `{bin_vote : !Bincode (votes.Vote N)}
  `{bin_poly : !Bincode Poly} `{bin_fr : !Bincode Fr}
  `{bin_kg : !Bincode KeyGenMessage} `{bin_c : !Bincode (InternalContrib C N)}
  `{rse_laws : !ReedSolomonLaws} `{bo_laws : !ByteOrderLaws} `{sig_laws : !ThresholdSigLaws}
  `{enc_laws : !ThresholdEncLaws} `{share_eq : !EqDecision SignatureShare}
  `{dec_eq : !EqDecision NetworkInfo.DecryptionShare}.
Abbreviation State := (DynamicHoneyBadger N).
Abbreviation DStep := (Step (Message N) (Batch C N) N FaultKind).
Abbreviation HbBatch := (honey_badger.Batch (InternalContrib C N) N).
Abbreviation DM := (M State Error).
Abbreviation HbStep := (Step (honey_badger.Message N) HbBatch N honey_badger.FaultKind).
Abbreviation HbWorld := (Net.world N (honey_badger.HoneyBadger N) (InternalContrib C N * Rng) (honey_badger.Message N) HbBatch).
Abbreviation HbEvent := (Net.event N (InternalContrib C N * Rng) (honey_badger.Message N)).

(** ** The network *)

(** A node of the network with its random numbers; the flag records, for the statements only, that
    the processing of a batch has failed at the node ([stops]), and nothing depends on it. *)
Abbreviation Member := (State * Rng * bool)%type.
Definition member_call (m : M (State * Rng) Error DStep) : M Member Error DStep := λ '(p, failed),
  match m p with
  | Ok p' x => Ok (p', failed) x
  | Err p' e => Err (p', failed || stops e) e
  | Panic => Panic
  | NoFuel => NoFuel
  end.
(** An input comes with the random numbers for it: what calls the algorithm may have used its
    generator in between. *)
Definition input_call (x : Input C N * Rng) : M (State * Rng) Error DStep := λ p, with_rng (handle_input x.1) (p.1, x.2).
Definition dhb_input (x : Input C N * Rng) : M Member Error DStep := member_call (input_call x).
Definition dhb_message (j : N) (msg : Message N) : M Member Error DStep := member_call (with_rng (handle_message j msg)).
Abbreviation DhbWorld := (Net.world N Member (Input C N * Rng) (Message N) (Batch C N)).
Abbreviation DhbEvent := (Net.event N (Input C N * Rng) (Message N)).

(** The keys of the validators and of the nodes, the first era and epoch, and the parameters *)
Context (pubs : gmap N PublicKey) (correct : gset N) (pks : PublicKeySet) (nis : N → NetworkInfo N).
Context (era0 ep0 : u64) (ps0 : honey_badger.Params).
Implicit Types (w : DhbWorld) (hw : HbWorld) (i j k p : N) (e : u64) (s t : State) (ps : honey_badger.Params)
  (ev : DhbEvent) (hev : HbEvent).
Definition dhb_initial w : Prop := w_sent w = [] ∧ ∀ i, i ∈ correct →
  w_input w i = [] ∧ w_out w i = [] ∧
  ∃ r, w_node w i = (build (nis i) (mkBuilder era0 ep0 ps0), r, false).
Abbreviation leads w := (Net.reachable dhb_input dhb_message (λ _, true) correct (.= w)).
Abbreviation reachable := (Net.reachable dhb_input dhb_message (λ _, true) correct dhb_initial).
Abbreviation allowed := (Net.allowed (I := Input C N * Rng) (λ _, true) correct).
Abbreviation dexec := (Net.exec dhb_input dhb_message).

(** ** The network of an era *)
Abbreviation hb_reach e ps := (Net.reachable (hb_net.hb_input (C := InternalContrib C N)) honey_badger.handle_message (λ _, true) correct
  (hb_net.hb_initial pubs correct pks e (e_start era0 ep0 e) (honey_badger.encryption_schedule ps))).
Abbreviation hb_allowed := (Net.allowed (I := InternalContrib C N * Rng) (λ _, true) correct).
Abbreviation hb_exec := (Net.exec (hb_net.hb_input (C := InternalContrib C N)) honey_badger.handle_message).
Abbreviation node w i := ((w_node w i).1.1).
(** The node has output the batch with which the validators' network ends. *)
Abbreviation gone w i := (any_ends (w_out w i).*1).
(** No correct node has failed to process a batch. *)
Definition sound w : Prop := ∀ i, i ∈ correct → (w_node w i).2 = false.

Record era_view e ps w hw : Prop := {
  ev_reach : hb_reach e ps hw;
  ev_sent i (tg : Target N) m : (i, TM tg m) ∈ w_sent hw ↔ (i, TM tg (HoneyBadger e m)) ∈ w_sent w;
  ev_node i : i ∈ correct → gone w i = false → era (node w i) = e → w_node hw i = hb (node w i);
}.
(** What an event is in the network of the node's era: what [propose] proposes, or the
    message *)
Definition own_contrib (c : C) s : InternalContrib C N := mkContrib _ _ _ _ _ c
  (filter (λ kg_msg, skgm_era kg_msg = era s) (key_gen_msg_buffer s)) (votes.pending_votes (vote_counter s)).
Definition era_event w ev : option HbEvent :=
  match ev with
  | Net.Input i (User c, r) => Some (Net.Input i (own_contrib c (node w i), r))
  | Net.Deliver i j (HoneyBadger e m) => if decide (e = era (node w i)) then Some (Net.Deliver i j m) else None
  | _ => None
  end.
Definition dev_node ev : N := match ev with Net.Input i _ => i | Net.Deliver i _ _ => i end.

(** What is excluded: epoch numbers that wrap around, the last epoch of an agreement, and shards
    that collide in the network of the era in which a node has handled an event. *)
Definition in_range (b : Batch C N) : Prop := (batch_era b ≤ batch_epoch b)%Z ∧ (batch_epoch b + 1 < 2 ^ 64)%Z.
Definition overflown w : Prop := ∃ i, i ∈ correct ∧
  ((2 ^ 64 ≤ position era0 ep0 era0 (length (w_out w i)))%Z ∨ ∃ b, b ∈ (w_out w i).*1 ∧ ¬ in_range b).
Definition epochs_left w : Prop := ∀ e k (tg : Target N) c p e', k ∈ correct → (k, TM tg (HoneyBadger e (honey_badger.with_epoch
  (honey_badger.Subset (subset.with_proposer (subset.Agreement (binary_agreement.with_epoch c u64_max)) p)) e'))) ∉ w_sent w.
Definition collided w : Prop := ∃ w1 ev w2 hw hev hw' ps e i j,
  reachable w1 ∧ allowed w1 ev = true ∧ dexec w1 ev = Some w2 ∧ leads w2 w ∧
  era_view (era (node w1 (dev_node ev))) ps w1 hw ∧ era_event w1 ev = Some hev ∧ hb_exec hw hev = Some hw' ∧
  hb_net.shards_collide pubs correct pks (era (node w1 (dev_node ev))) (e_start era0 ep0 (era (node w1 (dev_node ev))))
    (honey_badger.encryption_schedule ps) e hw' i j.

(** ** A call of one node *)

(** A call that concerns neither the batches nor Honey Badger *)
Definition calm s t : Prop := kept s t ∧ ∀ t0, same_public s t0 → same_public t t0.
Definition hb_call hev : M (honey_badger.HoneyBadger N) honey_badger.Error HbStep :=
  match hev with Net.Input _ x => hb_net.hb_input x | Net.Deliver _ j m => honey_badger.handle_message j m end.

Inductive did s (o : option HbEvent) : outcome (State * Rng) Error DStep → Prop :=
  | did_calm t r (x : DStep) : calm s t → output x = [] → quiet (messages x) → did s o (Ok (t, r) x)
  | did_fail t r err : calm s t → did s o (Err (t, r) err)
  | did_stop (q : State * Rng) err : stops err = true → did s o (Err q err)
  | did_hb_fail hev h err err' r : o = Some hev → hb_call hev (hb s) = Err h err → did s o (Err (s <| hb := h |>, r) err')
  | did_hb hev h (hs : HbStep) r r' t (x : DStep) : o = Some hev → hb_call hev (hb s) = Ok h hs →
      process_output hs r (s <| hb := h |>) = Ok t (x, r') → did s o (Ok (t, r') x)
  | did_panic : did s o Panic
  | did_loop : did s o NoFuel.

Lemma calm_refl s : calm s s.
Proof. by split. Qed.
Lemma calm_buffer s b : calm s (s <| key_gen_msg_buffer := b |>).
Proof. split; [done|]. by intros t0 []. Qed.

Lemma did_process_output hev s (o : HbStep) h r r2 : hb_call hev (hb s) = Ok h o →
  did s (Some hev) (match process_output o r (s <| hb := h |>) with
    | Ok t (x, r') => Ok (t, r') x | Err t err => Err (t, r2) err | Panic => Panic | NoFuel => NoFuel end).
Proof.
  intros Hh. pose proof (process_output_fails (C := C) o r (s <| hb := h |>)) as Hf.
  destruct (process_output o r _) as [t [x r']|t err| |] eqn:Ho; [by eapply did_hb|by eapply did_stop, Hf|constructor..].
Qed.

Lemma propose_did i c s r : did s (Some (Net.Input i (own_contrib c s, r))) (with_rng (propose c) (s, r)).
Proof.
  unfold with_rng, propose, mbind, M_bind, get, on_hb, zoom, map_err. fold (own_contrib c s).
  set (hev := Net.Input i (own_contrib c s, r)).
  assert (Hcall : hb_call hev (hb s) = match honey_badger.propose (own_contrib c s) r (hb s) with
    | Ok h (o, _) => Ok h o | Err h err => Err h err | Panic => Panic | NoFuel => NoFuel end).
  { cbn. unfold hb_net.hb_input, mbind, M_bind. cbn. by destruct (honey_badger.propose _ _ _) as [? []| | |]. }
  destruct (honey_badger.propose (own_contrib c s) r (hb s)) as [h [o r']|h err| |]; [|by eapply did_hb_fail|constructor..].
  by apply did_process_output.
Qed.

Lemma votes_calm {A} (m : M (votes.VoteCounter N) Error A) s :
  (∀ v v0, votes.same_view v v0 → after m v (λ v' _, votes.same_view v' v0) (λ v', votes.same_view v' v0)) →
  after (on_votes m) s (λ t _, calm s t) (λ t, calm s t).
Proof.
  intros Hm. unfold on_votes. apply after_zoom. unfold after in *. pose proof (Hm (vote_counter s)) as Hv.
  assert (Hc : ∀ v', (∀ v0, votes.same_view (vote_counter s) v0 → votes.same_view v' v0) → calm s (s <| vote_counter := v' |>)).
  { intros v' H. split; [done|]. intros t0 []. split; try done. by apply H. }
  destruct (m (vote_counter s)); [apply Hc, Hv|apply Hc, Hv|done..].
Qed.

Lemma vote_for_did c s r : did s None (with_rng (λ r, step ← vote_for c; mret (step, r)) (s, r)).
Proof.
  assert (Ha : after (vote_for (C := C) c) s (λ t x, calm s t ∧ output x = [] ∧ quiet (messages x)) (λ t, calm s t)).
  { unfold vote_for. apply after_bind, after_get. destruct (negb _); [by apply after_ret|]. apply after_bind.
    eapply after_mono; [apply votes_calm| |done].
    - intros v v0 Hv. unfold votes.sign_vote_for. apply after_bind, after_get, after_bind. unfold ok_or.
      destruct (bin_serialize _); [|done]. by apply after_ret, after_bind, after_modify, after_ret.
    - intros t sv Ht. by apply after_ret. }
  unfold with_rng, mbind, M_bind. unfold after in Ha. destruct (vote_for c s) as [t x|t err| |]; [|by apply did_fail|constructor..].
  destruct Ha as (? & ? & ?). by apply did_calm.
Qed.

Lemma input_did i x w : did (node w i) (era_event w (Net.Input i x)) (input_call x (w_node w i).1).
Proof.
  destruct x as [[c|ch] r]; [apply propose_did|apply vote_for_did].
Qed.

Lemma faults_did o (m : DM (FaultLog N FaultKind)) s r : after m s (λ t _, calm s t) (λ t, calm s t) →
  did s o (with_rng (λ r, fl ← m; mret (step_from_faults fl, r)) (s, r)).
Proof.
  unfold with_rng, mbind, M_bind, after. destruct (m s) as [t fl|t err| |]; intros Ht; [by apply did_calm|by apply did_fail|constructor..].
Qed.

Lemma key_gen_calm j m sg s : after (handle_key_gen_message j m sg) s (λ t _, calm s t) (λ t, calm s t).
Proof.
  unfold handle_key_gen_message. apply after_bind. unfold verify_signature. apply after_bind. unfold ok_or.
  destruct (bin_serialize m); [|done]. apply after_ret, after_bind, after_get, after_ret.
  destruct (negb _); [by apply after_ret|]. apply after_bind, after_get.
  destruct (key_gen_state s) as [kgs|] eqn:Hk; [|by apply after_ret]. cbn. apply after_bind, after_modify.
  set (s1 := s <| key_gen_state := _ |>).
  assert (H1 : calm s s1).
  { split; [done|]. intros t0 []. split; try done. cbn. unfold same_kg in *. by rewrite Hk in *. }
  case_bool_decide; [by apply after_ret|]. apply after_bind, after_modify, after_ret. split; [by destruct H1|].
  intros t0 Ht0. destruct (calm_buffer s1 (key_gen_msg_buffer s1 ++ [mkSkgm _ _ _ _ (era s) j m sg])) as [_ Hb].
  by apply Hb, H1.
Qed.

Lemma hb_message_did i j m s r : did s (Some (Net.Deliver i j m))
  (with_rng (handle_honey_badger_message (C := C) j m) (s, r)).
Proof.
  unfold with_rng, handle_honey_badger_message, mbind, M_bind, get. destruct (negb _); [by apply did_fail, calm_refl|].
  unfold on_hb, zoom, map_err. pose proof (did_process_output (Net.Deliver i j m) s) as Hd. cbn [hb_call] in Hd.
  destruct (honey_badger.handle_message j m (hb s)) as [h o|h err| |] eqn:Hm; [|by eapply did_hb_fail|constructor..].
  by apply Hd.
Qed.

Lemma message_did i j msg w :
  did (node w i) (era_event w (Net.Deliver i j msg)) (with_rng (handle_message j msg) (w_node w i).1).
Proof.
  unfold era_event. destruct (w_node w i).1 as [s r]. cbn [fst]. assert (Heq : ∀ (body : State → Rng → DM (DStep * Rng)), with_rng (λ rng, s ← get; body s rng) (s, r) =
    with_rng (body s) (s, r)) by done.
  unfold handle_message. rewrite (Heq (λ s rng, if bool_decide (msg_era msg = era s) then _ else _)).
  case_bool_decide as He.
  - destruct msg as [e m|e m sg|sv]; cbn in He; cbn.
    + rewrite decide_True by done. apply hb_message_did.
    + apply faults_did, key_gen_calm.
    + apply faults_did, votes_calm. intros v v0 Hv. unfold votes.add_pending_vote. apply after_bind, after_get.
      destruct (_ || _); [by apply after_ret|]. apply after_bind. unfold votes.validate. apply after_bind, after_get, after_bind.
      unfold ok_or. destruct (bin_serialize _); [|done]. apply after_ret, after_ret. destruct (negb _); [by apply after_ret|].
      by apply after_bind, after_modify, after_ret.
  - case_bool_decide; apply did_calm; try done; apply calm_refl.
Qed.

(** What an event does to the network *)
Definition member_did w i (o : option HbEvent) (q : Member) (y : DStep) : Prop :=
  ∃ res, did (node w i) o res ∧ match res with
    | Ok q' x => q = (q', (w_node w i).2) ∧ y = x
    | Err q' err => q = (q', (w_node w i).2 || stops err) ∧ y = step_default
    | _ => False
    end.

Lemma exec_did w w' ev : allowed w ev = true → dexec w ev = Some w' → dev_node ev ∈ correct ∧
  ∃ ins q y, acts w w' (dev_node ev) ins q y ∧ member_did w (dev_node ev) (era_event w ev) q y.
Proof.
  intros Ha He. set (i := dev_node ev).
  assert (Hm : ∃ m ins, i ∈ correct ∧ dexec w ev = commit w i ins (member_call m (w_node w i)) ∧
    did (node w i) (era_event w ev) (m (w_node w i).1)).
  { destruct ev as [k x|k j msg].
    - exists (input_call x), [x]. apply allowed_input in Ha. split_and!; [done..|]. apply input_did.
    - exists (with_rng (handle_message j msg)), []. apply allowed_deliver_iff in Ha as (? & _). split_and!; [done..|]. apply message_did. }
  destruct Hm as (m & ins & Hi & Hex & Hd). split; [done|]. rewrite Hex in He. apply commit_acts in He.
  unfold member_did. destruct (w_node w i) as [q0 g] eqn:Hw. cbn [fst snd] in *. unfold member_call in He.
  destruct (m q0) as [q x|q err| |]; [| |done..].
  - eexists _, _, _. split; [exact He|]. by eexists.
  - eexists _, _, _. split; [exact He|]. by eexists.
Qed.

(** Honey Badger keeps its parameters. *)
Lemma batches_params fuel (x : HbStep) (h : honey_badger.HoneyBadger N) :
  after (honey_badger.try_output_batches_fuel fuel x) h (λ h' _, honey_badger.params h' = honey_badger.params h)
    (λ h', honey_badger.params h' = honey_badger.params h).
Proof.
  revert x h. induction fuel as [|fuel IH]; intros x h; cbn [honey_badger.try_output_batches_fuel]; apply after_bind, after_get;
    destruct (_ ≫= _) as [[b fl]|]; try by apply after_ret.
  - done.
  - apply after_bind. unfold honey_badger.update_epoch. do 2 apply after_bind, after_modify. apply after_modify.
    eapply after_mono; [apply IH|done..].
Qed.
Lemma epoch_params {A} e (m : M (honey_badger.EpochState N) honey_badger.Error A) (h : honey_badger.HoneyBadger N) :
  after (honey_badger.on_epoch e m) h (λ h' _, honey_badger.params h' = honey_badger.params h)
    (λ h', honey_badger.params h' = honey_badger.params h).
Proof.
  unfold honey_badger.on_epoch. apply after_bind, after_get, after_bind.
  assert (Hz : ∀ es, after (zoom (λ _ : honey_badger.HoneyBadger N, es) (λ es (h2 : honey_badger.HoneyBadger N), h2 <| honey_badger.epochs ::= <[e := es]> |>) m) h
    (λ h' _, honey_badger.params h' = honey_badger.params h) (λ h', honey_badger.params h' = honey_badger.params h)).
  { intros es. unfold after, zoom. by destruct (m es). }
  destruct (honey_badger.epochs h !! e); [by apply after_ret|]. apply after_bind, after_expect. intros b _.
  unfold of_sum. destruct (honey_badger.epoch_state_new _ _ _ _ _); [done|apply after_ret, Hz].
Qed.
Lemma hb_call_params hev (h : honey_badger.HoneyBadger N) :
  after (hb_call hev) h (λ h' _, honey_badger.params h' = honey_badger.params h) (λ h', honey_badger.params h' = honey_badger.params h).
Proof.
  destruct hev as [i x|i j [e m]]; cbn.
  - unfold hb_net.hb_input, honey_badger.propose. apply after_bind, after_bind, after_get.
    destruct (negb _); [by do 2 apply after_ret|]. apply after_bind, after_modify, after_bind.
    eapply after_mono; [apply epoch_params| |done]. intros h1 [o r] Ht. apply after_bind.
    eapply after_mono; [apply batches_params| |]; [|intros ? ->; exact Ht]. intros h2 o2 Hu. do 2 apply after_ret. rewrite Hu. exact Ht.
  - unfold honey_badger.handle_message. apply after_bind, after_get. destruct (negb _); [done|].
    destruct (_ : bool); [by apply after_ret|]. destruct (_ : bool); [by apply after_ret|]. apply after_bind.
    eapply after_mono; [apply epoch_params| |done]. intros h1 o Ht. apply after_bind.
    eapply after_mono; [apply batches_params| |]; [|intros ? ->; exact Ht]. intros h2 o2 Hu. apply after_ret. rewrite Hu. exact Ht.
Qed.

(** The messages of Honey Badger in those of a step *)
Lemma hb_part_elem e (tg : Target N) m (ms : list (TargetedMessage (Message N) N)) :
  TM tg m ∈ omap (hb_part e) ms ↔ TM tg (HoneyBadger e m) ∈ ms.
Proof.
  rewrite list_elem_of_omap. split.
  - intros ([t' [e' m'| |]] & Hin & Hc); unfold hb_part in Hc; cbn in Hc; [|done..]. case_decide; [|done]. by simplify_eq.
  - intros Hin. exists (TM tg (HoneyBadger e m)). split; [done|]. unfold hb_part. cbn. by rewrite decide_True.
Qed.
Lemma hb_part_map e e' (ms : list (TargetedMessage (honey_badger.Message N) N)) :
  omap (hb_part e) (tm_map (HoneyBadger e') <$> ms) = if decide (e' = e) then ms else [].
Proof.
  induction ms as [|[tg m] ms IH]; [by case_decide|]. rewrite fmap_cons.
  assert (Hc : ∀ (x : TargetedMessage (Message N) N) l, omap (hb_part e) (x :: l) = match hb_part e x with
    | Some z => z :: omap (hb_part e) l | None => omap (hb_part e) l end) by done.
  rewrite Hc, IH. unfold hb_part. cbn. by case_decide.
Qed.
Lemma process_output_after (o : HbStep) r s : after (process_output o r) s
  (λ _ y, length (output y.1) = length (output o) ∧
    ∀ e, omap (hb_part e) (messages y.1) = if decide (era s = e) then messages o else []) (λ _, True).
Proof.
  unfold process_output. apply after_bind, after_get. cbn [extend_with].
  set (a0 := (_, r)). assert (Hloop : ∀ l (a : DStep * Rng) t, after (for_acc process_batch a l) t
    (λ _ y, length (output y.1) = length (output a.1) + length l ∧ ∀ e, omap (hb_part e) (messages y.1) = omap (hb_part e) (messages a.1)) (λ _, True)).
  { induction l as [|b l IH]; intros a t; cbn [for_acc]; [apply after_ret; cbn; by rewrite Nat.add_0_r|].
    apply after_bind. eapply after_mono; [apply process_batch_after| |done].
    intros u z (y0 & ms & Ho & Hm & Hq & _). eapply after_mono; [apply IH| |done]. intros v z' [Hl Hms].
    split; [rewrite Hl, Ho, length_app; cbn; lia|]. intros e. by rewrite Hms, Hm, omap_app, Hq, app_nil_r. }
  eapply after_mono; [apply Hloop| |done]. intros t y [Hl Hm]. split; [done|]. intros e. rewrite Hm. apply hb_part_map.
Qed.

(** The era does not go down, if the epoch numbers of the batches do not wrap around. *)
Lemma process_output_era (o : HbStep) r s : (0 ≤ era s)%Z → after (process_output o r) s
  (λ t y, (∀ b, b ∈ output y.1 → in_range b) → (era s ≤ era t)%Z) (λ _, True).
Proof.
  intros Hs. unfold process_output. apply after_bind, after_get. cbn [extend_with].
  assert (Hloop : ∀ l (a : DStep * Rng) t, (0 ≤ era t)%Z → after (for_acc process_batch a l) t
    (λ u y, output a.1 ⊆ output y.1 ∧ ((∀ b, b ∈ output y.1 → in_range b) → (era t ≤ era u)%Z)) (λ _, True)).
  { induction l as [|b l IH]; intros a t Ht; cbn [for_acc]; [by apply after_ret|].
    apply after_bind. eapply after_mono; [apply process_batch_after| |done].
    intros u z (y0 & ms & Ho & _ & _ & Hera & _ & Hc).
    assert (He : era u = era t ∨ era u = u64_add (batch_epoch y0) 1).
    { unfold changed in Hc. destruct (batch_change y0) as [|[]|[]]; [left; apply Hc| |done|right; apply Hc..].
      destruct Hc as [_ [Hk|Hr]]; [left; apply Hk|right; apply Hr]. }
    assert (Hstep : in_range y0 → (era t ≤ era u)%Z).
    { intros [H1 H2]. destruct He as [->| ->]; [done|]. rewrite u64_add_small; unfold in_u64; lia. }
    assert (Hu : (0 ≤ era u)%Z).
    { destruct He as [->| ->]; [done|]. unfold u64_add, wrap64. by apply Z.mod_pos_bound. }
    eapply after_mono; [by apply IH| |done]. intros v y [Hsub Hle].
    rewrite Ho in Hsub. split; [intros x Hx; apply Hsub, elem_of_app; by left|]. intros Hall.
    assert (in_range y0) by (apply Hall, Hsub, elem_of_app; right; by left). etrans; [by apply Hstep|by apply Hle]. }
  eapply after_mono; [by apply Hloop| |done]. by intros t y [_ ?].
Qed.

#[global] Instance same_batch_symmetric : Symmetric (same_batch (C := C) (N := N)).
Proof. intros b b' [? ? ? ? [] ?]. split; try done. Qed.
#[global] Instance same_batch_transitive : Transitive (same_batch (C := C) (N := N)).
Proof. intros b1 b2 b3 [? ? ? ? [] ?] [? ? ? ? [] ?]. split; try congruence. split; congruence. Qed.

(** ** The invariant *)
Section invariant.
Context (Hcorrect : correct ⊆ dom pubs) (Hbyz : size (dom pubs ∖ correct) ≤ (size pubs - 1) / 3).
Context (Hser : ∀ (id : subset.BaSessionId honey_badger.EpochId) e, is_Some (serialize_coin_id id e)).
Context (Hkg : ∀ m : KeyGenMessage, is_Some (bin_serialize m)) (Hpoly : ∀ p : Poly, is_Some (bin_serialize p))
  (Hfr : ∀ x : Fr, is_Some (bin_serialize x)).
Context (Hera0 : (0 ≤ era0)%Z) (Hep0 : (0 ≤ ep0)%Z) (Hmax : (0 ≤ honey_badger.max_future_epochs ps0)%Z).
Context (Hnis : ∀ i e, i ∈ correct → hb_net.keys_ok pubs pks e i (nis i)).
Section usable.
Context (Husable : honey_badger.use_on_epoch (honey_badger.encryption_schedule ps0) 0 ≠ None).
Section run.
(** The node whose run the others are compared with *)
Context (i0 : N) (Hi0 : i0 ∈ correct) (r0 : Rng).
Definition run0 : ref (C := C) (N := N) := mkRef (build (nis i0) (mkBuilder era0 ep0 ps0)) r0 [] [].
Abbreviation good_run := (good_run era0 ep0 run0).
Abbreviation ref_ok := (ref_ok (C := C) (nis i0) era0 ep0).
Abbreviation r_era R := (era (rf_state R)).
Abbreviation r_params R := (honey_badger.params (hb (rf_state R))).
Abbreviation ended R := (any_ends (rf_outs R)).
Implicit Types (R : ref (C := C) (N := N)) (hist : N → list HbBatch).

Lemma same_keys_correct i : i ∈ correct → same_keys (nis i) (nis i0).
Proof.
  intros Hi. pose proof (Hnis i 0%Z Hi) as H1. pose proof (Hnis i0 0%Z Hi0) as H2.
  split; [apply H1|apply H2|by rewrite (hb_net.k_pubs _ _ _ _ _ H1), (hb_net.k_pubs _ _ _ _ _ H2)|
    by rewrite (hb_net.k_pks _ _ _ _ _ H1), (hb_net.k_pks _ _ _ _ _ H2)].
Qed.
Lemma run0_ok : ref_ok run0.
Proof.
  split; cbn; try done; try lia.
  - intros e b ?%elem_of_nil. done.
  - intros _. split_and!; [done| |done|done]. unfold fresh, e_start. by rewrite decide_True.
Qed.
Lemma run_ok h R : good_run h R → ref_ok R.
Proof. apply good_run_ok; [done..|apply run0_ok]. Qed.

(** *** The histories and the networks of the eras *)
Definition comparable (g h : list HbBatch) : Prop := g `prefix_of` h ∨ h `prefix_of` g.
Lemma comparable_sym g h : comparable g h → comparable h g.
Proof. intros [?|?]; [by right|by left]. Qed.
Lemma comparable_prefix g h h' : g `prefix_of` h → comparable h h' → comparable g h'.
Proof.
  intros Hg [Hh|Hk]; [left; by etrans|]. destruct (prefix_weak_total g h' h Hg Hk); [by left|by right].
Qed.
Lemma comparable_long g h : comparable g h → length g ≤ length h → g `prefix_of` h.
Proof. intros [?|[k ->]]; [done|]. rewrite length_app. destruct k; [by rewrite app_nil_r|cbn; lia]. Qed.
(** What the runs on comparable histories have in common *)
Lemma run_prefix g h Rg Rh : g `prefix_of` h → good_run g Rg → good_run h Rh → (g = h → Rg = Rh) ∧ (g ≠ h → ended Rg = false) ∧
  (r_era Rg ≤ r_era Rh)%Z ∧ (r_era Rg = r_era Rh → r_params Rg = r_params Rh).
Proof.
  intros [k ->] Hg Hh. destruct (good_run_app _ _ _ Hera0 Hep0 _ run0_ok _ _ _ Hh) as (R & HR & _ & Hopen & Hle & Hps & _).
  assert (R = Rg) as -> by (by eapply good_run_det). split_and!; [|intros Hne; apply Hopen; intros ->; by rewrite app_nil_r in Hne|done|].
  - intros Heq. rewrite <- Heq in Hh. by eapply good_run_det.
  - intros ?%Hps. done.
Qed.
Lemma era_params g h Rg Rh : comparable g h → good_run g Rg → good_run h Rh → r_era Rg = r_era Rh → r_params Rg = r_params Rh.
Proof.
  intros [Hp|Hp] Hg Hh He; [by apply (run_prefix g h)|]. symmetry. by apply (run_prefix h g).
Qed.
Lemma all_or (P : N → Prop) (Q : Prop) : (∀ k, k ∈ correct → P k ∨ Q) → (∀ k, k ∈ correct → P k) ∨ Q.
Proof.
  generalize correct. intros X. induction X as [|x X Hx IH] using set_ind_L; intros H; [left; by intros k ?%elem_of_empty|].
  destruct (H x) as [Hp|?]; [set_solver| |by right]. destruct IH as [Hall|?]; [by intros k Hk; apply H, elem_of_union_r| |by right].
  left. by intros k [->%elem_of_singleton|?%Hall]%elem_of_union.
Qed.
(** Who has not ended is in an earlier era than who has. *)
Lemma ended_later g h Rg Rh : comparable g h → good_run g Rg → good_run h Rh → ended Rg = false → ended Rh = true →
  (r_era Rg < r_era Rh)%Z.
Proof.
  intros [[k ->]|[k ->]] Hg Hh Ho He.
  - destruct k as [|b k _] using rev_ind.
    { rewrite app_nil_r in Hh. rewrite (good_run_det _ _ _ _ _ _ Hg Hh) in Ho. congruence. }
    rewrite app_assoc in Hh. destruct (good_run_app _ _ _ Hera0 Hep0 _ run0_ok _ _ _ Hh) as (R1 & H1 & _).
    pose proof (good_run_ends _ _ _ Hera0 Hep0 _ run0_ok _ _ _ _ H1 Hh He) as Hlt.
    destruct (run_prefix g (g ++ k) Rg R1) as (_ & _ & Hle & _); [by apply prefix_app_r|done..|lia].
  - destruct k as [|b k]; [rewrite app_nil_r in Hg; rewrite (good_run_det _ _ _ _ _ _ Hg Hh) in Ho; congruence|].
    destruct (run_prefix h (h ++ b :: k) Rh Rg) as (_ & Hop & _); [by apply prefix_app_r|done..|].
    rewrite Hop in He; [done|]. intros Hx%(f_equal length). rewrite length_app in Hx. cbn in Hx. lia.
Qed.
(** The node has processed the batches of its history, and is where the reference is, until the
    network has ended; then it may have output more. *)
Record node_ok w hist i R : Prop := {
  no_run : good_run (hist i) R;
  no_out : ∃ own rest, (w_out w i).*1 = own ++ rest ∧ Forall2 same_batch own (rf_outs R) ∧ (rest = [] ∨ ended R = true);
  no_live : ended R = false → same_public (node w i) (rf_state R) ∧ netinfo (node w i) = nis i;
  no_past : ended R = true → (r_era R ≤ era (node w i))%Z;
}.
(** The network of an era has output the batches of this era in the histories; a node that has
    not reached the era is at its start, and one that is past it has no proposal in its last epoch. *)
Record dview e ps w hist hw : Prop := {
  dv_view : era_view e ps w hw;
  dv_rest i R : i ∈ correct → good_run (hist i) R → (w_out hw i).*1 = seg e R ∧
    ((r_era R < e)%Z → w_node hw i = fresh era0 ep0 (nis i) e ps) ∧
    ((e < r_era R)%Z → honey_badger.has_input_flag (w_node hw i) = false);
}.
Record good w hist : Prop := {
  g_node i : i ∈ correct → ∃ R, node_ok w hist i R;
  g_comp i j : i ∈ correct → j ∈ correct → comparable (hist i) (hist j);
  g_view i g R : i ∈ correct → g `prefix_of` hist i → good_run g R → ended R = false →
    ∃ hw, dview (r_era R) (r_params R) w hist hw;
  g_sent k (tg : Target N) e m : (k, TM tg (HoneyBadger e m)) ∈ w_sent w → k ∈ correct ∧
    ((∃ g R, g `prefix_of` hist k ∧ good_run g R ∧ r_era R = e) ∨
     ∃ R, good_run (hist k) R ∧ ended R = true ∧ (r_era R ≤ e)%Z);
}.

(** *** An event of Honey Badger *)
Section event.
Context w hist i R hw hev hw' (bs : list HbBatch) (h' : honey_badger.HoneyBadger N).
Abbreviation E := (r_era R).
Abbreviation ps := (r_params R).
Abbreviation sched := (honey_badger.encryption_schedule ps).
Abbreviation e1 := (e_start era0 ep0 E).
Context (Hi : i ∈ correct) (Hruns : ∀ k, k ∈ correct → ∃ Rk, good_run (hist k) Rk).
Context (HR : good_run (hist i) R) (Hopen : ended R = false).
Context (Hview : dview E ps w hist hw) (Hall : hb_allowed hw hev = true) (Hev : hb_net.ev_node hev = i).
Context (Hex : hb_exec hw hev = Some hw') (Hbs : (w_out hw' i).*1 = seg E R ++ bs) (Hh' : w_node hw' i = h').
Context (Hleft : hb_net.epochs_left correct hw') (Hnov : ¬ hb_net.overflown correct e1 hw').
Definition colliding : Prop := ∃ e k j, hb_net.shards_collide pubs correct pks E e1 sched e hw' k j.
Context (Hsmall : (position era0 ep0 era0 (length (hist i) + length bs) < 2 ^ 64)%Z).

Lemma e1_bounds : (0 ≤ e1)%Z ∧ (e1 < 2 ^ 64)%Z.
Proof. unfold position, e_start in Hsmall. unfold e_start. rewrite (decide_True (P := era0 = era0)) in Hsmall by done. case_decide; lia. Qed.
Lemma sched_usable e : is_Some (honey_badger.use_on_epoch sched e).
Proof. apply hb_net.usable_any. by apply (ro_open _ _ _ _ (run_ok _ _ HR)). Qed.
Lemma hw'_reach : hb_reach E ps hw'.
Proof. eapply reach_step; [apply (ev_reach _ _ _ _ (dv_view _ _ _ _ _ Hview))|done|done]. Qed.
Lemma others k : k ≠ i → w_node hw' k = w_node hw k ∧ (w_out hw' k).*1 = (w_out hw k).*1.
Proof.
  intros Hk. rewrite <- Hev in Hk. destruct hev as [j x|j j' m]; cbn in Hk; apply commit_acts in Hex;
  match type of Hex with match ?o with _ => _ end => destruct o end; try done;
  by rewrite (a_node_ne _ _ _ _ _ _ Hex k Hk), (a_out_ne _ _ _ _ _ _ Hex k Hk).
Qed.
Lemma hw_no_overflow : ¬ hb_net.overflown correct e1 hw.
Proof.
  intros Hov. apply Hnov. destruct e1_bounds as [H1 H2]. by eapply (hb_net.overflown_exec pubs correct e1).
Qed.
Lemma outs_before k Rk : k ∈ correct → good_run (hist k) Rk → (w_out hw k).*1 = seg E Rk.
Proof. intros Hk HRk. by apply (dv_rest _ _ _ _ _ Hview). Qed.

Section batch.
Context (l1 l2 : list HbBatch) (b : HbBatch) (R1 : ref (C := C) (N := N)).
Context (Hsplit : bs = l1 ++ b :: l2) (HR1 : good_run (hist i ++ l1) R1) (Hera : r_era R1 = E) (Hseg : seg E R1 = seg E R ++ l1).

Lemma this_output : (w_out hw' i).*1 !! length (seg E R1) = Some b.
Proof. rewrite Hbs, Hsplit, Hseg, app_assoc. by apply list_lookup_middle. Qed.

(** A node that is further has the same batch next. *)
Lemma next_batch k : k ∈ correct → k ≠ i → comparable (hist i ++ l1) (hist k) →
  comparable (hist i ++ l1 ++ [b]) (hist k) ∨ colliding.
Proof.
  intros Hk Hki [[rest Hrest]|Hpre]; [|left; right; etrans; [exact Hpre|]; rewrite app_assoc; by exists [b]].
  destruct rest as [|c rest]; [left; right; rewrite Hrest, app_nil_r, app_assoc; by exists [b]|].
  destruct (Hruns k Hk) as [Rk HRk]. rewrite Hrest in HRk.
  pose proof (good_run_next _ _ _ Hera0 Hep0 _ run0_ok (hist i ++ l1) c rest R1 Rk HR1 HRk) as [rest' Hnext].
  rewrite Hera in Hnext. rewrite <- Hrest in HRk.
  assert (Hout : (w_out hw' k).*1 !! length (seg E R1) = Some c).
  { rewrite (proj2 (others k Hki)), (outs_before k Rk Hk HRk), Hnext, <- app_assoc. by apply list_lookup_middle. }
  destruct e1_bounds as [H1 H2].
  destruct (hb_net.batches_agree pubs correct pks E e1 sched Hcorrect Hbyz Hser H1 H2 hw' i k
    (length (seg E R1)) b c hw'_reach Hleft Hnov Hi Hk this_output Hout) as [->|Hcol]; [|right; by eexists _, _, _].
  left. left. rewrite Hrest. exists rest. by rewrite <- !app_assoc.
Qed.

(** The batch with which the era ends is the last one of the call. *)
Lemma last_of_era R2 : good_run (hist i ++ l1 ++ [b]) R2 → (E < r_era R2)%Z →
  (∀ k, k ∈ correct → k ≠ i → comparable (hist i ++ l1 ++ [b]) (hist k)) → l2 = [].
Proof.
  intros HR2 Hlt Hcomp. destruct l2 as [|b2 l3] eqn:Hl2; [done|exfalso]. destruct e1_bounds as [H1 H2].
  set (n := S (length (seg E R1))).
  assert (Hb2 : (w_out hw' (hb_net.ev_node hev)).*1 !! n = Some b2).
  { rewrite Hev, Hbs, Hsplit. replace (seg E R ++ l1 ++ b :: b2 :: l3) with ((seg E R1 ++ [b]) ++ b2 :: l3)
      by (rewrite Hseg, <- !app_assoc; done). apply list_lookup_middle. rewrite length_app. cbn. lia. }
  pose proof (ev_reach _ _ _ _ (dv_view _ _ _ _ _ Hview)) as Hr.
  pose proof (hb_net.node_epoch pubs correct pks E e1 sched Hcorrect Hbyz Hser H1 H2 hw) as Hepoch.
  destruct (hb_net.leap_proposed pubs correct pks E e1 sched Hcorrect Hbyz Hser H1 H2 hw hev hw' n b2 sched_usable Hr Hall Hex Hnov Hb2)
    as (p & Hp & Hpi & Hprop).
  { rewrite Hev, (Hepoch i Hr hw_no_overflow Hi). pose proof (f_equal length (outs_before i R Hi HR)) as Hlen.
    rewrite length_fmap in Hlen. rewrite Hlen. unfold n. rewrite Hseg, length_app. lia. }
  rewrite Hev in Hpi. destruct (Hruns p Hp) as [Rp HRp].
  pose proof (f_equal length (outs_before p Rp Hp HRp)) as Hlen. rewrite length_fmap in Hlen.
  unfold hb_net.proposed in Hprop. rewrite (Hepoch p Hr hw_no_overflow Hp), Hlen in Hprop.
  assert (Hcases : (∃ rest, hist p = (hist i ++ l1 ++ [b]) ++ rest) ∨ hist p `prefix_of` hist i ++ l1).
  { destruct (Hcomp p Hp Hpi) as [Hpre|[rest Hrest]]; [by left|]. destruct rest as [|x rest _] using rev_ind.
    - left. exists []. by rewrite app_nil_r, Hrest, app_nil_r.
    - right. rewrite !app_assoc in Hrest. apply app_inj_tail in Hrest as [-> _]. by exists rest. }
  destruct Hcases as [[rest Hrest]|[rest Hrest]].
  - rewrite Hrest in HRp. destruct (good_run_app _ _ _ Hera0 Hep0 _ run0_ok _ _ _ HRp) as (R2' & HR2' & _ & _ & Hle & _ & _ & Hsame).
    assert (R2' = R2) as -> by (by eapply good_run_det). rewrite (Hsame E Hlt) in Hprop. rewrite <- Hrest in HRp.
    assert (Hn : length (seg E R2) = n).
    { rewrite app_assoc in HR2. destruct (good_run_snoc _ _ _ _ _ _ _ HR1 HR2) as (_ & _ & ->).
      rewrite decide_True by done. rewrite length_app. cbn. unfold n. lia. }
    rewrite Hn in Hprop. destruct Hprop as [?|[_ Hflag]]; [lia|].
    rewrite (proj2 (proj2 (dv_rest _ _ _ _ _ Hview p Rp Hp HRp))) in Hflag by lia. done.
  - pose proof HR1 as HR1'. rewrite Hrest in HR1'.
    destruct (good_run_app _ _ _ Hera0 Hep0 _ run0_ok _ _ _ HR1') as (Rp' & HRp' & _ & _ & _ & _ & Hpre & _).
    assert (Rp' = Rp) as -> by (by eapply good_run_det). specialize (Hpre E). apply prefix_length in Hpre. unfold n in Hprop. lia.
Qed.

Lemma batch_epoch_here : honey_badger.batch_epoch b = (e_start era0 ep0 (r_era R1) + Z.of_nat (length (seg (r_era R1) R1)))%Z.
Proof.
  destruct e1_bounds as [H1 H2]. rewrite Hera.
  by apply (hb_net.batch_number pubs correct pks E e1 sched Hcorrect Hbyz Hser H1 H2 hw' i _ _ hw'_reach Hnov Hi), this_output.
Qed.
Lemma log_length : length (rf_log R1) = length (hist i) + length l1.
Proof. rewrite (good_run_length era0 ep0 run0 eq_refl _ _ HR1), length_app. done. Qed.
Lemma room : (position era0 ep0 era0 (S (length (rf_log R1))) < 2 ^ 64)%Z.
Proof. rewrite log_length. unfold position in *. rewrite Hsplit, length_app in Hsmall. cbn in Hsmall. lia. Qed.

(** The node and the reference process the batch. *)
Lemma one_batch (a a1 : DStep * Rng) (u u1 : State) : ended R1 = false → r_params R1 = ps →
  same_public u (rf_state R1) → netinfo u = nis i →
  process_batch a b u = Ok u1 a1 → ∃ R2 y0 y1, good_run (hist i ++ l1 ++ [b]) R2 ∧ same_public u1 (rf_state R2) ∧
    output a1.1 = output a.1 ++ [y0] ∧ rf_outs R2 = rf_outs R1 ++ [y1] ∧ same_batch y0 y1 ∧
    (r_era R2 = E ∧ r_params R2 = ps ∧ ended R2 = false ∧ hb u1 = hb u ∧ netinfo u1 = nis i ∨
     (E < r_era R2)%Z ∧ (ended R2 = false → netinfo u1 = nis i ∧ hb u1 = fresh era0 ep0 (nis i) (r_era R2) (r_params R2))).
Proof.
  intros Hopen1 Hps Hu Hni Hp.
  pose proof (process_batch_after b a u) as Ha. unfold after in Ha. rewrite Hp in Ha. destruct Ha as (y0 & ms & Ho & _ & _ & _ & _ & Hc).
  destruct (batch_follows Hkg Hpoly Hfr b a a1 u u1 R1 Hu Hp) as (R2 & l & l' & Hst & Hu1 & Ho' & Ho2 & Hsame).
  rewrite Ho in Ho'. apply app_inv_head in Ho'. subst l. apply Forall2_cons_inv_l in Hsame as (y1 & l'' & Hy & Hnil & ->).
  apply Forall2_nil_inv_l in Hnil. subst l''.
  assert (HR2 : good_run (hist i ++ l1 ++ [b]) R2).
  { rewrite app_assoc. eapply gr_snoc; [exact HR1|done..| |]; [apply batch_epoch_here|apply room]. }
  exists R2, y0, y1. split_and!; [done..|]. pose proof (run_ok _ _ HR1) as Hok1. pose proof (run_ok _ _ HR2) as Hok2.
  destruct (ref_step_ok _ _ _ Hera0 Hep0 R1 b R2 Hok1 Hopen1 Hst batch_epoch_here room) as [_ Hcase].
  assert (Hera2 : r_era R2 = era u1) by (symmetry; apply Hu1).
  assert (Heu : era u = E) by (rewrite <- Hera; apply Hu).
  assert (Hpar2 : r_params R2 = honey_badger.params (hb u1)) by (symmetry; apply Hu1).
  assert (Hy1 : batch_epoch y0 = (era0 + ep0 + Z.of_nat (length (rf_log R1)))%Z).
  { rewrite (sb_epoch _ _ Hy). apply (ro_outs _ _ _ _ Hok2). rewrite Ho2. apply list_lookup_middle. symmetry. apply Hok1. }
  assert (Hlt : (E < u64_add (batch_epoch y0) 1)%Z).
  { pose proof (ro_position _ _ _ _ Hok1) as Hpos. pose proof (ro_era _ _ _ _ Hok1) as Hge. pose proof room as Hroom.
    assert (Hs : e_start era0 ep0 era0 = ep0) by (unfold e_start; by rewrite decide_True).
    rewrite Hera in Hpos, Hge. unfold position in Hpos, Hroom. rewrite Hs in Hpos, Hroom. destruct e1_bounds as [? _].
    rewrite Hy1, u64_add_small; unfold in_u64; lia. }
  assert (Hend : ended R2 = false → ends (batch_change y0) = false).
  { rewrite Ho2, (sb_change _ _ Hy). unfold any_ends. rewrite existsb_app. cbn. rewrite orb_false_r. by intros [_ ?]%orb_false_iff. }
  assert (Hstart : ∀ pr, restarted (u64_add (batch_epoch y0) 1) pr u1 → (E < r_era R2)%Z ∧
    (netinfo u1 = nis i → hb u1 = fresh era0 ep0 (nis i) (r_era R2) (r_params R2))).
  { intros pr [He Hh]. rewrite Hera2, Hpar2, He. split; [done|]. intros Hn. rewrite Hh, Hn. unfold fresh, e_start. rewrite decide_False; [done|].
    pose proof (ro_era _ _ _ _ Hok1). lia. }
  assert (Hstay : kept u u1 → r_era R2 = E ∧ r_params R2 = ps ∧ ended R2 = false ∧ hb u1 = hb u ∧ netinfo u1 = nis i).
  { intros [Kn Ke Kh]. destruct Hcase as [(He & Hp2 & Hopen2)|?]; [|rewrite Hera2, Ke in *; lia]. rewrite Kn. split_and!; congruence. }
  unfold changed in Hc. destruct (batch_change y0) as [|[pub|sch]|[pub|sch]].
  - left. by apply Hstay.
  - destruct Hc as [Hn [Hk|Hr]]; [left; by apply Hstay|right]. destruct (Hstart _ Hr) as [? Hf]. split; [done|]. intros _.
    split; [congruence|apply Hf; congruence].
  - done.
  - right. destruct (Hstart _ Hc) as [? _]. split; [done|]. by intros ?%Hend.
  - right. destruct Hc as [Hn Hr]. destruct (Hstart _ Hr) as [? Hf]. split; [done|]. intros _. split; [congruence|apply Hf; congruence].
Qed.
End batch.

(** All batches of the call *)
Record caught_up (u : State) R1 l2 t R2 : Prop := {
  cu_run : good_run (hist i ++ bs) R2;
  cu_same : same_public t (rf_state R2);
  cu_comp k : k ∈ correct → k ≠ i → comparable (hist i ++ bs) (hist k);
  cu_seg e : seg e R2 = seg e R1 ++ (if decide (e = E) then l2 else []);
  cu_before g Rg : g `prefix_of` hist i ++ bs → good_run g Rg → (r_era Rg ≤ E)%Z ∨ g = hist i ++ bs;
  cu_era : r_era R2 = E ∧ r_params R2 = ps ∧ ended R2 = false ∧ hb t = hb u ∧ netinfo t = nis i ∨
    (E < r_era R2)%Z ∧ l2 ≠ [] ∧
    (ended R2 = false → netinfo t = nis i ∧ hb t = fresh era0 ep0 (nis i) (r_era R2) (r_params R2));
}.

Lemma all_batches l2 : ∀ l1 (a y : DStep * Rng) (u t : State) R1, bs = l1 ++ l2 →
  good_run (hist i ++ l1) R1 → ended R1 = false → r_era R1 = E → r_params R1 = ps → seg E R1 = seg E R ++ l1 →
  same_public u (rf_state R1) → netinfo u = nis i →
  (∀ k, k ∈ correct → k ≠ i → comparable (hist i ++ l1) (hist k)) →
  for_acc process_batch a l2 u = Ok t y → (∃ R2 lo lo', caught_up u R1 l2 t R2 ∧
    output y.1 = output a.1 ++ lo ∧ rf_outs R2 = rf_outs R1 ++ lo' ∧ Forall2 same_batch lo lo') ∨ colliding.
Proof.
  induction l2 as [|b l2 IH]; intros l1 a y u t R1 Hsplit HR1 Hop Hera Hps Hseg Hu Hni Hcomp; cbn [for_acc].
  - intros [= <- <-]. left. exists R1, [], []. rewrite !app_nil_r in *. subst l1. split_and!; [|done..]. split; try done.
    + intros e. by case_decide; rewrite app_nil_r.
    + intros g Rg [k Hk] Hg. left. pose proof HR1 as Hl. rewrite Hk in Hl.
      destruct (good_run_app _ _ _ Hera0 Hep0 _ run0_ok _ _ _ Hl) as (R' & HR' & _ & _ & Hle & _).
      assert (R' = Rg) as -> by (by eapply good_run_det). lia.
    + left. by split_and!.
  - unfold mbind, M_bind. destruct (process_batch a b u) as [u1 a1| | |] eqn:Hp; [|done..]. intros Hrest.
    destruct (one_batch l1 l2 b R1 Hsplit HR1 Hera Hseg a a1 u u1 Hop Hps Hu Hni Hp)
      as (R2 & y0 & y1 & HR2 & Hu1 & Ho & Ho2 & Hy & Hcase).
    destruct (all_or (λ k, k ≠ i → comparable (hist i ++ l1 ++ [b]) (hist k)) colliding) as [Hcomp2|?]; [| |by right].
    { intros k Hk. destruct (decide (k = i)) as [->|Hki]; [by left|].
      destruct (next_batch l1 l2 b R1 Hsplit HR1 Hera Hseg k Hk Hki (Hcomp k Hk Hki)) as [?|?]; [by left|by right]. }
    pose proof HR2 as HR2'. rewrite app_assoc in HR2'. destruct (good_run_snoc _ _ _ _ _ _ _ HR1 HR2') as (_ & _ & Hsegs).
    assert (Hs2 : ∀ e, seg e R2 = seg e R1 ++ (if decide (e = E) then [b] else [])).
    { intros e. rewrite Hsegs, Hera. by do 2 case_decide; try congruence. }
    destruct Hcase as [(He2 & Hp2 & Hop2 & Hh2 & Hn2)|[Hlt Hnew]].
    + destruct (IH (l1 ++ [b]) a1 y u1 t R2) as [(R3 & lo & lo' & Hcu & Hout & Hout2 & Hall2)|?]; try done; [| |left|by right].
      * by rewrite <- app_assoc.
      * by rewrite Hs2, decide_True, Hseg, <- app_assoc by done.
      * exists R3, (y0 :: lo), (y1 :: lo'). rewrite Hout, Ho, Hout2, Ho2, <- !app_assoc. split_and!; [|done..|by constructor].
        destruct Hcu as [? ? ? Hsg ? Hcu]. split; try done.
        -- intros e. rewrite Hsg, Hs2, <- app_assoc. by case_decide.
        -- rewrite Hh2 in Hcu. destruct Hcu as [?|(? & ? & ?)]; [by left|by right].
    + assert (l2 = []) as -> by (by eapply (last_of_era l1 l2 b R1)).
      cbn in Hrest. injection Hrest as <- <-. left. exists R2, [y0], [y1]. split_and!; [|done..|by constructor; [|constructor]].
      split; rewrite ?Hsplit; try done.
      * intros g Rg [k Hk] Hg. destruct k as [|x k _] using rev_ind; [right; by rewrite app_nil_r in Hk|left].
        rewrite !app_assoc in Hk. apply app_inj_tail in Hk as [Hk _]. rewrite Hk in HR1.
        destruct (good_run_app _ _ _ Hera0 Hep0 _ run0_ok _ _ _ HR1) as (R' & HR' & _ & _ & Hle & _).
        assert (R' = Rg) as -> by (by eapply good_run_det). lia.
      * right. by split_and!.
Qed.
End event.
Lemma gone_ended w hist i R : node_ok w hist i R → gone w i = ended R.
Proof.
  intros HR. destruct (no_out _ _ _ _ HR) as (own & rest & -> & Hown & Hrest).
  rewrite any_ends_app, (any_ends_same _ _ Hown). destruct Hrest as [->| ->]; [apply orb_false_r|done].
Qed.

(** *** What a call does *)
Section step.
Context w w' i (ins : list (Input C N * Rng)) (q : Member) (y : DStep) hist (Hacts : acts w w' i ins q y) (Hi : i ∈ correct).

Record progress R (bs : list HbBatch) R2 : Prop := {
  p_open : ended R = false;
  p_run : good_run (hist i ++ bs) R2;
  p_out : ∃ lo, rf_outs R2 = rf_outs R ++ lo ∧ Forall2 same_batch (output y) lo;
  p_seg e : seg e R2 = seg e R ++ (if decide (e = r_era R) then bs else []);
  p_comp k : k ∈ correct → k ≠ i → comparable (hist i ++ bs) (hist k);
  p_before g Rg : g `prefix_of` hist i ++ bs → good_run g Rg → (r_era Rg ≤ r_era R)%Z ∨ g = hist i ++ bs;
  p_live : same_public q.1.1 (rf_state R2) ∧ (ended R2 = false → netinfo q.1.1 = nis i);
  p_new : ended R2 = false → r_era R2 ≠ r_era R → hb q.1.1 = fresh era0 ep0 (nis i) (r_era R2) (r_params R2);
  p_messages e : e ≠ r_era R → omap (hb_part e) (messages y) = [];
  p_view hw : dview (r_era R) (r_params R) w hist hw →
    ∃ hw', dview (r_era R) (r_params R) w' (<[i := hist i ++ bs]> hist) hw';
}.

Lemma node_changed k : k ≠ i → w_node w' k = w_node w k.
Proof. apply Hacts. Qed.
Lemma sent_follows e hw hw' : (∀ k (tg : Target N) m, (k, TM tg m) ∈ w_sent hw ↔ (k, TM tg (HoneyBadger e m)) ∈ w_sent w) →
  w_sent hw' = w_sent hw ++ (pair i <$> omap (hb_part e) (messages y)) →
  ∀ k (tg : Target N) m, (k, TM tg m) ∈ w_sent hw' ↔ (k, TM tg (HoneyBadger e m)) ∈ w_sent w'.
Proof.
  intros Hs Hs' k tg m. rewrite Hs', (a_sent _ _ _ _ _ _ Hacts), !elem_of_app, Hs, !list_elem_of_fmap.
  split; (intros [?|(x & [= -> <-] & Hx)]; [by left|right]); eexists; (split; [done|]); by apply hb_part_elem.
Qed.
Lemma view_keep e ps hw : era_view e ps w hw → omap (hb_part e) (messages y) = [] →
  (gone w' i = false → era q.1.1 = e → w_node hw i = hb q.1.1) → era_view e ps w' hw.
Proof.
  intros [Hr Hs Hn] Hm Hq. split; [done| |].
  - apply (sent_follows e hw hw Hs). by rewrite Hm, app_nil_r.
  - intros k Hk. destruct (decide (k = i)) as [->|Hne]; [by rewrite (a_node _ _ _ _ _ _ Hacts)|].
    rewrite node_changed, (a_out_ne _ _ _ _ _ _ Hacts k Hne) by done. by apply Hn.
Qed.
Lemma open_outs R : node_ok w hist i R → ended R = false → Forall2 same_batch (w_out w i).*1 (rf_outs R).
Proof. intros HR Ho. destruct (no_out _ _ _ _ HR) as (own & rest & -> & ? & [->|?]); [by rewrite app_nil_r|congruence]. Qed.
Lemma outs_after R R2 bs : node_ok w hist i R → progress R bs R2 → Forall2 same_batch (w_out w' i).*1 (rf_outs R2).
Proof.
  intros HR Hp. rewrite (a_out _ _ _ _ _ _ Hacts). destruct (p_out _ _ _ Hp) as (lo & -> & Hlo).
  apply Forall2_app; [by apply open_outs, (p_open _ _ _ Hp)|done].
Qed.
Lemma gone_after R R2 bs : node_ok w hist i R → progress R bs R2 → gone w' i = ended R2.
Proof. intros HR Hp. by apply any_ends_same, (outs_after R R2 bs). Qed.

Lemma dview_keep e ps R R2 bs hw : progress R bs R2 → node_ok w hist i R → e ≠ r_era R → dview e ps w hist hw →
  (e = r_era R2 → ps = r_params R2) → dview e ps w' (<[i := hist i ++ bs]> hist) hw.
Proof.
  intros Hp HRi Hne [Hv Hrest] Hps. pose proof (no_run _ _ _ _ HRi) as HR. destruct (Hrest i R Hi HR) as (Hout & Hearly & Hlate).
  destruct (run_prefix _ _ _ _ (prefix_app_r _ _ bs (reflexivity (hist i))) HR (p_run _ _ _ Hp)) as (_ & _ & Hle & _). split.
  - apply view_keep; [done|by apply (p_messages _ _ _ Hp)|]. rewrite (gone_after R R2 bs) by done. intros Hq He.
    destruct (p_live _ _ _ Hp) as [Hsame _].
    assert (Hera : r_era R2 = e) by (rewrite <- He; symmetry; apply Hsame). rewrite (p_new _ _ _ Hp Hq) by congruence.
    rewrite Hearly by lia. by rewrite Hera, Hps.
  - intros k Rk Hk. destruct (decide (k = i)) as [->|Hki]; [|rewrite fn_lookup_insert_ne by done; by apply Hrest].
    rewrite fn_lookup_insert. intros HRk. assert (Rk = R2) as -> by (by eapply good_run_det, (p_run _ _ _ Hp)).
    rewrite (p_seg _ _ _ Hp), decide_False, app_nil_r by done. split_and!; [done|intros; apply Hearly; lia|].
    intros Hlt. destruct (decide (e < r_era R)%Z); [by apply Hlate|]. by rewrite Hearly by lia.
Qed.

(** The first node of an era finds its network at the start. *)
Lemma view_new R R2 bs : good w hist → progress R bs R2 → node_ok w hist i R → ended R2 = false → (r_era R < r_era R2)%Z →
  (∀ k, k ∈ correct → k ≠ i → length (hist k) < length (hist i ++ bs)) →
  ∃ hw, dview (r_era R2) (r_params R2) w' (<[i := hist i ++ bs]> hist) hw.
Proof.
  intros Hg Hp HR Hopen Hlt Hfirst. destruct (ro_open _ _ _ _ (run_ok _ _ (p_run _ _ _ Hp)) Hopen) as (_ & _ & Hus & Hm).
  assert (Hback : ∀ k g Rg, k ∈ correct → g `prefix_of` hist k → good_run g Rg → (r_era Rg ≤ r_era R)%Z).
  { intros k g Rg Hk Hpre HRg. destruct (decide (k = i)) as [->|Hne]; [by apply (run_prefix g (hist i) Rg R), HR|].
    specialize (Hfirst k Hk Hne). destruct (p_before _ _ _ Hp g Rg) as [?| ->]; [|done..|apply prefix_length in Hpre; lia].
    etrans; [exact Hpre|]. apply comparable_long; [|lia]. by apply comparable_sym, (p_comp _ _ _ Hp). }
  set (E' := r_era R2) in *. set (pr := r_params R2) in *.
  exists (World (λ k, fresh era0 ep0 (nis k) E' pr) [] (λ _, []) (λ _, [])). split.
  - split; cbn.
    + apply reach_init. split; [done|]. intros k Hk. split_and!; [done..|]. exists (nis k), pr. split_and!; [done..|]. by apply Hnis.
    + intros k tg m. split; [by intros ?%elem_of_nil|]. rewrite (a_sent _ _ _ _ _ _ Hacts), elem_of_app, list_elem_of_fmap.
      intros [Hin|(x & [= -> <-] & Hin%hb_part_elem)].
      * destruct (g_sent _ _ Hg _ _ _ _ Hin) as (Hk & [(g & Rg & Hpre & HRg & He)|(Rk & HRk & Hek & Hle)]).
        { specialize (Hback k g Rg Hk Hpre HRg). lia. }
        destruct (decide (k = i)) as [->|Hne].
        { rewrite (good_run_det _ _ _ _ _ _ HRk (no_run _ _ _ _ HR)), (p_open _ _ _ Hp) in Hek. done. }
        pose proof (ended_later _ _ _ _ (p_comp _ _ _ Hp k Hk Hne) (p_run _ _ _ Hp) HRk Hopen Hek). lia.
      * rewrite (p_messages _ _ _ Hp) in Hin by lia. by apply elem_of_nil in Hin.
    + intros k Hk. destruct (decide (k = i)) as [->|Hne].
      * rewrite (a_node _ _ _ _ _ _ Hacts). intros _ _. symmetry. apply (p_new _ _ _ Hp Hopen). unfold E' in *. lia.
      * rewrite node_changed, (a_out_ne _ _ _ _ _ _ Hacts k Hne) by done. intros Hgone He. destruct (g_node _ _ Hg k Hk) as [Rk HRk].
        rewrite (gone_ended _ _ _ _ HRk) in Hgone. destruct (no_live _ _ _ _ HRk Hgone) as [Hsame _]. rewrite (sp_era _ _ Hsame) in He.
        specialize (Hback k (hist k) Rk Hk (reflexivity _) (no_run _ _ _ _ HRk)). lia.
  - intros k Rk Hk HRk. cbn. destruct (decide (k = i)) as [->|Hne].
    + rewrite fn_lookup_insert in HRk. assert (Rk = R2) as -> by (by eapply good_run_det, (p_run _ _ _ Hp)).
      rewrite (p_seg _ _ _ Hp), decide_False, app_nil_r by lia. split_and!; [|done..].
      symmetry. apply (seg_nil (nis i0) era0 ep0); [|done]. eapply run_ok, HR.
    + rewrite fn_lookup_insert_ne in HRk by done. specialize (Hback k (hist k) Rk Hk (reflexivity _) HRk). split_and!; [|done|intros; lia].
      symmetry. apply (seg_nil (nis i0) era0 ep0); [by eapply run_ok|lia].
Qed.

Lemma progress_view R bs R2 k g Rg : good w hist → node_ok w hist i R → progress R bs R2 → k ∈ correct →
  g `prefix_of` (<[i := hist i ++ bs]> hist) k → good_run g Rg → ended Rg = false →
  ∃ hw, dview (r_era Rg) (r_params Rg) w' (<[i := hist i ++ bs]> hist) hw.
Proof.
  intros Hg HR Hp Hk Hpre HRg Hopen. pose proof (no_run _ _ _ _ HR) as HRi. pose proof (p_run _ _ _ Hp) as HR2.
  assert (Hpre_i : hist i `prefix_of` hist i ++ bs) by (by apply prefix_app_r).
  assert (Hcomp : ∀ k, k ∈ correct → g `prefix_of` hist k → comparable g (hist i ++ bs)).
  { intros k' Hk' Hpre'. eapply comparable_prefix; [exact Hpre'|]. destruct (decide (k' = i)) as [->|Hne]; [by left|].
    by apply comparable_sym, (p_comp _ _ _ Hp). }
  assert (Hold : ∀ k, k ∈ correct → g `prefix_of` hist k → ∃ hw, dview (r_era Rg) (r_params Rg) w' (<[i := hist i ++ bs]> hist) hw).
  { intros k' Hk' Hpre'. destruct (g_view _ _ Hg k' g Rg Hk' Hpre' HRg Hopen) as [hw Hv].
    destruct (decide (r_era Rg = r_era R)) as [He|He].
    - assert (Hps : r_params Rg = r_params R).
      { apply (era_params g (hist i)); [|done..]. eapply comparable_prefix; [exact Hpre'|]. by apply Hg. }
      rewrite He, Hps in *. by apply (p_view _ _ _ Hp hw).
    - exists hw. eapply dview_keep; [done..|]. intros He2. apply (era_params g (hist i ++ bs)); [by eapply Hcomp|done..]. }
  destruct (decide (k = i)) as [->|Hne]; [|rewrite fn_lookup_insert_ne in Hpre by done; by apply (Hold k)].
  rewrite fn_lookup_insert in Hpre. destruct (prefix_weak_total g (hist i) _ Hpre Hpre_i) as [Hl|Hl]; [by apply (Hold i)|].
  destruct (decide (r_era Rg = r_era R)) as [He|He].
  { destruct (run_prefix _ _ _ _ Hl HRi HRg) as (Hsame & Hop & _ & Hps).
    assert (Hopen' : ended R = false).
    { destruct Hl as [[|b l] Hl]; [rewrite Hsame; [done|by rewrite Hl, app_nil_r]|]. apply Hop. rewrite Hl.
      intros Hx%(f_equal length). rewrite length_app in Hx. cbn in Hx. lia. }
    destruct (g_view _ _ Hg i (hist i) R Hi (reflexivity _) HRi Hopen') as [hw Hv]. rewrite He, <- Hps by done.
    by apply (p_view _ _ _ Hp hw). }
  destruct (p_before _ _ _ Hp g Rg Hpre HRg) as [Hle| ->].
  { destruct (run_prefix _ _ _ _ Hl HRi HRg) as (_ & _ & Hle' & _). lia. }
  assert (Rg = R2) as -> by (by eapply good_run_det). destruct (run_prefix _ _ _ _ Hl HRi HRg) as (_ & _ & Hle & _).
  destruct (decide (set_Exists (λ k, k ≠ i ∧ length (hist i ++ bs) ≤ length (hist k)) correct)) as [(k & Hk' & Hki & Hlen)|Hno].
  - apply (Hold k); [done|]. apply comparable_long; [|done]. by apply (p_comp _ _ _ Hp).
  - eapply view_new; [done..|lia|]. intros k Hk' Hki. apply Nat.nle_gt. intros Hlen. apply Hno. by exists k.
Qed.

Lemma progress_good R bs R2 : good w hist → node_ok w hist i R → progress R bs R2 → good w' (<[i := hist i ++ bs]> hist).
Proof.
  intros Hg HR Hp. assert (Hpre_i : hist i `prefix_of` hist i ++ bs) by (by apply prefix_app_r).
  assert (Hne : ∀ k, k ≠ i → (<[i := hist i ++ bs]> hist) k = hist k) by (intros; by rewrite fn_lookup_insert_ne).
  assert (Heq : (<[i := hist i ++ bs]> hist) i = hist i ++ bs) by (by rewrite fn_lookup_insert).
  assert (Hbig : ∀ k, hist k `prefix_of` (<[i := hist i ++ bs]> hist) k).
  { intros k. destruct (decide (k = i)) as [->|?]; [by rewrite Heq|by rewrite Hne]. }
  destruct (run_prefix _ _ _ _ Hpre_i (no_run _ _ _ _ HR) (p_run _ _ _ Hp)) as (Hsame & Hopen & Hle & Hps).
  split.
  - intros k Hk. destruct (decide (k = i)) as [->|Hki].
    + exists R2. destruct (p_live _ _ _ Hp) as [Hpub Hni]. split; rewrite ?Heq, ?(a_node _ _ _ _ _ _ Hacts); [apply Hp| |auto|].
      * exists (w_out w' i).*1, []. split_and!; [by rewrite app_nil_r|by eapply outs_after|by left].
      * intros _. by rewrite (sp_era _ _ Hpub).
    + destruct (g_node _ _ Hg k Hk) as [Rk [H1 H2 H3 H4]]. exists Rk.
      split; rewrite ?Hne, ?(node_changed _ Hki), ?(a_out_ne _ _ _ _ _ _ Hacts k Hki) by done; done.
  - intros k1 k2 Hk1 Hk2. destruct (decide (k1 = i)) as [->|H1], (decide (k2 = i)) as [->|H2]; rewrite ?Heq, ?Hne by done.
    + by left.
    + by apply Hp.
    + by apply comparable_sym, Hp.
    + by apply Hg.
  - intros k g Rg Hk Hpre HRg Ho. by eapply progress_view.
  - intros k tg e m. rewrite (a_sent _ _ _ _ _ _ Hacts), elem_of_app, list_elem_of_fmap.
    intros [Hin|(x & [= -> <-] & Hin%hb_part_elem)].
    + destruct (g_sent _ _ Hg _ _ _ _ Hin) as (Hk & [(g & Rg & Hpre & HRg & He)|(Rk & HRk & Hek & Hle')]); (split; [done|]).
      * left. exists g, Rg. split_and!; [|done..]. by etrans.
      * right. exists Rk. split_and!; [|done..]. destruct (decide (k = i)) as [->|Hki]; [|by rewrite Hne].
        rewrite (good_run_det _ _ _ _ _ _ HRk (no_run _ _ _ _ HR)), (p_open _ _ _ Hp) in Hek. done.
    + split; [done|]. left. exists (hist i), R. split_and!; [apply Hbig|apply HR|]. destruct (decide (e = r_era R)) as [->|He]; [done|].
      rewrite (p_messages _ _ _ Hp) in Hin by done. by apply elem_of_nil in Hin.
Qed.

(** A step after the end: it is in a later era than all the networks that are followed. *)
Lemma away_good R : good w hist → node_ok w hist i R → ended R = true → (era (node w i) ≤ era q.1.1)%Z →
  (∀ e, e ≠ era (node w i) → omap (hb_part e) (messages y) = []) → good w' hist.
Proof.
  intros Hg HR Hend Hera Hm. pose proof (no_past _ _ _ _ HR Hend) as Hpast.
  destruct (no_out _ _ _ _ HR) as (own & rest & Hout & Hown & _).
  assert (Hout' : (w_out w' i).*1 = own ++ (rest ++ output y)) by (by rewrite (a_out _ _ _ _ _ _ Hacts), Hout, app_assoc).
  assert (Hgone : gone w' i = true) by (by rewrite Hout', any_ends_app, (any_ends_same _ _ Hown), Hend).
  split; [|apply Hg|..].
  - intros k Hk. destruct (decide (k = i)) as [->|Hki].
    + exists R. split; rewrite ?(a_node _ _ _ _ _ _ Hacts); [apply HR| |congruence|intros _; lia].
      exists own, (rest ++ output y). auto.
    + destruct (g_node _ _ Hg k Hk) as [Rk [H1 H2 H3 H4]]. exists Rk.
      split; rewrite ?(node_changed _ Hki), ?(a_out_ne _ _ _ _ _ _ Hacts k Hki); done.
  - intros k g Rg Hk Hpre HRg Ho. destruct (g_view _ _ Hg k g Rg Hk Hpre HRg Ho) as (hw & Hv & Hrest). exists hw. split; [|done].
    assert (Hlt : (r_era Rg < r_era R)%Z).
    { eapply ended_later; [|exact HRg|apply HR|done|done]. eapply comparable_prefix; [exact Hpre|]. by apply Hg. }
    apply view_keep; [done|apply Hm; lia|]. rewrite Hgone. done.
  - intros k tg e m. rewrite (a_sent _ _ _ _ _ _ Hacts), elem_of_app, list_elem_of_fmap.
    intros [Hin|(x & [= -> <-] & Hin%hb_part_elem)]; [by eapply g_sent|]. split; [done|]. right.
    exists R. split_and!; [apply HR|done|]. destruct (decide (e = era (node w i))) as [->|He]; [done|].
    rewrite Hm in Hin by done. by apply elem_of_nil in Hin.
Qed.
End step.

Lemma hist_length w hist k Rk : node_ok w hist k Rk → length (hist k) ≤ length (w_out w k).
Proof.
  intros HR. pose proof (no_run _ _ _ _ HR) as Hrun. destruct (no_out _ _ _ _ HR) as (own & rest & Hout & Hown & _).
  rewrite <- (good_run_length era0 ep0 run0 eq_refl _ _ Hrun), <- (ro_len _ _ _ _ (run_ok _ _ Hrun)).
  apply (f_equal length) in Hout. rewrite length_fmap, length_app in Hout. apply Forall2_length in Hown. lia.
Qed.

(** *** The cases of a call *)
Section cases.
Context w w' ev (ins : list (Input C N * Rng)) (q : Member) (y : DStep) hist R.
Abbreviation i := (dev_node ev).
Context (Hreach : reachable w) (Ha : allowed w ev = true) (Hex : dexec w ev = Some w').
Context (Hi : i ∈ correct) (Hacts : acts w w' i ins q y) (Hg : good w hist) (HR : node_ok w hist i R).
Context (Hleft : epochs_left w') (Hov : ¬ overflown w').
Abbreviation s := (node w i).

(** A step after the end *)
Lemma did_away : ended R = true → member_did w i (era_event w ev) q y → q.2 = false → good w' hist.
Proof.
  intros Hend (res & Hd & Hres) Hq2. assert (Hcalm : ∀ t, calm s t → era t = era s) by (by intros t [[] _]).
  destruct Hd as [t r x Hc Ho Hm|t r err Hc|q' err Hs|hev h err err' r Hev Hcall|hev h hs r r' t x Hev Hcall Hpo| |];
    [..|done|done]; destruct Hres as [Hq Hy]; rewrite Hq in Hq2.
  - eapply away_good; [done|done|exact Hg|exact HR|done|rewrite Hq; cbn; by rewrite (Hcalm t Hc)|]. intros e _. rewrite Hy. apply Hm.
  - eapply away_good; [done|done|exact Hg|exact HR|done|rewrite Hq; cbn; by rewrite (Hcalm t Hc)|]. intros e _. by rewrite Hy.
  - cbn in Hq2. rewrite Hs, orb_true_r in Hq2. done.
  - eapply away_good; [done|done|exact Hg|exact HR|done|by rewrite Hq|]. intros e _. by rewrite Hy.
  - pose proof (ro_era _ _ _ _ (run_ok _ _ (no_run _ _ _ _ HR))) as Hge. pose proof (no_past _ _ _ _ HR Hend) as Hpast.
    assert (Hpos : (0 ≤ era (s <| hb := h |>))%Z) by (change (0 ≤ era s)%Z; lia). pose proof (process_output_era hs r (s <| hb := h |>) Hpos) as Hle. pose proof (process_output_after hs r (s <| hb := h |>)) as Hp.
    unfold after in Hle, Hp. rewrite Hpo in Hle, Hp. destruct Hp as [_ Hms].
    eapply away_good; [done|done|exact Hg|exact HR|done|rewrite Hq; apply Hle|].
    + intros b Hb. apply dec_stable. intros Hout. apply Hov. exists i. split; [done|]. right. exists b. split; [|done].
      rewrite (a_out _ _ _ _ _ _ Hacts), Hy. apply elem_of_app. by right.
    + intros e He. rewrite Hy, Hms. cbn. by rewrite decide_False.
Qed.

Section live.
Context (Hopen : ended R = false).
Lemma quiet_progress : output y = [] → (∀ e, e ≠ r_era R → omap (hb_part e) (messages y) = []) →
  same_public q.1.1 (rf_state R) → netinfo q.1.1 = nis i →
  (∀ hw, dview (r_era R) (r_params R) w hist hw → ∃ hw', era_view (r_era R) (r_params R) w' hw' ∧
    (∀ k, (w_out hw' k).*1 = (w_out hw k).*1) ∧ ∀ k, k ≠ i → w_node hw' k = w_node hw k) →
  progress w w' i q y hist R [] R.
Proof.
  intros Hy Hm Hq Hni Hview. split; rewrite ?app_nil_r; try done.
  - apply HR.
  - exists []. by rewrite Hy, app_nil_r.
  - intros e. by case_decide; rewrite app_nil_r.
  - intros k Hk _. by apply Hg.
  - intros g Rg Hpre HRg. left. by apply (run_prefix g (hist i) Rg R), (no_run _ _ _ _ HR).
  - intros hw Hv. destruct (Hview hw Hv) as (hw' & Hev & Hout & Hnode). exists hw'. split; [done|].
    intros k Rk Hk. destruct (decide (k = i)) as [->|Hki].
    + rewrite fn_lookup_insert. intros HRk. assert (Rk = R) as -> by (by eapply good_run_det, (no_run _ _ _ _ HR)).
      rewrite Hout. split_and!; [by apply (dv_rest _ _ _ _ _ Hv)|lia..].
    + rewrite fn_lookup_insert_ne by done. rewrite Hout, Hnode by done. by apply (dv_rest _ _ _ _ _ Hv).
Qed.

Lemma here : era s = r_era R ∧ same_public s (rf_state R) ∧ netinfo s = nis i.
Proof. destruct (no_live _ _ _ _ HR Hopen) as (Hs & ?). split_and!; [apply Hs|done..]. Qed.
Lemma here_live : gone w i = false.
Proof. by rewrite (gone_ended _ _ _ _ HR). Qed.

Lemma calm_progress : calm s q.1.1 → output y = [] → quiet (messages y) → progress w w' i q y hist R [] R.
Proof.
  intros [[Hn _ Hh] Hsame] Hy Hm. destruct here as (Hera & Hs & Hni). apply quiet_progress; [done|by intros e _|by apply Hsame|congruence|].
  intros hw [Hv _]. exists hw. split_and!; [|done..]. eapply view_keep; [done..|]. intros _ He. rewrite Hh.
  apply Hv; [done|apply here_live|done].
Qed.

Lemma hb_event hev hw : era_event w ev = Some hev → dview (r_era R) (r_params R) w hist hw →
  hb_allowed hw hev = true ∧ hb_net.ev_node hev = i ∧ ∃ ins2, hb_exec hw hev = commit hw i ins2 (hb_call hev (hb s)).
Proof.
  intros He [[_ Hsent Hnode] _]. destruct here as (Hera & _). specialize (Hnode i Hi here_live Hera).
  destruct ev as [k [[c|ch] r]|k j [e m|e m sg|sv]]; cbn in He, Hnode; try done.
  - injection He as <-. split_and!; [by apply allowed_input in Ha; apply allowed_input|done|]. eexists. cbn. by rewrite Hnode.
  - case_decide as Hcur; [|done]. injection He as <-. split_and!; [|done|eexists; cbn; by rewrite Hnode].
    apply allowed_deliver_iff in Ha as (H1 & H2 & H3 & H4). apply allowed_deliver_iff. split_and!; [done..|].
    intros ([tg m'] & Hin & Hm & Hto)%H4. cbn in Hm, Hto. subst m'. exists (TM tg m). split; [|done]. apply Hsent.
    cbn in Hera. congruence.
Qed.

Lemma hb_fail_progress hev h err : era_event w ev = Some hev → hb_call hev (hb s) = Err h err →
  q.1.1 = s <| hb := h |> → y = step_default → progress w w' i q y hist R [] R.
Proof.
  intros He Hcall Hq Hy. destruct here as (Hera & Hs & Hni). apply quiet_progress; [by rewrite Hy..| |by rewrite Hq|].
  - rewrite Hq. pose proof (hb_call_params hev (hb s)) as Hp. unfold after in Hp. rewrite Hcall in Hp.
    destruct Hs. split; try done. cbn. by rewrite Hp.
  - intros hw Hv. destruct (hb_event hev hw He Hv) as (Hall & _ & ins2 & Hc). rewrite Hcall in Hc.
    eexists. split_and!; [split| |].
    + eapply reach_step; [apply Hv|exact Hall|exact Hc].
    + eapply sent_follows; [done|apply Hv|rewrite Hy; cbn; by rewrite app_nil_r].
    + cbn. intros k Hk. destruct (decide (k = i)) as [->|Hki].
      * by rewrite (a_node _ _ _ _ _ _ Hacts), fn_lookup_insert, Hq.
      * rewrite (node_changed _ _ _ _ _ _ Hacts), (a_out_ne _ _ _ _ _ _ Hacts k Hki), fn_lookup_insert_ne by done. by apply Hv.
    + done.
    + intros k Hki. cbn. by rewrite fn_lookup_insert_ne.
Qed.
(** A call of Honey Badger whose batches are processed *)
Section batches.
Context hev hw hw' (h : honey_badger.HoneyBadger N) (hs : HbStep) (r r' : Rng) t.
Abbreviation E := (r_era R).
Abbreviation ps := (r_params R).
Context (Hev : era_event w ev = Some hev) (Hv : dview E ps w hist hw) (Hcall : hb_call hev (hb s) = Ok h hs).
Context (Hhw : hb_exec hw hev = Some hw') (Hpo : process_output hs r (s <| hb := h |>) = Ok t (y, r')) (Hq : q.1 = (t, r')).

Lemma hb_acts : ∃ ins2, acts hw hw' i ins2 h hs.
Proof.
  destruct (hb_event hev hw Hev Hv) as (_ & _ & ins2 & Hc). rewrite Hcall, Hhw in Hc. exists ins2.
  symmetry in Hc. by apply commit_acts in Hc.
Qed.
Lemma hb_messages e : omap (hb_part e) (messages y) = if decide (E = e) then messages hs else [].
Proof.
  pose proof (process_output_after hs r (s <| hb := h |>)) as Hp. unfold after in Hp. rewrite Hpo in Hp.
  destruct here as (<- & _). apply Hp.
Qed.
Lemma hb_sent k (tg : Target N) m : (k, TM tg m) ∈ w_sent hw' ↔ (k, TM tg (HoneyBadger E m)) ∈ w_sent w'.
Proof.
  destruct hb_acts as [ins2 Ha2]. revert k tg m. eapply sent_follows; [done|apply Hv|].
  by rewrite hb_messages, decide_True, (a_sent _ _ _ _ _ _ Ha2).
Qed.
Lemma hb_left : hb_net.epochs_left correct hw'.
Proof. intros k tg c p e Hk Hin%hb_sent. by eapply Hleft. Qed.
Lemma hb_room : (position era0 ep0 era0 (length (hist i) + length (output hs)) < 2 ^ 64)%Z.
Proof.
  apply Z.nle_gt. intros Hle. apply Hov. exists i. split; [done|]. left.
  pose proof (hist_length w hist i R HR) as Hlen.
  pose proof (process_output_after hs r (s <| hb := h |>)) as Hp. unfold after in Hp. rewrite Hpo in Hp.
  destruct Hp as [Hp _]. cbn in Hp. rewrite <- (length_fmap fst), (a_out _ _ _ _ _ _ Hacts), length_app, length_fmap, Hp.
  unfold position in *. lia.
Qed.
Lemma hb_no_overflow : ¬ hb_net.overflown correct (e_start era0 ep0 E) hw'.
Proof.
  intros (k & Hk & Hover). destruct hb_acts as [ins2 Ha2]. unfold hb_net.over in Hover.
  pose proof (ro_era _ _ _ _ (run_ok _ _ (no_run _ _ _ _ HR))) as Hge. pose proof hb_room as Hroom.
  destruct (g_node _ _ Hg k Hk) as [Rk HRk]. pose proof (seg_bound (nis i0) era0 ep0 Hera0 Hep0 run0 run0_ok eq_refl _ _ E (no_run _ _ _ _ HRk) Hge) as Hb.
  rewrite (good_run_length era0 ep0 run0 eq_refl _ _ (no_run _ _ _ _ HRk)) in Hb.
  destruct (dv_rest _ _ _ _ _ Hv k Rk Hk (no_run _ _ _ _ HRk)) as (Hout & _). destruct (decide (k = i)) as [->|Hki].
  - rewrite (a_out _ _ _ _ _ _ Ha2), Hout, length_app in Hover. unfold position in *. lia.
  - rewrite (a_out_ne _ _ _ _ _ _ Ha2 k Hki), Hout in Hover. apply Hov. exists k. split; [done|]. left.
    pose proof (hist_length w hist k Rk HRk). rewrite (a_out_ne _ _ _ _ _ _ Hacts k Hki). unfold position in *. lia.
Qed.
Lemma hb_collided : colliding R hw' → collided w'.
Proof.
  intros (e & k & j & Hcol). destruct here as (Hera & _). exists w, ev, w', hw, hev, hw', ps, e, k, j. rewrite Hera.
  split_and!; try done; [by apply reach_init|apply Hv].
Qed.
Lemma hb_out : (w_out hw' i).*1 = seg E R ++ output hs.
Proof.
  destruct hb_acts as [ins2 Ha2]. rewrite (a_out _ _ _ _ _ _ Ha2). f_equal. by apply (dv_rest _ _ _ _ _ Hv), (no_run _ _ _ _ HR).
Qed.

Lemma hb_progress : (∃ R2, progress w w' i q y hist R (output hs) R2) ∨ collided w'.
Proof.
  destruct here as (Hera & Hs & Hni). pose proof Hopen as Hop. pose proof (no_run _ _ _ _ HR) as HRi.
  destruct (hb_event hev hw Hev Hv) as (Hall & Hnode & _). destruct hb_acts as [ins2 Ha2].
  assert (Hruns : ∀ k, k ∈ correct → ∃ Rk, good_run (hist k) Rk).
  { intros k Hk. destruct (g_node _ _ Hg k Hk) as [Rk HRk]. exists Rk. apply HRk. }
  pose proof Hpo as Hfor. unfold process_output, mbind, M_bind, get in Hfor. cbn [extend_with] in Hfor.
  assert (Hu : same_public (s <| hb := h |>) (rf_state R)).
  { pose proof (hb_call_params hev (hb s)) as Hp. unfold after in Hp. rewrite Hcall in Hp. destruct Hs. split; try done. cbn. by rewrite Hp. }
  edestruct (all_batches w hist i R hw hev hw' (output hs) Hi Hruns HRi Hop Hv Hall Hnode Hhw hb_out hb_left hb_no_overflow
    hb_room (output hs) []) as [(R2 & lo & lo' & [Hrun Hsame Hcomp Hseg Hbefore Hcase] & Hout & Hout2 & Hlo)|?%hb_collided];
    [done|by rewrite app_nil_r|done..|by rewrite app_nil_r|exact Hu|exact Hni|intros k Hk _; rewrite app_nil_r; by apply Hg|exact Hfor|left|by right].
  cbn in Hout. subst lo.
  exists R2. split; try done.
  - by exists lo'.
  - rewrite Hq. split; [done|]. intros Hend. destruct Hcase as [?|(_ & _ & Hf)]; [tauto|by apply Hf].
  - intros Hend Hne. rewrite Hq. cbn. destruct Hcase as [?|(_ & _ & Hf)]; [tauto|by apply Hf].
  - intros e Hne. by rewrite hb_messages, decide_False.
  - intros _ _. exists hw'. split; [split|].
    + by eapply hw'_reach.
    + apply hb_sent.
    + intros k Hk. destruct (decide (k = i)) as [->|Hki].
      * rewrite (a_node _ _ _ _ _ _ Hacts), (a_node _ _ _ _ _ _ Ha2), Hq. cbn. intros _ Het.
        rewrite (sp_era _ _ Hsame) in Het. destruct Hcase as [(_ & _ & _ & -> & _)|?]; [done|lia].
      * rewrite (node_changed _ _ _ _ _ _ Hacts), (a_out_ne _ _ _ _ _ _ Hacts k Hki), (a_node_ne _ _ _ _ _ _ Ha2) by done. by apply Hv.
    + intros k Rk Hk. destruct (decide (k = i)) as [->|Hki].
      * rewrite fn_lookup_insert. intros HRk. assert (Rk = R2) as -> by (by eapply good_run_det).
        rewrite hb_out, Hseg, decide_True by done. split_and!; [done|destruct Hcase; lia|]. intros Hlt.
        destruct Hcase as [?|(_ & Hne & _)]; [lia|].
        assert (H12 : (0 ≤ e_start era0 ep0 E)%Z ∧ (e_start era0 ep0 E < 2 ^ 64)%Z) by (eapply e1_bounds, hb_room). destruct H12 as [H1 H2].
        assert (Hsched : ∀ e, is_Some (honey_badger.use_on_epoch (honey_badger.encryption_schedule ps) e)) by (by eapply sched_usable).
        destruct (hb_net.batch_clears_flag pubs correct pks E _ _ Hcorrect Hbyz Hser
          H1 H2 hw hev hw' Hsched (ev_reach _ _ _ _ (dv_view _ _ _ _ _ Hv)) Hall Hhw hb_no_overflow) as [Hno|Hno]; rewrite Hnode in Hno; [|done].
        destruct Hne. rewrite (a_out _ _ _ _ _ _ Ha2) in Hno. by apply (app_inv_head ((w_out hw i).*1)); rewrite app_nil_r.
      * rewrite fn_lookup_insert_ne by done. rewrite (a_node_ne _ _ _ _ _ _ Ha2), (a_out_ne _ _ _ _ _ _ Ha2) by done. by apply Hv.
Qed.
End batches.
End live.

Lemma did_progress : ended R = false → member_did w i (era_event w ev) q y → q.2 = false →
  (∃ bs R2, progress w w' i q y hist R bs R2) ∨ collided w'.
Proof.
  intros Hopen (res & Hd & Hres) Hq2.
  destruct Hd as [t r x Hc Ho Hm|t r err Hc|q' err Hs|hev h err err' r Hev Hcall|hev h hs r r' t x Hev Hcall Hpo| |];
    [..|done|done]; destruct Hres as [Hq Hy].
  - left. exists [], R. apply calm_progress; rewrite ?Hq, ?Hy; done.
  - left. exists [], R. apply calm_progress; rewrite ?Hq, ?Hy; done.
  - rewrite Hq in Hq2. cbn in Hq2. rewrite Hs, orb_true_r in Hq2. done.
  - left. exists [], R. eapply hb_fail_progress; [done|exact Hev|exact Hcall|by rewrite Hq|done].
  - destruct (g_view _ _ Hg i (hist i) R Hi (reflexivity _) (no_run _ _ _ _ HR) Hopen) as [hw Hv].
    destruct (hb_event Hopen hev hw Hev Hv) as (_ & _ & ins2 & Hc). rewrite Hcall in Hc. rewrite <- Hy in Hpo.
    destruct (hb_progress Hopen hev hw _ h hs r r' t Hev Hv Hcall Hc Hpo (f_equal fst Hq)) as [[R2 Hp]|?]; [left|by right].
    by exists (output hs), R2.
Qed.
End cases.

Lemma step_good w ev w' hist : reachable w → allowed w ev = true → dexec w ev = Some w' → good w hist →
  sound w' → epochs_left w' → ¬ overflown w' → (∃ hist', good w' hist') ∨ collided w'.
Proof.
  intros Hr Ha He Hg Hsound Hl Hov. destruct (exec_did w w' ev Ha He) as (Hi & ins & q & y & Hacts & Hd).
  destruct (g_node _ _ Hg _ Hi) as [R HR]. pose proof (Hsound _ Hi) as Hq2. rewrite (a_node _ _ _ _ _ _ Hacts) in Hq2.
  destruct (ended R) eqn:Hend; [left; exists hist; by eapply did_away|].
  destruct (did_progress w w' ev ins q y hist R Hr Ha He Hi Hacts Hg HR Hl Hov Hend Hd Hq2) as [(bs & R2 & Hp)|?]; [left|by right].
  eexists. by eapply progress_good.
Qed.

Lemma start_good w : dhb_initial w → good w (λ _, []).
Proof.
  intros [Hs Hin]. assert (Hrun : ∀ Rg, good_run [] Rg → Rg = run0) by (intros Rg H; by eapply good_run_det, gr_nil).
  split.
  - intros i Hi. destruct (Hin i Hi) as (_ & Hout & r & Hnode). exists run0. split; rewrite ?Hout, ?Hnode; [apply gr_nil| | |done].
    { exists [], []. split_and!; [done|by constructor|by left]. }
    intros _. split; [|done]. pose proof (same_keys_correct i Hi) as Hk. split; try done. by apply new_same_view.
  - by left.
  - intros i g R Hi Hg HR _. apply prefix_nil_inv in Hg. subst g. apply Hrun in HR. subst R.
    exists (World (λ k, fresh era0 ep0 (nis k) era0 ps0) [] (λ _, []) (λ _, [])). split.
    + split; cbn.
      * apply reach_init. split; [done|]. intros k Hk. split_and!; [done..|]. exists (nis k), ps0. split_and!; [done..|]. by apply Hnis.
      * intros k tg m. rewrite Hs. split; by intros ?%elem_of_nil.
      * intros k Hk _ _. destruct (Hin k Hk) as (_ & _ & r & ->). unfold fresh, e_start. by rewrite decide_True.
    + intros k R Hk HR. apply Hrun in HR. subst R. split_and!; [done..|cbn; lia].
  - intros k tg e m. rewrite Hs. by intros ?%elem_of_nil.
Qed.
Lemma step_keeps w ev w' : allowed w ev = true → dexec w ev = Some w' →
  (sound w' → sound w) ∧ (epochs_left w' → epochs_left w) ∧ (overflown w → overflown w') ∧ (collided w → collided w').
Proof.
  intros Ha He. destruct (exec_did w w' ev Ha He) as (Hi & ins & q & y & Hacts & Hd). split_and!.
  - intros Hs k Hk. specialize (Hs k Hk). destruct (decide (k = dev_node ev)) as [->|Hne]; [|by rewrite (a_node_ne _ _ _ _ _ _ Hacts k Hne) in Hs].
    rewrite (a_node _ _ _ _ _ _ Hacts) in Hs. destruct Hd as (res & _ & Hres).
    destruct res as [q' x|q' err| |]; [| |done..]; destruct Hres as [-> _]; [done|]. by apply orb_false_iff in Hs as [? _].
  - intros Hl e k tg c p e' Hk Hin. apply (Hl e k tg c p e' Hk). rewrite (a_sent _ _ _ _ _ _ Hacts). apply elem_of_app. by left.
  - intros (k & Hk & Hov). exists k. split; [done|]. rewrite <- (length_fmap fst) in *.
    destruct (decide (k = dev_node ev)) as [->|Hne]; [|by rewrite (a_out_ne _ _ _ _ _ _ Hacts k Hne)].
    rewrite (a_out _ _ _ _ _ _ Hacts), length_app. destruct Hov as [?|(b & Hb & ?)]; [left; unfold position in *; lia|right].
    exists b. split; [|done]. apply elem_of_app. by left.
  - intros (w1 & ev1 & w2 & hw & hev & hw' & ps & e & k & j & H1 & H2 & H3 & Hlead & Hrest). exists w1, ev1, w2, hw, hev, hw', ps, e, k, j.
    split_and!; try done; try tauto. by eapply reach_step.
Qed.
Lemma reached_good w : reachable w → sound w → epochs_left w → ¬ overflown w → (∃ hist, good w hist) ∨ collided w.
Proof.
  induction 1 as [w Hw|w ev w' Hr IH Ha He]; intros Hs Hl Hov; [left; eexists; by apply start_good|].
  destruct (step_keeps w ev w' Ha He) as (Hs' & Hl' & Hov' & Hcol'). destruct IH as [[hist Hg]|?]; [by auto..| |by auto].
  by eapply step_good.
Qed.

Lemma run_outs g h Rg Rh : g `prefix_of` h → good_run g Rg → good_run h Rh → rf_outs Rg `prefix_of` rf_outs Rh.
Proof.
  intros [l ->] Hg. revert Rh. induction l as [|b l IH] using rev_ind; intros Rh Hh.
  - rewrite app_nil_r in Hh. by rewrite (good_run_det _ _ _ _ _ _ Hg Hh).
  - rewrite app_assoc in Hh. destruct (good_run_app _ _ _ Hera0 Hep0 _ run0_ok _ _ _ Hh) as (R1 & H1 & _).
    destruct (good_run_snoc _ _ _ _ _ _ _ H1 Hh) as (_ & Hst & _). etrans; [by apply IH|].
    unfold ref_step in Hst. destruct (process_batch _ _ _) as [t [x r]| | |]; [|done..]. injection Hst as <-. cbn. by apply prefix_app_r.
Qed.

(** The batches up to the end are those of the run. *)
Lemma in_charge_run w hist i R n (b : Batch C N) : node_ok w hist i R → in_charge (w_out w i).*1 !! n = Some b →
  ∃ c, rf_outs R !! n = Some c ∧ same_batch b c.
Proof.
  intros HR Hb. destruct (no_out _ _ _ _ HR) as (own & rest & Hout & Hown & Hrest). rewrite Hout in Hb.
  apply (Forall2_lookup_l _ _ _ _ _ Hown). apply (prefix_lookup_Some _ _ _ _ Hb).
  destruct Hrest as [->|Hend]; [rewrite app_nil_r; apply in_charge_prefix|].
  rewrite in_charge_app; [apply in_charge_prefix|]. by rewrite (any_ends_same _ _ Hown).
Qed.
Lemma good_agree w hist i j n (b b' : Batch C N) : good w hist → i ∈ correct → j ∈ correct →
  in_charge (w_out w i).*1 !! n = Some b → in_charge (w_out w j).*1 !! n = Some b' → same_batch b b'.
Proof.
  intros Hg Hi Hj Hb Hb'. destruct (g_node _ _ Hg i Hi) as [Ri HRi], (g_node _ _ Hg j Hj) as [Rj HRj].
  destruct (in_charge_run w hist i Ri n b HRi Hb) as (c & Hc & Hs). destruct (in_charge_run w hist j Rj n b' HRj Hb') as (c' & Hc' & Hs').
  apply no_run in HRi, HRj. assert (c = c') as <-; [|etrans; [exact Hs|by symmetry]].
  destruct (g_comp _ _ Hg i j Hi Hj) as [Hp|Hp].
  - pose proof (prefix_lookup_Some _ _ _ _ Hc (run_outs _ _ _ _ Hp HRi HRj)). congruence.
  - pose proof (prefix_lookup_Some _ _ _ _ Hc' (run_outs _ _ _ _ Hp HRj HRi)). congruence.
Qed.
Lemma good_number w hist i n (b : Batch C N) : good w hist → i ∈ correct → in_charge (w_out w i).*1 !! n = Some b →
  batch_epoch b = (era0 + ep0 + Z.of_nat n)%Z.
Proof.
  intros Hg Hi Hb. destruct (g_node _ _ Hg i Hi) as [R HR]. destruct (in_charge_run w hist i R n b HR Hb) as (c & Hc & Hs).
  rewrite (sb_epoch _ _ Hs). by apply (ro_outs _ _ _ _ (run_ok _ _ (no_run _ _ _ _ HR))).
Qed.
Lemma run_eras g R : good_run g R → batch_era <$> rf_outs R = (rf_log R).*1.
Proof.
  induction 1 as [|g R b R' _ IH _ Hst _ _]; [done|]. unfold ref_step in Hst.
  pose proof (process_batch_after b (step_default, rf_rng R) (rf_state R)) as Ha. unfold after in Ha.
  destruct (process_batch _ _ _) as [t [x r]| | |]; [|done..]. injection Hst as <-. destruct Ha as (y & ms & Ho & _ & _ & Hy & _).
  cbn in Ho |- *. by rewrite Ho, !fmap_app, IH, <- Hy.
Qed.
Lemma good_view w hist i : good w hist → i ∈ correct → gone w i = false →
  ∃ hw, era_view (era (node w i)) (honey_badger.params (hb (node w i))) w hw ∧
    length (w_out hw i) = length (filter (λ e, e = era (node w i)) (batch_era <$> (w_out w i).*1)).
Proof.
  intros Hg Hi Hlive. destruct (g_node _ _ Hg i Hi) as [R HRi]. rewrite (gone_ended _ _ _ _ HRi) in Hlive.
  destruct (no_live _ _ _ _ HRi Hlive) as [Hs _]. pose proof (no_run _ _ _ _ HRi) as HR. pose proof Hlive as Hop.
  assert (Ho : Forall2 same_batch (w_out w i).*1 (rf_outs R)).
  { destruct (no_out _ _ _ _ HRi) as (own & rest & -> & ? & [->|?]); [by rewrite app_nil_r|congruence]. }
  destruct (g_view _ _ Hg i (hist i) R Hi (reflexivity _) HR Hop) as [hw Hv]. exists hw.
  rewrite (sp_era _ _ Hs), (sp_params _ _ Hs). split; [apply Hv|].
  rewrite <- (length_fmap fst), (proj1 (dv_rest _ _ _ _ _ Hv i R Hi HR)).
  assert (Heq : batch_era <$> (w_out w i).*1 = (rf_log R).*1).
  { rewrite <- (run_eras _ _ HR). clear -Ho. induction Ho as [|b b' l l' Hb _ IH]; [done|]. cbn. by rewrite (sb_era _ _ Hb), IH. }
  rewrite Heq. unfold seg. generalize (r_era R) as e. intros e. clear. induction (rf_log R) as [|[e' b] l IH]; [done|].
  rewrite fmap_cons, filter_cons. cbn. repeat case_decide; try congruence; cbn; by rewrite IH.
Qed.
End run.

Lemma usable_agree w i j n (b b' : Batch C N) : reachable w → sound w → epochs_left w → ¬ overflown w →
  i ∈ correct → j ∈ correct → in_charge (w_out w i).*1 !! n = Some b → in_charge (w_out w j).*1 !! n = Some b' →
  (same_batch b b' ∧ batch_epoch b = (era0 + ep0 + Z.of_nat n)%Z) ∨ collided w.
Proof.
  intros Hr Hs Hl Hov Hi Hj Hb Hb'. destruct (reached_good i Hi (w_node w i).1.2 w Hr Hs Hl Hov) as [[hist Hg]|?]; [left|by right].
  split; [|eapply good_number; [exact Hg|exact Hi|exact Hb]]. eapply good_agree; [exact Hg|exact Hi|exact Hj|exact Hb|exact Hb'].
Qed.

(** C18: Each era refines Honey Badger: until a correct node has output the batch with which its
    validators' network ends ([gone]), its inner algorithm and those
    of the correct nodes of the same era are nodes of one Honey Badger network that has
    started in the era's first epoch with the schedule of the era, has sent the messages of
    this era, and has output as many batches as the node has of this era.  The worlds are those of
    [dhb_agreement], with a first encryption schedule that does not panic. *)
Theorem dhb_refines w i : reachable w → sound w → epochs_left w → ¬ overflown w → i ∈ correct → gone w i = false →
  (∃ hw, era_view (era (node w i)) (honey_badger.params (hb (node w i))) w hw ∧
    length (w_out hw i) = length (filter (λ e, e = era (node w i)) (batch_era <$> (w_out w i).*1))) ∨ collided w.
Proof.
  intros Hr Hs Hl Hov Hi Hlive. destruct (reached_good i Hi (w_node w i).1.2 w Hr Hs Hl Hov) as [[hist Hg]|?]; [left|by right].
  by eapply good_view.
Qed.
End usable.

(** *** A schedule that panics: nothing is output. *)
Lemma process_nothing (hs : HbStep) r s t y : output hs = [] → process_output (C := C) hs r s = Ok t y →
  t = s ∧ output y.1 = [].
Proof.
  intros Ho. unfold process_output, mbind, M_bind, get. cbn [extend_with]. rewrite Ho. cbn [for_acc]. by intros [= <- <-].
Qed.

Lemma panicking_idle w : honey_badger.use_on_epoch (honey_badger.encryption_schedule ps0) 0 = None → reachable w → sound w →
  ∀ i, i ∈ correct → w_out w i = [] ∧ hb (node w i) = hb (build (nis i) (mkBuilder era0 ep0 ps0)).
Proof.
  intros Hnone Hr Hs i Hi. revert Hs. induction Hr as [w [_ Hw]|w ev w' Hr IH Ha He]; intros Hs.
  { destruct (Hw i Hi) as (_ & Hout & r & ->). by rewrite Hout. }
  destruct (step_keeps w ev w' Ha He) as (Hs' & _). destruct (IH (Hs' Hs)) as [Hout Hhb].
  destruct (exec_did w w' ev Ha He) as (_ & ins & q & y & Hacts & res & Hd & Hres).
  destruct (decide (i = dev_node ev)) as [->|Hne]; [|by rewrite (a_node_ne _ _ _ _ _ _ Hacts i Hne), (a_out_ne _ _ _ _ _ _ Hacts i Hne)].
  set (i := dev_node ev) in *. specialize (Hs i Hi). rewrite (a_node _ _ _ _ _ _ Hacts) in *.
  assert (Hq : output y = [] ∧ hb q.1.1 = hb (node w i)).
  { assert (Hval : is_validator (nis i) = true) by (eapply hb_net.correct_validator; [exact Hcorrect|exact Hi|by apply (Hnis i 0%Z)]).
    assert (Hcall : ∀ hev, match hb_call hev (hb (node w i)) with
      | Ok h hs => h = hb (node w i) ∧ output hs = [] | Err h _ => h = hb (node w i) | _ => True end).
    { intros hev. rewrite Hhb. pose proof (hb_net.panicking_state era0 ep0 hev (nis i) ps0 Hnone Hval) as Hp.
      cbn zeta in Hp. destruct hev as [k x|k j m]; cbn [hb_call hb_net.ev_call] in *.
      - change (hb_net.hb_input x (hb (build (nis i) (mkBuilder era0 ep0 ps0))) = Panic) in Hp. by rewrite Hp.
      - change (hb (build (nis i) (mkBuilder era0 ep0 ps0))) with (honey_badger.build (honey_badger.mkBuilder _ _ _ (nis i) era0 ep0 ps0)).
        destruct (honey_badger.handle_message j m _); [|done..]. by destruct Hp as (? & _ & ?). }
    destruct Hd as [t r x [[_ _ Hk] _] Ho _|t r err [[_ _ Hk] _]|q' err Hst|hev h err err' r Hev Hc|hev h hs r r' t x Hev Hc Hpo| |];
      [..|done|done]; destruct Hres as [-> ->]; try done.
    - cbn in Hs. by rewrite Hst, orb_true_r in Hs.
    - specialize (Hcall hev). by rewrite Hc in Hcall.
    - specialize (Hcall hev). rewrite Hc in Hcall. destruct Hcall as [-> Ho].
      destruct (process_nothing _ _ _ _ _ Ho Hpo) as [-> ?]. done. }
  destruct Hq as [Hy ->]. split; [|done]. apply (fmap_nil_inv fst). by rewrite (a_out _ _ _ _ _ _ Hacts), Hout, Hy.
Qed.

(** ** What the network guarantees *)

Lemma era_batches_agree w i j n (b b' : Batch C N) : reachable w → sound w → epochs_left w → ¬ overflown w →
  i ∈ correct → j ∈ correct → in_charge (w_out w i).*1 !! n = Some b → in_charge (w_out w j).*1 !! n = Some b' →
  (same_batch b b' ∧ batch_epoch b = (era0 + ep0 + Z.of_nat n)%Z) ∨ collided w.
Proof.
  intros Hr Hs Hl Hov Hi Hj Hb Hb'.
  destruct (honey_badger.use_on_epoch (honey_badger.encryption_schedule ps0) 0) as [u|] eqn:Hu.
  - apply (usable_agree ltac:(by rewrite Hu) w i j n b b'); done.
  - destruct (panicking_idle w Hu Hr Hs i Hi) as [Hout _]. rewrite Hout in Hb. done.
Qed.

(** C5: Dynamic Honey Badger, total order across eras: in a network of validators of which at most
    [f] are faulty, [3 f < N], the [n]-th batches that two correct nodes output agree in epoch,
    era, contributions, change of the network and public keys, through every change of the
    encryption schedule and start of a key generation, up to and including the batch with which
    a change of the validators is complete (or a schedule is set that panics); and
    the epochs up to there have no gaps, whatever changes of the era lie between the batches: that of the [n]-th
    batch is [era0 + ep0 + n], where the network began with the epoch [ep0] of the era [era0].
    The theorem is about worlds in which no correct node has failed to process a batch ([sound]):
    such a failure, which a departing validator can cause
    ([departing_validator_loses_batch]), returns an error and loses the batch, and the node
    runs on with a gap.  It supposes that key generation messages can be serialized; exceptions are shards that collided in the network of
    an era, an agreement in its last epoch, and epoch numbers that overflow. *)
Theorem dhb_agreement w i j n (b b' : Batch C N) : reachable w → sound w → epochs_left w → ¬ overflown w →
  i ∈ correct → j ∈ correct → in_charge (w_out w i).*1 !! n = Some b → in_charge (w_out w j).*1 !! n = Some b' →
  (same_batch b b' ∧ batch_epoch b = (era0 + ep0 + Z.of_nat n)%Z) ∨ collided w.
Proof. apply era_batches_agree. Qed.

End invariant.
End net.
End dhb_net.
