(* ===== verification/DhbDemo.v ===== *)
(** * Dynamic Honey Badger: an execution

    Four validators vote to remove one of them.  [DhbAgreement] applies to the batch with
    the votes, and to one in which the leaving validator has a last word. *)
From S2P Require Import Prelude.
From S2P Require Import BTree.
From S2P Require Import Traits.
From S2P Require Import NetworkInfo.
From S2P Require Import Merkle.
From S2P Require Import Broadcast.
From S2P Require Import BinaryAgreement.
From S2P Require Import Subset.
From S2P Require Import SubsetDemo.
From S2P Require Import HoneyBadger.
From S2P Require Import SyncKeyGen.
From S2P Require Import DhbTypes.
From S2P Require Import Votes.
From S2P Require Import DynamicHoneyBadger.
From S2P Require Import DhbAgreement.
From S2P Require Import Instances.

Module dhb_demo.
Import dhb.
Import dynamic_honey_badger.
Import dhb_agreement.

#[local] Existing Instance subset_demo.any_session.
#[local] Existing Instance subset_demo.last_byte.
(** Constant polynomials *)
#[local] Instance constant_poly : @PolyLib number_crypto := {|
  Fr := nat;
  G1 := nat;
  Poly := nat;
  Commitment := nat;
  BivarPoly := nat;
  BivarCommitment := nat;
  fr_zero := 0;
  fr_add := Nat.add;
  g1_one_mul x := x;
  poly_zero := 0;
  poly_evaluate p _ := p;
  poly_interpolate pts := match pts with (_, y) :: _ => y | [] => 0 end;
  poly_commitment p := p;
  commitment_add := Nat.add;
  bivar_random _ rng := (rng, S rng);
  bivar_row p _ := p;
  bivar_commitment p := p;
  bivar_commitment_row c _ := c;
  bivar_commitment_evaluate c _ _ := c;
  pk_set_of_commitment c := (c, 1);
  sk_share_from_fr x := (x, 0);
|}.
#[local] Instance bin_nat : Bincode nat :=
  {| bin_serialize n := Some [byte_of_Z (Z.of_nat n)]; bin_deserialize _ := None |}.
#[local] Instance bin_vote : Bincode (votes.Vote nat) :=
  {| bin_serialize v := Some [byte_of_Z (votes.num v); byte_of_Z (votes.vote_era v)]; bin_deserialize _ := None |}.
#[local] Instance bin_key_gen : Bincode (@KeyGenMessage number_crypto constant_poly) :=
  {| bin_serialize _ := Some ["k"%byte]; bin_deserialize _ := None |}.
#[local] Instance bin_internal : Bincode (InternalContrib bytes nat) :=
  {| bin_serialize _ := Some []; bin_deserialize _ := None |}.
#[local] Instance bin_ct : Bincode (@Ciphertext number_crypto) :=
  {| bin_serialize _ := Some []; bin_deserialize _ := None |}.
Abbreviation State := (@DynamicHoneyBadger nat nat_ord_key number_crypto constant_poly repeat_code).
Abbreviation Contrib := (@InternalContrib bytes nat nat_ord_key number_crypto constant_poly).
Abbreviation HbBatch := (honey_badger.Batch Contrib nat).

Definition node (i : nat) : State := build (four_netinfo i) builder.
Definition three_keys : gmap nat nat := list_to_map [(0, 10); (1, 11); (2, 12)].
Definition remove_vote (i : nat) : votes.SignedVote nat :=
  votes.mkSignedVote _ _ _ (votes.mkVote _ _ _ (@NodeChange nat nat_ord_key number_crypto three_keys) 0 0) i
    (sk_sign (10 + i) [byte_of_Z 0; byte_of_Z 0]).
Definition vote_batch : HbBatch := honey_badger.mkBatch _ _ _ 0 (list_to_map
  [(0, mkContrib _ _ _ _ _ ["a"%byte] [] [remove_vote 1]);
   (1, mkContrib _ _ _ _ _ ["b"%byte] [] [remove_vote 2; remove_vote 3])]).
Abbreviation hb_step b := (mkStep [b] [] [] : Step (honey_badger.Message nat) HbBatch nat honey_badger.FaultKind).
Abbreviation results := (λ r : outcome State Error (Step (Message nat) (Batch bytes nat) nat FaultKind * nat),
  match r with Ok t (x, _) => Some (t, output x) | _ => None end).

Lemma node_keys i : same_keys (netinfo (node i)) (netinfo (node 0)).
Proof.
  destruct (four_netinfo_ok i) as (Hwf & _ & Hp), (four_netinfo_ok 0) as (Hwf0 & _ & Hp0).
  split; [exact Hwf|exact Hwf0|exact (eq_trans Hp (eq_sym Hp0))|done].
Qed.
Lemma node_public i : same_public (node i) (node 0).
Proof. split; [done|apply node_keys|by apply new_same_view, node_keys|done|done]. Qed.

Lemma ser_key_gen (m : @KeyGenMessage number_crypto constant_poly) : is_Some (bin_serialize m).
Proof. by eexists. Qed.
Lemma ser_nat (n : nat) : is_Some (bin_serialize n).
Proof. by eexists. Qed.

(** Nodes 1 and 0 with different random numbers; the vote wins. *)
Lemma dhb_batches_agree_witness :
  match process_output (hb_step vote_batch) 5 (node 1), process_output (hb_step vote_batch) 0 (node 0) with
  | Ok t1 (x1, _), Ok t2 (x2, _) => same_public t1 t2 ∧ Forall2 same_batch (output x1) (output x2) ∧
      batch_change <$> output x2 = [InProgress (@NodeChange nat nat_ord_key number_crypto three_keys)]
  | _, _ => False
  end.
Proof.
  pose proof (dhb_batches_agree (C := bytes) ser_key_gen ser_nat ser_nat (node 1) (node 0) (hb_step vote_batch)
    (hb_step vote_batch) 5 0 (node_public 1) eq_refl) as H.
  assert (H1 : match process_output (hb_step vote_batch) 5 (node 1) with Ok _ _ => True | _ => False end) by (vm_compute; exact I).
  assert (H0 : match process_output (hb_step vote_batch) 0 (node 0) with
    Ok _ (x, _) => bool_decide (batch_change <$> output x = [InProgress (@NodeChange nat nat_ord_key number_crypto three_keys)]) = true
    | _ => False end) by (vm_compute; reflexivity).
  destruct (process_output (hb_step vote_batch) 5 (node 1)) as [t1 [x1 r1]| | |]; [|done..].
  destruct (process_output (hb_step vote_batch) 0 (node 0)) as [t2 [x2 r2]| | |]; [|done..].
  destruct H as [Hp Ho]. split; [exact Hp|]. split; [exact Ho|]. exact (bool_decide_eq_true_1 _ H0).
Defined.

(** The state of node 0 after the vote: the keys of the three others are being generated. *)
Definition voted : State := match process_output (hb_step vote_batch) 0 (node 0) with Ok t _ => t | _ => node 0 end.
Definition last_message : @SignedKeyGenMsg nat nat_ord_key number_crypto constant_poly :=
  mkSkgm _ _ _ _ 1 3 (KgAck (sync_key_gen.mkAck _ 0 [])) (sk_sign 13 ["k"%byte]).
Definition last_batch : HbBatch := honey_badger.mkBatch _ _ _ 0 (list_to_map
  [(0, mkContrib _ _ _ _ _ ["a"%byte] [] []); (3, mkContrib _ _ _ _ _ ["d"%byte] [last_message] [])]).

Lemma voted_leaving : leaving (ord := nat_ord_key) (crypto := number_crypto) 1 3 13 three_keys voted.
Proof.
  assert (Hk : from_option (λ k, bool_decide (sync_key_gen.our_idx (key_gen k) =
      sync_key_gen.position (sync_key_gen.pub_keys (key_gen k)) (sync_key_gen.our_id (key_gen k))) &&
      bool_decide (sync_key_gen.pub_keys (key_gen k) = (three_keys : @gmap nat (@ord_eq_dec nat nat_ord_key) (@ord_countable nat nat_ord_key) (@PublicKey number_crypto)))) false (key_gen_state voted) = true) by (vm_compute; reflexivity).
  split; [vm_compute; reflexivity|]. split; [vm_compute; reflexivity|].
  destruct (key_gen_state voted) as [k|]; [|done]. exists k. cbn [from_option] in Hk.
  apply andb_true_iff in Hk as [H1%bool_decide_eq_true H2%bool_decide_eq_true]. done.
Qed.

Lemma last_batch_lookup :
  honey_badger.contributions last_batch !! 3 = Some (mkContrib _ _ _ _ _ ["d"%byte] [last_message] []).
Proof. reflexivity. Qed.
Lemma last_message_signed : last_word (ord := nat_ord_key) (crypto := number_crypto) 1 3 13 last_message.
Proof. split; [done|]. split; [done|]. exists ["k"%byte]. split; [done|]. vm_compute. reflexivity. Qed.
Lemma three_leaving : sync_key_gen.position (ord := nat_ord_key) (crypto := number_crypto) three_keys 3 = None.
Proof. vm_compute. reflexivity. Qed.

Lemma departing_validator_loses_batch_witness :
  match process_output (C := bytes) (hb_step last_batch) 0 voted with Ok _ _ => False | _ => True end.
Proof.
  pose proof voted_leaving as Hl. revert Hl. generalize voted as v. intros v Hl.
  pose proof (departing_validator_loses_batch (C := bytes) (ord := nat_ord_key) (crypto := number_crypto) ser_key_gen ser_nat
    1 3 13 three_keys three_leaving (hb_step last_batch) 0 v last_batch 3 _ Hl eq_refl last_batch_lookup
    (ex_intro _ last_message (conj (list_elem_of_here _ _) last_message_signed))) as H.
  destruct (process_output (hb_step last_batch) 0 v) as [t x| | |]; [exact (H t x eq_refl)|exact I..].
Defined.
End dhb_demo.
