(* ===== verification/DhbNetDemo.v ===== *)
(** * Dynamic Honey Badger: a network across two eras

    Four validators with the toy keys and codes of [Instances], the last one faulty and
    silent.  Two of them vote for an encryption schedule; the first batch carries the votes
    and ends the era, the second one belongs to the next era.  The theorems of [DhbNet]
    apply to the execution. *)
From S2P Require Import Prelude.
From S2P Require Import BTree.
From S2P Require Import Traits.
From S2P Require Import Net.
From S2P Require Import NetworkInfo.
From S2P Require Import Merkle.
From S2P Require Import Broadcast.
From S2P Require Import ThresholdSign.
From S2P Require Import BinaryAgreement.
From S2P Require Import BaAgreement.
From S2P Require Import ThresholdDecrypt.
From S2P Require Import Subset.
From S2P Require Import SubsetDemo.
From S2P Require Import HoneyBadger.
From S2P Require Import HbNet.
From S2P Require Import HbDemo.
From S2P Require Import SyncKeyGen.
From S2P Require Import DhbTypes.
From S2P Require Import Votes.
From S2P Require Import DynamicHoneyBadger.
From S2P Require Import DhbAgreement.
From S2P Require Import DhbRun.
From S2P Require Import DhbNet.
From S2P Require Import DhbDemo.
From S2P Require Import Instances.

Module dhb_net_demo.
Import dhb.
Import dynamic_honey_badger.
Import dhb_agreement.
Import dhb_run.
Import dhb_net.

#[local] Existing Instance threshold_sign.number_sig_laws.
#[local] Existing Instance threshold_decrypt.number_enc_laws.
#[local] Existing Instance ba_agreement.demo_share_eq.
#[local] Existing Instance hb_demo.demo_dec_eq.
#[local] Existing Instance subset_demo.any_session.
#[local] Existing Instance subset_demo.last_byte.
#[local] Existing Instance hb_demo.bin_ciphertext.
#[local] Existing Instance dhb_demo.constant_poly.
#[local] Existing Instance dhb_demo.bin_nat.
#[local] Existing Instance dhb_demo.bin_vote.
#[local] Existing Instance dhb_demo.bin_key_gen.

(** A contribution with votes for the schedule [Never]: the number of votes, the era, the number
    and the voter of each, and the contribution.  The signatures of the toy keys can be
    computed. *)
Definition never_vote (e n : Z) (i : nat) : votes.SignedVote nat :=
  let v := votes.mkVote _ _ _ (EncryptionSchedule honey_badger.Never) e n in
  votes.mkSignedVote _ _ _ v i (sk_sign (10 + i) [byte_of_Z n; byte_of_Z e]).
Fixpoint read_votes (n : nat) (l : bytes) : option (list (votes.SignedVote nat) * bytes) :=
  match n, l with
  | 0, _ => Some ([], l)
  | S n, e :: m :: i :: l =>
      '(vs, l) ← read_votes n l; Some (never_vote (byte_to_Z e) (byte_to_Z m) (Z.to_nat (byte_to_Z i)) :: vs, l)
  | _, _ => None
  end.
#[local] Instance bin_internal : Bincode (@InternalContrib bytes nat nat_ord_key number_crypto dhb_demo.constant_poly) := {|
  bin_serialize c := Some (byte_of_Z (Z.of_nat (length (contrib_votes c))) ::
    (v ← contrib_votes c; [byte_of_Z (votes.vote_era (votes.vote v)); byte_of_Z (votes.num (votes.vote v)); byte_of_Z (Z.of_nat (votes.voter v))])
      ++ contrib c);
  bin_deserialize l := match l with
    | n :: l => '(vs, l) ← read_votes (Z.to_nat (byte_to_Z n)) l; Some (mkContrib _ _ _ _ _ l [] vs)
    | [] => None
    end;
|}.

Abbreviation State := (@DynamicHoneyBadger nat nat_ord_key number_crypto dhb_demo.constant_poly repeat_code).
Abbreviation Inp := (@Input bytes nat nat_ord_key number_crypto).
Abbreviation Msg := (@Message nat nat_ord_key number_crypto dhb_demo.constant_poly).
Abbreviation Bat := (@Batch bytes nat nat_ord_key number_crypto).
Abbreviation demo_world := (Net.world nat (State * nat * bool) (Inp * nat) Msg Bat).
Abbreviation demo_event := (Net.event nat (Inp * nat) Msg).
Abbreviation correct := hb_demo.hb_correct.

Definition init : demo_world :=
  Net.World (λ i, (build (four_netinfo i) (mkBuilder 0 0 honey_badger.params_default), 0, false)) [] (λ _, []) (λ _, []).
Abbreviation drun := (Net.run (ord := nat_ord_key) (dhb_input (C := bytes)) dhb_message (λ _, true) correct).
Abbreviation drounds := (Net.rounds (ord := nat_ord_key) (dhb_input (C := bytes)) dhb_message (λ _, true) correct).
Definition users a b c : list demo_event :=
  [Net.Input 0 (User [a], 0); Net.Input 1 (User [b], 0); Net.Input 2 (User [c], 0)].
Definition never : Inp := InputChange (EncryptionSchedule honey_badger.Never).
Definition final : option demo_world :=
  w ← drun init [Net.Input 0 (never, 0); Net.Input 1 (never, 0)]; w ← drounds 1 w;
  w ← drun w (users "a" "b" "c"); w ← drounds 10 w;
  w ← drun w (users "d" "e" "f"); drounds 10 w.

Abbreviation dreachable := (Net.reachable (ord := nat_ord_key) (dhb_input (C := bytes)) dhb_message (λ _, true) correct
  (dhb_initial (C := bytes) (ord := nat_ord_key) (crypto := number_crypto) correct four_netinfo 0 0 honey_badger.params_default)).
Lemma init_ok : dhb_initial (C := bytes) (ord := nat_ord_key) (crypto := number_crypto) correct four_netinfo 0 0
  honey_badger.params_default init.
Proof. split; [done|]. intros i _. split_and!; [done..|]. by exists 0. Qed.
Lemma final_reachable w : final = Some w → dreachable w.
Proof.
  unfold final. destruct (drun init _) as [w1|] eqn:Hw1; [|done]. cbn [mbind option_bind].
  destruct (drounds 1 w1) as [w2|] eqn:Hw2; [|done]. cbn [mbind option_bind].
  destruct (drun w2 _) as [w3|] eqn:Hw3; [|done]. cbn [mbind option_bind].
  destruct (drounds 10 w3) as [w4|] eqn:Hw4; [|done]. cbn [mbind option_bind].
  destruct (drun w4 _) as [w5|] eqn:Hw5; [|done]. cbn [mbind option_bind]. intros Hw6.
  eapply rounds_reachable, Hw6. eapply run_reachable, Hw5. eapply rounds_reachable, Hw4. eapply run_reachable, Hw3.
  eapply rounds_reachable, Hw2. eapply run_reachable, Hw1. apply reach_init, init_ok.
Qed.

(** What is read off the execution *)
Definition early (m : Msg) : bool := match m with HoneyBadger _ m => hb_demo.early m | _ => true end.
Definition summary (b : Bat) : Z * Z * list (nat * bytes) * bool := (batch_epoch b, batch_era b, map_to_list (batch_contributions b),
  bool_decide (batch_change b = Complete (EncryptionSchedule honey_badger.Never))).
Definition first_batch : Z * Z * list (nat * bytes) * bool := (0%Z, 0%Z, [(2, ["c"%byte]); (1, ["b"%byte]); (0, ["a"%byte])], true).
Definition second_batch : Z * Z * list (nat * bytes) * bool := (1%Z, 1%Z, [(2, ["f"%byte]); (1, ["e"%byte]); (0, ["d"%byte])], false).
Definition read_off (w : demo_world) :=
  ((λ i, (summary <$> (w_out w i).*1, (w_node w i).2, any_ends (w_out w i).*1)) <$> [0; 1; 2], forallb (λ '(_, tm), early (message tm)) (w_sent w)).
Record expected (w : demo_world) : Prop := {
  x_outs i : i ∈ correct → summary <$> (w_out w i).*1 = [first_batch; second_batch];
  x_sound i : i ∈ correct → (w_node w i).2 = false;
  x_live i : i ∈ correct → any_ends (w_out w i).*1 = false;
  x_early : forallb (λ '(_, tm), early (message tm)) (w_sent w) = true;
}.
Lemma final_read_off (o : option demo_world) :
  read_off <$> o = Some (replicate 3 ([first_batch; second_batch], false, false), true) → ∃ w, o = Some w ∧ expected w.
Proof.
  destruct o as [w|]; [|done]. intros Ho. apply (inj Some), pair_equal_spec in Ho as [Ho He].
  exists w. split; [done|]. split; [..|done]; intros i Hi; apply (hb_demo.hb_three _ _ Ho) in Hi;
    injection Hi as H1 H2 H3; done.
Qed.
Lemma final_expected : ∃ w, final = Some w ∧ expected w.
Proof. apply final_read_off. vm_compute. reflexivity. Qed.

Abbreviation dleft := (epochs_left (C := bytes) (ord := nat_ord_key) (crypto := number_crypto) correct).
Abbreviation doverflown := (overflown (C := bytes) (ord := nat_ord_key) (crypto := number_crypto) correct 0 0).
Abbreviation dcollided := (collided (C := bytes) (ord := nat_ord_key) (crypto := number_crypto) four_keys correct
  hb_demo.hb_keys four_netinfo 0 0 honey_badger.params_default).
Lemma two_in_range (l : list (Bat * (State * nat * bool))) : summary <$> l.*1 = [first_batch; second_batch] →
  ¬ ((2 ^ 64 ≤ position 0 0 0 (length l))%Z ∨ ∃ b, b ∈ l.*1 ∧ ¬ in_range b).
Proof.
  intros Hl [Hx|(b & Hb & Hr)].
  - apply (f_equal length) in Hl. rewrite !length_fmap in Hl. rewrite Hl in Hx.
    unfold position, e_start in Hx. rewrite decide_True in Hx by done. cbn in Hx. lia.
  - apply (list_elem_of_fmap_2 summary) in Hb. rewrite Hl in Hb. destruct Hr. unfold in_range.
    apply elem_of_cons in Hb as [Hb|Hb%list_elem_of_singleton]; injection Hb as -> -> _ _; lia.
Qed.
Lemma final_ok w : expected w → dleft w ∧ ¬ doverflown w.
Proof.
  intros [Hout _ _ Hall]. split.
  - intros e k tg c p e' _ Hin. rewrite forallb_forall in Hall. specialize (Hall _ (proj1 (list_elem_of_In _ _) Hin)).
    by apply bool_decide_eq_true in Hall.
  - intros (i & Hi & Hov). exact (two_in_range _ (Hout i Hi) Hov).
Qed.
Lemma batch_lookup w i n : expected w → i ∈ correct → n < 2 → ∃ b, in_charge (w_out w i).*1 !! n = Some b ∧
  [first_batch; second_batch] !! n = Some (summary b).
Proof.
  intros Hx Hi Hn. pose proof (x_outs w Hx i Hi) as Ho. rewrite (in_charge_all _ (x_live w Hx i Hi)). apply (fmap_lookup _ _ _ _ Ho). exact Hn.
Qed.
Lemma demo_nis (i : nat) (e : Z) : i ∈ correct → hb_net.keys_ok (crypto := number_crypto) (ord := nat_ord_key) four_keys hb_demo.hb_keys e i (four_netinfo i).
Proof. intros Hi. apply hb_demo.hb_keys_ok. unfold hb_demo.hb_correct in Hi. set_solver by lia. Qed.

Lemma demo_zero : (0 ≤ 0)%Z.
Proof. done. Qed.
Lemma demo_max : (0 ≤ honey_badger.max_future_epochs honey_badger.params_default)%Z.
Proof. done. Qed.
Lemma demo_usable : honey_badger.use_on_epoch (honey_badger.encryption_schedule honey_badger.params_default) 0 ≠ None.
Proof. done. Qed.

Lemma dhb_agreement_witness : ∃ (w : demo_world) b b', in_charge (w_out w 0).*1 !! 1 = Some b ∧ summary b = second_batch ∧
  ((same_batch b b' ∧ batch_epoch b = 1%Z) ∨ dcollided w).
Proof.
  destruct final_expected as (w & Hw & Hx). destruct hb_demo.hb_correct_in as (H0 & _ & H2). exists w.
  destruct (final_ok w Hx) as [Hl Hov].
  destruct (batch_lookup w 0 1 Hx H0) as (b & Hb & Hs); [lia|]. destruct (batch_lookup w 2 1 Hx H2) as (b' & Hb' & _); [lia|]. exists b, b'.
  split; [exact Hb|]. split; [exact (eq_sym (inj Some second_batch _ Hs))|].
  exact (dhb_agreement (C := bytes) (ord := nat_ord_key) (crypto := number_crypto) four_keys correct hb_demo.hb_keys four_netinfo 0 0 honey_badger.params_default
    (proj1 hb_demo.hb_byz) (proj2 hb_demo.hb_byz) hb_demo.demo_ser dhb_demo.ser_key_gen dhb_demo.ser_nat dhb_demo.ser_nat
    demo_zero demo_zero demo_max demo_nis w 0 2 1 b b' (final_reachable w Hw) (x_sound w Hx) Hl Hov H0 H2 Hb Hb').
Defined.

Abbreviation dview := (era_view (C := bytes) (ord := nat_ord_key) (crypto := number_crypto) four_keys correct hb_demo.hb_keys 0 0).
Lemma dhb_refines_witness : ∃ w : demo_world, any_ends (w_out w 2).*1 = false ∧
  ((∃ hw, dview (era (w_node w 2).1.1) (honey_badger.params (hb (w_node w 2).1.1)) w hw ∧
    length (w_out hw 2) = length (filter (λ e, e = era (w_node w 2).1.1) (batch_era <$> (w_out w 2).*1))) ∨ dcollided w).
Proof.
  destruct final_expected as (w & Hw & Hx). destruct hb_demo.hb_correct_in as (_ & _ & H2). exists w.
  destruct (final_ok w Hx) as [Hl Hov]. split; [exact (x_live w Hx 2 H2)|].
  exact (dhb_refines (C := bytes) (ord := nat_ord_key) (crypto := number_crypto) four_keys correct hb_demo.hb_keys four_netinfo 0 0 honey_badger.params_default
    (proj1 hb_demo.hb_byz) (proj2 hb_demo.hb_byz) hb_demo.demo_ser dhb_demo.ser_key_gen dhb_demo.ser_nat dhb_demo.ser_nat
    demo_zero demo_zero demo_max demo_nis demo_usable w 2 (final_reachable w Hw) (x_sound w Hx) Hl Hov H2 (x_live w Hx 2 H2)).
Defined.
End dhb_net_demo.
