(* ===== verification/QueueingHoneyBadger.v ===== *)
(** * Queueing Honey Badger

    Models [src/transaction_queue.rs] (the interface and its implementation for vectors)
    and [src/queueing_honey_badger/mod.rs].  The loop of [propose] repeats as long as the
    inner algorithm accepts input, so its bound is an argument, [fuel], of every method
    that proposes.  [rand]'s random choice from a slice is a parameter. *)
From S2P Require Import Prelude.
From S2P Require Import BTree.
From S2P Require Import Traits.
From S2P Require Import NetworkInfo.
From S2P Require Import Merkle.
From S2P Require Import Broadcast.
From S2P Require Import BinaryAgreement.
From S2P Require Import Subset.
From S2P Require Import HoneyBadger.
From S2P Require Import SyncKeyGen.
From S2P Require Import DhbTypes.
From S2P Require Import Votes.
From S2P Require Import DynamicHoneyBadger.

(** ** Transaction queues *)
Class TransactionQueue (T Q R : Type) := {
  tq_default : Q;
  tq_extend : list T → Q → Q;
  tq_is_empty : Q → bool;
  (** [amount] transactions, chosen from the first [batch_size] *)
  tq_choose : R → nat → nat → Q → list T * R;
  tq_remove_multiple : list T → Q → Q;
}.

(** [slice.choose_multiple(rng, amount)] *)
Class SliceRandom (T R : Type) := { choose_multiple : R → list T → nat → list T * R }.

Module transaction_queue.
Section vec.
Context {T R : Type} `{EqDecision T} `{SliceRandom T R}.

Definition is_empty (q : list T) : bool := match q with [] => true | _ => false end.
Definition remove_multiple (txs : list T) (q : list T) : list T := filter (λ tx, tx ∉ txs) q.
Definition choose (rng : R) (amount batch_size : nat) (q : list T) : list T * R :=
  let limit := batch_size `min` length q in
  choose_multiple rng (take limit q) amount.
#[global] Instance vec_queue : TransactionQueue T (list T) R := {|
  tq_default := [];
  tq_extend txs q := q ++ txs;
  tq_is_empty := is_empty;
  tq_choose := choose;
  tq_remove_multiple := remove_multiple;
|}.
End vec.
End transaction_queue.

Module queueing_honey_badger.
Import dhb.

Inductive Error `{Crypto} : Type :=
  | InputError (e : dhb.Error)
  | HandleMessage (e : dhb.Error)
  | Propose (e : dhb.Error)
  | NewJoining (e : dhb.Error).

Record QueueingHoneyBadger {N Q : Type} `{NodeIdT N, PolyLib, ReedSolomonLib} : Type := mkQHB {
  batch_size : nat;
  dyn_hb : dynamic_honey_badger.DynamicHoneyBadger N;
  queue : Q;
}.
Arguments QueueingHoneyBadger N Q {_ _ _ _}.
#[global] Instance QueueingHoneyBadger_settable {N Q} `{NodeIdT N, PolyLib, ReedSolomonLib} :
    Settable (QueueingHoneyBadger N Q) := λ s,
  mkQHB _ _ _ _ _ _ (batch_size s) (dyn_hb s) (queue s).

Record QueueingHoneyBadgerBuilder {T N Q : Type} `{NodeIdT N, PolyLib, ReedSolomonLib} : Type :=
  mkBuilder {
  b_dyn_hb : dynamic_honey_badger.DynamicHoneyBadger N;
  b_batch_size : nat;
  b_queue : Q;
  b_step : option (Step (dynamic_honey_badger.Message N)
                        (dynamic_honey_badger.Batch (list T) N) N FaultKind);
}.
Arguments QueueingHoneyBadgerBuilder T N Q {_ _ _ _}.
#[global] Instance QueueingHoneyBadgerBuilder_settable {T N Q} `{NodeIdT N, PolyLib, ReedSolomonLib} :
    Settable (QueueingHoneyBadgerBuilder T N Q) := λ b,
  mkBuilder _ _ _ _ _ _ _ (b_dyn_hb b) (b_batch_size b) (b_queue b) (b_step b).

Section qhb.
Context {T N Q : Type} `{ord : NodeIdT N} `{crypto : Crypto} `{pl : !PolyLib} `{sha : Sha3}
  `{rse : ReedSolomonLib} `{bo : ByteOrder}
  `{sid : !SessionIdT (subset.BaSessionId honey_badger.EpochId)}
  `{bin_ct : !Bincode Ciphertext} `{bin_vote : !Bincode (votes.Vote N)}
  `{bin_poly : !Bincode Poly} `{bin_fr : !Bincode Fr}
  `{bin_kg : !Bincode dynamic_honey_badger.KeyGenMessage}
  `{bin_c : !Bincode (dynamic_honey_badger.InternalContrib (list T) N)}
  `{tq : !TransactionQueue T Q Rng}.
Context (fuel : nat).
Abbreviation State := (QueueingHoneyBadger N Q).
Abbreviation QStep :=
  (Step (dynamic_honey_badger.Message N) (dynamic_honey_badger.Batch (list T) N) N FaultKind).
Abbreviation DM := (M (dynamic_honey_badger.DynamicHoneyBadger N) dhb.Error).
Abbreviation QM := (M State Error).

Definition our_id (s : State) : N := dynamic_honey_badger.our_id (dyn_hb s).
Definition next_epoch (s : State) : u64 := dynamic_honey_badger.next_epoch (dyn_hb s).

Definition on_dyn_hb {A} (f : dhb.Error → Error) (m : DM A) : QM A :=
  zoom dyn_hb (λ d s, s <| dyn_hb := d |>) (map_err f m).

Definition can_propose (s : State) : bool :=
  if dynamic_honey_badger.has_input (dyn_hb s) then false
  else negb (tq_is_empty (queue s)) || dynamic_honey_badger.should_propose (dyn_hb s).

(** The loop of [propose], with the step so far *)
Fixpoint propose_loop (fuel : nat) (step : QStep) (rng : Rng) : QM (QStep * Rng) :=
  s ← get;
  if can_propose s then
    match fuel with
    | 0 => no_fuel
    | S fuel =>
        let amount := 1 `max` (batch_size s `div` num_nodes (dynamic_honey_badger.netinfo (dyn_hb s))) in
        let '(proposal, rng) := tq_choose rng amount (batch_size s) (queue s) in
        '(step', rng) ← on_dyn_hb Propose
          (dynamic_honey_badger.handle_input (dynamic_honey_badger.User proposal) rng);
        propose_loop fuel (step_extend step step') rng
    end
  else mret (step, rng).
Definition propose (rng : Rng) : QM (QStep * Rng) := propose_loop fuel step_default rng.

(** [apply]: a method of the inner algorithm, removal of the transactions it has output,
    and a proposal. *)
Definition apply (f : Rng → DM (QStep * Rng)) (rng : Rng) : QM (QStep * Rng) :=
  '(step, rng) ← on_dyn_hb InputError (f rng);
  modify (λ s, s <| queue ::=
    tq_remove_multiple (concat (dynamic_honey_badger.batch_iter <$> output step)) |>);;
  '(step', rng) ← propose rng;
  mret (step_join step step', rng).

Definition push_transaction (tx : T) (rng : Rng) : QM (QStep * Rng) :=
  modify (λ s, s <| queue ::= tq_extend [tx] |>);;
  propose rng.

Definition vote_for (change : Change N) (rng : Rng) : QM (QStep * Rng) :=
  apply (λ rng, step ← dynamic_honey_badger.vote_for change; mret (step, rng)) rng.
Definition vote_to_add (node_id : N) (pub_key : PublicKey) (rng : Rng) : QM (QStep * Rng) :=
  apply (λ rng, step ← dynamic_honey_badger.vote_to_add node_id pub_key; mret (step, rng)) rng.
Definition vote_to_remove (node_id : N) (rng : Rng) : QM (QStep * Rng) :=
  apply (λ rng, step ← dynamic_honey_badger.vote_to_remove node_id; mret (step, rng)) rng.

Definition handle_message (sender_id : N) (message : dynamic_honey_badger.Message N) (rng : Rng) :
    QM (QStep * Rng) :=
  apply (dynamic_honey_badger.handle_message sender_id message) rng.

Definition handle_input (input : dynamic_honey_badger.Input T N) (rng : Rng) : QM (QStep * Rng) :=
  match input with
  | dynamic_honey_badger.User tx => push_transaction tx rng
  | dynamic_honey_badger.InputChange change => vote_for change rng
  end.

(** ** The builder *)
Abbreviation Builder := (QueueingHoneyBadgerBuilder T N Q).

Definition builder (dyn_hb : dynamic_honey_badger.DynamicHoneyBadger N) : Builder :=
  mkBuilder _ _ _ _ _ _ _ dyn_hb 100 (tq_default (T := T) (R := Rng)) None.
Definition set_step (step : QStep) (b : Builder) : Builder := b <| b_step := Some step |>.
Definition set_batch_size (n : nat) (b : Builder) : Builder := b <| b_batch_size := n |>.
Definition set_queue (q : Q) (b : Builder) : Builder := b <| b_queue := q |>.

(** The new instance is the state of the outcome. *)
Definition build_with_transactions (txs : list T) (rng : Rng) (b : Builder) :
    outcome State Error (QStep * Rng) :=
  let qhb := mkQHB _ _ _ _ _ _ (b_batch_size b) (b_dyn_hb b)
    (tq_extend (R := Rng) txs (b_queue b)) in
  ('(step, rng) ← propose rng;
   mret (match b_step b with Some dhb_step => step_extend step dhb_step | None => step end, rng))
  qhb.
Definition build (rng : Rng) (b : Builder) : outcome State Error (QStep * Rng) :=
  build_with_transactions [] rng b.

Definition builder_joining (our_id : N) (secret_key : SecretKey)
    (jp : dynamic_honey_badger.JoinPlan N) (rng : Rng) :
    outcome (dynamic_honey_badger.DynamicHoneyBadger N) Error (Builder * Rng) :=
  match dynamic_honey_badger.new_joining our_id secret_key jp rng with
  | Ok dhb (step, rng) => Ok dhb (set_step step (builder dhb), rng)
  | Err dhb e => Err dhb (NewJoining e)
  | Panic => Panic
  | NoFuel => NoFuel
  end.
End qhb.
End queueing_honey_badger.
