(* ===== verification/QhbFacts.v ===== *)
(** * Queueing Honey Badger: the transaction queue

    What a call leaves in the queue, that it proposes as long as it can, and of which calls of
    Dynamic Honey Badger it consists, for the queue [Vec<T>]. *)
From S2P Require Import Prelude.
From S2P Require Import BTree.
From S2P Require Import Traits.
From S2P Require Import NetworkInfo.
From S2P Require Import Merkle.
From S2P Require Import Broadcast.
From S2P Require Import BinaryAgreement.
From S2P Require Import ThresholdDecrypt.
From S2P Require Import Subset.
From S2P Require Import HoneyBadger.
From S2P Require Import SyncKeyGen.
From S2P Require Import DhbTypes.
From S2P Require Import Votes.
From S2P Require Import DynamicHoneyBadger.
From S2P Require Import QueueingHoneyBadger.
From S2P Require Import Instances.

Module qhb_facts.
Import dhb.
Import queueing_honey_badger.

(** [choose_multiple] takes elements of the slice, at most as many as it is asked for. *)
Class SliceRandomLaws (A R : Type) `{SliceRandom A R} := {
  choose_multiple_in (r : R) (l : list A) n x : x ∈ (choose_multiple r l n).1 → x ∈ l;
  choose_multiple_length (r : R) (l : list A) n : length (choose_multiple r l n).1 ≤ n;
}.

Section facts.
Context {T N : Type} `{EqDecision T} `{ord : NodeIdT N} `{crypto : Crypto} `{pl : !PolyLib} `{sha : Sha3}
  `{rse : ReedSolomonLib} `{bo : ByteOrder}
  `{sid : !SessionIdT (subset.BaSessionId honey_badger.EpochId)}
  `{bin_ct : !Bincode Ciphertext} `{bin_vote : !Bincode (votes.Vote N)}
  `{bin_poly : !Bincode Poly} `{bin_fr : !Bincode Fr}
  `{bin_kg : !Bincode dynamic_honey_badger.KeyGenMessage}
  `{bin_c : !Bincode (dynamic_honey_badger.InternalContrib (list T) N)} `{rand : !SliceRandom T Rng}.
Abbreviation State := (QueueingHoneyBadger N (list T)).
Abbreviation QStep :=
  (Step (dynamic_honey_badger.Message N) (dynamic_honey_badger.Batch (list T) N) N FaultKind).
Abbreviation DM := (M (dynamic_honey_badger.DynamicHoneyBadger N) dhb.Error).
Implicit Types (s : State) (x : QStep) (r : Rng).

(** The transactions in the batches of a step *)
Definition delivered x : list T := concat (dynamic_honey_badger.batch_iter <$> output x).

(** The loop ends when the node cannot propose any more, and does not touch the queue. *)
Lemma propose_loop_after (n : nat) x r s :
  after (propose_loop n x r) s (λ s' y, queue s' = queue s ∧ can_propose s' = false ∧
    ∃ x2, y.1 = step_extend x x2) (λ s', queue s' = queue s).
Proof.
  revert x r s. induction n as [|n IH]; intros x r s; cbn [propose_loop]; apply after_bind; cbn.
  all: destruct (can_propose s) eqn:Hc.
  2,4: split_and!; [done..|]; exists step_default; exact (eq_sym (step_join_default_r x)).
  - done.
  - match goal with |- context [let '(_, _) := ?y in _] => destruct y as [proposal r1] end. apply after_bind. unfold after at 1, on_dyn_hb, zoom.
    destruct (map_err _ _ (dyn_hb s)) as [d [x1 r2]|d e| |]; try done.
    eapply after_mono; [apply IH| |done]. intros s' [y r3] (Hq & Hc' & x2 & Hx). split_and!; [done..|].
    exists (step_extend x1 x2). cbn in *. rewrite Hx. exact (eq_sym (step_join_assoc x x1 x2)).
Qed.

(** The bound of the loop is only that: more of it changes no result. *)
Lemma propose_loop_fuel (n k : nat) x r s :
  propose_loop n x r s ≠ NoFuel → propose_loop (n + k) x r s = propose_loop n x r s.
Proof.
  revert x r s. induction n as [|n IH]; intros x r s; cbn [propose_loop Nat.add]; unfold mbind, M_bind, get.
  - destruct k; cbn [propose_loop]; unfold mbind, M_bind, get; by destruct (can_propose s).
  - destruct (can_propose s); [|done]. case_match.
    destruct (on_dyn_hb _ _ s) as [s' [x' r2]| | |]; [|done..]. apply IH.
Qed.

(** The public calls *)
Inductive qhb_call : Type :=
  | PushTransaction (tx : T)
  | VoteFor (change : Change N)
  | VoteToAdd (node_id : N) (pub_key : PublicKey)
  | VoteToRemove (node_id : N)
  | HandleMessage (sender_id : N) (msg : dynamic_honey_badger.Message N).
Definition run_call (n : nat) (c : qhb_call) (r : Rng) : M State Error (QStep * Rng) :=
  match c with
  | PushTransaction tx => push_transaction n tx r
  | VoteFor change => vote_for n change r
  | VoteToAdd node_id pub_key => vote_to_add n node_id pub_key r
  | VoteToRemove node_id => vote_to_remove n node_id r
  | HandleMessage sender_id msg => handle_message n sender_id msg r
  end.
Definition pushed (c : qhb_call) : list T := match c with PushTransaction tx => [tx] | _ => [] end.

Lemma remove_nothing (l : list T) : filter (λ tx, tx ∉ []) l = l.
Proof.
  induction l as [|tx l IH]; [done|]. rewrite filter_cons, IH. apply decide_True, not_elem_of_nil.
Qed.

Lemma apply_after (n : nat) f r s :
  after (apply n f r) s (λ s' y, can_propose s' = false ∧
      ∃ l, l `prefix_of` delivered y.1 ∧ queue s' = filter (λ tx, tx ∉ l) (queue s))
    (λ s', ∃ l : list T, queue s' = filter (λ tx, tx ∉ l) (queue s)).
Proof.
  pose proof (remove_nothing (queue s)) as Hnil. unfold apply. apply after_bind. unfold after at 1, on_dyn_hb, zoom, map_err.
  destruct (f r (dyn_hb s)) as [d [x1 r1]|d e| |]; try done; [|cbn; exists []; exact (eq_sym Hnil)].
  apply after_bind. cbn. apply after_bind. eapply after_mono; [apply propose_loop_after| |].
  - intros s' [y r2] (Hq & Hc & x2 & Hy). cbn in *. split; [done|]. exists (delivered x1). split; [|done].
    unfold delivered. cbn. rewrite fmap_app, concat_app. apply prefix_app_r. done.
  - intros s' Hq. by exists (delivered x1).
Qed.

(** C21: The queue: a call that returns leaves the node with nothing to propose, the transaction it
    was given is queued, and a transaction leaves the queue only if a batch that the call
    has output contains it; the others keep their order. *)
Theorem queue_keeps_transactions (n : nat) c r s :
  match run_call n c r s with
  | Ok s' (x, _) => can_propose s' = false ∧
      ∃ l, l `prefix_of` delivered x ∧ queue s' = filter (λ tx, tx ∉ l) (queue s ++ pushed c)
  | Err s' _ => ∃ l : list T, queue s' = filter (λ tx, tx ∉ l) (queue s ++ pushed c)
  | Panic | NoFuel => True
  end.
Proof.
  assert (Ha : after (run_call n c r) s (λ s' y, can_propose s' = false ∧
      ∃ l, l `prefix_of` delivered y.1 ∧ queue s' = filter (λ tx, tx ∉ l) (queue s ++ pushed c))
    (λ s', ∃ l : list T, queue s' = filter (λ tx, tx ∉ l) (queue s ++ pushed c))).
  { destruct c as [tx| | | |]; cbn [run_call pushed]; rewrite ?app_nil_r; try apply apply_after.
    pose proof (remove_nothing (queue s ++ [tx])) as Hnil. unfold push_transaction. apply after_bind. cbn. eapply after_mono; [apply propose_loop_after| |].
    - intros s' y (Hq & Hc & x2 & Hy). split; [done|]. exists []. rewrite Hnil. split; [apply prefix_nil|done].
    - intros s' Hq. exists []. by rewrite Hnil. }
  unfold after in Ha. by destruct (run_call n c r s) as [s' [x r']| | |].
Qed.
(** ** The calls of Dynamic Honey Badger that a call consists of *)

Context `{rand_laws : !SliceRandomLaws T Rng}.

Abbreviation Dhb := (dynamic_honey_badger.DynamicHoneyBadger N).
Implicit Types (d : Dhb) (txs : list T).
(** A proposal as the code picks it from the queue [q] with the batch size [size]: of the
    first [size] transactions, at most the node's share of a batch, and at least one *)
Definition picked (size : nat) (q : list T) d txs : Prop :=
  (∀ tx, tx ∈ txs → tx ∈ take size q) ∧ length txs ≤ 1 `max` (size `div` num_nodes (dynamic_honey_badger.netinfo d)).
(** Proposals in a row, each by a node that has not proposed in its epoch and with random
    numbers of its own, and the step that they amount to *)
Inductive proposals (size : nat) (q : list T) : Dhb → Rng → list (list T * Rng) → Dhb → Rng → QStep → Prop :=
  | no_proposal d r : proposals size q d r [] d r step_default
  | proposal d r0 txs r d1 x1 r1 l d2 r2 x2 : picked size q d txs → dynamic_honey_badger.has_input d = false →
      dynamic_honey_badger.handle_input (dynamic_honey_badger.User txs) r d = Ok d1 (x1, r1) →
      proposals size q d1 r1 l d2 r2 x2 → proposals size q d r0 ((txs, r) :: l) d2 r2 (step_extend x1 x2).

Lemma choose_picked r s : picked (batch_size s) (queue s) (dyn_hb s)
  (tq_choose r (1 `max` (batch_size s `div` num_nodes (dynamic_honey_badger.netinfo (dyn_hb s)))) (batch_size s) (queue s)).1.
Proof.
  split; [|apply choose_multiple_length]. intros tx Hin%choose_multiple_in.
  destruct (Nat.min_spec (batch_size s) (length (queue s))) as [[_ Hm]|[Hle Hm]]; rewrite Hm in Hin; [done|]. by rewrite take_ge in Hin |- * by lia.
Qed.

Lemma propose_loop_proposals (n : nat) x r s :
  match propose_loop n x r s with
  | Ok s' (y, r') => ∃ l x2, proposals (batch_size s) (queue s) (dyn_hb s) r l (dyn_hb s') r' x2 ∧ y = step_extend x x2
  | Err s' e => ∃ l d2 r2 x2 txs r3 e2, proposals (batch_size s) (queue s) (dyn_hb s) r l d2 r2 x2 ∧
      dynamic_honey_badger.handle_input (dynamic_honey_badger.User txs) r3 d2 = Err (dyn_hb s') e2 ∧ e = Propose e2
  | Panic | NoFuel => True
  end.
Proof.
  revert x r s. induction n as [|n IH]; intros x r s; cbn [propose_loop]; unfold mbind, M_bind, get.
  all: destruct (can_propose s) eqn:Hc; [|exists [], step_default; split; [constructor|exact (eq_sym (step_join_default_r x))]].
  { done. }
  assert (Hin : dynamic_honey_badger.has_input (dyn_hb s) = false).
  { unfold can_propose in Hc. by destruct (dynamic_honey_badger.has_input (dyn_hb s)). }
  pose proof (choose_picked r s) as Hp. destruct (tq_choose r _ _ _) as [txs r1]. cbn [fst] in Hp.
  unfold on_dyn_hb, zoom, map_err. destruct (dynamic_honey_badger.handle_input _ r1 (dyn_hb s)) as [d1 [x1 r2]|d1 e1| |] eqn:Hd; [|by eexists [], _, _, _, _, _, _; split; [constructor|]|done..].
  specialize (IH (step_extend x x1) r2 (s <| dyn_hb := d1 |>)). destruct (propose_loop n _ _ _) as [s' [y r3]|s' e| |]; [| |done..]; cbn in IH.
  - destruct IH as (l & x2 & Hl & ->). exists ((txs, r1) :: l), (step_extend x1 x2). split; [by econstructor|exact (eq_sym (step_join_assoc x x1 x2))].
  - destruct IH as (l & d2 & r4 & x2 & txs2 & r5 & e2 & Hl & Hd2 & ->). exists ((txs, r1) :: l), d2, r4, (step_extend x1 x2), txs2, r5, e2.
    split; [by econstructor|done].
Qed.

(** The call of the inner algorithm with which a call starts *)
Definition inner_call (c : qhb_call) (r : Rng) : DM (QStep * Rng) :=
  match c with
  | PushTransaction _ => mret (step_default, r)
  | VoteFor change => step ← dynamic_honey_badger.vote_for change; mret (step, r)
  | VoteToAdd node_id pub_key => step ← dynamic_honey_badger.vote_to_add node_id pub_key; mret (step, r)
  | VoteToRemove node_id => step ← dynamic_honey_badger.vote_to_remove node_id; mret (step, r)
  | HandleMessage sender_id msg => dynamic_honey_badger.handle_message sender_id msg r
  end.

Definition refines_inner (inner : outcome Dhb dhb.Error (QStep * Rng)) s (o : outcome State Error (QStep * Rng)) : Prop :=
  match o with
  | Ok s' (x, r') => ∃ d1 x1 r1 l x2, inner = Ok d1 (x1, r1) ∧ proposals (batch_size s) (queue s') d1 r1 l (dyn_hb s') r' x2 ∧
      x = step_extend x1 x2
  | Err s' e => (∃ e1, inner = Err (dyn_hb s') e1 ∧ e = InputError e1) ∨
      ∃ d1 x1 r1 l d2 r2 x2 txs r3 e2, inner = Ok d1 (x1, r1) ∧ proposals (batch_size s) (queue s') d1 r1 l d2 r2 x2 ∧
        dynamic_honey_badger.handle_input (dynamic_honey_badger.User txs) r3 d2 = Err (dyn_hb s') e2 ∧ e = Propose e2
  | Panic | NoFuel => True
  end.

Lemma loop_refines inner (n : nat) x r s s0 : inner = Ok (dyn_hb s) (x, r) → batch_size s0 = batch_size s →
  refines_inner inner s0 (('(y, r') ← propose_loop n step_default r; mret (step_join x y, r')) s).
Proof.
  intros -> Hs. unfold mbind, M_bind. pose proof (propose_loop_proposals n step_default r s) as Hp.
  pose proof (propose_loop_after n step_default r s) as Hq. unfold after in Hq.
  destruct (propose_loop n step_default r s) as [s' [y r2]|s' e| |]; [| |done..]; cbn.
  - destruct Hp as (l & x2 & Hl & ->), Hq as (Hq & _). exists (dyn_hb s), x, r, l, x2. rewrite Hs, Hq. by split_and!.
  - destruct Hp as (l & d2 & r2 & x2 & txs & r3 & e2 & Hl & Hd & ->). right. exists (dyn_hb s), x, r, l, d2, r2, x2, txs, r3, e2.
    rewrite Hs, Hq. by split_and!.
Qed.
Lemma apply_refines (n : nat) f r s : refines_inner (f r (dyn_hb s)) s (apply n f r s).
Proof.
  unfold apply, on_dyn_hb, zoom, map_err. unfold mbind at 1, M_bind at 1. destruct (f r (dyn_hb s)) as [d [x r1]|d e| |]; [|by left; exists e|done..].
  unfold mbind at 1, M_bind at 1. cbn. by apply (loop_refines (Ok d (x, r1)) n x r1 (s <| dyn_hb := d |> <| queue ::= _ |>)).
Qed.

Lemma push_refines (n : nat) txs r s : refines_inner (Ok (dyn_hb s) (step_default, r)) s
  ((modify (λ s, s <| queue ::= tq_extend (R := Rng) txs |>);; propose n r) s).
Proof.
  set (s1 := s <| queue ::= tq_extend (R := Rng) txs |>). change ((modify _;; propose n r) s) with (propose_loop n step_default r s1).
  pose proof (loop_refines (Ok (dyn_hb s) (step_default, r)) n step_default r s1 s eq_refl eq_refl) as Hl.
  unfold mbind, M_bind in Hl. destruct (propose_loop n step_default r s1) as [s' [x r']|s' e| |]; [|exact Hl|done..].
  unfold mret, M_ret in Hl. by rewrite step_join_default_l in Hl.
Qed.
Lemma run_call_refines (n : nat) c r s : refines_inner (inner_call c r (dyn_hb s)) s (run_call n c r s).
Proof. destruct c as [tx| | | |]; [apply push_refines|apply apply_refines..]. Qed.

(** C20: Refinement of Dynamic Honey Badger: a call of Queueing Honey Badger that returns is the call
    of the inner algorithm for it, and then proposals, each in an epoch in which the node has
    proposed nothing yet and with at most [max(1, batch_size / N)] of the first [batch_size]
    transactions of the queue; its step is theirs, one after the other.  A call that fails ends
    with the error of one of these calls, and what those before it have sent and output is lost. *)
Theorem qhb_refines (n : nat) c r s : refines_inner (inner_call c r (dyn_hb s)) s (run_call n c r s).
Proof. apply run_call_refines. Qed.
End facts.
End qhb_facts.
