(* ===== verification/QhbLone.v ===== *)
(** * Queueing Honey Badger: a node on its own

    [DynamicHoneyBadgerBuilder::build_first_node] starts a network of one validator.  Its
    proposals are output as batches at once, in the loop of
    [QueueingHoneyBadger::propose], which does not remove their transactions from the
    queue: with a transaction in the queue the loop goes on for ever. *)
From S2P Require Import Prelude.
From S2P Require Import BTree.
From S2P Require Import Traits.
From S2P Require Import NetworkInfo.
From S2P Require Import Merkle.
From S2P Require Import Broadcast.
From S2P Require Import BinaryAgreement.
From S2P Require Import Subset.
From S2P Require Import SubsetDemo.
From S2P Require Import HoneyBadger.
From S2P Require Import SyncKeyGen.
From S2P Require Import DhbTypes.
From S2P Require Import Votes.
From S2P Require Import DynamicHoneyBadger.
From S2P Require Import DhbDemo.
From S2P Require Import QueueingHoneyBadger.
From S2P Require Import QhbFacts.
From S2P Require Import Instances.

Module qhb_lone.
Import dhb.
Import queueing_honey_badger.

(** A proposal that is decided at once: the node moves to the next epoch. *)
Module at_once.
Section at_once.
Import honey_badger.
Context {C N : Type} `{ord : NodeIdT N} `{crypto : Crypto} `{sha : Sha3}
  `{rse : ReedSolomonLib} `{bo : ByteOrder} `{sid : !SessionIdT (subset.BaSessionId honey_badger.EpochId)}
  `{bin_c : !Bincode C} `{bin_ct : !Bincode Ciphertext}.

Lemma propose_at_once proposal rng (s : HoneyBadger N) es es' x r' (b : Batch C N) fl require :
  epochs s = ∅ → is_validator (netinfo s) = true → use_on_epoch (encryption_schedule (params s)) (epoch s) = Some require →
  epoch_state_new (netinfo s) (session_id s) (epoch s) (subset_handling_strategy (params s)) require = inr es →
  es_propose proposal rng es = Ok es' (x, r') → try_output_batch es' = Some (b, fl) →
  propose proposal rng s =
    Ok (s <| epoch := u64_add (epoch s) 1 |> <| has_input_flag := false |>) (step_join x (mkStep [b] fl []), r').
Proof.
  intros He Hv Hreq Hnew Hprop Hout. destruct s as [ni sess e flag eps p]. cbn in *. subst eps.
  unfold propose, on_epoch, mbind, M_bind, get, modify. cbn. rewrite Hv. cbn. rewrite lookup_empty, Hreq. cbn.
  rewrite Hnew. unfold zoom. cbn. rewrite Hprop. cbn.
  unfold try_output_batches. cbn. rewrite map_size_insert, lookup_empty, map_size_empty. cbn.
  unfold mbind, M_bind, get, modify, update_epoch. cbn. rewrite lookup_insert_eq. cbn. rewrite Hout. cbn. 
  unfold mbind, M_bind, modify. cbn. rewrite delete_insert_id by apply lookup_empty. unfold get. cbn. rewrite lookup_empty. cbn.
  unfold mret, M_ret, set_field. cbn. by rewrite delete_insert_id by apply lookup_empty.
Qed.
End at_once.
End at_once.
Import at_once.

(** A call in terms of the calls that it makes, when they succeed *)
Section calls.
Context {T N : Type} `{EqDecision T} `{ord : NodeIdT N} `{crypto : Crypto} `{pl : !PolyLib} `{sha : Sha3}
  `{rse : ReedSolomonLib} `{bo : ByteOrder}
  `{sid : !SessionIdT (subset.BaSessionId honey_badger.EpochId)}
  `{bin_ct : !Bincode Ciphertext} `{bin_vote : !Bincode (votes.Vote N)}
  `{bin_poly : !Bincode Poly} `{bin_fr : !Bincode Fr}
  `{bin_kg : !Bincode dynamic_honey_badger.KeyGenMessage}
  `{bin_c : !Bincode (dynamic_honey_badger.InternalContrib (list T) N)} `{rand : !SliceRandom T Rng}.

Lemma dhb_propose_call (c : list T) rng (d : dynamic_honey_badger.DynamicHoneyBadger N) h x r' :
  honey_badger.propose (dynamic_honey_badger.mkContrib _ _ _ _ _ c
    (filter (λ m, dynamic_honey_badger.skgm_era m = dynamic_honey_badger.era d) (dynamic_honey_badger.key_gen_msg_buffer d))
    (votes.pending_votes (dynamic_honey_badger.vote_counter d))) rng (dynamic_honey_badger.hb d) = Ok h (x, r') →
  dynamic_honey_badger.handle_input (dynamic_honey_badger.User c) rng d =
    dynamic_honey_badger.process_output x r' (d <| dynamic_honey_badger.hb := h |>).
Proof.
  intros Hp. cbn [dynamic_honey_badger.handle_input]. unfold dynamic_honey_badger.propose, dynamic_honey_badger.on_hb, zoom, map_err, mbind, M_bind, get.
  by rewrite Hp.
Qed.

Lemma propose_loop_call n (x : Step (dynamic_honey_badger.Message N) (dynamic_honey_badger.Batch (list T) N) N FaultKind)
    rng (s : QueueingHoneyBadger N (list T)) c r1 d x' r' :
  can_propose s = true →
  tq_choose rng (1 `max` (batch_size s `div` num_nodes (dynamic_honey_badger.netinfo (dyn_hb s)))) (batch_size s) (queue s) = (c, r1) →
  dynamic_honey_badger.handle_input (dynamic_honey_badger.User c) r1 (dyn_hb s) = Ok d (x', r') →
  propose_loop (S n) x rng s = propose_loop n (step_extend x x') r' (s <| dyn_hb := d |>).
Proof.
  intros Hc Ht Hi. cbn [propose_loop]. unfold mbind at 1, M_bind, get. rewrite Hc, Ht.
  unfold mbind, M_bind, on_dyn_hb, zoom, map_err. by rewrite Hi.
Qed.
End calls.


#[local] Existing Instance subset_demo.any_session.
#[local] Existing Instance subset_demo.last_byte.
#[local] Existing Instance dhb_demo.constant_poly.
#[local] Existing Instance dhb_demo.bin_nat.
#[local] Existing Instance dhb_demo.bin_vote.
#[local] Existing Instance dhb_demo.bin_key_gen.
(** Transactions are bytes; a contribution without votes and key generation messages is
    serialized, with a mark, as its transactions. *)
#[local] Instance bin_txs : Bincode (dynamic_honey_badger.InternalContrib (list Byte.byte) nat) := {|
  bin_serialize c := Some (dynamic_honey_badger.contrib c);
  bin_deserialize l := Some (dynamic_honey_badger.mkContrib _ _ _ _ _ l [] [])
|}.
#[local] Instance bin_ct : Bincode (@Ciphertext number_crypto) :=
  {| bin_serialize ct := Some (byte_of_Z (Z.of_nat ct.1) :: ct.2);
     bin_deserialize l := match l with b :: m => Some (Z.to_nat (byte_to_Z b), m) | [] => None end |}.
#[local] Instance first_ones : SliceRandom Byte.byte nat := {| choose_multiple rng l n := (take n l, S rng) |}.

Abbreviation Dhb := (@dynamic_honey_badger.DynamicHoneyBadger nat nat_ord_key number_crypto dhb_demo.constant_poly repeat_code).
Abbreviation State := (@QueueingHoneyBadger nat (list Byte.byte) nat_ord_key number_crypto dhb_demo.constant_poly repeat_code).
Abbreviation Contrib := (@dynamic_honey_badger.InternalContrib (list Byte.byte) nat nat_ord_key number_crypto dhb_demo.constant_poly).

(** A node that is a network of its own, in epoch [e] *)
Definition lone_netinfo : NetworkInfo nat :=
  default (four_netinfo 0) (@netinfo_new nat nat_ord_key number_crypto 0 (Some (0, 0)) (0, 0) 1 {[0 := 1]}).
Definition lone_hb (e : u64) : honey_badger.HoneyBadger nat :=
  honey_badger.build (honey_badger.set_epoch e (honey_badger.builder lone_netinfo)).
Definition lone (e : u64) : Dhb :=
  (dynamic_honey_badger.build lone_netinfo dynamic_honey_badger.builder) <| dynamic_honey_badger.hb := lone_hb e |>.

Lemma first_node : dynamic_honey_badger.build_first_node 0 0 dynamic_honey_badger.builder = Some (lone 0, 2).
Proof. vm_cast_no_check (eq_refl (Some (lone 0, 2))). Qed.

(** A proposal is output at once. *)
Definition proposed : Contrib := dynamic_honey_badger.mkContrib _ _ _ _ _ ["t"%byte] [] [].
Definition lone_batch (e : u64) : honey_badger.Batch Contrib nat := honey_badger.mkBatch _ _ _ e {[0 := proposed]}.
Definition first_epoch (e : u64) (r : nat) :
    option (list (honey_badger.Batch Contrib nat) * option (honey_badger.Batch Contrib nat * FaultLog nat honey_badger.FaultKind)) :=
  match honey_badger.epoch_state_new lone_netinfo 0 e honey_badger.Incremental true with
  | inr es =>
      match honey_badger.es_propose proposed r es with
      | Ok es' (x, _) => Some (output x, honey_badger.try_output_batch es')
      | _ => None
      end
  | inl _ => None
  end.

Lemma first_epoch_output e r : first_epoch e r = Some ([], Some (lone_batch e, [])).
Proof. vm_cast_no_check (eq_refl (Some ([] : list (honey_badger.Batch Contrib nat), Some (lone_batch e, [] : FaultLog nat honey_badger.FaultKind)))). Qed.

Lemma lone_propose e r : ∃ x r', honey_badger.propose proposed r (lone_hb e) = Ok (lone_hb (u64_add e 1)) (x, r') ∧
  output x = [lone_batch e].
Proof.
  pose proof (first_epoch_output e r) as H. unfold first_epoch in H.
  destruct (honey_badger.epoch_state_new _ _ _ _ _) as [|es] eqn:Hnew in H; [done|].
  destruct (honey_badger.es_propose proposed r es) as [es' [x r']| | |] eqn:Hprop in H; [|done..].
  injection H as Hx Hout.
  pose proof (propose_at_once proposed r (lone_hb e) es es' x r' (lone_batch e) [] true eq_refl) as Hp.
  rewrite Hp; [|vm_compute; done|done|exact Hnew|exact Hprop|exact Hout].
  eexists _, _. split; [done|]. simpl. by rewrite Hx.
Qed.

(** The batch of a step, whatever its messages and faults, changes nothing but the epoch. *)
Lemma lone_output e e' fl ms r :
  match dynamic_honey_badger.process_output (mkStep [lone_batch e] fl ms) r (lone e') with
  | Ok d _ => Some d
  | _ => None
  end = Some (lone e').
Proof. vm_cast_no_check (eq_refl (Some (lone e'))). Qed.

Lemma lone_call e r : ∃ x r',
  dynamic_honey_badger.handle_input (dynamic_honey_badger.User ["t"%byte]) r (lone e) = Ok (lone (u64_add e 1)) (x, r').
Proof.
  destruct (lone_propose e r) as (x & r1 & Hp & Hx). destruct x as [out fl ms]. cbn in Hx. subst out.
  pose proof (dhb_propose_call ["t"%byte] r (lone e) _ _ _ Hp) as Hd.
  pose proof (lone_output e (u64_add e 1) fl ms r1) as Ho.
  destruct (dynamic_honey_badger.process_output _ r1 (lone (u64_add e 1))) as [d [x r2]| | |] eqn:Hr in Ho; [|done..].
  injection Ho as ->. exists x, r2. exact (eq_trans Hd Hr).
Qed.

Definition lone_qhb (e : u64) : State := mkQHB _ _ _ _ _ _ 100 (lone e) ["t"%byte].

Lemma lone_loop n e x r : propose_loop n x r (lone_qhb e) = NoFuel.
Proof.
  revert e x r. induction n as [|n IH]; intros e x r; [reflexivity|].
  destruct (lone_call e (S r)) as (x' & r' & Hc).
  refine (eq_trans (propose_loop_call n x r (lone_qhb e) ["t"%byte] (S r) (lone (u64_add e 1)) x' r' _ _ Hc)
    (IH (u64_add e 1) (step_extend x x') r')); vm_compute; reflexivity.
Qed.

(** C22: A validator on its own does not get through [build_with_transactions]: with a transaction in
    the queue, the loop of [propose] is not over after any number of rounds. *)
Theorem lone_validator_loops (fuel : nat) rng :
  match dynamic_honey_badger.build_first_node 0 0 dynamic_honey_badger.builder with
  | Some (d, _) => build_with_transactions fuel ["t"%byte] rng (builder d) = NoFuel
  | None => False
  end.
Proof.
  rewrite first_node. unfold build_with_transactions, propose, mbind, M_bind.
  change (propose_loop fuel step_default rng _) with (propose_loop fuel step_default rng (lone_qhb 0)).
  by rewrite lone_loop.
Qed.
(** ** A validator among four *)
#[local] Instance first_ones_laws : qhb_facts.SliceRandomLaws Byte.byte nat.
Proof.
  split; intros r l n; cbn; [intros x Hx|rewrite length_take; lia]. rewrite <- (take_drop n l). apply elem_of_app. by left.
Qed.
Definition one_of_four : State :=
  mkQHB _ _ _ _ _ _ 8 (dynamic_honey_badger.build (four_netinfo 0) dynamic_honey_badger.builder) ["a"%byte; "b"%byte].
Definition returned (o : outcome State Error (Step (dynamic_honey_badger.Message nat) (dynamic_honey_badger.Batch (list Byte.byte) nat) nat FaultKind * nat)) : option bool :=
  match o with Ok s (x, _) => Some (can_propose (T := Byte.byte) s) | _ => None end.

Lemma qhb_refines_witness :
  returned (qhb_facts.run_call 2 (qhb_facts.PushTransaction "c"%byte) 0 one_of_four) = Some false ∧
  qhb_facts.refines_inner (Ok (dyn_hb one_of_four) (step_default, 0)) one_of_four
    (qhb_facts.run_call 2 (qhb_facts.PushTransaction "c"%byte) 0 one_of_four).
Proof.
  split; [vm_cast_no_check (eq_refl (Some false))|].
  exact (qhb_facts.qhb_refines 2 (qhb_facts.PushTransaction "c"%byte) 0 one_of_four).
Defined.
End qhb_lone.
