(* ===== verification/QhbNet.v ===== *)
(** * Queueing Honey Badger in a network

    A network ([Net]) of validators that run [QueueingHoneyBadger] refines the network of
    [DhbNet]: a call is the call of Dynamic Honey Badger for it and its proposals
    ([QhbFacts]), an event each.  So the total order of [DhbNet] holds for the transactions,
    up to the batch in which a change of the validators is complete, in worlds in which no
    correct node has failed to process a batch or to propose ([q_sound]). *)
From S2P Require Import Prelude.
From S2P Require Import BTree.
From S2P Require Import Traits.
From S2P Require Import Net.
From S2P Require Import NetworkInfo.
From S2P Require Import Merkle.
From S2P Require Import Broadcast.
From S2P Require Import ThresholdSign.
From S2P Require Import ThresholdDecrypt.
From S2P Require Import BinaryAgreement.
From S2P Require Import BaAgreement.
From S2P Require Import Subset.
From S2P Require Import SubsetNet.
From S2P Require Import HoneyBadger.
From S2P Require Import HbNet.
From S2P Require Import SyncKeyGen.
From S2P Require Import DhbTypes.
From S2P Require Import Votes.
From S2P Require Import DynamicHoneyBadger.
From S2P Require Import DhbAgreement.
From S2P Require Import DhbRun.
From S2P Require Import DhbNet.
From S2P Require Import QueueingHoneyBadger.
From S2P Require Import QhbFacts.

Module qhb_net.
Import dhb.
Import queueing_honey_badger.
Import dhb_agreement.
Import dhb_run.
Import qhb_facts.

Section net.
Context {T N : Type} `{tx_eq : !EqDecision T} `{ord : NodeIdT N} `{crypto : Crypto} `{pl : !PolyLib} `{sha : Sha3}
  `{rse : ReedSolomonLib} `{bo : ByteOrder}
  `{sid : !SessionIdT (subset.BaSessionId honey_badger.EpochId)}
  `{bin_ct : !Bincode Ciphertext} `{bin_vote : !Bincode (votes.Vote N)}
  `{bin_poly : !Bincode Poly} `{bin_fr : !Bincode Fr}
  `{bin_kg : !Bincode dynamic_honey_badger.KeyGenMessage}
  `{bin_c : !Bincode (dynamic_honey_badger.InternalContrib (list T) N)} `{rand : !SliceRandom T Rng}
  `{rse_laws : !ReedSolomonLaws} `{bo_laws : !ByteOrderLaws} `{sig_laws : !ThresholdSigLaws}
  `{enc_laws : !ThresholdEncLaws} `{share_eq : !EqDecision SignatureShare}
  `{dec_eq : !EqDecision NetworkInfo.DecryptionShare} `{rand_laws : !SliceRandomLaws T Rng}.
Context (fuel : nat).
Abbreviation State := (QueueingHoneyBadger N (list T)).
Abbreviation Dhb := (dynamic_honey_badger.DynamicHoneyBadger N).
Abbreviation Batch := (dynamic_honey_badger.Batch (list T) N).
Abbreviation Message := (dynamic_honey_badger.Message N).
Abbreviation DInput := (dynamic_honey_badger.Input (list T) N).
Abbreviation QStep := (Step Message Batch N FaultKind).
Abbreviation Member := (State * Rng * bool)%type.
Abbreviation DMember := (Dhb * Rng * bool)%type.

(** ** The network *)

(** The inputs of a node: the transactions with which it is built, and its public calls *)
Inductive qhb_input : Type :=
  | Start (txs : list T)
  | Call (input : dynamic_honey_badger.Input T N).
(** What [build_with_transactions] does to the new instance *)
Definition start (txs : list T) (r : Rng) : M State Error (QStep * Rng) :=
  modify (λ s, s <| queue ::= tq_extend (R := Rng) txs |>);; propose fuel r.
Lemma build_starts txs r (b : QueueingHoneyBadgerBuilder T N (list T)) : b_step b = None →
  build_with_transactions fuel txs r b = start txs r (mkQHB _ _ _ _ _ _ (b_batch_size b) (b_dyn_hb b) (b_queue b)).
Proof.
  intros Hb. unfold build_with_transactions, start. rewrite Hb. unfold mbind, M_bind, modify. cbn.
  by destruct (propose fuel r _) as [s [x r']| | |].
Qed.

(** A node with its random numbers; the flag records, for the statements only, that the processing
    of a batch has failed at the node, or a proposal: then what its call has output and sent is
    lost.  Nothing depends on it. *)
Definition q_stops (e : Error) : bool :=
  match e with Propose _ => true | InputError e | queueing_honey_badger.HandleMessage e | NewJoining e => stops e end.
Definition q_member_call (m : Rng → M State Error (QStep * Rng)) : M Member Error QStep := λ '(p, failed),
  match with_rng m p with
  | Ok p' x => Ok (p', failed) x
  | Err p' e => Err (p', failed || q_stops e) e
  | Panic => Panic
  | NoFuel => NoFuel
  end.
Definition input_of (v : qhb_input) : Rng → M State Error (QStep * Rng) :=
  match v with Start txs => start txs | Call x => handle_input fuel x end.
Definition q_input (v : qhb_input) : M Member Error QStep := q_member_call (input_of v).
Definition q_message (j : N) (msg : Message) : M Member Error QStep := q_member_call (handle_message fuel j msg).
Abbreviation QhbWorld := (Net.world N Member qhb_input Message Batch).
Abbreviation DhbWorld := (Net.world N DMember (DInput * Rng) Message Batch).
Abbreviation Inner := (Rng → M Dhb dhb.Error (QStep * Rng)).

Context (pubs : gmap N PublicKey) (correct : gset N) (pks : PublicKeySet) (nis : N → NetworkInfo N).
Context (era0 ep0 : u64) (ps0 : honey_badger.Params).
Implicit Types (w : QhbWorld) (dw : DhbWorld) (i j k : N) (s : State) (d : Dhb) (r : Rng) (x : QStep) (inner : Inner).

(** Nodes with any batch size and queue *)
Definition q_initial w : Prop := w_sent w = [] ∧ ∀ i, i ∈ correct →
  w_input w i = [] ∧ w_out w i = [] ∧
  ∃ size q r, w_node w i = (mkQHB _ _ _ _ _ _ size (dynamic_honey_badger.build (nis i) (dynamic_honey_badger.mkBuilder era0 ep0 ps0)) q, r, false).
Abbreviation q_reachable := (Net.reachable q_input q_message (λ _, true) correct q_initial).
Abbreviation q_allowed := (Net.allowed (I := qhb_input) (λ _, true) correct).
Abbreviation q_exec := (Net.exec q_input q_message).
Abbreviation d_reachable := (Net.reachable dhb_net.dhb_input dhb_net.dhb_message (λ _, true) correct
  (dhb_net.dhb_initial (C := list T) correct nis era0 ep0 ps0)).
Abbreviation d_allowed := (Net.allowed (I := DInput * Rng) (λ _, true) correct).
Abbreviation d_exec := (Net.exec dhb_net.dhb_input dhb_net.dhb_message).
(** No correct node has failed to process a batch or to propose. *)
Definition q_sound w : Prop := ∀ i, i ∈ correct → (w_node w i).2 = false.

(** The network of Dynamic Honey Badger in it *)
Definition inner_node (p : Member) : DMember := (dyn_hb p.1.1, p.1.2, p.2).
Record q_sim w dw : Prop := {
  qs_node i : i ∈ correct → w_node dw i = inner_node (w_node w i);
  qs_sent : w_sent dw = w_sent w;
  qs_out i : i ∈ correct → (w_out dw i).*1 = (w_out w i).*1;
}.

(** ** A call of one node *)
Section call.
Context i dw (Hi : i ∈ correct) (Hdw : d_reachable dw).

(** What the inner algorithm does is an event, or nothing. *)
Definition is_event inner d r : Prop := inner r d = Ok d (step_default, r) ∨
  ∃ ev ins, d_allowed dw ev = true ∧ d_exec dw ev = commit dw i ins (dhb_net.member_call (with_rng inner) (d, r, false)).

Lemma inner_ok inner d r d1 x1 r1 : w_node dw i = (d, r, false) → is_event inner d r → inner r d = Ok d1 (x1, r1) →
  ∃ dw1 ins, d_reachable dw1 ∧ acts dw dw1 i ins (d1, r1, false) x1.
Proof.
  intros Hn [He|(ev & ins & Ha & He)] Hok.
  - rewrite He in Hok. injection Hok as <- <- <-. exists dw, []. split; [done|]. rewrite <- Hn. apply acts_refl.
  - unfold dhb_net.member_call, with_rng in He. rewrite Hok in He. destruct (d_exec dw ev) as [dw1|] eqn:Hex; [|done].
    symmetry in He. exists dw1, ins. split; [by eapply reach_step|]. exact (commit_acts _ _ _ _ _ He).
Qed.
Lemma inner_err inner d r d1 e : is_event inner d r → inner r d = Err d1 e →
  stops e = false → ∃ dw1, d_reachable dw1 ∧ acts (F := FaultKind) dw dw1 i [] (d1, r, false) step_default.
Proof.
  intros [He|(ev & ins & Ha & He)] Herr Hs; [congruence|].
  unfold dhb_net.member_call, with_rng in He. rewrite Herr, Hs in He. destruct (d_exec dw ev) as [dw1|] eqn:Hex; [|done].
  symmetry in He. exists dw1. split; [by eapply reach_step|]. exact (commit_acts _ _ _ _ _ He).
Qed.
End call.

(** Proposals are inputs. *)
Lemma proposals_run i size q d r l d2 r2 x2 : i ∈ correct → proposals size q d r l d2 r2 x2 →
  ∀ dw, d_reachable dw → w_node dw i = (d, r, false) →
  ∃ dw2 ins, d_reachable dw2 ∧ acts dw dw2 i ins (d2, r2, false) x2.
Proof.
  intros Hi. induction 1 as [d r|d r0 txs r d1 x1 r1 l d2 r2 x2 _ _ Hd _ IH]; intros dw Hdw Hn.
  - exists dw, []. split; [done|]. rewrite <- Hn. apply acts_refl.
  - assert (Hex : d_exec dw (Net.Input i (dynamic_honey_badger.User txs, r)) = commit (Er := dhb.Error) dw i [(dynamic_honey_badger.User txs, r)] (Ok (d1, r1, false) x1)).
    { cbn [exec]. rewrite Hn. unfold dhb_net.dhb_input, dhb_net.member_call, dhb_net.input_call, with_rng. cbn [fst snd]. by rewrite Hd. }
    destruct (d_exec dw _) as [dw1|] eqn:Hc in Hex; [|done]. symmetry in Hex. apply commit_acts in Hex.
    destruct (IH dw1) as (dw2 & ins & Hr & Ha); [|by rewrite (a_node _ _ _ _ _ _ Hex)|].
    { eapply reach_step; [exact Hdw| |exact Hc]. by apply allowed_input. }
    exists dw2, ([(dynamic_honey_badger.User txs, r)] ++ ins). split; [done|]. exact (acts_trans _ _ _ _ _ _ _ _ _ _ Hex Ha).
Qed.

(** A call is a sequence of events. *)
Lemma call_run i dw inner s r (o : outcome State Error (QStep * Rng)) q' x : i ∈ correct → d_reachable dw →
  w_node dw i = (dyn_hb s, r, false) → is_event i dw inner (dyn_hb s) r → refines_inner (inner r (dyn_hb s)) s o →
  match o with
  | Ok s' (y, r') => q' = (s', r', false) ∧ x = y
  | Err s' e => q' = (s', r, q_stops e) ∧ x = step_default
  | _ => False
  end → q'.2 = false → ∃ dw' ins, d_reachable dw' ∧ acts dw dw' i ins (inner_node q') x.
Proof.
  intros Hi Hdw Hn Hev Href Ho Hlive. destruct o as [s' [y r']|s' e| |]; [| |done..]; destruct Ho as [-> ->]; cbn in Hlive, Href; unfold inner_node; cbn.
  - destruct Href as (d1 & x1 & r1 & l & x2 & Hok & Hp & ->).
    destruct (inner_ok i dw Hdw inner _ _ _ _ _ Hn Hev Hok) as (dw1 & ins1 & Hr1 & Ha1).
    destruct (proposals_run i _ _ _ _ _ _ _ _ Hi Hp dw1 Hr1) as (dw2 & ins2 & Hr2 & Ha2); [by rewrite (a_node _ _ _ _ _ _ Ha1)|].
    exists dw2, (ins1 ++ ins2). split; [done|]. exact (acts_trans _ _ _ _ _ _ _ _ _ _ Ha1 Ha2).
  - destruct Href as [(e1 & Herr & ->)|(d1 & x1 & r1 & l & d2 & r2 & x2 & txs & r3 & e2 & _ & _ & _ & ->)]; [|done].
    rewrite Hlive. destruct (inner_err i dw Hdw inner _ _ _ _ Hev Herr Hlive) as (dw1 & Hr1 & Ha1). by exists dw1, [].
Qed.

(** ** The network refines that of Dynamic Honey Badger. *)

(** What an event does to a node, if nothing fails *)
Definition member_did w i (inner : Inner) (q' : Member) x : Prop := ∃ s r (o : outcome State Error (QStep * Rng)),
  w_node w i = (s, r, false) ∧ refines_inner (inner r (dyn_hb s)) s o ∧
  (∀ dw, q_sim w dw → is_event i dw inner (dyn_hb s) r) ∧
  match o with
  | Ok s' (y, r') => q' = (s', r', false) ∧ x = y
  | Err s' e => q' = (s', r, q_stops e) ∧ x = step_default
  | _ => False
  end.

Lemma commit_did w w' i ins inner (m : Rng → M State Error (QStep * Rng)) :
  (∀ s r, refines_inner (inner r (dyn_hb s)) s (m r s)) →
  (∀ dw s r, q_sim w dw → w_node w i = (s, r, false) → is_event i dw inner (dyn_hb s) r) →
  commit w i ins (q_member_call m (w_node w i)) = Some w' → (w_node w' i).2 = false →
  ∃ ins' q' x, acts w w' i ins' q' x ∧ q'.2 = false ∧ member_did w i inner q' x.
Proof.
  intros Href Hev Hc%commit_acts Hlive. destruct (w_node w i) as [[s r] g] eqn:Hn. unfold q_member_call, with_rng in Hc.
  specialize (Href s r). destruct (m r s) as [s' [y r']|s' e| |] eqn:Hm; [| |done..].
  all: assert (g = false) as -> by (rewrite (a_node _ _ _ _ _ _ Hc) in Hlive; destruct g; [|done]; cbn in Hlive; congruence).
  all: rewrite (a_node _ _ _ _ _ _ Hc) in Hlive; eexists _, _, _; split; [exact Hc|]; split; [exact Hlive|].
  all: exists s, r; eexists; split; [done|]; split; [exact Href|]; split; [intros dw Hs; by apply Hev|done].
Qed.

Lemma q_exec_did w w' ev : q_allowed w ev = true → q_exec w ev = Some w' → q_sound w' →
  ∃ i ins q' x inner, i ∈ correct ∧ acts w w' i ins q' x ∧ q'.2 = false ∧ member_did w i inner q' x.
Proof.
  intros Ha He Hpart.
  assert (Hnone : ∀ i dw d r, is_event i dw (λ r, mret (step_default, r)) d r) by by left.
  destruct ev as [i v|i j msg]; cbn in He.
  - apply allowed_input in Ha as Hi. exists i. destruct v as [txs|[tx|ch]].
    + destruct (commit_did w w' i [Start txs] (λ r, mret (step_default, r)) (start txs) (λ s r, push_refines fuel txs r s) (λ dw s r _ _, Hnone i dw _ r) He) as (? & ? & ? & ?);
        [by apply Hpart|by eexists _, _, _, _].
    + destruct (commit_did w w' i [Call (dynamic_honey_badger.User tx)] (λ r, mret (step_default, r)) (start [tx]) (λ s r, push_refines fuel [tx] r s) (λ dw s r _ _, Hnone i dw _ r) He) as (? & ? & ? & ?);
        [by apply Hpart|by eexists _, _, _, _].
    + destruct (commit_did w w' i [Call (dynamic_honey_badger.InputChange ch)] (inner_call (VoteFor ch)) (run_call fuel (VoteFor ch)) (λ s r, run_call_refines fuel (VoteFor ch) r s)) as (? & ? & ? & ?); [|exact He| |by eexists _, _, _, _]; [|by apply Hpart].
      intros dw s r Hs Hn. right. exists (Net.Input i (dynamic_honey_badger.InputChange ch, r)), [(dynamic_honey_badger.InputChange ch, r)].
      split; [by apply allowed_input|]. cbn [exec]. rewrite (qs_node _ _ Hs i Hi), Hn. reflexivity.
  - pose proof Ha as (Hi & Hj & _ & Hsent)%allowed_deliver_iff. exists i.
    destruct (commit_did w w' i [] (inner_call (HandleMessage j msg)) (run_call fuel (HandleMessage j msg)) (λ s r, run_call_refines fuel (HandleMessage j msg) r s)) as (? & ? & ? & ?); [|exact He| |by eexists _, _, _, _]; [|by apply Hpart].
    intros dw s r Hs Hn. right. exists (Net.Deliver i j msg), []. split.
    + apply allowed_deliver_iff. by rewrite (qs_sent _ _ Hs).
    + cbn [exec]. rewrite (qs_node _ _ Hs i Hi), Hn. reflexivity.
Qed.

Lemma acts_sim w w' dw dw' i ins ins' q' x : q_sim w dw → acts w w' i ins q' x → acts dw dw' i ins' (inner_node q') x → q_sim w' dw'.
Proof.
  intros [H1 H2 H3] Ha Hb. split.
  - intros k Hk. destruct (decide (k = i)) as [->|Hne]; [by rewrite (a_node _ _ _ _ _ _ Ha), (a_node _ _ _ _ _ _ Hb)|].
    rewrite (a_node_ne _ _ _ _ _ _ Ha k Hne), (a_node_ne _ _ _ _ _ _ Hb k Hne). by apply H1.
  - by rewrite (a_sent _ _ _ _ _ _ Ha), (a_sent _ _ _ _ _ _ Hb), H2.
  - intros k Hk. destruct (decide (k = i)) as [->|Hne].
    + by rewrite (a_out _ _ _ _ _ _ Ha), (a_out _ _ _ _ _ _ Hb), (H3 i Hk).
    + rewrite (a_out_ne _ _ _ _ _ _ Ha k Hne), (a_out_ne _ _ _ _ _ _ Hb k Hne). by apply H3.
Qed.

(** A failure is not forgotten. *)
Lemma left_before w ev w' : q_allowed w ev = true → q_exec w ev = Some w' → q_sound w' → q_sound w.
Proof.
  intros Ha He Hpart i Hi. destruct (q_exec_did w w' ev Ha He Hpart) as (k & ins & q' & x & inner & _ & Hacts & _ & s & r & o & Hn & _).
  destruct (decide (i = k)) as [->|Hne]; [by rewrite Hn|]. rewrite <- (a_node_ne _ _ _ _ _ _ Hacts i Hne). by apply Hpart.
Qed.

Lemma q_sim_exists w : q_reachable w → q_sound w → ∃ dw, d_reachable dw ∧ q_sim w dw.
Proof.
  induction 1 as [w [Hsent Hinit]|w ev w' _ IH Ha He]; intros Hpart.
  - exists (World (λ i, inner_node (w_node w i)) [] (λ _, []) (λ _, [])). split; [apply reach_init; split; [done|]|split; try done].
    + intros i Hi. destruct (Hinit i Hi) as (_ & _ & size & q & r & Hn). split_and!; [done..|]. exists r. cbn. by rewrite Hn.
    + intros i Hi. destruct (Hinit i Hi) as (_ & Hout & _). cbn. by rewrite Hout.
  - destruct (IH (left_before w ev w' Ha He Hpart)) as (dw & Hdw & Hs).
    destruct (q_exec_did w w' ev Ha He Hpart) as (i & ins & q' & x & inner & Hi & Hacts & Hlive & s & r & o & Hn & Href & Hev & Ho).
    destruct (call_run i dw inner s r o q' x Hi Hdw) as (dw' & ins' & Hdw' & Hacts'); [by rewrite (qs_node _ _ Hs i Hi), Hn|by apply Hev|done..|].
    exists dw'. split; [done|]. by eapply acts_sim.
Qed.

(** ** Total order *)
Context (Hcorrect : correct ⊆ dom pubs) (Hbyz : size (dom pubs ∖ correct) ≤ (size pubs - 1) / 3).
Context (Hser : ∀ (id : subset.BaSessionId honey_badger.EpochId) e, is_Some (serialize_coin_id id e)).
Context (Hkg : ∀ m : dynamic_honey_badger.KeyGenMessage, is_Some (bin_serialize m)) (Hpoly : ∀ p : Poly, is_Some (bin_serialize p))
  (Hfr : ∀ y : Fr, is_Some (bin_serialize y)).
Context (Hera0 : (0 ≤ era0)%Z) (Hep0 : (0 ≤ ep0)%Z) (Hmax : (0 ≤ honey_badger.max_future_epochs ps0)%Z).
Context (Hnis : ∀ i e, i ∈ correct → hb_net.keys_ok pubs pks e i (nis i)).

(** The world as one of Dynamic Honey Badger *)
Definition as_dhb w : DhbWorld := World (λ i, inner_node (w_node w i)) (w_sent w) (λ _, []) (λ i, prod_map id inner_node <$> w_out w i).
(** C6: Total order of transactions: in a network of validators with Queueing Honey Badger, of which
    at most [f] are faulty, [3 f < N], whatever their queues and the random choices from them,
    the [n]-th batches that two correct nodes output agree, transactions included, and have the
    epoch [era0 + ep0 + n], up to and including the batch with which a change of the validators
    is complete.  The theorem is about worlds in which no correct node has failed to process a
    batch, nor to propose ([q_sound]): such a failure returns an error and loses batches, and the
    node runs on with a gap.  The other conditions are those for Dynamic Honey Badger. *)
Theorem qhb_agreement w i j n (b b' : Batch) : q_reachable w → q_sound w →
  dhb_net.epochs_left correct (as_dhb w) → ¬ dhb_net.overflown correct era0 ep0 (as_dhb w) →
  i ∈ correct → j ∈ correct → in_charge (w_out w i).*1 !! n = Some b → in_charge (w_out w j).*1 !! n = Some b' →
  (same_batch b b' ∧ dynamic_honey_badger.batch_epoch b = (era0 + ep0 + Z.of_nat n)%Z) ∨
  ∃ dw, q_sim w dw ∧ dhb_net.collided pubs correct pks nis era0 ep0 ps0 dw.
Proof.
  intros Hr Hpart Hl Hov Hi Hj Hb Hb'. destruct (q_sim_exists w Hr Hpart) as (dw & Hdw & Hs).
  rewrite <- (qs_out _ _ Hs i Hi) in Hb. rewrite <- (qs_out _ _ Hs j Hj) in Hb'.
  assert (Hsound : dhb_net.sound correct dw).
  { intros k Hk. rewrite (qs_node _ _ Hs k Hk). by apply Hpart. }
  assert (Hleft : dhb_net.epochs_left correct dw).
  { intros e k tg c p e' Hk. rewrite (qs_sent _ _ Hs). by apply Hl. }
  assert (Hover : ¬ dhb_net.overflown correct era0 ep0 dw).
  { intros (k & Hk & Hlen). apply Hov. exists k. split; [done|].
    assert (Hsame : (w_out (as_dhb w) k).*1 = (w_out w k).*1) by (cbn; rewrite <- list_fmap_compose; by apply list_fmap_ext).
    rewrite Hsame, <- (length_fmap fst (w_out (as_dhb w) k)), Hsame, <- (qs_out _ _ Hs k Hk). by rewrite length_fmap. }
  destruct (dhb_net.era_batches_agree pubs correct pks nis era0 ep0 ps0 Hcorrect Hbyz Hser Hkg Hpoly Hfr Hera0 Hep0 Hmax Hnis
    dw i j n b b' Hdw Hsound Hleft Hover Hi Hj Hb Hb') as [?|?]; [by left|right; by exists dw].
Qed.
End net.
End qhb_net.
