(* ===== verification/QhbNetDemo.v ===== *)
(** * Queueing Honey Badger in a network: an execution

    The four validators of [DhbNetDemo], with queues of transactions, which are bytes; node 3 is
    faulty and silent.  The theorem of [QhbNet] applies. *)
From S2P Require Import Prelude.
From S2P Require Import BTree.
From S2P Require Import Traits.
From S2P Require Import Net.
From S2P Require Import NetworkInfo.
From S2P Require Import Merkle.
From S2P Require Import Broadcast.
From S2P Require Import ThresholdSign.
From S2P Require Import ThresholdDecrypt.
From S2P Require Import BinaryAgreement.
From S2P Require Import BaAgreement.
From S2P Require Import Subset.
From S2P Require Import SubsetDemo.
From S2P Require Import HoneyBadger.
From S2P Require Import HbNet.
From S2P Require Import HbDemo.
From S2P Require Import SyncKeyGen.
From S2P Require Import DhbTypes.
From S2P Require Import Votes.
From S2P Require Import DynamicHoneyBadger.
From S2P Require Import DhbAgreement.
From S2P Require Import DhbRun.
From S2P Require Import DhbNet.
From S2P Require Import DhbDemo.
From S2P Require Import DhbNetDemo.
From S2P Require Import QueueingHoneyBadger.
From S2P Require Import QhbFacts.
From S2P Require Import QhbLone.
From S2P Require Import QhbNet.
From S2P Require Import Instances.

Module qhb_net_demo.
Import dhb.
Import queueing_honey_badger.
Import dhb_agreement.
Import qhb_net.

#[local] Existing Instance threshold_sign.number_sig_laws.
#[local] Existing Instance threshold_decrypt.number_enc_laws.
#[local] Existing Instance ba_agreement.demo_share_eq.
#[local] Existing Instance hb_demo.demo_dec_eq.
#[local] Existing Instance subset_demo.any_session.
#[local] Existing Instance subset_demo.last_byte.
#[local] Existing Instance hb_demo.bin_ciphertext.
#[local] Existing Instance dhb_demo.constant_poly.
#[local] Existing Instance dhb_demo.bin_nat.
#[local] Existing Instance dhb_demo.bin_vote.
#[local] Existing Instance dhb_demo.bin_key_gen.
#[local] Existing Instance dhb_net_demo.bin_internal.
#[local] Existing Instance qhb_lone.first_ones.
#[local] Existing Instance qhb_lone.first_ones_laws.

Abbreviation State := (@QueueingHoneyBadger nat (list Byte.byte) nat_ord_key number_crypto dhb_demo.constant_poly repeat_code).
Abbreviation Inp := (@qhb_input Byte.byte nat nat_ord_key number_crypto).
Abbreviation Msg := (@dynamic_honey_badger.Message nat nat_ord_key number_crypto dhb_demo.constant_poly).
Abbreviation Bat := (@dynamic_honey_badger.Batch bytes nat nat_ord_key number_crypto).
Abbreviation demo_world := (Net.world nat (State * nat * bool) Inp Msg Bat).
Abbreviation correct := hb_demo.hb_correct.

(** A batch has at most eight transactions, two of each node. *)
Definition init : demo_world := Net.World (λ i,
  (mkQHB _ _ _ _ _ _ 8 (dynamic_honey_badger.build (four_netinfo i) (dynamic_honey_badger.mkBuilder 0 0 honey_badger.params_default)) [], 0, false))
  [] (λ _, []) (λ _, []).
Abbreviation qrun := (Net.run (ord := nat_ord_key) (q_input (T := Byte.byte) 4) (q_message 4) (λ _, true) correct).
Abbreviation qrounds := (Net.rounds (ord := nat_ord_key) (q_input (T := Byte.byte) 4) (q_message 4) (λ _, true) correct).
Definition final : option demo_world :=
  w ← qrun init [Net.Input 0 (Start ["a"; "b"; "c"; "f"]%byte); Net.Input 1 (Start ["c"; "d"; "g"]%byte);
    Net.Input 2 (Call (dynamic_honey_badger.User "e"%byte))];
  qrounds 26 w.

Abbreviation qreachable := (Net.reachable (ord := nat_ord_key) (q_input (T := Byte.byte) 4) (q_message 4) (λ _, true) correct
  (q_initial (T := Byte.byte) (ord := nat_ord_key) (crypto := number_crypto) correct four_netinfo 0 0 honey_badger.params_default)).
Lemma q_final_reachable w : final = Some w → qreachable w.
Proof.
  unfold final. destruct (qrun init _) as [w1|] eqn:Hw1; [|done]. cbn [mbind option_bind]. intros Hw2.
  eapply rounds_reachable, Hw2. eapply run_reachable, Hw1. apply reach_init. split; [done|]. intros i _. split_and!; [done..|].
  by exists 8, [], 0.
Qed.

(** What is read off: the transaction [c], which two nodes have proposed, is output once, and the
    second batch has those that were left. *)
Definition summary (b : Bat) : Z * Z * list (nat * bytes) :=
  (dynamic_honey_badger.batch_epoch b, dynamic_honey_badger.batch_era b, map_to_list (dynamic_honey_badger.batch_contributions b)).
Definition first_batch : Z * Z * list (nat * bytes) := (0%Z, 0%Z, [(2, ["e"]); (1, ["c"; "d"]); (0, ["a"; "b"])]%byte).
Definition second_batch : Z * Z * list (nat * bytes) := (1%Z, 0%Z, [(2, []); (1, ["g"]); (0, ["f"])]%byte).
Definition read_off (w : demo_world) :=
  ((λ i, (summary <$> (w_out w i).*1, (w_node w i).2, dhb_run.any_ends (w_out w i).*1)) <$> [0; 1; 2],
   forallb (λ '(_, tm), dhb_net_demo.early (message tm)) (w_sent w)).
Record expected (w : demo_world) : Prop := {
  x_outs i : i ∈ correct → summary <$> (w_out w i).*1 = [first_batch; second_batch];
  x_sound i : i ∈ correct → (w_node w i).2 = false;
  x_live i : i ∈ correct → dhb_run.any_ends (w_out w i).*1 = false;
  x_early : forallb (λ '(_, tm), dhb_net_demo.early (message tm)) (w_sent w) = true;
}.
Lemma q_final_read_off (o : option demo_world) :
  read_off <$> o = Some (replicate 3 ([first_batch; second_batch], false, false), true) → ∃ w, o = Some w ∧ expected w.
Proof.
  destruct o as [w|]; [|done]. intros Ho. apply (inj Some), pair_equal_spec in Ho as [Ho He].
  exists w. split; [done|]. split; [..|done]; intros i Hi; apply (hb_demo.hb_three _ _ Ho) in Hi;
    injection Hi as H1 H2 H3; done.
Qed.
Lemma q_final_expected : ∃ w, final = Some w ∧ expected w.
Proof. apply q_final_read_off. vm_compute. reflexivity. Qed.

Abbreviation qleft := (dhb_net.epochs_left (C := bytes) (ord := nat_ord_key) (crypto := number_crypto) correct).
Abbreviation qoverflown := (dhb_net.overflown (C := bytes) (ord := nat_ord_key) (crypto := number_crypto) correct 0 0).
Lemma q_final_ok w : expected w → q_sound (ord := nat_ord_key) correct w ∧ qleft (as_dhb w) ∧ ¬ qoverflown (as_dhb w).
Proof.
  intros [Hout Hsound _ Hall]. split; [exact Hsound|]. split.
  - intros e k tg c p e' _ Hin. rewrite forallb_forall in Hall. specialize (Hall _ (proj1 (list_elem_of_In _ _) Hin)).
    by apply bool_decide_eq_true in Hall.
  - intros (i & Hi & Hov). specialize (Hout i Hi).
    assert (Hsame : (w_out (as_dhb w) i).*1 = (w_out w i).*1) by (cbn; rewrite <- list_fmap_compose; by apply list_fmap_ext).
    rewrite Hsame, <- (length_fmap fst (w_out (as_dhb w) i)), Hsame in Hov. destruct Hov as [Hx|(b & Hb & Hr)].
    + rewrite <- (length_fmap summary), Hout in Hx.
      unfold dhb_run.position, dhb_run.e_start in Hx. rewrite decide_True in Hx by done. cbn in Hx. lia.
    + apply (list_elem_of_fmap_2 summary) in Hb. rewrite Hout in Hb. destruct Hr. unfold dhb_net.in_range.
      apply elem_of_cons in Hb as [Hb|Hb%list_elem_of_singleton]; injection Hb as -> -> _; lia.
Qed.
Lemma q_batch_lookup w i n : expected w → i ∈ correct → n < 2 → ∃ b, dhb_run.in_charge (w_out w i).*1 !! n = Some b ∧
  [first_batch; second_batch] !! n = Some (summary b).
Proof.
  intros Hx Hi Hn. pose proof (x_outs w Hx i Hi) as Ho. rewrite (dhb_run.in_charge_all _ (x_live w Hx i Hi)). apply (fmap_lookup _ _ _ _ Ho). exact Hn.
Qed.

Lemma qhb_agreement_witness : ∃ (w : demo_world) b b', dhb_run.in_charge (w_out w 0).*1 !! 1 = Some b ∧ summary b = second_batch ∧
  ((same_batch b b' ∧ dynamic_honey_badger.batch_epoch b = 1%Z) ∨ ∃ dw, q_sim (ord := nat_ord_key) correct w dw ∧ dhb_net_demo.dcollided dw).
Proof.
  destruct q_final_expected as (w & Hw & Hx). destruct hb_demo.hb_correct_in as (H0 & _ & H2). exists w.
  destruct (q_final_ok w Hx) as (Hp & Hl & Hov).
  destruct (q_batch_lookup w 0 1 Hx H0) as (b & Hb & Hs); [lia|]. destruct (q_batch_lookup w 2 1 Hx H2) as (b' & Hb' & _); [lia|]. exists b, b'.
  split; [exact Hb|]. split; [exact (eq_sym (inj Some second_batch _ Hs))|].
  exact (qhb_agreement (T := Byte.byte) (ord := nat_ord_key) (crypto := number_crypto) 4 four_keys correct hb_demo.hb_keys four_netinfo 0 0 honey_badger.params_default
    (proj1 hb_demo.hb_byz) (proj2 hb_demo.hb_byz) hb_demo.demo_ser dhb_demo.ser_key_gen dhb_demo.ser_nat dhb_demo.ser_nat
    dhb_net_demo.demo_zero dhb_net_demo.demo_zero dhb_net_demo.demo_max dhb_net_demo.demo_nis
    w 0 2 1 b b' (q_final_reachable w Hw) Hp Hl Hov H0 H2 Hb Hb').
Defined.
End qhb_net_demo.
