(* ===== verification/SenderQueue.v ===== *)
(** * The sender queue

    Models [src/sender_queue/]: the queue around any algorithm ([mod.rs], [message.rs],
    [error.rs]) and its instances for the Honey Badger algorithms
    ([honey_badger.rs], [dynamic_honey_badger.rs], [queueing_honey_badger.rs]).  The
    wrapped algorithm is the interface [ConsensusProtocol] of [Traits] with the
    classes below, and the queue is generic in it as in the code. *)
From S2P Require Import Prelude.
From S2P Require Import BTree.
From S2P Require Import Traits.
From S2P Require Import NetworkInfo.
From S2P Require Import Merkle.
From S2P Require Import Broadcast.
From S2P Require Import BinaryAgreement.
From S2P Require Import Subset.
From S2P Require Import HoneyBadger.
From S2P Require Import SyncKeyGen.
From S2P Require Import DhbTypes.
From S2P Require Import Votes.
From S2P Require Import DynamicHoneyBadger.
From S2P Require Import QueueingHoneyBadger.

(** [SenderQueueableOutput] *)
Class SenderQueueableOutput (O N E : Type) `{NodeIdT N} := {
  participant_change : O → option (gset N);
  output_epoch : O → E;
}.
(** [SenderQueueableConsensusProtocol] *)
Class SenderQueueableConsensusProtocol (D E : Type) := {
  sq_epoched :: Epoched D E;
  sq_max_future_epochs : D → u64;
}.

Module sender_queue.

Inductive Error (E : Type) : Type :=
  | Apply (e : E)
  | DynamicHoneyBadgerNotRemoved
  | DynamicHoneyBadgerNewJoining (e : E).
Arguments Apply {E} e.
Arguments DynamicHoneyBadgerNotRemoved {E}.
Arguments DynamicHoneyBadgerNewJoining {E} e.

Inductive Message (E Msg : Type) : Type :=
  | EpochStarted (epoch : E)
  | Algo (msg : Msg).
Arguments EpochStarted {E Msg} epoch.
Arguments Algo {E Msg} msg.

Record SenderQueue {D N E Msg : Type} `{NodeIdT N, EpochT E} : Type := mkSQ {
  algo : D;
  our_id : N;
  outgoing_queue : gmap N (gmap E (list Msg));
  peer_epochs : gmap N E;
  last_epochs : gmap N E;
  participants_after_change : gset N;
  is_removed : bool;
}.
Arguments SenderQueue D N E Msg {_ _}.
#[global] Instance SenderQueue_settable {D N E Msg} `{NodeIdT N, EpochT E} :
    Settable (SenderQueue D N E Msg) := λ s,
  mkSQ _ _ _ _ _ _ (algo s) (our_id s) (outgoing_queue s) (peer_epochs s) (last_epochs s)
    (participants_after_change s) (is_removed s).

(** [iter.take_while(p)] *)
Fixpoint take_while {A} (p : A → bool) (l : list A) : list A :=
  match l with
  | [] => []
  | x :: l => if p x then x :: take_while p l else []
  end.

Section sender_queue.
Context {D R N I O Msg Er F E : Type} `{ord : NodeIdT N} `{et : EpochT E}
  `{cp : !ConsensusProtocol D R N I O Msg Er F} `{sqm : !SenderQueueableMessage Msg E}
  `{sqo : !SenderQueueableOutput O N E} `{sqd : !SenderQueueableConsensusProtocol D E}.
Abbreviation State := (SenderQueue D N E Msg).
Abbreviation SqStep := (Step (Message E Msg) O N F).
Abbreviation AlgoStep := (Step Msg O N F).

Definition terminated (s : State) : bool := is_removed s.

(** ** Removal of participants *)
Definition remove_participant_if_old (id : N) (s : State) : State * bool :=
  match last_epochs s !! id with
  | None => (s, false)
  | Some last_epoch =>
      if decide (ord_le (cp_epoch (algo s)) last_epoch) then (s, false)
      else if decide (id = our_id s) then
        (s <| is_removed := true |> <| last_epochs ::= delete id |>, true)
      else if match peer_epochs s !! id with
              | Some peer_epoch => bool_decide (ord_le peer_epoch last_epoch)
              | None => false
              end
      then (s, false)
      else
        (s <| peer_epochs ::= delete id |> <| outgoing_queue ::= delete id |>
           <| last_epochs ::= delete id |>, true)
  end.

Definition remove_participant_after (id : N) (last_epoch : E) (s : State) : State * bool :=
  remove_participant_if_old id (s <| last_epochs ::= <[id := last_epoch]> |>).

(** ** Epochs of the peers *)
Definition process_new_epoch (sender_id : N) (epoch : E) (s : State) : State * SqStep :=
  match outgoing_queue s !! sender_id with
  | None => (s, step_default)
  | Some queue =>
      let earlier_keys := take_while (λ this_epoch, bool_decide (ord_le this_epoch epoch))
        (@keys E epoch_ord _ queue) in
      let msgs := concat (omap (λ key, queue !! key) earlier_keys) in
      let queue := foldl (λ q key, delete key q) queue earlier_keys in
      (s <| outgoing_queue ::= <[sender_id := queue]> |>,
       step_from_msgs ((λ msg, target_message (Node sender_id) (Algo msg)) <$>
         filter (λ msg, is_obsolete msg epoch = false) msgs))
  end.

Definition handle_epoch_started (sender_id : N) (epoch : E) (s : State) : State * SqStep :=
  let e := match peer_epochs s !! sender_id with
           | Some e => if decide (@ord_lt E epoch_ord e epoch) then epoch else e
           | None => epoch
           end in
  let s := s <| peer_epochs ::= <[sender_id := e]> |> in
  let '(s, removed) := remove_participant_if_old sender_id s in
  if removed : bool then (s, step_default) else process_new_epoch sender_id epoch s.

(** ** Outputs of the algorithm *)

(** A candidate for the next set of participants becomes a peer. *)
Definition insert_candidate (out_epoch : E) (id : N) (s : State) : State :=
  if decide (id = our_id s) then s
  else
    let s := s <| peer_epochs ::= λ pe,
      match pe !! id with Some _ => pe | None => <[id := epoch_default]> pe end |> in
    match last_epochs s !! id with
    | Some last =>
        if decide (@ord_lt E epoch_ord last out_epoch) then s <| last_epochs ::= delete id |> else s
    | None => s
    end.

(** One output: the state and whether this node leaves. *)
Definition update_participants (acc : State * bool) (batch : O) : State * bool :=
  let '(s, send_last_epoch_started) := acc in
  match participant_change batch with
  | None => (s, send_last_epoch_started)
  | Some next_participants =>
      let s := foldl (λ s id, insert_candidate (output_epoch batch) id s) s
        (set_items next_participants) in
      let s := foldl (λ s id, fst (remove_participant_after id (output_epoch batch) s)) s
        (set_items (participants_after_change s ∖ next_participants)) in
      let leaves := bool_decide (our_id s ∈ participants_after_change s) &&
        negb (bool_decide (our_id s ∈ next_participants)) in
      (s <| participants_after_change := next_participants |>,
       send_last_epoch_started || leaves)
  end.

Definition update_epoch (step : AlgoStep) (s : State) : State * SqStep :=
  match output step with
  | [] => (s, step_default)
  | _ =>
      let '(s, send_last_epoch_started) := foldl update_participants (s, false) (output step) in
      if negb (is_removed s) || send_last_epoch_started
      then (s, step_from_msg (target_message All (EpochStarted (cp_epoch (algo s)))))
      else (s, step_default)
  end.

Definition push_outgoing (s : State) (p : N * Msg) : State :=
  let '(id, message) := p in
  let queue := default ∅ (outgoing_queue s !! id) in
  let msgs := default [] (queue !! first_epoch message) in
  s <| outgoing_queue ::= <[id := <[first_epoch message := msgs ++ [message]]> queue]> |>.

Definition sq_defer_messages (step : AlgoStep) (s : State) : State * AlgoStep :=
  let max_future_epochs := sq_max_future_epochs (algo s) in
  let '(step, deferred) := defer_messages step (peer_epochs s) max_future_epochs in
  (foldl push_outgoing s deferred, step).

(** What [apply] does with the step of the algorithm *)
Definition process_step (step : AlgoStep) (s : State) : State * SqStep :=
  let '(s, sender_queue_step) := update_epoch step s in
  let '(s, step) := sq_defer_messages step s in
  (s, step_extend sender_queue_step (step_map id id Algo step)).

(** ** The interface; the state includes the random number generator. *)
Abbreviation SM := (M (State * R) (Error Er)).

Definition apply (f : M (D * R) Er AlgoStep) : SM SqStep :=
  step ← zoom (λ '(s, r), (algo s, r)) (λ '(d, r) '(s, _), (s <| algo := d |>, r)) (map_err Apply f);
  '(s, r) ← get;
  let '(s, step) := process_step step s in
  modify (λ _, (s, r));;
  mret step.

Definition handle_input (input : I) : SM SqStep :=
  '(s, _) ← get;
  if is_removed s then mret step_default else apply (cp_handle_input input).

Definition handle_message (sender_id : N) (message : Message E Msg) : SM SqStep :=
  '(s, r) ← get;
  if is_removed s then mret step_default
  else match message with
  | EpochStarted epoch =>
      let '(s, step) := handle_epoch_started sender_id epoch s in
      modify (λ _, (s, r));; mret step
  | Algo msg => apply (cp_handle_message sender_id msg)
  end.

(** ** The builder *)
Record SenderQueueBuilder : Type := mkBuilder {
  b_algo : D;
  b_peer_epochs : gmap N E;
}.
Definition builder (algo : D) (peer_ids : list N) : SenderQueueBuilder :=
  mkBuilder algo (list_to_map ((λ id, (id, epoch_default)) <$> peer_ids)).
Definition set_peer_epochs (pe : gmap N E) (b : SenderQueueBuilder) : SenderQueueBuilder :=
  mkBuilder (b_algo b) pe.
Definition build (our_id : N) (b : SenderQueueBuilder) : State * SqStep :=
  let epoch := cp_epoch (b_algo b) in
  (mkSQ _ _ _ _ _ _ (b_algo b) our_id ∅ (b_peer_epochs b) ∅ ∅ false,
   step_from_msg (target_message All (EpochStarted epoch))).
End sender_queue.

(** ** What the epochs of messages satisfy

    A premature message is first handled in an epoch that the peer has not reached; on
    machine integers this needs that the peer's epoch plus the window does not overflow. *)
Class SenderQueueableLaws (Msg E : Type) `{EpochT E, SenderQueueableMessage Msg E} := {
  epoch_fits : E → u64 → Prop;
  premature_later (m : Msg) (them : E) mfe :
    epoch_fits them mfe → is_premature m them mfe = true → @ord_lt E epoch_ord them (first_epoch m);
}.

(** ** Sorted keys *)
Section keys.
Context {K V : Type} `{OrdKey K}.
Implicit Types (q : gmap K V) (e k : K).

Lemma elem_of_take_while e k (l : list K) :
  StronglySorted ord_le l →
  k ∈ take_while (λ k', bool_decide (ord_le k' e)) l ↔ k ∈ l ∧ ord_le k e.
Proof.
  induction 1 as [|k' l Hs IH Hall]; simpl; [set_solver|]. rewrite Forall_forall in Hall.
  destruct (bool_decide (ord_le k' e)) eqn:Hk.
  - apply bool_decide_eq_true in Hk. rewrite !elem_of_cons, IH. naive_solver.
  - apply bool_decide_eq_false in Hk. split; [set_solver|]. rewrite elem_of_cons.
    intros [[->|Hin] Hle]; [done|]. destruct Hk. by eapply ord_le_trans; [apply Hall|].
Qed.

Lemma lookup_foldl_delete (l : list K) q k :
  foldl (λ q key, delete key q) q l !! k = if decide (k ∈ l) then None else q !! k.
Proof.
  revert q. induction l as [|k' l IH]; intros q; simpl; [done|]. rewrite IH.
  destruct (decide (k ∈ l)) as [Hin|Hin].
  - rewrite decide_True; [done|by right].
  - destruct (decide (k = k')) as [->|Hne].
    + rewrite decide_True by (by left). apply lookup_delete_eq.
    + rewrite decide_False by (rewrite elem_of_cons; tauto). by apply lookup_delete_ne.
Qed.
End keys.

Section facts.
Context {D N O Msg F E : Type} `{ord : NodeIdT N} `{et : EpochT E}
  `{sqm : !SenderQueueableMessage Msg E} `{laws : !SenderQueueableLaws Msg E}
  `{sqo : !SenderQueueableOutput O N E} `{sqd : !SenderQueueableConsensusProtocol D E}.
#[local] Existing Instance epoch_ord.
Abbreviation State := (SenderQueue D N E Msg).
Abbreviation SqStep := (Step (Message E Msg) O N F).
Abbreviation AlgoStep := (Step Msg O N F).
Implicit Types (s : State) (id : N) (e : E) (m : Msg).

(** The message [m] is queued for [id]. *)
Definition queued id m s : Prop :=
  ∃ q e l, outgoing_queue s !! id = Some q ∧ q !! e = Some l ∧ m ∈ l.

(** Messages are queued only for peers, under their first epoch, and every queue waits for
    an epoch that its peer has not announced. *)
Record queue_ok (mfe : u64) s : Prop := {
  qo_mfe : sq_max_future_epochs (algo s) = mfe;
  qo_peer : ∀ id q, outgoing_queue s !! id = Some q → is_Some (peer_epochs s !! id);
  qo_key : ∀ id q e l m, outgoing_queue s !! id = Some q → q !! e = Some l → m ∈ l →
    first_epoch m = e;
  qo_wait : ∀ id q e them, outgoing_queue s !! id = Some q → is_Some (q !! e) →
    peer_epochs s !! id = Some them → epoch_fits them mfe → ord_lt them e;
}.

(** The rest of the state does not matter. *)
Lemma queue_ok_ext mfe s s' :
  queue_ok mfe s → algo s' = algo s → outgoing_queue s' = outgoing_queue s →
  peer_epochs s' = peer_epochs s → queue_ok mfe s'.
Proof. intros [H1 H2 H3 H4] Ha Hq Hp. constructor; rewrite ?Ha, ?Hq, ?Hp; done. Qed.

Lemma queue_ok_set_participants mfe s x :
  queue_ok mfe s → queue_ok mfe (s <| participants_after_change := x |>).
Proof. intros Hok. by eapply queue_ok_ext. Qed.

(** ** Participants *)
Lemma remove_participant_algo id s : algo (remove_participant_if_old id s).1 = algo s.
Proof. unfold remove_participant_if_old. repeat (case_match; simpl; try done). Qed.

Lemma queue_ok_remove mfe id s : queue_ok mfe s → queue_ok mfe (remove_participant_if_old id s).1.
Proof.
  intros Hok. unfold remove_participant_if_old.
  destruct (last_epochs s !! id) as [last|]; [|done].
  case_decide; [done|]. case_decide; [by eapply queue_ok_ext|].
  destruct (match peer_epochs s !! id with Some _ => _ | None => _ end); [done|].
  destruct Hok as [H1 H2 H3 H4]. constructor; cbn; [done|..].
  - intros id' q. rewrite !lookup_delete_Some. intros [Hne Hq]. destruct (H2 id' q Hq) as [e He].
    exists e. rewrite lookup_delete_Some. done.
  - intros id' q e l m. rewrite lookup_delete_Some. intros [_ Hq]. by apply (H3 id' q).
  - intros id' q e them. rewrite !lookup_delete_Some. intros [_ Hq] Hs [_ Hp]. by apply (H4 id' q).
Qed.

Lemma queue_ok_insert_candidate mfe out id s :
  queue_ok mfe s → queue_ok mfe (insert_candidate out id s).
Proof.
  intros Hok. unfold insert_candidate. case_decide as Hid; [done|].
  set (s1 := s <| peer_epochs ::= _ |>).
  assert (Hok1 : queue_ok mfe s1).
  { subst s1. destruct (peer_epochs s !! id) as [e|] eqn:He.
    - eapply queue_ok_ext; [exact Hok|done|done|]. cbn. by rewrite He.
    - destruct Hok as [H1 H2 H3 H4]. constructor; cbn; rewrite ?He; [done|..].
      + intros id' q Hq. apply lookup_insert_is_Some'. right. by apply (H2 id' q).
      + exact H3.
      + intros id' q e them Hq Hs. rewrite lookup_insert_Some. intros [[<- _]|[_ Hp]].
        * destruct (H2 id q Hq) as [e' He']. congruence.
        * by apply (H4 id' q). }
  destruct (last_epochs s1 !! id) as [last|]; [|done]. case_decide; [|done].
  by eapply queue_ok_ext.
Qed.

Lemma queue_ok_participants mfe s b batch :
  queue_ok mfe s → queue_ok mfe (update_participants (s, b) batch).1.
Proof.
  intros Hok. unfold update_participants. destruct (participant_change batch) as [next|]; [|done].
  cbn. apply queue_ok_set_participants.
  assert (Hfold : ∀ A (f : State → A → State) l s, queue_ok mfe s →
    (∀ s a, queue_ok mfe s → queue_ok mfe (f s a)) → queue_ok mfe (foldl f s l)).
  { clear. intros A f l. induction l as [|a l IH]; intros s Hs Hf; simpl; auto. }
  apply Hfold; [apply Hfold; [done|]|].
  - intros s' id Hs'. by apply queue_ok_insert_candidate.
  - intros s' id Hs'. unfold remove_participant_after. apply queue_ok_remove.
    by eapply queue_ok_ext.
Qed.

Lemma queue_ok_update_epoch mfe (step : AlgoStep) s :
  queue_ok mfe s → queue_ok mfe (update_epoch (F := F) step s).1.
Proof.
  intros Hok. unfold update_epoch. destruct (output step) as [|o l]; [done|].
  assert (Hfold : ∀ l p, queue_ok mfe p.1 → queue_ok mfe (foldl update_participants p l).1).
  { clear. induction l as [|batch l IH]; intros [s b] Hs; [done|]. cbn [foldl].
    apply IH, queue_ok_participants. exact Hs. }
  specialize (Hfold (o :: l) (s, false) Hok).
  destruct (foldl _ _ _) as [s1 b1]. by destruct (_ || _).
Qed.

(** The algorithm is not touched. *)
Lemma insert_candidate_algo out id s : algo (insert_candidate out id s) = algo s.
Proof. unfold insert_candidate. by repeat (case_match; simpl; try done). Qed.

Lemma update_participants_algo s b batch : algo (update_participants (s, b) batch).1 = algo s.
Proof.
  assert (Hfold : ∀ A (f : State → A → State) l s, (∀ s a, algo (f s a) = algo s) → algo (foldl f s l) = algo s).
  { clear. intros A f l. induction l as [|a l IH]; intros s Hf; simpl; [done|]. by rewrite IH. }
  unfold update_participants. destruct (participant_change batch) as [next|]; [|done]. cbn.
  rewrite !Hfold; [done| |]; intros s' id; [apply insert_candidate_algo|].
  unfold remove_participant_after. by rewrite remove_participant_algo.
Qed.

Lemma update_epoch_algo (step : AlgoStep) s : algo (update_epoch (F := F) step s).1 = algo s.
Proof.
  unfold update_epoch. destruct (output step) as [|o l]; [done|].
  assert (Hfold : ∀ l (p : State * bool), algo (foldl update_participants p l).1 = algo p.1).
  { clear. induction l as [|batch l IH]; intros [s b]; [done|]. cbn [foldl].
    rewrite IH. apply update_participants_algo. }
  specialize (Hfold (o :: l) (s, false)).
  destruct (foldl _ _ _) as [s1 b1]. by destruct (_ || _).
Qed.

Lemma queue_all_algo (l : list (N * Msg)) s : algo (foldl push_outgoing s l) = algo s.
Proof. revert s. induction l as [|[id m] l IH]; intros s; [done|]. cbn [foldl]. by rewrite IH. Qed.

(** ** Queueing *)
Lemma lookup_push_outgoing s id m id' :
  outgoing_queue (push_outgoing s (id, m)) !! id' =
    if decide (id = id') then
      Some (let q := default ∅ (outgoing_queue s !! id) in
            <[first_epoch m := default [] (q !! first_epoch m) ++ [m]]> q)
    else outgoing_queue s !! id'.
Proof. unfold push_outgoing. cbn. by rewrite lookup_insert. Qed.

Lemma queue_ok_push mfe s id m them :
  queue_ok mfe s → peer_epochs s !! id = Some them → is_premature m them mfe = true →
  queue_ok mfe (push_outgoing s (id, m)).
Proof.
  intros [H1 H2 H3 H4] Hid Hm. constructor; [done|..]; intros id' q;
    rewrite ?lookup_push_outgoing; change (peer_epochs (push_outgoing s (id, m))) with (peer_epochs s).
  - case_decide as Heq; [intros _; subst; eauto|apply H2].
  - intros e l m'. case_decide as Heq; [|apply H3]. subst id'. intros [= <-].
    rewrite lookup_insert_Some. intros [[<- <-]|[Hne Hl]] Hin.
    + apply elem_of_app in Hin as [Hin| ->%list_elem_of_singleton]; [|done].
      destruct (outgoing_queue s !! id) as [q|] eqn:Hq; cbn in Hin; [|by rewrite lookup_empty in Hin; apply not_elem_of_nil in Hin].
      destruct (q !! first_epoch m) as [l|] eqn:Hl; [by eapply H3|by apply not_elem_of_nil in Hin].
    + destruct (outgoing_queue s !! id) as [q|] eqn:Hq; cbn in Hl; [by eapply H3|by rewrite lookup_empty in Hl].
  - intros e them'. case_decide as Heq; [|apply H4]. subst id'. intros [= <-] Hs Hp Hfit.
    assert (them' = them) as -> by congruence.
    rewrite lookup_insert_is_Some in Hs. destruct Hs as [<-|[_ Hs]]; [by eapply premature_later|].
    destruct (outgoing_queue s !! id) as [q|] eqn:Hq; cbn in Hs; [by eapply H4|].
    rewrite lookup_empty in Hs. by destruct Hs.
Qed.

Lemma defer_messages_deferred (step : AlgoStep) pe mfe id m :
  (id, m) ∈ (defer_messages step pe mfe).2 →
  ∃ them, pe !! id = Some them ∧ is_premature m them mfe = true.
Proof.
  intros Hin. assert (Hd : m ∈ deferred_to id (defer_messages step pe mfe).2).
  { unfold deferred_to. apply list_elem_of_omap. exists (id, m). split; [done|].
    simpl. by rewrite decide_True. }
  pose proof (defer_messages_peer step pe mfe id) as Hspec.
  destruct (pe !! id) as [them|] eqn:Hid.
  - specialize (Hspec them eq_refl). destruct (defer_messages step pe mfe) as [s' d].
    destruct Hspec as (_ & _ & _ & Hdef). simpl in Hd. rewrite Hdef in Hd.
    apply list_elem_of_filter in Hd as [Hp _]. eauto.
  - clear Hspec. exfalso. rewrite defer_messages_unfold in Hd. simpl in Hd. revert Hd.
    induction (messages step) as [|tm l IH]; [simpl; apply not_elem_of_nil|].
    rewrite fmap_cons. simpl concat. rewrite deferred_to_app.
    pose proof (defer_message_stranger pe mfe tm id Hid) as Ht.
    destruct (defer_message pe mfe tm) as [d p]. destruct Ht as [Ht _]. simpl. rewrite Ht.
    simpl. exact IH.
Qed.

Lemma queue_ok_push_all mfe (l : list (N * Msg)) s :
  queue_ok mfe s →
  (∀ id m, (id, m) ∈ l → ∃ them, peer_epochs s !! id = Some them ∧ is_premature m them mfe = true) →
  queue_ok mfe (foldl push_outgoing s l).
Proof.
  revert s. induction l as [|[id m] l IH]; intros s Hok Hall; [done|]. cbn [foldl].
  destruct (Hall id m) as (them & Hid & Hm); [by left|].
  apply IH; [by eapply queue_ok_push|]. intros id' m' Hin. apply Hall. by right.
Qed.

Lemma queue_ok_defer mfe (step : AlgoStep) s :
  queue_ok mfe s → queue_ok mfe (sq_defer_messages step s).1.
Proof.
  intros Hok. unfold sq_defer_messages. rewrite (qo_mfe _ _ Hok).
  pose proof (defer_messages_deferred step (peer_epochs s) mfe) as Hd.
  destruct (defer_messages step (peer_epochs s) mfe) as [step' d]. simpl in *.
  by apply queue_ok_push_all.
Qed.

Lemma queue_ok_process_step mfe (step : AlgoStep) s :
  queue_ok mfe s → queue_ok mfe (process_step step s).1.
Proof.
  intros Hok. unfold process_step. pose proof (queue_ok_update_epoch mfe step s Hok) as H1.
  destruct (update_epoch step s) as [s1 out]. pose proof (queue_ok_defer mfe step s1 H1) as H2.
  by destruct (sq_defer_messages step s1).
Qed.

(** ** Announcements *)
Lemma process_new_epoch_spec id e s :
  (∀ id q k l m, outgoing_queue s !! id = Some q → q !! k = Some l → m ∈ l → first_epoch m = k) →
  let '(s', out) := process_new_epoch (O := O) (F := F) id e s in
  algo s' = algo s ∧ peer_epochs s' = peer_epochs s ∧ last_epochs s' = last_epochs s ∧
  output out = [] ∧ fault_log out = [] ∧
  (∀ tm, tm ∈ messages out → ∃ m, tm = target_message (Node id) (Algo m) ∧ queued id m s ∧
    ord_le (first_epoch m) e ∧ is_obsolete m e = false) ∧
  (∀ m, queued id m s → queued id m s' ∧ ¬ ord_le (first_epoch m) e ∨
    ord_le (first_epoch m) e ∧
      (target_message (Node id) (Algo m) ∈ messages out ∨ is_obsolete m e = true)) ∧
  (∀ id' q', outgoing_queue s' !! id' = Some q' → ∃ q, outgoing_queue s !! id' = Some q ∧
    ∀ k, q' !! k = if decide (id' = id ∧ ord_le k e) then None else q !! k) ∧
  (∀ id' m, id' ≠ id → queued id' m s' ↔ queued id' m s).
Proof.
  intros Hkey. unfold process_new_epoch. destruct (outgoing_queue s !! id) as [q|] eqn:Hq; cycle 1.
  { split_and!; [done..|set_solver| | |done].
    - intros m (q & ? & ? & ? & _). congruence.
    - intros id' q' Hq'. exists q'. split; [done|]. intros k. rewrite decide_False; [done|].
      intros [-> _]. congruence. }
  set (ks := take_while _ _). set (q' := foldl _ _ _).
  assert (Hks : ∀ k, k ∈ ks ↔ is_Some (q !! k) ∧ ord_le k e).
  { intros k. unfold ks. rewrite elem_of_take_while by apply keys_sorted. by rewrite elem_of_keys. }
  assert (Hq' : ∀ k, q' !! k = if decide (ord_le k e) then None else q !! k).
  { intros k. unfold q'. rewrite lookup_foldl_delete. destruct (decide (ord_le k e)) as [Hle|Hle].
    - case_decide as Hk; [done|]. rewrite Hks in Hk. destruct (q !! k) eqn:Hqk; [|done]. destruct Hk. eauto.
    - rewrite decide_False; [done|]. rewrite Hks. tauto. }
  assert (Hm : ∀ m, m ∈ concat (omap (λ key, q !! key) ks) ↔ queued id m s ∧ ord_le (first_epoch m) e).
  { intros m. rewrite list_elem_of_In, in_concat. split.
    - intros (l & Hl & Hin). apply list_elem_of_In in Hl, Hin.
      apply list_elem_of_omap in Hl as (k & [_ Hle]%Hks & Hk).
      rewrite (Hkey id q k l m Hq Hk Hin). split; [by exists q, k, l|done].
    - intros [(q0 & k & l & Hq0 & Hk & Hin) Hle]. assert (q0 = q) as -> by congruence.
      exists l. rewrite <- !list_elem_of_In. split; [|done]. apply list_elem_of_omap.
      exists k. split; [|done]. apply Hks. rewrite (Hkey id q k l m Hq Hk Hin) in Hle. eauto. }
  split_and!; [done..| | | |]; cbn.
  - intros tm (m & -> & [Ho [Hin Hle]%Hm]%list_elem_of_filter)%list_elem_of_fmap. by exists m.
  - intros m Hqm. destruct (decide (ord_le (first_epoch m) e)) as [Hle|Hle].
    + right. split; [done|]. destruct (is_obsolete m e) eqn:Ho; [by right|left].
      apply list_elem_of_fmap. exists m. split; [done|]. apply list_elem_of_filter.
      split; [done|]. by apply Hm.
    + left. split; [|done]. destruct Hqm as (q0 & k & l & Hq0 & Hk & Hin).
      assert (q0 = q) as -> by congruence. exists q', k, l. cbn. rewrite lookup_insert_eq.
      split_and!; [done| |done]. rewrite Hq', decide_False; [done|].
      by rewrite <- (Hkey id q k l m Hq Hk Hin).
  - intros id' q0. rewrite lookup_insert_Some. intros [[<- <-]|[Hne Hq0]].
    + exists q. split; [done|]. intros k. rewrite Hq'. destruct (decide (ord_le k e)) as [Hle|Hle].
      * by rewrite decide_True.
      * rewrite decide_False; [done|tauto].
    + exists q0. split; [done|]. intros k. rewrite decide_False; [done|]. by intros [-> _].
  - intros id' m Hne. unfold queued. cbn. rewrite lookup_insert_ne by done. done.
Qed.

(** A participant is forgotten only after the algorithm and the participant itself have
    passed its last epoch. *)
Lemma remove_participant_spec id s :
  let '(s', removed) := remove_participant_if_old id s in
  algo s' = algo s ∧ our_id s' = our_id s ∧
  (removed = false → s' = s) ∧
  (removed = true → ∃ last, last_epochs s !! id = Some last ∧ ord_lt last (cp_epoch (algo s)) ∧
    (id ≠ our_id s →
      outgoing_queue s' = delete id (outgoing_queue s) ∧
      peer_epochs s' = delete id (peer_epochs s) ∧
      ∀ them, peer_epochs s !! id = Some them → ord_lt last them)).
Proof.
  unfold remove_participant_if_old. destruct (last_epochs s !! id) as [last|]; [|naive_solver].
  destruct (decide (ord_le (cp_epoch (algo s)) last)) as [Hle|Hlt]; [naive_solver|].
  apply ord_lt_nle in Hlt. destruct (decide (id = our_id s)) as [Hid|Hid]; [naive_solver|].
  destruct (match peer_epochs s !! id with Some _ => _ | None => _ end) eqn:Hp; [naive_solver|].
  split_and!; [done..|]. intros _. exists last. split_and!; [done..|]. intros _.
  split_and!; [done..|]. intros them Hthem. rewrite Hthem in Hp.
  apply bool_decide_eq_false in Hp. by apply ord_lt_nle.
Qed.

Lemma announced_ge (o : option E) e :
  let e' := match o with Some old => if decide (ord_lt old e) then e else old | None => e end in
  ord_le e e' ∧ (e' = e ∨ o = Some e').
Proof.
  destruct o as [old|]; simpl; [|split; [apply ord_le_refl|by left]].
  case_decide as Hlt; [split; [apply ord_le_refl|by left]|]. split; [|by right].
  destruct (ord_le_or e old) as [?|Hle]; [done|]. destruct (decide (e = old)) as [->|Hne]; [done|].
  destruct Hlt. apply ord_lt_nle. intros Hle'. destruct Hne. by apply ord_le_antisym.
Qed.

(** An announcement of [epoch] by [id]: what happens to the queue. *)
Record announced mfe id e s s' (out : SqStep) : Prop := {
  an_ok : queue_ok mfe s';
  an_output : output out = [] ∧ fault_log out = [];
  an_sent : ∀ tm, tm ∈ messages out → ∃ m, tm = target_message (Node id) (Algo m) ∧
    queued id m s ∧ ord_le (first_epoch m) e ∧ is_obsolete m e = false;
  an_kept : ∀ m, queued id m s →
    (queued id m s' ∧ ¬ ord_le (first_epoch m) e) ∨
    (ord_le (first_epoch m) e ∧
      (target_message (Node id) (Algo m) ∈ messages out ∨ is_obsolete m e = true)) ∨
    (∃ last, last_epochs s !! id = Some last ∧ ord_lt last (cp_epoch (algo s)) ∧
      peer_epochs s' !! id = None ∧ (ord_lt last e ∨ ∃ e0, peer_epochs s !! id = Some e0 ∧ ord_lt last e0));
  an_others : ∀ id' m, id' ≠ id → queued id' m s' ↔ queued id' m s;
}.

Lemma handle_epoch_started_spec mfe id e s :
  queue_ok mfe s → id ≠ our_id s →
  let '(s', out) := handle_epoch_started (O := O) (F := F) id e s in announced mfe id e s s' out.
Proof.
  intros Hok Hid. unfold handle_epoch_started.
  pose proof (announced_ge (peer_epochs s !! id) e) as [Hge Hor].
  set (e' := match peer_epochs s !! id with Some _ => _ | None => _ end) in *. cbn zeta in Hge, Hor.
  set (s1 := s <| peer_epochs ::= _ |>).
  pose proof (remove_participant_spec id s1) as Hrem.
  destruct (remove_participant_if_old id s1) as [s2 removed].
  destruct Hrem as (Ha & Hme & Hfalse & Htrue). destruct removed.
  - destruct (Htrue eq_refl) as (last & Hlast & Hpast & Hdel).
    destruct (Hdel Hid) as (Hq & Hp & Hthem). clear Hdel Hfalse Htrue.
    assert (Hpe : ∀ id', id' ≠ id → peer_epochs s2 !! id' = peer_epochs s !! id').
    { intros id' Hne. rewrite Hp, lookup_delete_ne by done. cbn. by rewrite lookup_insert_ne. }
    assert (Hqe : ∀ id', id' ≠ id → outgoing_queue s2 !! id' = outgoing_queue s !! id').
    { intros id' Hne. rewrite Hq. by rewrite lookup_delete_ne. }
    assert (Hqn : outgoing_queue s2 !! id = None) by (rewrite Hq; apply lookup_delete_eq).
    constructor; [|done|set_solver| |].
    + destruct Hok as [H1 H2 H3 H4]. constructor.
      * by rewrite Ha.
      * intros id' q Hq'. destruct (decide (id' = id)) as [->|Hne]; [congruence|].
        rewrite Hpe by done. rewrite Hqe in Hq' by done. by eapply H2.
      * intros id' q k l m Hq'. destruct (decide (id' = id)) as [->|Hne]; [congruence|].
        rewrite Hqe in Hq' by done. by eapply H3.
      * intros id' q k them Hq'. destruct (decide (id' = id)) as [->|Hne]; [congruence|].
        rewrite Hqe in Hq' by done. rewrite Hpe by done. by eapply H4.
    + intros m _. do 2 right. exists last. split_and!; [done|done|by rewrite Hp; apply lookup_delete_eq|].
      assert (Hl : ord_lt last e') by (apply Hthem; cbn; apply lookup_insert_eq).
      destruct Hor as [->|He]; [by left|right; eauto].
    + intros id' m Hne. unfold queued. by rewrite Hqe.
  - rewrite (Hfalse eq_refl). clear Hfalse Htrue Ha Hme.
    pose proof (process_new_epoch_spec id e s1 (qo_key _ _ Hok)) as Hspec.
    destruct (process_new_epoch id e s1) as [s3 out].
    destruct Hspec as (Ha & Hp & Hl & Ho & Hf & Hsent & Hkept & Hqs & Hothers).
    constructor; [|done|exact Hsent| |exact Hothers].
    + destruct Hok as [H1 H2 H3 H4]. constructor.
      * by rewrite Ha.
      * intros id' q Hq'. destruct (Hqs _ _ Hq') as (q0 & Hq0 & _). rewrite Hp. cbn.
        apply lookup_insert_is_Some'. right. by eapply H2.
      * intros id' q k l m Hq' Hk. destruct (Hqs _ _ Hq') as (q0 & Hq0 & Hlk).
        rewrite Hlk in Hk. case_decide; [done|]. by eapply (H3 id' q0).
      * intros id' q k them Hq' Hk. destruct (Hqs _ _ Hq') as (q0 & Hq0 & Hlk).
        rewrite Hlk in Hk. rewrite Hp. cbn. destruct (decide (id' = id)) as [->|Hne].
        -- rewrite lookup_insert_eq. intros [= <-] Hfit.
           destruct (decide (ord_le k e)) as [Hle|Hle]; [by rewrite decide_True in Hk by done; destruct Hk|].
           rewrite decide_False in Hk by tauto.
           destruct Hor as [->|Hold]; [by apply ord_lt_nle|by eapply (H4 id q0)].
        -- rewrite lookup_insert_ne by done. rewrite decide_False in Hk by tauto. by eapply (H4 id' q0).
    + intros m Hm. destruct (Hkept m Hm) as [?|?]; [by left|by right; left].
Qed.

(** ** Steps of the algorithm *)
Lemma queued_push_outgoing s id m id' m' :
  queued id' m' (push_outgoing s (id, m)) ↔ queued id' m' s ∨ (id' = id ∧ m' = m).
Proof.
  unfold queued. setoid_rewrite lookup_push_outgoing.
  destruct (decide (id = id')) as [->|Hne]; [|split; [by left|intros [?|[-> _]]; done]].
  set (q := default ∅ (outgoing_queue s !! id')). set (k := first_epoch m).
  assert (Hq : ∀ e l, q !! e = Some l ↔ ∃ q0, outgoing_queue s !! id' = Some q0 ∧ q0 !! e = Some l).
  { intros e l. unfold q. destruct (outgoing_queue s !! id'); simpl; [naive_solver|].
    rewrite lookup_empty. naive_solver. }
  split.
  - intros (q' & e & l & [= <-] & Hl & Hin). rewrite lookup_insert_Some in Hl.
    destruct Hl as [[<- <-]|[Hke Hl]].
    + apply elem_of_app in Hin as [Hin|Hin%list_elem_of_singleton]; [left|by right].
      destruct (q !! k) as [l|] eqn:Hl; simpl in Hin; [|by apply not_elem_of_nil in Hin].
      apply Hq in Hl as (q0 & ? & ?). by exists q0, k, l.
    + left. apply Hq in Hl as (q0 & ? & ?). by exists q0, e, l.
  - intros [(q0 & e & l & Hq0 & Hl & Hin)|[_ ->]].
    + assert (Hql : q !! e = Some l) by (apply Hq; eauto).
      destruct (decide (e = k)) as [->|Hek].
      * eexists _, k, _. split; [done|]. rewrite lookup_insert_eq. split; [done|].
        rewrite Hql. apply elem_of_app. by left.
      * eexists _, e, l. split; [done|]. by rewrite lookup_insert_ne.
    + eexists _, k, _. split; [done|]. rewrite lookup_insert_eq. split; [done|].
      apply elem_of_app. right. by apply list_elem_of_singleton.
Qed.

Lemma queued_push_all (l : list (N * Msg)) s id m :
  queued id m (foldl push_outgoing s l) ↔ queued id m s ∨ m ∈ deferred_to id l.
Proof.
  revert s. induction l as [|[id' m'] l IH]; intros s; cbn [foldl].
  - split; [by left|]. intros [?|Hin]; [done|]. by apply not_elem_of_nil in Hin.
  - rewrite IH, queued_push_outgoing. unfold deferred_to. cbn [omap list_omap fst snd].
    destruct (decide (id' = id)) as [->|Hne].
    + rewrite elem_of_cons. naive_solver.
    + naive_solver.
Qed.

Lemma push_all_peers (l : list (N * Msg)) s :
  peer_epochs (foldl push_outgoing s l) = peer_epochs s.
Proof. revert s. induction l as [|[id m] l IH]; intros s; [done|]. cbn [foldl]. by rewrite IH. Qed.

(** What [update_epoch] sends: nothing or one announcement of the own epoch *)
Lemma update_epoch_out (step : AlgoStep) s :
  let '(s', out) := update_epoch (F := F) step s in
  output out = [] ∧ fault_log out = [] ∧
  (messages out = [] ∨
   messages out = [target_message All (EpochStarted (Msg := Msg) (cp_epoch (algo s')))]).
Proof.
  unfold update_epoch. destruct (output step) as [|o l]; [by split_and!; [..|left]|].
  destruct (foldl _ _ _) as [s1 b]. destruct (_ || _); split_and!; auto.
Qed.

(** What the sender queue does with a step of the algorithm, for every peer, with the epochs
    known after the step's changes of participants: the peer is sent, in order, exactly
    the messages to it that are accepted in its epoch, the premature ones join its queue,
    and nothing leaves its queue; a node of unknown epoch gets no queue.  The only other
    message is at most one announcement of this node's own epoch, and the outputs and
    faults of the algorithm are passed on. *)
Theorem process_step_exact (step : AlgoStep) s id :
  let s1 := (update_epoch (F := F) step s).1 in
  let mfe := sq_max_future_epochs (algo s1) in
  let '(s', out) := process_step step s in
  output out = output step ∧ fault_log out = fault_log step ∧ peer_epochs s' = peer_epochs s1 ∧
  ∃ own passed, messages out = own ++ (tm_map Algo <$> passed) ∧
    (own = [] ∨ own = [target_message All (EpochStarted (cp_epoch (algo s1)))]) ∧
    match peer_epochs s1 !! id with
    | Some them =>
        sends_to id passed = filter (λ m, is_accepted m them mfe = true) (sends_to id (messages step)) ∧
        ∀ m, queued id m s' ↔ queued id m s1 ∨
          (m ∈ sends_to id (messages step) ∧ is_premature m them mfe = true)
    | None => (∀ m, target_message (Node id) m ∉ passed) ∧ ∀ m, queued id m s' ↔ queued id m s1
    end.
Proof.
  cbn zeta. unfold process_step. pose proof (update_epoch_out step s) as Hout.
  destruct (update_epoch step s) as [s1 own]. destruct Hout as (Ho & Hf & Hown). cbn [fst].
  unfold sq_defer_messages. set (mfe := sq_max_future_epochs (algo s1)).
  pose proof (defer_messages_peer step (peer_epochs s1) mfe id) as Hpeer.
  pose proof (defer_messages_unfold step (peer_epochs s1) mfe) as Hunf.
  assert (Hstr : peer_epochs s1 !! id = None →
    deferred_to id (defer_messages step (peer_epochs s1) mfe).2 = [] ∧
    ∀ m, target_message (Node id) m ∉ messages (defer_messages step (peer_epochs s1) mfe).1).
  { clear Hpeer. intros Hn. rewrite Hunf. unfold set_field. cbn [fst snd messages]. clear Hunf.
    induction (messages step) as [|tm l [IHd IHp]]; [split; [done|set_solver]|].
    rewrite !fmap_cons. simpl concat. rewrite deferred_to_app.
    pose proof (defer_message_stranger (peer_epochs s1) mfe tm id Hn) as Ht.
    destruct (defer_message _ _ tm) as [d p]; simpl in *. destruct Ht as [-> Hp].
    split; [done|]. intros m [?|?]%elem_of_app; [by eapply Hp|by eapply IHp]. }
  assert (Hout : output (defer_messages step (peer_epochs s1) mfe).1 = output step ∧
    fault_log (defer_messages step (peer_epochs s1) mfe).1 = fault_log step) by by rewrite Hunf.
  clear Hunf. destruct (defer_messages step (peer_epochs s1) mfe) as [step' d]. cbn [fst snd] in Hstr, Hout.
  destruct Hout as [Ho' Hf']. cbn. rewrite Ho, Hf, Ho', Hf'.
  split_and!; [by rewrite list_fmap_id| |apply push_all_peers|].
  { unfold faultlog_extend, faultlog_map. simpl. rewrite <- (list_fmap_id (fault_log step)) at 2.
    apply list_fmap_ext. by intros i [n k] _. }
  exists (messages own), (messages step'). split_and!; [done|done|].
  destruct (peer_epochs s1 !! id) as [them|].
  - specialize (Hpeer them eq_refl). destruct Hpeer as (_ & _ & Hs & Hd). split; [done|].
    intros m. rewrite queued_push_all, Hd, list_elem_of_filter. tauto.
  - destruct (Hstr eq_refl) as [Hd Hn]. split; [done|].
    intros m. rewrite queued_push_all, Hd. split; [|by left]. intros [?|Hin]; [done|].
    by apply not_elem_of_nil in Hin.
Qed.

(** What an announcement of an epoch by another node does to the messages that wait for it: every
    message sent goes to that node, was queued for it, is not premature (if the epoch
    plus the window does not overflow) and is not obsolete in the announced epoch; every
    queued message stays queued if it is for a later epoch, and otherwise is sent or is
    obsolete, unless the node is a removed participant that has passed its last epoch, as
    has this node.  Queues of other peers are untouched. *)
Theorem announcement_releases mfe id e s :
  queue_ok mfe s → id ≠ our_id s →
  let '(s', out) := handle_epoch_started (O := O) (F := F) id e s in
  output out = [] ∧ fault_log out = [] ∧
  (∀ tm, tm ∈ messages out → ∃ m, tm = target_message (Node id) (Algo m) ∧ queued id m s ∧
    is_obsolete m e = false ∧ (epoch_fits e mfe → is_premature m e mfe = false)) ∧
  (∀ m, queued id m s →
    (queued id m s' ∧ ord_lt e (first_epoch m)) ∨
    target_message (Node id) (Algo m) ∈ messages out ∨ is_obsolete m e = true ∨
    ∃ last, last_epochs s !! id = Some last ∧ ord_lt last (cp_epoch (algo s)) ∧
      (ord_lt last e ∨ ∃ e0, peer_epochs s !! id = Some e0 ∧ ord_lt last e0)) ∧
  (∀ id' m, id' ≠ id → queued id' m s' ↔ queued id' m s).
Proof.
  intros Hok Hid. pose proof (handle_epoch_started_spec mfe id e s Hok Hid) as Hspec.
  destruct (handle_epoch_started id e s) as [s' out]. destruct Hspec as [_ [Ho Hf] Hs Hk Hothers].
  split_and!; [done|done| | |done].
  - intros tm Htm. destruct (Hs tm Htm) as (m & -> & Hq & Hle & Hob). exists m. split_and!; [done..|].
    intros Hfit. apply not_true_is_false. intros Hp.
    apply (premature_later m e mfe Hfit) in Hp. by apply ord_lt_nle in Hp.
  - intros m Hm. destruct (Hk m Hm) as [[? Hn]|[[_ [?|?]]|(last & ? & ? & _ & ?)]]; auto.
    + left. split; [done|]. by apply ord_lt_nle.
    + do 3 right. by exists last.
Qed.

(** Removal is orderly: a participant other than this node is dropped from the peers only after
    the algorithm and the participant have passed its last epoch, and then no message of
    an epoch up to the last one is still waiting for it. *)
Theorem removal_loses_nothing mfe id s s' :
  queue_ok mfe s → id ≠ our_id s → remove_participant_if_old id s = (s', true) →
  ∃ last, last_epochs s !! id = Some last ∧ ord_lt last (cp_epoch (algo s)) ∧
    ∀ them m, peer_epochs s !! id = Some them → epoch_fits them mfe → queued id m s →
      ord_lt last them ∧ ord_lt them (first_epoch m).
Proof.
  intros Hok Hid Hrem. pose proof (remove_participant_spec id s) as Hspec. rewrite Hrem in Hspec.
  destruct Hspec as (_ & _ & _ & Ht). destruct (Ht eq_refl) as (last & Hl & Hlt & Hd).
  exists last. split_and!; [done..|]. intros them m Hthem Hfit (q & k & l & Hq & Hk & Hin).
  destruct (Hd Hid) as (_ & _ & Hp). split; [by apply Hp|].
  rewrite (qo_key _ _ Hok id q k l m Hq Hk Hin). by eapply (qo_wait _ _ Hok id q).
Qed.
End facts.

(** ** The life of a sender queue

    All states of a sender queue from its builder on, whatever the algorithm, its inputs and
    the messages; the algorithm keeps the window [max_future_epochs] that it is built
    with, and nobody announces an epoch in this node's own name. *)
Section life.
Context {D R N I O Msg Er F E : Type} `{ord : NodeIdT N} `{et : EpochT E}
  `{cp : !ConsensusProtocol D R N I O Msg Er F} `{sqm : !SenderQueueableMessage Msg E}
  `{laws : !SenderQueueableLaws Msg E}
  `{sqo : !SenderQueueableOutput O N E} `{sqd : !SenderQueueableConsensusProtocol D E}.
#[local] Existing Instance epoch_ord.
Abbreviation State := (SenderQueue D N E Msg).
Abbreviation SqStep := (Step (Message E Msg) O N F).
Abbreviation AlgoStep := (Step Msg O N F).
Implicit Types (s : State) (id : N) (e : E) (m : Msg).

(** The call [c] leaves the state [s']. *)
Definition leaves (c : M (State * R) (Error Er) SqStep) (s s' : State) : Prop :=
  ∃ r, match c (s, r) with Ok (s1, _) _ | Err (s1, _) _ => s1 = s' | Panic | NoFuel => False end.

Inductive life (mfe : u64) : State → Prop :=
  | life_build id b : sq_max_future_epochs (b_algo b) = mfe →
      life mfe (build (O := O) (F := F) id b).1
  | life_input s (i : I) s' : life mfe s → leaves (handle_input i) s s' →
      sq_max_future_epochs (algo s') = mfe → life mfe s'
  | life_message s id (msg : Message E Msg) s' : life mfe s → leaves (handle_message id msg) s s' →
      id ≠ our_id s → sq_max_future_epochs (algo s') = mfe → life mfe s'.

Lemma process_step_algo (step : AlgoStep) s : algo (process_step step s).1 = algo s.
Proof.
  unfold process_step. pose proof (update_epoch_algo step s) as Hu.
  destruct (update_epoch step s) as [s1 out]. cbn [fst] in Hu. rewrite <- Hu.
  unfold sq_defer_messages. destruct (defer_messages _ _ _) as [step' l]. cbn.
  apply queue_all_algo.
Qed.

Lemma queue_ok_apply mfe (c : M (D * R) Er AlgoStep) s s' :
  queue_ok mfe s → leaves (apply c) s s' → sq_max_future_epochs (algo s') = mfe → queue_ok mfe s'.
Proof.
  intros [H1 H2 H3 H4] (r & Hl) Hm. unfold apply in Hl.
  unfold mbind, M_bind, zoom, map_err, get, modify, mret, M_ret in Hl.
  destruct (c (algo s, r)) as [[d r1] step|[d r1] err| |]; cbn in Hl; [|by subst s'; constructor|done..].
  pose proof (process_step_algo step (s <| algo := d |>)) as Ha.
  pose proof (queue_ok_process_step mfe step (s <| algo := d |>)) as Hp.
  destruct (process_step step _) as [s2 out]. cbn in Ha, Hp, Hl. subst s2. apply Hp.
  constructor; [|done..]. cbn. by rewrite <- Ha.
Qed.

Lemma life_ok mfe s : life mfe s → queue_ok mfe s.
Proof.
  induction 1 as [id b Hm|s i s' _ IH Hl Hm|s id msg s' _ IH Hl Hid Hm].
  - constructor; [done|..]; cbn; intros id' q; by rewrite lookup_empty.
  - unfold leaves, handle_input, mbind at 1, M_bind, get in Hl. destruct Hl as (r & Hl). cbn in Hl.
    destruct (is_removed s); [cbv [mret M_ret] in Hl; by subst|].
    eapply queue_ok_apply; [exact IH| |exact Hm]. by exists r.
  - unfold leaves, handle_message, mbind at 1, M_bind, get in Hl. destruct Hl as (r & Hl). cbn in Hl.
    destruct (is_removed s); [cbv [mret M_ret] in Hl; by subst|]. destruct msg as [epoch|msg].
    + pose proof (handle_epoch_started_spec (O := O) (F := F) mfe id epoch s IH Hid) as Hspec.
      destruct (handle_epoch_started id epoch s) as [s2 out]. cbv [modify mbind M_bind mret M_ret] in Hl. subst s2. apply Hspec.
    + eapply queue_ok_apply; [exact IH| |exact Hm]. by exists r.
Qed.

(** C31: What waits in a sender queue, at any time of its life from the builder on.  (1) A message
    waits only for a known peer, and until this peer announces the message's own epoch: the
    peer's epoch is earlier, if that epoch plus the window [max_future_epochs] does not
    overflow 64 bits.  (It waits for that even if the peer's window would accept the message
    earlier.)  (2) It waits no longer: when another node announces an epoch, each message that
    waits for it stays in the queue if it is for a later epoch, and otherwise is sent now or
    is obsolete there, unless this node and the other have both passed the other's last epoch
    as a participant; what is sent has waited in its queue, and is neither obsolete nor, if
    the announced epoch plus the window does not overflow, premature.  The queues of others
    stay as they are. *)
Theorem queue_waits mfe s :
  life mfe s →
  (∀ id m, queued id m s → ∃ them, peer_epochs s !! id = Some them ∧
    (epoch_fits them mfe → ord_lt them (first_epoch m))) ∧
  ∀ id e, id ≠ our_id s →
  let '(s', out) := handle_epoch_started (O := O) (F := F) id e s in
  (∀ m, queued id m s →
    (queued id m s' ∧ ord_lt e (first_epoch m)) ∨
    target_message (Node id) (Algo m) ∈ messages out ∨ is_obsolete m e = true ∨
    ∃ last, last_epochs s !! id = Some last ∧ ord_lt last (cp_epoch (algo s)) ∧
      (ord_lt last e ∨ ∃ e0, peer_epochs s !! id = Some e0 ∧ ord_lt last e0)) ∧
  (∀ tm, tm ∈ messages out → ∃ m, tm = target_message (Node id) (Algo m) ∧ queued id m s ∧
    is_obsolete m e = false ∧ (epoch_fits e mfe → is_premature m e mfe = false)) ∧
  (∀ id' m, id' ≠ id → queued id' m s' ↔ queued id' m s).
Proof.
  intros Hok%life_ok. split.
  - intros id m (q & k & l & Hq & Hk & Hin). destruct (qo_peer _ _ Hok id q Hq) as [them Hthem].
    exists them. split; [done|]. rewrite (qo_key _ _ Hok id q k l m Hq Hk Hin).
    by eapply (qo_wait _ _ Hok id q).
  - intros id e Hid. pose proof (announcement_releases (O := O) (F := F) mfe id e s Hok Hid) as Hrel.
    destruct (handle_epoch_started id e s) as [s' out].
    destruct Hrel as (_ & _ & Hsent & Hkept & Hothers). by split_and!.
Qed.
End life.
End sender_queue.
