(* ===== verification/SenderQueueAlgos.v ===== *)
(** * The algorithms behind a sender queue

    Models the instances of [src/sender_queue/honey_badger.rs],
    [dynamic_honey_badger.rs] and [queueing_honey_badger.rs]: when a message of an
    algorithm is premature or obsolete for a peer, the participants an output announces,
    and the methods of a sender queue around each algorithm. *)
From S2P Require Import Prelude.
From S2P Require Import BTree.
From S2P Require Import Traits.
From S2P Require Import NetworkInfo.
From S2P Require Import Merkle.
From S2P Require Import Broadcast.
From S2P Require Import BinaryAgreement.
From S2P Require Import Subset.
From S2P Require Import HoneyBadger.
From S2P Require Import SyncKeyGen.
From S2P Require Import DhbTypes.
From S2P Require Import Votes.
From S2P Require Import DynamicHoneyBadger.
From S2P Require Import QueueingHoneyBadger.
From S2P Require Import SenderQueue.
From S2P Require Import ThresholdDecrypt.
From S2P Require Import Instances.

(** ** Honey Badger *)
Module sq_honey_badger.
Section instances.
Context {C N : Type} `{ord : NodeIdT N} `{crypto : Crypto} `{sha : Sha3}
  `{rse : ReedSolomonLib} `{bo : ByteOrder}
  `{sid : !SessionIdT (subset.BaSessionId honey_badger.EpochId)}
  `{bin_c : !Bincode C} `{bin_ct : !Bincode Ciphertext}.

#[global] Instance hb_queueable_output :
    SenderQueueableOutput (honey_badger.Batch C N) N u64 := {|
  participant_change b := None;
  output_epoch b := honey_badger.batch_epoch b;
|}.

#[global] Instance hb_queueable_message : SenderQueueableMessage (honey_badger.Message N) u64 := {|
  is_premature msg them max_future_epochs :=
    bool_decide (u64_add them max_future_epochs < honey_badger.msg_epoch msg)%Z;
  is_obsolete msg them := bool_decide (honey_badger.msg_epoch msg < them)%Z;
  first_epoch msg := honey_badger.msg_epoch msg;
|}.

#[global] Instance hb_queueable_protocol :
    SenderQueueableConsensusProtocol (honey_badger.HoneyBadger N) u64 := {|
  sq_epoched := {| cp_epoch := honey_badger.next_epoch |};
  sq_max_future_epochs := honey_badger.hb_max_future_epochs;
|}.

#[global] Instance hb_consensus_protocol :
    ConsensusProtocol (honey_badger.HoneyBadger N) Rng N C (honey_badger.Batch C N)
      (honey_badger.Message N) honey_badger.Error honey_badger.FaultKind := {|
  cp_handle_input input := with_rng (honey_badger.propose input);
  cp_handle_message sender_id msg := without_rng (honey_badger.handle_message sender_id msg);
  cp_terminated := honey_badger.terminated;
  cp_our_id s := our_id (honey_badger.netinfo s);
|}.
End instances.
End sq_honey_badger.

(** ** Dynamic Honey Badger *)
Module sq_dynamic_honey_badger.
Import dhb.
Section instances.
Context {C N : Type} `{ord : NodeIdT N} `{crypto : Crypto} `{pl : !PolyLib} `{sha : Sha3}
  `{rse : ReedSolomonLib} `{bo : ByteOrder}
  `{sid : !SessionIdT (subset.BaSessionId honey_badger.EpochId)}
  `{bin_ct : !Bincode Ciphertext} `{bin_vote : !Bincode (votes.Vote N)}
  `{bin_poly : !Bincode Poly} `{bin_fr : !Bincode Fr}
  `{bin_kg : !Bincode dynamic_honey_badger.KeyGenMessage}
  `{bin_c : !Bincode (dynamic_honey_badger.InternalContrib C N)}.

#[global] Instance dhb_queueable_output :
    SenderQueueableOutput (dynamic_honey_badger.Batch C N) N (u64 * u64) := {|
  participant_change b :=
    match dynamic_honey_badger.batch_change b with
    | InProgress (NodeChange pub_keys) =>
        Some (dom pub_keys ∪ dom (public_keys (dynamic_honey_badger.batch_netinfo b)))
    | Complete (NodeChange pub_keys) => Some (dom pub_keys)
    | _ => None
    end;
  output_epoch b :=
    let hb_epoch := u64_sub (dynamic_honey_badger.batch_epoch b) (dynamic_honey_badger.batch_era b) in
    (dynamic_honey_badger.batch_era b, hb_epoch);
|}.

#[global] Instance dhb_queueable_message :
    SenderQueueableMessage (dynamic_honey_badger.Message N) (u64 * u64) := {|
  is_premature msg '(them_era, them) max_future_epochs :=
    match msg with
    | dynamic_honey_badger.HoneyBadger era msg =>
        bool_decide (them_era < era)%Z ||
        (bool_decide (era = them_era) &&
         bool_decide (u64_add them max_future_epochs < honey_badger.msg_epoch msg)%Z)
    | dynamic_honey_badger.KeyGen era _ _ => bool_decide (them_era < era)%Z
    | dynamic_honey_badger.SignedVote sv => bool_decide (them_era < votes.sv_era sv)%Z
    end;
  is_obsolete msg '(them_era, them) :=
    match msg with
    | dynamic_honey_badger.HoneyBadger era msg =>
        bool_decide (era < them_era)%Z ||
        (bool_decide (era = them_era) && bool_decide (honey_badger.msg_epoch msg < them)%Z)
    | dynamic_honey_badger.KeyGen era _ _ => bool_decide (era < them_era)%Z
    | dynamic_honey_badger.SignedVote sv => bool_decide (votes.sv_era sv < them_era)%Z
    end;
  first_epoch msg :=
    match msg with
    | dynamic_honey_badger.HoneyBadger era msg => (era, honey_badger.msg_epoch msg)
    | dynamic_honey_badger.KeyGen era _ _ => (era, 0%Z)
    | dynamic_honey_badger.SignedVote sv => (votes.sv_era sv, 0%Z)
    end;
|}.

#[global] Instance dhb_queueable_protocol :
    SenderQueueableConsensusProtocol (dynamic_honey_badger.DynamicHoneyBadger N) (u64 * u64) := {|
  sq_epoched := {| cp_epoch := dynamic_honey_badger.dhb_epoch |};
  sq_max_future_epochs := dynamic_honey_badger.max_future_epochs;
|}.

#[global] Instance dhb_consensus_protocol :
    ConsensusProtocol (dynamic_honey_badger.DynamicHoneyBadger N) Rng N
      (dynamic_honey_badger.Input C N) (dynamic_honey_badger.Batch C N)
      (dynamic_honey_badger.Message N) dhb.Error dhb.FaultKind := {|
  cp_handle_input input := with_rng (dynamic_honey_badger.handle_input input);
  cp_handle_message sender_id msg := with_rng (dynamic_honey_badger.handle_message sender_id msg);
  cp_terminated s := false;
  cp_our_id := dynamic_honey_badger.our_id;
|}.

(** ** The methods of [SenderQueue<DynamicHoneyBadger<C, N>>] *)
Abbreviation SQ :=
  (sender_queue.SenderQueue (dynamic_honey_badger.DynamicHoneyBadger N) N (u64 * u64)
    (dynamic_honey_badger.Message N)).
Abbreviation SqStep :=
  (Step (sender_queue.Message (u64 * u64) (dynamic_honey_badger.Message N))
    (dynamic_honey_badger.Batch C N) N dhb.FaultKind).
Abbreviation SM := (M (SQ * Rng) (sender_queue.Error dhb.Error)).

Definition propose (contrib : C) : SM SqStep :=
  sender_queue.apply (with_rng (dynamic_honey_badger.propose contrib)).
Definition vote_for (change : Change N) : SM SqStep :=
  sender_queue.apply (without_rng (dynamic_honey_badger.vote_for change)).
Definition vote_to_add (node_id : N) (pub_key : PublicKey) : SM SqStep :=
  sender_queue.apply (without_rng (dynamic_honey_badger.vote_to_add node_id pub_key)).
Definition vote_to_remove (node_id : N) : SM SqStep :=
  sender_queue.apply (without_rng (dynamic_honey_badger.vote_to_remove node_id)).

(** [restart]: a new instance from a join plan, after this node was removed. *)
Definition restart (jp : dynamic_honey_badger.JoinPlan N) (peer_ids : list N) : SM SqStep :=
  '(s, rng) ← get;
  if negb (sender_queue.is_removed s) then throw sender_queue.DynamicHoneyBadgerNotRemoved
  else
    let secret_key := secret_key (dynamic_honey_badger.netinfo (sender_queue.algo s)) in
    let id := our_id (dynamic_honey_badger.netinfo (sender_queue.algo s)) in
    match dynamic_honey_badger.new_joining (C := C) id secret_key jp rng with
    | Ok dhb (dhb_step, rng) =>
        let '(sq, sq_step) := sender_queue.build id (sender_queue.builder dhb peer_ids) in
        let sq_step := step_extend sq_step
          (step_map (λ output, output) (λ fault, fault) sender_queue.Algo dhb_step) in
        modify (λ _, (sq, rng));;
        mret sq_step
    | Err _ e => throw (sender_queue.DynamicHoneyBadgerNewJoining e)
    | Panic => panic
    | NoFuel => no_fuel
    end.
End instances.
End sq_dynamic_honey_badger.

(** ** The laws of the message epochs *)
Module sq_laws.

(** The window does not overflow. *)
Definition window_fits (e mfe : u64) : Prop := (0 <= e ∧ 0 <= mfe ∧ e + mfe < 2 ^ 64)%Z.

Lemma sq_u64_add_small e mfe : window_fits e mfe → u64_add e mfe = (e + mfe)%Z.
Proof.
  unfold window_fits, u64_add, wrap64. intros (? & ? & ?). apply Z.mod_small. lia.
Qed.

#[global] Instance hb_laws {N} `{ord : NodeIdT N} `{crypto : Crypto} :
  sender_queue.SenderQueueableLaws (honey_badger.Message N) u64.
Proof.
  refine {| sender_queue.epoch_fits := window_fits |}. intros m them mfe Hfit Hp.
  apply bool_decide_eq_true in Hp. rewrite sq_u64_add_small in Hp by done.
  destruct Hfit as (? & ? & ?). apply ord_lt_nle. intros Hle.
  change (honey_badger.msg_epoch m <= them)%Z in Hle. lia.
Defined.

Lemma pair_lt (a b c d : Z) :
  (a < c ∨ a = c ∧ b < d)%Z → @ord_lt (Z * Z) _ (a, b) (c, d).
Proof.
  intros Hlt. apply ord_lt_nle. intros [Hl|[He Hl]]; cbn in *.
  - apply ord_lt_nle in Hl. change (¬ (a <= c)%Z) in Hl. lia.
  - change (d <= b)%Z in Hl. lia.
Qed.

#[global] Instance dhb_laws {N} `{ord : NodeIdT N} `{crypto : Crypto} `{pl : !PolyLib} :
  sender_queue.SenderQueueableLaws (dynamic_honey_badger.Message N) (u64 * u64).
Proof.
  refine {| sender_queue.epoch_fits e := window_fits e.2 |}. intros m [them_era them] mfe Hfit Hp.
  cbn [snd] in Hfit. apply pair_lt. destruct m as [era msg|era msg sg|sv]; cbn in *.
  - apply orb_true_iff in Hp as [Hp|[He Hp]%andb_true_iff];
      [apply bool_decide_eq_true in Hp; by left|].
    apply bool_decide_eq_true in He, Hp. rewrite sq_u64_add_small in Hp by done.
    destruct Hfit as (? & ? & ?). right. lia.
  - apply bool_decide_eq_true in Hp. by left.
  - apply bool_decide_eq_true in Hp. by left.
Defined.
End sq_laws.

(** ** Queueing Honey Badger *)
Module sq_queueing_honey_badger.
Import dhb.
Section instances.
Context {T N Q : Type} `{ord : NodeIdT N} `{crypto : Crypto} `{pl : !PolyLib} `{sha : Sha3}
  `{rse : ReedSolomonLib} `{bo : ByteOrder}
  `{sid : !SessionIdT (subset.BaSessionId honey_badger.EpochId)}
  `{bin_ct : !Bincode Ciphertext} `{bin_vote : !Bincode (votes.Vote N)}
  `{bin_poly : !Bincode Poly} `{bin_fr : !Bincode Fr}
  `{bin_kg : !Bincode dynamic_honey_badger.KeyGenMessage}
  `{bin_c : !Bincode (dynamic_honey_badger.InternalContrib (list T) N)}
  `{tq : !TransactionQueue T Q Rng}.
Context (fuel : nat).
Abbreviation Qhb := (queueing_honey_badger.QueueingHoneyBadger N Q).

#[global] Instance qhb_queueable_protocol :
    SenderQueueableConsensusProtocol Qhb (u64 * u64) := {|
  sq_epoched := {| cp_epoch s := dynamic_honey_badger.dhb_epoch (queueing_honey_badger.dyn_hb s) |};
  sq_max_future_epochs s :=
    dynamic_honey_badger.max_future_epochs (queueing_honey_badger.dyn_hb s);
|}.

Definition qhb_consensus_protocol :
    ConsensusProtocol Qhb Rng N (dynamic_honey_badger.Input T N)
      (dynamic_honey_badger.Batch (list T) N) (dynamic_honey_badger.Message N)
      queueing_honey_badger.Error dhb.FaultKind := {|
  cp_handle_input input := with_rng (queueing_honey_badger.handle_input fuel input);
  cp_handle_message sender_id msg :=
    with_rng (queueing_honey_badger.handle_message fuel sender_id msg);
  cp_terminated s := false;
  cp_our_id := queueing_honey_badger.our_id;
|}.

Abbreviation SQ :=
  (sender_queue.SenderQueue Qhb N (u64 * u64) (dynamic_honey_badger.Message N)).
Abbreviation SqStep :=
  (Step (sender_queue.Message (u64 * u64) (dynamic_honey_badger.Message N))
    (dynamic_honey_badger.Batch (list T) N) N dhb.FaultKind).
Abbreviation SM := (M (SQ * Rng) (sender_queue.Error queueing_honey_badger.Error)).

Definition push_transaction (tx : T) : SM SqStep :=
  sender_queue.apply (with_rng (queueing_honey_badger.push_transaction fuel tx)).
Definition qhb_vote_for (change : Change N) : SM SqStep :=
  sender_queue.apply (with_rng (queueing_honey_badger.vote_for fuel change)).
Definition qhb_vote_to_add (node_id : N) (pub_key : PublicKey) : SM SqStep :=
  sender_queue.apply (with_rng (queueing_honey_badger.vote_to_add fuel node_id pub_key)).
Definition qhb_vote_to_remove (node_id : N) : SM SqStep :=
  sender_queue.apply (with_rng (queueing_honey_badger.vote_to_remove fuel node_id)).
End instances.
End sq_queueing_honey_badger.

(** ** Instances: a sender queue around Honey Badger *)
Module sq_demo.
Import sq_honey_badger sq_laws.

Abbreviation HB := (honey_badger.HoneyBadger nat).
Abbreviation Msg := (honey_badger.Message nat).
Abbreviation HbBatch := (honey_badger.Batch unit nat).

(** Node 0, with the three other nodes as peers; the window is 3 epochs. *)
Definition demo_hb : HB := honey_badger.build (honey_badger.builder (four_netinfo 0)).
Definition demo_sq : sender_queue.SenderQueue HB nat u64 Msg :=
  (sender_queue.build (O := HbBatch) (F := honey_badger.FaultKind) 0
    (sender_queue.builder demo_hb [1; 2; 3])).1.

(** A step with a message of epoch 5 to all and one of epoch 1 to node 2 *)
Definition demo_msg (e : u64) : Msg :=
  honey_badger.mkMessage _ _ e (honey_badger.DecryptionShare 0 (threshold_decrypt.Msg (0, 0, []))).
Definition demo_step : Step Msg HbBatch nat honey_badger.FaultKind :=
  step_from_msgs [target_message All (demo_msg 5); target_message (Node 2) (demo_msg 1)].

Lemma demo_ok : sender_queue.queue_ok 3 demo_sq.
Proof.
  constructor; [reflexivity|..]; intros id q; change (sender_queue.outgoing_queue demo_sq) with
    (∅ : gmap nat (gmap u64 (list Msg))); rewrite lookup_empty; discriminate.
Qed.

(** With the message of epoch 5 queued for node 2, its announcement of epoch 5 *)
Definition demo_sq1 := (sender_queue.process_step demo_step demo_sq).1.
Lemma demo_ok1 : sender_queue.queue_ok 3 demo_sq1.
Proof. apply sender_queue.queue_ok_process_step, demo_ok. Qed.

Lemma announcement_releases_witness :
  let '(s', out) := sender_queue.handle_epoch_started (O := HbBatch) (F := honey_badger.FaultKind)
    2 (5%Z : u64) demo_sq1 in
  output out = [] ∧ fault_log out = [] ∧
  (∀ tm, tm ∈ messages out → ∃ m, tm = target_message (Node 2) (sender_queue.Algo m) ∧
    sender_queue.queued 2 m demo_sq1 ∧ is_obsolete m 5%Z = false ∧
    (sender_queue.epoch_fits (Msg := Msg) 5%Z 3 → is_premature m 5%Z 3 = false)) ∧
  (∀ m, sender_queue.queued 2 m demo_sq1 →
    (sender_queue.queued 2 m s' ∧ @ord_lt u64 epoch_ord 5%Z (first_epoch m)) ∨
    target_message (Node 2) (sender_queue.Algo m) ∈ messages out ∨ is_obsolete m 5%Z = true ∨
    ∃ last, sender_queue.last_epochs demo_sq1 !! 2 = Some last ∧
      @ord_lt u64 epoch_ord last (cp_epoch (sender_queue.algo demo_sq1)) ∧
      (@ord_lt u64 epoch_ord last 5%Z ∨
       ∃ e0, sender_queue.peer_epochs demo_sq1 !! 2 = Some e0 ∧ @ord_lt u64 epoch_ord last e0)) ∧
  (∀ id' m, id' ≠ 2 → sender_queue.queued id' m s' ↔ sender_queue.queued id' m demo_sq1).
Proof.
  apply (sender_queue.announcement_releases (O := HbBatch) (F := honey_badger.FaultKind)
    3 2 (5%Z : u64) demo_sq1); [exact demo_ok1|].
  vm_compute. discriminate.
Defined.

(** Node 3 left after epoch 0, and both it and this node are in epoch 1. *)
Definition demo_leaving : sender_queue.SenderQueue HB nat u64 Msg :=
  demo_sq <| sender_queue.algo ::= λ d, d <| honey_badger.epoch := 1%Z |> |>
    <| sender_queue.peer_epochs ::= <[3 := 1%Z]> |> <| sender_queue.last_epochs := {[3 := 0%Z]} |>.

Lemma pair_true {A} (p : A * bool) : p.2 = true → p = (p.1, true).
Proof. destruct p as [a b]. simpl. by intros ->. Qed.

Lemma removal_loses_nothing_witness :
  ∃ s', sender_queue.remove_participant_if_old 3 demo_leaving = (s', true) ∧
  ∃ last, sender_queue.last_epochs demo_leaving !! 3 = Some last ∧
    @ord_lt u64 epoch_ord last (cp_epoch (sender_queue.algo demo_leaving)) ∧
    ∀ them m, sender_queue.peer_epochs demo_leaving !! 3 = Some them →
      sender_queue.epoch_fits (Msg := Msg) them 3 → sender_queue.queued 3 m demo_leaving →
      @ord_lt u64 epoch_ord last them ∧ @ord_lt u64 epoch_ord them (first_epoch m).
Proof.
  eexists. split; [apply pair_true; vm_compute; reflexivity|].
  eapply (sender_queue.removal_loses_nothing 3 3 demo_leaving); [|vm_compute; discriminate|].
  - constructor; [reflexivity|..]; intros id q;
      change (sender_queue.outgoing_queue demo_leaving) with (∅ : gmap nat (gmap u64 (list Msg)));
      rewrite lookup_empty; discriminate.
  - apply pair_true. vm_compute. reflexivity.
Defined.
End sq_demo.
