(* ===== verification/SenderQueueNet.v ===== *)
(** * Sender queues in a network

    A network ([Net]) of nodes that run any algorithm inside a [SenderQueue] refines the
    network of the algorithm: the queue delays, redirects and drops messages, but passes none
    on that the algorithm has not sent to the node.  So the guarantees of [HbNet] hold for
    [SenderQueue<HoneyBadger>]. *)
From S2P Require Import Prelude.
From S2P Require Import BTree.
From S2P Require Import Traits.
From S2P Require Import Net.
From S2P Require Import NetworkInfo.
From S2P Require Import Merkle.
From S2P Require Import Broadcast.
From S2P Require Import ThresholdSign.
From S2P Require Import BinaryAgreement.
From S2P Require Import BaAgreement.
From S2P Require Import ThresholdDecrypt.
From S2P Require Import Subset.
From S2P Require Import SubsetNet.
From S2P Require Import HoneyBadger.
From S2P Require Import HbNet.
From S2P Require Import SenderQueue.
From S2P Require Import SenderQueueAlgos.

Module sender_queue_net.
Import sender_queue.

#[global] Instance sq_message_eq_dec {E Msg} `{!EqDecision E, !EqDecision Msg} : EqDecision (Message E Msg).
Proof. solve_decision. Defined.

(** Whom a target addresses *)
Definition covers {N} `{NodeIdT N} (t t' : Target N) : Prop := ∀ j : N, addressed j t = true → addressed j t' = true.

Section net.
Context {D R N I O Msg Er F E : Type} `{ord : NodeIdT N} `{et : EpochT E} `{msg_eq : !EqDecision Msg}
  `{cp : !ConsensusProtocol D R N I O Msg Er F} `{sqm : !SenderQueueableMessage Msg E}
  `{sqo : !SenderQueueableOutput O N E} `{sqd : !SenderQueueableConsensusProtocol D E}.
#[local] Existing Instance epoch_ord.
Abbreviation State := (SenderQueue D N E Msg).
Abbreviation SqStep := (Step (Message E Msg) O N F).
Abbreviation AlgoStep := (Step Msg O N F).
Implicit Types (s : State) (i j k id : N) (e : E) (m : Msg) (r : R) (x : SqStep) (step : AlgoStep).

(** ** A call of one node *)

(** The queue loses messages at most. *)
Definition shrinks s s' : Prop := algo s' = algo s ∧ ∀ id m, queued id m s' → queued id m s.
Lemma shrinks_refl s : shrinks s s.
Proof. done. Qed.
Lemma shrinks_trans s1 s2 s3 : shrinks s1 s2 → shrinks s2 s3 → shrinks s1 s3.
Proof. intros [H1 H2] [H3 H4]. split; [congruence|auto]. Qed.
Lemma shrinks_queue s s' : algo s' = algo s → outgoing_queue s' = outgoing_queue s → shrinks s s'.
Proof. intros Ha Hq. split; [done|]. intros id m. unfold queued. by rewrite Hq. Qed.
Lemma shrinks_delete s s' id : algo s' = algo s → outgoing_queue s' = delete id (outgoing_queue s) → shrinks s s'.
Proof.
  intros Ha Hq. split; [done|]. intros id' m (q & e & l & Hl & H). rewrite Hq in Hl.
  apply lookup_delete_Some in Hl as [_ Hl]. by exists q, e, l.
Qed.
Lemma shrinks_foldl {A} (f : State → A → State) l : (∀ s a, shrinks s (f s a)) → ∀ s, shrinks s (foldl f s l).
Proof. intros Hf. induction l as [|a l IH]; intros s; [done|]. cbn [foldl]. by eapply shrinks_trans. Qed.

Lemma remove_shrinks id s : shrinks s (remove_participant_if_old id s).1.
Proof.
  unfold remove_participant_if_old. repeat (case_match; cbn [fst]; try done).
  all: first [by apply shrinks_queue|by eapply (shrinks_delete _ _ id)].
Qed.
Lemma candidate_shrinks out id s : shrinks s (insert_candidate out id s).
Proof. unfold insert_candidate. repeat (case_match; try done); by apply shrinks_queue. Qed.
Lemma participants_shrinks s b batch : shrinks s (update_participants (s, b) batch).1.
Proof.
  unfold update_participants. destruct (participant_change batch) as [next|]; [|done]. cbn [fst].
  eapply shrinks_trans; [|by apply shrinks_queue]. eapply shrinks_trans; [eapply shrinks_foldl|eapply shrinks_foldl]; intros s' a.
  - apply candidate_shrinks.
  - unfold remove_participant_after. eapply shrinks_trans; [|apply remove_shrinks]. by apply shrinks_queue.
Qed.
Lemma update_epoch_shrinks step s : shrinks s (update_epoch (F := F) step s).1.
Proof.
  unfold update_epoch. destruct (output step) as [|o l]; [done|].
  assert (Hfold : ∀ l (p : State * bool), shrinks p.1 (foldl update_participants p l).1).
  { clear. induction l as [|batch l IH]; intros [s b]; [done|]. cbn [foldl]. eapply shrinks_trans; [apply participants_shrinks|apply IH]. }
  specialize (Hfold (o :: l) (s, false)). destruct (foldl _ _ _) as [s1 b1]. by destruct (_ || _).
Qed.

(** *** What is sent comes from the algorithm. *)
Lemma defer_covers pe mfe tm : let '(d, p) := defer_message (N := N) (E := E) pe mfe tm in
  (∀ t m, TM t m ∈ p → m = message tm ∧ covers t (target tm)) ∧
  (∀ id m, (id, m) ∈ d → m = message tm ∧ addressed id (target tm) = true).
Proof.
  destruct tm as [[|j] m].
  - rewrite defer_message_all. destruct (forallb _ _).
    + split; [|by intros ? ? ?%elem_of_nil]. by intros t m' [= -> ->]%list_elem_of_singleton.
    + split; intros t m' Hin; apply elem_of_concat in Hin as (l & Hin & ([k them] & -> & _)%list_elem_of_fmap).
      all: unfold split_passed, split_deferred in Hin; cbn in Hin; repeat case_match; try (by apply elem_of_nil in Hin).
      all: apply list_elem_of_singleton in Hin; unfold target_message in Hin; simplify_eq; by split.
  - unfold defer_message. cbn. destruct (pe !! j) as [them|]; [|split; by intros ? ? ?%elem_of_nil].
    destruct (is_premature _ _ _); [|destruct (negb _)]; (split; [intros t m' Hin|intros id m' Hin]); try (by apply elem_of_nil in Hin).
    all: apply list_elem_of_singleton in Hin; simplify_eq; split; first [done|by apply bool_decide_eq_true|by intros ?].
Qed.

(** What a step of the algorithm sends to a target *)
Definition sends step (t : Target N) m : Prop := ∃ t', TM t' m ∈ messages step ∧ covers t t'.
Definition sends_one step id m : Prop := ∃ t', TM t' m ∈ messages step ∧ addressed id t' = true.
Lemma defer_messages_covers step pe mfe : let '(step', d) := defer_messages (E := E) step pe mfe in
  output step' = output step ∧ (∀ t m, TM t m ∈ messages step' → sends step t m) ∧ ∀ id m, (id, m) ∈ d → sends_one step id m.
Proof.
  rewrite defer_messages_unfold. cbn. split; [done|]. split; intros a m (l & Hin & ([t' m'] & -> & Htm)%list_elem_of_fmap)%elem_of_concat.
  all: pose proof (defer_covers pe mfe (TM t' m')) as Hc; destruct (defer_message _ _ _) as [d p]; destruct Hc as [Hp Hd]; cbn in Hin.
  - destruct (Hp a m Hin) as [-> ?]. by exists t'.
  - destruct (Hd a m Hin) as [-> ?]. by exists t'.
Qed.

Lemma push_all_shrinks (l : list (N * Msg)) s id m : queued id m (foldl push_outgoing s l) → queued id m s ∨ (id, m) ∈ l.
Proof.
  rewrite queued_push_all. intros [?|Hin]; [by left|right]. unfold deferred_to in Hin.
  apply list_elem_of_omap in Hin as ([id' m'] & Hin & Hc). cbn in Hc. case_decide; [|done]. by simplify_eq.
Qed.
Lemma push_all_algo (l : list (N * Msg)) s : algo (foldl push_outgoing s l) = algo s.
Proof. revert s. induction l as [|[id m] l IH]; intros s; [done|]. cbn [foldl]. by rewrite IH. Qed.

Lemma process_step_covers step s : let '(s', x) := process_step step s in
  algo s' = algo s ∧ output x = output step ∧ (∀ t m, TM t (Algo m) ∈ messages x → sends step t m) ∧
  ∀ id m, queued id m s' → queued id m s ∨ sends_one step id m.
Proof.
  unfold process_step. pose proof (update_epoch_shrinks step s) as [Ha Hq]. pose proof (update_epoch_out step s) as Ho.
  destruct (update_epoch step s) as [s1 own]. destruct Ho as (Ho & _ & Hm). cbn [fst] in Ha, Hq. unfold sq_defer_messages.
  pose proof (defer_messages_covers step (peer_epochs s1) (sq_max_future_epochs (algo s1))) as Hd.
  destruct (defer_messages _ _ _) as [step' d]. destruct Hd as (Ho' & Hs & Hdq). split_and!.
  - by rewrite push_all_algo.
  - cbn. by rewrite Ho, Ho', list_fmap_id.
  - intros t m. cbn. rewrite elem_of_app, list_elem_of_fmap. intros [Hin|([t' m'] & [= -> ->] & Hin)]; [|by apply Hs].
    destruct Hm as [Hm|Hm]; rewrite Hm in Hin; [by apply elem_of_nil in Hin|by apply list_elem_of_singleton in Hin].
  - intros id m [?|?]%push_all_shrinks; [left; by apply Hq|right; by apply Hdq].
Qed.

Lemma epoch_started_shrinks id e s : let '(s', x) := handle_epoch_started (O := O) (F := F) id e s in
  shrinks s s' ∧ output x = [] ∧ ∀ t m, TM t (Algo m) ∈ messages x → t = Node id ∧ queued id m s.
Proof.
  unfold handle_epoch_started. set (s1 := s <| peer_epochs ::= _ |>). assert (H1 : shrinks s s1) by by apply shrinks_queue.
  pose proof (remove_shrinks id s1) as H2. destruct (remove_participant_if_old id s1) as [s2 [|]]; cbn [fst] in H2.
  { split; [by eapply shrinks_trans|]. split; [done|]. by intros t m ?%elem_of_nil. }
  assert (H12 : shrinks s s2) by by eapply shrinks_trans.
  unfold process_new_epoch. destruct (outgoing_queue s2 !! id) as [q|] eqn:Hq; [|split; [done|]; split; [done|]; by intros t m ?%elem_of_nil].
  split_and!; [|done|].
  - destruct H12 as [Ha Hs]. split; [done|]. intros id' m (q' & k & l & Hl & Hk & Hin). apply Hs. cbn in Hl.
    apply lookup_insert_Some in Hl as [[<- <-]|[_ Hl]]; [|by exists q', k, l].
    rewrite lookup_foldl_delete in Hk. case_decide; [done|]. by exists q, k, l.
  - cbn. intros t m (m' & [= -> ->] & [_ Hin]%list_elem_of_filter)%list_elem_of_fmap. split; [done|]. apply H12.
    apply elem_of_concat in Hin as (l & Hin & (k & _ & Hk)%list_elem_of_omap). by exists q, k, l.
Qed.

(** A call of the sender queue, and the call of the algorithm in it, if there is one *)
Inductive sq_did s r : option (outcome (D * R) Er AlgoStep) → outcome (State * R) (Error Er) SqStep → Prop :=
  | sq_idle s' x : shrinks s s' → output x = [] →
      (∀ t m, TM t (Algo m) ∈ messages x → ∃ id, t = Node id ∧ queued id m s) → sq_did s r None (Ok (s', r) x)
  | sq_ok d r' step s' x : algo s' = d → output x = output step → (∀ t m, TM t (Algo m) ∈ messages x → sends step t m) →
      (∀ id m, queued id m s' → queued id m s ∨ sends_one step id m) → sq_did s r (Some (Ok (d, r') step)) (Ok (s', r') x)
  | sq_err d r' err err' : sq_did s r (Some (Err (d, r') err)) (Err (s <| algo := d |>, r') err')
  | sq_panic o : sq_did s r o Panic
  | sq_loop o : sq_did s r o NoFuel.

Lemma apply_did f s r : sq_did s r (Some (f (algo s, r))) (apply f (s, r)).
Proof.
  unfold apply, mbind, M_bind, zoom, map_err. destruct (f (algo s, r)) as [[d r'] step|[d r'] err| |]; [|constructor..].
  cbn. pose proof (process_step_covers step (s <| algo := d |>)) as Hp.
  destruct (process_step step (s <| algo := d |>)) as [s' x]. destruct Hp as (Ha & Ho & Hs & Hq). by constructor.
Qed.
Lemma sq_idle_refl s r : sq_did s r None (Ok (s, r) step_default).
Proof. constructor; [done|done|]. by intros t m ?%elem_of_nil. Qed.
Lemma sq_input_did v s r : ∃ o, sq_did s r o (handle_input v (s, r)) ∧ (o = None ∨ o = Some (cp_handle_input v (algo s, r))).
Proof.
  unfold handle_input, mbind, M_bind, get. destruct (is_removed s).
  - exists None. split; [apply sq_idle_refl|by left].
  - eexists. split; [apply apply_did|by right].
Qed.
Lemma sq_message_did j msg s r : ∃ o, sq_did s r o (handle_message j msg (s, r)) ∧
  (o = None ∨ ∃ m, msg = Algo m ∧ o = Some (cp_handle_message j m (algo s, r))).
Proof.
  unfold handle_message, mbind, M_bind, get. destruct (is_removed s).
  { exists None. split; [apply sq_idle_refl|by left]. }
  destruct msg as [e|m].
  - exists None. split; [|by left]. pose proof (epoch_started_shrinks j e s) as Hs. destruct (handle_epoch_started j e s) as [s' x].
    destruct Hs as (Hs & Ho & Hm). cbn. constructor; [done..|]. intros t m Hin. exists j. by apply Hm.
  - eexists. split; [apply apply_did|]. right. by exists m.
Qed.

(** ** The network *)
Context (correct : gset N).
Abbreviation SqWorld := (Net.world N (State * R) I (Message E Msg) O).
Abbreviation AlgoWorld := (Net.world N (D * R) I Msg O).
Implicit Types (w : SqWorld) (iw : AlgoWorld).

(** The worlds of the sender queues and of the algorithms: the states and outputs are the same,
    and what is sent or queued was sent by the algorithm to at least the same nodes. *)
Record sq_sim w iw : Prop := {
  ss_node i : i ∈ correct → w_node iw i = (algo (w_node w i).1, (w_node w i).2);
  ss_out i : i ∈ correct → (w_out iw i).*1 = (w_out w i).*1;
  ss_input i v : i ∈ correct → v ∈ w_input iw i → v ∈ w_input w i;
  ss_sent k t m : (k, TM t (Algo m)) ∈ w_sent w → ∃ t', (k, TM t' m) ∈ w_sent iw ∧ covers t t';
  ss_queued k id m : k ∈ correct → queued id m (w_node w k).1 → ∃ t', (k, TM t' m) ∈ w_sent iw ∧ addressed id t' = true;
}.

Lemma idle_sim w w' iw i ins s' r' x : sq_sim w iw → acts w w' i ins (s', r') x → shrinks (w_node w i).1 s' →
  r' = (w_node w i).2 → i ∈ correct → output x = [] →
  (∀ t m, TM t (Algo m) ∈ messages x → ∃ id, t = Node id ∧ queued id m (w_node w i).1) → sq_sim w' iw.
Proof.
  intros [H1 H2 H3 H4 H5] Ha [Hal Hq] -> Hi Ho Hm. split.
  - intros k Hk. rewrite (H1 k Hk). destruct (decide (k = i)) as [->|Hne]; [|by rewrite (a_node_ne _ _ _ _ _ _ Ha k Hne)].
    rewrite (a_node _ _ _ _ _ _ Ha). cbn. by rewrite Hal.
  - intros k Hk. rewrite (H2 k Hk). destruct (decide (k = i)) as [->|Hne]; [|by rewrite (a_out_ne _ _ _ _ _ _ Ha k Hne)].
    by rewrite (a_out _ _ _ _ _ _ Ha), Ho, app_nil_r.
  - intros k v Hk Hin%H3; [|done]. apply (a_input _ _ _ _ _ _ Ha). by left.
  - intros k t m. rewrite (a_sent _ _ _ _ _ _ Ha), elem_of_app, list_elem_of_fmap.
    intros [?|(tm & [= -> <-] & Hin)]; [by apply H4|]. destruct (Hm t m Hin) as (id & -> & Hqd). destruct (H5 i id m Hi Hqd) as (t' & Ht' & Had).
    exists t'. split; [done|]. by intros j ->%bool_decide_eq_true.
  - intros k id m Hk. destruct (decide (k = i)) as [->|Hne]; [|rewrite (a_node_ne _ _ _ _ _ _ Ha k Hne); by apply H5].
    rewrite (a_node _ _ _ _ _ _ Ha). intros ?%Hq. by apply H5.
Qed.

Lemma call_sim w w' iw iw' i ins ins' s' d r' x step : sq_sim w iw → acts w w' i ins (s', r') x → acts iw iw' i ins' (d, r') step →
  (∀ v, v ∈ ins' → v ∈ ins) → algo s' = d → output x = output step → (∀ t m, TM t (Algo m) ∈ messages x → sends step t m) →
  (∀ id m, queued id m s' → queued id m (w_node w i).1 ∨ sends_one step id m) → sq_sim w' iw'.
Proof.
  intros [H1 H2 H3 H4 H5] Ha Hb Hins Hd Ho Hs Hq.
  assert (Hold : ∀ k t' m, (k, TM t' m) ∈ w_sent iw → (k, TM t' m) ∈ w_sent iw').
  { intros k t' m Hin. rewrite (a_sent _ _ _ _ _ _ Hb). apply elem_of_app. by left. }
  assert (Hnew : ∀ t' m, TM t' m ∈ messages step → (i, TM t' m) ∈ w_sent iw').
  { intros t' m Hin. rewrite (a_sent _ _ _ _ _ _ Hb). apply elem_of_app. right. apply list_elem_of_fmap. by eexists. }
  split.
  - intros k Hk. destruct (decide (k = i)) as [->|Hne].
    + by rewrite (a_node _ _ _ _ _ _ Ha), (a_node _ _ _ _ _ _ Hb), <- Hd.
    + rewrite (a_node_ne _ _ _ _ _ _ Ha k Hne), (a_node_ne _ _ _ _ _ _ Hb k Hne). by apply H1.
  - intros k Hk. destruct (decide (k = i)) as [->|Hne].
    + by rewrite (a_out _ _ _ _ _ _ Ha), (a_out _ _ _ _ _ _ Hb), Ho, (H2 i Hk).
    + rewrite (a_out_ne _ _ _ _ _ _ Ha k Hne), (a_out_ne _ _ _ _ _ _ Hb k Hne). by apply H2.
  - intros k v Hk [Hin|[-> Hin]]%(a_input _ _ _ _ _ _ Hb); apply (a_input _ _ _ _ _ _ Ha); [left; by apply H3|right; auto].
  - intros k t m. rewrite (a_sent _ _ _ _ _ _ Ha), elem_of_app, list_elem_of_fmap. intros [(t' & ? & ?)%H4|(tm & [= -> <-] & Hin)].
    + exists t'. auto.
    + destruct (Hs t m Hin) as (t' & ? & ?). exists t'. auto.
  - intros k id m Hk. destruct (decide (k = i)) as [->|Hne].
    + rewrite (a_node _ _ _ _ _ _ Ha). intros [Hqd|(t' & ? & ?)]%Hq; [destruct (H5 i id m Hk Hqd) as (t' & ? & ?)|]; exists t'; auto.
    + rewrite (a_node_ne _ _ _ _ _ _ Ha k Hne). intros Hqd. destruct (H5 k id m Hk Hqd) as (t' & ? & ?). exists t'. auto.
Qed.

Lemma did_sim w w' iw i ins o res : sq_sim w iw → i ∈ correct → sq_did (w_node w i).1 (w_node w i).2 o res →
  commit w i ins res = Some w' → (o = None → sq_sim w' iw) ∧
  ∀ res', o = Some res' → ∃ iw', commit iw i ins res' = Some iw' ∧ sq_sim w' iw'.
Proof.
  intros Hs Hi Hd Hc%commit_acts. destruct Hd as [s' x Hsh Ho Hm|d r' step s' x Ha Ho Hm Hq|d r' err err'|o|o]; [| | |done..].
  - split; [|done]. intros _. by eapply idle_sim.
  - split; [done|]. intros res' [= <-]. destruct (commit iw i ins (Ok (d, r') step)) as [iw'|] eqn:Hiw; [|done].
    exists iw'. split; [done|]. apply commit_acts in Hiw. by eapply call_sim.
  - split; [done|]. intros res' [= <-]. destruct (commit iw i ins (Err (d, r') err)) as [iw'|] eqn:Hiw; [|done].
    exists iw'. split; [done|]. apply commit_acts in Hiw.
    eapply (call_sim w w' iw iw' i [] [] _ d r' step_default step_default); try done; [by intros t m ?%elem_of_nil|by left].
Qed.

Context (initial : AlgoWorld → Prop).
(** Every node starts with an announcement of its epoch, [pe i] are the epochs it assumes of
    its peers. *)
Definition sq_start iw (pe : N → gmap N E) : SqWorld :=
  let node i := build (O := O) (F := F) i (mkBuilder (w_node iw i).1 (pe i)) in
  World (λ i, ((node i).1, (w_node iw i).2)) (i ← elements correct; pair i <$> messages (node i).2) (λ _, []) (λ _, []).
Definition sq_initial w : Prop := ∃ iw pe, initial iw ∧ (∀ i, i ∈ correct → w_input iw i = [] ∧ w_out iw i = []) ∧
  w = sq_start iw pe.
Abbreviation sq_reachable := (Net.reachable (handle_input (cp := cp)) handle_message (λ _, true) correct sq_initial).
Abbreviation reachable := (Net.reachable (cp_handle_input (ConsensusProtocol := cp)) cp_handle_message (λ _, true) correct initial).

Lemma start_sim iw pe : (∀ i, i ∈ correct → w_input iw i = [] ∧ w_out iw i = []) → sq_sim (sq_start iw pe) iw.
Proof.
  intros Hin. split; cbn.
  - intros i _. by destruct (w_node iw i).
  - intros i Hi. by rewrite (proj2 (Hin i Hi)).
  - intros i v Hi. rewrite (proj1 (Hin i Hi)). by intros ?%elem_of_nil.
  - intros k t m (i & Hm & _)%list_elem_of_bind.
    by apply list_elem_of_singleton in Hm.
  - intros k id m _ (q & e & l & Hq & _). cbn in Hq. by apply lookup_empty_Some in Hq.
Qed.

Lemma sq_sim_exists w : sq_reachable w → ∃ iw, reachable iw ∧ sq_sim w iw.
Proof.
  induction 1 as [w (iw & pe & Hi & Hin & ->)|w ev w' _ (iw & Hr & Hs) Ha He]; [exists iw; split; [by apply reach_init|by apply start_sim]|].
  destruct ev as [i v|i j msg]; cbn in He.
  - pose proof Ha as Hi%allowed_input. destruct (w_node w i) as [s r] eqn:Hw. destruct (sq_input_did v s r) as (o & Hd & Ho).
    pose proof (did_sim w w' iw i [v] o (handle_input v (s, r)) Hs Hi) as Hsim. rewrite Hw in Hsim.
    destruct (Hsim Hd He) as [Hidle Hcall]. destruct Ho as [->| ->]; [by exists iw; auto|].
    destruct (Hcall _ eq_refl) as (iw' & Hc & Hs'). exists iw'. split; [|done]. apply (reach_step _ _ _ _ _ iw (Input i v)); [done| |].
    + by apply allowed_input.
    + cbn. rewrite (ss_node _ _ Hs i Hi), Hw. exact Hc.
  - pose proof Ha as (Hi & Hji & _ & Hsent)%allowed_deliver_iff. destruct (w_node w i) as [s r] eqn:Hw.
    destruct (sq_message_did j msg s r) as (o & Hd & Ho).
    pose proof (did_sim w w' iw i [] o (handle_message j msg (s, r)) Hs Hi) as Hsim. rewrite Hw in Hsim.
    destruct (Hsim Hd He) as [Hidle Hcall]. destruct Ho as [->|(m & -> & ->)]; [by exists iw; auto|].
    destruct (Hcall _ eq_refl) as (iw' & Hc & Hs'). exists iw'. split; [|done]. apply (reach_step _ _ _ _ _ iw (Deliver i j m)); [done| |].
    + apply allowed_deliver_iff. split_and!; [done..|]. intros ([t m'] & Hin & Hm & Hto)%Hsent. cbn in Hm, Hto. subst m'.
      destruct (ss_sent _ _ Hs j t m Hin) as (t' & Hin' & Hcov). exists (TM t' m). split_and!; [done..|by apply Hcov].
    + cbn. rewrite (ss_node _ _ Hs i Hi), Hw. exact Hc.
Qed.

(** C30: Sender queues are transparent to safety: whatever algorithm is in them, the nodes of a network
    of sender queues have algorithms in the states of a reachable network of the algorithm itself, have made the
    same outputs, and send and hold back only messages that their algorithm has sent to
    the same nodes. *)
Theorem sq_refines w : sq_reachable w → ∃ iw, reachable iw ∧ sq_sim w iw.
Proof. apply sq_sim_exists. Qed.
End net.
(** ** Without the generators of random numbers *)
Section drop_rng.
Context {D R N I O Msg Er F : Type} `{ord : NodeIdT N} `{msg_eq : !EqDecision Msg}.
Context (inp : I → R → M D Er (Step Msg O N F * R)) (msg : N → Msg → M D Er (Step Msg O N F)) (correct : gset N).
Implicit Types (iw : Net.world N (D * R) I Msg O) (hw : Net.world N D (I * R) Msg O).

Definition plain_input (x : I * R) : M D Er (Step Msg O N F) := '(step, _) ← inp x.1 x.2; mret step.
(** The same world, with the generator as a part of the input and not of the state *)
Record dropped iw hw : Prop := {
  d_node i : i ∈ correct → w_node hw i = (w_node iw i).1;
  d_sent : w_sent hw = w_sent iw;
  d_input i x : i ∈ correct → x ∈ w_input hw i → x.1 ∈ w_input iw i;
  d_out i : i ∈ correct → (w_out hw i).*1 = (w_out iw i).*1;
}.

Lemma acts_dropped iw iw' hw hw' i ins ins' d r (x : Step Msg O N F) : dropped iw hw → acts iw iw' i ins (d, r) x → acts hw hw' i ins' d x →
  (∀ y, y ∈ ins' → y.1 ∈ ins) → dropped iw' hw'.
Proof.
  intros [H1 H2 H3 H4] Ha Hb Hins. split.
  - intros k Hk. destruct (decide (k = i)) as [->|Hne]; [by rewrite (a_node _ _ _ _ _ _ Ha), (a_node _ _ _ _ _ _ Hb)|].
    rewrite (a_node_ne _ _ _ _ _ _ Ha k Hne), (a_node_ne _ _ _ _ _ _ Hb k Hne). by apply H1.
  - by rewrite (a_sent _ _ _ _ _ _ Ha), (a_sent _ _ _ _ _ _ Hb), H2.
  - intros k y Hk [Hy|[-> Hy]]%(a_input _ _ _ _ _ _ Hb); apply (a_input _ _ _ _ _ _ Ha); [left; by apply H3|right; auto].
  - intros k Hk. destruct (decide (k = i)) as [->|Hne].
    + by rewrite (a_out _ _ _ _ _ _ Ha), (a_out _ _ _ _ _ _ Hb), (H4 i Hk).
    + rewrite (a_out_ne _ _ _ _ _ _ Ha k Hne), (a_out_ne _ _ _ _ _ _ Hb k Hne). by apply H4.
Qed.

(** The outcome without the generator *)
Definition drop (o : outcome (D * R) Er (Step Msg O N F)) : outcome D Er (Step Msg O N F) :=
  match o with Ok s x => Ok s.1 x | Err s err => Err s.1 err | Panic => Panic | NoFuel => NoFuel end.
Lemma commit_dropped iw iw' hw i ins ins' o : dropped iw hw → commit iw i ins o = Some iw' → (∀ y, y ∈ ins' → y.1 ∈ ins) →
  ∃ hw', commit hw i ins' (drop o) = Some hw' ∧ dropped iw' hw'.
Proof.
  intros Hd Hc Hins. destruct (commit hw i ins' (drop o)) as [hw'|] eqn:Hh; [|by destruct o].
  exists hw'. split; [done|]. apply commit_acts in Hc, Hh. destruct o as [[d r] x|[d r] err| |]; [| |done..]; cbn in Hh.
  - by eapply acts_dropped.
  - eapply acts_dropped; [done..|]. by intros y ?%elem_of_nil.
Qed.
Lemma drop_input v d r : drop (with_rng (inp v) (d, r)) = plain_input (v, r) d.
Proof. unfold with_rng, plain_input, mbind, M_bind. cbn. by destruct (inp v r d) as [? []| | |]. Qed.
Lemma drop_message j m d r : drop (without_rng (msg j m) (d, r)) = msg j m d.
Proof. unfold without_rng, zoom. cbn. by destruct (msg j m d). Qed.

Context (initial : Net.world N (D * R) I Msg O → Prop) (initial' : Net.world N D (I * R) Msg O → Prop).
Context (Hinit : ∀ iw, initial iw → ∃ hw, initial' hw ∧ dropped iw hw).
Lemma drop_reachable iw : Net.reachable (λ v, with_rng (inp v)) (λ j m, without_rng (msg j m)) (λ _, true) correct initial iw →
  ∃ hw, Net.reachable plain_input msg (λ _, true) correct initial' hw ∧ dropped iw hw.
Proof.
  induction 1 as [iw (hw & Hi & Hd)%Hinit|iw ev iw' _ (hw & Hr & Hd) Ha He]; [exists hw; split; [by apply reach_init|done]|].
  destruct ev as [i v|i j m]; cbn in He; destruct (w_node iw i) as [d r] eqn:Hn.
  - pose proof Ha as Hi%allowed_input. destruct (commit_dropped _ _ hw i [v] [(v, r)] _ Hd He) as (hw' & Hc & Hd').
    { intros y ->%list_elem_of_singleton. by apply list_elem_of_singleton. }
    exists hw'. split; [|done]. apply (reach_step _ _ _ _ _ hw (Input i (v, r))); [done|by apply allowed_input|].
    cbn [exec]. by rewrite (d_node _ _ Hd i Hi), Hn, <- Hc, drop_input.
  - pose proof Ha as (Hi & Hj & Hp & Hs)%allowed_deliver_iff.
    destruct (commit_dropped _ _ hw i [] [] _ Hd He) as (hw' & Hc & Hd'); [by intros y ?%elem_of_nil|].
    exists hw'. split; [|done]. apply (reach_step _ _ _ _ _ hw (Deliver i j m)); [done| |].
    + apply allowed_deliver_iff. by rewrite (d_sent _ _ Hd).
    + cbn [exec]. by rewrite (d_node _ _ Hd i Hi), Hn, <- Hc, drop_message.
Qed.
End drop_rng.

(** ** Sender queues around Honey Badger *)
Section honey_badger.
Import sq_honey_badger.
Context {C N : Type} `{ord : NodeIdT N} `{crypto : Crypto} `{sha : Sha3}
  `{rse : ReedSolomonLib} `{bo : ByteOrder} `{sid : !SessionIdT (subset.BaSessionId honey_badger.EpochId)}
  `{bin_c : !Bincode C} `{bin_ct : !Bincode Ciphertext}
  `{rse_laws : !ReedSolomonLaws} `{bo_laws : !ByteOrderLaws} `{sig_laws : !ThresholdSigLaws}
  `{enc_laws : !ThresholdEncLaws} `{share_eq : !EqDecision SignatureShare}
  `{dec_eq : !EqDecision NetworkInfo.DecryptionShare}.
Context (pubs : gmap N PublicKey) (correct : gset N) (pks : PublicKeySet).
Context (hb_id e0 : u64) (sched : honey_badger.EncryptionSchedule).
Abbreviation HB := (honey_badger.HoneyBadger N).
Abbreviation HbBatch := (honey_badger.Batch C N).
Abbreviation hb_initial := (hb_net.hb_initial (C := C) pubs correct pks hb_id e0 sched).
Abbreviation hb_reachable := (Net.reachable (hb_net.hb_input (C := C)) honey_badger.handle_message (λ _, true) correct hb_initial).
Context (Hcorrect : correct ⊆ dom pubs) (Hbyz : size (dom pubs ∖ correct) ≤ (size pubs - 1) / 3).
Context (Hser : ∀ (id : subset.BaSessionId honey_badger.EpochId) e, is_Some (serialize_coin_id id e)).
Context (He0 : (0 ≤ e0)%Z) (He0w : (e0 < 2 ^ 64)%Z).

(** Nodes of [hb_initial] with a generator each *)
Definition rng_initial (iw : Net.world N (HB * Rng) C (honey_badger.Message N) HbBatch) : Prop := w_sent iw = [] ∧
  (∀ i, i ∈ correct → w_input iw i = [] ∧ w_out iw i = []) ∧ ∃ hw, hb_initial hw ∧ dropped correct iw hw.
Abbreviation sq_reachable := (Net.reachable (handle_input (D := HB) (R := Rng) (Msg := honey_badger.Message N) (I := C)) handle_message (λ _, true) correct
  (sq_initial (F := honey_badger.FaultKind) correct rng_initial)).

(** C7: Total order behind sender queues: the algorithms in a network of [SenderQueue<HoneyBadger>]
    nodes are in the states of a reachable network of [HoneyBadger] nodes that has output
    the same, so the [n]-th batches that two correct nodes output are equal, under the same
    conditions as without the queues. *)
Theorem hb_sq_agreement w : sq_reachable w → ∃ hw, hb_reachable hw ∧
  (∀ i, i ∈ correct → w_node hw i = algo (w_node w i).1 ∧ (w_out hw i).*1 = (w_out w i).*1) ∧
  (hb_net.epochs_left correct hw → ¬ hb_net.overflown correct e0 hw →
    ∀ i j n b b', i ∈ correct → j ∈ correct → (w_out w i).*1 !! n = Some b → (w_out w j).*1 !! n = Some b' →
      b = b' ∨ hb_net.shards_collide pubs correct pks hb_id e0 sched (e0 + Z.of_nat n)%Z hw i j).
Proof.
  intros Hw. pose proof (sq_sim_exists correct rng_initial w Hw) as (iw & Hr & Hs). apply (drop_reachable _ _ _ _ hb_initial) in Hr as (hw & Hr & Hd); [|by intros iw' (_ & _ & ?)].
  assert (Hout : ∀ i, i ∈ correct → (w_out hw i).*1 = (w_out w i).*1).
  { intros i Hi. by rewrite (d_out _ _ _ Hd i Hi), (ss_out _ _ _ Hs i Hi). }
  exists hw. split; [exact Hr|]. split.
  - intros i Hi. split; [|by apply Hout]. by rewrite (d_node _ _ _ Hd i Hi), (ss_node _ _ _ Hs i Hi).
  - intros Hl Hov i j n b b' Hi Hj. rewrite <- (Hout i Hi), <- (Hout j Hj).
    by apply (hb_net.batches_agree pubs correct pks hb_id e0 sched).
Qed.
End honey_badger.
End sender_queue_net.
