(* ===== verification/SenderQueueNetDemo.v ===== *)
(** * Sender queues in a network: an execution

    The four validators of [HbDemo], each behind a sender queue that assumes its peers to be
    in epoch 0; node 3 is faulty and silent.  The theorems of [SenderQueueNet] apply. *)
From S2P Require Import Prelude.
From S2P Require Import BTree.
From S2P Require Import Traits.
From S2P Require Import Net.
From S2P Require Import NetworkInfo.
From S2P Require Import Merkle.
From S2P Require Import Broadcast.
From S2P Require Import ThresholdSign.
From S2P Require Import BinaryAgreement.
From S2P Require Import BaAgreement.
From S2P Require Import ThresholdDecrypt.
From S2P Require Import Subset.
From S2P Require Import SubsetDemo.
From S2P Require Import HoneyBadger.
From S2P Require Import HbNet.
From S2P Require Import HbDemo.
From S2P Require Import Instances.
From S2P Require Import SenderQueue.
From S2P Require Import SenderQueueAlgos.
From S2P Require Import SenderQueueNet.

Module sender_queue_net_demo.
Import sender_queue sender_queue_net sq_honey_badger hb_demo.

#[local] Existing Instance threshold_sign.number_sig_laws.
#[local] Existing Instance threshold_decrypt.number_enc_laws.
#[local] Existing Instance ba_agreement.demo_share_eq.
#[local] Existing Instance subset_demo.any_session.
#[local] Existing Instance subset_demo.last_byte.
#[local] Existing Instance hb_demo.demo_dec_eq.
#[local] Existing Instance hb_demo.bin_contribution.
#[local] Existing Instance hb_demo.bin_ciphertext.

Abbreviation HB := (@honey_badger.HoneyBadger nat nat_ord_key number_crypto repeat_code).
Abbreviation HbMsg := (@honey_badger.Message nat number_crypto).
Abbreviation HbBatch := (@honey_badger.Batch bytes nat nat_ord_key).
Abbreviation rng_world := (Net.world nat (HB * nat) bytes HbMsg HbBatch).
Abbreviation sq_world := (Net.world nat (SenderQueue HB nat Z HbMsg * nat) bytes (Message Z HbMsg) HbBatch).

(** Each node starts with the random number 0. *)
Definition sq_hb : rng_world := World (λ i, (w_node hb_init i, 0)) [] (λ _, []) (λ _, []).
Definition peers (i : nat) : gmap nat Z := list_to_map ((λ j, (j, 0%Z)) <$> filter (λ j, j ≠ i) [0; 1; 2; 3]).
Definition sq_init : sq_world := sq_start (ord := nat_ord_key) (F := honey_badger.FaultKind) hb_correct sq_hb peers.
Abbreviation sq_input := (handle_input (ord := nat_ord_key) (D := HB) (R := nat) (Msg := HbMsg) (I := bytes) (O := HbBatch)).
Abbreviation sq_message := (handle_message (ord := nat_ord_key) (D := HB) (R := nat) (Msg := HbMsg) (I := bytes) (O := HbBatch)).
Abbreviation sq_run := (Net.run (ord := nat_ord_key) sq_input sq_message (λ _, true) hb_correct).
Abbreviation sq_rounds := (Net.rounds (ord := nat_ord_key) sq_input sq_message (λ _, true) hb_correct).
Abbreviation rng_initial := (rng_initial (C := bytes) (ord := nat_ord_key) (crypto := number_crypto) four_keys hb_correct hb_keys 5 0 honey_badger.Always).
Abbreviation sq_reachable := (Net.reachable (ord := nat_ord_key) sq_input sq_message (λ _, true) hb_correct
  (sq_initial (ord := nat_ord_key) (F := honey_badger.FaultKind) hb_correct rng_initial)).

(** Two epochs *)
Definition sq_inputs a b c : list (event nat bytes (Message Z HbMsg)) := [Input 0 [a]; Input 1 [b]; Input 2 [c]].
Definition sq_final : option sq_world :=
  w ← sq_run sq_init (sq_inputs "a" "b" "c"); w ← sq_rounds 10 w;
  w ← sq_run w (sq_inputs "d" "e" "f"); sq_rounds 10 w.

Lemma sq_init_ok : sq_initial (ord := nat_ord_key) (F := honey_badger.FaultKind) hb_correct rng_initial sq_init.
Proof.
  exists sq_hb, peers. split_and!; [|done|done]. split_and!; [done..|]. exists hb_init. split; [exact hb_initial_ok|].
  split; try done. by intros i x _ ?%elem_of_nil.
Qed.
Lemma sq_final_reachable w : sq_final = Some w → sq_reachable w.
Proof.
  unfold sq_final. destruct (sq_run sq_init _) as [w1|] eqn:Hw1; [|done]. cbn [mbind option_bind].
  destruct (sq_rounds 10 w1) as [w2|] eqn:Hw2; [|done]. cbn [mbind option_bind].
  destruct (sq_run w2 _) as [w3|] eqn:Hw3; [|done]. cbn [mbind option_bind]. intros Hw4.
  eapply rounds_reachable, Hw4. eapply run_reachable, Hw3. eapply rounds_reachable, Hw2.
  eapply run_reachable, Hw1. apply reach_init, sq_init_ok.
Qed.

Lemma sq_read_off (o : option sq_world) : (λ w, (λ i, (w_out w i).*1) <$> [0; 1; 2]) <$> o = Some (replicate 3 hb_expected) →
  ∃ w, o = Some w ∧ ∀ i, i ∈ hb_correct → (w_out w i).*1 = hb_expected.
Proof. destruct o as [w|]; [|done]. intros Ho%(inj Some). exists w. split; [done|]. exact (hb_three _ _ Ho). Qed.
Lemma sq_outputs : ∃ w, sq_final = Some w ∧ ∀ i, i ∈ hb_correct → (w_out w i).*1 = hb_expected.
Proof. apply sq_read_off. vm_compute. reflexivity. Qed.

Lemma sq_refines_witness : ∃ (w : sq_world) (iw : rng_world), sq_final = Some w ∧ (w_out w 0).*1 = hb_expected ∧
  sq_sim (ord := nat_ord_key) hb_correct w iw.
Proof.
  destruct sq_outputs as (w & Hw & Hout). exists w.
  destruct (sq_refines (ord := nat_ord_key) hb_correct rng_initial w (sq_final_reachable w Hw)) as (iw & _ & Hs).
  exists iw. split; [exact Hw|]. split; [exact (Hout 0 (proj1 hb_correct_in))|exact Hs].
Defined.

Lemma hb_sq_agreement_witness : ∃ (w : sq_world) (hw : demo_world), (w_out hw 0).*1 = (w_out w 0).*1 ∧
  (hb_epochs_left hw → hb_batch 1 "d" "e" "f" = hb_batch 1 "d" "e" "f" ∨ hb_collide 1 hw 0 2).
Proof.
  destruct sq_outputs as (w & Hw & Hout). destruct hb_correct_in as (H0 & _ & H2). exists w.
  destruct (hb_sq_agreement (ord := nat_ord_key) (crypto := number_crypto) four_keys hb_correct hb_keys 5 0 honey_badger.Always
    (proj1 hb_byz) (proj2 hb_byz) demo_ser (proj1 demo_first) (proj2 demo_first) w (sq_final_reachable w Hw)) as (hw & _ & Hn & Hb).
  exists hw. split; [exact (proj2 (Hn 0 H0))|]. intros Hl.
  refine (Hb Hl (outs_fit hw (λ i Hi, eq_trans (proj2 (Hn i Hi)) (Hout i Hi))) 0 2 1 _ _ H0 H2 _ _).
  - exact (f_equal (λ l : list HbBatch, l !! 1) (Hout 0 H0)).
  - exact (f_equal (λ l : list HbBatch, l !! 1) (Hout 2 H2)).
Defined.
(** Node 0 starts in epoch 5 and proposes, with the three others in epoch 0; the window is 3. *)
Abbreviation SQ := (SenderQueue HB nat Z HbMsg).
Definition ahead : SQ :=
  (build (O := HbBatch) (F := honey_badger.FaultKind) 0 (builder (honey_badger.build
    (honey_badger.set_epoch 5 (honey_badger.builder (four_netinfo 0)))) [1; 2; 3])).1.
Definition ahead_call := sq_input ["a"%byte] (ahead, 0).
Definition waiting : SQ := match ahead_call with Ok (s, _) _ => s | _ => ahead end.
Definition waits_at (s : SQ) (i : nat) : nat :=
  match outgoing_queue s !! i with Some q => sum_list (length <$> (map_to_list q).*2) | None => 0 end.

Lemma waiting_life : life (ord := nat_ord_key) (R := nat) (I := bytes) (O := HbBatch) (Er := honey_badger.Error)
  (F := honey_badger.FaultKind) 3 waiting.
Proof.
  eapply (life_input 3 ahead ["a"%byte]); [by apply life_build| |vm_compute; reflexivity].
  exists 0. change (match ahead_call with Ok (s1, _) _ | Err (s1, _) _ => s1 = waiting | Panic | NoFuel => False end).
  unfold waiting. assert (Hok : match ahead_call with Ok _ _ => true | _ => false end = true) by (vm_compute; reflexivity).
  destruct ahead_call as [[s r] x|[s r] x| |]; [reflexivity|discriminate Hok..].
Defined.

(** Its messages wait for node 2, which announces epoch 3, where they would be accepted, and then
    epoch 5. *)
Definition announce (e : Z) : SQ * _ := handle_epoch_started (O := HbBatch) (F := honey_badger.FaultKind) 2 e waiting.
Lemma queue_waits_witness :
  waits_at waiting 2 = 2 ∧ waits_at (announce 3).1 2 = 2 ∧ waits_at (announce 5).1 2 = 0 ∧
  length (messages (announce 5).2) = 2 ∧
  (∀ m, queued 2 m waiting → ∃ them, peer_epochs waiting !! 2 = Some them ∧
    (sq_laws.window_fits them 3 → (them < honey_badger.msg_epoch m)%Z)) ∧
  ∀ m, queued 2 m waiting → honey_badger.msg_epoch m = 5%Z →
    target_message (Node 2) (Algo m) ∈ messages (announce 5).2.
Proof.
  pose proof (queue_waits 3 waiting waiting_life) as [Hw Ha].
  split_and!; [vm_compute; reflexivity..| |].
  - intros m Hm. destruct (Hw 2 m Hm) as (them & Ht & Hlt). exists them. split; [exact Ht|].
    intros Hf. apply ord_lt_nle in Hlt; [|exact Hf]. apply Z.lt_nge. exact Hlt.
  - intros m Hm He. specialize (Ha 2 5%Z). fold (announce 5) in Ha.
    assert (H0 : last_epochs waiting !! 2 = None) by (vm_compute; reflexivity).
    destruct (announce 5) as [s' out]. destruct Ha as (Ha & _); [vm_compute; discriminate|].
    destruct (Ha m Hm) as [[_ Hlt]|[Hs|[Ho|(last & Hl & _)]]].
    + apply ord_lt_nle in Hlt. destruct Hlt. change (honey_badger.msg_epoch m <= 5)%Z. lia.
    + exact Hs.
    + exfalso. apply bool_decide_eq_true in Ho. rewrite He in Ho. lia.
    + congruence.
Defined.
End sender_queue_net_demo.
