(* ===== verification/VirtualNet.v ===== *)
(** * The virtual network

    Models [hbbft_testing/src/lib.rs] and [err.rs]: a network of nodes that run any
    [ConsensusProtocol], with a queue of messages that [crank] delivers one by one, and
    the builder.  The adversary that [crank] calls is the interface [Adversary]; [Adversaries]
    has its implementations.  Left out: the trace of the messages, which is written to a
    file, and the clock, whose reading is an argument of [crank]. *)
From S2P Require Import Prelude.
From S2P Require Import BTree.
From S2P Require Import Traits.
From S2P Require Import NetworkInfo.
From S2P Require Import Merkle.
From S2P Require Import Broadcast.
From S2P Require Import BinaryAgreement.
From S2P Require Import Subset.
From S2P Require Import HoneyBadger.
From S2P Require Import SyncKeyGen.
From S2P Require Import DhbTypes.
From S2P Require Import Votes.
From S2P Require Import DynamicHoneyBadger.
From S2P Require Import SenderQueue.

Definition usize_saturating_add (a b : Z) : Z := Z.min (a + b) u64_max.

Module virtual_net.

(** ** Nodes and messages *)
Record Node {D N O F : Type} : Type := mkNode {
  algorithm : D;
  is_faulty : bool;
  outputs : list O;
  faults : list (Fault N F);
}.
Arguments Node D N O F : clear implicits.
#[global] Instance Node_settable {D N O F} : Settable (Node D N O F) := λ n,
  mkNode _ _ _ _ (algorithm n) (is_faulty n) (outputs n) (faults n).

Definition node_new {D N O F} (algorithm : D) (is_faulty : bool) : Node D N O F :=
  mkNode _ _ _ _ algorithm is_faulty [] [].

Definition store_step {Msg D N O F} (step : Step Msg O N F) (n : Node D N O F) : Node D N O F :=
  n <| outputs ::= λ l, l ++ output step |> <| faults ::= λ l, l ++ fault_log step |>.

Record NetworkMessage {Msg N : Type} : Type := mkMessage {
  from : N;
  to : N;
  payload : Msg;
}.
Arguments NetworkMessage Msg N : clear implicits.
Definition message_new {Msg N} (from : N) (payload : Msg) (to : N) : NetworkMessage Msg N :=
  mkMessage _ _ from to payload.

Inductive CrankError {Msg N Er F : Type} : Type :=
  | HandleInput (e : Er)
  | HandleInputAll (e : Er)
  | HandleMessage (msg : NetworkMessage Msg N) (err : Er)
  | NodeDisappearedInCrank (id : N)
  | NodeDisappearedInDispatch (id : N)
  | CrankLimitExceeded (max : Z)
  | MessageLimitExceeded (max : Z)
  | TimeLimitHit (lim : Z)
  | CrankFault (reported_by faulty_id : N) (fault_kind : F).
Arguments CrankError Msg N Er F : clear implicits.

(** ** The network *)
Record VirtualNet {D N O Msg F A : Type} `{NodeIdT N} : Type := mkNet {
  nodes : gmap N (Node D N O F);
  net_messages : list (NetworkMessage Msg N);
  adversary : option A;
  crank_count : Z;
  crank_limit : option Z;
  message_count : Z;
  message_limit : option Z;
  time_limit : option Z;
  error_on_fault : bool;
  removed_nodes : gset N;
}.
Arguments VirtualNet D N O Msg F A {_}.
#[global] Instance VirtualNet_settable {D N O Msg F A} `{NodeIdT N} :
    Settable (VirtualNet D N O Msg F A) := λ v,
  mkNet _ _ _ _ _ _ _ (nodes v) (net_messages v) (adversary v) (crank_count v) (crank_limit v)
    (message_count v) (message_limit v) (time_limit v) (error_on_fault v) (removed_nodes v).

(** [Adversary]: a method gets the network, without its adversary, and the random number
    generator, and may change both and itself. *)
Class Adversary (D N O Msg Er F A : Type) `{NodeIdT N, Crypto} := {
  pre_crank : A → M (VirtualNet D N O Msg F A * Rng) Empty_set A;
  tamper : A → NetworkMessage Msg N → M (VirtualNet D N O Msg F A * Rng) Empty_set
    (A * (CrankError Msg N Er F + Step Msg O N F));
}.

Section process.
Context {D N O Msg Er F A : Type} `{ord : NodeIdT N}.
Abbreviation NStep := (Step Msg O N F).
Abbreviation Net := (VirtualNet D N O Msg F A).
Abbreviation Nodes := (gmap N (Node D N O F)).
Abbreviation Queue := (list (NetworkMessage Msg N)).

(** The messages to single nodes that a message amounts to *)
Definition expand (nodes : Nodes) (stepped_id : N) (tmsg : TargetedMessage Msg N) : Queue :=
  match target tmsg with
  | Traits.Node to => [message_new stepped_id (message tmsg) to]
  | All => (λ to, message_new stepped_id (message tmsg) to) <$> filter (λ to, to ≠ stepped_id) (keys nodes)
  end.

(** The free function [process_step], on the nodes and the queue *)
Definition process_step_on (stepped_id : N) (step : NStep) (error_on_fault : bool) :
    M (Nodes * Queue) (CrankError Msg N Er F) Z :=
  '(nodes, _) ← get;
  faulty ← expect (is_faulty <$> nodes !! stepped_id);
  let new := messages step ≫= expand nodes stepped_id in
  let message_count := if faulty : bool then 0%Z else foldl (λ n _, usize_saturating_add n 1) 0%Z new in
  modify (λ '(nodes, dest), (alter (store_step step) stepped_id nodes, dest ++ new));;
  if error_on_fault && negb faulty then
    match list_find (λ fault : Fault N F, match nodes !! node_id fault with
                       | Some n => negb (is_faulty n) | None => false end = true) (fault_log step) with
    | Some (_, fault) => throw (CrankFault stepped_id (node_id fault) (kind fault))
    | None => mret message_count
    end
  else mret message_count.

(** [VirtualNet::process_step] *)
Definition process_step (id : N) (step : NStep) : M Net (CrankError Msg N Er F) () :=
  v ← get;
  n ← zoom (λ v, (nodes v, net_messages v)) (λ '(ns, ms) v, v <| nodes := ns |> <| net_messages := ms |>)
    (process_step_on id step (error_on_fault v));
  modify (λ v, v <| message_count ::= λ m, usize_saturating_add m n |>).

(** *** Access *)
Definition faulty_nodes (v : Net) : list (Node D N O F) := filter (λ n, is_faulty n = true) (values (nodes v)).
Definition correct_nodes (v : Net) : list (Node D N O F) := filter (λ n, is_faulty n = false) (values (nodes v)).

Definition remove_node (id : N) (v : Net) : Net * option (Node D N O F) :=
  (v <| removed_nodes ::= union {[id]} |> <| net_messages ::= filter (λ msg, to msg ≠ id) |>
     <| nodes ::= delete id |>, nodes v !! id).
Definition remove_nodes (ids : gset N) (v : Net) : Net * list (Node D N O F) :=
  foldl (λ '(v, l) id, let '(v, n) := remove_node id v in (v, l ++ option_list n)) (v, []) (set_items ids).

(** [VecDeque::swap] panics out of range. *)
Definition swap_messages (i j : nat) : M Net Empty_set () :=
  v ← get;
  a ← expect (net_messages v !! i);
  b ← expect (net_messages v !! j);
  modify (λ v, v <| net_messages ::= λ l, <[j := a]> (<[i := b]> l) |>).

(** The sort of the standard library is stable; so is [merge_sort], for a comparison that
    is a total preorder. *)
Definition sort_messages_by (f : NetworkMessage Msg N → NetworkMessage Msg N → comparison) (v : Net) : Net :=
  v <| net_messages ::= merge_sort (λ a b, f a b ≠ Gt) |>.
End process.

Section net.
Context {D N I O Msg Er F A : Type} `{ord : NodeIdT N} `{crypto : Crypto}
  `{cp : !ConsensusProtocol D Rng N I O Msg Er F} `{adv : !Adversary D N O Msg Er F A}.
Abbreviation NStep := (Step Msg O N F).
Abbreviation Net := (VirtualNet D N O Msg F A).
Abbreviation NM := (M (Net * Rng) (CrankError Msg N Er F)).

(** [insert_node]: a node is entered under the identifier of its algorithm. *)
Definition insert_node (n : Node D N O F) (v : Net) : Net * option (Node D N O F) :=
  let id := cp_our_id (algorithm n) in
  (v <| removed_nodes ::= λ s, s ∖ {[id]} |> <| nodes ::= <[id := n]> |>, nodes v !! id).

(** Methods of the algorithm of a node, and of the network without the generator *)
Definition on_algorithm {B} (id : N) (f : Er → CrankError Msg N Er F) (m : M (D * Rng) Er B)
    (none : NM B) : NM B := λ '(v, r),
  match nodes v !! id with
  | None => none (v, r)
  | Some n => zoom (λ _, (algorithm n, r))
      (λ '(d, r) _, (v <| nodes ::= <[id := n <| algorithm := d |>]> |>, r)) (map_err f m) (v, r)
  end.
Definition on_net {E B} (m : M Net E B) : M (Net * Rng) E B := zoom fst (λ v '(_, r), (v, r)) m.

Definition dispatch_message (msg : NetworkMessage Msg N) : NM NStep :=
  on_algorithm (to msg) (HandleMessage msg) (cp_handle_message (from msg) (payload msg))
    (throw (NodeDisappearedInDispatch (to msg))).

Definition send_input (id : N) (input : I) : NM NStep :=
  step ← on_algorithm id HandleInput (cp_handle_input input) panic;
  on_net (process_step id step);;
  mret step.

(** All inputs come first; an error drops the steps so far. *)
Definition broadcast_input (input : I) : NM (list (N * NStep)) :=
  '(v, _) ← get;
  steps ← for_acc (λ steps id,
    '(v, _) ← get;
    node ← expect (nodes v !! id);
    step ← on_algorithm id HandleInputAll (cp_handle_input input) panic;
    mret (steps ++ [(cp_our_id (algorithm node), step)])) [] (keys (nodes v));
  for_acc (λ _ '(id, step), on_net (process_step id step)) () steps;;
  mret steps.

(** ** Cranks *)

(** The first message to a node that is not removed, and the rest of the queue *)
Fixpoint pop_message (removed : gset N) (l : list (NetworkMessage Msg N)) :
    option (NetworkMessage Msg N) * list (NetworkMessage Msg N) :=
  match l with
  | [] => (None, [])
  | msg :: l => if decide (to msg ∈ removed) then pop_message removed l else (Some msg, l)
  end.

(** What a limit that is set has to say: [None] if it is not reached. *)
Definition over_limit (elapsed : Z) (v : Net) : option (CrankError Msg N Er F) :=
  match crank_limit v with
  | Some limit => if bool_decide (limit ≤ crank_count v)%Z then Some (CrankLimitExceeded limit) else None
  | None => None
  end ∪
  match message_limit v with
  | Some limit => if bool_decide (limit ≤ message_count v)%Z then Some (MessageLimitExceeded limit) else None
  | None => None
  end ∪
  match time_limit v with
  | Some limit => if bool_decide (limit < elapsed)%Z then Some (TimeLimitHit limit) else None
  | None => None
  end.

(** A method of the adversary, which is taken out of the network during the call *)
Definition no_error {E} (e : Empty_set) : E := match e with end.
Definition with_adversary {B} (f : A → M (Net * Rng) Empty_set (A * B)) : NM (option B) :=
  '(v, _) ← get;
  match adversary v with
  | None => mret None
  | Some a =>
      modify (λ '(v, r), (v <| adversary := None |>, r));;
      '(a, b) ← map_err no_error (f a);
      modify (λ '(v, r), (v <| adversary := Some a |>, r));;
      mret (Some b)
  end.

(** [crank]: [elapsed] is the time since the network was made. *)
Definition crank (elapsed : Z) : NM (option (N * NStep)) :=
  '(v, _) ← get;
  match over_limit elapsed v with
  | Some e => throw e
  | None =>
      with_adversary (λ a, a ← pre_crank a; mret (a, ()));;
      '(v, _) ← get;
      let '(msg, rest) := pop_message (removed_nodes v) (net_messages v) in
      on_net (modify (λ v, v <| net_messages := rest |>));;
      match msg with
      | None => mret None
      | Some msg =>
          let stepped_id := to msg in
          faulty ← ok_or (is_faulty <$> nodes v !! stepped_id) (NodeDisappearedInCrank stepped_id);
          step ← (if faulty : bool then
                    r ← with_adversary (λ a, tamper a msg);
                    r ← expect r;
                    of_sum r
                  else dispatch_message msg);
          on_net (process_step stepped_id step);;
          on_net (modify (λ v, v <| crank_count ::= λ n, u64_add n 1 |>));;
          mret (Some (stepped_id, step))
      end
  end.

(** [crank_expect] panics on an empty queue and on an error. *)
Definition crank_expect (elapsed : Z) : M (Net * Rng) Empty_set (N * NStep) :=
  r ← try_ (crank elapsed);
  match r with
  | inr (Some r) => mret r
  | _ => panic
  end.

(** ** Construction *)
Record NewNodeInfo : Type := mkInfo {
  info_id : N;
  info_netinfo : NetworkInfo N;
  info_faulty : bool;
}.

(** [VirtualNet::new]; [Panic] stands for the panic of the assertion and of the key
    generation ([CrankError::InitialKeyGeneration] is an error of the key generation of
    the cryptographic crate), and the network is the state of the outcome. *)
Definition net_new (node_ids : list N) (faulty : nat) (cons : NewNodeInfo → D * NStep)
    (error_on_fault : bool) (rng : Rng) : outcome (Net * Rng) (CrankError Msg N Er F) (list (N * NStep)) :=
  match generate_map node_ids rng with
  | None => Panic
  | Some (net_infos, rng) =>
      if negb (bool_decide (faulty * 3 < size net_infos)) then Panic
      else
        let made := imap (λ idx '(id, ni),
          let is_faulty := bool_decide (idx < faulty) in
          let '(algorithm, step) := cons (mkInfo id ni is_faulty) in
          (id, (node_new algorithm is_faulty, step))) (entries net_infos) in
        let steps := map (λ '(id, (_, step)), (id, step)) made in
        let nodes : gmap N (Node D N O F) := list_to_map (map (λ '(id, (n, _)), (id, n)) made) in
        match for_acc (λ message_count '(stepped_id, step),
                n ← process_step_on stepped_id step error_on_fault;
                mret (usize_saturating_add message_count n)) 0%Z steps (nodes, []) with
        | Ok (nodes, messages) message_count =>
            Ok (mkNet _ _ _ _ _ _ _ nodes messages None 0 None message_count None None true ∅, rng) steps
        | Err (nodes, messages) e => Err (mkNet _ _ _ _ _ _ _ nodes messages None 0 None 0 None None true ∅, rng) e
        | Panic => Panic
        | NoFuel => NoFuel
        end
  end.

Record NetBuilder : Type := mkBuilder {
  node_ids : list N;
  b_num_faulty : nat;
  b_cons : option (NewNodeInfo → D * NStep);
  b_adversary : option A;
  b_crank_limit : option Z;
  b_message_limit : option Z;
  b_time_limit : option Z;
  b_error_on_fault : bool;
}.
#[local] Instance NetBuilder_settable : Settable NetBuilder := λ b,
  mkBuilder (node_ids b) (b_num_faulty b) (b_cons b) (b_adversary b) (b_crank_limit b)
    (b_message_limit b) (b_time_limit b) (b_error_on_fault b).

(** The default time limit is five minutes; times are in seconds. *)
Definition default_time_limit : option Z := Some (60 * 5)%Z.
Definition builder_new (ids : list N) : NetBuilder :=
  mkBuilder ids 0 None None None None default_time_limit true.
Definition set_adversary (a : A) (b : NetBuilder) : NetBuilder := b <| b_adversary := Some a |>.
Definition set_crank_limit (n : Z) (b : NetBuilder) : NetBuilder := b <| b_crank_limit := Some n |>.
Definition set_message_limit (n : Z) (b : NetBuilder) : NetBuilder := b <| b_message_limit := Some n |>.
Definition no_time_limit (b : NetBuilder) : NetBuilder := b <| b_time_limit := None |>.
Definition set_num_faulty (n : nat) (b : NetBuilder) : NetBuilder := b <| b_num_faulty := n |>.
Definition set_time_limit (n : Z) (b : NetBuilder) : NetBuilder := b <| b_time_limit := Some n |>.
Definition set_error_on_fault (e : bool) (b : NetBuilder) : NetBuilder := b <| b_error_on_fault := e |>.
Definition using_step (cons : NewNodeInfo → D * NStep) (b : NetBuilder) : NetBuilder :=
  b <| b_cons := Some cons |>.
Definition using_ (cons : NewNodeInfo → D) (b : NetBuilder) : NetBuilder :=
  using_step (λ node, (cons node, step_default)) b.

(** [override_time_limit] is the setting of the environment variable. *)
Definition build (override_time_limit : bool) (rng : Rng) (b : NetBuilder) :
    outcome (Net * Rng) (CrankError Msg N Er F) (list (N * NStep)) :=
  let time_limit := if override_time_limit then None else b_time_limit b in
  match b_cons b with
  | None => Panic
  | Some new_node =>
      match net_new (node_ids b) (b_num_faulty b) new_node (b_error_on_fault b) rng with
      | Ok (net, rng) steps =>
          let net := match b_adversary b with Some a => net <| adversary := Some a |> | None => net end in
          Ok (net <| crank_limit := b_crank_limit b |> <| message_limit := b_message_limit b |>
                  <| virtual_net.time_limit := time_limit |>, rng) steps
      | o => o
      end
  end.
End net.

(** ** The outputs of Dynamic Honey Badger *)
Section verify.
Context {D I C Msg Er F A N E : Type} `{EqDecision C} `{ord : NodeIdT N} `{crypto : Crypto}.
Abbreviation Batch := (dynamic_honey_badger.Batch C N).
Context `{cp : !ConsensusProtocol D Rng N I Batch Msg Er F} `{sqo : !SenderQueueableOutput Batch N E}.

(** The batches that each participant is expected to have output *)
Definition expected_outputs (participants : gset N) (batches : list Batch) : gmap N (list Batch) :=
  snd (foldl (λ '(participants, expected) batch,
    (default participants (participant_change batch),
     foldl (λ (m : gmap N (list Batch)) id, <[id := default [] (m !! id) ++ [batch]]> m) expected
       (set_items participants))) (participants, ∅) batches).

Definition node_verified (expected : gmap N (list Batch)) (node : Node D N Batch F) : bool :=
  match expected !! cp_our_id (algorithm node) with
  | None => false
  | Some l =>
      bool_decide ((list_to_set (dynamic_honey_badger.batch_epoch <$> l) : gset Z) =
                   list_to_set (dynamic_honey_badger.batch_epoch <$> outputs node)) &&
      bool_decide (length (outputs node) = length l) &&
      forallb (λ '(a, b), dynamic_honey_badger.public_eq a b) (zip (outputs node) l)
  end.

(** Whether [verify_batches] returns: its assertions hold and no index is missing. *)
Definition verify_batches (full_node : Node D N Batch F) (v : VirtualNet D N Batch Msg F A) : bool :=
  let participants := list_to_set ((λ n, cp_our_id (algorithm n)) <$> values (nodes v)) in
  let expected := expected_outputs participants (outputs full_node) in
  forallb (node_verified expected)
    (filter (λ n, cp_our_id (algorithm n) ≠ cp_our_id (algorithm full_node)) (correct_nodes v)).
End verify.
End virtual_net.
