(* ===== verification/Adversaries.v ===== *)
(** * Adversaries of the virtual network

    Models [hbbft_testing/src/adversary.rs] and [util.rs]: the handle through which an
    adversary changes the network, and the adversaries. *)
From S2P Require Import Prelude.
From S2P Require Import BTree.
From S2P Require Import Traits.
From S2P Require Import NetworkInfo.
From S2P Require Import VirtualNet.

(** [rng.gen_range(0, n)] for integers, [rng.gen_range(0.0, 1.0) <= p] for floats, and
    [rand::random()], whose own generator is not told apart from the one that is passed. *)
Class GenRange (R : Type) := { gen_range : nat → R → nat * R }.
Class Float (R : Type) := {
  f32 : Type;
  f32_in_unit : f32 → bool;
  gen_unit_le : f32 → R → bool * R;
}.
Class Standard (Msg R : Type) := { random : R → Msg * R }.

Module adversary.
Import virtual_net.

Inductive QueuePosition : Type :=
  | Front
  | Back
  | Before (idx : nat).

(** [Ord::cmp] of node identifiers *)
Definition ord_cmp {K} `{OrdKey K} (a b : K) : comparison :=
  if decide (a = b) then Eq else if decide (ord_le a b) then Lt else Gt.

Section handles.
Context {D N I O Msg Er F A : Type} `{ord : NodeIdT N} `{crypto : Crypto}
  `{cp : !ConsensusProtocol D Rng N I O Msg Er F}.
Abbreviation Net := (VirtualNet D N O Msg F A).
Abbreviation Handle := (M (Net * Rng) Empty_set).
Implicit Types (v : Net).

(** ** The handle *)
Definition inject_message (position : QueuePosition) (msg : NetworkMessage Msg N) : M Net Empty_set () :=
  v ← get;
  sender ← expect (nodes v !! from msg);
  assert_ (is_faulty sender);;
  expect (nodes v !! to msg);;
  match position with
  | Front => modify (λ v, v <| net_messages ::= cons msg |>)
  | Back => modify (λ v, v <| net_messages ::= λ l, l ++ [msg] |>)
  | Before idx =>
      assert_ (bool_decide (idx ≤ length (net_messages v)));;
      modify (λ v, v <| net_messages ::= λ l, take idx l ++ msg :: drop idx l |>)
  end.

(** [node_mut]: full access to the algorithm of a faulty node *)
Definition with_faulty_node (id : N) (f : D → D) : M Net Empty_set () :=
  v ← get;
  n ← expect (nodes v !! id);
  assert_ (is_faulty n);;
  modify (λ v, v <| nodes ::= <[id := n <| algorithm := f (algorithm n) |>]> |>).

(** ** Utility functions *)
Definition sort_ascending : M Net Empty_set () :=
  modify (sort_messages_by (λ a b, ord_cmp (to a) (to b))).

Definition swap_random `{GenRange Rng} : Handle () :=
  '(v, r) ← get;
  let l := length (net_messages v) in
  if bool_decide (0 < l) then
    let '(j, r) := gen_range l r in
    modify (λ '(v, _), (v, r));;
    on_net (swap_messages 0 j)
  else mret ().

Definition random_node `{GenRange Rng} : Handle (option N) :=
  '(v, r) ← get;
  let ids := (λ n, cp_our_id (algorithm n)) <$> values (nodes v) in
  let l := length ids in
  if bool_decide (0 < l) then
    let '(k, r) := gen_range l r in
    modify (λ '(v, _), (v, r));;
    id ← expect (ids !! k);
    mret (Some id)
  else mret None.

(** The order in which the messages to [picked_node] come first *)
Definition picked_cmp (picked_node : N) (a b : NetworkMessage Msg N) : comparison :=
  if decide (to a = to b) then Eq
  else if decide (to a = picked_node) then Lt
  else if decide (to b = picked_node) then Gt
  else ord_cmp (to a) (to b).

Definition sort_by_random_node `{GenRange Rng} : Handle () :=
  picked ← random_node;
  match picked with
  | Some picked_node => on_net (modify (sort_messages_by (picked_cmp picked_node)))
  | None => mret ()
  end.

(** [util::randomly] *)
Definition randomly `{Float Rng} (probability : f32) : Handle bool :=
  assert_ (f32_in_unit probability);;
  '(v, r) ← get;
  let '(b, r) := gen_unit_le probability r in
  modify (λ '(v, _), (v, r));;
  mret b.

(** ** Adversaries *)

(** The provided methods of the trait *)
Definition default_pre_crank (a : A) : Handle A := mret a.
Definition default_tamper (a : A) (msg : NetworkMessage Msg N) :
    Handle (A * (CrankError Msg N Er F + Step Msg O N F)) :=
  r ← try_ (dispatch_message msg);
  mret (a, r).
End handles.

Inductive NullAdversary : Type := null_adversary.
Inductive NodeOrderAdversary : Type := node_order_adversary.
Inductive ReorderingAdversary : Type := reordering_adversary.
Record RandomAdversary {R : Type} `{Float R} : Type := mkRandomAdversary {
  p_replay : f32;
  p_inject : f32;
}.
Arguments RandomAdversary R {_}.

Section adversaries.
Context {D N I O Msg Er F : Type} `{ord : NodeIdT N} `{crypto : Crypto}
  `{cp : !ConsensusProtocol D Rng N I O Msg Er F} `{gr : !GenRange Rng} `{fl : !Float Rng} `{st : !Standard Msg Rng}.

#[global] Instance null_adversary_hooks : Adversary D N O Msg Er F NullAdversary := {|
  pre_crank := default_pre_crank;
  tamper := default_tamper;
|}.
#[global] Instance node_order_adversary_hooks : Adversary D N O Msg Er F NodeOrderAdversary := {|
  pre_crank a := on_net sort_ascending;; mret a;
  tamper := default_tamper;
|}.
#[global] Instance reordering_adversary_hooks : Adversary D N O Msg Er F ReorderingAdversary := {|
  pre_crank a := swap_random;; mret a;
  tamper := default_tamper;
|}.

(** Messages of [sender], with random content, to all others *)
Definition inject_random (sender : N) : M (VirtualNet D N O Msg F (RandomAdversary Rng) * Rng) Empty_set () :=
  '(v, r) ← get;
  let '(message, r) := random r in
  modify (λ '(v, _), (v, r));;
  let node_ids := filter (λ id, id ≠ sender) ((λ n, cp_our_id (algorithm n)) <$> values (nodes v)) in
  for_acc (λ _ node_id, on_net (inject_message Back (message_new sender message node_id))) () node_ids.

(** The loop [while randomly(self.p_inject, rng)], at most [fuel] times *)
Fixpoint inject_loop (fuel : nat) (p_inject : f32) (sender : N) :
    M (VirtualNet D N O Msg F (RandomAdversary Rng) * Rng) Empty_set () :=
  b ← randomly p_inject;
  if b : bool then
    match fuel with
    | 0 => no_fuel
    | S fuel => inject_random sender;; inject_loop fuel p_inject sender
    end
  else mret ().

Definition random_tamper (fuel : nat) (a : RandomAdversary Rng) (msg : NetworkMessage Msg N) :
    M (VirtualNet D N O Msg F (RandomAdversary Rng) * Rng) Empty_set
      (RandomAdversary Rng * (CrankError Msg N Er F + Step Msg O N F)) :=
  replay ← randomly (p_replay a);
  (if replay : bool then
     picked ← random_node;
     match picked with
     | Some picked_node => on_net (inject_message Back (mkMessage _ _ (to msg) picked_node (payload msg)))
     | None => mret ()
     end
   else mret ());;
  inject_loop fuel (p_inject a) (to msg);;
  default_tamper a msg.

Definition random_adversary_hooks (fuel : nat) : Adversary D N O Msg Er F (RandomAdversary Rng) := {|
  pre_crank a := sort_by_random_node;; mret a;
  tamper := random_tamper fuel;
|}.
End adversaries.
End adversary.
