(* ===== verification/VirtualNetFacts.v ===== *)
(** * The virtual network runs the asynchronous network

    A [FairAdversary] changes the network only through the handle ([handled]); the adversaries
    of [Adversaries] are fair.  For an algorithm that does not use random numbers when it handles a
    message, what correct nodes do in a virtual network with a fair adversary is what they
    do in a reachable world of [Net], so that the guarantees stated for [Net] hold
    in the virtual network. *)
From S2P Require Import Prelude.
From S2P Require Import BTree.
From S2P Require Import Traits.
From S2P Require Import Net.
From S2P Require Import NetworkInfo.
From S2P Require Import Merkle.
From S2P Require Import Broadcast.
From S2P Require Import Targets.
From S2P Require Import VirtualNet.
From S2P Require Import Adversaries.

Module virtual_net_facts.
Import virtual_net.
Import adversary.
Import targets.

Lemma take_cons_drop_Permutation {A} (l : list A) i x : take i l ++ x :: drop i l ≡ₚ x :: l.
Proof. rewrite <- Permutation_middle. by rewrite take_drop. Qed.

(** ** Fair adversaries *)
Section handled.
Context {D N I O Msg Er F A : Type} `{ord : NodeIdT N} `{crypto : Crypto}.
Abbreviation VNet := (VirtualNet D N O Msg F A).
Implicit Types (v : VNet) (r : Rng) (m : NetworkMessage Msg N) (n : Node D N O F).

Definition faulty_at v i : Prop := ∃ n, nodes v !! i = Some n ∧ is_faulty n = true.

(** One use of the handle: the queue is reordered, a message of a faulty node is put
    into it, or the algorithm of a faulty node changes. *)
Inductive handle_step v : VNet → Prop :=
  | hs_order l : l ≡ₚ net_messages v → handle_step v (v <| net_messages := l |>)
  | hs_inject m l : faulty_at v (from m) → is_Some (nodes v !! to m) → l ≡ₚ m :: net_messages v →
      handle_step v (v <| net_messages := l |>)
  | hs_faulty i n d : nodes v !! i = Some n → is_faulty n = true →
      handle_step v (v <| nodes ::= <[i := n <| algorithm := d |>]> |>).
Definition handled v (p : VNet * Rng) : Prop := rtc handle_step v p.1.

Lemma handled_faulty_at v v' i : rtc handle_step v v' → faulty_at v i → faulty_at v' i.
Proof.
  induction 1 as [|v v1 v2 Hs _ IH]; [done|]. intros (n & Hn & Hf). apply IH.
  destruct Hs as [| |j nj d Hj Hfj]; [by exists n..|]. unfold faulty_at. cbn.
  destruct (decide (j = i)) as [->|Hne]; [rewrite lookup_insert_eq|rewrite lookup_insert_ne by done; by exists n].
  by eexists.
Qed.

Class FairAdversary Er `{adv : !Adversary D N O Msg Er F A} : Prop := {
  fair_pre_crank a v r : after (pre_crank a) (v, r) (λ p _, handled v p) (λ _, True);
  fair_tamper a m v r : faulty_at v (to m) →
    after (tamper (Er := Er) a m) (v, r) (λ p _, handled v p) (λ _, True);
}.
End handled.

Section fair.
Context {D N I O Msg Er F A : Type} `{ord : NodeIdT N} `{crypto : Crypto}
  `{cp : !ConsensusProtocol D Rng N I O Msg Er F}.
Abbreviation VNet := (VirtualNet D N O Msg F A).
Implicit Types (v : VNet) (r : Rng) (m : NetworkMessage Msg N).

Lemma sort_handled f v : rtc handle_step v (sort_messages_by f v).
Proof. apply rtc_once, hs_order, merge_sort_Permutation. Qed.

Lemma swap_handled i j v : after (swap_messages i j) v (λ v' _, rtc handle_step v v') (λ _, True).
Proof. unfold swap_messages. repeat after_step. apply rtc_once, hs_order. by apply Permutation_insert_swap. Qed.

Lemma inject_handled pos m v : after (inject_message pos m) v (λ v' _, rtc handle_step v v') (λ _, True).
Proof.
  unfold inject_message. do 8 after_step.
  assert (Hl : ∀ l, l ≡ₚ m :: net_messages v → rtc handle_step v (v <| net_messages := l |>)).
  { intros l Hl. apply rtc_once, hs_inject with m; [by eexists|by eexists|done]. }
  after_step; [after_step|after_step|].
  - by apply (Hl (m :: net_messages v)).
  - apply (Hl (net_messages v ++ [m])). by rewrite Permutation_app_comm.
  - repeat after_step. apply (Hl (take idx (net_messages v) ++ m :: drop idx (net_messages v))), take_cons_drop_Permutation.
Qed.

Lemma on_algorithm_after {B} i (f : Er → CrankError Msg N Er F) (h : M (D * Rng) Er B) none v r n Q R :
  nodes v !! i = Some n →
  after h (algorithm n, r) (λ p, Q (v <| nodes ::= <[i := n <| algorithm := p.1 |>]> |>, p.2))
    (λ p, R (v <| nodes ::= <[i := n <| algorithm := p.1 |>]> |>, p.2)) →
  after (on_algorithm i f h none) (v, r) Q R.
Proof.
  intros Hn Hh. unfold on_algorithm, after, zoom, map_err in *. rewrite Hn. by destruct (h (algorithm n, r)) as [[]|[]| |].
Qed.

Lemma dispatch_handled m v r : faulty_at v (to m) →
  after (dispatch_message m) (v, r) (λ p _, handled v p) (handled v).
Proof.
  intros (n & Hn & Hf). unfold dispatch_message.
  assert (Hd : ∀ d r', handled v (v <| nodes ::= <[to m := n <| algorithm := d |>]> |>, r')).
  { intros d r'. apply rtc_once. by apply hs_faulty. }
  apply (on_algorithm_after _ _ _ _ _ _ n); [done|]. unfold after. by destruct (cp_handle_message _ _ _).
Qed.

Lemma default_tamper_fair a m v r : faulty_at v (to m) →
  after (default_tamper a m) (v, r) (λ p _, handled v p) (λ _, True).
Proof.
  intros Hf. unfold default_tamper. do 2 after_step.
  eapply after_mono; [by apply dispatch_handled| |]; intros [v' r'] H; [|done]. by intros x.
Qed.

Lemma on_net_after {E B} (h : M VNet E B) v r Q R :
  after h v (λ v' b, Q (v', r) b) (λ v', R (v', r)) → after (on_net h) (v, r) Q R.
Proof. intros Hh. unfold on_net. by apply after_zoom. Qed.

Lemma handled_refl v r : handled v (v, r).
Proof. apply rtc_refl. Qed.
#[local] Hint Resolve handled_refl : core.

(** What follows a call starts from a network that the call has left. *)
Lemma handled_bind {B1 B2} (h : M (VNet * Rng) Empty_set B1) (k : B1 → M (VNet * Rng) Empty_set B2) v r (P : B1 → Prop) :
  after h (v, r) (λ p b, handled v p ∧ P b) (λ _, True) →
  (∀ b v' r', rtc handle_step v v' → P b → after (k b) (v', r') (λ p _, handled v' p) (λ _, True)) →
  after (h ≫= k) (v, r) (λ p _, handled v p) (λ _, True).
Proof.
  intros Hh Hk. apply after_bind. eapply after_mono; [done| |done]. intros [v' r'] b [Hv HP].
  eapply after_mono; [by apply Hk| |done]. intros p x Hp. unfold handled in *. by transitivity v'.
Qed.

Lemma random_node_handled `{!GenRange Rng} v r : after random_node (v, r) (λ p _, handled v p ∧ p.1 = v) (λ _, True).
Proof.
  unfold random_node. repeat first [done|after_step]. all: split; [|done]; apply handled_refl.
Qed.

Lemma randomly_handled `{!Float Rng} q v r : after (randomly q) (v, r) (λ p _, handled v p) (λ _, True).
Proof. unfold randomly. repeat first [apply handled_refl|after_step]. Qed.

Lemma sort_by_random_node_handled `{!GenRange Rng} v r :
  after sort_by_random_node (v, r) (λ p _, handled v p) (λ _, True).
Proof.
  unfold sort_by_random_node. apply (handled_bind _ _ _ _ (λ _, True)).
  { eapply after_mono; [apply random_node_handled| |done]. by intros p b [? _]. }
  intros [picked|] v' r' _ _; [|by after_step]. apply on_net_after. after_step. apply sort_handled.
Qed.

Lemma swap_random_handled `{!GenRange Rng} v r : after swap_random (v, r) (λ p _, handled v p) (λ _, True).
Proof.
  unfold swap_random. do 3 after_step; [|by after_step]. destruct (gen_range _ r) as [j r']. do 2 after_step.
  apply on_net_after. eapply after_mono; [apply swap_handled|done|done].
Qed.
End fair.

(** The adversaries of the test framework are fair. *)
Section fair_adversaries.
Context {D N I O Msg Er F : Type} `{ord : NodeIdT N} `{crypto : Crypto}
  `{cp : !ConsensusProtocol D Rng N I O Msg Er F} `{gr : !GenRange Rng} `{fl : !Float Rng} `{st : !Standard Msg Rng}.
Abbreviation VNet A := (VirtualNet D N O Msg F A).

#[global] Instance null_adversary_fair : FairAdversary (D := D) (N := N) (A := NullAdversary) Er.
Proof. split; [|apply default_tamper_fair]. intros a v r. exact (rtc_refl _ _). Qed.
#[global] Instance node_order_adversary_fair : FairAdversary (D := D) (N := N) (A := NodeOrderAdversary) Er.
Proof.
  split; [|apply default_tamper_fair]. intros a v r. cbn. after_step. apply on_net_after.
  unfold sort_ascending. do 2 after_step. apply sort_handled.
Qed.
#[global] Instance reordering_adversary_fair : FairAdversary (D := D) (N := N) (A := ReorderingAdversary) Er.
Proof.
  split; [|apply default_tamper_fair]. intros a v r. cbn. after_step.
  eapply after_mono; [apply swap_random_handled| |done]. intros p [] Hp. by after_step.
Qed.

Lemma inject_random_handled sender (v : VNet (RandomAdversary Rng)) r :
  after (inject_random sender) (v, r) (λ p _, handled v p) (λ _, True).
Proof.
  unfold inject_random. do 2 after_step. destruct (random r) as [message r']. do 2 after_step.
  generalize (filter (λ id, id ≠ sender) ((λ n, cp_our_id (algorithm n)) <$> values (nodes v))) as ids.
  intros ids. generalize r' as q. generalize v as v0. induction ids as [|j ids IH]; intros v0 q; simpl; [apply rtc_refl|].
  apply (handled_bind _ _ _ _ (λ _, True)); [|intros []; auto].
  apply on_net_after. eapply after_mono; [apply inject_handled|done|done].
Qed.

Lemma inject_loop_handled fuel q sender (v : VNet (RandomAdversary Rng)) r :
  after (inject_loop fuel q sender) (v, r) (λ p _, handled v p) (λ _, True).
Proof.
  revert v r. induction fuel as [|fuel IH]; intros v r; cbn [inject_loop].
  all: apply (handled_bind _ _ _ _ (λ _, True)); [eapply after_mono; [apply randomly_handled|done|done]|].
  all: intros [] v' r' _ _; [|after_step; apply rtc_refl].
  - done.
  - apply (handled_bind _ _ _ _ (λ _, True)); [|by intros]. eapply after_mono; [apply inject_random_handled|done|done].
Qed.

Lemma random_tamper_fair fuel a m (v : VNet (RandomAdversary Rng)) r : faulty_at v (to m) →
  after (random_tamper fuel a m) (v, r) (λ p _, handled v p) (λ _, True).
Proof.
  intros Hf. unfold random_tamper.
  apply (handled_bind _ _ _ _ (λ _, True)); [eapply after_mono; [apply randomly_handled|done|done]|].
  intros replay v1 r1 H1 _. apply (handled_bind _ _ _ _ (λ _, True)).
  { eapply after_mono; [|by intros ? ? H; split; [exact H|]|done]. destruct replay; [|after_step; apply rtc_refl].
    apply (handled_bind _ _ _ _ (λ _, True)).
    { eapply after_mono; [apply random_node_handled| |done]. by intros p b [? _]. }
    intros [picked|] v' r' _ _; [|after_step; apply rtc_refl]. apply on_net_after.
    eapply after_mono; [apply inject_handled|done|done]. }
  intros _ v2 r2 H2 _. apply (handled_bind _ _ _ _ (λ _, True)).
  { eapply after_mono; [apply inject_loop_handled|done|done]. }
  intros _ v3 r3 H3 _. apply default_tamper_fair. eapply handled_faulty_at; [|done]. by do 2 (etrans; [done|]).
Qed.

Lemma random_adversary_fair fuel :
  FairAdversary (D := D) (N := N) (A := RandomAdversary Rng) Er (adv := random_adversary_hooks fuel).
Proof.
  split; [|apply random_tamper_fair]. intros a v r. cbn. after_step.
  eapply after_mono; [apply sort_by_random_node_handled| |done]. intros p [] Hp. by after_step.
Qed.
End fair_adversaries.

(** ** Refinement

    [hi] and [hm] are the methods of the algorithm; only [hi] uses random numbers. *)
Section refines.
Context {D N I O Msg Er F A : Type} `{ord : NodeIdT N} `{crypto : Crypto} `{msg_eq : !EqDecision Msg}.
Abbreviation NStep := (Step Msg O N F).
Context (hi : I → Rng → M D Er (NStep * Rng)) (hm : N → Msg → M D Er NStep).
Context `{cp : !ConsensusProtocol D Rng N I O Msg Er F} `{adv : !Adversary D N O Msg Er F A}.
Context (Hinput : ∀ v, cp_handle_input v = with_rng (hi v)).
Context (Hmessage : ∀ j m, cp_handle_message j m = without_rng (hm j m)).
Context (correct : gset N) (initial : world N D (I * Rng) Msg O → Prop).
Abbreviation VNet := (VirtualNet D N O Msg F A).
Abbreviation World := (world N D (I * Rng) Msg O).
Implicit Types (v : VNet) (r : Rng) (w : World) (m : NetworkMessage Msg N) (n : Node D N O F) (i j : N)
  (step : NStep).

Definition net_input (x : I * Rng) : M D Er NStep := '(step, _) ← hi x.1 x.2; mret step.
Abbreviation reachable := (Net.reachable net_input hm (λ _, true) correct initial).

(** What the nodes and the queue of a virtual network have to do with a world of [Net]: the
    correct nodes are in the same state and have made the same outputs, and queued
    messages of correct nodes have been sent. *)
Record sim v w : Prop := {
  sim_faulty i n : nodes v !! i = Some n → (is_faulty n = false ↔ i ∈ correct);
  sim_node i n : nodes v !! i = Some n → i ∈ correct → algorithm n = w_node w i ∧ outputs n = (w_out w i).*1;
  sim_sent m : m ∈ net_messages v → from m ∈ correct → ∃ tm, (from m, tm) ∈ w_sent w ∧
    message tm = payload m ∧ addressed (to m) (target tm) = true ∧ (target tm = All → from m ≠ to m);
}.
Definition runs v : Prop := ∃ w, reachable w ∧ (self_free correct w → sim v w).

Lemma sim_less v v' w : nodes v' = nodes v → net_messages v' ⊆ net_messages v → sim v w → sim v' w.
Proof. intros Hn Hm [Hf Ha Hs]. split; [by rewrite Hn|by rewrite Hn|]. intros m Hin. by apply Hs, Hm. Qed.

Lemma faulty_not_correct v w i : sim v w → faulty_at v i → i ∉ correct.
Proof. intros Hs (n & Hn & Hf) Hc. apply (sim_faulty _ _ Hs i n Hn) in Hc. congruence. Qed.

Lemma sim_handled v v' w : rtc handle_step v v' → sim v w → sim v' w.
Proof.
  induction 1 as [|v v1 v2 Hstep _ IH]; [done|]. intros Hs. apply IH.
  destruct Hstep as [l Hl|m l Hf _ Hl|i n d Hn Hf].
  - apply (sim_less v); [done| |done]. cbn. intros m. by rewrite Hl.
  - pose proof (faulty_not_correct v w _ Hs Hf) as Hnc. destruct Hs as [Hsf Ha Hs]. split; [done..|].
    cbn. intros m'. rewrite Hl, elem_of_cons. intros [->|?]; [done|by apply Hs].
  - pose proof (faulty_not_correct v w i Hs (ex_intro _ n (conj Hn Hf))) as Hnc. destruct Hs as [Hsf Ha Hs].
    split; cbn; [| |done].
    + intros j nj [[<- <-]|[_ Hj]]%lookup_insert_Some; [exact (Hsf i n Hn)|by apply Hsf].
    + intros j nj [[<- <-]|[_ Hj]]%lookup_insert_Some; [done|by apply Ha].
Qed.

(** *** Steps of the nodes *)
Definition stepped v i n step v' : Prop := nodes v' = <[i := store_step step n]> (nodes v) ∧
  net_messages v' = net_messages v ++ (messages step ≫= expand (nodes v) i).

Lemma process_step_after i step v n : nodes v !! i = Some n →
  after (process_step (Er := Er) i step) v (λ v' _, stepped v i n step v') (stepped v i n step).
Proof.
  intros Hn. unfold process_step. do 3 after_step. apply after_zoom. unfold process_step_on.
  do 2 after_step. rewrite Hn. cbn [fmap option_fmap option_map].
  assert (Hns : alter (store_step step) i (nodes v) = <[i := store_step step n]> (nodes v)).
  { apply map_eq. intros j. destruct (decide (i = j)) as [<-|Hne].
    - by rewrite lookup_alter_eq, lookup_insert_eq, Hn.
    - by rewrite lookup_alter_ne, lookup_insert_ne. }
  repeat after_step. all: split; [exact Hns|done].
Qed.

Lemma expand_from i tm (ns : gmap N (Node D N O F)) m : m ∈ expand ns i tm → from m = i ∧ payload m = message tm ∧
  addressed (to m) (target tm) = true ∧ (target tm = All → i ≠ to m).
Proof.
  unfold expand. destruct (target tm) as [|k].
  - intros (k & -> & [Hk _]%list_elem_of_filter)%list_elem_of_fmap. by split_and!.
  - intros ->%list_elem_of_singleton. split_and!; [done..| |done]. by apply bool_decide_eq_true.
Qed.

Lemma sim_faulty_step v w i n step v' : sim v w → nodes v !! i = Some n → is_faulty n = true →
  stepped v i n step v' → sim v' w.
Proof.
  intros Hs Hn Hf [Hns Hms]. pose proof (faulty_not_correct v w i Hs (ex_intro _ n (conj Hn Hf))) as Hnc.
  destruct Hs as [Hsf Ha Hs]. split.
  - rewrite Hns. intros j nj [[<- <-]|[_ Hj]]%lookup_insert_Some; [exact (Hsf i n Hn)|by apply Hsf].
  - rewrite Hns. intros j nj [[<- <-]|[_ Hj]]%lookup_insert_Some; [done|by apply Ha].
  - rewrite Hms. intros m [Hm|(tm & Hm & _)%list_elem_of_bind]%elem_of_app Hc; [by apply Hs|].
    apply expand_from in Hm as (<- & _). done.
Qed.

(** A call of a correct node that has returned, before its step is processed *)
Definition called v i n d v' : Prop := nodes v' = <[i := n <| algorithm := d |>]> (nodes v) ∧
  net_messages v' ⊆ net_messages v.

Lemma sim_correct_step v w i n d ins step v1 v' w' : sim v w → nodes v !! i = Some n → i ∈ correct →
  called v i n d v1 → stepped v1 i (n <| algorithm := d |>) step v' → acts w w' i ins d step → sim v' w'.
Proof.
  intros Hs Hn Hc [Hns1 Hms1] [Hns Hms] Hacts. rewrite Hns1, insert_insert_eq in Hns.
  destruct Hs as [Hsf Ha Hs]. destruct (Ha i n Hn Hc) as [_ Hout]. split.
  - rewrite Hns. intros j nj [[<- <-]|[_ Hj]]%lookup_insert_Some; [exact (Hsf i n Hn)|by apply Hsf].
  - rewrite Hns. intros j nj [[<- <-]|[Hne Hj]]%lookup_insert_Some Hcj.
    + rewrite (a_node _ _ _ _ _ _ Hacts), (a_out _ _ _ _ _ _ Hacts). split; [done|]. cbn. by rewrite Hout.
    + rewrite (a_node_ne _ _ _ _ _ _ Hacts), (a_out_ne _ _ _ _ _ _ Hacts) by done. by apply Ha.
  - rewrite Hms, (a_sent _ _ _ _ _ _ Hacts). intros m [Hm|(tm & Hm & Htm)%list_elem_of_bind]%elem_of_app Hcm.
    + destruct (Hs m) as (tm & ? & ?); [by apply Hms1|done|]. exists tm. split; [|done]. apply elem_of_app. by left.
    + apply expand_from in Hm as (-> & -> & ? & ?). exists tm. split; [|done]. apply elem_of_app. right.
      apply list_elem_of_fmap. by exists tm.
Qed.

Lemma sim_correct_error v w i n d v1 w' : sim v w → nodes v !! i = Some n → i ∈ correct →
  called v i n d v1 → acts w w' i [] d (step_default : NStep) → sim v1 w'.
Proof.
  intros Hs Hn Hc [Hns Hms] Hacts. destruct Hs as [Hsf Ha Hs]. destruct (Ha i n Hn Hc) as [_ Hout]. split.
  - rewrite Hns. intros j nj [[<- <-]|[_ Hj]]%lookup_insert_Some; [exact (Hsf i n Hn)|by apply Hsf].
  - rewrite Hns. intros j nj [[<- <-]|[Hne Hj]]%lookup_insert_Some Hcj.
    + rewrite (a_node _ _ _ _ _ _ Hacts), (a_out _ _ _ _ _ _ Hacts). split; [done|]. cbn. by rewrite app_nil_r.
    + rewrite (a_node_ne _ _ _ _ _ _ Hacts), (a_out_ne _ _ _ _ _ _ Hacts) by done. by apply Ha.
  - rewrite (a_sent _ _ _ _ _ _ Hacts). cbn. rewrite app_nil_r. intros m Hm. by apply Hs, Hms.
Qed.

(** *** The calls of the network *)
Lemma runs_intro v w : reachable w → sim v w → runs v.
Proof. intros Hw Hs. by exists w. Qed.

Lemma after_trivial {S E B} (h : M S E B) s (Q : S → B → Prop) R : (∀ t b, Q t b) → (∀ t, R t) → after h s Q R.
Proof. intros HQ HR. unfold after. by destruct (h s). Qed.

(** A property that a network which [runs] and simulates a world gives holds also when the
    world is one in which a correct node has sent itself a message. *)
Lemma runs_after {B} v (h : M (VNet * Rng) (CrankError Msg N Er F) B) r :
  runs v → (∀ w, reachable w → self_free correct w → sim v w → after h (v, r) (λ p _, runs p.1) (λ p, runs p.1)) →
  after h (v, r) (λ p _, runs p.1) (λ p, runs p.1).
Proof.
  intros (w & Hw & Hs) Hh. destruct (decide (self_free correct w)) as [Hf|Hf]; [eauto|].
  apply after_trivial; intros; exists w; by split.
Qed.

(** A message from the queue to a correct node may be delivered in [Net]. *)
Lemma deliver_allowed v w m : sim v w → self_free correct w → m ∈ net_messages v → to m ∈ correct →
  Net.allowed (λ _, true) correct w (Deliver (to m) (from m) (payload m) : Net.event N (I * Rng) Msg) = true.
Proof.
  intros Hs Hfree Hm Hc. apply allowed_deliver_iff. split; [done|].
  destruct (decide (from m ∈ correct)) as [Hfc|Hnc].
  - destruct (sim_sent _ _ Hs m Hm Hfc) as (tm & Hin & Hmsg & Haddr & Hall). split_and!; [|done|by exists tm].
    intros Heq. destruct tm as [t m0]. pose proof (self_free_elem correct w _ _ _ Hfree Hfc Hin) as Hself.
    cbn in Haddr, Hall. destruct t as [|k]; [by apply Hall|]. apply bool_decide_eq_true in Haddr. congruence.
  - split_and!; [intros Heq; by rewrite Heq in Hnc|done|done].
Qed.

(** A call of the algorithm of a correct node, and the processing of its step *)
Lemma correct_call v w i n ev ins (h : M D Er NStep) v0 :
  reachable w → sim v w → nodes v !! i = Some n → i ∈ correct →
  Net.allowed (λ _, true) correct w ev = true → exec net_input hm w ev = commit w i ins (h (w_node w i)) →
  nodes v0 = nodes v → net_messages v0 ⊆ net_messages v →
  match h (algorithm n) with
  | Ok d step => ∀ v1, nodes v1 = <[i := n <| algorithm := d |>]> (nodes v0) → net_messages v1 = net_messages v0 →
      ∀ v', stepped v1 i (n <| algorithm := d |>) step v' → runs v'
  | Err d _ => ∀ v1, nodes v1 = <[i := n <| algorithm := d |>]> (nodes v0) → net_messages v1 = net_messages v0 → runs v1
  | _ => True
  end.
Proof.
  intros Hw Hs Hn Hc Ha Hex Hns Hms. destruct (sim_node _ _ Hs i n Hn Hc) as [-> _].
  assert (Hcalled : ∀ d v1, nodes v1 = <[i := n <| algorithm := d |>]> (nodes v0) →
    net_messages v1 = net_messages v0 → called v i n d v1).
  { intros d v1 Hn1 Hm1. split; [by rewrite Hn1, Hns|by rewrite Hm1]. }
  destruct (h (w_node w i)) as [d step|d e| |] eqn:Hh; try done.
  - intros v1 Hn1 Hm1 v' Hst. destruct (commit w i ins (Ok d step)) as [w'|] eqn:Hco; [|done].
    apply (runs_intro v' w'); [by eapply reach_step|].
    apply (sim_correct_step v w i n d ins step v1); auto. exact (commit_acts _ _ _ _ _ Hco).
  - intros v1 Hn1 Hm1. destruct (commit w i ins (Err d e)) as [w'|] eqn:Hco; [|done].
    apply (runs_intro v1 w'); [by eapply reach_step|].
    apply (sim_correct_error v w i n d); auto. exact (commit_acts _ _ _ _ _ Hco).
Qed.

Lemma runs_less v v' : nodes v' = nodes v → net_messages v' ⊆ net_messages v → runs v → runs v'.
Proof. intros Hn Hm (w & Hw & Hs). exists w. split; [done|]. intros Hf. eapply sim_less; eauto. Qed.

(** After a call, when its step is yet to be processed *)
Definition pending i step v : Prop := ∃ n, nodes v !! i = Some n ∧ ∀ v', stepped v i n step v' → runs v'.

Lemma pending_process i step v r : pending i step v →
  after (on_net (process_step (Er := Er) i step)) (v, r) (λ p _, runs p.1) (λ p, runs p.1).
Proof.
  intros (n & Hn & Hp). apply on_net_after. by eapply after_mono; [apply process_step_after, Hn|intros; by apply Hp..].
Qed.

(** The method of the algorithm with the random numbers of the network does what [h] does. *)
Definition same_call (h' : M (D * Rng) Er NStep) (h : M D Er NStep) d r : Prop :=
  match h' (d, r) with
  | Ok (d', _) step => h d = Ok d' step
  | Err (d', _) e => h d = Err d' e
  | _ => True
  end.

Lemma correct_algorithm v w i n ev ins h' h v0 r f none :
  reachable w → sim v w → nodes v !! i = Some n → i ∈ correct →
  Net.allowed (λ _, true) correct w ev = true → exec net_input hm w ev = commit w i ins (h (w_node w i)) →
  nodes v0 = nodes v → net_messages v0 ⊆ net_messages v → same_call h' h (algorithm n) r →
  after (on_algorithm i f h' none) (v0, r) (λ p step, pending i step p.1) (λ p, runs p.1).
Proof.
  intros Hw Hs Hn Hc Ha Hex Hns Hms Hsame. assert (Hn0 : nodes v0 !! i = Some n) by by rewrite Hns.
  pose proof (correct_call v w i n ev ins h v0 Hw Hs Hn Hc Ha Hex Hns Hms) as Hcall.
  apply (on_algorithm_after i f h' none v0 r n); [done|]. unfold after, same_call in *.
  destruct (h' (algorithm n, r)) as [[d r'] step|[d r'] e| |]; try done; rewrite Hsame in Hcall; [|by apply Hcall].
  eexists. split; [cbn; by rewrite lookup_insert_eq|]. intros v' Hst. by eapply Hcall; [..|exact Hst].
Qed.

Lemma same_message j (m : Msg) d r : same_call (cp_handle_message j m) (hm j m) d r.
Proof. unfold same_call. rewrite Hmessage. unfold without_rng, zoom. cbn. by destruct (hm j m d). Qed.
Lemma same_input x d r : same_call (cp_handle_input x) (net_input (x, r)) d r.
Proof.
  unfold same_call, net_input, mbind, M_bind. rewrite Hinput. unfold with_rng. cbn. by destruct (hi x r d) as [? []| | |].
Qed.

(** The inputs and cranks of a test *)
Lemma send_input_runs i x v r : runs v →
  after (send_input i x) (v, r) (λ p _, runs p.1) (λ p, runs p.1).
Proof.
  intros Hv. apply runs_after; [done|]. intros w Hw Hf Hs. unfold send_input. after_step.
  destruct (nodes v !! i) as [n|] eqn:Hn; [|by unfold on_algorithm, after; rewrite Hn].
  apply (after_mono _ _ (λ p step, pending i step p.1) _ (λ p, runs p.1)); [|intros [v1 r1] step Hp|done].
  - destruct (is_faulty n) eqn:Hfn.
    + apply (on_algorithm_after _ _ _ _ _ _ n); [done|]. unfold after. destruct (cp_handle_input x (algorithm n, r)) as [p step|p e| |]; try done.
      * eexists. split; [cbn; by rewrite lookup_insert_eq|]. intros v' Hst. apply (runs_intro v' w Hw).
        apply (sim_faulty_step (v <| nodes ::= <[i := n <| algorithm := p.1 |>]> |>) w i (n <| algorithm := p.1 |>) step v');
          [|by cbn; rewrite lookup_insert_eq|done|exact Hst].
        eapply sim_handled; [|done]. apply rtc_once. by apply hs_faulty.
      * apply (runs_intro _ w Hw). eapply sim_handled; [|done]. apply rtc_once. by apply hs_faulty.
    + apply (sim_faulty _ _ Hs i n Hn) in Hfn.
      eapply (correct_algorithm v w i n (Input i (x, r)) [(x, r)] _ (net_input (x, r)));
        try done; [by apply allowed_input|apply same_input].
  - after_step. eapply after_mono; [by apply pending_process| |done]. intros p [] ?. by after_step.
Qed.

Lemma with_adversary_after {B} (g : A → M (VNet * Rng) Empty_set (A * B)) v w r : sim v w →
  (∀ a v0, nodes v0 = nodes v → after (g a) (v0, r) (λ p _, handled v0 p) (λ _, True)) →
  after (with_adversary (Er := Er) g) (v, r) (λ p _, sim p.1 w ∧ ∀ i, faulty_at v i → faulty_at p.1 i) (λ p, runs p.1).
Proof.
  intros Hs Hg. unfold with_adversary. do 3 after_step; [|by after_step]. do 2 after_step.
  set (v0 := v <| adversary := None |>). after_step. after_step.
  unfold after. specialize (Hg a v0 eq_refl). unfold after in Hg.
  destruct (g a (v0, r)) as [[v1 r1] [a1 b]|? []| |]; try done. cbn in Hg.
  assert (Hs1 : sim v1 w).
  { eapply sim_handled; [exact Hg|]. by apply (sim_less v). }
  split; cbn; [by apply (sim_less v1)|]. intros i Hi. exact (handled_faulty_at v0 v1 i Hg Hi).
Qed.

Lemma pop_message_queue removed (l : list (NetworkMessage Msg N)) :
  (pop_message removed l).2 ⊆ l ∧ ∀ m, (pop_message removed l).1 = Some m → m ∈ l.
Proof.
  induction l as [|m l [IH1 IH2]]; cbn; [done|]. case_decide; cbn.
  - split; [set_solver|]. intros m' Hm'. apply elem_of_cons. right. auto.
  - split; [set_solver|]. intros m' [= <-]. apply elem_of_cons. by left.
Qed.

Lemma crank_runs `{!FairAdversary Er} elapsed v r : runs v →
  after (crank elapsed) (v, r) (λ p _, runs p.1) (λ p, runs p.1).
Proof.
  intros Hv. apply runs_after; [done|]. intros w Hw Hf Hs. unfold crank. do 2 after_step.
  destruct (over_limit elapsed v); [by after_step|]. after_step.
  eapply after_mono; [apply (with_adversary_after _ v w); [done|]| |done].
  { intros a v0 _. after_step. eapply after_mono; [apply fair_pre_crank| |done]. intros p a' ?. by after_step. }
  clear Hv Hs. intros [v1 r1] _ [Hs _]. cbn [fst] in Hs. do 2 after_step.
  destruct (pop_message (removed_nodes v1) (net_messages v1)) as [[m|] rest] eqn:Hpop.
  all: pose proof (pop_message_queue (removed_nodes v1) (net_messages v1)) as [Hrest Hm]; rewrite Hpop in Hrest, Hm; cbn [fst snd] in Hrest, Hm.
  all: set (v2 := v1 <| net_messages := rest |>); assert (Hs2 : sim v2 w) by by apply (sim_less v1).
  all: after_step; apply on_net_after; after_step; fold v2.
  2: { after_step. by apply (runs_intro v2 w). }
  after_step. destruct (nodes v1 !! to m) as [n|] eqn:Hn; cbn; [|by apply (runs_intro v2 w)].
  after_step.
  apply (after_mono _ _ (λ p step, pending (to m) step p.1) _ (λ p, runs p.1)); [|intros [v3 r3] step Hp|done].
  - destruct (is_faulty n) eqn:Hfn.
    + after_step. assert (Hfa : faulty_at v2 (to m)) by by exists n.
      eapply after_mono; [apply (with_adversary_after _ v2 w); [done|]| |done].
      { intros a v0 Hv0. apply fair_tamper. unfold faulty_at. by rewrite Hv0. }
      cbn. intros [v3 r3] o [Hs3 Hf3]. cbn in Hs3, Hf3. do 2 after_step. destruct x as [e|step]; cbn; [by apply (runs_intro v3 w)|].
      destruct (Hf3 _ Hfa) as (n3 & Hn3 & Hfn3). exists n3. split; [done|]. intros v' Hst.
      apply (runs_intro v' w); [done|]. by eapply sim_faulty_step.
    + apply (sim_faulty _ _ Hs (to m) n Hn) in Hfn. unfold dispatch_message.
      eapply (correct_algorithm v1 w (to m) n (Deliver (to m) (from m) (payload m)) [] _ (hm (from m) (payload m)));
        try done; [apply deliver_allowed with v1; auto|apply same_message].
  - after_step. eapply after_mono; [by apply pending_process| |done]. intros [v4 r4] [] Hv4. after_step.
    apply on_net_after. do 2 after_step. by apply (runs_less v4).
Qed.

Lemma remove_node_runs i v : runs v → runs (remove_node i v).1.
Proof.
  intros (w & Hw & Hs). exists w. split; [done|]. intros Hf. destruct (Hs Hf) as [Hsf Ha Hst]. split; cbn.
  - intros j n [_ Hn]%lookup_delete_Some. by apply Hsf.
  - intros j n [_ Hn]%lookup_delete_Some. by apply Ha.
  - intros m [_ Hm]%list_elem_of_filter. by apply Hst.
Qed.

(** The networks that a test gets from the network [v0] *)
Inductive virtual_run v0 : VNet → Prop :=
  | vr_start : virtual_run v0 v0
  | vr_crank elapsed v r p x : virtual_run v0 v → crank elapsed (v, r) = Ok p x → virtual_run v0 p.1
  | vr_crank_error elapsed v r p e : virtual_run v0 v → crank elapsed (v, r) = Err p e → virtual_run v0 p.1
  | vr_input i x v r p step : virtual_run v0 v → send_input i x (v, r) = Ok p step → virtual_run v0 p.1
  | vr_input_error i x v r p e : virtual_run v0 v → send_input i x (v, r) = Err p e → virtual_run v0 p.1
  | vr_remove i v : virtual_run v0 v → virtual_run v0 (remove_node i v).1.

Lemma virtual_run_runs `{!FairAdversary Er} v0 v : (∃ w, initial w ∧ sim v0 w) → virtual_run v0 v → runs v.
Proof.
  intros (w0 & Hw0 & Hs0). induction 1 as [|elapsed v r p x _ IH Hc|elapsed v r p e _ IH Hc|i x v r p st _ IH Hc|i x v r p e _ IH Hc|].
  - apply (runs_intro v0 w0); [by apply reach_init|done].
  - pose proof (crank_runs elapsed v r IH) as Ha. unfold after in Ha. by rewrite Hc in Ha.
  - pose proof (crank_runs elapsed v r IH) as Ha. unfold after in Ha. by rewrite Hc in Ha.
  - pose proof (send_input_runs i x v r IH) as Ha. unfold after in Ha. by rewrite Hc in Ha.
  - pose proof (send_input_runs i x v r IH) as Ha. unfold after in Ha. by rewrite Hc in Ha.
  - by apply remove_node_runs.
Qed.

(** C24: Refinement: whatever a fair adversary does and whichever inputs a test sends, the correct
    nodes of the virtual network are in the states, have made the outputs and have queued
    only messages of a reachable world of the asynchronous network [Net], unless a correct node has
    addressed a message to itself there. *)
Theorem virtual_net_refines `{!FairAdversary Er} v0 w0 v : initial w0 → sim v0 w0 → virtual_run v0 v →
  ∃ w, reachable w ∧ (self_free correct w → sim v w).
Proof. intros Hi Hs. apply virtual_run_runs. by exists w0. Qed.
End refines.

(** ** What the builder and the network do against their documentation *)
Section builder.
Context {D N I O Msg Er F A : Type} `{ord : NodeIdT N} `{crypto : Crypto}
  `{cp : !ConsensusProtocol D Rng N I O Msg Er F} `{adv : !Adversary D N O Msg Er F A}.
Abbreviation VNet := (VirtualNet D N O Msg F A).

(** [NetBuilder::error_on_fault(false)] is lost: every network that the builder makes stops with an
    error on a fault that a correct node reports of a correct node, whatever the setting. *)
Theorem error_on_fault_ignored override rng (b : NetBuilder (D := D) (N := N) (O := O) (Msg := Msg) (F := F) (A := A)) :
  match build (Er := Er) override rng b with
  | Ok (v, _) _ => error_on_fault v = true ∧
      ∀ i n step fault n', nodes v !! i = Some n → is_faulty n = false → fault ∈ fault_log step →
        nodes v !! node_id fault = Some n' → is_faulty n' = false →
        ∃ v' e, process_step (Er := Er) i step v = Err v' e
  | _ => True
  end.
Proof.
  destruct (build override rng b) as [[v r] steps| | |] eqn:Hb; try done.
  assert (Hv : error_on_fault v = true).
  { unfold build in Hb. destruct (b_cons b) as [new_node|]; [|done]. unfold net_new in Hb.
    destruct (generate_map (node_ids b) rng) as [[nis r']|]; [|done]. destruct (negb _); [done|].
    destruct (for_acc _ _ _ _) as [[ns ms] c|[ns ms] e| |]; [|done..]. by destruct (b_adversary b); injection Hb as <- <- <-. }
  split; [done|]. intros i n step fault n' Hn Hf Hin Hn' Hf'.
  unfold process_step, process_step_on, mbind, M_bind, zoom, get. rewrite Hv. cbn. rewrite Hn. cbn. rewrite Hf. cbn.
  destruct (list_find_elem_of (λ fault : Fault N F, match nodes v !! node_id fault with
    | Some n => negb (is_faulty n) | None => false end = true) (fault_log step) fault Hin) as [[k fl] Hfl].
  { by rewrite Hn', Hf'. }
  rewrite Hfl. by eexists _, _.
Qed.

(** A network without an adversary does not run faulty nodes as correct ones: when the next message
    is for a faulty node, [crank] panics. *)
Theorem no_adversary_panics elapsed (v : VNet) r m rest n :
  over_limit (Er := Er) elapsed v = None → adversary v = None →
  pop_message (removed_nodes v) (net_messages v) = (Some m, rest) →
  nodes v !! to m = Some n → is_faulty n = true → crank elapsed (v, r) = Panic.
Proof.
  intros Hl Ha Hp Hn Hf. unfold crank, with_adversary, on_net, zoom, mbind, M_bind, get, modify.
  cbn. rewrite Hl, Ha. cbn. rewrite Hp. cbn. rewrite Hn. cbn. rewrite Hf. cbn. by rewrite Ha.
Qed.
End builder.
End virtual_net_facts.
