(* ===== verification/HbVirtual.v ===== *)
(** * Honey Badger in the virtual network

    The total order of [HbNet] for the networks of the test framework, and an execution
    of one with a reordering adversary. *)
From S2P Require Import Prelude.
From S2P Require Import BTree.
From S2P Require Import Traits.
From S2P Require Import Net.
From S2P Require Import NetworkInfo.
From S2P Require Import Merkle.
From S2P Require Import Broadcast.
From S2P Require Import ThresholdSign.
From S2P Require Import BinaryAgreement.
From S2P Require Import BaNode.
From S2P Require Import BaAgreement.
From S2P Require Import Targets.
From S2P Require Import ThresholdDecrypt.
From S2P Require Import Subset.
From S2P Require Import SubsetNet.
From S2P Require Import SubsetDemo.
From S2P Require Import HoneyBadger.
From S2P Require Import HbNet.
From S2P Require Import SelfFree.
From S2P Require Import HbDemo.
From S2P Require Import SenderQueue.
From S2P Require Import SenderQueueAlgos.
From S2P Require Import VirtualNet.
From S2P Require Import Adversaries.
From S2P Require Import VirtualNetFacts.
From S2P Require Import Instances.

Module hb_virtual.
Import virtual_net.
Import virtual_net_facts.

Section agreement.
Context {C N A : Type} `{ord : NodeIdT N} `{crypto : Crypto} `{sha : Sha3}
  `{rse : ReedSolomonLib} `{bo : ByteOrder} `{sid : !SessionIdT (subset.BaSessionId honey_badger.EpochId)}
  `{bin_c : !Bincode C} `{bin_ct : !Bincode Ciphertext}
  `{rse_laws : !ReedSolomonLaws} `{bo_laws : !ByteOrderLaws} `{sig_laws : !ThresholdSigLaws}
  `{enc_laws : !ThresholdEncLaws} `{share_eq : !EqDecision SignatureShare}
  `{dec_eq : !EqDecision NetworkInfo.DecryptionShare}.
Abbreviation VNet := (VirtualNet (honey_badger.HoneyBadger N) N (honey_badger.Batch C N) (honey_badger.Message N)
  honey_badger.FaultKind A).
Context `{adv : !Adversary (honey_badger.HoneyBadger N) N (honey_badger.Batch C N) (honey_badger.Message N)
  honey_badger.Error honey_badger.FaultKind A} `{fair : !FairAdversary honey_badger.Error}.
Context (pubs : gmap N PublicKey) (correct : gset N) (pks : PublicKeySet).
Context (hb_id e0 : u64) (sched : honey_badger.EncryptionSchedule).
Context (Hcorrect : correct ⊆ dom pubs) (Hbyz : size (dom pubs ∖ correct) ≤ (size pubs - 1) / 3).
Context (Hser : ∀ (id : subset.BaSessionId honey_badger.EpochId) e, is_Some (serialize_coin_id id e)).
Context (He0 : (0 ≤ e0)%Z) (He0max : (e0 < 2 ^ 64)%Z).
Implicit Types (v : VNet).

(** C23: Total order in the test framework: whatever a fair adversary does and whatever is input,
    the correct nodes of a virtual network of Honey Badger nodes, at most [f] of them
    faulty, are in the states of a reachable world of [Net], in which they have output the
    same and every message in the queue of the virtual network has been sent; so the [n]-th batches of two
    correct nodes are equal, with the exceptions of [hb_agreement] in this world. *)
Theorem hb_virtual_agreement v0 w0 v :
  hb_net.hb_initial pubs correct pks hb_id e0 sched w0 → sim correct v0 w0 → virtual_run v0 v →
  ∃ w, Net.reachable hb_net.hb_input honey_badger.handle_message (λ _, true) correct
      (hb_net.hb_initial pubs correct pks hb_id e0 sched) w ∧ sim correct v w ∧
    (hb_net.epochs_left correct w → ¬ hb_net.overflown correct e0 w →
     ∀ i j ni nj n (b b' : honey_badger.Batch C N),
       nodes v !! i = Some ni → is_faulty ni = false → nodes v !! j = Some nj → is_faulty nj = false →
       outputs ni !! n = Some b → outputs nj !! n = Some b' →
       b = b' ∨ hb_net.shards_collide pubs correct pks hb_id e0 sched (e0 + Z.of_nat n)%Z w i j).
Proof.
  intros Hi0 Hs0 Hrun.
  destruct (virtual_run_runs (cp := sq_honey_badger.hb_consensus_protocol (C := C)) honey_badger.propose honey_badger.handle_message
    (λ _, eq_refl) (λ _ _, eq_refl) correct
    (hb_net.hb_initial pubs correct pks hb_id e0 sched) v0 v) as (w & Hw & Hs); [by exists w0|done|].
  specialize (Hs (self_free_nets.hb_self_free pubs correct pks hb_id e0 sched w Hw)).
  exists w. split; [exact Hw|]. split; [done|]. intros Hl Hov i j ni nj n b b' Hi Hfi Hj Hfj Hb Hb'.
  pose proof (proj1 (sim_faulty _ _ _ Hs i ni Hi) Hfi) as Hci. pose proof (proj1 (sim_faulty _ _ _ Hs j nj Hj) Hfj) as Hcj.
  destruct (sim_node _ _ _ Hs i ni Hi Hci) as [_ Hoi], (sim_node _ _ _ Hs j nj Hj Hcj) as [_ Hoj].
  rewrite Hoi in Hb. rewrite Hoj in Hb'. by eapply hb_net.batches_agree.
Qed.
End agreement.

(** ** An execution

    Four nodes, the first of them marked as faulty, with the keys of [HbDemo] and an
    adversary that reorders the queue. *)
Import adversary.
#[local] Existing Instance threshold_sign.number_sig_laws.
#[local] Existing Instance threshold_decrypt.number_enc_laws.
#[local] Existing Instance ba_agreement.demo_share_eq.
#[local] Existing Instance subset_demo.any_session.
#[local] Existing Instance subset_demo.last_byte.
#[local] Existing Instance hb_demo.demo_dec_eq.
#[local] Existing Instance hb_demo.bin_contribution.
#[local] Existing Instance hb_demo.bin_ciphertext.
#[local] Instance number_range : GenRange (@Rng number_crypto) := {| gen_range n r := ((31 * r + 7) mod n, S r) |}.
#[local] Existing Instance sq_honey_badger.hb_consensus_protocol.

Abbreviation HB := (@honey_badger.HoneyBadger nat nat_ord_key number_crypto repeat_code).
Abbreviation HbBatch := (@honey_badger.Batch bytes nat nat_ord_key).
Abbreviation HbMessage := (@honey_badger.Message nat number_crypto).
Abbreviation VNet := (VirtualNet HB nat HbBatch HbMessage honey_badger.FaultKind ReorderingAdversary).
Definition demo_node (info : @NewNodeInfo nat nat_ord_key number_crypto) : HB :=
  honey_badger.build (honey_badger.mkBuilder _ _ _ (four_netinfo (info_id info)) 5 0 honey_badger.params_default).
Definition demo_start : option (VNet * @Rng number_crypto) :=
  match build (Er := honey_badger.Error) false 0 (set_num_faulty 1 (set_adversary reordering_adversary (using_ demo_node (builder_new (seq 0 4))))) with
  | Ok p _ => Some p
  | _ => None
  end.
Definition demo_crank : M (VNet * @Rng number_crypto) _ _ :=
  crank (cp := sq_honey_badger.hb_consensus_protocol (C := bytes)) (adv := reordering_adversary_hooks) 0.
Definition demo_input (i : nat) (x : bytes) : M (VNet * @Rng number_crypto) _ _ :=
  send_input (cp := sq_honey_badger.hb_consensus_protocol (C := bytes)) i x.
Fixpoint demo_cranks (k : nat) (p : VNet * @Rng number_crypto) : option (VNet * @Rng number_crypto) :=
  match k with
  | 0 => Some p
  | S k => match demo_crank p with Ok p' _ => demo_cranks k p' | _ => None end
  end.
Fixpoint demo_inputs (l : list (nat * bytes)) (p : VNet * @Rng number_crypto) : option (VNet * @Rng number_crypto) :=
  match l with
  | [] => Some p
  | (i, x) :: l => match demo_input i x p with Ok p' _ => demo_inputs l p' | _ => None end
  end.

Definition virtual_correct : gset nat := {[1; 2; 3]}.
Definition demo_final : option (VNet * @Rng number_crypto) :=
  p ← demo_start; p ← demo_inputs [(0, ["a"%byte]); (1, ["b"%byte]); (2, ["c"%byte]); (3, ["d"%byte])] p; demo_cranks 600 p.
Definition demo_batch : HbBatch :=
  honey_badger.mkBatch _ _ _ 0 (list_to_map [(0, ["a"%byte]); (1, ["b"%byte]); (2, ["c"%byte]); (3, ["d"%byte])]).

(** *** The start is a start of [Net] *)
Definition fresh (i : nat) : Node HB nat HbBatch honey_badger.FaultKind := node_new (w_node hb_demo.hb_init i) (bool_decide (i < 1)).
Lemma demo_start_nodes : (λ p, (nodes p.1, net_messages p.1)) <$> demo_start =
  Some (list_to_map ((λ i, (i, fresh i)) <$> seq 0 4), []).
Proof. vm_cast_no_check (eq_refl (Some (list_to_map ((λ i, (i, fresh i)) <$> seq 0 4) : gmap nat (Node HB nat HbBatch honey_badger.FaultKind), [] : list (NetworkMessage HbMessage nat)))). Qed.

Lemma virtual_lt i : i ∈ virtual_correct → i < 4.
Proof. unfold virtual_correct. set_solver by lia. Qed.

Abbreviation demo_sim := (sim (I := bytes) (ord := nat_ord_key) (A := ReorderingAdversary) virtual_correct).
Lemma demo_start_sim (p : VNet * @Rng number_crypto) : demo_start = Some p → demo_sim p.1 hb_demo.hb_init.
Proof.
  intros Hp. pose proof demo_start_nodes as Hn. rewrite Hp in Hn. cbn [fmap option_fmap option_map] in Hn. injection Hn as Hn Hm.
  assert (Hnode : ∀ i n, nodes p.1 !! i = Some n → i < 4 ∧ n = fresh i).
  { intros i n Hi.
    assert (Hl : (list_to_map ((λ i, (i, fresh i)) <$> seq 0 4) : gmap nat (Node HB nat HbBatch honey_badger.FaultKind)) !! i = Some n)
      by exact (eq_trans (f_equal (λ m : gmap nat _, m !! i) (eq_sym Hn)) Hi).
    apply elem_of_list_to_map_2, list_elem_of_fmap in Hl as (k & [= -> ->] & Hk%elem_of_seq). split; [lia|done]. }
  split.
  - intros i n [Hlt ->]%Hnode. unfold fresh, virtual_correct. cbn [node_new is_faulty].
    rewrite bool_decide_eq_false, !elem_of_union, !elem_of_singleton. lia.
  - by intros i n [_ ->]%Hnode _.
  - intros m Hin. destruct (not_elem_of_nil m). exact (eq_ind _ (λ l, m ∈ l) Hin _ Hm).
Qed.

(** *** The run *)
Abbreviation demo_run := (virtual_run (cp := sq_honey_badger.hb_consensus_protocol (C := bytes)) (adv := reordering_adversary_hooks)).
Lemma cranks_run v0 k p p' : demo_cranks k p = Some p' → demo_run v0 p.1 → demo_run v0 p'.1.
Proof.
  revert p. induction k as [|k IH]; intros [v r]; cbn [demo_cranks]; [by intros [= <-]|].
  destruct (demo_crank (v, r)) as [p1 x| | |] eqn:Hc; [|done..]. intros Hk Hv. apply (IH p1 Hk). by eapply vr_crank.
Qed.
Lemma inputs_run v0 l p p' : demo_inputs l p = Some p' → demo_run v0 p.1 → demo_run v0 p'.1.
Proof.
  revert p. induction l as [|[i x] l IH]; intros [v r]; cbn [demo_inputs]; [by intros [= <-]|].
  destruct (demo_input i x (v, r)) as [p1 st| | |] eqn:Hc; [|done..]. intros Hk Hv. apply (IH p1 Hk). by eapply vr_input.
Qed.
Definition demo_read (p : VNet * @Rng number_crypto) := (λ i, (λ n, (is_faulty n, outputs n)) <$> nodes p.1 !! i) <$> [1; 2; 3].
Lemma demo_final_read : demo_read <$> demo_final = Some (replicate 3 (Some (false, [demo_batch]))).
Proof. vm_compute. reflexivity. Qed.

Lemma read_nodes (p : VNet * @Rng number_crypto) : demo_read p = replicate 3 (Some (false, [demo_batch])) →
  ∀ i, i ∈ virtual_correct → ∃ n, nodes p.1 !! i = Some n ∧ is_faulty n = false ∧ outputs n = [demo_batch].
Proof.
  unfold demo_read. cbn [fmap list_fmap replicate]. intros [= H1 H2 H3] i Hi.
  assert (i = 1 ∨ i = 2 ∨ i = 3) as [->|[->| ->]] by (unfold virtual_correct in Hi; set_solver).
  - apply fmap_Some in H1 as (n & Hn & Hx). injection Hx as Hf Ho. exists n. by split_and!.
  - apply fmap_Some in H2 as (n & Hn & Hx). injection Hx as Hf Ho. exists n. by split_and!.
  - apply fmap_Some in H3 as (n & Hn & Hx). injection Hx as Hf Ho. exists n. by split_and!.
Qed.

Lemma demo_final_ok : ∃ v0 v, demo_sim v0 hb_demo.hb_init ∧ demo_run v0 v ∧
  ∀ i, i ∈ virtual_correct → ∃ n, nodes v !! i = Some n ∧ is_faulty n = false ∧ outputs n = [demo_batch].
Proof.
  pose proof demo_final_read as Hread. unfold demo_final in Hread. pose proof demo_start_sim as Hstart.
  destruct demo_start as [p0|]; [|done]. cbn [mbind option_bind] in Hread. specialize (Hstart p0 eq_refl).
  destruct (demo_inputs _ p0) as [p1|] eqn:H1; [|done]. cbn [mbind option_bind] in Hread.
  destruct (demo_cranks 600 p1) as [p2|] eqn:H2; [|done]. cbn [fmap option_fmap option_map] in Hread.
  apply (inj Some) in Hread.
  exists p0.1, p2.1. split; [exact Hstart|]. split; [|exact (read_nodes p2 Hread)].
  apply (cranks_run _ 600 p1 p2 H2). apply (inputs_run _ _ p0 p1 H1). apply vr_start.
Qed.
Lemma virtual_correct_in : 1 ∈ virtual_correct ∧ 3 ∈ virtual_correct.
Proof. unfold virtual_correct. set_solver. Qed.
Abbreviation demo_overflown := (hb_net.overflown (C := bytes) (ord := nat_ord_key) (crypto := number_crypto) virtual_correct 0).
Lemma demo_not_overflown (v : VNet) w : demo_sim v w →
  (∀ i, i ∈ virtual_correct → ∃ n, nodes v !! i = Some n ∧ is_faulty n = false ∧ outputs n = [demo_batch]) →
  ¬ demo_overflown w.
Proof.
  intros Hs Hv (i & Hi & Hov). destruct (Hv i Hi) as (n & Hn & _ & Ho).
  destruct (sim_node _ _ _ Hs i n Hn Hi) as [_ Hw]. unfold hb_net.over in Hov. rewrite <- Hw, Ho in Hov. cbn in Hov. lia.
Qed.

Lemma virtual_byz : virtual_correct ⊆ dom four_keys ∧ size (dom four_keys ∖ virtual_correct) ≤ (size four_keys - 1) / 3.
Proof. split; [by apply (bool_decide_unpack (virtual_correct ⊆ dom four_keys)); vm_compute|vm_compute; lia]. Qed.
Lemma virtual_initial : hb_net.hb_initial (C := bytes) (ord := nat_ord_key) (crypto := number_crypto) four_keys virtual_correct
  hb_demo.hb_keys 5 0 honey_badger.Always hb_demo.hb_init.
Proof. apply hb_demo.hb_initial_for. exact virtual_lt. Qed.

Lemma hb_virtual_agreement_witness : ∃ (v : VNet) n1 n3 w, nodes v !! 1 = Some n1 ∧ nodes v !! 3 = Some n3 ∧
  outputs n1 !! 0 = Some demo_batch ∧ outputs n3 !! 0 = Some demo_batch ∧ demo_sim v w ∧
  (hb_net.epochs_left (C := bytes) (ord := nat_ord_key) (crypto := number_crypto) virtual_correct w →
   demo_batch = demo_batch ∨ hb_net.shards_collide (C := bytes) (ord := nat_ord_key) (crypto := number_crypto) four_keys
     virtual_correct hb_demo.hb_keys 5 0 honey_badger.Always 0 w 1 3).
Proof.
  destruct demo_final_ok as (v0 & v & Hs0 & Hrun & Hv).
  destruct (Hv 1 (proj1 virtual_correct_in)) as (n1 & H1 & Hf1 & Ho1), (Hv 3 (proj2 virtual_correct_in)) as (n3 & H3 & Hf3 & Ho3).
  assert (Hb1 : outputs n1 !! 0 = Some demo_batch) by (rewrite Ho1; reflexivity).
  assert (Hb3 : outputs n3 !! 0 = Some demo_batch) by (rewrite Ho3; reflexivity).
  destruct (hb_virtual_agreement (ord := nat_ord_key) (crypto := number_crypto) (adv := reordering_adversary_hooks)
    four_keys virtual_correct hb_demo.hb_keys 5 0 honey_badger.Always (proj1 virtual_byz) (proj2 virtual_byz)
    hb_demo.demo_ser (proj1 hb_demo.demo_first) (proj2 hb_demo.demo_first) v0 hb_demo.hb_init v
    virtual_initial Hs0 Hrun) as (w & _ & Hs & Hw).
  exists v, n1, n3, w. split; [exact H1|]. split; [exact H3|]. split; [exact Hb1|]. split; [exact Hb3|]. split; [exact Hs|].
  intros Hl. exact (Hw Hl (demo_not_overflown v w Hs Hv) 1 3 n1 n3 0 _ _ H1 Hf1 H3 Hf3 Hb1 Hb3).
Defined.

Lemma virtual_net_refines_witness : ∃ (v : VNet) n1 w, nodes v !! 1 = Some n1 ∧ outputs n1 = [demo_batch] ∧
  (targets.self_free (ord := nat_ord_key) virtual_correct w → demo_sim v w).
Proof.
  destruct demo_final_ok as (v0 & v & Hs & Hrun & Hv). destruct (Hv 1 (proj1 virtual_correct_in)) as (n1 & H1 & _ & Ho1).
  destruct (virtual_net_refines (ord := nat_ord_key) (crypto := number_crypto) (adv := reordering_adversary_hooks)
    (cp := sq_honey_badger.hb_consensus_protocol (C := bytes)) honey_badger.propose honey_badger.handle_message (λ _, eq_refl) (λ _ _, eq_refl)
    virtual_correct (hb_net.hb_initial (C := bytes) (ord := nat_ord_key) (crypto := number_crypto) four_keys virtual_correct hb_demo.hb_keys 5 0 honey_badger.Always)
    v0 hb_demo.hb_init v virtual_initial Hs Hrun) as (w & _ & Hw).
  exists v, n1, w. split; [exact H1|]. split; [exact Ho1|exact Hw].
Defined.

(** Without an adversary, a message to the node [0], which is marked as faulty, makes the
    network panic. *)
Definition a_share : @NetworkInfo.DecryptionShare number_crypto := (1, 0, []).
Definition to_faulty : NetworkMessage HbMessage nat :=
  mkMessage _ _ 1 0 (honey_badger.mkMessage _ _ 0 (honey_badger.DecryptionShare 1 (threshold_decrypt.Msg a_share))).
Definition no_adversary : VNet :=
  mkNet _ _ _ _ _ _ _ (list_to_map ((λ i, (i, fresh i)) <$> seq 0 4))
    [to_faulty]
    None 0 None 0 None None true ∅.
Lemma no_adversary_panics_witness : demo_crank (no_adversary, 0) = Panic.
Proof.
  apply (no_adversary_panics (ord := nat_ord_key) (crypto := number_crypto) 0 no_adversary 0
    to_faulty [] (fresh 0)); reflexivity.
Defined.
End hb_virtual.
