(* ===== verification/Dimensions.v ===== *)
(** * Dimensions of test networks

    Models [hbbft_testing/src/proptest.rs]: the dimensions that the property tests choose
    from, their numbering and the search tree with which a failing dimension is made
    smaller.  The square root of the crate [integer_sqrt] and the ranges of [rand] are
    classes. *)
From S2P Require Import Prelude.

Module dimensions.

Abbreviation u16 := Z (only parsing).
Definition wrap16 (z : Z) : u16 := (z mod 2 ^ 16)%Z.

(** [IntegerSquareRoot]: the floor of the square root *)
Class IntegerSqrt := { integer_sqrt : u32 → u32 }.
Class IntegerSqrtLaws `{IntegerSqrt} := {
  integer_sqrt_spec n : in_u32 n → (0 ≤ integer_sqrt n ∧
    integer_sqrt n * integer_sqrt n ≤ n < (integer_sqrt n + 1) * (integer_sqrt n + 1))%Z;
}.
(** [rng.gen_range(low, high)]; [None] is a panic, of an empty range. *)
Class GenU16 (R : Type) := { gen_u16 : u16 → u16 → R → option (u16 * R) }.
Class GenU16Laws (R : Type) `{GenU16 R} := {
  gen_u16_range lo hi (r r' : R) x : gen_u16 lo hi r = Some (x, r') → (lo ≤ x < hi)%Z;
}.

(** ** Dimensions *)
Record NetworkDimension : Type := mkDim {
  size : u16;
  faulty : u16;
}.
Definition is_bft (d : NetworkDimension) : bool := bool_decide (wrap16 (faulty d * 3) < size d)%Z.
(** [None] is a failed assertion. *)
Definition new (size faulty : u16) : option NetworkDimension :=
  let dim := mkDim size faulty in
  if is_bft dim then Some dim else None.
Definition succ (d : NetworkDimension) : option NetworkDimension :=
  let n := size d in
  let f := wrap16 (faulty d + 1) in
  if bool_decide (n ≤ wrap16 (3 * f))%Z then new (wrap16 (n + 1)) 0 else new n f.

Section numbering.
Context `{isqrt : IntegerSqrt}.
Definition max_sum (n : u32) : u32 := (wrap32 (integer_sqrt (wrap32 (1 + wrap32 (8 * n))) - 1) / 2)%Z.
(** [start] of a block, in both directions *)
Definition block_start (b : u32) : u32 := (wrap32 (wrap32 (3 * b) * wrap32 (b + 1)) / 2)%Z.
Definition u32_of_dim (d : NetworkDimension) : u32 :=
  let b := (wrap32 (size d - 1) / 3)%Z in
  let offset := wrap32 (wrap32 (wrap32 (wrap32 (size d - wrap32 (3 * b)) - 1) * wrap32 (b + 1)) + faulty d) in
  wrap32 (block_start b + offset).
Definition dim_of_u32 (n : u32) : option NetworkDimension :=
  let b := max_sum (n / 3) in
  let offset := wrap32 (n - block_start b) in
  let faulty := (offset mod wrap32 (b + 1))%Z in
  let size := wrap32 (wrap32 (wrap32 (3 * b) + 1) + offset / wrap32 (b + 1)) in
  new (wrap16 size) (wrap16 faulty).

(** ** The search tree *)
Record NetworkDimensionTree : Type := mkTree {
  high : u32;
  current : u32;
  low : u32;
}.
Definition gen {R} `{GenU16 R} (rng : R) (min_size max_size : u16) : option (NetworkDimensionTree * R) :=
  if bool_decide (0 < min_size)%Z then
    '(total, rng) ← gen_u16 min_size (wrap16 (max_size + 1)) rng;
    let max_faulty := (wrap16 (total - 1) / 3)%Z in
    '(faulty, rng) ← gen_u16 0 (wrap16 (max_faulty + 1)) rng;
    high ← new total faulty;
    Some (mkTree (u32_of_dim high) (u32_of_dim high) min_size, rng)
  else None.
Definition tree_current (t : NetworkDimensionTree) : option NetworkDimension := dim_of_u32 (current t).
Definition simplify (t : NetworkDimensionTree) : NetworkDimensionTree * bool :=
  let high' := current t in
  let current' := (wrap32 (low t + high') / 2)%Z in
  (mkTree high' current' (low t), bool_decide (high t ≠ high' ∨ current t ≠ current')).
Definition complicate (t : NetworkDimensionTree) : NetworkDimensionTree * bool :=
  if bool_decide (high t = current t) then (t, false)
  else
    let low' := wrap32 (current t + 1) in
    let current' := (wrap32 (low' + high t) / 2)%Z in
    (mkTree (high t) current' low', bool_decide (current t ≠ current' ∨ low t ≠ low')).

(** The strategy: [NetworkDimension::range] and [new_tree] *)
Record NetworkDimensionStrategy : Type := mkStrategy {
  min_size : u16;
  max_size : u16;
}.
Definition range (min_size max_size : u16) : NetworkDimensionStrategy := mkStrategy min_size max_size.
Definition new_tree {R} `{GenU16 R} (s : NetworkDimensionStrategy) (rng : R) : option (NetworkDimensionTree * R) :=
  gen rng (min_size s) (max_size s).

(** ** The numbering *)
Implicit Types (d : NetworkDimension) (t : NetworkDimensionTree) (n m k b : Z).
#[local] Open Scope Z_scope.
Definition valid d : Prop := 0 ≤ faulty d ∧ 3 * faulty d < size d ∧ size d < 2 ^ 16.
(** The number of the last dimension *)
Definition last_index : Z := 715838804.
Definition tri k : Z := k * (k + 1) / 2.
Definition index d : Z :=
  let b := (size d - 1) / 3 in 3 * tri b + (size d - 3 * b - 1) * (b + 1) + faulty d.

Lemma tri_double k : 2 * tri k = k * (k + 1).
Proof.
  unfold tri. destruct (Z.Even_or_Odd k) as [[q ->]|[q ->]].
  - replace (2 * q * (2 * q + 1)) with (q * (2 * q + 1) * 2) by lia. rewrite Z.div_mul; lia.
  - replace ((2 * q + 1) * (2 * q + 1 + 1)) with ((2 * q + 1) * (q + 1) * 2) by lia. rewrite Z.div_mul; lia.
Qed.
Lemma tri_succ k : tri (k + 1) = tri k + k + 1.
Proof. pose proof (tri_double k). pose proof (tri_double (k + 1)). nia. Qed.
Lemma tri_mono k m : 0 ≤ k ≤ m → tri k ≤ tri m.
Proof. intros. pose proof (tri_double k). pose proof (tri_double m). nia. Qed.

Lemma new_valid d : valid d → new (size d) (faulty d) = Some d.
Proof.
  intros (H1 & H2 & H3). unfold new, is_bft, wrap16. cbn. rewrite Z.mod_small by lia.
  rewrite bool_decide_true by lia. by destruct d.
Qed.

Lemma block_start_spec b : 0 ≤ b ≤ 21845 → block_start b = 3 * tri b.
Proof.
  intros Hb. unfold block_start. pose proof (tri_double b). rewrite (wrap32_small (3 * b)), (wrap32_small (b + 1)), wrap32_small by (unfold in_u32; nia).
  replace (3 * b * (b + 1)) with (3 * tri b * 2) by lia. by apply Z.div_mul.
Qed.

(** The block of a dimension and its row in the block *)
Lemma valid_block d : valid d → ∃ b r, 0 ≤ b ≤ 21844 ∧ (r = 0 ∨ r = 1 ∨ r = 2) ∧ size d = 3 * b + 1 + r ∧
  (size d - 1) / 3 = b ∧ 0 ≤ faulty d ≤ b.
Proof.
  intros (H1 & H2 & H3). pose proof (Z.div_mod (size d - 1) 3 ltac:(lia)) as Hdm.
  pose proof (Z.mod_pos_bound (size d - 1) 3 ltac:(lia)) as Hmod.
  exists ((size d - 1) / 3), ((size d - 1) mod 3). split_and!; lia.
Qed.
Lemma u32_of_dim_spec d : valid d → u32_of_dim d = index d.
Proof.
  intros (b & r & Hb & Hr & Hs & Hd & Hf)%valid_block. unfold u32_of_dim, index. rewrite (wrap32_small (size d - 1)) by (unfold in_u32; lia).
  rewrite Hd, block_start_spec by lia. pose proof (tri_double b) as Ht. assert (Hq : size d - 3 * b - 1 = r) by lia.
  rewrite (wrap32_small (3 * b)), (wrap32_small (b + 1)), (wrap32_small (size d - 3 * b)), Hq by (unfold in_u32; lia).
  rewrite (wrap32_small r), (wrap32_small (r * (b + 1))), (wrap32_small (_ + faulty d)), wrap32_small
    by (unfold in_u32; destruct Hr as [->|[->| ->]]; nia). lia.
Qed.
Lemma index_bound d : valid d → size d - 1 ≤ index d ≤ last_index.
Proof.
  intros (b & r & Hb & Hr & Hs & Hd & Hf)%valid_block. unfold index, last_index. rewrite Hd. pose proof (tri_double b) as Ht.
  assert (Hq : size d - 3 * b - 1 = r) by lia. rewrite Hq, Hs. destruct Hr as [->|[->| ->]]; nia.
Qed.

Context {isqrt_laws : IntegerSqrtLaws}.
(** [max_sum] is the number of the triangular number below. *)
Lemma max_sum_spec n k : 0 ≤ k → tri k ≤ n < tri (k + 1) → n < 2 ^ 28 → max_sum n = k.
Proof.
  intros Hk Hn Hsmall. pose proof (tri_double k) as H1. pose proof (tri_double (k + 1)) as H2.
  assert (H0 : 0 ≤ tri k) by nia. unfold max_sum.
  rewrite (wrap32_small (8 * n)), (wrap32_small (1 + 8 * n)) by (unfold in_u32; lia).
  destruct (integer_sqrt_spec (1 + 8 * n)) as [Hq0 Hs]; [unfold in_u32; lia|]. set (q := integer_sqrt (1 + 8 * n)) in *.
  assert (Hq : 2 * k + 1 ≤ q ≤ 2 * k + 2) by nia. rewrite wrap32_small by (unfold in_u32; nia).
  symmetry. apply (Z.div_unique_pos _ _ _ (q - 1 - 2 * k)); lia.
Qed.
Lemma block_exists n : 0 ≤ n ≤ last_index → ∃ b, 0 ≤ b ≤ 21844 ∧ 3 * tri b ≤ n < 3 * tri (b + 1) ∧ max_sum (n / 3) = b.
Proof.
  intros Hn. unfold last_index in Hn.
  assert (Hex : ∀ j : nat, n < 3 * tri (Z.of_nat j + 1) → ∃ b, 0 ≤ b ≤ Z.of_nat j ∧ 3 * tri b ≤ n < 3 * tri (b + 1)).
  { induction j as [|j IH]; intros Hj; [exists 0; change (tri 0) with 0; change (tri (0 + 1)) with 1; change (tri (Z.of_nat 0 + 1)) with 1 in Hj; lia|].
    destruct (decide (n < 3 * tri (Z.of_nat j + 1))) as [Hlt|Hge].
    - destruct (IH Hlt) as (b & ? & ?). exists b. split; [lia|done].
    - exists (Z.of_nat (S j)). rewrite Nat2Z.inj_succ in *. unfold Z.succ in *. split; lia. }
  destruct (Hex (Z.to_nat 21844)) as (b & Hb & Hbn).
  { rewrite Z2Nat.id by lia. change (tri (21844 + 1)) with 238612935. lia. }
  rewrite Z2Nat.id in Hb by lia. exists b. split_and!; [lia..|].
  pose proof (Z.div_mod n 3 ltac:(lia)). pose proof (Z.mod_pos_bound n 3 ltac:(lia)). apply max_sum_spec; lia.
Qed.

Lemma dim_of_u32_spec n : 0 ≤ n ≤ last_index → ∃ d, dim_of_u32 n = Some d ∧ valid d ∧ index d = n.
Proof.
  intros Hn. destruct (block_exists n Hn) as (b & Hb & Hbn & Hmax). unfold dim_of_u32. rewrite Hmax, block_start_spec by lia.
  pose proof (tri_succ b) as Hs. pose proof (tri_double b) as Ht. set (o := n - 3 * tri b).
  rewrite (wrap32_small o), (wrap32_small (b + 1)) by (unfold in_u32, o; nia).
  pose proof (Z.div_mod o (b + 1) ltac:(lia)) as Hdm. pose proof (Z.mod_pos_bound o (b + 1) ltac:(lia)) as Hmod.
  set (r := o / (b + 1)) in *. set (f := o mod (b + 1)) in *.
  assert (Hr : r = 0 ∨ r = 1 ∨ r = 2).
  { assert (0 ≤ o < 3 * (b + 1)) by (unfold o; lia). assert (0 ≤ r < 3); [|lia]. split; [apply Z.div_pos; lia|apply Z.div_lt_upper_bound; lia]. }
  rewrite (wrap32_small (3 * b)), (wrap32_small (3 * b + 1)), (wrap32_small (_ + r)) by (unfold in_u32; lia).
  unfold wrap16. rewrite !Z.mod_small by lia. set (d := mkDim (3 * b + 1 + r) f).
  assert (Hv : valid d) by (unfold valid, d; cbn; lia). exists d. split; [by apply (new_valid d)|]. split; [done|].
  unfold index, d. cbn [size faulty]. replace ((3 * b + 1 + r - 1) / 3) with b by (apply (Z.div_unique_pos _ _ _ r); lia).
  unfold o in *. destruct Hr as [Hr|[Hr|Hr]]; rewrite Hr in *; lia.
Qed.

(** The order on dimensions is that of their numbers. *)
Definition dim_lt d d' : Prop := size d < size d' ∨ (size d = size d' ∧ faulty d < faulty d').
Lemma dim_lt_total d d' : dim_lt d d' ∨ dim_lt d' d ∨ d = d'.
Proof.
  destruct d as [n f], d' as [n' f']. unfold dim_lt. cbn. destruct (decide (n = n' ∧ f = f')) as [[-> ->]|]; [by right; right|lia].
Qed.
Lemma index_lt d d' : valid d → valid d' → dim_lt d d' → index d < index d'.
Proof.
  intros (b & r & Hb & Hr & Hs & Hd & Hf)%valid_block (b' & r' & Hb' & Hr' & Hs' & Hd' & Hf')%valid_block Hlt.
  unfold index. rewrite Hd, Hd'. replace (size d - 3 * b - 1) with r by lia. replace (size d' - 3 * b' - 1) with r' by lia.
  destruct (decide (b = b')) as [->|Hne].
  - unfold dim_lt in Hlt. rewrite Hs, Hs' in Hlt. destruct Hr as [->|[->| ->]], Hr' as [->|[->| ->]]; lia.
  - assert (Hbb : b + 1 ≤ b') by (unfold dim_lt in Hlt; lia). pose proof (tri_mono (b + 1) b' ltac:(lia)). pose proof (tri_succ b).
    destruct Hr as [->|[->| ->]], Hr' as [->|[->| ->]]; lia.
Qed.
Lemma index_inj d d' : valid d → valid d' → index d = index d' → d = d'.
Proof.
  intros Hv Hv' He. destruct (dim_lt_total d d') as [Hl|[Hl|?]]; [| |done]; apply index_lt in Hl; (done || lia).
Qed.

Lemma succ_spec d : valid d → index d < last_index → ∃ d', succ d = Some d' ∧ valid d' ∧ index d' = index d + 1.
Proof.
  intros Hv Hlt. pose proof (valid_block d Hv) as (b & r & Hb & Hr & Hs & Hd & Hf). unfold succ, wrap16.
  assert (Hidx : index d = 3 * tri b + r * (b + 1) + faulty d).
  { unfold index. rewrite Hd. replace (size d - 3 * b - 1) with r by lia. done. }
  rewrite (Z.mod_small (faulty d + 1)), (Z.mod_small (3 * (faulty d + 1))) by lia. case_bool_decide as Hfull.
  - assert (Hfb : faulty d = b) by lia. assert (Hsize : size d < 65535).
    { destruct (decide (b = 21844)) as [->|]; [|lia]. unfold last_index in Hlt. pose proof (tri_double 21844). lia. }
    rewrite Z.mod_small by lia. set (d' := mkDim (size d + 1) 0). assert (Hv' : valid d') by (unfold valid, d'; cbn; lia).
    exists d'. split; [by apply (new_valid d')|]. split; [done|]. rewrite Hidx. unfold index, d'. cbn [size faulty]. rewrite Hs.
    replace (3 * b + 1 + r + 1 - 1) with (3 * b + (r + 1)) by lia. pose proof (tri_succ b). destruct (decide (r = 2)) as [->|Hr2].
    + replace ((3 * b + (2 + 1)) / 3) with (b + 1) by (apply (Z.div_unique_pos _ _ _ 0); lia). lia.
    + replace ((3 * b + (r + 1)) / 3) with b by (apply (Z.div_unique_pos _ _ _ (r + 1)); lia). destruct Hr as [->|[->| ->]]; lia.
  - set (d' := mkDim (size d) (faulty d + 1)). assert (Hv' : valid d') by (unfold valid, d' in *; cbn; lia).
    exists d'. split; [by apply (new_valid d')|]. split; [done|]. rewrite Hidx. unfold index, d'. cbn [size faulty]. rewrite Hd. nia.
Qed.
Lemma dimension_index d : valid d → dim_of_u32 (u32_of_dim d) = Some d.
Proof.
  intros Hv. rewrite (u32_of_dim_spec d Hv). pose proof (index_bound d Hv). assert (1 ≤ size d) by (unfold valid in Hv; lia).
  destruct (dim_of_u32_spec (index d)) as (d' & Hd & Hv' & He); [lia|]. by rewrite Hd, (index_inj d' d).
Qed.

(** C38: The numbering of the dimensions is a bijection in both directions of the conversion, without
    overflow on 32 bits: the dimensions with [3 faulty < size < 2^16] have the numbers up to
    [last_index], in the order by size and number of faulty nodes, and [succ] goes from a number
    to the next. *)
Theorem dimension_numbering :
  (∀ d, valid d → 0 ≤ u32_of_dim d ≤ last_index ∧ dim_of_u32 (u32_of_dim d) = Some d) ∧
  (∀ n, 0 ≤ n ≤ last_index → ∃ d, dim_of_u32 n = Some d ∧ valid d ∧ u32_of_dim d = n) ∧
  (∀ d d', valid d → valid d' → (dim_lt d d' ↔ u32_of_dim d < u32_of_dim d')) ∧
  (∀ d, valid d → u32_of_dim d < last_index → ∃ d', succ d = Some d' ∧ valid d' ∧ u32_of_dim d' = u32_of_dim d + 1).
Proof.
  split_and!.
  - intros d Hv. rewrite (u32_of_dim_spec d Hv) at 1 2. pose proof (index_bound d Hv). assert (1 ≤ size d) by (unfold valid in Hv; lia).
    split; [lia|by apply dimension_index].
  - intros n (d & Hd & Hv & He)%dim_of_u32_spec. exists d. by rewrite u32_of_dim_spec.
  - intros d d' Hv Hv'. rewrite !u32_of_dim_spec by done. split; [by apply index_lt|]. intros Hlt.
    destruct (dim_lt_total d d') as [?|[?%index_lt| ->]]; (done || lia).
  - intros d Hv. rewrite u32_of_dim_spec by done. intros Hlt. destruct (succ_spec d Hv Hlt) as (d' & H1 & H2 & H3). exists d'.
    by rewrite u32_of_dim_spec.
Qed.

(** ** Searching *)

(** How a [ValueTree] is used to make a failing value smaller, as its documentation says:
    [simplify] after a test that fails, [complicate] after one that passes, until there is no
    more to try.  [None] is a panic, or that the fuel is used up. *)
Fixpoint shrink (fails : NetworkDimension → bool) (fuel : nat) t : option NetworkDimensionTree :=
  match fuel with
  | O => None
  | S fuel =>
      d ← tree_current t;
      let '(t', more) := if fails d then simplify t else complicate t in
      if more : bool then shrink fails fuel t' else Some t'
  end.

Lemma shrink_S fails (fuel : nat) t : shrink fails (S fuel) t = (d ← tree_current t;
  let '(t', more) := if fails d then simplify t else complicate t in
  if more : bool then shrink fails fuel t' else Some t').
Proof. done. Qed.

Lemma gen_spec {R} `{gen_u16_laws : GenU16Laws R} (rng rng' : R) (min_size max_size : u16) t :
  0 ≤ max_size < 2 ^ 16 → gen rng min_size max_size = Some (t, rng') →
  ∃ d, valid d ∧ t = mkTree (index d) (index d) min_size ∧ 0 < min_size ∧ min_size ≤ size d ≤ max_size.
Proof.
  intros Hmax. unfold gen. case_bool_decide as Hmin; [|done].
  destruct (gen_u16 min_size _ rng) as [[total r1]|] eqn:H1; [|done]. cbn [mbind option_bind].
  destruct (gen_u16 0 _ r1) as [[f r2]|] eqn:H2; [|done]. cbn [mbind option_bind]. apply gen_u16_range in H1, H2.
  unfold wrap16 in H1, H2. pose proof (Z.mod_le (max_size + 1) (2 ^ 16) ltac:(lia) ltac:(lia)) as Hle.
  rewrite (Z.mod_small (total - 1)) in H2 by lia. pose proof (Z.div_mod (total - 1) 3 ltac:(lia)) as Hdm.
  pose proof (Z.mod_pos_bound (total - 1) 3 ltac:(lia)). rewrite Z.mod_small in H2 by lia. set (d := mkDim total f).
  assert (Hv : valid d) by (unfold valid, d; cbn; lia). rewrite (new_valid d Hv : new total f = Some d). cbn [mbind option_bind].
  intros [= <- <-]. exists d. rewrite u32_of_dim_spec by done. split_and!; cbn; (done || lia).
Qed.

Section search.
Context (fails : NetworkDimension → bool) (low0 : Z).
Context (Hmono : ∀ d d', valid d → valid d' → dim_lt d d' → fails d = true → fails d' = true).
Definition fails_at n : Prop := ∃ d, valid d ∧ index d = n ∧ fails d = true.

(** The least failing number is between [low] and [high]. *)
Record searching t : Prop := {
  se_low : low0 ≤ low t ∧ 0 ≤ low t ≤ high t;
  se_high : high t ≤ last_index;
  se_fails : fails_at (high t);
  se_passes n : low0 ≤ n < low t → ¬ fails_at n;
  se_middle : current t = (low t + high t) / 2;
}.
Definition found t : Prop := ∃ d, tree_current t = Some d ∧ valid d ∧ fails d = true ∧
  ∀ d', valid d' → fails d' = true → low0 ≤ index d' → index d ≤ index d'.

Lemma fails_mono n m : n ≤ m ≤ last_index → fails_at n → fails_at m.
Proof.
  intros Hm (d & Hv & <- & Hf). pose proof (index_bound d Hv) as Hi. assert (1 ≤ size d) by (unfold valid in Hv; lia).
  destruct (dim_of_u32_spec m) as (d' & _ & Hv' & He); [lia|]. exists d'. split_and!; [done..|].
  destruct (decide (m = index d)) as [->|]; [by rewrite (index_inj d' d)|]. apply (Hmono d); try done.
  destruct (dim_lt_total d d') as [?|[Hl|?]]; [done| |congruence]. apply index_lt in Hl; [lia|done..].
Qed.

Lemma search_step t : searching t → ∃ d, tree_current t = Some d ∧
  let '(t', more) := if fails d then simplify t else complicate t in
  if more : bool then searching t' ∧ high t' - low t' ≤ (high t - low t) / 2 ∧ low t < high t else found t'.
Proof.
  intros [Hlow Hhigh Hf Hp Hmid]. unfold last_index in Hhigh.
  assert (Hcur : low t ≤ current t ≤ high t) by (rewrite Hmid; split; [apply Z.div_le_lower_bound|apply Z.div_le_upper_bound]; lia).
  pose proof (Z.div_mod (low t + high t) 2 ltac:(lia)) as Hdm. pose proof (Z.mod_pos_bound (low t + high t) 2 ltac:(lia)) as Hmod.
  rewrite <- Hmid in Hdm. pose proof (Z.div_mod (high t - low t) 2 ltac:(lia)). pose proof (Z.mod_pos_bound (high t - low t) 2 ltac:(lia)).
  destruct (dim_of_u32_spec (current t)) as (d & Hd & Hv & Hi); [unfold last_index; lia|]. exists d. split; [done|].
  destruct (fails d) eqn:Hfd.
  - assert (Hfc : fails_at (current t)) by by exists d. unfold simplify.
    rewrite wrap32_small by (unfold in_u32; lia). set (c := (low t + current t) / 2).
    case_bool_decide as Hmore.
    + assert (Hlt : low t < high t).
      { destruct (decide (low t = high t)) as [He|]; [|lia]. destruct Hmore as [Hm|Hm]; [lia|]. destruct Hm. unfold c.
        apply Z.div_unique_pos with (r := 0); lia. }
      split; [|cbn; lia]. by split; cbn; try (unfold last_index; lia).
    + assert (Hhc : high t = current t) by (apply dec_stable; tauto). assert (Hcc : current t = c) by (apply dec_stable; tauto).
      unfold found, tree_current. cbn. rewrite <- Hcc. exists d. split_and!; [done..|].
      intros d' Hv' Hf' Hl. apply dec_stable. intros Hlt. apply (Hp (index d')); [lia|by exists d'].
  - unfold complicate. rewrite bool_decide_false.
    2: { intros Hhc. destruct Hf as (d' & Hv' & Hi' & Hf'). rewrite (index_inj d' d) in Hf' by (done || lia). congruence. }
    assert (Hlt : current t < high t).
    { destruct (decide (current t = high t)) as [He|]; [|lia]. destruct Hf as (d' & Hv' & Hi' & Hf').
      rewrite (index_inj d' d) in Hf' by (done || lia). congruence. }
    rewrite (wrap32_small (current t + 1)), wrap32_small by (unfold in_u32; lia). rewrite bool_decide_true by lia. cbn [high low].
    split; [|lia]. split; cbn; try (unfold last_index; lia); try done.
    intros n Hn Hfn. destruct (decide (n < low t)) as [?|]; [exfalso; apply (Hp n); [lia|exact Hfn]|].
    destruct (fails_mono n (current t)) as (d' & Hv' & Hi' & Hf'); [unfold last_index; lia|done|].
    rewrite (index_inj d' d) in Hf' by (done || lia). congruence.
Qed.

Lemma search_ends (k : nat) : ∀ t, searching t → high t - low t < 2 ^ Z.of_nat k → ∃ t', shrink fails (S k) t = Some t' ∧ found t'.
Proof.
  induction k as [|k IH]; intros t Ht Hw; destruct (search_step t Ht) as (d & Hd & Hstep); rewrite shrink_S, Hd; cbn [mbind option_bind].
  all: destruct (if fails d then simplify t else complicate t) as [t' []]; [|by exists t']; destruct Hstep as (Ht' & Hle & Hlt).
  - cbn in Hw. lia.
  - apply IH; [done|]. rewrite Nat2Z.inj_succ, Z.pow_succ_r in Hw by lia. eapply Z.le_lt_trans; [exact Hle|].
    apply Z.div_lt_upper_bound; lia.
Qed.
End search.

Lemma shrink_least {R} `{gen_u16_laws : GenU16Laws R} (rng rng' : R) (min_size max_size : u16) t d (fails : NetworkDimension → bool) :
  0 ≤ max_size < 2 ^ 16 → gen rng min_size max_size = Some (t, rng') → tree_current t = Some d → fails d = true →
  (∀ d d', valid d → valid d' → dim_lt d d' → fails d = true → fails d' = true) →
  ∃ t' d', shrink fails 32 t = Some t' ∧ tree_current t' = Some d' ∧ valid d' ∧ fails d' = true ∧
    ∀ d2, valid d2 → fails d2 = true → min_size ≤ u32_of_dim d2 → u32_of_dim d' ≤ u32_of_dim d2.
Proof.
  intros Hmax Hgen Hd Hf Hmono. destruct (gen_spec rng rng' min_size max_size t Hmax Hgen) as (d0 & Hv & -> & Hmin & Hsize).
  pose proof (index_bound d0 Hv) as Hi. unfold tree_current in Hd. cbn in Hd.
  destruct (dim_of_u32_spec (index d0)) as (d1 & Hd1 & Hv1 & He1); [lia|].
  assert (d0 = d) as ->. { rewrite Hd1 in Hd. injection Hd as <-. symmetry. by apply index_inj. }
  enough (∃ t', shrink fails 32 (mkTree (index d) (index d) min_size) = Some t' ∧ found fails min_size t') as (t' & Hs & d' & Hc & Hv' & Hf' & Hl).
  { exists t', d'. split_and!; [done..|]. intros d2 Hv2 Hf2. rewrite !u32_of_dim_spec by done. by apply Hl. }
  rewrite (shrink_S fails 31). unfold tree_current at 1. cbn [current]. rewrite Hd. cbn [mbind option_bind]. rewrite Hf. unfold simplify. cbn [high current low].
  unfold last_index in Hi. rewrite wrap32_small by (unfold in_u32; lia).
  pose proof (Z.div_mod (min_size + index d) 2 ltac:(lia)) as Hdm. pose proof (Z.mod_pos_bound (min_size + index d) 2 ltac:(lia)) as Hmod.
  case_bool_decide as Hmore.
  - apply (search_ends fails min_size Hmono 30); [|cbn; lia]. split; cbn; try (unfold last_index; lia).
    by exists d.
  - assert (Hcc : index d = (min_size + index d) / 2) by (apply dec_stable; tauto). eexists. split; [done|]. exists d. unfold tree_current. cbn.
    rewrite <- Hcc. split_and!; [done..|]. intros d' Hv' _ Hl. lia.
Qed.

(** Shrinking finds the least failing dimension: from a generated tree whose dimension fails a
    test that keeps failing when dimensions grow, at most 32 tests lead to a dimension that
    fails, and no failing dimension from the tree's lower bound on has a smaller number. *)
Theorem shrink_finds_least {R} `{gen_u16_laws : GenU16Laws R} (rng rng' : R) (min_size max_size : u16) t d (fails : NetworkDimension → bool) :
  0 ≤ max_size < 2 ^ 16 → gen rng min_size max_size = Some (t, rng') → tree_current t = Some d → fails d = true →
  (∀ d d', valid d → valid d' → dim_lt d d' → fails d = true → fails d' = true) →
  ∃ t' d', shrink fails 32 t = Some t' ∧ tree_current t' = Some d' ∧ valid d' ∧ fails d' = true ∧
    ∀ d2, valid d2 → fails d2 = true → min_size ≤ u32_of_dim d2 → u32_of_dim d' ≤ u32_of_dim d2.
Proof. apply shrink_least. Qed.

Lemma index_above_size d : valid d → 7 ≤ size d → size d < index d.
Proof.
  intros (b & r & Hb & Hr & Hs & Hd & Hf)%valid_block H7. unfold index. rewrite Hd. replace (size d - 3 * b - 1) with r by lia.
  pose proof (tri_double b). destruct Hr as [->|[->| ->]]; nia.
Qed.

(** C39: Shrinking leaves the range of the strategy: whatever dimension between [min_size >= 7] and
    [max_size] nodes is generated, a test that always fails is shrunk to a dimension with fewer
    than [min_size] nodes, since the lower bound of the search is not the number of the least
    dimension of this size, but the size itself. *)
Theorem shrink_leaves_range {R} `{gen_u16_laws : GenU16Laws R} (rng rng' : R) (min_size max_size : u16) t :
  7 ≤ min_size → 0 ≤ max_size < 2 ^ 16 → new_tree (range min_size max_size) rng = Some (t, rng') →
  (∃ d, tree_current t = Some d ∧ min_size ≤ size d ≤ max_size) ∧
  ∃ t' d', shrink (λ _, true) 32 t = Some t' ∧ tree_current t' = Some d' ∧ size d' < min_size.
Proof.
  intros H7 Hmax Hgen. destruct (gen_spec rng rng' min_size max_size t Hmax Hgen) as (d & Hv & Ht & Hmin & Hsize).
  assert (Hd : tree_current t = Some d).
  { rewrite Ht. unfold tree_current. cbn. rewrite <- u32_of_dim_spec by done. by apply dimension_index. }
  split; [by exists d|].
  destruct (shrink_least rng rng' min_size max_size t d (λ _, true) Hmax Hgen Hd eq_refl) as (t' & d' & Hs & Hc & Hv' & _ & Hl); [done|].
  exists t', d'. split_and!; [done..|]. destruct (dim_of_u32_spec min_size) as (d2 & _ & Hv2 & He2); [unfold last_index; lia|].
  specialize (Hl d2 Hv2 eq_refl). rewrite !u32_of_dim_spec in Hl by done. apply Z.nle_gt. intros Hle.
  pose proof (index_above_size d' Hv' ltac:(lia)). lia.
Qed.
End numbering.
End dimensions.
