(* ===== verification/DimensionsDemo.v ===== *)
(** * Dimensions of test networks: executions

    The theorems of [Dimensions] at concrete dimensions, with the square root of the
    Standard Library and random numbers that are all the same. *)
From S2P Require Import Prelude.
From S2P Require Import Dimensions.

Module dimensions_demo.
Import dimensions.
#[local] Open Scope Z_scope.

#[local] Instance floor_sqrt : IntegerSqrt := {| integer_sqrt := Z.sqrt |}.
#[local] Instance floor_sqrt_laws : IntegerSqrtLaws.
Proof. split. intros n Hn. unfold in_u32 in Hn. split; [apply Z.sqrt_nonneg|]. apply (Z.sqrt_spec n). lia. Qed.
(** The generator is a number that is drawn modulo the width of the range. *)
#[local] Instance constant_gen : GenU16 Z :=
  {| gen_u16 lo hi r := if decide (lo < hi) then Some (lo + r mod (hi - lo), r) else None |}.
#[local] Instance constant_gen_laws : GenU16Laws Z.
Proof.
  split. intros lo hi r r' x. cbn. case_decide; [|done]. intros [= <- <-].
  pose proof (Z.mod_pos_bound r (hi - lo)). lia.
Qed.

(** Between 7 and 40 nodes: 19 nodes, 5 of them faulty *)
Definition demo_tree : NetworkDimensionTree := mkTree 68 68 7.
Definition fails_from_nine (d : NetworkDimension) : bool := bool_decide (9 ≤ size d).
Lemma demo_gen : new_tree (range 7 40) 12 = Some (demo_tree, 12).
Proof. vm_compute. reflexivity. Qed.
Lemma demo_current : tree_current demo_tree = Some (mkDim 19 5).
Proof. vm_compute. reflexivity. Qed.
Lemma nine_mono d d' : valid d → valid d' → dim_lt d d' → fails_from_nine d = true → fails_from_nine d' = true.
Proof. intros _ _ Hlt. unfold fails_from_nine. rewrite !bool_decide_eq_true. unfold dim_lt in Hlt. lia. Qed.

Lemma dimension_numbering_witness : dim_of_u32 (u32_of_dim (mkDim 19 5)) = Some (mkDim 19 5).
Proof. destruct dimension_numbering as (H & _). apply (H (mkDim 19 5)). unfold valid. cbn. lia. Defined.

Lemma shrink_finds_least_witness : ∃ t' d', shrink fails_from_nine 32 demo_tree = Some t' ∧
  tree_current t' = Some d' ∧ fails_from_nine d' = true ∧ u32_of_dim d' ≤ u32_of_dim (mkDim 9 0).
Proof.
  destruct (shrink_finds_least 12 12 7 40 demo_tree (mkDim 19 5) fails_from_nine ltac:(lia) demo_gen demo_current eq_refl nine_mono)
    as (t' & d' & Hs & Hc & _ & Hf & Hl).
  exists t', d'. split; [exact Hs|]. split; [exact Hc|]. split; [exact Hf|].
  apply (Hl (mkDim 9 0)); [unfold valid; cbn; lia|reflexivity|vm_compute; discriminate].
Defined.

Lemma shrink_leaves_range_witness :
  ∃ t' d', shrink (λ _, true) 32 demo_tree = Some t' ∧ tree_current t' = Some d' ∧ size d' < 7.
Proof. apply (shrink_leaves_range 12 12 7 40 demo_tree); [lia|lia|exact demo_gen]. Defined.
End dimensions_demo.
